(* ===== verification/_CoqProject ===== *)
-Q . S2P
Prelude.v
Bytes.v
Text.v
Error.v
Backend.v
Frontend.v
Driver.v
DriverFacts.v
Scram.v
Tls.v
Startup.v
Types.v
Codec.v
Composite.v
ScalarCodecs.v
Temporal.v
Spatial.v
SpatialFacts.v
Fragment.v
Cache.v
Prog.v
Session.v
Link.v
Prepared.v
Copy.v
Transaction.v
Stream.v
Pool.v
PoolScopes.v
BTree.v
SqlIr.v
SqlSource.v
SqlSourceFacts.v
Resolver.v
ResolverFacts.v
StatementTyping.v
SelectSemantics.v
Lower.v
LowerFacts.v
Normalize.v
NormalizeFacts.v
Pipeline.v
SqlMacro.v
SqlMacroFacts.v
Derive.v
Verify.v
SchemaDef.v
SchemaDecl.v
SchemaDeclFacts.v
PublicInput.v
FrontDoor.v
FrontDoorFacts.v
MacroEntry.v
TextCodecs.v
Migration.v
MigrationPlan.v
MigrationRunner.v
