(* ===== verification/Prelude.v ===== *)
(** * babar: a verification library for the PostgreSQL driver (prelude and overview)

    babar is an asynchronous PostgreSQL driver ([src/crates/core]) with compile-time SQL macros
    ([src/crates/macros]).  This library embeds the driver and the typed-SQL compiler in Rocq
    and proves what makes them correct.  File names below are relative to
    [src/crates/core/src], those of the compiler to [src/crates/macros/src/typed_sql].

    ** The program and its model

    A [Session] owns a channel to a background _driver_ task, which owns the socket.  A caller's
    method is an async function that sends commands to the driver and awaits replies; typed
    statements are built from fragments and codecs; prepared statements are cached; migrations
    run over a session.  From the wire upwards:

    - [Bytes], [Text]: machine integers on the wire, and the parts of [core::str] and
      [core::num] that the code uses.
    - [Error] ([error.rs], [migration/error.rs]); [Backend] ([protocol/backend.rs],
      [protocol/codec.rs]): server messages and their incremental decoder; [Frontend]
      ([protocol/frontend.rs]): client messages over the interface [FrontendApi].
    - [Driver], [DriverFacts] ([session/driver.rs]): the driver's loop as a step function on a
      record of its state ([DriverState]: queue, command in flight, buffers, replies).
    - [Scram] ([auth/]), [Tls] ([config.rs], [tls.rs]), [Startup] ([session/startup.rs]):
      authentication and connection establishment, over a socket that is a list of reads.
    - [Types] ([types.rs]), [Codec] ([codec/mod.rs], [primitive.rs], [nullable.rs], [tuple.rs]),
      [Composite] ([array.rs], [range.rs], [multirange.rs]), [ScalarCodecs] (the floats of
      [primitive.rs], [interval.rs], [pgvector.rs], [citext.rs], [text_search.rs], [uuid.rs],
      [json.rs], [numeric.rs], [net.rs]), [Temporal] ([time.rs], [chrono.rs]), [Spatial],
      [SpatialFacts] ([postgis.rs]), [TextCodecs] ([bits.rs], [macaddr.rs], [hstore.rs]):
      values to parameter slots and columns to values.
    - [Fragment] ([query/]): statements with numbered placeholders.
    - [Cache] ([session/cache.rs], [type_registry.rs]), [Prog] (async functions as trees of
      indivisible operations, run alone or interleaved), [Session] ([session/mod.rs],
      [prepared.rs]), [Link] (a session over the driver over a server), [Prepared] (statements
      under interleaving), [Copy] ([copy.rs]), [Transaction] ([transaction.rs]), [Stream]
      ([session/stream.rs]), [Pool], [PoolScopes] ([pool.rs]).
    - The typed-SQL compiler: [SqlIr] ([ir.rs], [mod.rs]), [SqlSource], [SqlSourceFacts]
      ([source.rs], [parse_backend.rs]): the placeholder scanner and the canonical text;
      [Normalize], [NormalizeFacts] ([normalize.rs]): from sqlparser's tree to the statements
      the compiler accepts; [Resolver], [ResolverFacts], [StatementTyping], [SelectSemantics]
      ([resolver.rs]): names, types and nullability, against a semantics of SELECT; [Lower],
      [LowerFacts] ([lower.rs]): SQL text, numbering and the variants of optional groups;
      [Pipeline]: these stages one after the other.
    - The other macros: [SqlMacro], [SqlMacroFacts] ([sql!] of [macros/src/lib.rs]), [Derive]
      ([derive(Codec)] of the same file), [Verify] ([macros/src/verify.rs]): what is checked
      against a live database; [SchemaDef] ([schema.rs]): schema symbols at run time;
      [SchemaDecl], [SchemaDeclFacts] ([macros/src/schema_decl.rs] and the schema block of
      [public_schema.rs]); [PublicInput] ([public_input.rs]): SQL written as Rust tokens;
      [FrontDoor], [FrontDoorFacts] ([public_schema.rs]): the compiler behind [query!] and
      [command!]; [MacroEntry] ([macros/src/lib.rs]): from the tokens of a call to it.
    - [BTree], [Migration], [MigrationPlan], [MigrationRunner] ([migration/]).

    A definition carries the name of the function it translates (prefixed when several share
    it); a method of a component takes and returns the component's record.

    ** What the theorems show

    - Wire: the decoder's result does not depend on how the bytes were segmented, and every
      message stream a server can send decodes to itself; hostile lengths are errors.
    - Driver: every command is answered exactly once and in order; what the answer is, as a
      function of the server's messages; what is written for it; the transaction status
      follows the server; after closing nothing is left waiting.
    - Connection: SCRAM completes against any correct server and no other is accepted; the TLS
      policy and the channel binding; startup ends, and what it collects.
    - Codecs: decoding undoes encoding for every codec in range, compositionally.
    - Statements: the placeholders, parameters and metadata of every built statement agree; a
      query over the whole stack returns the server's rows decoded.
    - Session: under every interleaving live prepared handles name statements the server holds;
      transactions and savepoints keep all of their body's changes or none; a stream delivers
      its rows and always cleans up; a COPY payload reads back as its rows.
    - Pool: what each connection goes through between leaving and returning to the pool, and
      that no connection inside a transaction is handed out again.
    - Typed SQL: canonicalising a source keeps its text and its spans; a column the resolver
      calls non-nullable is never NULL in any row the statement returns; every placeholder
      ends with one type or an error; the variant of a statement chosen for the arguments
      present contains exactly the active groups, with its slots numbered from 1.
    - Macros: a normalised statement is well formed and refers to the placeholders of its
      source; the stages fit together, so a call of [query!] or [command!] ends with code or
      with an error and does not panic (for statements whose own text has no placeholder and
      whose names are optional everywhere or nowhere); an accepted SELECT was checked against
      the configured database, table by table and column by column; the two compilations of a [schema!]
      declaration agree; SQL tokens keep their order and positions; [sql!] means its text with
      each name replaced by its codec or nested fragment; a derived codec undoes itself.
    - Migrations: catalogs, plans, drift, and that the state table records exactly the scripts
      that ran, whatever fails.

    ** Bounds and fuel

    Machine integers are [Z] with their range or wrap-around written out.  Loops of the source
    that consume a buffer are structural or take the buffer's length as fuel, with a theorem
    that this is enough ([decode_all_fuel_enough], [parse_hstore_total]).  [connect] and
    [drive_stream] loop on the network: they take one unit of fuel per read or per batch, and
    [connect_total] and [stream_delivers] say how much is enough.  The compiler's loops take the
    length of the text ([scan_loop], [renumber_slots]) or a count of the rounds that can still
    change something ([solve_loop]); [read_geometry] and its counted loops take more than the
    bytes left to read, of which every level and every element consumes at least one.

    ** Interfaces

    Code of other crates is a class of operations with its documented laws: [FrontendApi] and
    [FrontendFrames] (postgres-protocol), [Crypto] and [CryptoLaws] (sha2, hmac, md5, base64),
    [CertHash] and the handshake (rustls), [PgTypes] and [PgTypesLaws] (binary arrays and
    ranges), [SqlHash] (the standard hasher), [Transport] (tokio), [FloatText] (parsing and printing
    floats), [Uuids], [Json], [Decimals], [Inet] (uuid, serde_json, rust_decimal,
    postgres-protocol), [PgTime], [Dates], [Instants], [TimeOfDay], [NaiveTime] (time, chrono),
    [Live] (the client and server a macro verifies against).  Each has an instance.  [GeoValue]
    is the crate's own trait.  Closing the ring of a polygon (geo-types), the tokens and trees of sqlparser, the spans of proc_macro2 and Unicode
    lower-casing are parameters; what syn parses before the SQL of a call is an input.
    Servers are specifications written from PostgreSQL's documentation ([control_step],
    [PortalServer], the migration server), also with instances.

    ** Not modelled

    Socket and file-system I/O, the TLS handshake, tracing spans ([telemetry.rs]) and trait
    plumbing ([async_fn.rs], [lib.rs]); the arithmetic of floats; cancellation of a future in
    the middle of its body.  Of the macros: the text of the Rust code they generate, which is
    represented by what it defines; the older [query!] and [command!] forms of
    [macros/src/lib.rs], which no macro reaches any more; the shift [1 << total_flags] of a
    statement with more than 63 optional parts, which overflows. *)

From stdpp Require Export base option list gmap strings sorting.
From Stdlib Require Export ZArith Lia.
From Stdlib Require Export Strings.Byte.
From coqutil Require Export Byte.

(** ** Rust strings and byte buffers

    A Rust [&[u8]] / [Vec<u8>] / [Bytes] is a list of bytes.  A Rust [str] is the list of its
    UTF-8 bytes, so slicing, [len], [as_bytes] and the wire representation are the identity;
    the operations on characters decode it ([Text.v]). *)
Abbreviation bytes := (list byte).
Abbreviation str := (list byte).

Declare Scope str_scope.
Delimit Scope str_scope with s.
Definition str_of_literal (s : list byte) : list byte := s.
String Notation str str_of_literal str_of_literal : str_scope.

#[export] Instance byte_eq_dec : EqDecision byte := Byte.byte_eq_dec.

#[export] Program Instance byte_countable : Countable byte :=
  inj_countable Byte.to_N Byte.of_N _.
Next Obligation. intros b. apply Byte.of_to_N. Qed.

(** ** Fallible computations

    [result E A] is Rust's [Result<A, E>].  The [?] operator is the monadic bind. *)
Inductive result (E A : Type) : Type :=
  | Ok (a : A)
  | Err (e : E).
Arguments Ok {E A} a.
Arguments Err {E A} e.

#[export] Instance result_eq_dec {E A} `{EqDecision E, EqDecision A} :
  EqDecision (result E A).
Proof. solve_decision. Defined.

#[export] Instance result_ret {E} : MRet (result E) := λ A a, Ok a.
#[export] Instance result_bind {E} : MBind (result E) := λ A B f m,
  match m with Ok a => f a | Err e => Err e end.
#[export] Instance result_fmap {E} : FMap (result E) := λ A B f m,
  match m with Ok a => Ok (f a) | Err e => Err e end.

(** [Result::map_err] *)
Definition map_err {E F A} (f : E → F) (m : result E A) : result F A :=
  match m with Ok a => Ok a | Err e => Err (f e) end.

(** [Option::ok_or] *)
Definition ok_or {E A} (o : option A) (e : E) : result E A :=
  match o with Some a => Ok a | None => Err e end.

(** [Result::ok] *)
Definition to_option {E A} (m : result E A) : option A :=
  match m with Ok a => Some a | Err _ => None end.

Definition is_ok {E A} (m : result E A) : Prop := ∃ a, m = Ok a.
Definition is_err {E A} (m : result E A) : Prop := ∃ e, m = Err e.

(** ** State with failure

    Rust code that threads a [&mut S] and returns a [Result]: the state reached is kept on
    the error path too, as the mutation is. *)
Definition SE (S E A : Type) : Type := S → result E A * S.

#[export] Instance se_ret {S E} : MRet (SE S E) := λ A a s, (Ok a, s).
#[export] Instance se_bind {S E} : MBind (SE S E) := λ A B f m s,
  match m s with
  | (Ok a, s') => f a s'
  | (Err e, s') => (Err e, s')
  end.
#[export] Instance se_fmap {S E} : FMap (SE S E) := λ A B f m s,
  match m s with
  | (Ok a, s') => (Ok (f a), s')
  | (Err e, s') => (Err e, s')
  end.

Definition throw {S E A} (e : E) : SE S E A := λ s, (Err e, s).
Definition lift {S E A} (r : result E A) : SE S E A := λ s, (r, s).

(** ** Lemmas on the two monads *)
Section result_lemmas.
Context {E A B : Type}.
Implicit Types (m : result E A) (f : A → result E B).

Lemma result_bind_Ok m f b : m ≫= f = Ok b ↔ ∃ a, m = Ok a ∧ f a = Ok b.
Proof. destruct m; cbn; naive_solver. Qed.

Lemma result_bind_Err m f e :
  m ≫= f = Err e ↔ m = Err e ∨ ∃ a, m = Ok a ∧ f a = Err e.
Proof. destruct m; cbn; naive_solver. Qed.

Lemma result_fmap_Ok (g : A → B) m b : g <$> m = Ok b ↔ ∃ a, m = Ok a ∧ b = g a.
Proof. destruct m; cbn; naive_solver. Qed.

Lemma map_err_Ok {F} (h : E → F) m a : map_err h m = Ok a ↔ m = Ok a.
Proof. destruct m; cbn; naive_solver. Qed.

Lemma ok_or_Ok (o : option A) (e : E) a : ok_or o e = Ok a ↔ o = Some a.
Proof. destruct o; cbn; naive_solver. Qed.
End result_lemmas.

Section se_lemmas.
Context {S E A B : Type}.

Lemma se_bind_Ok (m : SE S E A) (f : A → SE S E B) s a s' :
  m s = (Ok a, s') → (m ≫= f) s = f a s'.
Proof. intros H. unfold mbind, se_bind. by rewrite H. Qed.

Lemma se_bind_Err (m : SE S E A) (f : A → SE S E B) s e s' :
  m s = (Err e, s') → (m ≫= f) s = (Err e, s').
Proof. intros H. unfold mbind, se_bind. by rewrite H. Qed.

Lemma se_bind_inv (m : SE S E A) (f : A → SE S E B) s b s' :
  (m ≫= f) s = (Ok b, s') → ∃ a s1, m s = (Ok a, s1) ∧ f a s1 = (Ok b, s').
Proof. unfold mbind, se_bind. destruct (m s) as [[a|e] s1]; naive_solver. Qed.

(** The two ways a sequence ends. *)
Lemma se_bind_cases (m : SE S E A) (f : A → SE S E B) s r s' :
  (m ≫= f) s = (r, s') →
  (∃ a s1, m s = (Ok a, s1) ∧ f a s1 = (r, s')) ∨ (∃ e, m s = (Err e, s') ∧ r = Err e).
Proof.
  unfold mbind, se_bind. destruct (m s) as [[a|e] s1]; [left; eauto|]. intros [= <- <-]. right. eauto.
Qed.
End se_lemmas.

(** ** Iteration: [for _ in 0..n] and [for x in xs] in a monad *)
Fixpoint se_times {S E A} (n : nat) (m : SE S E A) : SE S E (list A) :=
  match n with
  | O => mret []
  | Datatypes.S n => a ← m; l ← se_times n m; mret (a :: l)
  end.

Fixpoint fold_result {E A B} (f : B → A → result E B) (acc : B) (l : list A) : result E B :=
  match l with
  | [] => Ok acc
  | a :: l => acc ← f acc a; fold_result f acc l
  end.

Lemma fold_result_app {E A B} (f : B → A → result E B) acc l1 l2 :
  fold_result f acc (l1 ++ l2) = (fold_result f acc l1 ≫= λ acc, fold_result f acc l2).
Proof.
  revert acc. induction l1 as [|a l1 IH]; intros acc; cbn; [done|].
  destruct (f acc a); cbn; [apply IH | done].
Qed.

Fixpoint map_result {E A B} (f : A → result E B) (l : list A) : result E (list B) :=
  match l with
  | [] => Ok []
  | a :: l => b ← f a; bs ← map_result f l; Ok (b :: bs)
  end.

Lemma map_result_Ok {E A B} (f : A → result E B) l l' :
  map_result f l = Ok l' ↔ Forall2 (λ a b, f a = Ok b) l l'.
Proof.
  revert l'. induction l as [|a l IH]; intros l'; cbn.
  { split; [intros [= <-]; constructor | by inversion 1]. }
  split.
  - intros (b & Hb & (bs & Hbs & [= <-])%result_bind_Ok)%result_bind_Ok.
    constructor; [done | by apply IH].
  - intros (b & bs & Hb & Hbs%IH & ->)%Forall2_cons_inv_l.
    by rewrite Hb; cbn; rewrite Hbs.
Qed.

Lemma elem_of_concat_map {A B} (f : A → list B) l x : x ∈ concat (map f l) ↔ ∃ a, a ∈ l ∧ x ∈ f a.
Proof.
  induction l as [|a l IH]; cbn; [set_solver|]. rewrite elem_of_app, IH. set_solver.
Qed.

(** ** Automation

    [inv_result] splits a successful or failed monadic computation in the context into its
    stages; the hint database [babar] carries the side conditions the component lemmas share. *)
Create HintDb babar.

Ltac inv_result :=
  repeat match goal with
  | H : _ ≫= _ = Ok _ |- _ => apply result_bind_Ok in H as (? & ? & H)
  | H : (_ ≫= _) _ = (Ok _, _) |- _ => apply se_bind_inv in H as (? & ? & ? & H)
  | H : map_err _ _ = Ok _ |- _ => apply map_err_Ok in H
  | H : ok_or _ _ = Ok _ |- _ => apply ok_or_Ok in H
  | H : Ok _ = Ok _ |- _ => injection H as H
  | H : Err _ = Ok _ |- _ => discriminate H
  | H : Ok _ = Err _ |- _ => discriminate H
  | H : mret _ = Ok _ |- _ => injection H as H
  end.

#[export] Hint Extern 1 (is_ok _) => eexists; reflexivity : babar.
#[export] Hint Extern 1 (is_err _) => eexists; reflexivity : babar.
