(* ===== verification/Bytes.v ===== *)
(** * Big-endian machine integers

    The wire format of PostgreSQL is big-endian.  A [w]-bit Rust integer is a [Z] in range;
    [to_be_bytes] and [from_be_*] are [i32::to_be_bytes], [u32::from_be_bytes] and the other
    widths, and the accessors of a byte buffer ([get_i16], [put_u32], ...) built on them.  The
    section proves that reading undoes writing at every width, in both directions. *)
From S2P Require Import Prelude.
From coqutil Require Import Word.LittleEndianList.

Local Open Scope Z_scope.

Definition in_uint (w : Z) (z : Z) : Prop := 0 ≤ z < 2 ^ w.
Definition in_sint (w : Z) (z : Z) : Prop := - 2 ^ (w - 1) ≤ z < 2 ^ (w - 1).

#[export] Instance in_uint_dec w z : Decision (in_uint w z).
Proof. unfold in_uint. apply _. Defined.
#[export] Instance in_sint_dec w z : Decision (in_sint w z).
Proof. unfold in_sint. apply _. Defined.

(** [z as uW] and [z as iW] *)
Definition wrap_uint (w : Z) (z : Z) : Z := z mod 2 ^ w.
Definition wrap_sint (w : Z) (z : Z) : Z :=
  let u := z mod 2 ^ w in if u <? 2 ^ (w - 1) then u else u - 2 ^ w.

Definition to_be_bytes (n : nat) (z : Z) : bytes := reverse (le_split n z).
Definition from_be_u (bs : bytes) : Z := le_combine (reverse bs).
Definition from_be_i (bs : bytes) : Z :=
  wrap_sint (8 * Z.of_nat (length bs)) (from_be_u bs).

(** A byte as an unsigned number and back ([b as u32], [z as u8]). *)
Definition u8_of (b : byte) : Z := byte.unsigned b.
Definition byte_of (z : Z) : byte := byte.of_Z z.

Section widths.
Implicit Types (n : nat) (z w : Z) (bs : bytes).

Lemma pow2_pos w : 0 ≤ w → 0 < 2 ^ w.
Proof. intros. by apply Z.pow_pos_nonneg. Qed.

Lemma pow2_half w : 0 < w → 2 ^ w = 2 * 2 ^ (w - 1).
Proof. intros. rewrite <- Z.pow_succ_r by lia. f_equal. lia. Qed.

Lemma wrap_uint_range w z : 0 ≤ w → in_uint w (wrap_uint w z).
Proof. intros. apply Z.mod_pos_bound. by apply pow2_pos. Qed.

Lemma wrap_uint_id w z : in_uint w z → wrap_uint w z = z.
Proof. apply Z.mod_small. Qed.

Lemma wrap_sint_range w z : 0 < w → in_sint w (wrap_sint w z).
Proof.
  intros Hw. unfold wrap_sint, in_sint. pose proof (pow2_half w Hw) as Hp.
  pose proof (Z.mod_pos_bound z (2 ^ w) ltac:(apply pow2_pos; lia)).
  destruct (Z.ltb_spec (z mod 2 ^ w) (2 ^ (w - 1))); lia.
Qed.

Lemma wrap_sint_id w z : 0 < w → in_sint w z → wrap_sint w z = z.
Proof.
  intros Hw [Hlo Hhi]. unfold wrap_sint. pose proof (pow2_half w Hw) as Hp.
  destruct (Z.le_gt_cases 0 z).
  - rewrite Z.mod_small by lia. by rewrite (proj2 (Z.ltb_lt _ _)).
  - assert (z mod 2 ^ w = z + 2 ^ w) as ->.
    { rewrite <- (Z.mod_small (z + 2 ^ w) (2 ^ w)) by lia.
      rewrite <- (Z.mul_1_l (2 ^ w)) at 2. by rewrite Z.mod_add by lia. }
    rewrite (proj2 (Z.ltb_ge _ _)) by lia. lia.
Qed.

Lemma wrap_sint_mod w z : wrap_sint w (z mod 2 ^ w) = wrap_sint w z.
Proof. unfold wrap_sint. by rewrite Zmod_mod. Qed.

Lemma wrap_sint_unwrap w z : 0 ≤ w → wrap_sint w z mod 2 ^ w = z mod 2 ^ w.
Proof.
  intros Hw. unfold wrap_sint. pose proof (pow2_pos w Hw).
  case_match; [apply Zmod_mod|].
  rewrite <- (Z.mod_add _ 1) by lia.
  rewrite Z.mul_1_l, Z.sub_add. apply Zmod_mod.
Qed.

Lemma length_to_be_bytes n z : length (to_be_bytes n z) = n.
Proof. unfold to_be_bytes. by rewrite length_reverse, length_le_split. Qed.

Lemma from_be_u_to_be n z :
  from_be_u (to_be_bytes n z) = wrap_uint (8 * Z.of_nat n) z.
Proof.
  unfold from_be_u, to_be_bytes. rewrite reverse_involutive, le_combine_split.
  by rewrite Z.mul_comm.
Qed.

Lemma from_be_i_to_be n z :
  from_be_i (to_be_bytes n z) = wrap_sint (8 * Z.of_nat n) z.
Proof.
  unfold from_be_i. rewrite length_to_be_bytes, from_be_u_to_be. apply wrap_sint_mod.
Qed.

Lemma from_be_u_range bs : in_uint (8 * Z.of_nat (length bs)) (from_be_u bs).
Proof. unfold from_be_u, in_uint. rewrite <- length_reverse. apply le_combine_bound. Qed.

Lemma from_be_i_range bs : bs ≠ [] → in_sint (8 * Z.of_nat (length bs)) (from_be_i bs).
Proof. intros. apply wrap_sint_range. destruct bs; [done|]. simpl. lia. Qed.

Lemma to_be_from_be_u bs : to_be_bytes (length bs) (from_be_u bs) = bs.
Proof.
  unfold to_be_bytes, from_be_u. rewrite <- length_reverse, split_le_combine.
  apply reverse_involutive.
Qed.

Lemma to_be_bytes_mod n z : to_be_bytes n (z mod 2 ^ (8 * Z.of_nat n)) = to_be_bytes n z.
Proof. unfold to_be_bytes. rewrite (le_split_mod z). by rewrite Z.mul_comm. Qed.

Lemma to_be_from_be_i bs : to_be_bytes (length bs) (from_be_i bs) = bs.
Proof.
  rewrite <- to_be_bytes_mod. unfold from_be_i.
  rewrite wrap_sint_unwrap by lia. rewrite to_be_bytes_mod. apply to_be_from_be_u.
Qed.

Lemma u8_of_range b : 0 ≤ u8_of b < 256.
Proof. apply byte.unsigned_range. Qed.

Lemma byte_of_u8_of b : byte_of (u8_of b) = b.
Proof. apply byte.of_Z_unsigned. Qed.

Lemma u8_of_byte_of z : 0 ≤ z < 256 → u8_of (byte_of z) = z.
Proof. intros. unfold u8_of, byte_of. rewrite byte.unsigned_of_Z. by apply Z.mod_small. Qed.

Lemma u8_of_inj b c : u8_of b = u8_of c → b = c.
Proof. apply byte.unsigned_inj. Qed.
End widths.

(** ** The exact widths the protocol uses *)
Section round_trips.
Lemma u32_round_trip z : in_uint 32 z → from_be_u (to_be_bytes 4 z) = z.
Proof. intros. rewrite from_be_u_to_be. by apply wrap_uint_id. Qed.

Lemma i16_round_trip z : in_sint 16 z → from_be_i (to_be_bytes 2 z) = z.
Proof. intros. rewrite from_be_i_to_be. by apply wrap_sint_id. Qed.

Lemma i32_round_trip z : in_sint 32 z → from_be_i (to_be_bytes 4 z) = z.
Proof. intros. rewrite from_be_i_to_be. by apply wrap_sint_id. Qed.

Lemma i64_round_trip z : in_sint 64 z → from_be_i (to_be_bytes 8 z) = z.
Proof. intros. rewrite from_be_i_to_be. by apply wrap_sint_id. Qed.
End round_trips.

#[export] Hint Rewrite length_to_be_bytes : babar.
#[export] Hint Resolve length_to_be_bytes u32_round_trip i16_round_trip i32_round_trip
  i64_round_trip u8_of_range : babar.

(** Splitting a list after a known prefix. *)
Lemma take_app_exact {A} n (l1 l2 : list A) : length l1 = n → take n (l1 ++ l2) = l1.
Proof. intros <-. apply take_app_length. Qed.

Lemma drop_app_exact {A} n (l1 l2 : list A) : length l1 = n → drop n (l1 ++ l2) = l2.
Proof. intros <-. apply drop_app_length. Qed.
