(* ===== verification/Text.v ===== *)
(** * Text: UTF-8, decimal and hexadecimal numerals, and the [str] operations

    The parts of Rust's [core::str] and [core::num] the driver uses, on strings represented by
    their UTF-8 bytes: validation and decoding, [chars], [from_utf8_lossy], integer parsing with
    the four [IntErrorKind]s, integer and hexadecimal formatting, and [strip_prefix],
    [split_once], [lines], [trim] and their relatives.  [Debug] formatting ([{:?}]) escapes the
    ASCII range as Rust does and passes characters outside ASCII through. *)
From S2P Require Import Prelude Bytes.

Local Open Scope Z_scope.
Local Open Scope str_scope.

(** ** UTF-8 *)

Record Utf8Error := mk_utf8_error { valid_up_to : Z; error_len : option Z }.

Definition within (lo hi : Z) (b : byte) : bool := (lo <=? u8_of b) && (u8_of b <=? hi).
Definition is_cont (b : byte) : bool := within 128 191 b.

(** The admissible second byte depends on the first one: no overlong forms, no surrogates,
    nothing above U+10FFFF. *)
Definition second_of_3 (x0 : Z) (b1 : byte) : bool :=
  if x0 =? 224 then within 160 191 b1
  else if x0 =? 237 then within 128 159 b1
  else is_cont b1.
Definition second_of_4 (x0 : Z) (b1 : byte) : bool :=
  if x0 =? 240 then within 144 191 b1
  else if x0 =? 244 then within 128 143 b1
  else is_cont b1.

Definition low6 (b : byte) : Z := u8_of b - 128.

Fixpoint utf8_scan (pos : Z) (bs : bytes) : result Utf8Error (list Z) :=
  let bad n := Err (mk_utf8_error pos n) in
  match bs with
  | [] => Ok []
  | b0 :: r0 =>
    let x0 := u8_of b0 in
    if x0 <? 128 then cons x0 <$> utf8_scan (pos + 1) r0
    else if within 194 223 b0 then
      match r0 with
      | [] => bad None
      | b1 :: r1 =>
        if is_cont b1
        then cons ((x0 - 192) * 64 + low6 b1) <$> utf8_scan (pos + 2) r1
        else bad (Some 1)
      end
    else if within 224 239 b0 then
      match r0 with
      | [] => bad None
      | b1 :: r1 =>
        if second_of_3 x0 b1 then
          match r1 with
          | [] => bad None
          | b2 :: r2 =>
            if is_cont b2
            then cons (((x0 - 224) * 64 + low6 b1) * 64 + low6 b2) <$> utf8_scan (pos + 3) r2
            else bad (Some 2)
          end
        else bad (Some 1)
      end
    else if within 240 244 b0 then
      match r0 with
      | [] => bad None
      | b1 :: r1 =>
        if second_of_4 x0 b1 then
          match r1 with
          | [] => bad None
          | b2 :: r2 =>
            if is_cont b2 then
              match r2 with
              | [] => bad None
              | b3 :: r3 =>
                if is_cont b3
                then cons ((((x0 - 240) * 64 + low6 b1) * 64 + low6 b2) * 64 + low6 b3)
                       <$> utf8_scan (pos + 4) r3
                else bad (Some 3)
              end
            else bad (Some 2)
          end
        else bad (Some 1)
      end
    else bad (Some 1)
  end.

(** [str::from_utf8] *)
Definition from_utf8 (bs : bytes) : result Utf8Error str :=
  _ ← utf8_scan 0 bs; Ok bs.

Definition utf8_valid (bs : bytes) : bool :=
  match utf8_scan 0 bs with Ok _ => true | Err _ => false end.

(** [str::chars], as code points *)
Definition chars (s : str) : list Z :=
  match utf8_scan 0 s with Ok cs => cs | Err _ => [] end.

(** [char::encode_utf8] *)
Definition encode_char (c : Z) : bytes :=
  if c <? 128 then [byte_of c]
  else if c <? 2048 then [byte_of (192 + c / 64); byte_of (128 + c mod 64)]
  else if c <? 65536 then
    [byte_of (224 + c / 4096); byte_of (128 + c / 64 mod 64); byte_of (128 + c mod 64)]
  else
    [byte_of (240 + c / 262144); byte_of (128 + c / 4096 mod 64);
     byte_of (128 + c / 64 mod 64); byte_of (128 + c mod 64)].

(** A Unicode scalar value. *)
Definition is_char (c : Z) : Prop := 0 ≤ c < 55296 ∨ 57344 ≤ c < 1114112.

Definition encode_chars (cs : list Z) : str := concat (map encode_char cs).

(** [String::from_utf8_lossy]: every maximal invalid sequence becomes U+FFFD. *)
Fixpoint from_utf8_lossy_fuel (fuel : nat) (bs : bytes) : str :=
  match fuel with
  | O => []
  | S fuel =>
    match utf8_scan 0 bs with
    | Ok _ => bs
    | Err e =>
      let k := Z.to_nat (valid_up_to e) in
      take k bs ++ encode_char 65533 ++
      match error_len e with
      | None => []
      | Some n => from_utf8_lossy_fuel fuel (drop (k + Z.to_nat n) bs)
      end
    end
  end.
Definition from_utf8_lossy (bs : bytes) : str := from_utf8_lossy_fuel (S (length bs)) bs.

(** ** Integers as text *)

Inductive IntErrorKind := IntEmpty | IntInvalidDigit | IntPosOverflow | IntNegOverflow.

Definition int_error_text (k : IntErrorKind) : str :=
  match k with
  | IntEmpty => "cannot parse integer from empty string"
  | IntInvalidDigit => "invalid digit found in string"
  | IntPosOverflow => "number too large to fit in target type"
  | IntNegOverflow => "number too small to fit in target type"
  end.

(** [char::to_digit] *)
Definition to_digit (radix : Z) (b : byte) : option Z :=
  let x := u8_of b in
  let d := if within 48 57 b then Some (x - 48)
           else if within 97 122 b then Some (x - 87)
           else if within 65 90 b then Some (x - 55)
           else None in
  match d with
  | Some d => if d <? radix then Some d else None
  | None => None
  end.

(** The checked loop of [from_str_radix]: digits are consumed left to right, and the first
    digit that is invalid or that leaves the range decides the error. *)
Fixpoint parse_pos (radix hi acc : Z) (s : str) : result IntErrorKind Z :=
  match s with
  | [] => Ok acc
  | c :: s =>
    match to_digit radix c with
    | None => Err IntInvalidDigit
    | Some d =>
      if hi <? acc * radix + d then Err IntPosOverflow
      else parse_pos radix hi (acc * radix + d) s
    end
  end.
Fixpoint parse_neg (radix lo acc : Z) (s : str) : result IntErrorKind Z :=
  match s with
  | [] => Ok acc
  | c :: s =>
    match to_digit radix c with
    | None => Err IntInvalidDigit
    | Some d =>
      if acc * radix - d <? lo then Err IntNegOverflow
      else parse_neg radix lo (acc * radix - d) s
    end
  end.

Definition byte_is (b : byte) (z : Z) : bool := u8_of b =? z.

Definition parse_uint (w radix : Z) (s : str) : result IntErrorKind Z :=
  match s with
  | [] => Err IntEmpty
  | [c] => if byte_is c 43 || byte_is c 45 then Err IntInvalidDigit
           else parse_pos radix (2 ^ w - 1) 0 s
  | c :: r => if byte_is c 43 then parse_pos radix (2 ^ w - 1) 0 r
              else parse_pos radix (2 ^ w - 1) 0 s
  end.
Definition parse_sint (w radix : Z) (s : str) : result IntErrorKind Z :=
  match s with
  | [] => Err IntEmpty
  | [c] => if byte_is c 43 || byte_is c 45 then Err IntInvalidDigit
           else parse_pos radix (2 ^ (w - 1) - 1) 0 s
  | c :: r => if byte_is c 43 then parse_pos radix (2 ^ (w - 1) - 1) 0 r
              else if byte_is c 45 then parse_neg radix (- 2 ^ (w - 1)) 0 r
              else parse_pos radix (2 ^ (w - 1) - 1) 0 s
  end.

(** [Display] for integers *)
Definition digit_byte (d : Z) : byte := byte_of (if d <? 10 then 48 + d else 87 + d).

Fixpoint dec_fuel (fuel : nat) (z : Z) (acc : str) : str :=
  match fuel with
  | O => acc
  | S fuel =>
    if z <? 10 then digit_byte z :: acc
    else dec_fuel fuel (z / 10) (digit_byte (z mod 10) :: acc)
  end.
Definition dec_nonneg (z : Z) : str := dec_fuel (S (Z.to_nat (Z.log2 z))) z [].
Definition dec (z : Z) : str :=
  if z <? 0 then "-" ++ dec_nonneg (- z) else dec_nonneg z.

(** [{:02x}] of a byte *)
Definition hex2 (b : byte) : str := [digit_byte (u8_of b / 16); digit_byte (u8_of b mod 16)].

(** ** [str] operations *)

Fixpoint strip_prefix (p s : str) : option str :=
  match p, s with
  | [], _ => Some s
  | a :: p, b :: s => if decide (a = b) then strip_prefix p s else None
  | _ :: _, [] => None
  end.
Definition strip_suffix (p s : str) : option str :=
  reverse <$> strip_prefix (reverse p) (reverse s).
Definition starts_with (p s : str) : bool := bool_decide (is_Some (strip_prefix p s)).
Definition ends_with (p s : str) : bool := bool_decide (is_Some (strip_suffix p s)).

(** [s.split_once(p)]: around the first occurrence of [p]. *)
Fixpoint split_once (p s : str) : option (str * str) :=
  match strip_prefix p s with
  | Some r => Some ([], r)
  | None =>
    match s with
    | [] => None
    | b :: s => match split_once p s with Some (l, r) => Some (b :: l, r) | None => None end
    end
  end.
Definition contains (p s : str) : bool :=
  match split_once p s with Some _ => true | None => false end.

(** [s.split(c)] for an ASCII character; never empty. *)
Fixpoint split_byte (c : byte) (s : str) : list str :=
  match s with
  | [] => [[]]
  | b :: s =>
    if decide (b = c) then [] :: split_byte c s
    else match split_byte c s with
         | w :: ws => (b :: w) :: ws
         | [] => [[b]]
         end
  end.

Fixpoint join (sep : str) (l : list str) : str :=
  match l with
  | [] => []
  | [w] => w
  | w :: ws => w ++ sep ++ join sep ws
  end.

(** [str::lines] *)
Definition strip_cr (s : str) : str :=
  match strip_suffix [x0d] s with Some s => s | None => s end.
Fixpoint lines_of (parts : list str) : list str :=
  match parts with
  | [] => []
  | [last] => match last with [] => [] | _ => [last] end
  | l :: ls => strip_cr l :: lines_of ls
  end.
Definition lines (s : str) : list str := lines_of (split_byte x0a s).

(** [str::trim]: Unicode [White_Space] at both ends. *)
Definition is_ascii_ws (b : byte) : bool := within 9 13 b || byte_is b 32.
Definition ws2 (b0 b1 : byte) : bool := byte_is b0 194 && (byte_is b1 133 || byte_is b1 160).
Definition ws3 (b0 b1 b2 : byte) : bool :=
  (byte_is b0 225 && byte_is b1 154 && byte_is b2 128)
  || (byte_is b0 226 && byte_is b1 128
      && (within 128 138 b2 || byte_is b2 168 || byte_is b2 169 || byte_is b2 175))
  || (byte_is b0 226 && byte_is b1 129 && byte_is b2 159)
  || (byte_is b0 227 && byte_is b1 128 && byte_is b2 128).

Fixpoint trim_start (s : str) : str :=
  match s with
  | b0 :: r0 =>
    if is_ascii_ws b0 then trim_start r0 else
    match r0 with
    | b1 :: r1 =>
      if ws2 b0 b1 then trim_start r1 else
      match r1 with
      | b2 :: r2 => if ws3 b0 b1 b2 then trim_start r2 else s
      | [] => s
      end
    | [] => s
    end
  | [] => []
  end.
Fixpoint trim_rev (s : str) : str :=
  match s with
  | b0 :: r0 =>
    if is_ascii_ws b0 then trim_rev r0 else
    match r0 with
    | b1 :: r1 =>
      if ws2 b1 b0 then trim_rev r1 else
      match r1 with
      | b2 :: r2 => if ws3 b2 b1 b0 then trim_rev r2 else s
      | [] => s
      end
    | [] => s
    end
  | [] => []
  end.
Definition trim_end (s : str) : str := reverse (trim_rev (reverse s)).
Definition trim (s : str) : str := trim_end (trim_start s).

(** [s.replace(c, r)] for an ASCII character *)
Definition replace_byte (c : byte) (r : str) (s : str) : str :=
  concat (map (λ b, if decide (b = c) then r else [b]) s).

(** [{:?}] of a string *)
Definition debug_byte (b : byte) : str :=
  let x := u8_of b in
  if x =? 0 then "\0" else if x =? 9 then "\t" else if x =? 10 then "\n"
  else if x =? 13 then "\r" else if x =? 34 then [x5c; x22] else if x =? 92 then "\\"
  else if (x <? 32) || (x =? 127) then
    "\u{" ++ (if x <? 16 then [digit_byte x] else hex2 b) ++ "}"
  else [b].
Definition debug_str (s : str) : str := [x22] ++ concat (map debug_byte s) ++ [x22].

(** [{:?}] of a slice of integers *)
Definition debug_ints (l : list Z) : str := "[" ++ join ", " (map dec l) ++ "]".

(** [Display] for [Utf8Error] *)
Definition utf8_error_text (e : Utf8Error) : str :=
  match error_len e with
  | Some n => "invalid utf-8 sequence of " ++ dec n ++ " bytes from index " ++ dec (valid_up_to e)
  | None => "incomplete utf-8 byte sequence from index " ++ dec (valid_up_to e)
  end.

(** [u8::is_ascii_lowercase], [is_ascii_digit], [is_ascii_hexdigit], [is_ascii_alphabetic] *)
Definition is_ascii_lowercase (b : byte) : bool := within 97 122 b.
Definition is_ascii_uppercase (b : byte) : bool := within 65 90 b.
Definition is_ascii_digit (b : byte) : bool := within 48 57 b.
Definition is_ascii_hexdigit (b : byte) : bool := within 48 57 b || within 97 102 b || within 65 70 b.
Definition is_ascii_alphabetic (b : byte) : bool := is_ascii_lowercase b || is_ascii_uppercase b.

Example dec_ex : map dec [0; 7; -25; 18446744073709551615]
                 = ["0"; "7"; "-25"; "18446744073709551615"].
Proof. vm_compute. reflexivity. Qed.
Example parse_ex : map (parse_sint 16 10) ["-32768"; "32768"; "+5"; "-"; "99999x"]
  = [Ok (-32768); Err IntPosOverflow; Ok 5; Err IntInvalidDigit; Err IntPosOverflow].
Proof. vm_compute. reflexivity. Qed.
Example lines_ex : lines (str_of_literal "a" ++ [x0d; x0a; x0a] ++ "b" ++ [x0a]) = ["a"; ""; "b"].
Proof. vm_compute. reflexivity. Qed.
Example lossy_ex : from_utf8_lossy [x61; xff; x62; xe2; x82] = "a�b�".
Proof. vm_compute. reflexivity. Qed.
Example debug_ex : debug_str [x61; x22; x0a; x01] = [x22; x61; x5c; x22] ++ "\n\u{1}" ++ [x22].
Proof. vm_compute. reflexivity. Qed.

(** ** UTF-8: decoding and encoding are inverse *)
Section utf8.
Implicit Types (bs r : bytes) (cs : list Z) (c pos : Z).

Lemma within_true lo hi b : within lo hi b = true ↔ lo ≤ u8_of b ≤ hi.
Proof. unfold within. rewrite andb_true_iff, !Z.leb_le. done. Qed.

Lemma within_false lo hi b : within lo hi b = false ↔ u8_of b < lo ∨ hi < u8_of b.
Proof. unfold within. rewrite andb_false_iff, !Z.leb_gt. done. Qed.

Lemma result_fmap_fmap {E A B C} (f : A → B) (g : B → C) (m : result E A) :
  g <$> (f <$> m) = (λ x, g (f x)) <$> m.
Proof. by destruct m. Qed.

(** The scanner on a complete sequence of one to four bytes. *)
Ltac decide_tests :=
  repeat match goal with
  | |- context [?a <? ?b] => destruct (Z.ltb_spec a b); try lia
  | |- context [?a =? ?b] => destruct (Z.eqb_spec a b); try lia
  | |- context [within ?a ?b ?c] =>
      let H := fresh in
      destruct (within a b c) eqn:H; [apply within_true in H | apply within_false in H];
      try lia
  end.

Lemma utf8_scan_1 pos b0 r : u8_of b0 < 128 →
  utf8_scan pos (b0 :: r) = cons (u8_of b0) <$> utf8_scan (pos + 1) r.
Proof. intros. cbn [utf8_scan]. by decide_tests. Qed.

Lemma utf8_scan_2 pos b0 b1 r : 194 ≤ u8_of b0 ≤ 223 → 128 ≤ u8_of b1 ≤ 191 →
  utf8_scan pos (b0 :: b1 :: r)
  = cons ((u8_of b0 - 192) * 64 + low6 b1) <$> utf8_scan (pos + 2) r.
Proof. intros. cbn [utf8_scan]. unfold is_cont. by decide_tests. Qed.

Lemma utf8_scan_3 pos b0 b1 b2 r :
  224 ≤ u8_of b0 ≤ 239 → second_of_3 (u8_of b0) b1 = true → 128 ≤ u8_of b2 ≤ 191 →
  utf8_scan pos (b0 :: b1 :: b2 :: r)
  = cons (((u8_of b0 - 224) * 64 + low6 b1) * 64 + low6 b2) <$> utf8_scan (pos + 3) r.
Proof. intros ? H ?. cbn [utf8_scan]. rewrite H. unfold is_cont. by decide_tests. Qed.

Lemma utf8_scan_4 pos b0 b1 b2 b3 r :
  240 ≤ u8_of b0 ≤ 244 → second_of_4 (u8_of b0) b1 = true →
  128 ≤ u8_of b2 ≤ 191 → 128 ≤ u8_of b3 ≤ 191 →
  utf8_scan pos (b0 :: b1 :: b2 :: b3 :: r)
  = cons ((((u8_of b0 - 240) * 64 + low6 b1) * 64 + low6 b2) * 64 + low6 b3)
      <$> utf8_scan (pos + 4) r.
Proof. intros ? H ??. cbn [utf8_scan]. rewrite H. unfold is_cont. by decide_tests. Qed.

Ltac byte_range := rewrite ?u8_of_byte_of; Z.to_euclidean_division_equations; lia.

(** Reading one well-formed character. *)
Lemma utf8_scan_char pos c r :
  is_char c →
  utf8_scan pos (encode_char c ++ r)
  = cons c <$> utf8_scan (pos + Z.of_nat (length (encode_char c))) r.
Proof.
  intros Hc. unfold is_char in Hc. unfold encode_char.
  destruct (Z.ltb_spec c 128); [|destruct (Z.ltb_spec c 2048);
    [|destruct (Z.ltb_spec c 65536)]]; cbn [app length].
  - rewrite utf8_scan_1; rewrite ?u8_of_byte_of by lia; [done | lia].
  - rewrite utf8_scan_2 by byte_range.
    f_equal; [f_equal; unfold low6; byte_range].
  - rewrite utf8_scan_3; [f_equal; [f_equal; unfold low6; byte_range] | byte_range | | byte_range].
    unfold second_of_3, is_cont.
    rewrite !u8_of_byte_of by byte_range.
    repeat case_match; apply within_true; byte_range.
  - rewrite utf8_scan_4;
      [f_equal; [f_equal; unfold low6; byte_range] | byte_range | | byte_range | byte_range].
    unfold second_of_4, is_cont.
    rewrite !u8_of_byte_of by byte_range.
    repeat case_match; apply within_true; byte_range.
Qed.

Lemma byte_of_eq z b : z = u8_of b → byte_of z = b.
Proof. intros ->. apply byte_of_u8_of. Qed.

(** What one successful step of the scanner has read. *)
Lemma utf8_scan_step pos b0 r0 cs :
  utf8_scan pos (b0 :: r0) = Ok cs →
  ∃ c r cs', is_char c ∧ b0 :: r0 = encode_char c ++ r ∧ cs = c :: cs' ∧
    utf8_scan (pos + Z.of_nat (length (encode_char c))) r = Ok cs'.
Proof.
  intros Hscan. cbn [utf8_scan] in Hscan.
  pose proof (u8_of_range b0).
  assert (∀ c r l, is_char c → b0 :: r0 = encode_char c ++ r →
    cons c <$> utf8_scan (pos + l) r = Ok cs → l = Z.of_nat (length (encode_char c)) →
    ∃ c r cs', is_char c ∧ b0 :: r0 = encode_char c ++ r ∧ cs = c :: cs' ∧
      utf8_scan (pos + Z.of_nat (length (encode_char c))) r = Ok cs') as Hdone.
  { intros c r l Hc Hr (cs' & Hcs' & ->)%result_fmap_Ok ->. by exists c, r, cs'. }
  unfold second_of_3, second_of_4, is_cont in Hscan.
  repeat match goal with
  | H : context [u8_of ?b <? ?n] |- _ => destruct (Z.ltb_spec (u8_of b) n)
  | H : context [u8_of ?b =? ?n] |- _ => destruct (Z.eqb_spec (u8_of b) n)
  | H : context [within ?a ?b ?c] |- _ =>
      let H' := fresh in
      destruct (within a b c) eqn:H'; [apply within_true in H' | apply within_false in H'];
      try discriminate
  | H : context [match ?r with [] => _ | _ => _ end] |- _ => destruct r; try discriminate
  end; try lia.
  all: eapply Hdone; [| | exact Hscan | ]; unfold low6, is_char, encode_char; try lia.
  all: repeat match goal with
    | |- context [?a <? ?b] => destruct (Z.ltb_spec a b); try lia
    end; try reflexivity.
  all: cbn [app]; repeat (f_equal; [symmetry; apply byte_of_eq; Z.to_euclidean_division_equations; lia |]);
    try (f_equal; symmetry; apply byte_of_eq; Z.to_euclidean_division_equations; lia); done.
Qed.

Lemma encode_char_nonempty c : (0 < length (encode_char c))%nat.
Proof. unfold encode_char. repeat case_match; simpl; lia. Qed.

Lemma encode_char_high c : is_char c → 128 ≤ c → Forall (λ b, 128 ≤ u8_of b) (encode_char c).
Proof.
  intros Hc Hge. unfold encode_char, is_char in *. rewrite (proj2 (Z.ltb_ge _ _)) by done.
  repeat case_match; repeat constructor; rewrite ?u8_of_byte_of; Z.to_euclidean_division_equations; lia.
Qed.

(** Decoding is sound: the characters it returns encode to the bytes it read. *)
Lemma utf8_scan_sound pos bs cs :
  utf8_scan pos bs = Ok cs → encode_chars cs = bs ∧ Forall is_char cs.
Proof.
  revert pos cs. induction bs as [bs IH] using (induction_ltof1 _ (@length byte)); unfold ltof in IH.
  intros pos cs. destruct bs as [|b0 r0].
  { intros [= <-]. split; [done | constructor]. }
  intros (c & r & cs' & Hc & Hr & -> & Hcs')%utf8_scan_step.
  apply IH in Hcs' as [Hr' Hall].
  - split; [|by constructor]. rewrite Hr. unfold encode_chars in *. cbn. by rewrite Hr'.
  - apply (f_equal length) in Hr. rewrite length_app in Hr.
    pose proof (encode_char_nonempty c). lia.
Qed.

(** ... and complete: it reads back every sequence of scalar values. *)
Lemma utf8_scan_encode pos cs : Forall is_char cs → utf8_scan pos (encode_chars cs) = Ok cs.
Proof.
  intros H. revert pos. induction H as [|c cs Hc _ IH]; intros pos; [done|].
  unfold encode_chars in *. cbn. rewrite utf8_scan_char by done. by rewrite IH.
Qed.

Lemma utf8_scan_app pos bs1 bs2 cs1 cs2 :
  utf8_scan pos bs1 = Ok cs1 → utf8_scan 0 bs2 = Ok cs2 →
  utf8_scan 0 (bs1 ++ bs2) = Ok (cs1 ++ cs2).
Proof.
  intros [<- H1]%utf8_scan_sound [<- H2]%utf8_scan_sound.
  unfold encode_chars. rewrite <- concat_app, <- map_app.
  by apply utf8_scan_encode, Forall_app.
Qed.

Lemma utf8_valid_iff bs : utf8_valid bs = true ↔ ∃ cs, Forall is_char cs ∧ bs = encode_chars cs.
Proof.
  unfold utf8_valid. split.
  - destruct (utf8_scan 0 bs) as [cs|] eqn:E; [|done]. intros _.
    apply utf8_scan_sound in E as [<- ?]. by exists cs.
  - intros (cs & H & ->). by rewrite utf8_scan_encode.
Qed.

Lemma from_utf8_Ok bs s : from_utf8 bs = Ok s ↔ s = bs ∧ utf8_valid bs = true.
Proof. unfold from_utf8, utf8_valid. destruct (utf8_scan 0 bs); cbn; naive_solver. Qed.

Lemma utf8_valid_app bs1 bs2 :
  utf8_valid bs1 = true → utf8_valid bs2 = true → utf8_valid (bs1 ++ bs2) = true.
Proof.
  rewrite !utf8_valid_iff. intros (c1 & H1 & ->) (c2 & H2 & ->).
  exists (c1 ++ c2). split; [by apply Forall_app|].
  unfold encode_chars. by rewrite map_app, concat_app.
Qed.

Lemma utf8_valid_ascii bs : Forall (λ b, u8_of b < 128) bs → utf8_valid bs = true.
Proof.
  intros H. apply utf8_valid_iff. exists (map u8_of bs). split.
  - apply Forall_map. eapply Forall_impl; [exact H|]. intros b ?. left.
    pose proof (u8_of_range b). lia.
  - unfold encode_chars. induction H as [|b bs Hb _ IH]; [done|]. cbn. rewrite <- IH.
    unfold encode_char. rewrite (proj2 (Z.ltb_lt _ _)) by done. by rewrite byte_of_u8_of.
Qed.
End utf8.

#[export] Hint Resolve utf8_valid_app utf8_valid_ascii : babar.

(** ** Integer formatting and parsing are inverse *)
Section numerals.
Implicit Types (s : str) (d z acc hi lo : Z).

Lemma u8_of_digit_byte d : 0 ≤ d < 16 → u8_of (digit_byte d) = if d <? 10 then 48 + d else 87 + d.
Proof. intros. unfold digit_byte. apply u8_of_byte_of. case_match; lia. Qed.

Lemma to_digit_digit_byte radix d : 0 ≤ d < radix → radix ≤ 16 → to_digit radix (digit_byte d) = Some d.
Proof.
  intros Hd Hr. unfold to_digit, within. rewrite u8_of_digit_byte by lia.
  destruct (Z.ltb_spec d 10);
  repeat match goal with
  | |- context [?a <=? ?b] => destruct (Z.leb_spec a b); try lia; cbn [andb]
  | |- context [?a <? ?b] => destruct (Z.ltb_spec a b); try lia
  end; f_equal; lia.
Qed.

(** The checked loop reads a digit string of a non-negative number that stays in range. *)
Lemma parse_pos_dec_fuel hi fuel z s :
  (Z.to_nat (Z.log2 z) < fuel)%nat → 0 ≤ z →
  parse_pos 10 hi 0 (dec_fuel fuel z s)
  = if hi <? z then Err IntPosOverflow else parse_pos 10 hi z s.
Proof.
  revert z s. induction fuel as [|fuel IH]; intros z s Hf Hz; [lia|].
  cbn [dec_fuel]. destruct (Z.ltb_spec z 10).
  { cbn [parse_pos]. rewrite to_digit_digit_byte by lia. done. }
  assert (0 < z / 10) by (apply Z.div_str_pos; lia).
  assert (Z.log2 (z / 10) < Z.log2 z) as Hlog.
  { apply Z.lt_le_trans with (Z.log2 (2 * (z / 10))).
    - rewrite Z.log2_double by done. lia.
    - apply Z.log2_le_mono. Z.to_euclidean_division_equations. lia. }
  pose proof (Z.log2_nonneg (z / 10)).
  rewrite IH by lia. cbn [parse_pos].
  pose proof (Z.mod_pos_bound z 10 ltac:(lia)).
  rewrite to_digit_digit_byte by lia.
  replace (z / 10 * 10 + z mod 10) with z by (Z.to_euclidean_division_equations; lia).
  destruct (Z.ltb_spec hi (z / 10)), (Z.ltb_spec hi z); try done.
  Z.to_euclidean_division_equations; lia.
Qed.

Lemma parse_neg_dec_fuel lo fuel z s :
  (Z.to_nat (Z.log2 z) < fuel)%nat → 0 ≤ z → lo ≤ - z →
  parse_neg 10 lo 0 (dec_fuel fuel z s) = parse_neg 10 lo (- z) s.
Proof.
  revert z s. induction fuel as [|fuel IH]; intros z s Hf Hz Hlo; [lia|].
  cbn [dec_fuel]. destruct (Z.ltb_spec z 10).
  { cbn [parse_neg]. rewrite to_digit_digit_byte by lia.
    rewrite (proj2 (Z.ltb_ge _ _)) by lia. done. }
  assert (0 < z / 10) by (apply Z.div_str_pos; lia).
  assert (Z.log2 (z / 10) < Z.log2 z) as Hlog.
  { apply Z.lt_le_trans with (Z.log2 (2 * (z / 10))).
    - rewrite Z.log2_double by done. lia.
    - apply Z.log2_le_mono. Z.to_euclidean_division_equations. lia. }
  pose proof (Z.log2_nonneg (z / 10)).
  rewrite IH by (Z.to_euclidean_division_equations; lia). cbn [parse_neg].
  pose proof (Z.mod_pos_bound z 10 ltac:(lia)).
  rewrite to_digit_digit_byte by lia.
  replace (- (z / 10) * 10 - z mod 10) with (- z) by (Z.to_euclidean_division_equations; lia).
  by rewrite (proj2 (Z.ltb_ge _ _)) by lia.
Qed.

(** The first byte of a decimal numeral is a digit, so it is no sign. *)
Lemma dec_fuel_head fuel z s :
  (Z.to_nat (Z.log2 z) < fuel)%nat → 0 ≤ z →
  ∃ d r, 0 ≤ d < 10 ∧ dec_fuel fuel z s = digit_byte d :: r.
Proof.
  revert z s. induction fuel as [|fuel IH]; intros z s Hf Hz; [lia|].
  cbn [dec_fuel]. destruct (Z.ltb_spec z 10); [by exists z, s|].
  assert (0 < z / 10) by (apply Z.div_str_pos; lia).
  assert (Z.log2 (z / 10) < Z.log2 z) as Hlog.
  { apply Z.lt_le_trans with (Z.log2 (2 * (z / 10))).
    - rewrite Z.log2_double by done. lia.
    - apply Z.log2_le_mono. Z.to_euclidean_division_equations. lia. }
  pose proof (Z.log2_nonneg (z / 10)).
  apply IH; lia.
Qed.

Lemma dec_nonneg_head z : 0 ≤ z → ∃ d r, 0 ≤ d < 10 ∧ dec_nonneg z = digit_byte d :: r.
Proof. intros. apply dec_fuel_head; lia. Qed.

Lemma digit_byte_no_sign d n : 0 ≤ d < 10 → n < 48 → byte_is (digit_byte d) n = false.
Proof. intros. unfold byte_is. rewrite u8_of_digit_byte by lia. case_match; lia. Qed.

(** [z.to_string().parse::<uW>() == Ok(z)] *)
Lemma parse_uint_dec w z : in_uint w z → parse_uint w 10 (dec z) = Ok z.
Proof.
  intros [Hlo Hhi]. unfold dec. rewrite (proj2 (Z.ltb_ge z 0)) by lia.
  assert (parse_pos 10 (2 ^ w - 1) 0 (dec_nonneg z) = Ok z) as Hp.
  { unfold dec_nonneg. rewrite parse_pos_dec_fuel by lia.
    by rewrite (proj2 (Z.ltb_ge _ _)) by lia. }
  destruct (dec_nonneg_head z Hlo) as (d & r & Hd & Hr). rewrite Hr in *.
  unfold parse_uint. rewrite !digit_byte_no_sign by lia. by destruct r.
Qed.

(** [z.to_string().parse::<iW>() == Ok(z)] *)
Lemma parse_sint_dec w z : in_sint w z → parse_sint w 10 (dec z) = Ok z.
Proof.
  intros [Hlo Hhi]. unfold dec. destruct (Z.ltb_spec z 0).
  - assert (parse_neg 10 (- 2 ^ (w - 1)) 0 (dec_nonneg (- z)) = Ok z) as Hp.
    { unfold dec_nonneg. rewrite parse_neg_dec_fuel by lia. cbn. f_equal. lia. }
    destruct (dec_nonneg_head (- z) ltac:(lia)) as (d & r & Hd & Hr). rewrite Hr in *.
    exact Hp.
  - assert (parse_pos 10 (2 ^ (w - 1) - 1) 0 (dec_nonneg z) = Ok z) as Hp.
    { unfold dec_nonneg. rewrite parse_pos_dec_fuel by lia.
      by rewrite (proj2 (Z.ltb_ge _ _)) by lia. }
    destruct (dec_nonneg_head z ltac:(lia)) as (d & r & Hd & Hr). rewrite Hr in *.
    unfold parse_sint. rewrite !digit_byte_no_sign by lia. by destruct r.
Qed.

(** The numeral of a natural number consists of digits. *)
Lemma dec_digits z : 0 ≤ z → Forall (λ b, 48 ≤ u8_of b ≤ 57) (dec z).
Proof.
  intros Hz. unfold dec. rewrite (proj2 (Z.ltb_ge z 0)) by lia. unfold dec_nonneg.
  enough (∀ fuel z (acc : str), 0 ≤ z → Forall (λ b, 48 ≤ u8_of b ≤ 57) acc →
    Forall (λ b, 48 ≤ u8_of b ≤ 57) (dec_fuel fuel z acc)) as Hgen by (apply Hgen; auto).
  clear. assert (∀ d, 0 ≤ d < 10 → 48 ≤ u8_of (digit_byte d) ≤ 57) as Hd.
  { intros d Hd. rewrite u8_of_digit_byte by lia. case_match; lia. }
  induction fuel as [|fuel IH]; intros z acc Hz Hacc; cbn; [done|].
  destruct (Z.ltb_spec z 10); [constructor; [apply Hd; lia | done]|].
  apply IH; [apply Z.div_pos; lia|]. constructor; [|done].
  apply Hd. apply Z.mod_pos_bound. lia.
Qed.

Lemma dec_inj_uint z1 z2 : 0 ≤ z1 → 0 ≤ z2 → dec z1 = dec z2 → z1 = z2.
Proof.
  intros H1 H2 Heq. set (w := Z.max z1 z2).
  assert (∀ z, 0 ≤ z ≤ w → in_uint w z) as Hin.
  { intros z Hz. split; [lia|].
    apply Z.le_lt_trans with w; [lia|]. apply Z.pow_gt_lin_r; lia. }
  assert (Ok z1 = Ok (E := IntErrorKind) z2) as [= ->]; [|done].
  rewrite <- (parse_uint_dec w z1), <- (parse_uint_dec w z2) by (apply Hin; lia).
  by rewrite Heq.
Qed.

(** [u8::from_str_radix] reads back [{:02x}]. *)
Lemma parse_hex2 b : parse_uint 8 16 (hex2 b) = Ok (u8_of b).
Proof. destruct b; vm_compute; reflexivity. Qed.

Lemma parse_pos_range radix hi acc s z :
  0 ≤ radix → 0 ≤ acc ≤ hi → parse_pos radix hi acc s = Ok z → 0 ≤ z ≤ hi.
Proof.
  intros Hr. revert acc. induction s as [|c s IH]; intros acc Hacc; cbn; [naive_solver|].
  destruct (to_digit radix c) as [d|] eqn:Hd; [|done].
  assert (0 ≤ d).
  { unfold to_digit in Hd. repeat case_match; simplify_eq;
    repeat match goal with H : within _ _ _ = true |- _ => apply within_true in H end; lia. }
  destruct (Z.ltb_spec hi (acc * radix + d)); [done|]. intros Hz.
  eapply (IH (acc * radix + d)); [nia | done].
Qed.

Lemma parse_uint_range w radix s z : 0 ≤ w → 0 ≤ radix → parse_uint w radix s = Ok z → in_uint w z.
Proof.
  intros Hw Hr. pose proof (Z.pow_pos_nonneg 2 w).
  assert (∀ s, parse_pos radix (2 ^ w - 1) 0 s = Ok z → in_uint w z) as Hp.
  { intros s' ?%parse_pos_range; [unfold in_uint; lia | lia..]. }
  unfold parse_uint. destruct s as [|c [|? ?]]; [done| |]; case_match; try done; apply Hp.
Qed.
End numerals.

(** ** Affixes and splitting *)
Section affixes.
Implicit Types (p s l r : str).

Lemma strip_prefix_Some p s r : strip_prefix p s = Some r ↔ s = p ++ r.
Proof.
  revert s. induction p as [|a p IH]; intros s; cbn; [naive_solver|].
  destruct s as [|b s]; [naive_solver|]. case_decide; subst.
  - rewrite IH. naive_solver.
  - naive_solver.
Qed.

Lemma strip_prefix_app p r : strip_prefix p (p ++ r) = Some r.
Proof. by apply strip_prefix_Some. Qed.

Lemma strip_suffix_Some p s r : strip_suffix p s = Some r ↔ s = r ++ p.
Proof.
  unfold strip_suffix. rewrite fmap_Some. split.
  - intros (x & Hx%strip_prefix_Some & ->).
    apply (f_equal reverse) in Hx. rewrite reverse_involutive, reverse_app in Hx.
    by rewrite reverse_involutive in Hx.
  - intros ->. exists (reverse r). rewrite reverse_app, reverse_involutive.
    by rewrite strip_prefix_app.
Qed.

Lemma strip_suffix_app p r : strip_suffix p (r ++ p) = Some r.
Proof. by apply strip_suffix_Some. Qed.

Lemma split_once_Some p s l r : split_once p s = Some (l, r) → s = l ++ p ++ r.
Proof.
  revert l. induction s as [|b s IH]; intros l; cbn; destruct (strip_prefix p _) as [r'|] eqn:E.
  - apply strip_prefix_Some in E. cbn in E. intros [= <- ->]. exact E.
  - done.
  - apply strip_prefix_Some in E. rewrite E. by intros [= <- ->].
  - destruct (split_once p s) as [[l' r']|] eqn:E'; [|done].
    intros [= <- ->]. cbn. f_equal. by apply IH.
Qed.

Lemma contains_spec p s : contains p s = true ↔ ∃ l r, s = l ++ p ++ r.
Proof.
  unfold contains. split.
  - destruct (split_once p s) as [[l r]|] eqn:E; [|done].
    intros _. exists l, r. by apply split_once_Some.
  - intros (l & r & ->). induction l as [|b l IH]; cbn.
    + destruct (p ++ r) eqn:E; cbn.
      * apply app_eq_nil in E as [-> ->]. done.
      * rewrite <- E, strip_prefix_app. done.
    + destruct (strip_prefix p (b :: l ++ p ++ r)); [done|].
      by destruct (split_once p (l ++ p ++ r)) as [[??]|].
Qed.

(** [split_once] stops at the first occurrence. *)
Lemma split_once_first p l r : p ≠ [] →
  (∀ l1 l2, l = l1 ++ l2 → l2 ≠ [] → strip_prefix p (l2 ++ p ++ r) = None) →
  split_once p (l ++ p ++ r) = Some (l, r).
Proof.
  intros Hp. induction l as [|b l IH]; intros Hno.
  - cbn [app]. destruct (p ++ r) eqn:E; [by apply app_eq_nil in E as [-> ->]|].
    cbn. rewrite <- E, strip_prefix_app. done.
  - cbn [app split_once]. change (b :: l ++ p ++ r) with ((b :: l) ++ p ++ r).
    rewrite (Hno [] (b :: l)) by done.
    rewrite IH; [done|]. intros l1 l2 -> ?. by apply (Hno (b :: l1) l2).
Qed.

Lemma split_byte_nonempty c s : split_byte c s ≠ [].
Proof.
  destruct s as [|b s]; cbn; [congruence|].
  case_decide; [congruence|]. destruct (split_byte c s); congruence.
Qed.

Lemma join_split c s : join [c] (split_byte c s) = s.
Proof.
  induction s as [|b s IH]; cbn; [done|].
  pose proof (split_byte_nonempty c s).
  case_decide; subst; destruct (split_byte c s) as [|w ws] eqn:E; try done.
  - cbn in *. by rewrite IH.
  - destruct ws; cbn in *; by rewrite IH.
Qed.

Lemma elem_of_join b sep w ws : w ∈ ws → b ∈ w → b ∈ join sep ws.
Proof.
  induction ws as [|w' ws IH]; [by intros ?%not_elem_of_nil|].
  intros [->|Hw]%elem_of_cons Hb; destruct ws as [|w'' ws]; cbn [join];
    rewrite ?elem_of_app; auto.
  by apply not_elem_of_nil in Hw.
Qed.

Lemma split_byte_word c w : c ∉ w → split_byte c w = [w].
Proof.
  induction w as [|b w IH]; cbn; [done|]. intros Hnot.
  rewrite not_elem_of_cons in Hnot. destruct Hnot as [Hb Hw].
  case_decide; [by subst|]. by rewrite IH.
Qed.

Lemma split_byte_app c w s : c ∉ w → split_byte c (w ++ c :: s) = w :: split_byte c s.
Proof.
  induction w as [|b w IH]; cbn; intros Hnot.
  - by rewrite decide_True.
  - rewrite not_elem_of_cons in Hnot. destruct Hnot as [Hb Hw].
    rewrite decide_False by congruence. by rewrite IH.
Qed.

Lemma split_join c ws : ws ≠ [] → Forall (λ w, c ∉ w) ws → split_byte c (join [c] ws) = ws.
Proof.
  induction ws as [|w ws IH]; [done|]. intros _ [Hw Hws]%Forall_cons.
  destruct ws as [|w' ws].
  - by apply split_byte_word.
  - change (join [c] (w :: w' :: ws)) with (w ++ c :: join [c] (w' :: ws)).
    rewrite split_byte_app by done. by rewrite IH.
Qed.
End affixes.

#[export] Hint Rewrite strip_prefix_app strip_suffix_app : babar.
