(* ===== verification/Error.v ===== *)
(** * Errors and their rendering

    [crates/core/src/error.rs] and [crates/core/src/migration/error.rs]: the driver's error
    type, the construction of a server error from the fields of an [ErrorResponse], the
    attachment of SQL context, and the rendering that points into the SQL text.  An
    [io::Error] is carried by its rendered message. *)
From S2P Require Import Prelude Bytes Text.

Local Open Scope Z_scope.
Local Open Scope str_scope.

(** Source location captured for a macro-built fragment ([query/fragment.rs]). *)
Record Origin := Origin_new { file : str; line : Z; column : Z }.

#[export] Instance Origin_eq_dec : EqDecision Origin.
Proof. solve_decision. Defined.

(** ** Migration errors *)
Inductive MigrationError :=
  | InvalidFileName (file_name expected : str)
  | InvalidVersion (version : str)
  | InvalidName (name : str)
  | InvalidDirective (directive reason : str)
  | PairMismatch (up down : str)
  | InvalidChecksum (checksum : str)
  | InvalidSourcePath (path reason : str)
  | DuplicateMigrationScript (id kind first second : str)
  | ConflictingMigrationVersion (version : Z) (existing_name conflicting_name : str)
  | MissingMigrationScript (id missing : str)
  | AppliedMigrationMissing (id : str)
  | AppliedMigrationOrderMismatch (expected actual : str)
  | DriftDetected (id reason : str)
  | InvalidTable (qualified_name reason : str)
  | InvalidAppliedMigrationRow (reason : str).

#[export] Instance MigrationError_eq_dec : EqDecision MigrationError.
Proof. solve_decision. Defined.

Definition MigrationError_display (e : MigrationError) : str :=
  match e with
  | InvalidFileName f x => "invalid migration file name " ++ debug_str f ++ "; expected " ++ x
  | InvalidVersion v =>
      "invalid migration version " ++ debug_str v ++ "; expected an unsigned integer"
  | InvalidName n => "invalid migration name " ++ debug_str n ++ "; expected lowercase snake_case"
  | InvalidDirective d r => "invalid migration directive " ++ debug_str d ++ ": " ++ r
  | PairMismatch u d => "migration pair mismatch: " ++ u ++ " does not match " ++ d
  | InvalidChecksum c =>
      "invalid migration checksum " ++ debug_str c ++ "; expected 64 lowercase hex characters"
  | InvalidSourcePath p r => "invalid migration source path " ++ debug_str p ++ ": " ++ r
  | DuplicateMigrationScript i k f s =>
      "duplicate migration script for " ++ i ++ " (" ++ k ++ "): " ++ debug_str f
      ++ " and " ++ debug_str s
  | ConflictingMigrationVersion v x c =>
      "conflicting migration version " ++ dec v ++ ": " ++ debug_str x
      ++ " conflicts with " ++ debug_str c
  | MissingMigrationScript i m => "missing " ++ m ++ " migration script for " ++ i
  | AppliedMigrationMissing i =>
      "applied migration " ++ i ++ " is not present in the migration source"
  | AppliedMigrationOrderMismatch x a =>
      "applied migration order mismatch: expected " ++ x ++ ", found " ++ a
  | DriftDetected i r => "migration drift detected for " ++ i ++ ": " ++ r
  | InvalidTable q r => "invalid migration table " ++ debug_str q ++ ": " ++ r
  | InvalidAppliedMigrationRow r => "invalid applied migration row: " ++ r
  end.

(** ** Driver errors *)
Record ServerError := mk_server_error {
  code : str;
  severity : str;
  message : str;
  detail : option str;
  hint : option str;
  position : option Z;
}.

Inductive Error :=
  | Io (e : str)
  | Closed (sql : option str) (origin : option Origin)
  | Protocol (msg : str)
  | Auth (msg : str)
  | UnsupportedAuth (name : str)
  | Server (e : ServerError) (sql : option str) (origin : option Origin)
  | Config (msg : str)
  | Codec (msg : str)
  | ColumnAlignment (expected actual : Z) (sql : option str) (origin : option Origin)
  | SchemaMismatch (position expected_oid actual_oid : Z) (column_name : str)
      (sql : option str) (origin : option Origin)
  | Migration (e : MigrationError).

#[export] Instance ServerError_eq_dec : EqDecision ServerError.
Proof. solve_decision. Defined.
#[export] Instance Error_eq_dec : EqDecision Error.
Proof. solve_decision. Defined.

(** [Error::closed] *)
Definition closed : Error := Closed None None.

(** [Error::with_sql]: fills an empty slot, never overwrites one. *)
Definition or_else {A} (slot : option A) (o : option A) : option A :=
  match slot with Some x => Some x | None => o end.

Definition with_sql (e : Error) (sql : str) (origin : option Origin) : Error :=
  match e with
  | Closed slot slot_origin => Closed (or_else slot (Some sql)) (or_else slot_origin origin)
  | ColumnAlignment x a slot slot_origin =>
      ColumnAlignment x a (or_else slot (Some sql)) (or_else slot_origin origin)
  | SchemaMismatch p x a n slot slot_origin =>
      SchemaMismatch p x a n (or_else slot (Some sql)) (or_else slot_origin origin)
  | Server s slot slot_origin =>
      Server s (or_else slot (Some sql)) (or_else slot_origin origin)
  | Io _ | Protocol _ | Auth _ | UnsupportedAuth _ | Config _ | Codec _ | Migration _ => e
  end.

(** [Error::from_server_fields]: one pass over the [(key, value)] fields. *)
Definition server_field (acc : ServerError) (f : byte * str) : ServerError :=
  let '(key, value) := f in
  let '(mk_server_error code severity message detail hint position) := acc in
  if (byte_is key 83 || byte_is key 86) && bool_decide (severity = []) then
    mk_server_error code value message detail hint position
  else if byte_is key 67 then mk_server_error value severity message detail hint position
  else if byte_is key 77 then mk_server_error code severity value detail hint position
  else if byte_is key 68 then mk_server_error code severity message (Some value) hint position
  else if byte_is key 72 then mk_server_error code severity message detail (Some value) position
  else if byte_is key 80 then
    mk_server_error code severity message detail hint (to_option (parse_uint 64 10 value))
  else acc.

Definition from_server_fields (fields : list (byte * str)) : Error :=
  Server (fold_left server_field fields (mk_server_error [] [] [] None None None)) None None.

(** [Error::clone_for_caller] ([session/driver.rs]): the copy handed to the caller of a failed
    flush. *)
Definition clone_for_caller (e : Error) : Error :=
  match e with
  | Io _ | Closed _ _ => closed
  | e => e
  end.

(** ** Pointing into the SQL text *)

(** [line.chars().count()] *)
Definition width_of (l : str) : Z := Z.of_nat (length (chars l)).

Fixpoint locate_line (index remaining : Z) (ls : list str) : option (Z * str * option Z) :=
  match ls with
  | [] => None
  | l :: ls =>
    let width := width_of l + 1 in
    if remaining <=? width
    then Some (index + 1, l, Some (Z.min remaining (width_of l + 1)))
    else locate_line (index + 1) (Z.max 0 (remaining - width)) ls
  end.

Fixpoint last_line (index : Z) (ls : list str) (acc : option (Z * str * option Z))
  : option (Z * str * option Z) :=
  match ls with
  | [] => acc
  | l :: ls => last_line (index + 1) ls (Some (index + 1, l, Some (width_of l + 1)))
  end.

Definition locate_sql (sql : str) (position : Z) : option (Z * str * option Z) :=
  if position =? 0 then None else
  match locate_line 0 position (lines sql) with
  | Some r => Some r
  | None => last_line 0 (lines sql) None
  end.

Definition newline : str := [x0a].

(** [{:>2}] *)
Definition pad2 (s : str) : str :=
  match s with [c] => " " ++ [c] | _ => s end.

Definition render_sql_context (sql : option str) (origin : option Origin)
    (position : option Z) : str :=
  match sql with
  | None => []
  | Some sql =>
    let first := match lines sql with l :: _ => l | [] => sql end in
    let '(line_no, l, col) :=
      match position with
      | Some offset => match locate_sql sql offset with
                       | Some r => r
                       | None => (1, first, None)
                       end
      | None => (1, first, None)
      end in
    match origin with
    | Some o => newline ++ "--> " ++ file o ++ ":" ++ dec (line o) ++ ":" ++ dec (column o)
    | None => []
    end
    ++ newline ++ "SQL " ++ pad2 (dec line_no) ++ " | " ++ l
    ++ match col with
       | Some c => newline ++ "      | " ++ repeat x20 (Z.to_nat (Z.max 0 (c - 1))) ++ "^"
       | None => []
       end
  end.

(** [Display] for [Error] *)
Definition Error_display (e : Error) : str :=
  match e with
  | Io err => "I/O error: " ++ err
  | Closed sql origin => "connection closed" ++ render_sql_context sql origin None
  | Protocol msg => "protocol error: " ++ msg
  | Auth msg => "authentication failed: " ++ msg
  | UnsupportedAuth name => "unsupported authentication mechanism: " ++ name
  | Server s sql origin =>
      severity s ++ " " ++ code s ++ ": " ++ message s
      ++ match detail s with Some d => newline ++ "DETAIL: " ++ d | None => [] end
      ++ match hint s with Some h => newline ++ "HINT: " ++ h | None => [] end
      ++ render_sql_context sql origin (position s)
  | Config msg => "configuration error: " ++ msg
  | Codec msg => "codec error: " ++ msg
  | Migration err => "migration error: " ++ MigrationError_display err
  | ColumnAlignment x a sql origin =>
      "column alignment: decoder expects " ++ dec x ++ " columns, server returned " ++ dec a
      ++ render_sql_context sql origin None
  | SchemaMismatch p x a n sql origin =>
      "schema mismatch at column " ++ dec p ++ ": expected OID " ++ dec x
      ++ ", server has OID " ++ dec a ++ " (column " ++ [x22] ++ n ++ [x22] ++ ")"
      ++ render_sql_context sql origin None
  end.

(** The repository's own rendering test, evaluated on the model. *)
Example server_error_display :
  Error_display (Server (mk_server_error "42601" "ERROR" "syntax error" None
                           (Some "check the SELECT list") (Some 8))
                   (Some "SELECT FROM demo") (Some (Origin_new "src/main.rs" 10 5)))
  = "ERROR 42601: syntax error" ++ newline ++ "HINT: check the SELECT list" ++ newline
    ++ "--> src/main.rs:10:5" ++ newline ++ "SQL  1 | SELECT FROM demo" ++ newline
    ++ "      |        ^".
Proof. vm_compute. reflexivity. Qed.

(** ** Attaching context never loses what is known *)

Definition sql_of (e : Error) : option str :=
  match e with
  | Closed s _ | ColumnAlignment _ _ s _ | SchemaMismatch _ _ _ _ s _ | Server _ s _ => s
  | _ => None
  end.
Definition origin_of (e : Error) : option Origin :=
  match e with
  | Closed _ o | ColumnAlignment _ _ _ o | SchemaMismatch _ _ _ _ _ o | Server _ _ o => o
  | _ => None
  end.

(** The innermost [with_sql] wins. *)
Lemma with_sql_keeps e sql origin sql' origin' :
  sql_of e = Some sql → sql_of (with_sql e sql' origin') = Some sql
  ∧ (origin_of e = Some origin → with_sql e sql' origin' = e).
Proof. destruct e; cbn; naive_solver. Qed.

(** ** The rendered pointer is where the server says *)

(** The characters of the first [n] lines, line ends included. *)
Definition chars_before (n : nat) (ls : list str) : Z :=
  foldr (λ l acc, width_of l + 1 + acc) 0 (take n ls).

Lemma width_of_nonneg l : 0 ≤ width_of l.
Proof. unfold width_of. lia. Qed.

Lemma locate_line_spec ls index remaining n l c :
  1 ≤ remaining → locate_line index remaining ls = Some (n, l, c) →
  ∃ k, n = index + Z.of_nat k + 1 ∧ ls !! k = Some l
    ∧ c = Some (remaining - chars_before k ls)
    ∧ 1 ≤ remaining - chars_before k ls ≤ width_of l + 1.
Proof.
  revert index remaining. induction ls as [|l0 ls IH]; intros index remaining Hr; [done|].
  cbn [locate_line]. pose proof (width_of_nonneg l0). destruct (Z.leb_spec remaining (width_of l0 + 1)).
  - intros [= <- <- <-]. exists 0%nat. unfold chars_before. cbn. split; [lia|]. split; [done|].
    split; [f_equal|]; lia.
  - intros (k & -> & Hl & -> & Hc)%IH; [|lia]. exists (S k).
    unfold chars_before in *. cbn. split; [lia|]. split; [done|]. split; [f_equal|]; lia.
Qed.

Lemma locate_line_None ls index remaining :
  1 ≤ remaining → locate_line index remaining ls = None → chars_before (length ls) ls < remaining.
Proof.
  unfold chars_before. rewrite firstn_all.
  revert index remaining. induction ls as [|l0 ls IH]; intros index remaining Hr; cbn; [lia|].
  pose proof (width_of_nonneg l0). destruct (Z.leb_spec remaining (width_of l0 + 1)); [done|].
  intros Hn. apply IH in Hn; lia.
Qed.

Lemma last_line_spec ls index acc :
  last_line index ls acc
  = match last ls with
    | Some l => Some (index + Z.of_nat (length ls), l, Some (width_of l + 1))
    | None => acc
    end.
Proof.
  revert index acc. induction ls as [|l ls IH]; intros index acc; [done|].
  cbn [last_line]. rewrite IH. destruct ls as [|l' ls]; [cbn; do 3 f_equal; lia|].
  rewrite last_cons_cons. destruct (last (l' :: ls)) as [r|] eqn:E.
  - do 3 f_equal. cbn [length]. lia.
  - by apply last_None in E.
Qed.

(** ** Lines and characters *)

Fixpoint split_char (c : Z) (cs : list Z) : list (list Z) :=
  match cs with
  | [] => [[]]
  | x :: cs =>
    if decide (x = c) then [] :: split_char c cs
    else match split_char c cs with w :: ws => (x :: w) :: ws | [] => [[x]] end
  end.

Lemma split_byte_cons_word c w s :
  c ∉ w → split_byte c (w ++ s) = match split_byte c s with v :: vs => (w ++ v) :: vs | [] => [w] end.
Proof.
  induction w as [|b w IH]; cbn; intros Hn.
  - pose proof (split_byte_nonempty c s). by destruct (split_byte c s).
  - apply not_elem_of_cons in Hn as [Hb Hw]. rewrite decide_False, IH by done.
    pose proof (split_byte_nonempty c s). by destruct (split_byte c s).
Qed.

Lemma encode_char_no_newline c : is_char c → c ≠ 10 → x0a ∉ encode_char c.
Proof.
  intros Hc Hne Hin.
  assert (∀ z, 0 ≤ z < 256 → z ≠ 10 → x0a ≠ byte_of z) as Hb.
  { intros z Hz Hz10 E. apply Hz10. rewrite <- (u8_of_byte_of z Hz), <- E. done. }
  unfold is_char in Hc. unfold encode_char in Hin.
  repeat case_match; repeat (apply elem_of_cons in Hin as [Hin|Hin]; [revert Hin|]);
    try (by apply not_elem_of_nil in Hin);
    apply Hb; Z.to_euclidean_division_equations; lia.
Qed.

Lemma split_byte_encode cs :
  Forall is_char cs → split_byte x0a (encode_chars cs) = map encode_chars (split_char 10 cs).
Proof.
  induction 1 as [|c cs Hc _ IH]; [done|].
  change (encode_chars (c :: cs)) with (encode_char c ++ encode_chars cs). cbn [split_char].
  case_decide as Hne.
  - subst c. change (encode_char 10) with [x0a]. cbn. by rewrite IH.
  - rewrite split_byte_cons_word, IH by by apply encode_char_no_newline.
    by destruct (split_char 10 cs); [cbn; rewrite app_nil_r|].
Qed.

Lemma split_char_nonempty c cs : split_char c cs ≠ [].
Proof. destruct cs as [|x cs]; [done|]. cbn. case_decide; [done|]. by destruct (split_char c cs). Qed.

(** The text as its pieces with the line feeds between them. *)
Lemma split_char_lookup cs k w i :
  split_char 10 cs !! k = Some w → (i ≤ length w)%nat →
  let o := foldr (λ w acc, length w + 1 + acc)%nat 0%nat (take k (split_char 10 cs)) in
  (o + i < length cs)%nat → cs !! (o + i)%nat = (w ++ [10]) !! i.
Proof.
  revert k w i. induction cs as [|c cs IH]; intros k w i.
  { destruct k as [|k]; cbn; [|done]. intros [= <-]. lia. }
  cbn [split_char]. pose proof (split_char_nonempty 10 cs) as Hne. case_decide as Hc.
  - destruct k as [|k]; cbn.
    + intros [= <-] Hi _. cbn in Hi. replace i with 0%nat by lia. cbn. by subst.
    + intros Hk Hi Ho. apply (IH k w i Hk Hi). lia.
  - destruct (split_char 10 cs) as [|v vs] eqn:E; [done|]. destruct k as [|k]; cbn.
    + intros [= <-] Hi Ho. destruct i as [|i]; [done|]. cbn in Hi |- *.
      apply (IH 0%nat v i eq_refl); cbn; lia.
    + intros Hk Hi Ho. rewrite <- (IH (S k) w i Hk Hi) by (cbn; lia). done.
Qed.

Lemma split_char_forall (P : Z → Prop) c cs : Forall P cs → Forall (Forall P) (split_char c cs).
Proof.
  induction 1 as [|x cs Hx _ IH]; cbn; [repeat constructor|].
  case_decide; [by constructor|]. destruct (split_char c cs); [by repeat constructor|].
  apply Forall_cons in IH as [??]. by repeat constructor.
Qed.

Lemma chars_encode cs : Forall is_char cs → chars (encode_chars cs) = cs.
Proof. intros Hcs. unfold chars. by rewrite utf8_scan_encode. Qed.

(** [lines] of a text without carriage returns: the pieces, less an empty last one. *)
Lemma lines_of_no_cr parts k l :
  Forall (λ w, x0d ∉ w) parts → lines_of parts !! k = Some l → parts !! k = Some l.
Proof.
  intros Hp. revert k. induction Hp as [|w ws Hw Hws IH]; intros k; [done|]. cbn [lines_of].
  assert (strip_cr w = w) as Hcr.
  { unfold strip_cr. destruct (strip_suffix [x0d] w) as [r|] eqn:E; [|done].
    apply strip_suffix_Some in E as ->. exfalso. apply Hw. apply elem_of_app. right. by left. }
  destruct ws as [|w' ws]; [destruct w; [done|]; destruct k; done|].
  rewrite Hcr. destruct k as [|k]; [done|]. apply IH.
Qed.

Lemma lines_of_take parts k l :
  Forall (λ w, x0d ∉ w) parts → lines_of parts !! k = Some l → take k (lines_of parts) = take k parts.
Proof.
  intros Hp Hk. apply list_eq. intros i. destruct (decide (i < k)%nat) as [Hi|Hi].
  - rewrite !lookup_take_lt by done. pose proof (lookup_lt_Some _ _ _ Hk).
    destruct (lines_of parts !! i) as [x|] eqn:E.
    + symmetry. by apply lines_of_no_cr.
    + apply lookup_ge_None in E. lia.
  - by rewrite !lookup_take_ge by lia.
Qed.

Lemma lines_of_enough parts :
  parts ≠ [] → Forall (λ w, x0d ∉ w) parts →
  foldr (λ l acc, width_of l + 1 + acc) 0 parts - 1 ≤ foldr (λ l acc, width_of l + 1 + acc) 0 (lines_of parts).
Proof.
  intros Hne Hp. induction Hp as [|w ws Hw Hws IH]; [done|]. cbn [lines_of].
  destruct ws as [|w' ws].
  { destruct w as [|b w]; cbn; [|lia]. change (width_of []) with 0. lia. }
  assert (strip_cr w = w) as Hcr.
  { unfold strip_cr. destruct (strip_suffix [x0d] w) as [r|] eqn:E; [|done].
    apply strip_suffix_Some in E as ->. exfalso. apply Hw. apply elem_of_app. right. by left. }
  rewrite Hcr. cbn [foldr] in *. specialize (IH ltac:(done)). lia.
Qed.

Lemma split_char_length cs :
  foldr (λ w acc, length w + 1 + acc)%nat 0%nat (split_char 10 cs) = S (length cs).
Proof.
  induction cs as [|c cs IH]; [done|]. cbn [split_char].
  case_decide; [cbn; by rewrite IH|].
  pose proof (split_char_nonempty 10 cs). destruct (split_char 10 cs); [done|]. cbn in *. lia.
Qed.

Lemma chars_before_encode ws :
  Forall (Forall is_char) ws →
  foldr (λ l acc, width_of l + 1 + acc) 0 (map encode_chars ws)
  = Z.of_nat (foldr (λ w acc, length w + 1 + acc)%nat 0%nat ws).
Proof.
  induction 1 as [|w ws Hw _ IH]; [done|]. cbn. rewrite IH. unfold width_of.
  rewrite chars_encode by done. lia.
Qed.

(** the rendered SQL pointer is right: for a valid text without carriage returns, and a
    character position (counted from 1) inside it, as the server reports, [locate_sql] returns
    the line that holds that character and its column: the character there is the one at the
    position, a column just past the line standing for its line feed. *)
Theorem locate_sql_points sql p :
  utf8_valid sql = true → x0d ∉ sql → 1 ≤ p ≤ Z.of_nat (length (chars sql)) →
  ∃ k l c, locate_sql sql p = Some (Z.of_nat k + 1, l, Some c)
    ∧ lines sql !! k = Some l ∧ 1 ≤ c ≤ width_of l + 1
    ∧ chars sql !! Z.to_nat (p - 1) = (chars l ++ [10]) !! Z.to_nat (c - 1).
Proof.
  intros (cs & Hcs & ->)%utf8_valid_iff Hcr Hp. rewrite chars_encode in Hp |- * by done.
  set (ws := split_char 10 cs). assert (Forall (Forall is_char) ws) as Hws by by apply split_char_forall.
  assert (lines (encode_chars cs) = lines_of (map encode_chars ws)) as Hlines
    by (unfold lines; by rewrite split_byte_encode).
  assert (Forall (λ w, x0d ∉ w) (map encode_chars ws)) as Hnocr.
  { unfold ws. rewrite <- split_byte_encode by done. apply Forall_forall. intros w Hw Hin. apply Hcr.
    rewrite <- (join_split x0a (encode_chars cs)). by eapply elem_of_join. }
  assert (map encode_chars ws ≠ []) as Hne.
  { intros E%map_eq_nil. by apply (split_char_nonempty 10 cs). }
  unfold locate_sql. rewrite (proj2 (Z.eqb_neq p 0)) by lia. rewrite Hlines.
  destruct (locate_line 0 p (lines_of (map encode_chars ws))) as [[[n l] c]|] eqn:E.
  2: { apply locate_line_None in E; [|lia]. unfold chars_before in E. rewrite firstn_all in E.
       pose proof (lines_of_enough _ Hne Hnocr) as Hen. rewrite chars_before_encode in Hen by done.
       unfold ws in Hen, E. rewrite split_char_length in Hen. lia. }
  apply locate_line_spec in E as (k & -> & Hl & -> & Hc); [|lia].
  exists k, l, (p - chars_before k (lines_of (map encode_chars ws))).
  split; [do 3 f_equal; lia|]. split; [done|]. split; [done|].
  pose proof (lines_of_no_cr _ _ _ Hnocr Hl) as Hlw.
  rewrite list_lookup_fmap in Hlw. apply fmap_Some in Hlw as (w & Hw & ->).
  assert (Forall is_char w) as Hwc by by eapply Forall_lookup_1.
  assert (chars_before k (lines_of (map encode_chars ws))
    = Z.of_nat (foldr (λ w acc, length w + 1 + acc)%nat 0%nat (take k ws))) as Hbefore.
  { unfold chars_before. rewrite (lines_of_take _ _ _ Hnocr Hl), <- fmap_take.
    apply chars_before_encode. by apply Forall_take. }
  rewrite Hbefore in *. rewrite chars_encode by done.
  unfold width_of in Hc. rewrite chars_encode in Hc by done.
  rewrite <- (split_char_lookup cs k w) by (done || fold ws; lia).
  fold ws. f_equal. lia.
Qed.

Lemma locate_sql_points_witness :
  ∃ k l c, locate_sql ("SELECT id," ++ newline ++ "nam FROM t") 12 = Some (Z.of_nat k + 1, l, Some c)
    ∧ lines ("SELECT id," ++ newline ++ "nam FROM t") !! k = Some l.
Proof.
  destruct (locate_sql_points ("SELECT id," ++ newline ++ "nam FROM t") 12) as (k & l & c & Hl & Hk & _).
  - vm_compute; reflexivity.
  - apply (bool_decide_unpack _). vm_compute. exact I.
  - split; vm_compute; discriminate.
  - exists k, l, c. split; [exact Hl | exact Hk].
Defined.

(** With carriage returns the pointer is one column off per line: [lines] drops the carriage
    return, which the server counts. *)
Example locate_sql_crlf :
  locate_sql ("a" ++ [x0d; x0a] ++ "bcd") 4 = Some (2, "bcd"%s, Some 2)
  ∧ chars ("a" ++ [x0d; x0a] ++ "bcd") !! 3%nat = Some 98.
Proof. split; vm_compute; reflexivity. Qed.
