(* ===== verification/Backend.v ===== *)
(** * Backend messages and their decoder

    [crates/core/src/protocol/backend.rs] and [protocol/codec.rs]: the messages a server sends
    and the incremental decoder [BackendCodec], which takes one length-framed message off the
    front of the read buffer.  The body readers are state-and-error computations on the
    remaining body, as [&mut Bytes] is in the source.  [Bytes] and [BytesMut] are byte lists. *)
From S2P Require Import Prelude Bytes Text Error.

Local Open Scope Z_scope.
Local Open Scope str_scope.

(** ** Messages ([backend.rs]) *)
Inductive AuthRequest :=
  | AuthOk
  | CleartextPassword
  | Md5Password (salt : bytes)
  | SaslMechanisms (mechanisms : list str)
  | SaslContinue (data : bytes)
  | SaslFinal (data : bytes)
  | Unsupported (code : Z).

Record RowField := mk_row_field {
  field_name : str;
  table_oid : Z;
  column_id : Z;
  type_oid : Z;
  type_size : Z;
  type_modifier : Z;
  format : Z;
}.

Inductive BackendMessage :=
  | Authentication (r : AuthRequest)
  | ParameterStatus (name value : str)
  | BackendKeyData (process_id secret_key : Z)
  | ReadyForQuery (transaction_status : byte)
  | RowDescription (fields : list RowField)
  | DataRow (columns : list (option bytes))
  | CopyInResponse (overall_format : byte) (column_formats : list Z)
  | CommandComplete (tag : str)
  | EmptyQueryResponse
  | ErrorResponse (fields : list (byte * str))
  | NoticeResponse (fields : list (byte * str))
  | ParseComplete
  | BindComplete
  | CloseComplete
  | NoData
  | ParameterDescription (type_oids : list Z)
  | PortalSuspended
  | Other (tag : byte) (body : bytes).

#[export] Instance AuthRequest_eq_dec : EqDecision AuthRequest.
Proof. solve_decision. Defined.
#[export] Instance RowField_eq_dec : EqDecision RowField.
Proof. solve_decision. Defined.
#[export] Instance BackendMessage_eq_dec : EqDecision BackendMessage.
Proof. solve_decision. Defined.

(** [Error::protocol] *)
Definition protocol (msg : str) : Error := Protocol msg.

(** ** Body readers *)
Abbreviation Reader := (SE bytes Error).

Definition read_fixed (n : nat) (conv : bytes → Z) (ctx : str) : Reader Z := λ buf,
  if (length buf <? n)%nat then (Err (protocol (ctx ++ ": out of bytes")), buf)
  else (Ok (conv (take n buf)), drop n buf).

Definition read_u8 (ctx : str) : Reader byte := λ buf,
  match buf with
  | [] => (Err (protocol (ctx ++ ": out of bytes")), buf)
  | b :: rest => (Ok b, rest)
  end.
Definition read_i16 (ctx : str) : Reader Z := read_fixed 2 from_be_i ctx.
Definition read_i32 (ctx : str) : Reader Z := read_fixed 4 from_be_i ctx.
Definition read_u32 (ctx : str) : Reader Z := read_fixed 4 from_be_u ctx.

(** A final step that is handed the rest of the body. *)
Definition with_body {A} (f : bytes → result Error A) : Reader A := λ body, (f body, body).

(** [body.split_to(len)] after its bounds check. *)
Definition split_to (len : nat) (e : Error) : Reader bytes := λ body,
  if (length body <? len)%nat then (Err e, body) else (Ok (take len body), drop len body).

(** [buf.iter().position(|&b| b == 0)]: the bytes before the first NUL and those after it. *)
Fixpoint split_nul (buf : bytes) : option (bytes * bytes) :=
  match buf with
  | [] => None
  | b :: buf =>
    if byte_is b 0 then Some ([], buf)
    else match split_nul buf with
         | Some (l, r) => Some (b :: l, r)
         | None => None
         end
  end.

Definition read_cstr (ctx : str) : Reader str := λ buf,
  match split_nul buf with
  | None => (Err (protocol (ctx ++ ": missing NUL terminator")), buf)
  | Some (l, r) =>
    match from_utf8 l with
    | Ok s => (Ok s, r)
    | Err _ => (Err (protocol (ctx ++ ": not UTF-8")), buf)
    end
  end.

(** [count.try_into().map_err(...)] of an [i16] count. *)
Definition usize_of_count (what : str) (count : Z) : Reader nat :=
  if count <? 0 then throw (protocol (what ++ " " ++ dec count ++ " < 0"))
  else mret (Z.to_nat count).

(** The error-field loop consumes at least one byte per round, so the length of the buffer is
    enough fuel. *)
Fixpoint read_error_fields_fuel (fuel : nat) : Reader (list (byte * str)) :=
  match fuel with
  | O => throw (protocol "ErrorResponse.field.code: out of bytes")
  | S fuel =>
    code ← read_u8 "ErrorResponse.field.code";
    if byte_is code 0 then mret []
    else
      value ← read_cstr "ErrorResponse.field.value";
      fields ← read_error_fields_fuel fuel;
      mret ((code, value) :: fields)
  end.
Definition read_error_fields : Reader (list (byte * str)) := λ body,
  read_error_fields_fuel (S (length body)) body.

(** ** Authentication requests *)
Fixpoint sasl_mechanisms_fuel (fuel : nat) (rest : bytes) : result Error (list str) :=
  match fuel with
  | O => Err (protocol "AuthenticationSASL list missing terminator")
  | S fuel =>
    match rest with
    | [] => Err (protocol "AuthenticationSASL list missing terminator")
    | b :: _ =>
      if byte_is b 0 then Ok []
      else
        match split_nul rest with
        | None => Err (protocol "AuthenticationSASL mechanism not NUL-terminated")
        | Some (l, r) =>
          match from_utf8 l with
          | Err _ => Err (protocol "AuthenticationSASL mechanism is not UTF-8")
          | Ok name => mechs ← sasl_mechanisms_fuel fuel r; Ok (name :: mechs)
          end
        end
    end
  end.

Definition decode_auth (code : Z) (body : bytes) : result Error AuthRequest :=
  if code =? 0 then Ok AuthOk
  else if code =? 3 then Ok CleartextPassword
  else if code =? 5 then
    if (length body =? 4)%nat then Ok (Md5Password body)
    else Err (protocol ("AuthenticationMD5Password salt length "
                        ++ dec (Z.of_nat (length body)) ++ " != 4"))
  else if code =? 10 then
    SaslMechanisms <$> sasl_mechanisms_fuel (S (length body)) body
  else if code =? 11 then Ok (SaslContinue body)
  else if code =? 12 then Ok (SaslFinal body)
  else Ok (Unsupported code).

(** ** Message bodies *)
Definition read_row_field : Reader RowField :=
  name ← read_cstr "RowDescription.field.name";
  table ← read_u32 "RowDescription.field.table_oid";
  col ← read_i16 "RowDescription.field.column_id";
  typ ← read_u32 "RowDescription.field.type_oid";
  size ← read_i16 "RowDescription.field.type_size";
  modif ← read_i32 "RowDescription.field.type_modifier";
  fmt ← read_i16 "RowDescription.field.format";
  mret (mk_row_field name table col typ size modif fmt).

Definition read_column : Reader (option bytes) :=
  len ← read_i32 "DataRow.column.length";
  if len =? -1 then mret None
  else if len <? 0 then throw (protocol ("DataRow column length " ++ dec len ++ " < -1"))
  else
    data ← split_to (Z.to_nat len) (protocol "DataRow column truncated past message body");
    mret (Some data).

Definition tag_of (t : byte) (z : Z) : bool := byte_is t z.

Definition decode_body_reader (tag : byte) : Reader BackendMessage :=
  if tag_of tag 82 (* R *) then
    code ← read_i32 "Authentication.code";
    with_body (λ body, Authentication <$> decode_auth code body)
  else if tag_of tag 83 (* S *) then
    name ← read_cstr "ParameterStatus.name";
    value ← read_cstr "ParameterStatus.value";
    mret (ParameterStatus name value)
  else if tag_of tag 75 (* K *) then
    process_id ← read_i32 "BackendKeyData.process_id";
    secret_key ← read_i32 "BackendKeyData.secret_key";
    mret (BackendKeyData process_id secret_key)
  else if tag_of tag 90 (* Z *) then
    status ← read_u8 "ReadyForQuery.status";
    mret (ReadyForQuery status)
  else if tag_of tag 84 (* T *) then
    count ← read_i16 "RowDescription.count";
    count ← usize_of_count "RowDescription count" count;
    fields ← se_times count read_row_field;
    mret (RowDescription fields)
  else if tag_of tag 68 (* D *) then
    count ← read_i16 "DataRow.count";
    count ← usize_of_count "DataRow count" count;
    columns ← se_times count read_column;
    mret (DataRow columns)
  else if tag_of tag 71 (* G *) then
    overall_format ← read_u8 "CopyInResponse.overall_format";
    count ← read_i16 "CopyInResponse.column_count";
    count ← usize_of_count "CopyInResponse column count" count;
    column_formats ← se_times count (read_i16 "CopyInResponse.column_format");
    mret (CopyInResponse overall_format column_formats)
  else if tag_of tag 67 (* C *) then
    tag ← read_cstr "CommandComplete.tag";
    mret (CommandComplete tag)
  else if tag_of tag 73 (* I *) then mret EmptyQueryResponse
  else if tag_of tag 69 (* E *) then
    fields ← read_error_fields; mret (ErrorResponse fields)
  else if tag_of tag 78 (* N *) then
    fields ← read_error_fields; mret (NoticeResponse fields)
  else if tag_of tag 49 (* 1 *) then mret ParseComplete
  else if tag_of tag 50 (* 2 *) then mret BindComplete
  else if tag_of tag 51 (* 3 *) then mret CloseComplete
  else if tag_of tag 110 (* n *) then mret NoData
  else if tag_of tag 116 (* t *) then
    count ← read_i16 "ParameterDescription.count";
    count ← usize_of_count "ParameterDescription count" count;
    type_oids ← se_times count (read_u32 "ParameterDescription.oid");
    mret (ParameterDescription type_oids)
  else if tag_of tag 115 (* s *) then mret PortalSuspended
  else with_body (λ body, Ok (Other tag body)).

Definition decode_body (tag : byte) (body : bytes) : result Error BackendMessage :=
  fst (decode_body_reader tag body).

(** ** The frame decoder: [BackendCodec::decode]

    [decode src] is the result and the buffer left: [Ok None] asks for more bytes. *)
Definition decode (src : bytes) : result Error (option BackendMessage) * bytes :=
  match src with
  | tag :: l0 :: l1 :: l2 :: l3 :: rest =>
    let len := from_be_u [l0; l1; l2; l3] in
    if len <? 4 then
      (Err (protocol ("backend message length " ++ dec len
                      ++ " smaller than length-field width")), src)
    else
      let body_len := Z.to_nat (len - 4) in
      if (length rest <? body_len)%nat then (Ok None, src)
      else (Some <$> decode_body tag (take body_len rest), drop body_len rest)
  | _ => (Ok None, src)
  end.

(** The read loop of a framed transport: messages are taken off the buffer until it asks for
    more bytes or fails. *)
Fixpoint decode_all_fuel (fuel : nat) (src : bytes) : list BackendMessage * (option Error) * bytes :=
  match fuel with
  | O => ([], None, src)
  | S fuel =>
    match decode src with
    | (Ok None, src') => ([], None, src')
    | (Err e, src') => ([], Some e, src')
    | (Ok (Some m), src') =>
      let '(ms, e, rest) := decode_all_fuel fuel src' in (m :: ms, e, rest)
    end
  end.
Definition decode_all (src : bytes) : list BackendMessage * option Error * bytes :=
  decode_all_fuel (S (length src)) src.

(** ** The server's side of the format

    The encoding the protocol documentation gives for each message, used to state the round
    trip; [wf_message] bounds the values the format can carry. *)
Definition nul : bytes := [x00].
Definition put_cstr (s : str) : bytes := s ++ nul.
Definition put_i16 (z : Z) : bytes := to_be_bytes 2 z.
Definition put_i32 (z : Z) : bytes := to_be_bytes 4 z.
Definition put_u32 (z : Z) : bytes := to_be_bytes 4 z.

Definition put_field (f : byte * str) : bytes := fst f :: put_cstr (snd f).
Definition put_fields (l : list (byte * str)) : bytes := concat (map put_field l) ++ nul.

Definition put_row_field (f : RowField) : bytes :=
  put_cstr (field_name f) ++ put_u32 (table_oid f) ++ put_i16 (column_id f)
  ++ put_u32 (type_oid f) ++ put_i16 (type_size f) ++ put_i32 (type_modifier f)
  ++ put_i16 (format f).

Definition put_column (c : option bytes) : bytes :=
  match c with
  | None => put_i32 (-1)
  | Some d => put_i32 (Z.of_nat (length d)) ++ d
  end.

Definition put_list {A} (put : A → bytes) (l : list A) : bytes :=
  put_i16 (Z.of_nat (length l)) ++ concat (map put l).

Definition auth_body (r : AuthRequest) : bytes :=
  match r with
  | AuthOk => put_i32 0
  | CleartextPassword => put_i32 3
  | Md5Password salt => put_i32 5 ++ salt
  | SaslMechanisms ms => put_i32 10 ++ concat (map put_cstr ms) ++ nul
  | SaslContinue d => put_i32 11 ++ d
  | SaslFinal d => put_i32 12 ++ d
  | Unsupported c => put_i32 c
  end.

Definition message_tag (m : BackendMessage) : byte :=
  match m with
  | Authentication _ => "R" | ParameterStatus _ _ => "S" | BackendKeyData _ _ => "K"
  | ReadyForQuery _ => "Z" | RowDescription _ => "T" | DataRow _ => "D"
  | CopyInResponse _ _ => "G" | CommandComplete _ => "C" | EmptyQueryResponse => "I"
  | ErrorResponse _ => "E" | NoticeResponse _ => "N" | ParseComplete => "1"
  | BindComplete => "2" | CloseComplete => "3" | NoData => "n"
  | ParameterDescription _ => "t" | PortalSuspended => "s" | Other t _ => t
  end%byte.

Definition message_body (m : BackendMessage) : bytes :=
  match m with
  | Authentication r => auth_body r
  | ParameterStatus n v => put_cstr n ++ put_cstr v
  | BackendKeyData p k => put_i32 p ++ put_i32 k
  | ReadyForQuery s => [s]
  | RowDescription fs => put_list put_row_field fs
  | DataRow cs => put_list put_column cs
  | CopyInResponse f cs => [f] ++ put_list put_i16 cs
  | CommandComplete t => put_cstr t
  | ErrorResponse fs | NoticeResponse fs => put_fields fs
  | ParameterDescription os => put_list put_u32 os
  | Other _ b => b
  | EmptyQueryResponse | ParseComplete | BindComplete | CloseComplete | NoData
  | PortalSuspended => []
  end.

Definition frame (tag : byte) (body : bytes) : bytes :=
  tag :: put_u32 (4 + Z.of_nat (length body)) ++ body.
Definition encode_message (m : BackendMessage) : bytes :=
  frame (message_tag m) (message_body m).

Definition wf_cstr (s : str) : Prop := x00 ∉ s ∧ utf8_valid s = true.
Definition wf_count {A} (l : list A) : Prop := Z.of_nat (length l) < 2 ^ 15.
Definition wf_field (f : byte * str) : Prop := fst f ≠ x00 ∧ wf_cstr (snd f).
Definition wf_row_field (f : RowField) : Prop :=
  wf_cstr (field_name f) ∧ in_uint 32 (table_oid f) ∧ in_sint 16 (column_id f)
  ∧ in_uint 32 (type_oid f) ∧ in_sint 16 (type_size f) ∧ in_sint 32 (type_modifier f)
  ∧ in_sint 16 (format f).
Definition wf_column (c : option bytes) : Prop :=
  match c with None => True | Some d => Z.of_nat (length d) < 2 ^ 31 end.
Definition known_auth (c : Z) : Prop := c ∈ [0; 3; 5; 10; 11; 12].
Definition wf_auth (r : AuthRequest) : Prop :=
  match r with
  | AuthOk | CleartextPassword | SaslContinue _ | SaslFinal _ => True
  | Md5Password salt => length salt = 4%nat
  | SaslMechanisms ms => Forall (λ s, s ≠ [] ∧ wf_cstr s) ms
  | Unsupported c => in_sint 32 c ∧ ¬ known_auth c
  end.
Definition known_tags : list byte :=
  ["R"; "S"; "K"; "Z"; "T"; "D"; "G"; "C"; "I"; "E"; "N"; "1"; "2"; "3"; "n"; "t"; "s"]%byte.
Definition wf_message (m : BackendMessage) : Prop :=
  match m with
  | Authentication r => wf_auth r
  | ParameterStatus n v => wf_cstr n ∧ wf_cstr v
  | BackendKeyData p k => in_sint 32 p ∧ in_sint 32 k
  | RowDescription fs => wf_count fs ∧ Forall wf_row_field fs
  | DataRow cs => wf_count cs ∧ Forall wf_column cs
  | CopyInResponse _ cs => wf_count cs ∧ Forall (in_sint 16) cs
  | CommandComplete t => wf_cstr t
  | ErrorResponse fs | NoticeResponse fs => Forall wf_field fs
  | ParameterDescription os => wf_count os ∧ Forall (in_uint 32) os
  | Other t _ => t ∉ known_tags
  | ReadyForQuery _ | EmptyQueryResponse | ParseComplete | BindComplete | CloseComplete
  | NoData | PortalSuspended => True
  end.

(** ** Reader lemmas

    [reads m w a]: from any buffer that starts with [w], [m] takes [w] off and returns [a]. *)
Definition reads {A} (m : Reader A) (w : bytes) (a : A) : Prop :=
  ∀ rest, m (w ++ rest) = (Ok a, rest).

(** [returns m P]: every value [m] returns satisfies [P]. *)
Definition returns {A} (m : Reader A) (P : A → Prop) : Prop :=
  ∀ s a s', m s = (Ok a, s') → P a.

Section readers.
Context {A B : Type}.
Implicit Types (w : bytes) (ctx : str).

Lemma reads_ret (a : A) : reads (mret a) [] a.
Proof. intros rest. done. Qed.

Lemma reads_bind (m : Reader A) (f : A → Reader B) w1 w2 a b :
  reads m w1 a → reads (f a) w2 b → reads (m ≫= f) (w1 ++ w2) b.
Proof.
  intros Hm Hf rest. rewrite <- app_assoc.
  unfold mbind, se_bind. rewrite Hm. apply Hf.
Qed.

(** A computation that ends after reading everything the first step left. *)
Lemma reads_bind_nil (m : Reader A) (f : A → Reader B) w a b :
  reads m w a → reads (f a) [] b → reads (m ≫= f) w b.
Proof. intros Hm Hf. rewrite <- (app_nil_r w). by eapply reads_bind. Qed.

Lemma reads_fixed n conv ctx w :
  length w = n → reads (read_fixed n conv ctx) w (conv w).
Proof.
  intros <- rest. unfold read_fixed. rewrite length_app.
  rewrite (proj2 (Nat.ltb_ge _ _)) by lia.
  by rewrite take_app_length, drop_app_length.
Qed.

Lemma returns_ret (P : A → Prop) a : P a → returns (mret a) P.
Proof. intros HP s a' s' [= <- _]. done. Qed.

Lemma returns_bind (m : Reader A) (f : A → Reader B) P Q :
  returns m P → (∀ a, P a → returns (f a) Q) → returns (m ≫= f) Q.
Proof. intros Hm Hf s b s' (a & s1 & Ha & Hb)%se_bind_inv. by eapply Hf, Hb; eapply Hm. Qed.

Lemma returns_throw (P : A → Prop) e : returns (throw e : Reader A) P.
Proof. intros s a s' [=]. Qed.

Lemma returns_impl (m : Reader A) (P Q : A → Prop) :
  returns m P → (∀ a, P a → Q a) → returns m Q.
Proof. intros Hm HPQ s a s' Ha. by eapply HPQ, Hm. Qed.

Lemma returns_true (m : Reader A) : returns m (λ _, True).
Proof. intros s a s' _. done. Qed.

End readers.

Section repeated_readers.
Context {A : Type}.

Lemma reads_times (m : Reader A) (put : A → bytes) (P : A → Prop) l :
  (∀ a, P a → reads m (put a) a) → Forall P l →
  reads (se_times (length l) m) (concat (map put l)) l.
Proof.
  intros Hm. induction 1 as [|a l Ha _ IH]; [exact (λ rest, eq_refl)|].
  cbn. eapply reads_bind; [by apply Hm|]. eapply reads_bind_nil; [exact IH|].
  exact (λ rest, eq_refl).
Qed.

Lemma returns_times (m : Reader A) P n :
  returns m P → returns (se_times n m) (λ l, length l = n ∧ Forall P l).
Proof.
  intros Hm. induction n as [|n IH]; cbn; [by apply returns_ret|].
  eapply returns_bind; [exact Hm|]. intros a Ha.
  eapply returns_bind; [exact IH|]. intros l [<- Hl]. apply returns_ret. by split; [|constructor].
Qed.
End repeated_readers.

Section primitive_readers.
Implicit Types (ctx : str) (z : Z) (s : str).

Lemma reads_u8 ctx b : reads (read_u8 ctx) [b] b.
Proof. intros rest. done. Qed.

Lemma reads_i16 ctx z : in_sint 16 z → reads (read_i16 ctx) (put_i16 z) z.
Proof.
  intros Hz. rewrite <- (i16_round_trip z Hz) at 2. by apply reads_fixed.
Qed.
Lemma reads_i32 ctx z : in_sint 32 z → reads (read_i32 ctx) (put_i32 z) z.
Proof.
  intros Hz. rewrite <- (i32_round_trip z Hz) at 2. by apply reads_fixed.
Qed.
Lemma reads_u32 ctx z : in_uint 32 z → reads (read_u32 ctx) (put_u32 z) z.
Proof.
  intros Hz. rewrite <- (u32_round_trip z Hz) at 2. by apply reads_fixed.
Qed.

Lemma byte_is_0 b : byte_is b 0 = bool_decide (b = x00).
Proof. destruct b; reflexivity. Qed.

Lemma split_nul_app s rest : x00 ∉ s → split_nul (s ++ x00 :: rest) = Some (s, rest).
Proof.
  induction s as [|b s IH]; [done|]. intros [Hb Hs]%not_elem_of_cons. cbn.
  rewrite byte_is_0, bool_decide_eq_false_2 by congruence. by rewrite IH.
Qed.

Lemma split_nul_Some buf l r : split_nul buf = Some (l, r) → x00 ∉ l ∧ buf = l ++ x00 :: r.
Proof.
  revert l. induction buf as [|b buf IH]; intros l; cbn; [done|].
  rewrite byte_is_0. case_bool_decide as Hb.
  - intros [= <- <-]. subst. split; [apply not_elem_of_nil | done].
  - destruct (split_nul buf) as [[l' r']|]; [|done]. intros [= <- <-].
    destruct (IH l' eq_refl) as [Hl ->]. split; [|done].
    by apply not_elem_of_cons.
Qed.

Lemma reads_cstr ctx s : wf_cstr s → reads (read_cstr ctx) (put_cstr s) s.
Proof.
  intros [Hn Hu] rest. unfold read_cstr, put_cstr, nul. rewrite <- app_assoc. cbn [app].
  rewrite split_nul_app by done. assert (from_utf8 s = Ok s) as -> by by apply from_utf8_Ok.
  done.
Qed.

Lemma returns_cstr ctx : returns (read_cstr ctx) wf_cstr.
Proof.
  intros b s b'. unfold read_cstr. destruct (split_nul b) as [[l r]|] eqn:E; [|done].
  apply split_nul_Some in E as [Hl _].
  destruct (from_utf8 l) as [s'|] eqn:Hu; [|done].
  intros [= <- _]. apply from_utf8_Ok in Hu as [-> Hu]. done.
Qed.

Lemma returns_i16 ctx : returns (read_i16 ctx) (in_sint 16).
Proof.
  intros b z b'. unfold read_i16, read_fixed. destruct (Nat.ltb_spec (length b) 2); [done|].
  intros [= <- _]. pose proof (from_be_i_range (take 2 b)) as Hr.
  rewrite length_take_le in Hr by lia. apply Hr. destruct b; [cbn in *; lia | done].
Qed.
Lemma returns_i32 ctx : returns (read_i32 ctx) (in_sint 32).
Proof.
  intros b z b'. unfold read_i32, read_fixed. destruct (Nat.ltb_spec (length b) 4); [done|].
  intros [= <- _]. pose proof (from_be_i_range (take 4 b)) as Hr.
  rewrite length_take_le in Hr by lia. apply Hr. destruct b; [cbn in *; lia | done].
Qed.
Lemma returns_u32 ctx : returns (read_u32 ctx) (in_uint 32).
Proof.
  intros b z b'. unfold read_u32, read_fixed. destruct (Nat.ltb_spec (length b) 4); [done|].
  intros [= <- _]. pose proof (from_be_u_range (take 4 b)) as Hr.
  by rewrite length_take_le in Hr by lia.
Qed.

Lemma reads_count what (n : nat) : reads (usize_of_count what (Z.of_nat n)) [] n.
Proof.
  intros rest. unfold usize_of_count. rewrite (proj2 (Z.ltb_ge _ _)) by lia.
  rewrite Nat2Z.id. done.
Qed.

Lemma returns_count what z :
  in_sint 16 z → returns (usize_of_count what z) (λ n, Z.of_nat n < 2 ^ 15).
Proof.
  intros [_ Hz] b n b'. unfold usize_of_count. destruct (Z.ltb_spec z 0); [done|].
  intros [= <- _]. rewrite Z2Nat.id by done. exact Hz.
Qed.

(** A counted list: the [i16] count, its conversion, and the elements. *)
Lemma reads_list {A B} c1 c2 (m : Reader A) (put : A → bytes) (P : A → Prop) (k : list A → B) l :
  (∀ a, P a → reads m (put a) a) → wf_count l → Forall P l →
  reads (count ← read_i16 c1; count ← usize_of_count c2 count;
         l ← se_times count m; mret (k l)) (put_list put l) (k l).
Proof.
  intros Hm Hc Hl. unfold put_list. eapply reads_bind.
  { apply reads_i16. unfold wf_count in Hc. split; lia. }
  rewrite <- (app_nil_l (concat _)). eapply reads_bind; [apply reads_count|].
  eapply reads_bind_nil; [by eapply reads_times|]. apply reads_ret.
Qed.

Lemma returns_list {A B} c1 c2 (m : Reader A) (P : A → Prop) (k : list A → B) (Q : B → Prop) :
  returns m P → (∀ l, wf_count l → Forall P l → Q (k l)) →
  returns (count ← read_i16 c1; count ← usize_of_count c2 count;
           l ← se_times count m; mret (k l)) Q.
Proof.
  intros Hm HQ. eapply returns_bind; [apply returns_i16|]. intros z Hz.
  eapply returns_bind; [by apply returns_count|]. intros n Hn.
  eapply returns_bind; [by apply returns_times|]. intros l [<- Hl].
  apply returns_ret. by apply HQ.
Qed.
End primitive_readers.

#[export] Hint Resolve reads_ret reads_u8 reads_i16 reads_i32 reads_u32 reads_cstr reads_count
  returns_cstr returns_i16 returns_i32 returns_u32 returns_count : babar.

Section bodies.
Implicit Types (m : BackendMessage) (body rest src : bytes).

Lemma tag_of_true t z b : u8_of b = z → tag_of t z = true → t = b.
Proof. unfold tag_of, byte_is. rewrite Z.eqb_eq. intros <-. apply u8_of_inj. Qed.

Lemma decode_body_other t body :
  t ∉ known_tags → decode_body_reader t body = (Ok (Other t body), body).
Proof.
  intros Ht. unfold decode_body_reader.
  repeat match goal with
  | |- context [tag_of t ?z] =>
      destruct (tag_of t z) eqn:?; [exfalso; apply Ht | ]
  end; [..|done].
  all: match goal with H : tag_of ?x ?z = true |- _ =>
    let b := eval vm_compute in (byte_of z) in
    rewrite (tag_of_true x z b eq_refl H) end; unfold known_tags; set_solver.
Qed.

Lemma sasl_mechanisms_fuel_concat ms fuel :
  Forall (λ s, s ≠ [] ∧ wf_cstr s) ms → (length (concat (map put_cstr ms)) < fuel)%nat →
  sasl_mechanisms_fuel fuel (concat (map put_cstr ms) ++ nul) = Ok ms.
Proof.
  intros Hms. revert fuel. induction Hms as [|s ms [Hne [Hnul Hu]] _ IH]; intros fuel Hf.
  { destruct fuel; cbn in *; [lia | done]. }
  destruct fuel as [|fuel]; [cbn in *; lia|].
  destruct s as [|b s]; [done|].
  cbn [map concat] in *. unfold put_cstr at 1, nul at 1 in Hf.
  rewrite !length_app in Hf. cbn [length] in Hf.
  rewrite <- app_assoc. unfold put_cstr at 1. rewrite <- app_assoc.
  cbn [sasl_mechanisms_fuel app].
  rewrite byte_is_0, bool_decide_eq_false_2 by (apply not_elem_of_cons in Hnul; naive_solver).
  change (b :: s ++ nul ++ concat (map put_cstr ms) ++ nul)
    with ((b :: s) ++ x00 :: (concat (map put_cstr ms) ++ nul)).
  rewrite split_nul_app by done.
  assert (from_utf8 (b :: s) = Ok (b :: s)) as -> by by apply from_utf8_Ok.
  rewrite IH by lia. done.
Qed.

Lemma decode_auth_body r :
  wf_auth r →
  ∃ c b, auth_body r = put_i32 c ++ b ∧ in_sint 32 c ∧ decode_auth c b = Ok r.
Proof.
  destruct r as [| |salt|ms|d|d|c]; cbn [auth_body wf_auth]; intros Hwf.
  1: by exists 0, []. 1: by exists 3, [].
  - exists 5, salt. unfold decode_auth. cbn. by rewrite Hwf.
  - exists 10, (concat (map put_cstr ms) ++ nul). split; [done|]. split; [done|].
    unfold decode_auth. cbn [Z.eqb Pos.eqb].
    rewrite sasl_mechanisms_fuel_concat; [done..|]. rewrite length_app. cbn. lia.
  - by exists 11, d.
  - by exists 12, d.
  - exists c, []. rewrite app_nil_r. destruct Hwf as [Hc Hk]. split; [done|]. split; [done|].
    unfold known_auth in Hk. rewrite !not_elem_of_cons in Hk.
    destruct Hk as (? & ? & ? & ? & ? & ? & _).
    unfold decode_auth. by rewrite !(proj2 (Z.eqb_neq _ _)) by done.
Qed.

Lemma reads_row_field f : wf_row_field f → reads read_row_field (put_row_field f) f.
Proof.
  destruct f. intros (?&?&?&?&?&?&?). cbn in *. unfold read_row_field, put_row_field. cbn.
  repeat (eapply reads_bind; [eauto with babar|]).
  eapply reads_bind_nil; eauto with babar.
Qed.

Lemma returns_row_field : returns read_row_field wf_row_field.
Proof.
  unfold read_row_field.
  repeat (eapply returns_bind; [eauto with babar | intros ? ?]).
  apply returns_ret. done.
Qed.

Lemma reads_column c : wf_column c → reads read_column (put_column c) c.
Proof.
  unfold read_column. destruct c as [d|]; cbn [wf_column put_column]; intros Hwf.
  - eapply reads_bind; [apply reads_i32; split; lia|].
    rewrite (proj2 (Z.eqb_neq _ _)), (proj2 (Z.ltb_ge _ _)), Nat2Z.id by lia.
    eapply reads_bind_nil; [|apply reads_ret].
    intros rest. unfold split_to. rewrite length_app, (proj2 (Nat.ltb_ge _ _)) by lia.
    by rewrite take_app_length, drop_app_length.
  - eapply reads_bind_nil; [by apply reads_i32 | apply reads_ret].
Qed.

Lemma returns_column : returns read_column wf_column.
Proof.
  unfold read_column. eapply returns_bind; [apply returns_i32|]. intros len [_ Hlen].
  destruct (Z.eqb_spec len (-1)); [by apply returns_ret|].
  destruct (Z.ltb_spec len 0); [apply returns_throw|].
  intros s c s'. unfold split_to, mbind, se_bind.
  destruct (Nat.ltb_spec (length s) (Z.to_nat len)); [done|].
  intros [= <- _]. cbn. rewrite length_take. lia.
Qed.

Lemma reads_error_fields_fuel fuel fs :
  Forall wf_field fs → (length fs < fuel)%nat →
  reads (read_error_fields_fuel fuel) (put_fields fs) fs.
Proof.
  intros Hfs. revert fuel. induction Hfs as [|[c v] fs [Hc Hv] _ IH];
    intros fuel Hf; (destruct fuel as [|fuel]; [cbn in Hf; lia|]); [exact (λ rest, eq_refl)|].
  replace (put_fields ((c, v) :: fs)) with ([c] ++ put_cstr v ++ put_fields fs)
    by (unfold put_fields, put_field; cbn [map concat fst snd app];
        rewrite <- !app_assoc; done).
  cbn [read_error_fields_fuel]. eapply reads_bind; [apply reads_u8|].
  cbn in Hc. rewrite byte_is_0, bool_decide_eq_false_2 by done.
  eapply reads_bind; [by apply reads_cstr|].
  eapply reads_bind_nil; [|exact (λ rest, eq_refl)].
  apply IH. cbn in Hf. lia.
Qed.

Lemma reads_error_fields fs : Forall wf_field fs → reads read_error_fields (put_fields fs) fs.
Proof.
  intros Hfs rest. apply reads_error_fields_fuel; [done|].
  unfold put_fields. rewrite !length_app. clear.
  induction fs as [|[c v] fs IH]; cbn [length map concat]; [lia|].
  unfold put_field at 1. cbn [fst snd app length]. rewrite length_app. cbn in *. lia.
Qed.

Lemma returns_error_fields : returns read_error_fields (Forall wf_field).
Proof.
  intros s fs s'. unfold read_error_fields. generalize (S (length s)) as fuel.
  intros fuel. revert s fs s'. induction fuel as [|fuel IH]; [done|].
  change (returns (read_error_fields_fuel (S fuel)) (Forall wf_field)).
  cbn [read_error_fields_fuel].
  eapply returns_bind; [apply returns_true|]. intros c _.
  rewrite byte_is_0. case_bool_decide; [apply returns_ret; constructor|].
  eapply returns_bind; [apply returns_cstr|]. intros v Hv.
  eapply returns_bind; [exact IH|]. intros fs Hfs.
  apply returns_ret. by constructor.
Qed.

Lemma reads_decode_body m tag body :
  reads (decode_body_reader tag) body m → decode_body tag body = Ok m.
Proof. intros H. unfold decode_body. specialize (H []). rewrite app_nil_r in H. by rewrite H. Qed.

Lemma decode_body_auth r : wf_auth r →
  decode_body "R"%byte (auth_body r) = Ok (Authentication r).
Proof.
  intros (c & b & -> & Hc & Hd)%decode_auth_body.
  unfold decode_body, decode_body_reader. cbn [tag_of byte_is u8_of].
  change (tag_of "R" 82) with true. cbv match.
  unfold mbind, se_bind. rewrite reads_i32 by done. unfold with_body. by rewrite Hd.
Qed.

(** Every well-formed body is decoded to the message it was made from. *)
Lemma decode_body_message m :
  wf_message m → decode_body (message_tag m) (message_body m) = Ok m.
Proof.
  destruct m; cbn [message_tag message_body wf_message]; intros Hwf;
    try (by apply decode_body_auth);
    try (unfold decode_body; by rewrite decode_body_other);
    try reflexivity; apply reads_decode_body.
  - destruct Hwf as [Hn Hv]. eapply reads_bind; [by apply reads_cstr|].
    eapply reads_bind_nil; [by apply reads_cstr | apply reads_ret].
  - destruct Hwf as [Hp Hk]. eapply reads_bind; [by apply reads_i32|].
    eapply reads_bind_nil; [by apply reads_i32 | apply reads_ret].
  - eapply reads_list; [apply reads_row_field | apply Hwf | apply Hwf].
  - eapply reads_list; [apply reads_column | apply Hwf | apply Hwf].
  - eapply reads_bind; [apply reads_u8|].
    eapply reads_list; [intros; by apply reads_i16 | apply Hwf | apply Hwf].
  - eapply reads_bind_nil; [by apply reads_cstr | apply reads_ret].
  - eapply reads_bind_nil; [by apply reads_error_fields | apply reads_ret].
  - eapply reads_bind_nil; [by apply reads_error_fields | apply reads_ret].
  - eapply reads_list; [intros; by apply reads_u32 | apply Hwf | apply Hwf].
Qed.

Lemma sasl_mechanisms_fuel_wf fuel rest ms :
  sasl_mechanisms_fuel fuel rest = Ok ms → Forall (λ s, s ≠ [] ∧ wf_cstr s) ms.
Proof.
  revert rest ms. induction fuel as [|fuel IH]; intros rest ms; [done|].
  cbn [sasl_mechanisms_fuel]. destruct rest as [|b rest]; [done|].
  rewrite byte_is_0. case_bool_decide as Hb; [intros [= <-]; constructor|].
  destruct (split_nul (b :: rest)) as [[l r]|] eqn:E; [|done].
  destruct (from_utf8 l) as [s|] eqn:Hu; [|done].
  intros (ms' & Hms' & [= <-])%result_bind_Ok. constructor; [|by eapply IH].
  apply from_utf8_Ok in Hu as [-> Hu]. pose proof (split_nul_Some _ _ _ E) as [Hl _].
  split; [|done]. cbn in E. rewrite byte_is_0, bool_decide_eq_false_2 in E by done.
  destruct (split_nul rest) as [[??]|]; [|done]. by injection E as <- _.
Qed.

Lemma decode_auth_wf c b r : in_sint 32 c → decode_auth c b = Ok r → wf_auth r.
Proof.
  intros Hc. unfold decode_auth.
  destruct (Z.eqb_spec c 0); [by intros [= <-]|].
  destruct (Z.eqb_spec c 3); [by intros [= <-]|].
  destruct (Z.eqb_spec c 5).
  { destruct (Nat.eqb_spec (length b) 4); [by intros [= <-] | done]. }
  destruct (Z.eqb_spec c 10).
  { intros (ms & Hms & ->)%result_fmap_Ok. by eapply sasl_mechanisms_fuel_wf. }
  destruct (Z.eqb_spec c 11); [by intros [= <-]|].
  destruct (Z.eqb_spec c 12); [by intros [= <-]|].
  intros [= <-]. split; [done|]. unfold known_auth. set_solver.
Qed.

Lemma returns_with_body {A} (f : bytes → result Error A) (P : A → Prop) :
  (∀ b a, f b = Ok a → P a) → returns (with_body f) P.
Proof. intros H s a s' [= Ha _]. by eapply H. Qed.

(** Whatever a body decodes to is well formed. *)
Lemma decode_body_wf tag body m : decode_body tag body = Ok m → wf_message m.
Proof.
  intros Hd. assert (returns (decode_body_reader tag) wf_message) as Hr; cycle 1.
  { unfold decode_body in Hd. destruct (decode_body_reader tag body) as [r s] eqn:E.
    cbn in Hd. subst. by eapply Hr. }
  clear. unfold decode_body_reader.
  repeat match goal with
  | |- context [tag_of tag ?z] => destruct (tag_of tag z) eqn:?
  end;
  try (apply returns_ret; exact I).
  - eapply returns_bind; [apply returns_i32|]. intros c Hc. apply returns_with_body.
    intros b m (r & Hr & ->)%result_fmap_Ok. cbn. by eapply decode_auth_wf.
  - do 2 (eapply returns_bind; [apply returns_cstr|]; intros ??). by apply returns_ret.
  - do 2 (eapply returns_bind; [apply returns_i32|]; intros ??). by apply returns_ret.
  - eapply returns_bind; [apply returns_true|]. intros ??. by apply returns_ret.
  - eapply returns_list; [apply returns_row_field|]. done.
  - eapply returns_list; [apply returns_column|]. done.
  - eapply returns_bind; [apply returns_true|]. intros ??.
    eapply returns_list; [apply returns_i16|]. done.
  - eapply returns_bind; [apply returns_cstr|]. intros ??. by apply returns_ret.
  - eapply returns_bind; [apply returns_error_fields|]. intros ??. by apply returns_ret.
  - eapply returns_bind; [apply returns_error_fields|]. intros ??. by apply returns_ret.
  - eapply returns_list; [apply returns_u32|]. done.
  - apply returns_with_body. intros b ? [= <-]. cbn. unfold known_tags.
    repeat (apply not_elem_of_cons; split;
      [intros ->; match goal with H : tag_of _ ?z = false |- _ => discriminate (H : tag_of _ z = false) end|]).
    apply not_elem_of_nil.
Qed.
End bodies.

(** ** Framing *)
Section framing.
Implicit Types (m : BackendMessage) (body rest src more : bytes).

Definition frame_length (src : bytes) : option nat :=
  match src with
  | _ :: l0 :: l1 :: l2 :: l3 :: _ => Some (Z.to_nat (from_be_u [l0; l1; l2; l3] + 1))
  | _ => None
  end.

Lemma frame_length_frame tag body rest :
  4 + Z.of_nat (length body) < 2 ^ 32 →
  decode (frame tag body ++ rest) = (Some <$> decode_body tag body, rest).
Proof.
  intros Hlen. unfold frame.
  pose proof (u32_round_trip (4 + Z.of_nat (length body))) as Hrt.
  pose proof (length_to_be_bytes 4 (4 + Z.of_nat (length body))) as Hl4.
  unfold put_u32. destruct (to_be_bytes 4 _) as [|l0 [|l1 [|l2 [|l3 [|??]]]]]; try discriminate.
  cbn [app]. cbn [decode]. rewrite Hrt by (split; lia).
  rewrite (proj2 (Z.ltb_ge _ _)) by lia.
  replace (Z.to_nat (4 + Z.of_nat (length body) - 4)) with (length body) by lia.
  rewrite length_app, (proj2 (Nat.ltb_ge _ _)) by lia.
  by rewrite take_app_length, drop_app_length.
Qed.

(** The decoder either asks for more without touching the buffer, rejects the length field
    without touching the buffer, or consumes exactly one whole frame. *)
Lemma decode_cases src :
  (decode src = (Ok None, src)
    ∧ ∀ n, frame_length src = Some n → (length src < n)%nat)
  ∨ (∃ e, decode src = (Err e, src) ∧ ∀ more, decode (src ++ more) = (Err e, src ++ more))
  ∨ (∃ n rest r, frame_length src = Some n ∧ (5 ≤ n ≤ length src)%nat ∧ rest = drop n src
      ∧ (r = decode_body (default x00 (head src)) (drop 5 (take n src)))
      ∧ ∀ more, decode (src ++ more) = (Some <$> r, rest ++ more)).
Proof.
  destruct src as [|t [|l0 [|l1 [|l2 [|l3 rest]]]]];
    try (left; split; [done | intros n; cbn; done]).
  cbn [decode frame_length head default].
  set (len := from_be_u [l0; l1; l2; l3]).
  assert (0 ≤ len) by apply (from_be_u_range [l0; l1; l2; l3]).
  destruct (Z.ltb_spec len 4).
  { right. left. eexists. split; [done|]. intros more. cbn [app decode]. fold len.
    by rewrite (proj2 (Z.ltb_lt _ _)) by lia. }
  destruct (Nat.ltb_spec (length rest) (Z.to_nat (len - 4))) as [Hs|Hs].
  { left. split; [done|]. intros n [= <-]. cbn [length]. lia. }
  right. right. exists (Z.to_nat (len + 1)), (drop (Z.to_nat (len - 4)) rest).
  eexists. split; [done|]. split; [cbn [length]; lia|].
  replace (Z.to_nat (len + 1)) with (5 + Z.to_nat (len - 4))%nat by lia.
  split; [done|]. split; [done|]. intros more. cbn [app decode]. fold len.
  rewrite (proj2 (Z.ltb_ge _ _)) by lia.
  rewrite length_app, (proj2 (Nat.ltb_ge _ _)) by lia.
  by rewrite take_app_le, drop_app_le by lia.
Qed.

Lemma decode_app src more r rest :
  decode src = (r, rest) → r ≠ Ok None →
  decode (src ++ more) = (r, rest ++ more).
Proof.
  intros Hd Hr. destruct (decode_cases src) as [[H _]|[(e & H & Hm)|(n & rest' & r' & _ & _ & -> & _ & Hm)]].
  - congruence.
  - rewrite Hd in H. injection H as -> ->. apply Hm.
  - pose proof (Hm []) as H0. rewrite !app_nil_r in H0. rewrite Hd in H0.
    injection H0 as -> ->. apply Hm.
Qed.

Lemma decode_shrinks src m rest : decode src = (Ok (Some m), rest) → (length rest < length src)%nat.
Proof.
  intros Hd. destruct (decode_cases src) as [[H _]|[(e & H & _)|(n & rest' & r' & _ & Hn & -> & _ & Hm)]];
    [congruence..|].
  specialize (Hm []). rewrite !app_nil_r, Hd in Hm. injection Hm as _ ->.
  rewrite length_drop. lia.
Qed.

Lemma decode_all_fuel_enough n1 n2 src :
  (length src < n1)%nat → (length src < n2)%nat →
  decode_all_fuel n1 src = decode_all_fuel n2 src.
Proof.
  revert n2 src. induction n1 as [|n1 IH]; intros n2 src H1 H2; [lia|].
  destruct n2 as [|n2]; [lia|]. cbn [decode_all_fuel].
  destruct (decode src) as [[[m|]|e] src'] eqn:Hd; [|done..].
  apply decode_shrinks in Hd. by rewrite (IH n2 src') by lia.
Qed.

Lemma decode_all_step src :
  decode_all src =
  match decode src with
  | (Ok None, src') => ([], None, src')
  | (Err e, src') => ([], Some e, src')
  | (Ok (Some m), src') => let '(ms, e, rest) := decode_all src' in (m :: ms, e, rest)
  end.
Proof.
  unfold decode_all. cbn [decode_all_fuel].
  destruct (decode src) as [[[m|]|e] src'] eqn:Hd; [|done..].
  apply decode_shrinks in Hd.
  by rewrite (decode_all_fuel_enough (length src) (S (length src')) src') by lia.
Qed.

Lemma decode_all_ind (P : bytes → Prop) :
  (∀ src, (∀ m rest, decode src = (Ok (Some m), rest) → P rest) → P src) → ∀ src, P src.
Proof.
  intros Hstep src. induction src as [src IH] using (induction_ltof1 _ (@length byte)).
  apply Hstep. intros m rest Hd%decode_shrinks. by apply IH.
Qed.
End framing.

(** The transport hands the decoder one chunk at a time; what is left of the buffer waits for
    the next chunk.  The connection stops at the first error. *)
Fixpoint decode_chunks (buf : bytes) (chunks : list bytes)
  : list BackendMessage * option Error * bytes :=
  match chunks with
  | [] => ([], None, buf)
  | c :: cs =>
    match decode_all (buf ++ c) with
    | (ms, Some e, rest) => (ms, Some e, rest)
    | (ms, None, rest) =>
      let '(ms', e, rest') := decode_chunks rest cs in (ms ++ ms', e, rest')
    end
  end.

Section streams.
Implicit Types (src more : bytes) (ms : list BackendMessage).

Lemma decode_all_app src more ms e rest :
  decode_all src = (ms, e, rest) →
  decode_all (src ++ more) =
  match e with
  | Some e => (ms, Some e, rest ++ more)
  | None => let '(ms', e', rest') := decode_all (rest ++ more) in (ms ++ ms', e', rest')
  end.
Proof.
  revert ms e rest. induction src as [src IH] using decode_all_ind. intros ms e rest.
  rewrite decode_all_step. destruct (decode src) as [[[m|]|e0] src'] eqn:Hd.
  - destruct (decode_all src') as [[ms1 e1] rest1] eqn:Hall. intros [= <- <- <-].
    rewrite (decode_all_step (src ++ more)). erewrite decode_app by done. cbv match.
    rewrite (IH m src' eq_refl _ _ _ Hall). destruct e1; [done|].
    by destruct (decode_all (rest1 ++ more)) as [[??]?].
  - intros [= <- <- <-].
    assert (src' = src) as ->.
    { destruct (decode_cases src) as [[H _]|[(e & H & _)|(n & rest' & r & _ & _ & _ & _ & Hm)]];
        [congruence..|]. specialize (Hm []). rewrite !app_nil_r, Hd in Hm. by destruct r. }
    by destruct (decode_all (src ++ more)) as [[??]?].
  - intros [= <- <- <-]. rewrite (decode_all_step (src ++ more)).
    by erewrite decode_app by done.
Qed.

Lemma decode_chunks_concat buf chunks :
  decode_all buf = ([], None, buf) →
  let '(ms, e, rest) := decode_chunks buf chunks in
  let '(ms', e', rest') := decode_all (buf ++ concat chunks) in
  ms = ms' ∧ e = e' ∧ (e = None → rest = rest').
Proof.
  revert buf. induction chunks as [|c cs IH]; intros buf Hbuf; cbn [decode_chunks concat].
  { rewrite app_nil_r, Hbuf. done. }
  rewrite app_assoc. destruct (decode_all (buf ++ c)) as [[ms e] rest] eqn:Hc.
  rewrite (decode_all_app _ _ _ _ _ Hc). destruct e as [e|]; [done|].
  assert (decode_all rest = ([], None, rest)) as Hrest.
  { pose proof (decode_all_app _ [] _ _ _ Hc) as H. rewrite !app_nil_r, Hc in H.
    destruct (decode_all rest) as [[ms' e'] rest'] eqn:E.
    injection H as Hms <- <-. by rewrite <- (app_inv_head ms [] ms') by by rewrite app_nil_r. }
  specialize (IH rest Hrest).
  destruct (decode_chunks rest cs) as [[??]?], (decode_all (rest ++ concat cs)) as [[??]?].
  by destruct IH as (-> & -> & Hr).
Qed.

Lemma decode_all_nil : decode_all [] = ([], None, []).
Proof. reflexivity. Qed.
End streams.

(** ** The codec's theorems *)

(** A message the format can carry. *)
Definition sendable (m : BackendMessage) : Prop :=
  wf_message m ∧ 4 + Z.of_nat (length (message_body m)) < 2 ^ 32.

#[export] Instance wf_cstr_dec s : Decision (wf_cstr s).
Proof. unfold wf_cstr. apply _. Defined.
#[export] Instance wf_count_dec {A} (l : list A) : Decision (wf_count l).
Proof. unfold wf_count. apply _. Defined.
#[export] Instance wf_field_dec f : Decision (wf_field f).
Proof. unfold wf_field. apply _. Defined.
#[export] Instance wf_row_field_dec f : Decision (wf_row_field f).
Proof. unfold wf_row_field. apply _. Defined.
#[export] Instance wf_column_dec c : Decision (wf_column c).
Proof. destruct c; cbn; apply _. Defined.
#[export] Instance wf_auth_dec r : Decision (wf_auth r).
Proof. destruct r; unfold wf_auth, known_auth; apply _. Defined.
#[export] Instance wf_message_dec m : Decision (wf_message m).
Proof.
  destruct m; unfold wf_message, known_tags; apply _.
Defined.
#[export] Instance sendable_dec m : Decision (sendable m).
Proof. unfold sendable. apply _. Defined.

(** A well-formed message, framed as the server frames it, is decoded to itself whatever
    follows it in the buffer, and exactly its frame is consumed. *)
Lemma decode_encode m rest :
  sendable m → decode (encode_message m ++ rest) = (Ok (Some m), rest).
Proof.
  intros [Hwf Hlen]. unfold encode_message. rewrite frame_length_frame by done.
  by rewrite decode_body_message.
Qed.

Lemma decode_all_encode ms :
  Forall sendable ms → decode_all (concat (map encode_message ms)) = (ms, None, []).
Proof.
  induction 1 as [|m ms Hm _ IH]; [done|].
  cbn [map concat]. rewrite decode_all_step, decode_encode by done. by rewrite IH.
Qed.

(** Every message the frame decoder returns, from any bytes, is well formed: integers are
    in the range of their width, strings are NUL-free valid UTF-8, counts fit in an [i16], and
    an unknown tag is never confused with a known one. *)
Theorem decode_wf src m rest : decode src = (Ok (Some m), rest) → wf_message m.
Proof.
  intros Hd. destruct (decode_cases src) as [[H _]|[(e & H & _)|(n & rest' & r & _ & _ & _ & Hr & Hm)]];
    [congruence..|].
  specialize (Hm []). rewrite !app_nil_r, Hd in Hm.
  destruct r as [m'|e]; [|done]. cbn in Hm. injection Hm as -> ->.
  by eapply decode_body_wf.
Qed.

(** C15: stream decoding does not depend on segmentation: feeding the decoder any chunks
    yields the same messages and the same error as feeding it their concatenation. *)
Theorem decode_chunks_segmentation chunks :
  let '(ms, e, rest) := decode_chunks [] chunks in
  let '(ms', e', rest') := decode_all (concat chunks) in
  ms = ms' ∧ e = e' ∧ (e = None → rest = rest').
Proof. apply (decode_chunks_concat []), decode_all_nil. Qed.

(** C14: the stream round trip: however the transport cuts the bytes of a sequence of
    well-formed messages, the decoder returns exactly that sequence, without error and with
    an empty buffer. *)
Theorem stream_round_trip ms chunks :
  Forall sendable ms → concat chunks = concat (map encode_message ms) →
  decode_chunks [] chunks = (ms, None, []).
Proof.
  intros Hms Hchunks. pose proof (decode_chunks_concat [] chunks decode_all_nil) as H.
  cbn [app] in H.
  rewrite Hchunks, decode_all_encode in H by done.
  destruct (decode_chunks [] chunks) as [[??]?].
  destruct H as (-> & -> & Hr). by rewrite Hr.
Qed.

Definition sample_messages : list BackendMessage :=
  [Authentication (SaslMechanisms ["SCRAM-SHA-256"]); ReadyForQuery "I"%byte;
   RowDescription [mk_row_field "id" 16385 1 23 4 (-1) 1]; DataRow [Some [x00; xff]; None];
   ErrorResponse [("C"%byte, "42601")]].

Lemma sample_sendable : Forall sendable sample_messages.
Proof. apply (bool_decide_unpack _). vm_compute. exact I. Qed.

Lemma decode_wf_witness :
  decode (encode_message (DataRow [Some [x41]; None]) ++ [x5a])
    = (Ok (Some (DataRow [Some [x41]; None])), [x5a])
  ∧ wf_message (DataRow [Some [x41]; None]).
Proof.
  split; [vm_compute; reflexivity|].
  apply (decode_wf (encode_message (DataRow [Some [x41]; None]) ++ [x5a]) _ [x5a]).
  vm_compute; reflexivity.
Defined.

Lemma stream_round_trip_witness :
  decode_chunks [] (map (λ b, [b]) (concat (map encode_message sample_messages)))
  = (sample_messages, None, []).
Proof.
  apply stream_round_trip; [apply sample_sendable | vm_compute; reflexivity].
Defined.
