(* ===== verification/Frontend.v ===== *)
(** * Frontend messages

    [crates/core/src/protocol/frontend.rs].  The message writers themselves belong to the
    [postgres-protocol] crate, so they are the operations of an interface, [FrontendApi]; the
    wrappers here choose the operation and translate its errors.  [FrontendFrames] states what
    that crate documents about framing: a successful call appends one message, with the given
    type byte and a length field that counts itself and the body.  [wire_api] is an
    implementation that satisfies it. *)
From S2P Require Import Prelude Bytes Text Error.

Local Open Scope Z_scope.
Local Open Scope str_scope.

Inductive IsNull := Yes | No.

(** [postgres_protocol::message::frontend::BindError] *)
Inductive BindError := Conversion (inner : str) | Serialization (io_err : str).

(** A writer appends to the buffer; an [io::Error] is its rendered message. *)
Abbreviation Writer E := (SE bytes E unit).

Class FrontendApi := {
  pg_startup_message : list (str * str) → Writer str;
  pg_query : str → Writer str;
  pg_password_message : bytes → Writer str;
  pg_sasl_initial_response : str → bytes → Writer str;
  pg_sasl_response : bytes → Writer str;
  pg_terminate : bytes → bytes;
  pg_parse : str → str → list Z → Writer str;
  pg_bind : str → str → list Z → list (option bytes) →
            (option bytes → SE bytes str IsNull) → list Z → Writer BindError;
  pg_describe : byte → str → Writer str;
  pg_close : byte → str → Writer str;
  pg_execute : str → Z → Writer str;
  pg_copy_data : bytes → Writer str;
  pg_copy_done : bytes → bytes;
  pg_copy_fail : str → Writer str;
  pg_sync : bytes → bytes;
}.

Section wrappers.
Context `{FrontendApi}.

Definition map_io_to_protocol (e : str) : Error :=
  Protocol ("frontend message encode failed: " ++ e).

Definition map_bind_error (e : BindError) : Error :=
  match e with
  | Conversion inner => Codec ("Bind: parameter conversion failed: " ++ inner)
  | Serialization io_err => Protocol ("Bind: serialization failed: " ++ io_err)
  end.

Definition map_writer {E} (f : E → Error) (w : Writer E) : Writer Error := λ buf,
  let '(r, buf') := w buf in (map_err f r, buf').

Definition startup (params : list (str * str)) : Writer Error :=
  map_writer map_io_to_protocol (pg_startup_message params).
Definition query (sql : str) : Writer Error := map_writer map_io_to_protocol (pg_query sql).
Definition password_message (password : str) : Writer Error :=
  map_writer map_io_to_protocol (pg_password_message password).
Definition sasl_initial_response (mechanism : str) (client_first : bytes) : Writer Error :=
  map_writer map_io_to_protocol (pg_sasl_initial_response mechanism client_first).
Definition sasl_response (payload : bytes) : Writer Error :=
  map_writer map_io_to_protocol (pg_sasl_response payload).
Definition terminate : bytes → bytes := pg_terminate.
Definition parse (stmt_name sql : str) (param_oids : list Z) : Writer Error :=
  map_writer map_io_to_protocol (pg_parse stmt_name sql param_oids).

(** The serializer closure of [bind] and [bind_text]. *)
Definition write_slot (slot : option bytes) : SE bytes str IsNull := λ out,
  match slot with
  | Some b => (Ok No, out ++ b)
  | None => (Ok Yes, out)
  end.

Definition bind (portal_name stmt_name : str) (param_formats : list Z)
    (params : list (option bytes)) (result_formats : list Z) : Writer Error :=
  map_writer map_bind_error
    (pg_bind portal_name stmt_name param_formats params write_slot result_formats).
Definition bind_text (portal_name stmt_name : str) (params : list (option bytes))
  : Writer Error :=
  map_writer map_bind_error (pg_bind portal_name stmt_name [] params write_slot []).

Definition describe_portal (name : str) : Writer Error :=
  map_writer map_io_to_protocol (pg_describe "P"%byte name).
Definition describe_statement (name : str) : Writer Error :=
  map_writer map_io_to_protocol (pg_describe "S"%byte name).
Definition close_statement (name : str) : Writer Error :=
  map_writer map_io_to_protocol (pg_close "S"%byte name).
Definition close_portal (name : str) : Writer Error :=
  map_writer map_io_to_protocol (pg_close "P"%byte name).
Definition execute (portal_name : str) (max_rows : Z) : Writer Error :=
  map_writer map_io_to_protocol (pg_execute portal_name max_rows).
Definition copy_data (payload : bytes) : Writer Error :=
  map_writer map_io_to_protocol (pg_copy_data payload).
Definition copy_done : bytes → bytes := pg_copy_done.
Definition copy_fail (message : str) : Writer Error :=
  map_writer map_io_to_protocol (pg_copy_fail message).
Definition sync : bytes → bytes := pg_sync.

Definition copy_binary_header (buf : bytes) : bytes :=
  buf ++ "PGCOPY" ++ [x0a; xff; x0d; x0a; x00] ++ to_be_bytes 4 0 ++ to_be_bytes 4 0.
Definition copy_binary_trailer (buf : bytes) : bytes := buf ++ to_be_bytes 2 (-1).

(** A writer that cannot fail, as a [Writer]. *)
Definition infallible (f : bytes → bytes) : Writer Error := λ buf, (Ok tt, f buf).
End wrappers.

(** ** Framing *)

(** One typed message: the type byte, the length, the body. *)
Definition message (tag : byte) (body : bytes) : bytes :=
  tag :: to_be_bytes 4 (4 + Z.of_nat (length body)) ++ body.

(** A writer that, when it succeeds, has appended one message with type byte [tag]. *)
Definition appends {E} (tag : byte) (w : Writer E) : Prop :=
  ∀ buf buf', w buf = (Ok tt, buf') → ∃ body, buf' = buf ++ message tag body.

Class FrontendFrames `{FrontendApi} : Prop := {
  query_frame sql : appends "Q"%byte (pg_query sql);
  parse_frame n s o : appends "P"%byte (pg_parse n s o);
  bind_frame p s pf ps f rf : appends "B"%byte (pg_bind p s pf ps f rf);
  describe_frame v n : appends "D"%byte (pg_describe v n);
  close_frame v n : appends "C"%byte (pg_close v n);
  execute_frame p n : appends "E"%byte (pg_execute p n);
  copy_data_frame d buf buf' :
    pg_copy_data d buf = (Ok tt, buf') → buf' = buf ++ message "d"%byte d;
  copy_done_frame buf : pg_copy_done buf = buf ++ message "c"%byte [];
  copy_fail_frame m : appends "f"%byte (pg_copy_fail m);
  sync_frame buf : pg_sync buf = buf ++ message "S"%byte [];
  terminate_frame buf : pg_terminate buf = buf ++ message "X"%byte [];
}.

(** ** An implementation of the interface *)
Section wire.
Definition check_nul (s : str) : result str bytes :=
  if bool_decide (x00 ∈ s) then Err "string contains embedded null" else Ok (s ++ [x00]).

Definition wire_message {E} (f : str → E) (tag : byte) (body : result E bytes) : Writer E := λ buf,
  match body with
  | Err e => (Err e, buf)
  | Ok body =>
    if 2 ^ 31 <=? 4 + Z.of_nat (length body)
    then (Err (f "value too large to transmit"), buf)
    else (Ok tt, buf ++ message tag body)
  end.
Definition wire_text (tag : byte) (body : result str bytes) : Writer str := wire_message id tag body.

Definition wire_formats (l : list Z) : bytes :=
  to_be_bytes 2 (Z.of_nat (length l)) ++ concat (map (to_be_bytes 2) l).

Definition wire_param (f : option bytes → SE bytes str IsNull) (p : option bytes)
  : result BindError bytes :=
  match f p [] with
  | (Ok Yes, _) => Ok (to_be_bytes 4 (-1))
  | (Ok No, b) => Ok (to_be_bytes 4 (Z.of_nat (length b)) ++ b)
  | (Err e, _) => Err (Conversion e)
  end.

#[export] Instance wire_api : FrontendApi := {
  pg_startup_message params buf :=
    match map_result (λ p, a ← check_nul (fst p); b ← check_nul (snd p); Ok (a ++ b)) params with
    | Err e => (Err e, buf)
    | Ok ps =>
      let body := to_be_bytes 4 196608 ++ concat ps ++ [x00] in
      (Ok tt, buf ++ to_be_bytes 4 (4 + Z.of_nat (length body)) ++ body)
    end;
  pg_query sql := wire_text "Q"%byte (check_nul sql);
  pg_password_message p := wire_text "p"%byte (check_nul p);
  pg_sasl_initial_response m d := wire_text "p"%byte
    (m ← check_nul m; Ok (m ++ to_be_bytes 4 (Z.of_nat (length d)) ++ d));
  pg_sasl_response d := wire_text "p"%byte (Ok d);
  pg_terminate buf := buf ++ message "X"%byte [];
  pg_parse n s o := wire_text "P"%byte
    (n ← check_nul n; s ← check_nul s;
     Ok (n ++ s ++ to_be_bytes 2 (Z.of_nat (length o)) ++ concat (map (to_be_bytes 4) o)));
  pg_bind p s pf ps f rf := wire_message Serialization "B"%byte
    (p ← map_err Serialization (check_nul p); s ← map_err Serialization (check_nul s);
     ps' ← map_result (wire_param f) ps;
     Ok (p ++ s ++ wire_formats pf ++ to_be_bytes 2 (Z.of_nat (length ps))
         ++ concat ps' ++ wire_formats rf));
  pg_describe v n := wire_text "D"%byte (n ← check_nul n; Ok (v :: n));
  pg_close v n := wire_text "C"%byte (n ← check_nul n; Ok (v :: n));
  pg_execute p n := wire_text "E"%byte (p ← check_nul p; Ok (p ++ to_be_bytes 4 n));
  pg_copy_data d := wire_text "d"%byte (Ok d);
  pg_copy_done buf := buf ++ message "c"%byte [];
  pg_copy_fail m := wire_text "f"%byte (check_nul m);
  pg_sync buf := buf ++ message "S"%byte [];
}.

Lemma wire_message_appends {E} (f : str → E) tag body : appends tag (wire_message f tag body).
Proof.
  intros buf buf'. unfold wire_message. destruct body as [body|]; [|done].
  case_match; [done|]. intros [= <-]. eauto.
Qed.

#[export] Instance wire_frames : FrontendFrames.
Proof.
  split; intros; try apply wire_message_appends; try reflexivity.
  revert H. unfold pg_copy_data, wire_api, wire_text, wire_message. case_match; [done|].
  by intros [= <-].
Qed.
End wire.

(** ** The wrappers keep the framing *)
Section wrapper_frames.
Context `{FrontendFrames}.

Lemma map_writer_appends {E} (f : E → Error) tag w : appends tag w → appends tag (map_writer f w).
Proof.
  intros Hw buf buf'. unfold map_writer. destruct (w buf) as [[[]|e] b] eqn:E0; [|done].
  intros [= <-]. by apply Hw.
Qed.

Lemma query_appends sql : appends "Q"%byte (query sql).
Proof. apply map_writer_appends, query_frame. Qed.
Lemma parse_appends n s o : appends "P"%byte (parse n s o).
Proof. apply map_writer_appends, parse_frame. Qed.
Lemma bind_appends p s pf ps rf : appends "B"%byte (bind p s pf ps rf).
Proof. apply map_writer_appends, bind_frame. Qed.
Lemma describe_portal_appends n : appends "D"%byte (describe_portal n).
Proof. apply map_writer_appends, describe_frame. Qed.
Lemma describe_statement_appends n : appends "D"%byte (describe_statement n).
Proof. apply map_writer_appends, describe_frame. Qed.
Lemma close_statement_appends n : appends "C"%byte (close_statement n).
Proof. apply map_writer_appends, close_frame. Qed.
Lemma close_portal_appends n : appends "C"%byte (close_portal n).
Proof. apply map_writer_appends, close_frame. Qed.
Lemma execute_appends p n : appends "E"%byte (execute p n).
Proof. apply map_writer_appends, execute_frame. Qed.
Lemma copy_fail_appends m : appends "f"%byte (copy_fail m).
Proof. apply map_writer_appends, copy_fail_frame. Qed.
Lemma copy_data_appends d buf buf' :
  copy_data d buf = (Ok tt, buf') → buf' = buf ++ message "d"%byte d.
Proof.
  unfold copy_data, map_writer. destruct (pg_copy_data d buf) as [[[]|e] b] eqn:E0; [|done].
  intros [= <-]. by apply copy_data_frame.
Qed.
Lemma sync_appends : appends "S"%byte (infallible sync).
Proof. intros buf buf' [= <-]. exists []. apply sync_frame. Qed.

(** [Writer]s in sequence append their messages in sequence. *)
Definition appends_all (tags : list byte) (w : Writer Error) : Prop :=
  ∀ buf buf', w buf = (Ok tt, buf') →
    ∃ bodies, length bodies = length tags ∧ buf' = buf ++ concat (zip_with message tags bodies).

Lemma appends_all_one tag w : appends tag w → appends_all [tag] w.
Proof.
  intros Hw buf buf' (body & ->)%Hw. exists [body]. split; [done|]. cbn. by rewrite app_nil_r.
Qed.

Lemma appends_all_seq tag tags w k :
  appends tag w → appends_all tags k → appends_all (tag :: tags) (w ≫= λ _, k).
Proof.
  intros Hw Hk buf buf' ([] & b1 & (body & ->)%Hw & Hb)%se_bind_inv.
  apply Hk in Hb as (bodies & Hlen & ->).
  exists (body :: bodies). split; [cbn; by rewrite Hlen|]. cbn. by rewrite <- app_assoc.
Qed.
End wrapper_frames.

#[export] Hint Resolve query_appends parse_appends bind_appends describe_portal_appends
  describe_statement_appends close_statement_appends close_portal_appends execute_appends
  sync_appends : babar.
