(* ===== verification/Driver.v ===== *)
(** * The driver task

    [crates/core/src/session/driver.rs]: the task that owns the socket.  It accepts one command
    at a time, writes its messages, and interprets the server's messages against the command in
    flight until [ReadyForQuery], when it answers the command on its reply channel.

    A reply channel is a [Chan]; what is sent on it is recorded in [replies].  The transport
    (tokio's write half) is the interface [Transport]. *)
From S2P Require Import Prelude Bytes Text Error Backend.
From S2P Require Frontend.
From S2P Require Import Frontend.

Local Open Scope Z_scope.
Local Open Scope str_scope.

(** ** Data *)

(** The write half of the socket. *)
Class Transport := {
  Socket : Type;
  write_all : bytes → SE Socket str unit;
  shutdown_write : SE Socket str unit;
}.

(** The sender half of a oneshot channel: the one a caller waits on, or one whose receiver is
    already gone ([oneshot::channel().0]). *)
Inductive Chan := Caller (id : nat) | Orphan.

#[export] Instance Chan_eq_dec : EqDecision Chan.
Proof. solve_decision. Defined.

Abbreviation RawRows := (list (list (option bytes))).

Record ExtendedOutcome := mk_extended { rows : RawRows; command_tag : option str }.
Record PrepareOutcome := mk_prepare { param_oids : list Z; row_fields : list RowField }.
Record PortalBatch := mk_batch { batch_rows : RawRows; has_more : bool }.
Record CopyInOutcome := mk_copy_in { copy_tag : str }.

Inductive Command :=
  | CSimpleQuery (sql : str) (reply : Chan)
  | CExtendedQuery (sql : str) (params : list (option bytes)) (param_formats result_formats : list Z)
      (expected_columns : option Z) (reply : Chan)
  | CCopyIn (sql : str) (data : list bytes) (reply : Chan)
  | CPrepare (name sql : str) (oids : list Z) (reply : Chan)
  | CExecutePrepared (stmt_name : str) (params : list (option bytes))
      (param_formats result_formats : list Z) (expected_columns : option Z) (reply : Chan)
  | CBindPortal (portal_name stmt_name : str) (params : list (option bytes))
      (param_formats result_formats : list Z) (reply : Chan)
  | CExecutePortal (portal_name : str) (max_rows : Z) (reply : Chan)
  | CClosePortal (name : str) (reply : Chan)
  | CCloseStatement (name : str) (reply : Chan)
  | CClose (reply : Chan).

Inductive Pending :=
  | SimpleQuery (reply : Chan) (results : list RawRows) (current_rows : RawRows)
      (current_fields : option (list RowField)) (error : option Error)
  | Extended (reply : Chan) (expected_columns : option Z) (rows : RawRows)
      (command_tag : option str) (error : option Error)
  | CopyIn (reply : Chan) (data : list bytes) (command_tag : option str) (error : option Error)
  | Prepare (reply : Chan) (param_oids : option (list Z)) (row_fields : option (list RowField))
      (error : option Error)
  | ExecutePrepared (reply : Chan) (expected_columns : option Z) (rows : RawRows)
      (command_tag : option str) (error : option Error)
  | BindPortal (reply : Chan) (error : option Error)
  | ExecutePortal (reply : Chan) (rows : RawRows) (has_more : bool) (error : option Error)
  | ClosePortal (reply : Chan) (error : option Error)
  | CloseStatement (reply : Chan) (error : option Error)
  | Close (reply : Chan).

(** What is sent on a reply channel; the channel's type fixes the constructor. *)
Inductive Reply :=
  | RSimple (r : result Error (list RawRows))
  | RExtended (r : result Error ExtendedOutcome)
  | RCopyIn (r : result Error CopyInOutcome)
  | RPrepare (r : result Error PrepareOutcome)
  | RUnit (r : result Error unit)
  | RBatch (r : result Error PortalBatch).

(** The reply channel's type, from the command that carries it. *)
Inductive ReplyKind := KSimple | KExtended | KCopyIn | KPrepare | KUnit | KBatch.

#[export] Instance ReplyKind_eq_dec : EqDecision ReplyKind.
Proof. solve_decision. Defined.

Definition err_reply (k : ReplyKind) (e : Error) : Reply :=
  match k with
  | KSimple => RSimple (Err e) | KExtended => RExtended (Err e) | KCopyIn => RCopyIn (Err e)
  | KPrepare => RPrepare (Err e) | KUnit => RUnit (Err e) | KBatch => RBatch (Err e)
  end.

Definition command_chan (c : Command) : Chan :=
  match c with
  | CSimpleQuery _ r | CExtendedQuery _ _ _ _ _ r | CCopyIn _ _ r | CPrepare _ _ _ r
  | CExecutePrepared _ _ _ _ _ r | CBindPortal _ _ _ _ _ r | CExecutePortal _ _ r
  | CClosePortal _ r | CCloseStatement _ r | CClose r => r
  end.
Definition command_kind (c : Command) : ReplyKind :=
  match c with
  | CSimpleQuery _ _ => KSimple
  | CExtendedQuery _ _ _ _ _ _ | CExecutePrepared _ _ _ _ _ _ => KExtended
  | CCopyIn _ _ _ => KCopyIn
  | CPrepare _ _ _ _ => KPrepare
  | CExecutePortal _ _ _ => KBatch
  | CBindPortal _ _ _ _ _ _ | CClosePortal _ _ | CCloseStatement _ _ | CClose _ => KUnit
  end.
Definition pending_chan (p : Pending) : Chan :=
  match p with
  | SimpleQuery r _ _ _ _ | Extended r _ _ _ _ | CopyIn r _ _ _ | Prepare r _ _ _
  | ExecutePrepared r _ _ _ _ | BindPortal r _ | ExecutePortal r _ _ _ | ClosePortal r _
  | CloseStatement r _ | Close r => r
  end.
Definition pending_reply_kind (p : Pending) : ReplyKind :=
  match p with
  | SimpleQuery _ _ _ _ _ => KSimple
  | Extended _ _ _ _ _ | ExecutePrepared _ _ _ _ _ => KExtended
  | CopyIn _ _ _ _ => KCopyIn
  | Prepare _ _ _ _ => KPrepare
  | ExecutePortal _ _ _ _ => KBatch
  | BindPortal _ _ | ClosePortal _ _ | CloseStatement _ _ | Close _ => KUnit
  end.

Section driver.
Context `{FrontendApi} `{Transport}.

Record Driver := mk_driver {
  sock : Socket;
  inbox : list Command;
  inbox_closed : bool;
  pending : option Pending;
  write_buf : bytes;
  transaction_status : byte;
  replies : list (nat * Reply);
}.

Abbreviation M := (SE Driver Error).

(** [Driver::new] *)
Definition Driver_new (s : Socket) (initial_transaction_status : byte) : Driver :=
  mk_driver s [] false None [] initial_transaction_status [].

Definition with_sock (d : Driver) s :=
  mk_driver s (inbox d) (inbox_closed d) (pending d) (write_buf d) (transaction_status d) (replies d).
Definition with_pending (d : Driver) p :=
  mk_driver (sock d) (inbox d) (inbox_closed d) p (write_buf d) (transaction_status d) (replies d).
Definition with_buf (d : Driver) b :=
  mk_driver (sock d) (inbox d) (inbox_closed d) (pending d) b (transaction_status d) (replies d).
Definition with_status (d : Driver) s :=
  mk_driver (sock d) (inbox d) (inbox_closed d) (pending d) (write_buf d) s (replies d).
Definition with_inbox (d : Driver) i c :=
  mk_driver (sock d) i c (pending d) (write_buf d) (transaction_status d) (replies d).
Definition with_replies (d : Driver) l :=
  mk_driver (sock d) (inbox d) (inbox_closed d) (pending d) (write_buf d) (transaction_status d) l.

(** [let _ = reply.send(r)]: a reply whose receiver is gone is discarded. *)
Definition send (c : Chan) (r : Reply) (d : Driver) : Driver :=
  match c with
  | Caller id => with_replies d (replies d ++ [(id, r)])
  | Orphan => d
  end.

Definition set_pending (p : option Pending) : M unit := λ d, (Ok tt, with_pending d p).

(** [self.write_buf.clear()] *)
Definition clear_buf : M unit := λ d, (Ok tt, with_buf d []).

(** Run a message writer on [self.write_buf]. *)
Definition on_buf (w : Writer Error) : M unit := λ d,
  let '(r, b) := w (write_buf d) in (r, with_buf d b).

(** ** Writing *)

(** [flush] *)
Definition flush : M unit := λ d,
  match write_all (write_buf d) (sock d) with
  | (Ok _, s) => (Ok tt, with_buf (with_sock d s) [])
  | (Err e, s) => (Err (Io e), with_sock d s)
  end.

(** [write_copy_fail] *)
Definition write_copy_fail (message : str) : M unit :=
  clear_buf;; on_buf (copy_fail message);; flush.

(** [write_copy_stream]: [Ok (Some e)] when a chunk could not be encoded. *)
Fixpoint write_copy_chunks (data : list bytes) : M (option Error) :=
  match data with
  | [] =>
    on_buf (infallible copy_done);; flush;; mret None
  | chunk :: data => λ d,
    match on_buf (copy_data chunk) d with
    | (Ok _, d') => write_copy_chunks data d'
    | (Err err, d') =>
      (write_copy_fail "babar failed to encode COPY data";; mret (Some err)) d'
    end
  end.
Definition write_copy_stream (data : list bytes) : M (option Error) :=
  clear_buf;; write_copy_chunks data.

(** [shutdown]: both results are ignored. *)
Definition shutdown (d : Driver) : Driver :=
  let d := with_buf d (terminate []) in
  let '(_, s1) := write_all (write_buf d) (sock d) in
  let '(_, s2) := shutdown_write s1 in
  with_sock d s2.

(** ** Failing *)

(** [fail_command] *)
Definition fail_command (d : Driver) (c : Command) (e : Error) : Driver :=
  send (command_chan c) (err_reply (command_kind c) e) d.

(** Close the inbox and fail what is queued in it. *)
Definition drain_inbox (d : Driver) : Driver :=
  fold_left (λ d c, fail_command d c closed) (inbox d) (with_inbox d [] true).

(** [fail_pending] *)
Definition fail_pending (e : Error) (d : Driver) : Driver :=
  let d' := with_pending d None in
  let d' := match pending d with
            | Some p => send (pending_chan p) (err_reply (pending_reply_kind p) e) d'
            | None => d'
            end in
  drain_inbox d'.

(** ** Accepting a command: [start]

    Every command but [Close] is started the same way: build the messages into a cleared
    buffer, answer at once if that fails, flush, answer if that fails, and otherwise wait for
    the server with the command's [Pending] state. *)
Definition start_with (c : Command) (build : Writer Error) (p : Pending) : M unit := λ d,
  match on_buf build (with_buf d []) with
  | (Err e, d) => (Ok tt, send (command_chan c) (err_reply (command_kind c) e) d)
  | (Ok _, d) =>
    match flush d with
    | (Err e, d) =>
      (Err e, send (command_chan c) (err_reply (command_kind c) (clone_for_caller e)) d)
    | (Ok _, d) => set_pending (Some p) d
    end
  end.

Definition build_extended_query (sql : str) (params : list (option bytes))
    (param_formats result_formats : list Z) : Writer Error :=
  parse "" sql [];;
  bind "" "" param_formats params result_formats;;
  describe_portal "";;
  execute "" 0;;
  infallible sync.

Definition build_prepare (name sql : str) (oids : list Z) : Writer Error :=
  parse name sql oids;;
  describe_statement name;;
  infallible sync.

Definition build_execute_prepared (stmt_name : str) (params : list (option bytes))
    (param_formats result_formats : list Z) : Writer Error :=
  bind "" stmt_name param_formats params result_formats;;
  execute "" 0;;
  infallible sync.

Definition build_bind_portal (portal_name stmt_name : str) (params : list (option bytes))
    (param_formats result_formats : list Z) : Writer Error :=
  bind portal_name stmt_name param_formats params result_formats;;
  infallible sync.

Definition build_execute_portal (portal_name : str) (max_rows : Z) : Writer Error :=
  execute portal_name max_rows;;
  infallible sync.

Definition build_close_portal (name : str) : Writer Error :=
  close_portal name;;
  infallible sync.

Definition build_close_statement (name : str) : Writer Error :=
  close_statement name;;
  infallible sync.

(** The [Close] command: terminate, shut the socket down, answer, fail everything queued,
    and leave a sentinel in [pending]. *)
Definition start_close (reply : Chan) : M unit := λ d,
  let d := with_buf d (terminate []) in
  let '(flush_res, d) := flush d in
  let '(shut_res, s) := shutdown_write (sock d) in
  let d := with_sock d s in
  let result := match flush_res with
                | Ok _ => map_err Io shut_res
                | Err e => Err e
                end in
  let d := send reply (RUnit result) d in
  let d := drain_inbox d in
  (Err closed, with_pending d (Some (Close Orphan))).

(** The messages a command writes and the state it waits in. *)
Definition command_plan (c : Command) : option (Writer Error * Pending) :=
  match c with
  | CSimpleQuery sql reply => Some (query sql, SimpleQuery reply [] [] None None)
  | CExtendedQuery sql params pf rf expected reply =>
      Some (build_extended_query sql params pf rf, Extended reply expected [] None None)
  | CCopyIn sql data reply => Some (query sql, CopyIn reply data None None)
  | CPrepare name sql oids reply => Some (build_prepare name sql oids, Prepare reply None None None)
  | CExecutePrepared stmt params pf rf expected reply =>
      Some (build_execute_prepared stmt params pf rf, ExecutePrepared reply expected [] None None)
  | CBindPortal portal stmt params pf rf reply =>
      Some (build_bind_portal portal stmt params pf rf, BindPortal reply None)
  | CExecutePortal portal max_rows reply =>
      Some (build_execute_portal portal max_rows, ExecutePortal reply [] false None)
  | CClosePortal name reply => Some (build_close_portal name, ClosePortal reply None)
  | CCloseStatement name reply => Some (build_close_statement name, CloseStatement reply None)
  | CClose _ => None
  end.

Definition start (c : Command) : M unit :=
  match command_plan c with
  | Some (build, p) => start_with c build p
  | None => start_close (command_chan c)
  end.

(** ** Interpreting a message against the command in flight

    [Keep] stores the updated state, [Answer] takes the pending state and sends the reply,
    [Ignore] changes nothing (asynchronous notices, and messages the driver only logs). *)
Inductive Disposition := Keep (p : Pending) | Answer (r : Reply) | Ignore.

(** [error.map_or_else(|| Ok(v), Err)] *)
Definition settle {A} (error : option Error) (v : A) : result Error A :=
  match error with Some e => Err e | None => Ok v end.

(** [*error = error.take().or(Some(e))]: the first error is kept. *)
Definition first_error (error : option Error) (e : Error) : option Error :=
  or_else error (Some e).

Definition message_simple_query reply results current_rows current_fields error
    (msg : BackendMessage) : Disposition :=
  match msg with
  | RowDescription fields => Keep (SimpleQuery reply results current_rows (Some fields) error)
  | DataRow columns =>
      Keep (SimpleQuery reply results (current_rows ++ [columns]) current_fields error)
  | CommandComplete _ => Keep (SimpleQuery reply (results ++ [current_rows]) [] None error)
  | EmptyQueryResponse =>
      Keep (SimpleQuery reply (results ++ [[]]) current_rows current_fields error)
  | ErrorResponse fields =>
      Keep (SimpleQuery reply results current_rows current_fields (Some (from_server_fields fields)))
  | ReadyForQuery _ => Answer (RSimple (settle error results))
  | _ => Ignore
  end.

(** The column check both query paths make when the server describes the result. *)
Definition check_columns (expected_columns : option Z) (actual : Z) (error : option Error)
  : option Error :=
  match expected_columns with
  | Some expected =>
    if actual =? expected then error
    else first_error error (ColumnAlignment expected actual None None)
  | None => error
  end.

Definition message_extended reply expected_columns rows command_tag error
    (msg : BackendMessage) : Disposition :=
  match msg with
  | ParseComplete | BindComplete => Keep (Extended reply expected_columns rows command_tag error)
  | RowDescription fields =>
      Keep (Extended reply expected_columns rows command_tag
              (check_columns expected_columns (Z.of_nat (length fields)) error))
  | NoData =>
      Keep (Extended reply expected_columns rows command_tag
              (check_columns expected_columns 0 error))
  | DataRow columns => Keep (Extended reply expected_columns (rows ++ [columns]) command_tag error)
  | CommandComplete tag => Keep (Extended reply expected_columns rows (Some tag) error)
  | EmptyQueryResponse => Keep (Extended reply expected_columns rows command_tag error)
  | ErrorResponse fields =>
      Keep (Extended reply expected_columns rows command_tag
              (first_error error (from_server_fields fields)))
  | ReadyForQuery _ => Answer (RExtended (settle error (mk_extended rows command_tag)))
  | _ => Ignore
  end.

Definition message_copy_in reply data command_tag error (msg : BackendMessage) : Disposition :=
  match msg with
  | CommandComplete tag => Keep (CopyIn reply data (Some tag) error)
  | ErrorResponse fields =>
      Keep (CopyIn reply data command_tag (first_error error (from_server_fields fields)))
  | ReadyForQuery _ =>
      Answer (RCopyIn (match error, command_tag with
                       | Some err, _ => Err err
                       | None, Some tag => Ok (mk_copy_in tag)
                       | None, None =>
                           Err (protocol "COPY FROM STDIN completed without CommandComplete")
                       end))
  | _ => Ignore
  end.

Definition message_prepare reply param_oids row_fields error (msg : BackendMessage) : Disposition :=
  match msg with
  | ParseComplete => Keep (Prepare reply param_oids row_fields error)
  | ParameterDescription type_oids => Keep (Prepare reply (Some type_oids) row_fields error)
  | RowDescription fields => Keep (Prepare reply param_oids (Some fields) error)
  | NoData => Keep (Prepare reply param_oids (Some []) error)
  | ErrorResponse fields =>
      Keep (Prepare reply param_oids row_fields (first_error error (from_server_fields fields)))
  | ReadyForQuery _ =>
      Answer (RPrepare (settle error (mk_prepare (default [] param_oids) (default [] row_fields))))
  | _ => Ignore
  end.

Definition message_execute_prepared reply expected_columns rows command_tag error
    (msg : BackendMessage) : Disposition :=
  match msg with
  | BindComplete => Keep (ExecutePrepared reply expected_columns rows command_tag error)
  | DataRow columns =>
      Keep (ExecutePrepared reply expected_columns (rows ++ [columns]) command_tag error)
  | RowDescription fields =>
      Keep (ExecutePrepared reply expected_columns rows command_tag
              (check_columns expected_columns (Z.of_nat (length fields)) error))
  | NoData =>
      Keep (ExecutePrepared reply expected_columns rows command_tag
              (check_columns expected_columns 0 error))
  | CommandComplete tag => Keep (ExecutePrepared reply expected_columns rows (Some tag) error)
  | EmptyQueryResponse => Keep (ExecutePrepared reply expected_columns rows command_tag error)
  | ErrorResponse fields =>
      Keep (ExecutePrepared reply expected_columns rows command_tag
              (first_error error (from_server_fields fields)))
  | ReadyForQuery _ => Answer (RExtended (settle error (mk_extended rows command_tag)))
  | _ => Ignore
  end.

Definition message_bind_portal reply error (msg : BackendMessage) : Disposition :=
  match msg with
  | BindComplete => Keep (BindPortal reply error)
  | ErrorResponse fields => Keep (BindPortal reply (first_error error (from_server_fields fields)))
  | ReadyForQuery _ => Answer (RUnit (settle error tt))
  | _ => Ignore
  end.

Definition message_execute_portal reply rows has_more error (msg : BackendMessage) : Disposition :=
  match msg with
  | DataRow columns => Keep (ExecutePortal reply (rows ++ [columns]) has_more error)
  | CommandComplete _ => Keep (ExecutePortal reply rows has_more error)
  | PortalSuspended => Keep (ExecutePortal reply rows true error)
  | ErrorResponse fields =>
      Keep (ExecutePortal reply rows has_more (first_error error (from_server_fields fields)))
  | ReadyForQuery _ => Answer (RBatch (settle error (mk_batch rows has_more)))
  | _ => Ignore
  end.

Definition message_close_portal reply error (msg : BackendMessage) : Disposition :=
  match msg with
  | CloseComplete => Keep (ClosePortal reply error)
  | ErrorResponse fields => Keep (ClosePortal reply (first_error error (from_server_fields fields)))
  | ReadyForQuery _ => Answer (RUnit (settle error tt))
  | _ => Ignore
  end.

Definition message_close_statement reply error (msg : BackendMessage) : Disposition :=
  match msg with
  | CloseComplete => Keep (CloseStatement reply error)
  | ErrorResponse fields =>
      Keep (CloseStatement reply (first_error error (from_server_fields fields)))
  | ReadyForQuery _ => Answer (RUnit (settle error tt))
  | _ => Ignore
  end.

Definition dispatch (p : Pending) (msg : BackendMessage) : Disposition :=
  match p with
  | SimpleQuery r res rows fs e => message_simple_query r res rows fs e msg
  | Extended r x rows t e => message_extended r x rows t e msg
  | CopyIn r data t e => message_copy_in r data t e msg
  | Prepare r os fs e => message_prepare r os fs e msg
  | ExecutePrepared r x rows t e => message_execute_prepared r x rows t e msg
  | BindPortal r e => message_bind_portal r e msg
  | ExecutePortal r rows m e => message_execute_portal r rows m e msg
  | ClosePortal r e => message_close_portal r e msg
  | CloseStatement r e => message_close_statement r e msg
  | Close _ => Ignore
  end.

(** [CopyInResponse] while a COPY is in flight: the local reaction, before the dispatch. *)
Definition on_copy_in_response (overall_format : byte) (column_formats : list Z)
    (reply : Chan) (data : list bytes) (tag : option str) (error : option Error) : M unit :=
  if negb (byte_is overall_format 1) || existsb (λ f, negb (f =? 1)) column_formats then
    set_pending (Some (CopyIn reply data tag (first_error error
      (protocol ("COPY FROM STDIN requires binary format, got overall_format="
                 ++ dec (u8_of overall_format) ++ " column_formats="
                 ++ debug_ints column_formats)))));;
    write_copy_fail "babar only supports binary COPY FROM STDIN"
  else
    set_pending (Some (CopyIn reply [] tag error));;
    local_error ← write_copy_stream data;
    match local_error with
    | Some e => set_pending (Some (CopyIn reply [] tag (first_error error e)))
    | None => mret tt
    end.

Definition on_message_dispatch (msg : BackendMessage) : M unit := λ d,
  match pending d with
  | None => (Ok tt, d)
  | Some p =>
    match dispatch p msg with
    | Keep p' => (Ok tt, with_pending d (Some p'))
    | Answer r => (Ok tt, send (pending_chan p) r (with_pending d None))
    | Ignore => (Ok tt, d)
    end
  end.

(** [self.state.set_transaction_status] *)
Definition note_status (msg : BackendMessage) (d : Driver) : Driver :=
  match msg with
  | ReadyForQuery s => with_status d s
  | _ => d
  end.

Definition on_message (msg : BackendMessage) : M unit := λ d,
  let d := note_status msg d in
  match msg, pending d with
  | CopyInResponse overall_format column_formats, Some (CopyIn reply data tag error) =>
      on_copy_in_response overall_format column_formats reply data tag error d
  | _, _ => on_message_dispatch msg d
  end.
(** ** The run loop: [run]

    The loop waits for a message from the server, or for a command when none is in flight;
    which of two ready branches it takes is the scheduler's choice, so the loop is a step
    function on the events that can happen next, undefined ([None]) on an event the state does
    not allow. *)
Inductive Event :=
  | Submit (c : Command)       (* a session sends a command on the channel *)
  | Server (m : BackendMessage) (* [reader.next()] yields a message *)
  | ReadError (e : Error)      (* [reader.next()] yields an error *)
  | Eof                        (* [reader.next()] yields [None] *)
  | Recv                       (* [inbox.recv()] yields a command *)
  | SessionDropped.            (* [inbox.recv()] yields [None]: every sender is gone *)

(** [COMMAND_BUFFER_SIZE] ([session/mod.rs]) *)
Definition COMMAND_BUFFER_SIZE : nat := 128.

Record Loop := mk_loop { driver : Driver; stopped : bool }.

Definition loop_step (l : Loop) (ev : Event) : option Loop :=
  let d := driver l in
  if stopped l then None else
  match ev with
  | Submit c =>
    if inbox_closed d || (COMMAND_BUFFER_SIZE <=? length (inbox d))%nat then None
    else Some (mk_loop (with_inbox d (inbox d ++ [c]) (inbox_closed d)) false)
  | Server m =>
    match on_message m d with
    | (Ok _, d') => Some (mk_loop d' false)
    | (Err e, d') => Some (mk_loop (fail_pending e d') true)
    end
  | ReadError e => Some (mk_loop (fail_pending e d) true)
  | Eof => Some (mk_loop (fail_pending closed d) true)
  | Recv =>
    match pending d, inbox d with
    | None, c :: rest => Some (mk_loop (start c (with_inbox d rest (inbox_closed d))).2 false)
    | _, _ => None
    end
  | SessionDropped =>
    match pending d, inbox d with
    | None, [] => Some (mk_loop (shutdown d) true)
    | _, _ => None
    end
  end.

Fixpoint run (l : Loop) (evs : list Event) : option Loop :=
  match evs with
  | [] => Some l
  | ev :: evs => l' ← loop_step l ev; run l' evs
  end.
End driver.

(** A transport that records what is written and never fails. *)
#[export] Instance recorder : Transport := {
  Socket := bytes;
  write_all b s := (Ok tt, s ++ b);
  shutdown_write s := (Ok tt, s);
}.
