(* ===== verification/DriverFacts.v ===== *)
(** * Properties of the driver task

    Every command is answered exactly once and in the order of submission; what a command's
    answer is, as a function of the messages the server sent for it; what is written for it. *)
From S2P Require Import Prelude Bytes Text Error Backend Frontend Driver.

Local Open Scope Z_scope.
Local Open Scope str_scope.

(** ** Obligations

    What a channel is owed: one reply of its type. *)
Definition owed (c : Chan) (k : ReplyKind) : list (nat * ReplyKind) :=
  match c with Caller id => [(id, k)] | Orphan => [] end.

Definition reply_kind (r : Reply) : ReplyKind :=
  match r with
  | RSimple _ => KSimple | RExtended _ => KExtended | RCopyIn _ => KCopyIn
  | RPrepare _ => KPrepare | RUnit _ => KUnit | RBatch _ => KBatch
  end.

Lemma reply_kind_err k e : reply_kind (err_reply k e) = k.
Proof. by destruct k. Qed.

Section facts.
Context `{FrontendApi} `{Transport}.
Implicit Types (d : Driver) (c : Command) (p : Pending) (l : Loop).

Definition answered d : list (nat * ReplyKind) :=
  map (λ x, (x.1, reply_kind x.2)) (replies d).
Definition in_flight d : list (nat * ReplyKind) :=
  match pending d with Some p => owed (pending_chan p) (pending_reply_kind p) | None => [] end.
Definition command_owed c : list (nat * ReplyKind) := owed (command_chan c) (command_kind c).
Definition queued d : list (nat * ReplyKind) := concat (map command_owed (inbox d)).
Definition obligations d : list (nat * ReplyKind) := answered d ++ in_flight d ++ queued d.

Definition event_owed (ev : Event) : list (nat * ReplyKind) :=
  match ev with Submit c => command_owed c | _ => [] end.

Lemma answered_send ch r d : answered (send ch r d) = answered d ++ owed ch (reply_kind r).
Proof. destruct ch; unfold answered; cbn; [by rewrite map_app | by rewrite app_nil_r]. Qed.
Lemma in_flight_send ch r d : in_flight (send ch r d) = in_flight d.
Proof. by destruct ch. Qed.
Lemma queued_send ch r d : queued (send ch r d) = queued d.
Proof. by destruct ch. Qed.
Lemma inbox_send ch r d : inbox (send ch r d) = inbox d.
Proof. by destruct ch. Qed.
Lemma pending_send ch r d : pending (send ch r d) = pending d.
Proof. by destruct ch. Qed.

(** Two driver states that owe the same replies. *)
Definition same_owed d d' : Prop := replies d' = replies d ∧ pending d' = pending d ∧ inbox d' = inbox d.

Lemma same_owed_obligations d d' :
  same_owed d d' → answered d' = answered d ∧ in_flight d' = in_flight d ∧ queued d' = queued d.
Proof. intros (Hr & Hp & Hi). unfold answered, in_flight, queued. by rewrite Hr, Hp, Hi. Qed.

Lemma same_owed_trans d1 d2 d3 : same_owed d1 d2 → same_owed d2 d3 → same_owed d1 d3.
Proof. unfold same_owed. naive_solver congruence. Qed.

Lemma same_owed_refl d : same_owed d d.
Proof. done. Qed.

Lemma on_buf_same w d : same_owed d (on_buf w d).2.
Proof. unfold on_buf. by destruct (w _). Qed.

Lemma flush_same d : same_owed d (flush d).2.
Proof. unfold flush. by destruct (write_all _ _) as [[]]. Qed.

Lemma bind_same {A B} (m : SE Driver Error A) (k : A → SE Driver Error B) d :
  (∀ d, same_owed d (m d).2) → (∀ a d, same_owed d (k a d).2) → same_owed d ((m ≫= k) d).2.
Proof.
  intros Hm Hk. unfold mbind, se_bind. specialize (Hm d). destruct (m d) as [[a|e] d1]; [|done].
  eapply same_owed_trans; [done | apply Hk].
Qed.

Lemma write_copy_fail_same msg d : same_owed d (write_copy_fail msg d).2.
Proof.
  apply bind_same; [done|]. intros _. intros ?. apply bind_same; [apply on_buf_same|].
  intros _. apply flush_same.
Qed.

Lemma write_copy_chunks_same data d : same_owed d (write_copy_chunks data d).2.
Proof.
  revert d. induction data as [|chunk data IH]; intros d; cbn [write_copy_chunks].
  - apply bind_same; [apply on_buf_same|]. intros _ ?. by apply bind_same; [apply flush_same|].
  - pose proof (on_buf_same (copy_data chunk) d) as Hb.
    destruct (on_buf (copy_data chunk) d) as [[[]|e] d1]; cbn in Hb |- *.
    + eapply same_owed_trans; [done | apply IH].
    + eapply same_owed_trans; [exact Hb|]. apply bind_same; [apply write_copy_fail_same | done].
Qed.

Lemma write_copy_stream_same data d : same_owed d (write_copy_stream data d).2.
Proof. apply bind_same; [done|]. intros _ ?. apply write_copy_chunks_same. Qed.
(** ** Draining *)

Definition fail_all (cs : list Command) d : Driver := fold_left (λ d c, fail_command d c closed) cs d.

Lemma fail_all_facts cs d :
  answered (fail_all cs d) = answered d ++ concat (map command_owed cs)
  ∧ pending (fail_all cs d) = pending d ∧ inbox (fail_all cs d) = inbox d.
Proof.
  revert d. induction cs as [|c cs IH]; intros d; cbn; [by rewrite app_nil_r|].
  destruct (IH (fail_command d c closed)) as (Ha & Hp & Hi). unfold fail_all in Ha, Hp, Hi.
  rewrite Ha, Hp, Hi. unfold fail_command.
  by rewrite answered_send, pending_send, inbox_send, reply_kind_err, <- app_assoc.
Qed.

Lemma drain_inbox_facts d :
  answered (drain_inbox d) = answered d ++ queued d
  ∧ pending (drain_inbox d) = pending d ∧ inbox (drain_inbox d) = [].
Proof. apply (fail_all_facts (inbox d) (with_inbox d [] true)). Qed.

(** [fail_pending] answers everything that is owed, and owes nothing afterwards. *)
Lemma fail_pending_facts e d :
  answered (fail_pending e d) = obligations d
  ∧ pending (fail_pending e d) = None ∧ inbox (fail_pending e d) = [].
Proof.
  unfold fail_pending. set (d' := match pending d with Some _ => _ | None => _ end).
  destruct (drain_inbox_facts d') as (Ha & Hp & Hi). rewrite Ha, Hp, Hi. unfold d', obligations, in_flight.
  destruct (pending d) as [p|].
  - rewrite answered_send, queued_send, pending_send, reply_kind_err, app_assoc. done.
  - done.
Qed.

(** ** Starting a command moves its obligation, whatever happens *)

Lemma command_plan_owed c build p :
  command_plan c = Some (build, p) →
  pending_chan p = command_chan c ∧ pending_reply_kind p = command_kind c.
Proof. by destruct c; cbn; intros [= <- <-]. Qed.

Lemma start_with_obligations c build p d :
  pending d = None → pending_chan p = command_chan c → pending_reply_kind p = command_kind c →
  obligations (start_with c build p d).2 = answered d ++ command_owed c ++ queued d.
Proof.
  intros Hpend Hch Hk. unfold start_with, obligations.
  pose proof (on_buf_same build (with_buf d [])) as Hb.
  destruct (on_buf build (with_buf d [])) as [[[]|e] d1]; cbn [snd] in Hb |- *; cycle 1.
  { apply same_owed_obligations in Hb as (Ha & Hf & Hq). rewrite answered_send, in_flight_send, queued_send, reply_kind_err, Ha, Hf, Hq.
    unfold in_flight. cbn. rewrite Hpend. cbn. by rewrite <- app_assoc. }
  pose proof (flush_same d1) as Hf1. destruct (flush d1) as [[[]|e] d2]; cbn [snd] in Hf1 |- *;
    pose proof (same_owed_trans _ _ _ Hb Hf1) as (Ha & Hf & Hq)%same_owed_obligations.
  - unfold set_pending. cbn. unfold in_flight, queued, answered in *. cbn in *.
    by rewrite Ha, Hq, Hch, Hk.
  - rewrite answered_send, in_flight_send, queued_send, reply_kind_err, Ha, Hf, Hq.
    unfold in_flight. cbn. rewrite Hpend. cbn. by rewrite <- app_assoc.
Qed.

Lemma start_close_obligations ch d :
  pending d = None →
  obligations (start_close ch d).2 = answered d ++ owed ch KUnit ++ queued d.
Proof.
  intros Hpend. unfold start_close.
  pose proof (flush_same (with_buf d (terminate []))) as Hf.
  destruct (flush (with_buf d (terminate []))) as [r d1]. cbn [snd] in Hf.
  destruct (shutdown_write (sock d1)) as [r2 s]. cbn [snd].
  set (d2 := with_sock d1 s). assert (same_owed d d2) as Hs by exact Hf.
  unfold obligations, in_flight. cbn.
  set (res := RUnit _).
  destruct (drain_inbox_facts (send ch res d2)) as (Ha & _ & Hi).
  fold (answered (drain_inbox (send ch res d2))). rewrite Ha, Hi. cbn.
  apply same_owed_obligations in Hs as (Hsa & Hsf & Hsq).
  by rewrite answered_send, queued_send, Hsa, Hsq, app_nil_r, <- app_assoc.
Qed.

Lemma start_obligations c d :
  pending d = None → obligations (start c d).2 = answered d ++ command_owed c ++ queued d.
Proof.
  intros Hpend. unfold start. destruct (command_plan c) as [[build p]|] eqn:Hc.
  - apply command_plan_owed in Hc as [??]. by apply start_with_obligations.
  - rewrite start_close_obligations by done. by destruct c.
Qed.

(** ** A message keeps what is owed *)

Lemma dispatch_keeps p msg p' :
  dispatch p msg = Keep p' →
  pending_chan p' = pending_chan p ∧ pending_reply_kind p' = pending_reply_kind p.
Proof. by destruct p, msg; cbn; intros [= <-]. Qed.

Lemma dispatch_answers p msg r :
  dispatch p msg = Answer r →
  reply_kind r = pending_reply_kind p ∧ ∃ status, msg = ReadyForQuery status.
Proof. destruct p, msg; cbn; intros [= <-]; eauto. Qed.

Lemma on_message_dispatch_obligations msg d :
  obligations (on_message_dispatch msg d).2 = obligations d.
Proof.
  unfold on_message_dispatch. destruct (pending d) as [p|] eqn:Hp; [|done].
  destruct (dispatch p msg) as [p'|r|] eqn:Hd; [| |done].
  - apply dispatch_keeps in Hd as [Hc Hk]. unfold obligations, in_flight. cbn. by rewrite Hp, Hc, Hk.
  - apply dispatch_answers in Hd as [Hk _]. cbn [snd]. unfold obligations.
    rewrite answered_send, in_flight_send, queued_send, Hk. unfold in_flight. cbn.
    rewrite Hp. by rewrite <- app_assoc.
Qed.

(** What a successful or failed reaction to [CopyInResponse] leaves in flight. *)
Lemma on_copy_in_response_obligations o f reply data tag error d :
  pending d = Some (CopyIn reply data tag error) →
  obligations (on_copy_in_response o f reply data tag error d).2 = obligations d.
Proof.
  intros Hp. assert (∀ d1 data' tag' error',
    same_owed (with_pending d (Some (CopyIn reply data' tag' error'))) d1 →
    obligations d1 = obligations d) as Hkeep.
  { intros d1 data' tag' error' (Ha & Hf & Hq)%same_owed_obligations. unfold obligations.
    rewrite Ha, Hf, Hq. unfold in_flight. cbn. by rewrite Hp. }
  unfold on_copy_in_response. case_match.
  - eapply Hkeep. apply write_copy_fail_same.
  - unfold mbind at 1, se_bind at 1. cbn [set_pending]. unfold mbind, se_bind.
    set (d0 := with_pending d _). pose proof (write_copy_stream_same data d0) as Hs.
    destruct (write_copy_stream data d0) as [[[e|]|e] d1]; cbn [snd] in Hs |- *; [|by eapply Hkeep..].
    eapply (Hkeep _ [] tag (first_error error e)). destruct Hs as (Hr & _ & Hi). done.
Qed.

Lemma on_message_obligations msg d : obligations (on_message msg d).2 = obligations d.
Proof.
  unfold on_message. set (d0 := note_status msg d).
  assert (obligations d0 = obligations d) as <- by by destruct msg.
  destruct msg; try apply on_message_dispatch_obligations.
  destruct (pending d0) as [[]|] eqn:Hp; try apply on_message_dispatch_obligations.
  by apply on_copy_in_response_obligations.
Qed.

(** ** The run loop *)

Lemma loop_step_obligations l ev l' :
  loop_step l ev = Some l' → obligations (driver l') = obligations (driver l) ++ event_owed ev.
Proof.
  unfold loop_step. destruct (stopped l) eqn:Hs; [done|]. destruct ev as [c|m|e| | |].
  - case_match; [done|]. intros [= <-]. unfold obligations, queued. cbn.
    rewrite map_app, concat_app. cbn. by rewrite app_nil_r, !app_assoc.
  - intros Hm. rewrite app_nil_r, <- (on_message_obligations m (driver l)).
    destruct (on_message m (driver l)) as [[[]|e] d'] eqn:E; injection Hm as <-; cbn; [done|].
    destruct (fail_pending_facts e d') as (Ha & Hp & Hi). unfold obligations at 1, in_flight, queued.
    by rewrite Ha, Hp, Hi, app_nil_r.
  - intros [= <-]. cbn. destruct (fail_pending_facts e (driver l)) as (Ha & Hp & Hi).
    unfold obligations at 1, in_flight, queued. by rewrite Ha, Hp, Hi, !app_nil_r.
  - intros [= <-]. cbn. destruct (fail_pending_facts closed (driver l)) as (Ha & Hp & Hi).
    unfold obligations at 1, in_flight, queued. by rewrite Ha, Hp, Hi, !app_nil_r.
  - destruct (pending (driver l)) eqn:Hp; [done|]. destruct (inbox (driver l)) as [|c rest] eqn:Hi; [done|].
    intros [= <-]. cbn [driver event_owed]. rewrite start_obligations by done.
    rewrite app_nil_r. unfold obligations, in_flight, queued. cbn. by rewrite Hp, Hi.
  - destruct (pending (driver l)) eqn:Hp; [done|]. destruct (inbox (driver l)) as [|c rest] eqn:Hi; [|done].
    intros [= <-]. cbn [driver event_owed]. rewrite app_nil_r.
    unfold shutdown. destruct (write_all _ _) as [??]. by destruct (shutdown_write _) as [??].
Qed.

Lemma run_obligations l evs l' :
  run l evs = Some l' →
  obligations (driver l') = obligations (driver l) ++ concat (map event_owed evs).
Proof.
  revert l. induction evs as [|ev evs IH]; intros l; cbn.
  { intros [= <-]. by rewrite app_nil_r. }
  intros (l1 & Hstep & Hrun)%bind_Some. rewrite (IH _ Hrun).
  by rewrite (loop_step_obligations _ _ _ Hstep), <- app_assoc.
Qed.

(** A stopped loop owes nothing. *)
Lemma loop_step_stopped l ev l' :
  loop_step l ev = Some l' → stopped l' = true → obligations (driver l') = answered (driver l').
Proof.
  unfold loop_step. destruct (stopped l) eqn:Hs; [done|].
  assert (∀ e d, obligations (fail_pending e d) = answered (fail_pending e d)) as Hfail.
  { intros e d. destruct (fail_pending_facts e d) as (_ & Hp & Hi).
    unfold obligations, in_flight, queued. by rewrite Hp, Hi, app_nil_r. }
  destruct ev as [c|m|e| | |].
  - case_match; [done|]. by intros [= <-].
  - destruct (on_message m (driver l)) as [[[]|e] d']; intros [= <-]; [done | by intros _; apply Hfail].
  - intros [= <-] _. apply Hfail.
  - intros [= <-] _. apply Hfail.
  - destruct (pending (driver l)), (inbox (driver l)); [done..|]. by intros [= <-].
  - destruct (pending (driver l)) eqn:Hp, (inbox (driver l)) eqn:Hi; [done..| |done].
    intros [= <-] _. cbn [driver]. unfold shutdown. destruct (write_all _ _) as [??].
    destruct (shutdown_write _) as [??]. unfold obligations, in_flight, queued. cbn.
    by rewrite Hp, Hi, app_nil_r.
Qed.

Lemma loop_stopped_final l ev : stopped l = true → loop_step l ev = None.
Proof. unfold loop_step. by intros ->. Qed.

Lemma run_stopped l evs l' :
  stopped l = false → run l evs = Some l' → stopped l' = true →
  obligations (driver l') = answered (driver l').
Proof.
  revert l. induction evs as [|ev evs IH]; intros l Hs; cbn.
  { intros [= <-]. congruence. }
  intros (l1 & Hstep & Hrun)%bind_Some Hs'. destruct (stopped l1) eqn:Hs1.
  - destruct evs as [|ev' evs']; cbn in Hrun.
    + injection Hrun as <-. by eapply loop_step_stopped.
    + by rewrite loop_stopped_final in Hrun.
  - by eapply IH.
Qed.

Definition Loop_new (s : Socket) (status : byte) : Loop := mk_loop (Driver_new s status) false.

(** ** What a command is answered

    The answer as a function of the messages received between the command's first message and
    [ReadyForQuery], independently of the driver's bookkeeping. *)
Definition row_of (m : BackendMessage) : option (list (option bytes)) :=
  match m with DataRow r => Some r | _ => None end.
Definition tag_of_completion (m : BackendMessage) : option str :=
  match m with CommandComplete t => Some t | _ => None end.
Definition server_error (m : BackendMessage) : option Error :=
  match m with ErrorResponse f => Some (from_server_fields f) | _ => None end.
Definition described_columns (m : BackendMessage) : option (list RowField) :=
  match m with RowDescription f => Some f | NoData => Some [] | _ => None end.
Definition described_params (m : BackendMessage) : option (list Z) :=
  match m with ParameterDescription o => Some o | _ => None end.

(** The errors a message gives rise to, when [expected] columns are expected. *)
Definition problem (expected : option Z) (m : BackendMessage) : option Error :=
  match m, expected with
  | ErrorResponse f, _ => Some (from_server_fields f)
  | (RowDescription _ | NoData), Some n =>
    let actual := Z.of_nat (length (default [] (described_columns m))) in
    if actual =? n then None else Some (ColumnAlignment n actual None None)
  | _, _ => None
  end.

(** The result sets of a simple query: one per [CommandComplete] or [EmptyQueryResponse]. *)
Fixpoint result_sets (cur : RawRows) (ms : list BackendMessage) : list RawRows :=
  match ms with
  | [] => []
  | DataRow r :: ms => result_sets (cur ++ [r]) ms
  | CommandComplete _ :: ms => cur :: result_sets [] ms
  | EmptyQueryResponse :: ms => [] :: result_sets cur ms
  | _ :: ms => result_sets cur ms
  end.
Fixpoint open_rows (cur : RawRows) (ms : list BackendMessage) : RawRows :=
  match ms with
  | [] => cur
  | DataRow r :: ms => open_rows (cur ++ [r]) ms
  | CommandComplete _ :: ms => open_rows [] ms
  | _ :: ms => open_rows cur ms
  end.

Definition outcome (c : Command) (ms : list BackendMessage) : Reply :=
  match c with
  | CSimpleQuery _ _ => RSimple (settle (last (omap server_error ms)) (result_sets [] ms))
  | CExtendedQuery _ _ _ _ expected _ | CExecutePrepared _ _ _ _ expected _ =>
      RExtended (settle (head (omap (problem expected) ms))
                   (mk_extended (omap row_of ms) (last (omap tag_of_completion ms))))
  | CCopyIn _ _ _ =>
      RCopyIn (match head (omap server_error ms), last (omap tag_of_completion ms) with
               | Some e, _ => Err e
               | None, Some tag => Ok (mk_copy_in tag)
               | None, None => Err (protocol "COPY FROM STDIN completed without CommandComplete")
               end)
  | CPrepare _ _ _ _ =>
      RPrepare (settle (head (omap server_error ms))
                  (mk_prepare (default [] (last (omap described_params ms)))
                              (default [] (last (omap described_columns ms)))))
  | CExecutePortal _ _ _ =>
      RBatch (settle (head (omap server_error ms))
                (mk_batch (omap row_of ms) (existsb (λ m, bool_decide (m = PortalSuspended)) ms)))
  | CBindPortal _ _ _ _ _ _ | CClosePortal _ _ | CCloseStatement _ _ | CClose _ =>
      RUnit (settle (head (omap server_error ms)) tt)
  end.

(** The messages that come before the answer: none ends the command, and a COPY's copy
    response is treated apart. *)
Definition quiet (c : Command) (m : BackendMessage) : bool :=
  match m, c with
  | ReadyForQuery _, _ => false
  | CopyInResponse _ _, CCopyIn _ _ _ => false
  | _, _ => true
  end.

(** The command's [Pending] state after the messages [ms]. *)
Definition progress (c : Command) (ms : list BackendMessage) : option Pending :=
  let rows := omap row_of ms in
  let tag := last (omap tag_of_completion ms) in
  let error := head (omap server_error ms) in
  match c with
  | CSimpleQuery _ r =>
      (* the described fields are stored and never read; see [current_fields_of] *)
      Some (SimpleQuery r (result_sets [] ms) (open_rows [] ms)
              (foldl (λ fs m, match m with
                              | RowDescription f => Some f
                              | CommandComplete _ => None
                              | _ => fs end) None ms)
              (last (omap server_error ms)))
  | CExtendedQuery _ _ _ _ x r => Some (Extended r x rows tag (head (omap (problem x) ms)))
  | CExecutePrepared _ _ _ _ x r => Some (ExecutePrepared r x rows tag (head (omap (problem x) ms)))
  | CCopyIn _ data r => Some (CopyIn r data tag error)
  | CPrepare _ _ _ r =>
      Some (Prepare r (last (omap described_params ms)) (last (omap described_columns ms)) error)
  | CBindPortal _ _ _ _ _ r => Some (BindPortal r error)
  | CExecutePortal _ _ r =>
      Some (ExecutePortal r rows (existsb (λ m, bool_decide (m = PortalSuspended)) ms) error)
  | CClosePortal _ r => Some (ClosePortal r error)
  | CCloseStatement _ r => Some (CloseStatement r error)
  | CClose _ => None
  end.

Lemma result_sets_app cur ms1 ms2 :
  result_sets cur (ms1 ++ ms2) = result_sets cur ms1 ++ result_sets (open_rows cur ms1) ms2.
Proof. revert cur. induction ms1 as [|[] ms1 IH]; intros cur; cbn; rewrite ?IH; done. Qed.
Lemma open_rows_app cur ms1 ms2 :
  open_rows cur (ms1 ++ ms2) = open_rows (open_rows cur ms1) ms2.
Proof. revert cur. induction ms1 as [|[] ms1 IH]; intros cur; cbn; rewrite ?IH; done. Qed.

Lemma head_snoc {A} (l : list A) (x : A) : head (l ++ [x]) = Error.or_else (head l) (Some x).
Proof. by destruct l. Qed.

Lemma progress_start c build p : command_plan c = Some (build, p) → progress c [] = Some p.
Proof. by destruct c; cbn; intros [= <- <-]. Qed.

Lemma check_columns_snoc expected m fs ms :
  described_columns m = Some fs →
  check_columns expected (Z.of_nat (length fs)) (head (omap (problem expected) ms))
  = head (omap (problem expected) (ms ++ [m])).
Proof.
  intros Hm. rewrite omap_app. unfold check_columns.
  assert (problem expected m = match expected with
    | Some n => if Z.of_nat (length fs) =? n then None
                else Some (ColumnAlignment n (Z.of_nat (length fs)) None None)
    | None => None end) as Hp by (destruct m; try done; injection Hm as <-; by destruct expected).
  cbn [omap list_omap]. rewrite Hp. destruct expected as [n|]; [|by rewrite app_nil_r].
  destruct (Z.of_nat (length fs) =? n); [by rewrite app_nil_r | by rewrite head_snoc].
Qed.

Lemma progress_snoc c ms p m :
  progress c ms = Some p → quiet c m →
  match dispatch p m with
  | Keep p' => progress c (ms ++ [m]) = Some p'
  | Answer _ => False
  | Ignore => progress c (ms ++ [m]) = Some p
  end.
Proof.
  intros Hp Hm. unfold progress in *.
  destruct c; try done; injection Hp as <-; destruct m; try done; cbn [dispatch message_extended
    message_execute_prepared];
    rewrite ?(check_columns_snoc _ (RowDescription fields) fields),
      ?(check_columns_snoc _ NoData []) by done;
    rewrite ?omap_app, ?result_sets_app, ?open_rows_app, ?foldl_app, ?existsb_app; cbn;
    rewrite ?app_nil_r, ?last_snoc, ?head_snoc, ?orb_false_r, ?orb_true_r; try done.
Qed.

Lemma progress_answer c ms p st :
  progress c ms = Some p → dispatch p (ReadyForQuery st) = Answer (outcome c ms).
Proof. unfold progress. by destruct c; intros [= <-]. Qed.

(** ** Running a command to its answer *)

(** Handling a message that is neither the end of the command nor a copy response. *)
Lemma on_message_quiet c ms p m d :
  pending d = Some p → progress c ms = Some p → quiet c m →
  ∃ p', on_message m d = (Ok tt, with_pending d (Some p')) ∧ progress c (ms ++ [m]) = Some p'.
Proof.
  intros Hd Hp Hm. pose proof (progress_snoc _ _ _ _ Hp Hm) as Hs.
  assert (on_message m d = on_message_dispatch m d) as ->.
  { unfold on_message. destruct m; try done. cbn. rewrite Hd. destruct p; try done.
    by destruct c; cbn in Hp, Hm. }
  unfold on_message_dispatch. rewrite Hd.
  destruct (dispatch p m); [by eauto | done |].
  exists p. split; [|done]. f_equal. by destruct d; cbn in *; subst.
Qed.

Lemma run_app l evs1 evs2 : run l (evs1 ++ evs2) = (run l evs1 ≫= λ l', run l' evs2).
Proof.
  revert l. induction evs1 as [|ev evs1 IH]; intros l; cbn; [done|].
  destruct (loop_step l ev); cbn; [apply IH | done].
Qed.

Lemma run_server m d d' evs :
  on_message m d = (Ok tt, d') →
  run (mk_loop d false) (Server m :: evs) = run (mk_loop d' false) evs.
Proof. intros Hm. cbn. by rewrite Hm. Qed.

Lemma run_quiet c ms0 ms p d :
  pending d = Some p → progress c ms0 = Some p → Forall (quiet c) ms →
  ∃ p', run (mk_loop d false) (map Server ms) = Some (mk_loop (with_pending d (Some p')) false)
        ∧ progress c (ms0 ++ ms) = Some p'.
Proof.
  intros Hd Hp Hms. revert ms0 p d Hd Hp. induction Hms as [|m ms Hm _ IH]; intros ms0 p d Hd Hp.
  { exists p. rewrite app_nil_r. split; [|done]. cbn. do 2 f_equal. by destruct d; cbn in *; subst. }
  destruct (on_message_quiet _ _ _ _ _ Hd Hp Hm) as (p1 & Hon & Hp1).
  destruct (IH (ms0 ++ [m]) p1 (with_pending d (Some p1))) as (p' & Hrun & Hp'); [done..|].
  exists p'. split; [|by rewrite <- app_assoc in Hp']. cbn [map].
  by rewrite (run_server _ _ _ _ Hon).
Qed.

(** The driver once a command has been answered. *)
Definition settled (c : Command) (ms : list BackendMessage) (st : byte) d : Driver :=
  send (command_chan c) (outcome c ms) (with_pending (with_status d st) None).

Lemma progress_chan c ms p : progress c ms = Some p → pending_chan p = command_chan c.
Proof. by destruct c; intros [= <-]. Qed.

Lemma on_message_ready c ms p st d :
  pending d = Some p → progress c ms = Some p →
  on_message (ReadyForQuery st) d = (Ok tt, settled c ms st d).
Proof.
  intros Hd Hp. unfold on_message, on_message_dispatch. cbn [note_status with_status pending].
  rewrite Hd, (progress_answer _ _ _ _ Hp), (progress_chan _ _ _ Hp). done.
Qed.

Lemma run_to_answer c ms0 ms p st d :
  pending d = Some p → progress c ms0 = Some p → Forall (quiet c) ms →
  run (mk_loop d false) (map Server (ms ++ [ReadyForQuery st]))
  = Some (mk_loop (settled c (ms0 ++ ms) st d) false).
Proof.
  intros Hd Hp Hms. destruct (run_quiet _ _ _ _ _ Hd Hp Hms) as (p' & Hrun & Hp').
  rewrite map_app, run_app, Hrun. cbn [mbind option_bind map].
  erewrite run_server; [|by eapply on_message_ready]. done.
Qed.

(** A driver waiting for commands, with [c] at the head of its inbox. *)
Definition ready_with (c : Command) (rest : list Command) d : Prop :=
  pending d = None ∧ inbox d = c :: rest.

(** The driver that has written a command's messages, leaving the socket [s]. *)
Definition sent (rest : list Command) (p : Pending) (s : Socket) d : Driver :=
  mk_driver s rest (inbox_closed d) (Some p) [] (transaction_status d) (replies d).

Lemma run_recv c rest build p wire s d evs :
  ready_with c rest d → command_plan c = Some (build, p) →
  build [] = (Ok tt, wire) → write_all wire (sock d) = (Ok tt, s) →
  run (mk_loop d false) (Recv :: evs) = run (mk_loop (sent rest p s d) false) evs.
Proof.
  intros [Hd Hi] Hc Hb Hw. cbn. rewrite Hd, Hi. unfold start. rewrite Hc.
  unfold start_with, on_buf. cbn. rewrite Hb. unfold flush. cbn. by rewrite Hw.
Qed.

(** ** COPY *)

Definition copy_frames (data : list bytes) : bytes :=
  concat (map (message "d"%byte) data) ++ message "c"%byte [].

(** Every chunk fits in a message. *)
Definition copy_encodes (data : list bytes) : Prop :=
  Forall (λ chunk, ∀ buf, (copy_data chunk buf).1 = Ok tt) data.

Lemma write_copy_chunks_frames `{!FrontendFrames} data d s :
  copy_encodes data →
  write_all (write_buf d ++ copy_frames data) (sock d) = (Ok tt, s) →
  write_copy_chunks data d = (Ok None, with_buf (with_sock d s) []).
Proof.
  unfold copy_frames. intros Hdata. revert d. induction Hdata as [|chunk data Hc _ IH]; intros d Hw.
  - cbn [write_copy_chunks]. unfold mbind, se_bind, on_buf, infallible, copy_done.
    rewrite copy_done_frame. unfold flush. cbn in *. by rewrite Hw.
  - cbn [write_copy_chunks map concat] in *. unfold on_buf at 1.
    destruct (copy_data chunk (write_buf d)) as [r b] eqn:E.
    specialize (Hc (write_buf d)). rewrite E in Hc. cbn in Hc. subst r.
    apply copy_data_appends in E as ->. cbn [snd].
    rewrite IH; [done..|]. cbn. by rewrite <- !app_assoc in Hw |- *.
Qed.

Definition binary_formats (overall : byte) (formats : list Z) : bool :=
  byte_is overall 1 && forallb (λ f, f =? 1) formats.

Lemma binary_formats_spec overall formats :
  negb (byte_is overall 1) || existsb (λ f, negb (f =? 1)) formats
  = negb (binary_formats overall formats).
Proof.
  unfold binary_formats. rewrite negb_andb. f_equal.
  induction formats as [|f fs IH]; cbn; [done | by rewrite negb_andb, IH].
Qed.

Lemma on_copy_in_binary `{!FrontendFrames} overall formats reply data tag error d s :
  pending d = Some (CopyIn reply data tag error) →
  binary_formats overall formats → copy_encodes data →
  write_all (copy_frames data) (sock d) = (Ok tt, s) →
  on_message (CopyInResponse overall formats) d
  = (Ok tt, with_pending (with_buf (with_sock d s) []) (Some (CopyIn reply [] tag error))).
Proof.
  intros Hd Hf Hdata Hw. unfold on_message. cbn [note_status]. rewrite Hd.
  unfold on_copy_in_response. rewrite binary_formats_spec. rewrite (Is_true_true_1 _ Hf). cbn [negb].
  unfold mbind, se_bind, set_pending, write_copy_stream. cbn.
  unfold mbind, se_bind, clear_buf. cbn.
  by erewrite write_copy_chunks_frames by done.
Qed.

(** Once a COPY has failed locally, its answer is that error. *)
Lemma run_copy_failed sql reply data tag e ms st d :
  pending d = Some (CopyIn reply data tag (Some e)) →
  Forall (quiet (CCopyIn sql data reply)) ms →
  run (mk_loop d false) (map Server (ms ++ [ReadyForQuery st]))
  = Some (mk_loop (send reply (RCopyIn (Err e)) (with_pending (with_status d st) None)) false).
Proof.
  intros Hd Hms. revert tag d Hd. induction Hms as [|m ms Hm _ IH]; intros tag d Hd; cbn [app map].
  { erewrite run_server; [done|]. unfold on_message, on_message_dispatch. cbn. by rewrite Hd. }
  assert (∃ tag', on_message m d = (Ok tt, with_pending d (Some (CopyIn reply data tag' (Some e)))))
    as (tag' & Hon).
  { assert (with_pending d (Some (CopyIn reply data tag (Some e))) = d) as Hsame
      by (destruct d; cbn in *; by subst).
    destruct m; try done; unfold on_message, on_message_dispatch; cbn; rewrite Hd; cbn;
      try (exists tag; by rewrite Hsame); eauto. }
  rewrite (run_server _ _ _ _ Hon). by rewrite (IH tag').
Qed.

(** ** The status byte *)
Definition status_of (m : Event) : option byte :=
  match m with Server (ReadyForQuery st) => Some st | _ => None end.

Lemma status_of_ops d :
  (∀ w, transaction_status (on_buf w d).2 = transaction_status d)
  ∧ transaction_status (flush d).2 = transaction_status d.
Proof.
  split; [intros w; unfold on_buf; by destruct (w _)|].
  unfold flush. by destruct (write_all _ _) as [[]].
Qed.

Definition keeps_status {A} (m : SE Driver Error A) : Prop :=
  ∀ d, transaction_status (m d).2 = transaction_status d.

Lemma bind_keeps {A B} (m : SE Driver Error A) (k : A → SE Driver Error B) :
  keeps_status m → (∀ a, keeps_status (k a)) → keeps_status (m ≫= k).
Proof.
  intros Hm Hk d. unfold mbind, se_bind. specialize (Hm d).
  destruct (m d) as [[a|e] d1]; [by rewrite Hk | done].
Qed.

Lemma keeps_ret {A} (a : A) : keeps_status (mret a).
Proof. done. Qed.
Lemma keeps_pending (p : option Pending) : keeps_status (set_pending p).
Proof. done. Qed.
Lemma keeps_on_buf w : keeps_status (on_buf w).
Proof. intros d. apply status_of_ops. Qed.
Lemma keeps_flush : keeps_status flush.
Proof. intros d. apply status_of_ops. Qed.
Lemma keeps_clear : keeps_status clear_buf.
Proof. done. Qed.

Lemma keeps_copy_fail msg : keeps_status (write_copy_fail msg).
Proof.
  apply bind_keeps; [apply keeps_clear|]. intros _.
  apply bind_keeps; [apply keeps_on_buf|]. intros _. apply keeps_flush.
Qed.

Lemma keeps_copy_chunks data : keeps_status (write_copy_chunks data).
Proof.
  induction data as [|chunk data IH]; cbn [write_copy_chunks].
  - apply bind_keeps; [apply keeps_on_buf|]. intros _.
    apply bind_keeps; [apply keeps_flush|]. intros _. apply keeps_ret.
  - intros d. pose proof (keeps_on_buf (copy_data chunk) d) as Hb.
    destruct (on_buf (copy_data chunk) d) as [[[]|e] d1]; cbn in Hb; [by rewrite IH|].
    rewrite <- Hb. revert d1 Hb. intros d1 _.
    apply bind_keeps; [apply keeps_copy_fail|]. intros _. apply keeps_ret.
Qed.

Lemma status_send ch r d : transaction_status (send ch r d) = transaction_status d.
Proof. by destruct ch. Qed.

Lemma status_drain d : transaction_status (drain_inbox d) = transaction_status d.
Proof.
  unfold drain_inbox. change (transaction_status d) with (transaction_status (with_inbox d [] true)).
  generalize (with_inbox d [] true). induction (inbox d) as [|c cs IH]; intros d'; [done|].
  cbn. rewrite IH. apply status_send.
Qed.

Lemma status_fail_pending e d : transaction_status (fail_pending e d) = transaction_status d.
Proof.
  unfold fail_pending. rewrite status_drain. by destruct (pending d); rewrite ?status_send.
Qed.

Lemma status_on_message m d :
  transaction_status (on_message m d).2 = transaction_status (note_status m d).
Proof.
  assert (keeps_status (on_message_dispatch m)) as Hdis.
  { intros d'. unfold on_message_dispatch. destruct (pending d') as [p|]; [|done].
    destruct (dispatch p m); [done| |done]. cbn. by rewrite status_send. }
  unfold on_message. destruct m; try apply Hdis.
  destruct (pending (note_status _ d)) as [[]|]; try apply Hdis.
  revert d. change (keeps_status (on_copy_in_response overall_format column_formats reply data command_tag error)).
  unfold on_copy_in_response. case_match.
  - apply bind_keeps; [apply keeps_pending|]. intros _. apply keeps_copy_fail.
  - apply bind_keeps; [apply keeps_pending|]. intros _.
    apply bind_keeps; [apply bind_keeps; [apply keeps_clear | intros _; apply keeps_copy_chunks]|].
    intros [e|]; [apply keeps_pending | apply keeps_ret].
Qed.

Lemma status_start c : keeps_status (start c).
Proof.
  unfold start. destruct (command_plan c) as [[build p]|]; intros d.
  - unfold start_with. pose proof (keeps_on_buf build (with_buf d [])) as Hb.
    destruct (on_buf build _) as [[[]|e] d1]; cbn in Hb; [|by rewrite <- Hb; apply status_send].
    pose proof (keeps_flush d1) as Hf. destruct (flush d1) as [[[]|e] d2]; cbn in Hf; cbn [snd].
    + cbn. by rewrite Hf, Hb.
    + by rewrite status_send, Hf, Hb.
  - unfold start_close. pose proof (keeps_flush (with_buf d (terminate []))) as Hf.
    destruct (flush _) as [r d1]. cbn in Hf. destruct (shutdown_write (sock d1)) as [r2 s].
    cbn. by rewrite status_drain, status_send.
Qed.

Lemma status_loop_step l ev l' :
  loop_step l ev = Some l' →
  transaction_status (driver l') = default (transaction_status (driver l)) (status_of ev).
Proof.
  unfold loop_step. destruct (stopped l); [done|]. destruct ev as [c|m|e| | |]; cbn [status_of default].
  - case_match; [done|]. by intros [= <-].
  - intros Hm. pose proof (status_on_message m (driver l)) as Hs.
    assert (transaction_status (driver l') = transaction_status (note_status m (driver l))) as ->.
    { destruct (on_message m (driver l)) as [[[]|e] d']; injection Hm as <-; cbn in *; [done|].
      by rewrite status_fail_pending. }
    by destruct m.
  - intros [= <-]. apply status_fail_pending.
  - intros [= <-]. apply status_fail_pending.
  - destruct (pending (driver l)), (inbox (driver l)); [done..| |].
    + done.
    + intros [= <-]. cbn. by rewrite status_start.
  - destruct (pending (driver l)), (inbox (driver l)); [done..| |done].
    intros [= <-]. unfold shutdown. destruct (write_all _ _) as [??]. by destruct (shutdown_write _) as [??].
Qed.

(** ** The theorems *)

(** C1: every command sent to the driver is answered exactly once, on a reply of its own type
    and in the order of submission.  In every reachable state of the run loop the replies
    sent, the command in flight and the queue are together exactly the commands submitted; when
    the loop has stopped every one of them has been answered. *)
Theorem replies_exactly_once s st evs l :
  run (Loop_new s st) evs = Some l →
  obligations (driver l) = concat (map event_owed evs)
  ∧ (stopped l = true → answered (driver l) = concat (map event_owed evs)).
Proof.
  intros Hrun. pose proof (run_obligations _ _ _ Hrun) as Ho. cbn in Ho.
  split; [done|]. intros Hs. by rewrite <- (run_stopped (Loop_new s st) _ _ eq_refl Hrun Hs), Ho.
Qed.

(** C20: the answer of a command.  When the driver takes a command from the queue and the
    server sends messages [ms] and then [ReadyForQuery], the driver writes exactly the
    command's messages, and answers the command with [outcome], a function of [ms] alone: the
    rows in order, the last completion tag, the first error (the last one for a simple query),
    the parameter and result descriptions; then it is idle, in the reported status. *)
Theorem command_answered c rest build p wire s ms st d :
  ready_with c rest d → command_plan c = Some (build, p) →
  build [] = (Ok tt, wire) → write_all wire (sock d) = (Ok tt, s) →
  Forall (quiet c) ms →
  run (mk_loop d false) (Recv :: map Server (ms ++ [ReadyForQuery st]))
  = Some (mk_loop (send (command_chan c) (outcome c ms)
      (mk_driver s rest (inbox_closed d) None [] st (replies d))) false).
Proof.
  intros Hr Hc Hb Hw Hms. rewrite (run_recv _ _ _ _ _ _ _ _ Hr Hc Hb Hw).
  rewrite (run_to_answer c [] ms p) by (done || by eapply progress_start). done.
Qed.

(** C21: binary COPY.  When the server answers [COPY FROM STDIN] with a binary copy response,
    the driver sends every data chunk, in order and each in its own [CopyData] message, then
    [CopyDone]; the command succeeds with the server's completion tag. *)
Theorem copy_in_streams `{!FrontendFrames} sql data reply rest wire s1 s2 ms1 ms2 overall formats st d :
  let c := CCopyIn sql data reply in
  ready_with c rest d → query sql [] = (Ok tt, wire) →
  write_all wire (sock d) = (Ok tt, s1) → write_all (copy_frames data) s1 = (Ok tt, s2) →
  binary_formats overall formats → copy_encodes data →
  Forall (quiet c) ms1 → Forall (quiet c) ms2 →
  run (mk_loop d false)
    (Recv :: map Server (ms1 ++ CopyInResponse overall formats :: ms2 ++ [ReadyForQuery st]))
  = Some (mk_loop (send reply (outcome c (ms1 ++ ms2))
      (mk_driver s2 rest (inbox_closed d) None [] st (replies d))) false).
Proof.
  intros c Hr Hq Hw1 Hw2 Hf Hdata Hms1 Hms2.
  rewrite (run_recv c _ _ _ _ _ _ _ Hr eq_refl Hq Hw1), map_app, run_app.
  destruct (run_quiet c [] ms1 _ (sent rest (CopyIn reply data None None) s1 d) eq_refl eq_refl Hms1)
    as (p' & -> & [= <-]).
  cbn [mbind option_bind map].
  erewrite run_server; [|by eapply on_copy_in_binary].
  by erewrite (run_to_answer (CCopyIn sql [] reply) ms1 ms2).
Qed.

(** C39: a COPY that the server does not run in binary is refused: the driver sends [CopyFail]
    and no data, and whatever the server answers up to [ReadyForQuery] (it reports the failed
    copy), the caller gets the first error, at the latest the driver's own one. *)
Theorem copy_in_refused sql data reply ms1 ms2 overall formats s st d wire :
  let c := CCopyIn sql data reply in
  let refusal := protocol ("COPY FROM STDIN requires binary format, got overall_format="
                 ++ dec (u8_of overall) ++ " column_formats=" ++ debug_ints formats) in
  pending d = Some (CopyIn reply data None None) →
  binary_formats overall formats = false →
  copy_fail "babar only supports binary COPY FROM STDIN" [] = (Ok tt, wire) →
  write_all wire (sock d) = (Ok tt, s) →
  Forall (quiet c) ms1 → Forall (quiet c) ms2 →
  run (mk_loop d false)
    (map Server (ms1 ++ CopyInResponse overall formats :: ms2 ++ [ReadyForQuery st]))
  = Some (mk_loop (send reply (RCopyIn (Err (default refusal (head (omap server_error ms1)))))
      (mk_driver s (inbox d) (inbox_closed d) None [] st (replies d))) false).
Proof.
  intros c refusal Hd Hf Hfail Hw Hms1 Hms2. rewrite map_app, run_app.
  destruct (run_quiet c [] ms1 _ d Hd eq_refl Hms1) as (p' & -> & [= <-]).
  cbn [mbind option_bind map]. set (e0 := head (omap server_error ms1)).
  assert (on_message (CopyInResponse overall formats)
    (with_pending d (Some (CopyIn reply data (last (omap tag_of_completion ms1)) e0)))
    = (Ok tt, mk_driver s (inbox d) (inbox_closed d)
        (Some (CopyIn reply data (last (omap tag_of_completion ms1)) (first_error e0 refusal)))
        [] (transaction_status d) (replies d))) as Hon.
  { unfold on_message. cbn. unfold on_copy_in_response. rewrite binary_formats_spec, Hf. cbn [negb].
    unfold mbind, se_bind, set_pending. cbn. unfold write_copy_fail, mbind, se_bind, clear_buf, on_buf. cbn.
    rewrite Hfail. unfold flush. cbn. by rewrite Hw. }
  fold e0. erewrite run_server by exact Hon.
  assert (first_error e0 refusal = Some (default refusal e0)) as -> by by destruct e0.
  by erewrite run_copy_failed by done.
Qed.

(** the transaction status the session reads is the one of the last [ReadyForQuery] the
    server has sent, or the one of the startup, in every reachable state. *)
Theorem transaction_status_tracks l evs l' :
  run l evs = Some l' →
  transaction_status (driver l')
  = default (transaction_status (driver l)) (last (omap status_of evs)).
Proof.
  revert l'. induction evs as [|ev evs IH] using rev_ind; intros l'.
  { by intros [= <-]. }
  rewrite run_app, omap_app. intros (l1 & Hl1 & Hstep)%bind_Some. cbn in Hstep.
  apply bind_Some in Hstep as (l2 & Hstep & [= <-]).
  rewrite (status_loop_step _ _ _ Hstep), (IH _ Hl1). cbn.
  by destruct (status_of ev); cbn; rewrite ?last_snoc, ?app_nil_r.
Qed.

(** The types of the messages a command writes. *)
Definition command_tags (c : Command) : list byte :=
  match c with
  | CSimpleQuery _ _ | CCopyIn _ _ _ => "Q"
  | CExtendedQuery _ _ _ _ _ _ => "PBDES"
  | CPrepare _ _ _ _ => "PDS"
  | CExecutePrepared _ _ _ _ _ _ => "BES"
  | CBindPortal _ _ _ _ _ _ => "BS"
  | CExecutePortal _ _ _ => "ES"
  | CClosePortal _ _ | CCloseStatement _ _ => "CS"
  | CClose _ => "X"
  end.

Lemma plan_appends `{!FrontendFrames} c build p :
  command_plan c = Some (build, p) → appends_all (command_tags c) build.
Proof.
  destruct c; intros [= <- <-];
    repeat (first [apply appends_all_one | apply appends_all_seq]; [by auto with babar|]);
    try apply appends_all_one; auto with babar.
Qed.

(** A message after which the server reports [ReadyForQuery]. *)
Definition ends_in_ready (tag : byte) : bool := byte_is tag 83 || byte_is tag 81.

(** The messages of a command are well framed, in the documented order, and exactly the
    last one is a synchronisation point ([Sync], or the simple [Query] itself): the server
    reports [ReadyForQuery] exactly once per command, which is when the driver answers. *)
Theorem command_messages `{!FrontendFrames} c build p wire :
  command_plan c = Some (build, p) → build [] = (Ok tt, wire) →
  ∃ bodies, length bodies = length (command_tags c)
    ∧ wire = concat (zip_with message (command_tags c) bodies)
    ∧ ends_in_ready <$> last (command_tags c) = Some true
    ∧ length (filter ends_in_ready (command_tags c)) = 1%nat.
Proof.
  intros Hc Hb. destruct (plan_appends _ _ _ Hc _ _ Hb) as (bodies & Hlen & ->).
  exists bodies. repeat split; [done..| |]; destruct c; try done; by vm_compute.
Qed.

(** after [Close] no other command is taken or accepted and messages of the server change
    nothing but the status: the loop only ends when the read side fails or is closed by the
    server, and whoever was queued has been told that the session is closed. *)
Theorem close_is_final reply d :
  pending d = None →
  let d' := (start (CClose reply) d).2 in
  answered d' = answered d ++ owed reply KUnit ++ queued d
  ∧ (∀ c, loop_step (mk_loop d' false) (Submit c) = None)
  ∧ loop_step (mk_loop d' false) Recv = None
  ∧ loop_step (mk_loop d' false) SessionDropped = None
  ∧ ∀ m, loop_step (mk_loop d' false) (Server m) = Some (mk_loop (note_status m d') false).
Proof.
  intros Hd d'.
  assert (pending d' = Some (Close Orphan) ∧ inbox d' = [] ∧ inbox_closed d' = true) as (Hp & Hi & Hc).
  { unfold d'. cbn. unfold start_close. destruct (flush _) as [r d1].
    destruct (shutdown_write (sock d1)) as [r2 s]. cbn [snd with_pending pending inbox inbox_closed].
    set (d2 := send _ _ _). split; [done|]. split; [apply drain_inbox_facts|].
    unfold drain_inbox. generalize (inbox d2). intros cs.
    assert (∀ d, inbox_closed d = true → inbox_closed (fold_left (λ d c, fail_command d c closed) cs d) = true)
      as Hcl; [|by apply Hcl].
    induction cs as [|c cs IH]; intros d3 Hd3; [done|]. apply IH. by destruct c, reply0. }
  split.
  { pose proof (start_obligations (CClose reply) d Hd) as Ho. fold d' in Ho.
    unfold obligations, in_flight, queued at 1 in Ho. rewrite Hp, Hi in Ho. cbn in Ho.
    by rewrite app_nil_r in Ho. }
  unfold loop_step. cbn. rewrite Hp, Hi, Hc. repeat split; [done..|]. intros m.
  assert (on_message m d' = (Ok tt, note_status m d')) as ->; [|done].
  unfold on_message, on_message_dispatch. by destruct m; cbn; rewrite Hp.
Qed.
End facts.

(** ** Witnesses, over [wire_api] and [recorder] *)

Definition sample_select : Command :=
  CExtendedQuery "SELECT id FROM t WHERE id = $1" [Some [x00; x00; x00; x07]] [1] [1] (Some 1) (Caller 1).
Definition sample_copy : Command := CCopyIn "COPY t FROM STDIN BINARY" [[x41]; [x42]] (Caller 0).

Definition ready_driver (c : Command) : Driver :=
  mk_driver (H0 := recorder) [] [c] false None [] "I"%byte [].

Definition wire_of (c : Command) : bytes :=
  match command_plan c with Some (build, _) => (build []).2 | None => [] end.

Definition sample_row : BackendMessage := DataRow [Some [x00; x00; x00; x07]].

Lemma replies_exactly_once_witness :
  ∃ l, run (Loop_new (H0 := recorder) [] "I"%byte)
         [Submit sample_copy; Submit sample_select; Recv; Server (ErrorResponse []);
          Server (ReadyForQuery "I"%byte); Recv; Server sample_row; Eof] = Some l
  ∧ stopped l = true ∧ answered (driver l) = [(0%nat, KCopyIn); (1%nat, KExtended)].
Proof.
  eexists. split; [vm_compute; reflexivity|]. split; [reflexivity|].
  refine (proj2 (replies_exactly_once (H := wire_api) (H0 := recorder) [] "I"%byte
    [Submit sample_copy; Submit sample_select; Recv; Server (ErrorResponse []);
     Server (ReadyForQuery "I"%byte); Recv; Server sample_row; Eof] _ _) _).
  - vm_compute; reflexivity.
  - reflexivity.
Defined.

Lemma command_answered_witness :
  run (mk_loop (ready_driver sample_select) false)
    (Recv :: map Server ([ParseComplete; BindComplete; RowDescription [mk_row_field "id" 0 0 23 4 0 1];
       sample_row; CommandComplete "SELECT 1"] ++ [ReadyForQuery "T"%byte]))
  = Some (mk_loop (send (Caller 1) (RExtended (Ok (mk_extended [[Some [x00; x00; x00; x07]]] (Some "SELECT 1"%s))))
      (mk_driver (H0 := recorder) (wire_of sample_select) [] false None [] "T"%byte [])) false).
Proof.
  apply (command_answered (H := wire_api) (H0 := recorder) sample_select [] (build_extended_query
    "SELECT id FROM t WHERE id = $1" [Some [x00; x00; x00; x07]] [1] [1])
    (Extended (Caller 1) (Some 1) [] None None) (wire_of sample_select) (wire_of sample_select)
    [ParseComplete; BindComplete; RowDescription [mk_row_field "id" 0 0 23 4 0 1];
       sample_row; CommandComplete "SELECT 1"] "T"%byte (ready_driver sample_select)).
  - split; reflexivity.
  - reflexivity.
  - vm_compute; reflexivity.
  - vm_compute; reflexivity.
  - repeat constructor.
Defined.

Lemma copy_in_streams_witness :
  ∃ l, run (mk_loop (ready_driver sample_copy) false)
    (Recv :: map Server ([] ++ CopyInResponse x01 [1] :: [CommandComplete "COPY 2"] ++ [ReadyForQuery "I"%byte]))
  = Some l ∧ sock (driver l) = wire_of sample_copy ++ copy_frames [[x41]; [x42]].
Proof.
  eexists. split.
  - apply (copy_in_streams (H := wire_api) (H0 := recorder) "COPY t FROM STDIN BINARY" [[x41]; [x42]]
      (Caller 0) [] (wire_of sample_copy) (wire_of sample_copy)
      (wire_of sample_copy ++ copy_frames [[x41]; [x42]]) [] [CommandComplete "COPY 2"] x01 [1] "I"%byte
      (ready_driver sample_copy)).
    + split; reflexivity.
    + vm_compute; reflexivity.
    + vm_compute; reflexivity.
    + vm_compute; reflexivity.
    + exact I.
    + repeat constructor.
    + repeat constructor.
    + repeat constructor.
  - reflexivity.
Defined.

Definition copying_driver : Driver :=
  mk_driver (H0 := recorder) [] [] false
    (Some (CopyIn (Caller 0) [[x41]; [x42]] None None)) [] "I"%byte [].

Lemma copy_in_refused_witness :
  ∃ l, run (mk_loop copying_driver false)
    (map Server ([] ++ CopyInResponse x00 [0] :: [ErrorResponse [("C"%byte, "57014"%s)]] ++ [ReadyForQuery "I"%byte]))
  = Some l ∧ is_err (match replies (driver l) with [(_, RCopyIn r)] => r | _ => Ok (mk_copy_in []) end).
Proof.
  eexists. split.
  - apply (copy_in_refused (H := wire_api) (H0 := recorder) "COPY t FROM STDIN BINARY" [[x41]; [x42]]
      (Caller 0) [] [ErrorResponse [("C"%byte, "57014"%s)]] x00 [0]
      ((copy_fail "babar only supports binary COPY FROM STDIN" []).2) "I"%byte copying_driver
      ((copy_fail "babar only supports binary COPY FROM STDIN" []).2)).
    + reflexivity.
    + reflexivity.
    + vm_compute; reflexivity.
    + vm_compute; reflexivity.
    + repeat constructor.
    + repeat constructor.
  - eexists; reflexivity.
Defined.

Lemma transaction_status_tracks_witness :
  ∃ l, run (mk_loop (ready_driver sample_select) false)
         [Recv; Server (ReadyForQuery "E"%byte); Submit sample_copy; Recv] = Some l
  ∧ transaction_status (driver l) = "E"%byte.
Proof.
  eexists. split; [vm_compute; reflexivity|].
  refine (transaction_status_tracks
    (mk_loop (ready_driver sample_select) false)
    [Recv; Server (ReadyForQuery "E"%byte); Submit sample_copy; Recv] _ _).
  vm_compute; reflexivity.
Defined.

Lemma command_messages_witness :
  ∃ bodies, length bodies = 5%nat ∧ wire_of sample_select = concat (zip_with message "PBDES" bodies).
Proof.
  destruct (command_messages (H := wire_api) sample_select (build_extended_query
    "SELECT id FROM t WHERE id = $1" [Some [x00; x00; x00; x07]] [1] [1])
    (Extended (Caller 1) (Some 1) [] None None) (wire_of sample_select)) as (bodies & Hl & Hw & _).
  - reflexivity.
  - vm_compute; reflexivity.
  - exists bodies. split; [exact Hl | exact Hw].
Defined.

Lemma close_is_final_witness :
  answered (start (CClose (Caller 5)) (ready_driver sample_select)).2
  = [(5%nat, KUnit); (1%nat, KExtended)].
Proof.
  exact (proj1 (close_is_final (H := wire_api) (H0 := recorder) (Caller 5)
    (ready_driver sample_select) eq_refl)).
Defined.
