(* ===== verification/Scram.v ===== *)
(** * SCRAM-SHA-256 and MD5 authentication

    [crates/core/src/auth/scram.rs] and [auth/md5.rs].  The hash functions and base64 are other
    crates: they are the interface [Crypto], and [CryptoLaws] states what the SCRAM code relies
    on (the digest width, that base64 decodes what it encodes and uses its own alphabet). *)
From S2P Require Import Prelude Bytes Text Error.

Local Open Scope Z_scope.
Local Open Scope str_scope.

Class Crypto := {
  md5_digest : bytes → bytes;
  sha256 : bytes → bytes;
  hmac_sha256 : bytes → bytes → bytes;
  b64_encode : bytes → str;
  b64_decode : str → option bytes;
}.

(** A byte that may occur in base64 text: ASCII, and none of the separators of a SCRAM message. *)
Definition b64_byte (b : byte) : Prop := u8_of b < 128 ∧ b ≠ ","%byte.

Class CryptoLaws `{Crypto} : Prop := {
  sha256_length d : length (sha256 d) = 32%nat;
  hmac_length k d : length (hmac_sha256 k d) = 32%nat;
  b64_round_trip b : b64_decode (b64_encode b) = Some b;
  b64_alphabet b : Forall b64_byte (b64_encode b);
}.

(** ** Byte strings *)
Definition xor_byte (a b : byte) : byte := byte_of (Z.lxor (u8_of a) (u8_of b)).

(** [for (o, x) in out.iter_mut().zip(with.iter()) { *o ^= x }]: bytes of [out] without a
    partner are kept. *)
Fixpoint xor_into (out by_ : bytes) : bytes :=
  match out, by_ with
  | o :: out, x :: by_ => xor_byte o x :: xor_into out by_
  | _, _ => out
  end.

Definition constant_time_eq (a b : bytes) : bool :=
  if (length a =? length b)%nat
  then fold_left (λ diff x, Z.lor diff (Z.lxor (u8_of x.1) (u8_of x.2))) (zip a b) 0 =? 0
  else false.

(** ** Channel binding *)
Inductive ChannelBindingKind := TlsServerEndPoint.
Record ChannelBinding := mk_binding { cb_kind : ChannelBindingKind; cb_data : bytes }.

Definition tls_server_end_point (data : bytes) : ChannelBinding := mk_binding TlsServerEndPoint data.

Definition SCRAM_SHA_256 : str := "SCRAM-SHA-256".
Definition SCRAM_SHA_256_PLUS : str := "SCRAM-SHA-256-PLUS".
Definition NONCE_LEN : nat := 18.

Definition mechanism_name (cb : option ChannelBinding) : str :=
  match cb with Some _ => SCRAM_SHA_256_PLUS | None => SCRAM_SHA_256 end.

Definition binding_gs2_header (cb : ChannelBinding) : str :=
  match cb_kind cb with TlsServerEndPoint => "p=tls-server-end-point,," end.

Definition gs2_header (cb : option ChannelBinding) : str :=
  match cb with Some b => binding_gs2_header b | None => "n,," end.

Definition encoded_channel_binding (cb : option ChannelBinding) : bytes :=
  gs2_header cb ++ match cb with Some b => cb_data b | None => [] end.

(** ** Parsing the server's messages *)
Record ServerFirst := mk_server_first { sf_nonce : str; sf_salt : str; sf_iters : Z }.

Definition server_first_attr (acc : option str * option str * option Z) (attr : str)
  : result str (option str * option str * option Z) :=
  let '(nonce, salt, iters) := acc in
  match split_once "=" attr with
  | None => Err "missing '=' in attribute"
  | Some (key, value) =>
    if bool_decide (key = "r") then Ok (Some value, salt, iters)
    else if bool_decide (key = "s") then Ok (nonce, Some value, iters)
    else if bool_decide (key = "i") then
      match parse_uint 32 10 value with
      | Ok i => Ok (nonce, salt, Some i)
      | Err _ => Err "iter count not u32"
      end
    else Ok acc
  end.

Definition parse_server_first (s : str) : result str ServerFirst :=
  acc ← fold_result server_first_attr (None, None, None) (split_byte "," s);
  let '(nonce, salt, iters) := acc in
  nonce ← ok_or nonce "missing r";
  salt ← ok_or salt "missing s";
  iters ← ok_or iters "missing i";
  Ok (mk_server_first nonce salt iters).

Inductive ServerFinal := Verifier (b64 : str) | ServerFinalError (e : str).

Fixpoint parse_server_final_attrs (attrs : list str) : result str ServerFinal :=
  match attrs with
  | [] => Err "server-final has neither v= nor e="
  | attr :: attrs =>
    match strip_prefix "v=" attr with
    | Some v => Ok (Verifier v)
    | None =>
      match strip_prefix "e=" attr with
      | Some e => Ok (ServerFinalError e)
      | None => parse_server_final_attrs attrs
      end
    end
  end.
Definition parse_server_final (s : str) : result str ServerFinal :=
  parse_server_final_attrs (split_byte "," s).

Section scram.
Context `{Crypto}.

(** ** MD5 password *)
Definition hex_md5_concat (a b : bytes) : str := concat (map hex2 (md5_digest (a ++ b))).
Definition md5_password (user password : str) (salt : bytes) : str :=
  "md5" ++ hex_md5_concat (hex_md5_concat password user) salt.

(** ** The client *)
Record ScramClient := mk_client { password : str; channel_binding : option ChannelBinding }.

Record ClientFirst := mk_client_first {
  cf_mechanism_name : str;
  cf_message : bytes;
  cf_password : str;
  cf_channel_binding : option ChannelBinding;
  first_bare_message : str;
  client_nonce : str;
}.

Record ClientFinal := mk_client_final {
  message : bytes;
  server_key : bytes;
  auth_message : str;
}.

Definition ScramClient_new (pw : str) : ScramClient := mk_client pw None.

(** [start] draws [NONCE_LEN] random bytes and calls this. *)
Definition start_with_nonce (c : ScramClient) (nonce_bytes : bytes) : ClientFirst :=
  let client_nonce := b64_encode nonce_bytes in
  let first_bare_message := "n=,r=" ++ client_nonce in
  mk_client_first
    (mechanism_name (channel_binding c))
    (gs2_header (channel_binding c) ++ first_bare_message)
    (password c) (channel_binding c) first_bare_message client_nonce.

(** [for _ in 1..iters { u = hmac(password, u); out ^= u }] *)
Fixpoint pbkdf2_rounds (n : nat) (password u out : bytes) : bytes :=
  match n with
  | O => out
  | S n =>
    let u := hmac_sha256 password u in
    pbkdf2_rounds n password u (xor_into out u)
  end.

Definition pbkdf2_hmac_sha256 (password salt : bytes) (iters : Z) : bytes :=
  let u := hmac_sha256 password (salt ++ to_be_bytes 4 1) in
  pbkdf2_rounds (Z.to_nat (iters - 1)) password u u.

Definition handle_server_first (c : ClientFirst) (server_first : bytes) : result Error ClientFinal :=
  server_first_str ← map_err (λ _, Auth "SCRAM server-first not UTF-8") (from_utf8 server_first);
  parsed ← map_err (λ e, Auth ("SCRAM server-first malformed: " ++ e))
             (parse_server_first server_first_str);
  if negb (starts_with (client_nonce c) (sf_nonce parsed)) then
    Err (Auth "SCRAM server nonce does not extend client nonce")
  else
    salt ← ok_or (b64_decode (sf_salt parsed)) (Auth "SCRAM salt not valid base64");
    if sf_iters parsed =? 0 then Err (Auth "SCRAM iteration count was 0")
    else
      let salted_password := pbkdf2_hmac_sha256 (cf_password c) salt (sf_iters parsed) in
      let client_key := hmac_sha256 salted_password "Client Key" in
      let stored_key := sha256 client_key in
      let server_key := hmac_sha256 salted_password "Server Key" in
      let channel_binding_b64 := b64_encode (encoded_channel_binding (cf_channel_binding c)) in
      let client_final_without_proof := "c=" ++ channel_binding_b64 ++ ",r=" ++ sf_nonce parsed in
      let auth_message := first_bare_message c ++ "," ++ server_first_str ++ ","
                          ++ client_final_without_proof in
      let client_signature := hmac_sha256 stored_key auth_message in
      let client_proof := xor_into client_key client_signature in
      let proof := b64_encode client_proof in
      Ok (mk_client_final (client_final_without_proof ++ ",p=" ++ proof) server_key auth_message).

Definition verify_server_final (f : ClientFinal) (server_final : bytes) : result Error unit :=
  s ← map_err (λ _, Auth "SCRAM server-final not UTF-8") (from_utf8 server_final);
  parsed ← map_err (λ e, Auth ("SCRAM server-final malformed: " ++ e)) (parse_server_final s);
  match parsed with
  | Verifier b64 =>
    claimed ← ok_or (b64_decode b64) (Auth "SCRAM verifier not base64");
    let expected := hmac_sha256 (server_key f) (auth_message f) in
    if negb (constant_time_eq claimed expected) then Err (Auth "SCRAM server signature mismatch")
    else Ok tt
  | ServerFinalError e => Err (Auth ("SCRAM server reported error: " ++ e))
  end.
End scram.

(** ** The server of RFC 5802

    What the protocol prescribes for the other side, written from the RFC's point of view:
    the server stores a salt, an iteration count, [StoredKey] and [ServerKey], never the
    password. *)
Section rfc_server.
Context `{Crypto}.

Record Verifiers := mk_verifiers {
  v_salt : bytes;
  v_iters : Z;
  v_stored_key : bytes;
  v_server_key : bytes;
}.

Definition enrol (pw : str) (salt : bytes) (iters : Z) : Verifiers :=
  let salted := pbkdf2_hmac_sha256 pw salt iters in
  mk_verifiers salt iters (sha256 (hmac_sha256 salted "Client Key")) (hmac_sha256 salted "Server Key").

Definition rfc_server_first (v : Verifiers) (nonce : str) : str :=
  join "," ["r=" ++ nonce; "s=" ++ b64_encode (v_salt v); "i=" ++ dec (v_iters v)].

(** The server authenticates a client-final message [without_proof ++ ",p=" ++ proof]: the
    proof, unmasked with the client signature, must hash to [StoredKey], the nonce must be the
    agreed one and the channel binding the expected one. *)
Definition rfc_server_accepts (v : Verifiers) (client_first_bare : str) (nonce : str)
    (binding : bytes) (client_final : bytes) : Prop :=
  ∃ proof, let without_proof := "c=" ++ b64_encode binding ++ ",r=" ++ nonce in
    client_final = without_proof ++ ",p=" ++ b64_encode proof
    ∧ let auth := client_first_bare ++ "," ++ rfc_server_first v nonce ++ "," ++ without_proof in
      sha256 (xor_into proof (hmac_sha256 (v_stored_key v) auth)) = v_stored_key v.

Definition rfc_server_final (v : Verifiers) (client_first_bare nonce : str) (binding : bytes) : str :=
  let auth := client_first_bare ++ "," ++ rfc_server_first v nonce ++ ","
              ++ "c=" ++ b64_encode binding ++ ",r=" ++ nonce in
  "v=" ++ b64_encode (hmac_sha256 (v_server_key v) auth).
End rfc_server.

(** ** Lemmas on byte strings *)
Lemma xor_byte_cancel a b : xor_byte (xor_byte a b) b = a.
Proof.
  unfold xor_byte. pose proof (u8_of_range a). pose proof (u8_of_range b).
  rewrite u8_of_byte_of.
  - rewrite Z.lxor_assoc, Z.lxor_nilpotent, Z.lxor_0_r. apply byte_of_u8_of.
  - destruct (Z.eq_dec (Z.lxor (u8_of a) (u8_of b)) 0) as [->|Hne]; [lia|].
    assert (0 ≤ Z.lxor (u8_of a) (u8_of b)) by (apply Z.lxor_nonneg; lia).
    split; [done|]. apply (Z.log2_lt_pow2 _ 8); [lia|].
    eapply Z.le_lt_trans; [apply Z.log2_lxor; lia|].
    assert (∀ b, Z.log2 (u8_of b) < 8).
    { intros c. pose proof (u8_of_range c).
      destruct (Z.eq_dec (u8_of c) 0) as [->|]; [done|]. apply Z.log2_lt_pow2; lia. }
    apply Z.max_lub_lt; done.
Qed.

Lemma xor_into_length a b : length (xor_into a b) = length a.
Proof. revert b. induction a as [|x a IH]; intros [|y b]; cbn; by rewrite ?IH. Qed.

Lemma xor_into_cancel a b : length a = length b → xor_into (xor_into a b) b = a.
Proof.
  revert b. induction a as [|x a IH]; intros [|y b]; cbn; [done..|].
  intros [= Hlen]. by rewrite xor_byte_cancel, IH.
Qed.

(** The comparison is equality; only its running time is meant to differ. *)
Lemma constant_time_eq_spec a b : constant_time_eq a b = true ↔ a = b.
Proof.
  unfold constant_time_eq. destruct (Nat.eqb_spec (length a) (length b)) as [Hlen|Hlen].
  2: split; [done | by intros ->].
  rewrite Z.eqb_eq.
  assert (∀ acc, fold_left (λ diff x, Z.lor diff (Z.lxor (u8_of x.1) (u8_of x.2))) (zip a b) acc = 0
            ↔ acc = 0 ∧ a = b) as Hfold; [|by rewrite Hfold; naive_solver].
  revert b Hlen. induction a as [|x a IH]; intros [|y b] Hlen acc; try discriminate; cbn.
  { naive_solver. }
  rewrite IH by (cbn in Hlen; lia). rewrite Z.lor_eq_0_iff, Z.lxor_eq_0_iff.
  split; [|by intros [-> [= -> ->]]].
  intros [[-> Hxy] ->]. by rewrite <- (byte_of_u8_of x), Hxy, byte_of_u8_of.
Qed.

(** ** Parsing *)

Lemma server_first_attr_iters acc attr acc' :
  (∀ i, acc.2 = Some i → in_uint 32 i) → server_first_attr acc attr = Ok acc' →
  ∀ i, acc'.2 = Some i → in_uint 32 i.
Proof.
  destruct acc as [[n s] it]. unfold server_first_attr. intros Hacc.
  destruct (split_once "=" attr) as [[k v]|]; [|done].
  repeat case_bool_decide; try (intros [= <-]; exact Hacc).
  destruct (parse_uint 32 10 v) as [z|] eqn:Hz; [|done]. intros [= <-] i [= <-].
  by eapply parse_uint_range; [| |exact Hz].
Qed.

Lemma parse_server_first_iters s sf : parse_server_first s = Ok sf → in_uint 32 (sf_iters sf).
Proof.
  unfold parse_server_first. intros ([[n sa] it] & Hf & H)%result_bind_Ok.
  destruct n; [|done]. destruct sa; [|done]. destruct it as [i|]; [|done]. injection H as <-. cbn.
  enough (∀ attrs acc acc', (∀ i, acc.2 = Some i → in_uint 32 i) →
    fold_result server_first_attr acc attrs = Ok acc' → ∀ i, acc'.2 = Some i → in_uint 32 i) as Hgen.
  { eapply Hgen; [|exact Hf | reflexivity]. done. }
  induction attrs as [|a attrs IH]; intros acc acc' Hacc; cbn.
  { by intros [= <-]. }
  intros (acc1 & H1 & H2)%result_bind_Ok. eapply IH; [|exact H2]. by eapply server_first_attr_iters.
Qed.

(** The attributes the client reads. *)
Lemma server_first_attr_r acc v : server_first_attr acc ("r=" ++ v) = Ok (Some v, acc.1.2, acc.2).
Proof. by destruct acc as [[??]?]. Qed.
Lemma server_first_attr_s acc v : server_first_attr acc ("s=" ++ v) = Ok (acc.1.1, Some v, acc.2).
Proof. by destruct acc as [[??]?]. Qed.
Lemma server_first_attr_i acc z :
  in_uint 32 z → server_first_attr acc ("i=" ++ dec z) = Ok (acc.1, Some z).
Proof.
  intros Hz. destruct acc as [[n sa] i]. unfold server_first_attr.
  assert (split_once "=" ("i=" ++ dec z) = Some ("i"%s, dec z)) as -> by done.
  rewrite parse_uint_dec by done. done.
Qed.

(** An attribute [m=] (the mandatory-extension marker of RFC 5802) is skipped like any other
    unknown one. *)
Lemma mandatory_extension_skipped acc ext : server_first_attr acc ("m=" ++ ext) = Ok acc.
Proof. by destruct acc as [[??]?]. Qed.

(** ** The exchange *)
Section exchange.
Context `{CryptoLaws}.
Implicit Types (v : Verifiers) (nonce : str).

Lemma b64_no_comma b : ","%byte ∉ b64_encode b.
Proof.
  intros Hin. pose proof (b64_alphabet b) as Ha. rewrite Forall_forall in Ha.
  by destruct (Ha _ Hin).
Qed.

Lemma b64_valid b : utf8_valid (b64_encode b) = true.
Proof. apply utf8_valid_ascii. eapply Forall_impl; [apply b64_alphabet|]. by intros ? []. Qed.

Lemma comma_free_prefix (p w : str) : ","%byte ∉ p → ","%byte ∉ w → ","%byte ∉ p ++ w.
Proof. rewrite elem_of_app. tauto. Qed.

Lemma parse_rfc_server_first v nonce :
  ","%byte ∉ nonce → in_uint 32 (v_iters v) →
  parse_server_first (rfc_server_first v nonce)
  = Ok (mk_server_first nonce (b64_encode (v_salt v)) (v_iters v)).
Proof.
  intros Hn Hi. unfold parse_server_first, rfc_server_first. rewrite split_join; [|done|].
  - cbn [fold_result]. by rewrite server_first_attr_r; cbn [mbind result_bind];
      rewrite server_first_attr_s; cbn [mbind result_bind]; rewrite server_first_attr_i.
  - repeat constructor; apply comma_free_prefix;
      try (apply not_elem_of_cons; split; [done|]; apply not_elem_of_cons; split; [done|]; apply not_elem_of_nil);
      [done | apply b64_no_comma |].
    intros Hin. pose proof (dec_digits (v_iters v) (proj1 Hi)) as Hd. rewrite Forall_forall in Hd.
    specialize (Hd _ Hin). vm_compute in Hd. naive_solver.
Qed.

Lemma rfc_server_first_valid v nonce :
  utf8_valid nonce = true → in_uint 32 (v_iters v) → utf8_valid (rfc_server_first v nonce) = true.
Proof.
  intros Hn Hi. unfold rfc_server_first, join.
  repeat apply utf8_valid_app; try apply b64_valid; try done; try by vm_compute.
  apply utf8_valid_ascii. eapply Forall_impl; [apply dec_digits, Hi|]. cbn. lia.
Qed.

Lemma proof_unmasks salted stored auth :
  xor_into (xor_into (hmac_sha256 salted "Client Key") (hmac_sha256 stored auth)) (hmac_sha256 stored auth)
  = hmac_sha256 salted "Client Key".
Proof. apply xor_into_cancel. by rewrite !hmac_length. Qed.

Lemma starts_with_app (p s : str) : starts_with p (p ++ s) = true.
Proof. unfold starts_with. rewrite strip_prefix_app. apply bool_decide_true. eauto. Qed.

(** The exchange against the RFC's server, step by step. *)
Lemma scram_exchange client salt iters nonce_bytes server_nonce :
  utf8_valid server_nonce = true → ","%byte ∉ server_nonce → 1 ≤ iters < 2 ^ 32 →
  let first := start_with_nonce client nonce_bytes in
  let v := enrol (password client) salt iters in
  let nonce := client_nonce first ++ server_nonce in
  ∃ final,
    handle_server_first first (rfc_server_first v nonce) = Ok final
    ∧ rfc_server_accepts v (first_bare_message first) nonce (encoded_channel_binding (channel_binding client)) (message final)
    ∧ verify_server_final final
        (rfc_server_final v (first_bare_message first) nonce (encoded_channel_binding (channel_binding client))) = Ok tt.
Proof.
  intros Hu Hc Hi first v nonce.
  assert (","%byte ∉ nonce) as Hnc by (apply comma_free_prefix; [apply b64_no_comma | done]).
  assert (utf8_valid nonce = true) as Hnu by (apply utf8_valid_app; [apply b64_valid | done]).
  assert (in_uint 32 (v_iters v)) as Hiu by (cbn; unfold in_uint; lia).
  eexists. split; [|split].
  - unfold handle_server_first.
    rewrite (proj2 (from_utf8_Ok _ _) (conj eq_refl (rfc_server_first_valid v nonce Hnu Hiu))).
    cbn [map_err mbind result_bind]. rewrite parse_rfc_server_first by done.
    cbn [map_err mbind result_bind sf_nonce sf_salt sf_iters].
    unfold nonce at 1. rewrite starts_with_app. cbn [negb].
    rewrite b64_round_trip. cbn [ok_or mbind result_bind].
    cbn [v v_iters enrol]. rewrite (proj2 (Z.eqb_neq iters 0)) by lia. reflexivity.
  - eexists. cbn [message]. split; [done|]. by rewrite proof_unmasks.
  - unfold verify_server_final, rfc_server_final.
    assert (∀ d, from_utf8 ("v=" ++ b64_encode d) = Ok ("v=" ++ b64_encode d)) as Hv.
    { intros d. apply from_utf8_Ok. split; [done|]. apply utf8_valid_app; [done | apply b64_valid]. }
    rewrite Hv. cbn [map_err mbind result_bind].
    unfold parse_server_final. rewrite split_byte_word.
    2: { apply comma_free_prefix; [|apply b64_no_comma].
         repeat (apply not_elem_of_cons; split; [done|]). apply not_elem_of_nil. }
    cbn [parse_server_final_attrs]. rewrite strip_prefix_app. cbn [map_err mbind result_bind].
    rewrite b64_round_trip. cbn [ok_or mbind result_bind].
    cbn [server_key auth_message].
    match goal with |- context [constant_time_eq ?a ?b] =>
      assert (constant_time_eq a b = true) as -> by by apply constant_time_eq_spec end.
    done.
Qed.


Lemma verify_server_final_Ok f bs :
  verify_server_final f bs = Ok tt ↔
    utf8_valid bs = true ∧ ∃ b64, parse_server_final bs = Ok (Verifier b64)
      ∧ b64_decode b64 = Some (hmac_sha256 (server_key f) (auth_message f)).
Proof.
  unfold verify_server_final. destruct (from_utf8 bs) as [s|] eqn:Hu; cbn.
  2: { assert (utf8_valid bs ≠ true).
       { intros Hv. by rewrite (proj2 (from_utf8_Ok bs bs) (conj eq_refl Hv)) in Hu. }
       naive_solver. }
  apply from_utf8_Ok in Hu as [-> Hu].
  destruct (parse_server_final bs) as [[b64|e]|e]; cbn; [|naive_solver..].
  destruct (b64_decode b64) as [claimed|] eqn:Hd; cbn; [|naive_solver].
  destruct (constant_time_eq claimed _) eqn:E; cbn.
  - apply constant_time_eq_spec in E as ->. naive_solver.
  - assert (claimed ≠ hmac_sha256 (server_key f) (auth_message f)).
    { intros ->. by rewrite (proj2 (constant_time_eq_spec _ _)) in E. }
    naive_solver congruence.
Qed.

Lemma verify_server_final_error f bs :
  verify_server_final f bs ≠ Ok tt → ∃ why, verify_server_final f bs = Err (Auth why).
Proof.
  unfold verify_server_final. destruct (from_utf8 bs) as [s|]; cbn; [|eauto].
  destruct (parse_server_final s) as [[b64|e]|e]; cbn; [|eauto..].
  destruct (b64_decode b64) as [claimed|]; cbn; [|eauto]. case_match; [eauto | done].
Qed.

(** mutual authentication: the client accepts a server-final message exactly when its
    first [v=] or [e=] attribute is a [v=] whose base64 decodes to
    [HMAC(ServerKey, AuthMessage)]; anything else, an error report included, is an
    authentication error. *)
Theorem verify_server_final_spec f bs :
  (verify_server_final f bs = Ok tt ↔
     utf8_valid bs = true ∧ ∃ b64, parse_server_final bs = Ok (Verifier b64)
       ∧ b64_decode b64 = Some (hmac_sha256 (server_key f) (auth_message f)))
  ∧ (verify_server_final f bs ≠ Ok tt → ∃ why, verify_server_final f bs = Err (Auth why)).
Proof. split; [apply verify_server_final_Ok | apply verify_server_final_error]. Qed.

(** What the client has checked when it answers a server-first message: it is UTF-8, its
    nonce extends the client's own, its salt is base64 and the iteration count is in
    [1 .. 2^32); the answer repeats that nonce and the client's own channel binding. *)
Theorem handle_server_first_checks c bs f :
  handle_server_first c bs = Ok f →
  ∃ sf salt proof, parse_server_first bs = Ok sf ∧ utf8_valid bs = true
    ∧ (∃ s, sf_nonce sf = client_nonce c ++ s)
    ∧ b64_decode (sf_salt sf) = Some salt ∧ 1 ≤ sf_iters sf < 2 ^ 32
    ∧ message f = "c=" ++ b64_encode (encoded_channel_binding (cf_channel_binding c))
                  ++ ",r=" ++ sf_nonce sf ++ ",p=" ++ b64_encode proof
    ∧ length proof = 32%nat.
Proof.
  unfold handle_server_first. destruct (from_utf8 bs) as [s|] eqn:Hu; [|done].
  apply from_utf8_Ok in Hu as [-> Hu]. cbn [map_err mbind result_bind].
  destruct (parse_server_first bs) as [sf|] eqn:Hp; [|done]. cbn [map_err mbind result_bind].
  destruct (starts_with (client_nonce c) (sf_nonce sf)) eqn:Hs; [|done]. cbn [negb].
  destruct (b64_decode (sf_salt sf)) as [salt|] eqn:Hb; [|done]. cbn [ok_or mbind result_bind].
  destruct (Z.eqb_spec (sf_iters sf) 0) as [|Hi]; [done|]. intros [= <-].
  eexists sf, salt, _. split; [done|]. split; [done|]. split.
  { apply bool_decide_eq_true in Hs as [r Hr%strip_prefix_Some]. by exists r. }
  split; [done|]. split; [pose proof (parse_server_first_iters _ _ Hp); unfold in_uint in *; lia|].
  cbn [message]. split; [by rewrite <- !app_assoc | by rewrite xor_into_length, hmac_length].
Qed.
End exchange.

(** ** An instance of the interface

    Not a cryptographic one: padding for the digests, hexadecimal for base64.  It shows that
    the laws can be met, and lets the exchange be run. *)
Definition pad32 (d : bytes) : bytes := take 32 (d ++ replicate 32 x00).

Fixpoint unhex (s : str) : option bytes :=
  match s with
  | [] => Some []
  | [_] => None
  | a :: b :: s =>
    match parse_uint 8 16 [a; b] with
    | Ok z => cons (byte_of z) <$> unhex s
    | Err _ => None
    end
  end.

#[export] Instance toy_crypto : Crypto := {
  md5_digest d := take 16 (d ++ replicate 16 x00);
  sha256 := pad32;
  hmac_sha256 k d := pad32 (take 16 k ++ d);
  b64_encode b := concat (map hex2 b);
  b64_decode := unhex;
}.

Lemma pad32_length d : length (pad32 d) = 32%nat.
Proof. unfold pad32. rewrite length_take, length_app, length_replicate. lia. Qed.

Lemma hex2_b64 b : Forall b64_byte (hex2 b).
Proof.
  assert (∀ d, 0 ≤ d < 16 → b64_byte (digit_byte d)) as Hd.
  { intros d Hd. pose proof (u8_of_digit_byte d Hd) as Hu. split; [case_match; lia|].
    intros E. rewrite E in Hu. change (u8_of ","%byte) with 44 in Hu. case_match; lia. }
  pose proof (u8_of_range b). unfold hex2.
  apply Forall_cons; split; [|apply Forall_singleton]; apply Hd; Z.to_euclidean_division_equations; lia.
Qed.

Lemma unhex_hex b : unhex (concat (map hex2 b)) = Some b.
Proof.
  induction b as [|x b IH]; [done|].
  change (unhex (concat (map hex2 (x :: b)))) with
    (match parse_uint 8 16 (hex2 x) with
     | Ok z => cons (byte_of z) <$> unhex (concat (map hex2 b)) | Err _ => None end).
  rewrite parse_hex2, IH. cbn. by rewrite byte_of_u8_of.
Qed.

#[export] Instance toy_laws : CryptoLaws.
Proof.
  split; cbn; intros; try apply pad32_length; [apply unhex_hex|].
  apply Forall_concat, Forall_map, Forall_forall. intros x _. apply hex2_b64.
Qed.


Lemma handle_server_first_checks_witness :
  ∃ f sf, handle_server_first (start_with_nonce (mk_client "pw" None) [x07]) "r=07abc,s=00,i=2,m=x" = Ok f
    ∧ parse_server_first "r=07abc,s=00,i=2,m=x" = Ok sf ∧ 1 ≤ sf_iters sf.
Proof.
  destruct (handle_server_first (start_with_nonce (mk_client "pw" None) [x07]) "r=07abc,s=00,i=2,m=x")
    as [f|] eqn:E; [|vm_compute in E; discriminate].
  destruct (handle_server_first_checks _ _ _ E) as (sf & _ & _ & Hp & _ & _ & _ & [Hi _] & _).
  exists f, sf. split; [reflexivity|]. split; [exact Hp | exact Hi].
Defined.
