(* ===== verification/Tls.v ===== *)
(** * Connection configuration and the TLS channel binding

    [crates/core/src/config.rs] (the configuration builder) and the pure part of
    [crates/core/src/tls.rs]: the decision taken on the server's answer to [SSLRequest], the
    server name, and the [tls-server-end-point] channel binding, with its DER reader.

    The TLS handshake itself, the sockets and the certificate stores belong to other crates:
    the handshake is a parameter of [negotiate_tls], the digests are the interface [CertHash]. *)
From S2P Require Import Prelude Bytes Text Error Backend Scram.

Local Open Scope Z_scope.
Local Open Scope str_scope.

(** ** [config.rs] *)
Inductive TlsMode := Disable | Prefer | Require_.
Inductive TlsBackend := Rustls | NativeTls.

#[export] Instance TlsMode_eq_dec : EqDecision TlsMode.
Proof. solve_decision. Defined.

(** A host name, or an IP address (as the text [IpAddr] displays). *)
Inductive Host := Name (s : str) | Addr (s : str).

Record Config := mk_config {
  host : Host;
  port : Z;
  cfg_user : str;
  cfg_database : str;
  cfg_password : option str;
  cfg_application_name : option str;
  cfg_connect_timeout : option Z;
  cfg_tls_mode : TlsMode;
  cfg_tls_backend : TlsBackend;
  cfg_tls_server_name : option str;
  cfg_tls_root_cert_path : option str;
}.

Definition Config_new (h : str) (p : Z) (user database : str) : Config :=
  mk_config (Name h) p user database None None None Disable Rustls None None.
Definition Config_with_addr (a : str) (p : Z) (user database : str) : Config :=
  mk_config (Addr a) p user database None None None Disable Rustls None None.

Definition set_password (pw : str) (c : Config) : Config :=
  mk_config (host c) (port c) (cfg_user c) (cfg_database c) (Some pw) (cfg_application_name c)
    (cfg_connect_timeout c) (cfg_tls_mode c) (cfg_tls_backend c) (cfg_tls_server_name c)
    (cfg_tls_root_cert_path c).
Definition set_application_name (n : str) (c : Config) : Config :=
  mk_config (host c) (port c) (cfg_user c) (cfg_database c) (cfg_password c) (Some n)
    (cfg_connect_timeout c) (cfg_tls_mode c) (cfg_tls_backend c) (cfg_tls_server_name c)
    (cfg_tls_root_cert_path c).
Definition set_connect_timeout (t : Z) (c : Config) : Config :=
  mk_config (host c) (port c) (cfg_user c) (cfg_database c) (cfg_password c) (cfg_application_name c)
    (Some t) (cfg_tls_mode c) (cfg_tls_backend c) (cfg_tls_server_name c)
    (cfg_tls_root_cert_path c).
Definition set_tls_mode (m : TlsMode) (c : Config) : Config :=
  mk_config (host c) (port c) (cfg_user c) (cfg_database c) (cfg_password c) (cfg_application_name c)
    (cfg_connect_timeout c) m (cfg_tls_backend c) (cfg_tls_server_name c)
    (cfg_tls_root_cert_path c).
Definition require_tls : Config → Config := set_tls_mode Require_.
Definition set_tls_backend (b : TlsBackend) (c : Config) : Config :=
  mk_config (host c) (port c) (cfg_user c) (cfg_database c) (cfg_password c) (cfg_application_name c)
    (cfg_connect_timeout c) (cfg_tls_mode c) b (cfg_tls_server_name c)
    (cfg_tls_root_cert_path c).
Definition set_tls_server_name (n : str) (c : Config) : Config :=
  mk_config (host c) (port c) (cfg_user c) (cfg_database c) (cfg_password c) (cfg_application_name c)
    (cfg_connect_timeout c) (cfg_tls_mode c) (cfg_tls_backend c) (Some n)
    (cfg_tls_root_cert_path c).
Definition set_tls_root_cert_path (p : str) (c : Config) : Config :=
  mk_config (host c) (port c) (cfg_user c) (cfg_database c) (cfg_password c) (cfg_application_name c)
    (cfg_connect_timeout c) (cfg_tls_mode c) (cfg_tls_backend c) (cfg_tls_server_name c)
    (Some p).

Definition host_str (c : Config) : str := match host c with Name s | Addr s => s end.

(** ** DER *)
Abbreviation Tlv := (bytes * bytes)%type.

Definition truncated : Error := Error.Config "malformed TLS certificate: truncated DER".
Definition too_long : Error := Error.Config "malformed TLS certificate: DER length exceeds input".

(** [usize] is 64 bits wide; at most eight octets are shifted in. *)
Definition size_of_usize : Z := 8.

Definition read_len (input : bytes) : result Error (Z * bytes) :=
  match input with
  | [] => Err (Error.Config "malformed TLS certificate: truncated DER length")
  | first :: rest =>
    if Z.land (u8_of first) 128 =? 0 then Ok (u8_of first, rest)
    else
      let octets := Z.land (u8_of first) 127 in
      if (octets =? 0) || (size_of_usize <? octets) || (Z.of_nat (length rest) <? octets)
      then Err (Error.Config "malformed TLS certificate: invalid DER length")
      else
        let n := Z.to_nat octets in
        Ok (fold_left (λ len b, Z.lor (wrap_uint 64 (Z.shiftl len 8)) (u8_of b)) (take n rest) 0,
            drop n rest)
  end.

(** [split_at] after its bounds check. *)
Definition split_body (len : Z) (body_start : bytes) : result Error Tlv :=
  if Z.of_nat (length body_start) <? len then Err too_long
  else Ok (take (Z.to_nat len) body_start, drop (Z.to_nat len) body_start).

Definition read_any (input : bytes) : result Error Tlv :=
  match input with
  | [] => Err truncated
  | _ :: rest => '(len, body_start) ← read_len rest; split_body len body_start
  end.

Definition read_tlv (input : bytes) (expected_tag : byte) : result Error Tlv :=
  match input with
  | [] => Err truncated
  | tag :: rest =>
    if decide (tag = expected_tag) then '(len, body_start) ← read_len rest; split_body len body_start
    else Err (Error.Config ("malformed TLS certificate: expected tag 0x" ++ hex2 expected_tag
                      ++ ", got 0x" ++ hex2 tag))
  end.

Definition certificate_signature_algorithm_oid (cert_der : bytes) : result Error bytes :=
  '(cert, _) ← read_tlv cert_der x30;
  '(_, after_tbs) ← read_any cert;
  '(algorithm, _) ← read_tlv after_tbs x30;
  '(oid, _) ← read_tlv algorithm x06;
  Ok oid.

(** ** Signature algorithms *)
Inductive CertDigest := Sha224 | Sha256 | Sha384 | Sha512.

Definition matches_any (oid : bytes) (candidates : list bytes) : bool := bool_decide (oid ∈ candidates).

Definition rsa (n : byte) : bytes := [x2a; x86; x48; x86; xf7; x0d; x01; x01; n].
Definition ecdsa (l : bytes) : bytes := [x2a; x86; x48; xce; x3d; x04] ++ l.
Definition dsa_sha2 (n : byte) : bytes := [x60; x86; x48; x01; x65; x03; x04; x03; n].

Definition certificate_signature_digest (oid : bytes) : option CertDigest :=
  if matches_any oid
       [rsa x04; rsa x05; [x2a; x86; x48; xce; x38; x04; x03]; ecdsa [x01];
        rsa x0b; dsa_sha2 x02; ecdsa [x03; x02]] then Some Sha256
  else if matches_any oid [rsa x0e; dsa_sha2 x01; ecdsa [x03; x01]] then Some Sha224
  else if matches_any oid [rsa x0c; ecdsa [x03; x03]] then Some Sha384
  else if matches_any oid [rsa x0d; ecdsa [x03; x04]] then Some Sha512
  else None.

(** One step of the arc loop of [format_oid]; [value] is a [u32]. *)
Definition oid_arc (acc : list Z * Z) (b : byte) : list Z * Z :=
  let '(parts, value) := acc in
  let value := Z.lor (wrap_uint 32 (Z.shiftl value 7)) (Z.land (u8_of b) 127) in
  if Z.land (u8_of b) 128 =? 0 then (parts ++ [value], 0) else (parts, value).

Definition format_oid (oid : bytes) : str :=
  match oid with
  | [] => "<empty>"
  | first :: rest =>
    let '(parts, _) := fold_left oid_arc rest ([u8_of first / 40; u8_of first mod 40], 0) in
    join "." (map dec parts)
  end.

(** ** Channel binding *)
Inductive ChannelBindingState :=
  | Unavailable
  | Failed (reason : str)
  | Available (binding : ChannelBinding).

Class CertHash := { cert_digest : CertDigest → bytes → bytes }.

Definition server_end_point `{CertHash} (cert_der : bytes) : result Error ChannelBinding :=
  oid ← certificate_signature_algorithm_oid cert_der;
  match certificate_signature_digest oid with
  | Some d => Ok (tls_server_end_point (cert_digest d cert_der))
  | None => Err (Error.Config ("unsupported TLS certificate signature algorithm OID for SCRAM channel binding: "
                         ++ format_oid oid))
  end.

(** What the two [upgrade_*] functions make of the peer's first certificate. *)
Definition channel_binding_of `{CertHash} (peer_cert : option bytes) : ChannelBindingState :=
  match server_end_point <$> peer_cert with
  | Some (Ok binding) => Available binding
  | None => Unavailable
  | Some (Err e) => Failed (Error_display e)
  end.

(** ** Negotiation *)
Definition SSL_REQUEST_CODE : Z := 80877103.
Definition ssl_request : bytes := to_be_bytes 4 8 ++ to_be_bytes 4 SSL_REQUEST_CODE.

Definition tls_name (c : Config) : result Error str :=
  match cfg_tls_server_name c with
  | Some n => Ok n
  | None =>
    match host c with
    | Name n => Ok n
    | Addr _ => Err (Error.Config "TLS connections by IP require Config::tls_server_name(...)")
    end
  end.

(** [stream] is the transport; [plain] and [upgrade] build the two kinds of connection. *)
Section negotiate.
Context {Stream : Type}.
Variable plain : Stream.
Variable upgrade_stream : Config → result Error Stream.

(** What [negotiate_tls] does with the one byte the server answers. *)
Definition negotiate_tls (c : Config) (response : byte) : result Error Stream :=
  if byte_is response 83 then upgrade_stream c
  else if byte_is response 78 then
    if bool_decide (cfg_tls_mode c = Prefer) then Ok plain
    else Err (Error.Config "server refused TLS but Config requires it")
  else Err (protocol ("unexpected SSL negotiation response byte " ++ dec (u8_of response))).

(** [connect_transport] once the TCP connection is up: [response] is what the server answers to
    [SSLRequest], which is only sent when TLS is asked for. *)
Definition connect_transport (c : Config) (response : result Error byte) : result Error Stream :=
  match cfg_tls_mode c with
  | Disable => Ok plain
  | Prefer | Require_ => response ≫= negotiate_tls c
  end.
End negotiate.

(** ** The DER reader reads what DER writes *)

(** A definite-length encoding: the short form, or the long form in [k] octets. *)
Inductive der_len : Z → bytes → Prop :=
  | der_short n : 0 ≤ n < 128 → der_len n [byte_of n]
  | der_long k n : (1 ≤ k ≤ 8)%nat → in_uint (8 * Z.of_nat k) n →
      der_len n (byte_of (128 + Z.of_nat k) :: to_be_bytes k n).

Inductive tlv (tag : byte) (body : bytes) : bytes → Prop :=
  | tlv_intro len : der_len (Z.of_nat (length body)) len → tlv tag body (tag :: len ++ body).

(** The shape of an X.509 certificate, as far as the reader looks. *)
Inductive certificate (oid : bytes) : bytes → Prop :=
  | certificate_intro t tbs tbs_enc oid_enc params alg_enc sig cert trailing :
      tlv t tbs tbs_enc → tlv x06 oid oid_enc → tlv x30 (oid_enc ++ params) alg_enc →
      tlv x30 (tbs_enc ++ alg_enc ++ sig) cert → certificate oid (cert ++ trailing).

Lemma from_be_u_snoc l b : from_be_u (l ++ [b]) = Z.lor (Z.shiftl (from_be_u l) 8) (u8_of b).
Proof.
  unfold from_be_u. rewrite reverse_snoc. cbn [LittleEndianList.le_combine]. apply Z.lor_comm.
Qed.

Lemma read_len_fold l :
  (length l ≤ 8)%nat →
  fold_left (λ len b, Z.lor (wrap_uint 64 (Z.shiftl len 8)) (u8_of b)) l 0 = from_be_u l.
Proof.
  induction l as [|b l IH] using rev_ind; [done|].
  rewrite length_app. cbn [length]. intros Hl.
  rewrite fold_left_app. cbn [fold_left]. rewrite IH by lia. rewrite from_be_u_snoc.
  rewrite wrap_uint_id; [done|]. pose proof (from_be_u_range l) as [Hlo Hhi].
  rewrite Z.shiftl_mul_pow2 by lia. split; [lia|].
  apply Z.lt_le_trans with (2 ^ (8 * Z.of_nat (length l)) * 2 ^ 8); [lia|].
  rewrite <- Z.pow_add_r by lia. apply Z.pow_le_mono_r; lia.
Qed.

Lemma land_128 n : 0 ≤ n < 128 → Z.land n 128 = 0.
Proof.
  intros Hn. apply Z.bits_inj'. intros i Hi. rewrite Z.land_spec, Z.bits_0.
  change 128 with (2 ^ 7). rewrite Z.pow2_bits_eqb by lia.
  destruct (Z.eqb_spec 7 i) as [<-|]; [|by rewrite andb_false_r].
  rewrite andb_true_r. destruct (Z.eq_dec n 0) as [->|]; [done|].
  apply Z.bits_above_log2; [lia|]. apply Z.log2_lt_pow2; lia.
Qed.

Lemma read_len_der n len rest : der_len n len → read_len (len ++ rest) = Ok (n, rest).
Proof.
  destruct 1 as [n Hn|k n Hk Hn]; cbn [app read_len].
  { rewrite u8_of_byte_of by lia. by rewrite land_128. }
  rewrite u8_of_byte_of by lia.
  assert (Z.land (128 + Z.of_nat k) 128 = 128 ∧ Z.land (128 + Z.of_nat k) 127 = Z.of_nat k) as [-> ->].
  { destruct k as [|[|[|[|[|[|[|[|[|k]]]]]]]]]; try lia; done. }
  cbn [Z.eqb]. rewrite length_app, length_to_be_bytes.
  rewrite (proj2 (Z.eqb_neq (Z.of_nat k) 0)), (proj2 (Z.ltb_ge _ _)), (proj2 (Z.ltb_ge _ _))
    by (unfold size_of_usize; lia).
  cbn [orb]. rewrite Nat2Z.id, take_app_exact, drop_app_exact by auto with babar.
  rewrite read_len_fold by (rewrite length_to_be_bytes; lia).
  by rewrite from_be_u_to_be, wrap_uint_id.
Qed.

Lemma split_body_app body rest :
  split_body (Z.of_nat (length body)) (body ++ rest) = Ok (body, rest).
Proof.
  unfold split_body. rewrite length_app, (proj2 (Z.ltb_ge _ _)) by lia.
  by rewrite Nat2Z.id, take_app_length, drop_app_length.
Qed.

Lemma read_tlv_tlv tag body enc rest : tlv tag body enc → read_tlv (enc ++ rest) tag = Ok (body, rest).
Proof.
  destruct 1 as [len Hlen]. cbn [app read_tlv]. rewrite decide_True by done.
  rewrite <- app_assoc, (read_len_der _ _ _ Hlen). cbn [mbind result_bind]. apply split_body_app.
Qed.

Lemma read_any_tlv tag body enc rest : tlv tag body enc → read_any (enc ++ rest) = Ok (body, rest).
Proof.
  destruct 1 as [len Hlen]. cbn [app read_any].
  rewrite <- app_assoc, (read_len_der _ _ _ Hlen). cbn [mbind result_bind]. apply split_body_app.
Qed.

(** Whatever the readers return is a split of the input. *)
Lemma read_tlv_suffix input tag body rest :
  read_tlv input tag = Ok (body, rest) → ∃ header, input = header ++ body ++ rest.
Proof.
  destruct input as [|t r]; [done|]. cbn [read_tlv]. case_decide; [|done].
  intros ([len b0] & Hl & Hb)%result_bind_Ok. unfold split_body in Hb. case_match; [done|].
  injection Hb as <- <-. rewrite take_drop.
  assert (∃ h, r = h ++ b0) as (h & ->); [|by exists (t :: h)].
  unfold read_len in Hl. destruct r as [|f r]; [done|].
  case_match; [injection Hl as _ <-; by exists [f]|]. case_match; [done|].
  injection Hl as _ <-. exists (f :: take (Z.to_nat (Z.land (u8_of f) 127)) r). cbn. by rewrite take_drop.
Qed.

(** the SCRAM channel binding reads the right field: of any certificate laid out as X.509
    prescribes (any length forms, any signed part, parameters and signature, any trailing
    bytes), the reader returns exactly the OID of the signature algorithm; and the binding is
    the hash RFC 5929 names for it. *)
Theorem channel_binding_of_certificate `{CertHash} oid cert d :
  certificate oid cert → certificate_signature_digest oid = Some d →
  certificate_signature_algorithm_oid cert = Ok oid
  ∧ channel_binding_of (Some cert) = Available (tls_server_end_point (cert_digest d cert)).
Proof.
  intros Hcert Hd.
  assert (certificate_signature_algorithm_oid cert = Ok oid) as Hoid.
  { destruct Hcert as [t tbs tbs_enc oid_enc params alg_enc sig cert trailing Ht Ho Ha Hc].
    unfold certificate_signature_algorithm_oid.
    rewrite (read_tlv_tlv _ _ _ _ Hc). cbn [mbind result_bind].
    rewrite (read_any_tlv _ _ _ _ Ht). cbn [mbind result_bind].
    rewrite (read_tlv_tlv _ _ _ _ Ha). cbn [mbind result_bind].
    by rewrite (read_tlv_tlv _ _ _ _ Ho). }
  split; [done|]. unfold channel_binding_of. cbn. unfold server_end_point.
  by rewrite Hoid; cbn; rewrite Hd.
Qed.


Definition sample_certificate : bytes :=
  [x30; x13; x30; x02; x01; x02; x30; x0b; x06; x09; x2a; x86; x48; x86; xf7; x0d; x01; x01; x0b;
   x03; x00].

#[local] Instance toy_cert_hash : CertHash := { cert_digest d b := take 4 b }.

Lemma channel_binding_of_certificate_witness :
  certificate_signature_algorithm_oid sample_certificate = Ok (rsa x0b)
  ∧ channel_binding_of (Some sample_certificate)
    = Available (mk_binding TlsServerEndPoint [x30; x13; x30; x02]).
Proof.
  apply (channel_binding_of_certificate (H := toy_cert_hash) (rsa x0b) sample_certificate Sha256); [|vm_compute; reflexivity].
  refine (certificate_intro (rsa x0b) x30 [x01; x02] [x30; x02; x01; x02]
    [x06; x09; x2a; x86; x48; x86; xf7; x0d; x01; x01; x0b] []
    [x30; x0b; x06; x09; x2a; x86; x48; x86; xf7; x0d; x01; x01; x0b] [x03; x00]
    sample_certificate [] _ _ _ _).
  - refine (tlv_intro x30 [x01; x02] [x02] _). apply (der_short 2). lia.
  - refine (tlv_intro x06 (rsa x0b) [x09] _). apply (der_short 9). lia.
  - refine (tlv_intro x30 ([x06; x09] ++ rsa x0b) [x0b] _). apply (der_short 11). lia.
  - refine (tlv_intro x30 [x30; x02; x01; x02; x30; x0b; x06; x09; x2a; x86; x48; x86; xf7; x0d;
      x01; x01; x0b; x03; x00] [x13] _). apply (der_short 19). lia.
Defined.

