(* ===== verification/Startup.v ===== *)
(** * Connection startup and authentication

    [crates/core/src/session/startup.rs]: the sequential conversation from the startup message
    to the first [ReadyForQuery], on the connection [connect_transport] returned.

    The read half of the socket is the list of what its successive reads return; a read of no
    bytes, or no read left, is end of file.  The random generator is a sequence of draws. *)
From S2P Require Import Prelude Bytes Text Error Backend Frontend Driver Scram Tls.

Local Open Scope Z_scope.
Local Open Scope str_scope.

(** ** Reading messages: [StartupIo::read_message] *)
Abbreviation Reads := (list (result str bytes)).

Fixpoint next_message (rx : bytes) (reads : Reads) : result Error BackendMessage * bytes * Reads :=
  match decode rx with
  | (Ok (Some m), rx) => (Ok m, rx, reads)
  | (Err e, rx) => (Err e, rx, reads)
  | (Ok None, rx) =>
    match reads with
    | [] => (Err closed, rx, [])
    | Err e :: reads => (Err (Io e), rx, reads)
    | Ok [] :: reads => (Err closed, rx, reads)
    | Ok chunk :: reads => next_message (rx ++ chunk) reads
    end
  end.

Section startup.
Context `{FrontendApi} `{Transport} `{Crypto}.

(** [{msg:?}]: the derived [Debug] rendering of a message, only used inside error texts. *)
Variable debug_message : BackendMessage → str.

(** The random generator: the bytes of its [n]th draw. *)
Variable rng : nat → bytes.

Record StartupIo := mk_io {
  io_sock : Socket;
  io_reads : Reads;
  rx_buf : bytes;
  tx_buf : bytes;
  io_binding : ChannelBindingState;
  io_draws : nat;
}.

Abbreviation IO := (SE StartupIo Error).

Definition io_read_message : IO BackendMessage := λ io,
  let '(r, rx, reads) := next_message (rx_buf io) (io_reads io) in
  (r, mk_io (io_sock io) reads rx (tx_buf io) (io_binding io) (io_draws io)).

Definition io_flush : IO unit := λ io,
  match write_all (tx_buf io) (io_sock io) with
  | (Ok _, s) => (Ok tt, mk_io s (io_reads io) (rx_buf io) [] (io_binding io) (io_draws io))
  | (Err e, s) => (Err (Io e), mk_io s (io_reads io) (rx_buf io) (tx_buf io) (io_binding io) (io_draws io))
  end.

(** [io.tx_buf.clear()] and a message writer. *)
Definition io_write (w : Writer Error) : IO unit := λ io,
  let '(r, b) := w [] in
  (r, mk_io (io_sock io) (io_reads io) (rx_buf io) b (io_binding io) (io_draws io)).

Definition io_send (w : Writer Error) : IO unit := io_write w;; io_flush.

(** [rand::thread_rng().fill_bytes] *)
Definition io_draw : IO bytes := λ io,
  (Ok (rng (io_draws io)),
   mk_io (io_sock io) (io_reads io) (rx_buf io) (tx_buf io) (io_binding io) (S (io_draws io))).
Definition io_get_binding : IO ChannelBindingState := λ io, (Ok (io_binding io), io).

(** ** Choosing the SCRAM mechanism *)
Definition select_scram_client (mechanisms : list str) (binding : ChannelBindingState)
    (pw : str) : result Error ScramClient :=
  if bool_decide (SCRAM_SHA_256_PLUS ∈ mechanisms) then
    match binding with
    | Available b => Ok (mk_client pw (Some b))
    | Unavailable => Err (UnsupportedAuth
        "server offered SCRAM-SHA-256-PLUS but TLS channel binding data is unavailable")
    | Failed reason => Err (UnsupportedAuth
        ("server offered SCRAM-SHA-256-PLUS but channel binding setup failed: " ++ reason))
    end
  else if bool_decide (SCRAM_SHA_256 ∈ mechanisms) then Ok (ScramClient_new pw)
  else Err (UnsupportedAuth
    ("server offered [" ++ join ", " (map debug_str mechanisms)
     ++ "]; only SCRAM-SHA-256 and SCRAM-SHA-256-PLUS are supported")).

(** ** [authenticate] *)

(** The SASL conversation inside one round of the loop. *)
Definition sasl_exchange (pw : str) (mechanisms : list str) : IO unit :=
  binding ← io_get_binding;
  scram ← lift (select_scram_client mechanisms binding pw);
  nonce ← io_draw;
  let client_first := start_with_nonce scram nonce in
  io_send (sasl_initial_response (cf_mechanism_name client_first) (cf_message client_first));;
  msg ← io_read_message;
  server_first ← lift match msg with
                      | Authentication (SaslContinue data) => Ok data
                      | ErrorResponse fields => Err (from_server_fields fields)
                      | other => Err (protocol ("expected SASLContinue, got " ++ debug_message other))
                      end;
  client_final ← lift (handle_server_first client_first server_first);
  io_send (sasl_response (message client_final));;
  msg ← io_read_message;
  server_final ← lift match msg with
                      | Authentication (SaslFinal data) => Ok data
                      | ErrorResponse fields => Err (from_server_fields fields)
                      | other => Err (protocol ("expected SASLFinal, got " ++ debug_message other))
                      end;
  lift (verify_server_final client_final server_final).

Definition need_password (c : Config) (why : str) : result Error str :=
  ok_or (cfg_password c) (Auth why).

(** One round: [true] when the server has accepted. *)
Definition auth_round (c : Config) : IO bool :=
  msg ← io_read_message;
  match msg with
  | Authentication AuthOk => mret true
  | Authentication CleartextPassword =>
    pw ← lift (need_password c
                 "server requested cleartext password but no password configured");
    io_send (password_message pw);; mret false
  | Authentication (Md5Password salt) =>
    pw ← lift (need_password c "server requested MD5 password but no password configured");
    io_send (password_message (md5_password (cfg_user c) pw salt));; mret false
  | Authentication (SaslMechanisms mechanisms) =>
    pw ← lift (need_password c "server requested SCRAM auth but no password configured");
    sasl_exchange pw mechanisms;; mret false
  | Authentication (Unsupported code) => throw (UnsupportedAuth ("auth code " ++ dec code))
  | Authentication (SaslContinue _) | Authentication (SaslFinal _) =>
    throw (protocol "unsolicited SASL message during initial auth")
  | ErrorResponse fields => throw (from_server_fields fields)
  | ParameterStatus _ _ | NoticeResponse _ => mret false
  | other => throw (protocol ("unexpected message during auth: " ++ debug_message other))
  end.

(** A [loop]: [None] only when the fuel runs out. *)
Fixpoint io_loop {A} (fuel : nat) (round : A → IO (A + A)) (a : A) (io : StartupIo)
  : option (result Error A * StartupIo) :=
  match fuel with
  | O => None
  | S fuel =>
    match round a io with
    | (Err e, io) => Some (Err e, io)
    | (Ok (inr a), io) => Some (Ok a, io)
    | (Ok (inl a), io) => io_loop fuel round a io
    end
  end.

(** Every round reads a message, and a message is at least five bytes of the input. *)
Definition input_left (io : StartupIo) : nat :=
  length (rx_buf io) + length (concat (map (λ r, match r with Ok b => b | Err _ => [] end) (io_reads io))).

Definition authenticate (c : Config) (io : StartupIo) : option (result Error unit * StartupIo) :=
  io_loop (S (input_left io))
    (λ _, done ← auth_round c; mret (if done : bool then inr tt else inl tt)) tt io.

(** ** After authentication *)
Record ServerInfo := mk_info {
  server_params : gmap str str;
  key_data : option (Z * Z);
}.

Definition startup_round (acc : ServerInfo * option byte) : IO ((ServerInfo * option byte) + (ServerInfo * option byte)) :=
  let '(info, _) := acc in
  msg ← io_read_message;
  match msg with
  | ParameterStatus name value =>
      mret (inl (mk_info (<[name := value]> (server_params info)) (key_data info), None))
  | BackendKeyData pid key => mret (inl (mk_info (server_params info) (Some (pid, key)), None))
  | NoticeResponse _ => mret (inl (info, None))
  | ReadyForQuery status => mret (inr (info, Some status))
  | ErrorResponse fields => throw (from_server_fields fields)
  | other => throw (protocol ("unexpected message after auth: " ++ debug_message other))
  end.

Definition collect (io : StartupIo) : option (result Error (ServerInfo * option byte) * StartupIo) :=
  io_loop (S (input_left io)) startup_round (mk_info ∅ None, None) io.

Definition startup_params (c : Config) : list (str * str) :=
  [("user"%s, cfg_user c); ("database"%s, cfg_database c); ("client_encoding"%s, "UTF8"%s)]
  ++ match cfg_application_name c with Some app => [("application_name"%s, app)] | None => [] end.

(** [connect], on the transport [io]; the result is what the driver is spawned with. *)
Definition connect (c : Config) (io : StartupIo)
  : option (result Error (ServerInfo * option byte) * StartupIo) :=
  match (io_send (startup (startup_params c))) io with
  | (Err e, io) => Some (Err e, io)
  | (Ok _, io) =>
    match authenticate c io with
    | None => None
    | Some (Err e, io) => Some (Err e, io)
    | Some (Ok _, io) => collect io
    end
  end.
End startup.

(** ** Reading does not depend on segmentation *)
Definition chunk_bytes (r : result str bytes) : bytes := match r with Ok b => b | Err _ => [] end.
Definition payload (reads : Reads) : bytes := concat (map chunk_bytes reads).

(** Reads that all deliver something. *)
Definition live (reads : Reads) : Prop := Forall (λ r, ∃ b bs, r = Ok (b :: bs)) reads.

Lemma next_message_frame m rx reads rest :
  sendable m → live reads → rx ++ payload reads = encode_message m ++ rest →
  ∃ rx' reads', next_message rx reads = (Ok m, rx', reads') ∧ live reads'
    ∧ rx' ++ payload reads' = rest.
Proof.
  intros Hm Hlive. pose proof (decode_encode m rest Hm) as Hd.
  revert rx. induction Hlive as [|r reads (b & bs & ->) Hlive IH]; intros rx Heq.
  - unfold payload in Heq. cbn [map concat] in Heq. rewrite app_nil_r in Heq. subst rx.
    cbn [next_message]. rewrite Hd. exists rest, []. split; [done|]. split; [constructor|]. apply app_nil_r.
  - cbn [next_message]. destruct (decode rx) as [[[m'|]|e] rx'] eqn:Hrx.
    + pose proof (decode_app _ (payload (Ok (b :: bs) :: reads)) _ _ Hrx ltac:(done)) as Ha.
      rewrite Heq, Hd in Ha. injection Ha as -> ->.
      eexists _, _. split; [done|]. split; [constructor; eauto | done].
    + assert (rx' = rx) as ->.
      { destruct (decode_cases rx) as [[Hc _]|[(e & Hc & _)|(n & r & r' & _ & _ & _ & _ & Hc)]];
          [congruence..|]. specialize (Hc []). rewrite !app_nil_r, Hrx in Hc. by destruct r'. }
      apply IH. rewrite <- app_assoc. exact Heq.
    + pose proof (decode_app _ (payload (Ok (b :: bs) :: reads)) _ _ Hrx ltac:(done)) as Ha.
      by rewrite Heq, Hd in Ha.
Qed.

Lemma next_message_shrinks rx reads m rx' reads' :
  next_message rx reads = (Ok m, rx', reads') →
  (length rx' + length (payload reads') < length rx + length (payload reads))%nat.
Proof.
  revert rx. induction reads as [|r reads IH]; intros rx; cbn [next_message];
    destruct (decode rx) as [[[m'|]|e] rx1] eqn:Hd; try done;
    try (intros [= _ <- <-]; apply decode_shrinks in Hd; lia).
  destruct r as [[|b bs]|e]; [done| |done]. intros Hn%IH.
  assert (rx1 = rx) as ->.
  { destruct (decode_cases rx) as [[Hc _]|[(e & Hc & _)|(n & r & r' & _ & _ & _ & _ & Hc)]];
      [congruence..|]. specialize (Hc []). rewrite !app_nil_r, Hd in Hc. by destruct r'. }
  unfold payload in *. cbn. rewrite !length_app in *. cbn in Hn. lia.
Qed.

(** ** Termination *)
Section total.
Context `{FrontendApi} `{Transport} `{Crypto}.
Context (debug_message : BackendMessage → str) (rng : nat → bytes).

(** A computation that consumes no more input than it had, and at least [n] bytes. *)
Definition consumes {A} (n : nat) (m : SE StartupIo Error A) : Prop :=
  ∀ io a io', m io = (Ok a, io') → (input_left io' + n ≤ input_left io)%nat.

Lemma consumes_bind {A B} n1 n2 (m : SE StartupIo Error A) (k : A → SE StartupIo Error B) :
  consumes n1 m → (∀ a, consumes n2 (k a)) → consumes (n1 + n2) (m ≫= k).
Proof.
  intros Hm Hk io b io' (a & io1 & Hr1%Hm & Hr2%Hk)%se_bind_inv. lia.
Qed.

Lemma consumes_weaken {A} n1 n2 (m : SE StartupIo Error A) :
  consumes n1 m → (n2 ≤ n1)%nat → consumes n2 m.
Proof. intros Hm Hn io a io' ?%Hm. lia. Qed.

Lemma consumes_read : consumes 1 io_read_message.
Proof.
  intros io m io'. unfold io_read_message.
  destruct (next_message _ _) as [[r rx] reads] eqn:E. intros [= -> <-].
  apply next_message_shrinks in E. unfold input_left, payload, chunk_bytes in *. cbn. lia.
Qed.

Lemma consumes_send w : consumes 0 (io_send w).
Proof.
  apply (consumes_bind 0 0).
  - intros io a io'. unfold io_write. destruct (w []). intros [= _ <-]. unfold input_left. cbn. lia.
  - intros _ io a io'. unfold io_flush. destruct (write_all _ _) as [[]]; intros [= _ <-].
    unfold input_left. cbn. lia.
Qed.

Lemma consumes_lift {A} (r : result Error A) : consumes 0 (lift r).
Proof. intros io a io' [= _ ->]. lia. Qed.
Lemma consumes_throw {A} n (e : Error) : consumes (A := A) n (throw e).
Proof. by intros io a io' [=]. Qed.
Lemma consumes_ret {A} (a : A) : consumes 0 (mret a).
Proof. intros io b io' [= _ ->]. lia. Qed.

Lemma consumes_sasl pw ms : consumes 0 (sasl_exchange debug_message rng pw ms).
Proof.
  unfold sasl_exchange.
  apply (consumes_bind 0 0); [by intros io a io' [= _ ->]; lia|]. intros binding.
  apply (consumes_bind 0 0); [apply consumes_lift|]. intros scram.
  apply (consumes_bind 0 0); [intros io a io' [= _ <-]; unfold input_left; cbn; lia|]. intros nonce.
  apply (consumes_bind 0 0); [apply consumes_send|]. intros _.
  apply (consumes_bind 0 0); [eapply consumes_weaken; [apply consumes_read | lia]|]. intros m1.
  apply (consumes_bind 0 0); [apply consumes_lift|]. intros sf.
  apply (consumes_bind 0 0); [apply consumes_lift|]. intros cf.
  apply (consumes_bind 0 0); [apply consumes_send|]. intros _.
  apply (consumes_bind 0 0); [eapply consumes_weaken; [apply consumes_read | lia]|]. intros m2.
  apply (consumes_bind 0 0); [apply consumes_lift|]. intros fin. apply consumes_lift.
Qed.

Lemma consumes_auth_round c : consumes 1 (auth_round debug_message rng c).
Proof.
  apply (consumes_bind 1 0); [apply consumes_read|]. intros m.
  destruct m as [[]|?|?|?|?|?|?|?| |?|?| | | | |?| |?];
    try apply consumes_throw; try apply consumes_ret;
    apply (consumes_bind 0 0); try apply consumes_lift; intros pw;
    (apply (consumes_bind 0 0); [first [apply consumes_send | apply consumes_sasl] | intros _; apply consumes_ret]).
Qed.

Lemma io_loop_total {A} fuel (round : A → SE StartupIo Error (A + A)) a io :
  (∀ a, consumes 1 (round a)) → (input_left io < fuel)%nat →
  ∃ r io', io_loop fuel round a io = Some (r, io').
Proof.
  intros Hr. revert a io. induction fuel as [|fuel IH]; intros a io Hlt; [lia|].
  cbn. destruct (round a io) as [[[a'|a']|e] io1] eqn:E; [|eauto..].
  apply Hr in E. apply IH. lia.
Qed.

Lemma authenticate_total c io : ∃ r io', authenticate debug_message rng c io = Some (r, io').
Proof.
  apply io_loop_total; [|lia]. intros _.
  apply (consumes_bind 1 0); [apply consumes_auth_round|]. intros ?. apply consumes_ret.
Qed.

Lemma collect_total io : ∃ r io', collect debug_message io = Some (r, io').
Proof.
  apply io_loop_total; [|lia]. intros [info o].
  apply (consumes_bind 1 0); [apply consumes_read|]. intros m.
  destruct m; try apply consumes_throw; apply consumes_ret.
Qed.

(** startup terminates: on every configuration and every input, however long a server keeps
    the conversation going, the loops of [connect] end (with a result or an error), because
    every round consumes a message. *)
Theorem connect_total c io : ∃ r io', connect debug_message rng c io = Some (r, io').
Proof.
  unfold connect. destruct (io_send _ io) as [[[]|e] io1]; [|eauto].
  destruct (authenticate_total c io1) as ([[]|e] & io2 & ->); [apply collect_total | eauto].
Qed.
End total.


(** ** What startup achieves *)
Section handshake.
Context `{FrontendApi} `{Transport} `{CryptoLaws}.
Context (debug_message : BackendMessage → str) (rng : nat → bytes).


(** The input still to come is the byte string [bs]. *)
Definition delivers (io : StartupIo) (bs : bytes) : Prop :=
  live (io_reads io) ∧ rx_buf io ++ payload (io_reads io) = bs.

Definition with_input (io : StartupIo) rx reads : StartupIo :=
  mk_io (io_sock io) reads rx (tx_buf io) (io_binding io) (io_draws io).

Lemma io_read_delivered m io rest :
  sendable m → delivers io (encode_message m ++ rest) →
  ∃ rx reads, io_read_message io = (Ok m, with_input io rx reads)
    ∧ delivers (with_input io rx reads) rest.
Proof.
  intros Hm [Hl Hb]. destruct (next_message_frame m _ _ rest Hm Hl Hb) as (rx & reads & Hn & Hl' & Hb').
  exists rx, reads. split; [|done]. unfold io_read_message. by rewrite Hn.
Qed.

Lemma io_send_ok w b s io :
  w [] = (Ok tt, b) → write_all b (io_sock io) = (Ok tt, s) →
  io_send w io = (Ok tt, mk_io s (io_reads io) (rx_buf io) [] (io_binding io) (io_draws io)).
Proof.
  intros Hw Hs. unfold io_send, mbind, se_bind, io_write, io_flush. rewrite Hw. cbn. by rewrite Hs.
Qed.

(** The server's description of itself, as reported between authentication and
    [ReadyForQuery]: for each parameter and for the key data, the last report counts. *)
Definition informational (m : BackendMessage) : bool :=
  match m with ParameterStatus _ _ | BackendKeyData _ _ | NoticeResponse _ => true | _ => false end.

Definition status_value (name : str) (m : BackendMessage) : option str :=
  match m with ParameterStatus n v => if decide (n = name) then Some v else None | _ => None end.
Definition key_data_value (m : BackendMessage) : option (Z * Z) :=
  match m with BackendKeyData p k => Some (p, k) | _ => None end.

Definition describes (ms : list BackendMessage) (info : ServerInfo) : Prop :=
  (∀ name, server_params info !! name = last (omap (status_value name) ms))
  ∧ key_data info = last (omap key_data_value ms).

Definition note_info (info : ServerInfo) (m : BackendMessage) : ServerInfo :=
  match m with
  | ParameterStatus n v => mk_info (<[n := v]> (server_params info)) (key_data info)
  | BackendKeyData p k => mk_info (server_params info) (Some (p, k))
  | _ => info
  end.

Lemma describes_snoc ms m info : describes ms info → describes (ms ++ [m]) (note_info info m).
Proof.
  intros [Hp Hk]. split.
  - intros name. rewrite omap_app. destruct m; cbn; rewrite ?app_nil_r; try apply Hp.
    case_decide as Hn; [subst; by rewrite lookup_insert_eq, last_snoc|].
    by rewrite lookup_insert_ne, app_nil_r by done.
  - rewrite omap_app. destruct m; cbn; rewrite ?app_nil_r, ?last_snoc; done.
Qed.

Lemma collect_loop infos : ∀ ms0 info st rest io fuel,
  Forall informational infos → Forall sendable infos → sendable (ReadyForQuery st) →
  delivers io (concat (map encode_message infos) ++ encode_message (ReadyForQuery st) ++ rest) →
  describes ms0 info → (input_left io < fuel)%nat →
  ∃ info' rx reads, io_loop fuel (startup_round debug_message) (info, None) io
    = Some (Ok (info', Some st), with_input io rx reads)
    ∧ delivers (with_input io rx reads) rest ∧ describes (ms0 ++ infos) info'.
Proof.
  induction infos as [|m infos IH]; intros ms0 info st rest io fuel Hi Hs Hrfq Hd Hdesc Hfuel;
    (destruct fuel as [|fuel]; [lia|]); cbn [io_loop].
  - destruct (io_read_delivered _ _ _ Hrfq Hd) as (rx & reads & Hread & Hd').
    unfold startup_round. rewrite (se_bind_Ok _ _ _ _ _ Hread). cbn.
    exists info, rx, reads. by rewrite app_nil_r.
  - apply Forall_cons in Hi as [Him Hi]. apply Forall_cons in Hs as [Hsm Hs].
    cbn [map concat] in Hd. rewrite <- app_assoc in Hd.
    destruct (io_read_delivered _ _ _ Hsm Hd) as (rx & reads & Hread & Hd').
    pose proof (consumes_read _ _ _ Hread) as Hc.
    assert (startup_round debug_message (info, None) io
      = (Ok (inl (note_info info m, None)), with_input io rx reads)) as ->.
    { unfold startup_round. rewrite (se_bind_Ok _ _ _ _ _ Hread). by destruct m. }
    destruct (IH (ms0 ++ [m]) (note_info info m) st rest (with_input io rx reads) fuel)
      as (info' & rx' & reads' & Hrun & Hd'' & Hdesc'); try done.
    { by apply describes_snoc. }
    { lia. }
    exists info', rx', reads'. rewrite <- app_assoc in Hdesc'. done.
Qed.

Lemma collect_describes infos st rest io :
  Forall informational infos → Forall sendable infos → sendable (ReadyForQuery st) →
  delivers io (concat (map encode_message infos) ++ encode_message (ReadyForQuery st) ++ rest) →
  ∃ info rx reads, collect debug_message io = Some (Ok (info, Some st), with_input io rx reads)
    ∧ delivers (with_input io rx reads) rest ∧ describes infos info.
Proof.
  intros Hi Hs Hr Hd. apply (collect_loop infos [] _ st rest); try done. lia.
Qed.

Lemma select_password mechanisms binding pw client :
  select_scram_client mechanisms binding pw = Ok client → password client = pw.
Proof.
  unfold select_scram_client. repeat case_bool_decide; try done; [|by intros [= <-]].
  destruct binding; try done. by intros [= <-].
Qed.

(** The bytes of a script of messages. *)
Definition frames (ms : list BackendMessage) : bytes := concat (map encode_message ms).

Lemma frames_cons m ms : frames (m :: ms) = encode_message m ++ frames ms.
Proof. done. Qed.

Lemma sasl_exchange_runs client mechanisms pw sf fin final w2 w3 s2 s3 rest io :
  let first := start_with_nonce client (rng (io_draws io)) in
  select_scram_client mechanisms (io_binding io) pw = Ok client →
  sendable (Authentication (SaslContinue sf)) → sendable (Authentication (SaslFinal fin)) →
  delivers io (frames [Authentication (SaslContinue sf); Authentication (SaslFinal fin)] ++ rest) →
  handle_server_first first sf = Ok final → verify_server_final final fin = Ok tt →
  sasl_initial_response (cf_mechanism_name first) (cf_message first) [] = (Ok tt, w2) →
  write_all w2 (io_sock io) = (Ok tt, s2) →
  sasl_response (message final) [] = (Ok tt, w3) → write_all w3 s2 = (Ok tt, s3) →
  ∃ io', sasl_exchange debug_message rng pw mechanisms io = (Ok tt, io')
    ∧ io_sock io' = s3 ∧ delivers io' rest.
Proof.
  intros first Hsel Hs1 Hs2 Hd Hh Hv Hw2 Hws2 Hw3 Hws3. unfold sasl_exchange.
  rewrite !frames_cons, <- !app_assoc in Hd.
  unfold io_get_binding, io_draw, lift. unfold mbind at 1 2 3, se_bind at 1 2 3.
  cbv beta iota. rewrite Hsel. fold first.
  erewrite se_bind_Ok; [|by eapply io_send_ok].
  destruct (io_read_delivered _ (mk_io s2 (io_reads io) (rx_buf io) [] (io_binding io) (S (io_draws io)))
    _ Hs1 Hd) as (rx1 & rd1 & Hr1 & Hd1).
  rewrite (se_bind_Ok _ _ _ _ _ Hr1). cbn [lift]. unfold mbind at 1 2, se_bind at 1 2. rewrite Hh.
  erewrite se_bind_Ok; [|by eapply io_send_ok].
  destruct (io_read_delivered _ (mk_io s3 rd1 rx1 [] (io_binding io) (S (io_draws io))) _ Hs2 Hd1)
    as (rx2 & rd2 & Hr2 & Hd2).
  cbn [with_input io_reads rx_buf io_binding io_draws].
  rewrite (se_bind_Ok _ _ _ _ _ Hr2). unfold mbind, se_bind. rewrite Hv.
  eexists. split; [done|]. split; [done|]. exact Hd2.
Qed.

Lemma authenticate_round c fuel io b io' :
  auth_round debug_message rng c io = (Ok b, io') →
  io_loop (S fuel) (λ _, done ← auth_round debug_message rng c;
                         mret (if done : bool then inr tt else inl tt)) tt io
  = if b : bool then Some (Ok tt, io')
    else io_loop fuel (λ _, done ← auth_round debug_message rng c;
                            mret (if done : bool then inr tt else inl tt)) tt io'.
Proof.
  intros Hr. cbn [io_loop]. rewrite (se_bind_Ok _ _ _ _ _ Hr). by destruct b.
Qed.

(** C28: connecting with SCRAM.  Against a server that runs SCRAM as RFC 5802 prescribes, with
    the verifiers of the configured password, then accepts, describes itself and reports
    ready, [connect] succeeds however the transport cuts the bytes: it writes exactly the
    startup message and the two SASL messages, returns the last value reported of every
    parameter and of the key data and the reported status, and has consumed no message after
    [ReadyForQuery]. *)
Theorem connect_scram c pw mechanisms client salt iters server_nonce infos st rest io w1 w2 s1 s2 :
  let first := start_with_nonce client (rng (io_draws io)) in
  let v := enrol pw salt iters in
  let nonce := client_nonce first ++ server_nonce in
  let sf := rfc_server_first v nonce in
  let fin := rfc_server_final v (first_bare_message first) nonce
               (encoded_channel_binding (channel_binding client)) in
  let script := [Authentication (SaslMechanisms mechanisms); Authentication (SaslContinue sf);
                 Authentication (SaslFinal fin); Authentication AuthOk]
                ++ infos ++ [ReadyForQuery st] in
  cfg_password c = Some pw → select_scram_client mechanisms (io_binding io) pw = Ok client →
  utf8_valid server_nonce = true → ","%byte ∉ server_nonce → 1 ≤ iters < 2 ^ 32 →
  Forall informational infos → Forall sendable script → delivers io (frames script ++ rest) →
  startup (startup_params c) [] = (Ok tt, w1) → write_all w1 (io_sock io) = (Ok tt, s1) →
  sasl_initial_response (cf_mechanism_name first) (cf_message first) [] = (Ok tt, w2) →
  write_all w2 s1 = (Ok tt, s2) →
  (∀ final, handle_server_first first sf = Ok final → ∃ w3 s3,
     sasl_response (message final) [] = (Ok tt, w3) ∧ write_all w3 s2 = (Ok tt, s3)) →
  ∃ final w3 info io',
    handle_server_first first sf = Ok final ∧ sasl_response (message final) [] = (Ok tt, w3)
    ∧ connect debug_message rng c io = Some (Ok (info, Some st), io')
    ∧ write_all w3 s2 = (Ok tt, io_sock io')
    ∧ describes infos info ∧ delivers io' rest.
Proof.
  intros first v nonce sf fin script Hpw Hsel Hu Hnc Hit Hinfos Hsend Hd Hw1 Hws1 Hw2 Hws2 Hw3.
  assert (password client = pw) as Hcpw by by eapply select_password.
  destruct (scram_exchange client salt iters (rng (io_draws io)) server_nonce Hu Hnc Hit)
    as (final & Hh & _ & Hv). rewrite Hcpw in Hh, Hv. fold first v nonce sf in Hh. fold first v nonce fin in Hv.
  destruct (Hw3 final Hh) as (w3 & s3 & Hw3' & Hws3).
  unfold script in Hsend, Hd. cbn [app] in Hsend.
  apply Forall_cons in Hsend as [HsM Hsend]. apply Forall_cons in Hsend as [HsC Hsend].
  apply Forall_cons in Hsend as [HsF Hsend]. apply Forall_cons in Hsend as [HsO Hsend].
  apply Forall_app in Hsend as [Hsinfos Hsrfq]. apply Forall_cons in Hsrfq as [Hsrfq _].
  cbn [app] in Hd. rewrite !frames_cons, <- !app_assoc in Hd.
  unfold connect. erewrite io_send_ok by done.
  set (io1 := mk_io s1 (io_reads io) (rx_buf io) [] (io_binding io) (io_draws io)).
  assert (delivers io1 _) as Hd1 by exact Hd.
  destruct (io_read_delivered _ io1 _ HsM Hd1) as (rx2 & rd2 & Hr2 & Hd2).
  assert (∃ io3, auth_round debug_message rng c io1 = (Ok false, io3) ∧ io_sock io3 = s3
    ∧ delivers io3 (encode_message (Authentication AuthOk) ++ frames (infos ++ [ReadyForQuery st]) ++ rest))
    as (io3 & Hround1 & Hsock3 & Hd3).
  { edestruct (sasl_exchange_runs client mechanisms pw sf fin final w2 w3 s2 s3
      (encode_message (Authentication AuthOk) ++ frames (infos ++ [ReadyForQuery st]) ++ rest)
      (with_input io1 rx2 rd2))
      as (io3 & Hx & Hs3 & Hd3); try eassumption.
    { rewrite !frames_cons, <- !app_assoc. exact Hd2. }
    exists io3. split; [|split; [done | exact Hd3]].
    unfold auth_round. rewrite (se_bind_Ok _ _ _ _ _ Hr2). unfold need_password, lift. rewrite Hpw. cbn [ok_or].
    unfold mbind at 1 2, se_bind at 1 2. by rewrite Hx. }
  destruct (io_read_delivered _ io3 _ HsO Hd3) as (rx4 & rd4 & Hr4 & Hd4).
  assert (authenticate debug_message rng c io1 = Some (Ok tt, with_input io3 rx4 rd4)) as ->.
  { unfold authenticate. pose proof (consumes_auth_round debug_message rng c _ _ _ Hround1) as Hc1.
    rewrite (authenticate_round _ _ _ _ _ Hround1).
    destruct (input_left io1) as [|n]; [lia|].
    assert (auth_round debug_message rng c io3 = (Ok true, with_input io3 rx4 rd4)) as Hround2
      by (unfold auth_round; by rewrite (se_bind_Ok _ _ _ _ _ Hr4)).
    by rewrite (authenticate_round _ _ _ _ _ Hround2). }
  unfold frames in Hd4. rewrite map_app, concat_app, <- app_assoc in Hd4. cbn [map concat] in Hd4.
  rewrite app_nil_r in Hd4.
  destruct (collect_describes infos st rest _ Hinfos Hsinfos Hsrfq Hd4)
    as (info & rx5 & rd5 & Hc & Hd5 & Hdesc).
  exists final, w3, info, (with_input (with_input io3 rx4 rd4) rx5 rd5).
  rewrite Hc. cbn. by rewrite Hsock3.
Qed.
End handshake.

(** ** Bytes read ahead are lost

    [connect] drops its read buffer and hands the driver the socket alone, whose decoder starts
    with an empty buffer ([spawn(stream, ...)]). *)
Definition handed_to_driver `{Transport} (io : StartupIo) : list bytes := map chunk_bytes (io_reads io).

Definition sample_config : Config := set_password "secret" (Config_new "db" 5432 "alice" "app").

Definition io_over (reads : Reads) : StartupIo (H0 := recorder) :=
  mk_io (H0 := recorder) [] reads [] [] Unavailable 0.

Definition late_notice : bytes := encode_message (NoticeResponse [("M"%byte, "hello"%s)]).

(** A server that accepts at once, and whose first asynchronous message arrives in two pieces,
    the first in the same read as [ReadyForQuery]. *)
Definition split_reads : Reads :=
  [Ok (frames [Authentication AuthOk; ReadyForQuery "I"%byte] ++ take 5 late_notice);
   Ok (drop 5 late_notice)].

Lemma connect_loses_buffered_bytes :
  ∃ info io', connect (λ _, []) (λ _, []) sample_config (io_over split_reads)
      = Some (Ok (info, Some "I"%byte), io')
    ∧ rx_buf io' = take 5 late_notice
    ∧ (decode_chunks [] (handed_to_driver io')).1.1 = []
    ∧ (decode_chunks [] (rx_buf io' :: handed_to_driver io')).1.1 = [NoticeResponse [("M"%byte, "hello"%s)]].
Proof. do 2 eexists. split; [vm_compute; reflexivity|]. repeat split; vm_compute; reflexivity. Qed.

(** ** Witnesses *)
Definition sample_infos : list BackendMessage :=
  [ParameterStatus "server_version" "16"; BackendKeyData 7 9; ParameterStatus "server_version" "17"].

Definition sample_rng : nat → bytes := λ _, [x01; xff].
Definition sample_first : ClientFirst := start_with_nonce (ScramClient_new "secret") (sample_rng 0).
Definition sample_server_first : str :=
  rfc_server_first (enrol "secret" "zz" 3) (client_nonce sample_first ++ "ServerNonce").

Definition sample_script : list BackendMessage :=
  [Authentication (SaslMechanisms [SCRAM_SHA_256]); Authentication (SaslContinue sample_server_first);
   Authentication (SaslFinal (rfc_server_final (enrol "secret" "zz" 3) (first_bare_message sample_first)
     (client_nonce sample_first ++ "ServerNonce") (encoded_channel_binding None)));
   Authentication AuthOk] ++ sample_infos ++ [ReadyForQuery "I"%byte].

Lemma sample_script_sendable : Forall sendable sample_script.
Proof. apply (bool_decide_unpack _). vm_compute. exact I. Qed.

Lemma connect_scram_witness :
  ∃ info io', connect (λ _, []) sample_rng sample_config (io_over [Ok (frames sample_script)])
      = Some (Ok (info, Some "I"%byte), io')
    ∧ server_params info !! "server_version"%s = Some "17"%s ∧ key_data info = Some (7, 9).
Proof.
  edestruct (connect_scram (H0 := recorder) (λ _, []) sample_rng sample_config "secret" [SCRAM_SHA_256]
    (ScramClient_new "secret") "zz" 3 "ServerNonce" sample_infos "I"%byte []
    (io_over [Ok (frames sample_script)])) as (final & w3 & info & io' & _ & _ & Hc & _ & [Hp Hk] & _).
  - reflexivity.
  - vm_compute; reflexivity.
  - vm_compute; reflexivity.
  - apply (bool_decide_unpack _). vm_compute. exact I.
  - lia.
  - repeat constructor.
  - exact sample_script_sendable.
  - split; [repeat constructor; vm_compute; eauto|]. cbn [io_over rx_buf io_reads]. unfold payload. cbn [map concat chunk_bytes].
    rewrite !app_nil_r. reflexivity.
  - vm_compute; reflexivity.
  - reflexivity.
  - vm_compute; reflexivity.
  - reflexivity.
  - intros final Hf. vm_compute in Hf. injection Hf as <-. do 2 eexists.
    split; [vm_compute; reflexivity | reflexivity].
  - exists info, io'. split; [exact Hc|]. rewrite Hp, Hk. split; vm_compute; reflexivity.
Defined.

