(* ===== verification/Types.v ===== *)
(** * PostgreSQL type metadata

    [crates/core/src/types.rs]: OIDs of the built-in types, and [Type], which names a type
    either by a stable OID or by name (and extension) when the OID must be resolved per
    session.  An OID is a [u32]. *)
From S2P Require Import Prelude.

Local Open Scope Z_scope.
Local Open Scope str_scope.

Abbreviation Oid := Z.

Record Type_ := mk_type { ty_oid : Oid; ty_name : str; ty_extension : option str }.

#[export] Instance Type_eq_dec : EqDecision Type_.
Proof. solve_decision. Defined.
#[export] Program Instance Type_countable : Countable Type_ :=
  inj_countable' (λ t, (ty_oid t, ty_name t, ty_extension t))
    (λ x, let '(o, n, e) := x in mk_type o n e) _.
Next Obligation. by intros []. Qed.

Definition Type_fixed (oid : Oid) (name : str) : Type_ := mk_type oid name None.
Definition Type_extension (name extension : str) : Type_ := mk_type 0 name (Some extension).
Definition Type_unresolved (name : str) : Type_ := mk_type 0 name None.
Definition is_resolved (t : Type_) : bool := negb (ty_oid t =? 0).

(** ** OIDs *)
Definition BOOL : Oid := 16.
Definition BYTEA : Oid := 17.
Definition BPCHAR : Oid := 1042.
Definition VARCHAR : Oid := 1043.
Definition TEXT : Oid := 25.
Definition INT2 : Oid := 21.
Definition INT4 : Oid := 23.
Definition INT8 : Oid := 20.
Definition FLOAT4 : Oid := 700.
Definition FLOAT8 : Oid := 701.
Definition UUID : Oid := 2950.
Definition DATE : Oid := 1082.
Definition TIME : Oid := 1083.
Definition TIMESTAMP : Oid := 1114.
Definition TIMESTAMPTZ : Oid := 1184.
Definition JSON : Oid := 114.
Definition JSONB : Oid := 3802.
Definition NUMERIC : Oid := 1700.
Definition INET : Oid := 869.
Definition CIDR : Oid := 650.
Definition INTERVAL : Oid := 1186.
Definition MACADDR : Oid := 829.
Definition MACADDR8 : Oid := 774.
Definition BIT : Oid := 1560.
Definition VARBIT : Oid := 1562.
Definition TSVECTOR : Oid := 3614.
Definition TSQUERY : Oid := 3615.
Definition BOOL_ARRAY : Oid := 1000.
Definition BYTEA_ARRAY : Oid := 1001.
Definition INT2_ARRAY : Oid := 1005.
Definition INT4_ARRAY : Oid := 1007.
Definition TEXT_ARRAY : Oid := 1009.
Definition INT8_ARRAY : Oid := 1016.
Definition FLOAT4_ARRAY : Oid := 1021.
Definition FLOAT8_ARRAY : Oid := 1022.
Definition VARCHAR_ARRAY : Oid := 1015.
Definition BPCHAR_ARRAY : Oid := 1014.
Definition INET_ARRAY : Oid := 1041.
Definition CIDR_ARRAY : Oid := 651.
Definition DATE_ARRAY : Oid := 1182.
Definition TIME_ARRAY : Oid := 1183.
Definition TIMESTAMP_ARRAY : Oid := 1115.
Definition TIMESTAMPTZ_ARRAY : Oid := 1185.
Definition INTERVAL_ARRAY : Oid := 1187.
Definition NUMERIC_ARRAY : Oid := 1231.
Definition UUID_ARRAY : Oid := 2951.
Definition JSON_ARRAY : Oid := 199.
Definition JSONB_ARRAY : Oid := 3807.
Definition INT4_RANGE : Oid := 3904.
Definition NUM_RANGE : Oid := 3906.
Definition TS_RANGE : Oid := 3908.
Definition TSTZ_RANGE : Oid := 3910.
Definition DATE_RANGE : Oid := 3912.
Definition INT8_RANGE : Oid := 3926.
Definition INT4_MULTIRANGE : Oid := 4451.
Definition NUM_MULTIRANGE : Oid := 4532.
Definition TS_MULTIRANGE : Oid := 4533.
Definition TSTZ_MULTIRANGE : Oid := 4534.
Definition DATE_MULTIRANGE : Oid := 4535.
Definition INT8_MULTIRANGE : Oid := 4536.

(** ** Dynamic and named types *)
Definition GEOMETRY_TYPE : Type_ := Type_extension "geometry" "postgis".
Definition GEOGRAPHY_TYPE : Type_ := Type_extension "geography" "postgis".
Definition VECTOR_TYPE : Type_ := Type_extension "vector" "vector".
Definition HSTORE_TYPE : Type_ := Type_extension "hstore" "hstore".
Definition CITEXT_TYPE : Type_ := Type_extension "citext" "citext".
Definition TSVECTOR_TYPE : Type_ := Type_fixed TSVECTOR "tsvector".
Definition TSQUERY_TYPE : Type_ := Type_fixed TSQUERY "tsquery".
Definition MACADDR_TYPE : Type_ := Type_fixed MACADDR "macaddr".
Definition MACADDR8_TYPE : Type_ := Type_fixed MACADDR8 "macaddr8".
Definition BIT_TYPE : Type_ := Type_fixed BIT "bit".
Definition VARBIT_TYPE : Type_ := Type_fixed VARBIT "varbit".
Definition INT4_MULTIRANGE_TYPE : Type_ := Type_fixed INT4_MULTIRANGE "int4multirange".
Definition NUM_MULTIRANGE_TYPE : Type_ := Type_fixed NUM_MULTIRANGE "nummultirange".
Definition TS_MULTIRANGE_TYPE : Type_ := Type_fixed TS_MULTIRANGE "tsmultirange".
Definition TSTZ_MULTIRANGE_TYPE : Type_ := Type_fixed TSTZ_MULTIRANGE "tstzmultirange".
Definition DATE_MULTIRANGE_TYPE : Type_ := Type_fixed DATE_MULTIRANGE "datemultirange".
Definition INT8_MULTIRANGE_TYPE : Type_ := Type_fixed INT8_MULTIRANGE "int8multirange".

(** [known_type_for_oid], as the table its [match] is. *)
Definition known_types : list (Oid * Type_) := [
  (BOOL, Type_fixed BOOL "bool");
  (BYTEA, Type_fixed BYTEA "bytea");
  (BPCHAR, Type_fixed BPCHAR "bpchar");
  (VARCHAR, Type_fixed VARCHAR "varchar");
  (TEXT, Type_fixed TEXT "text");
  (INT2, Type_fixed INT2 "int2");
  (INT4, Type_fixed INT4 "int4");
  (INT8, Type_fixed INT8 "int8");
  (FLOAT4, Type_fixed FLOAT4 "float4");
  (FLOAT8, Type_fixed FLOAT8 "float8");
  (UUID, Type_fixed UUID "uuid");
  (DATE, Type_fixed DATE "date");
  (TIME, Type_fixed TIME "time");
  (TIMESTAMP, Type_fixed TIMESTAMP "timestamp");
  (TIMESTAMPTZ, Type_fixed TIMESTAMPTZ "timestamptz");
  (JSON, Type_fixed JSON "json");
  (JSONB, Type_fixed JSONB "jsonb");
  (NUMERIC, Type_fixed NUMERIC "numeric");
  (INET, Type_fixed INET "inet");
  (CIDR, Type_fixed CIDR "cidr");
  (INTERVAL, Type_fixed INTERVAL "interval");
  (MACADDR, MACADDR_TYPE);
  (MACADDR8, MACADDR8_TYPE);
  (BIT, BIT_TYPE);
  (VARBIT, VARBIT_TYPE);
  (TSVECTOR, TSVECTOR_TYPE);
  (TSQUERY, TSQUERY_TYPE);
  (BOOL_ARRAY, Type_fixed BOOL_ARRAY "_bool");
  (BYTEA_ARRAY, Type_fixed BYTEA_ARRAY "_bytea");
  (INT2_ARRAY, Type_fixed INT2_ARRAY "_int2");
  (INT4_ARRAY, Type_fixed INT4_ARRAY "_int4");
  (TEXT_ARRAY, Type_fixed TEXT_ARRAY "_text");
  (INT8_ARRAY, Type_fixed INT8_ARRAY "_int8");
  (FLOAT4_ARRAY, Type_fixed FLOAT4_ARRAY "_float4");
  (FLOAT8_ARRAY, Type_fixed FLOAT8_ARRAY "_float8");
  (VARCHAR_ARRAY, Type_fixed VARCHAR_ARRAY "_varchar");
  (BPCHAR_ARRAY, Type_fixed BPCHAR_ARRAY "_bpchar");
  (INET_ARRAY, Type_fixed INET_ARRAY "_inet");
  (CIDR_ARRAY, Type_fixed CIDR_ARRAY "_cidr");
  (DATE_ARRAY, Type_fixed DATE_ARRAY "_date");
  (TIME_ARRAY, Type_fixed TIME_ARRAY "_time");
  (TIMESTAMP_ARRAY, Type_fixed TIMESTAMP_ARRAY "_timestamp");
  (TIMESTAMPTZ_ARRAY, Type_fixed TIMESTAMPTZ_ARRAY "_timestamptz");
  (INTERVAL_ARRAY, Type_fixed INTERVAL_ARRAY "_interval");
  (NUMERIC_ARRAY, Type_fixed NUMERIC_ARRAY "_numeric");
  (UUID_ARRAY, Type_fixed UUID_ARRAY "_uuid");
  (JSON_ARRAY, Type_fixed JSON_ARRAY "_json");
  (JSONB_ARRAY, Type_fixed JSONB_ARRAY "_jsonb");
  (INT4_RANGE, Type_fixed INT4_RANGE "int4range");
  (NUM_RANGE, Type_fixed NUM_RANGE "numrange");
  (TS_RANGE, Type_fixed TS_RANGE "tsrange");
  (TSTZ_RANGE, Type_fixed TSTZ_RANGE "tstzrange");
  (DATE_RANGE, Type_fixed DATE_RANGE "daterange");
  (INT8_RANGE, Type_fixed INT8_RANGE "int8range");
  (INT4_MULTIRANGE, INT4_MULTIRANGE_TYPE);
  (NUM_MULTIRANGE, NUM_MULTIRANGE_TYPE);
  (TS_MULTIRANGE, TS_MULTIRANGE_TYPE);
  (TSTZ_MULTIRANGE, TSTZ_MULTIRANGE_TYPE);
  (DATE_MULTIRANGE, DATE_MULTIRANGE_TYPE);
  (INT8_MULTIRANGE, INT8_MULTIRANGE_TYPE)].

Definition known_type_for_oid (oid : Oid) : option Type_ :=
  snd <$> find (λ x, x.1 =? oid) known_types.

Definition types_for_oids (oids : list Oid) : list Type_ :=
  map (λ oid, default (Type_fixed oid []) (known_type_for_oid oid)) oids.

(** Known types carry the OID they are known by, so they are resolved. *)
Lemma known_type_oid oid t : known_type_for_oid oid = Some t → ty_oid t = oid ∧ is_resolved t = true.
Proof.
  unfold known_type_for_oid. intros ([o t'] & Hf & ->)%fmap_Some. apply find_some in Hf as [Hin Ho].
  apply Z.eqb_eq in Ho. cbn in Ho. subst o. cbn [snd].
  assert (Forall (λ x, ty_oid x.2 = x.1 ∧ is_resolved x.2 = true) known_types) as Hall
    by (repeat constructor).
  rewrite List.Forall_forall in Hall. exact (Hall _ Hin).
Qed.

Lemma types_for_oids_oid oids : map ty_oid (types_for_oids oids) = oids.
Proof.
  induction oids as [|o oids IH]; [done|]. unfold types_for_oids in *. cbn [map]. f_equal; [|exact IH].
  destruct (known_type_for_oid o) as [t|] eqn:E; [|done]. by apply known_type_oid in E as [].
Qed.

(** No OID is listed twice, so the order of the table does not matter. *)
Lemma known_types_unique : NoDup (map fst known_types).
Proof. apply (bool_decide_unpack _). vm_compute. exact I. Qed.
