(* ===== verification/Codec.v ===== *)
(** * Codecs: the traits, the primitives, [nullable] and tuples

    [crates/core/src/codec/mod.rs], [primitive.rs], [nullable.rs], [tuple.rs].  A codec value is
    a record of the trait methods.  [encode] appends parameter slots to the [&mut Vec] it is
    given and keeps what it has appended when it fails; [decode] reads the front of the columns.

    The trait documents that [decode] is called with at least [n_columns()] columns; [nullable]
    indexes the slice and would panic otherwise, which is outside this model. *)
From S2P Require Import Prelude Bytes Text Error Types.

Local Open Scope Z_scope.
Local Open Scope str_scope.

Abbreviation Slots := (list (option bytes)).

Definition FORMAT_TEXT : Z := 0.
Definition FORMAT_BINARY : Z := 1.

Record Encoder (A : Type) := mk_encoder {
  encode : A → SE Slots Error unit;
  enc_oids : list Oid;
  enc_types : list Type_;
  enc_formats : list Z;
}.
Record Decoder (A : Type) := mk_decoder {
  decode : Slots → result Error A;
  n_columns : nat;
  dec_oids : list Oid;
  dec_types : list Type_;
  dec_formats : list Z;
}.
Record Codec (A : Type) := mk_codec { enc : Encoder A; dec : Decoder A }.
Arguments mk_encoder {A}. Arguments mk_decoder {A}. Arguments mk_codec {A}.
Arguments encode {A}. Arguments enc_oids {A}. Arguments enc_types {A}. Arguments enc_formats {A}.
Arguments decode {A}. Arguments n_columns {A}. Arguments dec_oids {A}. Arguments dec_types {A}.
Arguments dec_formats {A}. Arguments enc {A}. Arguments dec {A}.

(** [params.push(slot)] *)
Definition push (slot : option bytes) : SE Slots Error unit := λ ps, (Ok tt, ps ++ [slot]).

(** A codec of one slot, whose [types] are the trait's default. *)
Definition scalar {A} (oid : Oid) (format : Z) (e : A → bytes) (d : Slots → result Error A) : Codec A :=
  mk_codec
    (mk_encoder (λ a, push (Some (e a))) [oid] (types_for_oids [oid]) [format])
    (mk_decoder d 1 [oid] (types_for_oids [oid]) [format]).

(** ** Shared helpers *)
Definition primitive_bytes (columns : Slots) (type_name : str) : result Error bytes :=
  match columns with
  | [] => Err (Error.Codec (type_name
      ++ ": decoder needs 1 column, got 0; this is a driver bug if it reached you"))
  | None :: _ => Err (Error.Codec (type_name ++ ": unexpected NULL; use nullable() to allow it"))
  | Some b :: _ => Ok b
  end.

Definition not_utf8 (type_name : str) (e : Utf8Error) : Error :=
  Error.Codec (type_name ++ ": column not UTF-8: " ++ utf8_error_text e).

Definition primitive_str (columns : Slots) (type_name : str) : result Error str :=
  b ← primitive_bytes columns type_name;
  map_err (not_utf8 type_name) (from_utf8 b).

(** ** [int2], [int4], [int8]: the three share their text *)
Definition int_decode (type_name : str) (n : nat) (columns : Slots) : result Error Z :=
  b ← primitive_bytes columns type_name;
  if (length b =? n)%nat then Ok (from_be_i b)
  else
    s ← map_err (not_utf8 type_name) (from_utf8 b);
    map_err (λ e, Error.Codec (type_name ++ ": " ++ int_error_text e ++ " (got " ++ debug_str s ++ ")"))
      (parse_sint (8 * Z.of_nat n) 10 s).

Definition int_codec (type_name : str) (n : nat) (oid : Oid) : Codec Z :=
  scalar oid FORMAT_BINARY (to_be_bytes n) (int_decode type_name n).

Definition int2 : Codec Z := int_codec "int2" 2 INT2.
Definition int4 : Codec Z := int_codec "int4" 4 INT4.
Definition int8 : Codec Z := int_codec "int8" 8 INT8.

(** ** [bool] *)
Definition bool_encode (b : bool) : bytes := [if b then x01 else x00].

Definition bool_decode_columns (columns : Slots) : result Error bool :=
  b ← primitive_bytes columns "bool";
  match b with
  | [c] =>
    if byte_is c 1 || byte_is c 116 then Ok true
    else if byte_is c 0 || byte_is c 102 then Ok false
    else Err (Error.Codec ("bool: unexpected byte 0x" ++ hex2 c))
  | _ =>
    if bool_decide (b = "t") || bool_decide (b = "true") || bool_decide (b = "1") then Ok true
    else if bool_decide (b = "f") || bool_decide (b = "false") || bool_decide (b = "0") then Ok false
    else Err (Error.Codec ("bool: unexpected value " ++ debug_str (from_utf8_lossy b)))
  end.

Definition bool_ : Codec bool := scalar BOOL FORMAT_BINARY bool_encode bool_decode_columns.

(** ** [text], [varchar], [bpchar] *)
Definition str_codec (type_name : str) (oid : Oid) : Codec str :=
  scalar oid FORMAT_BINARY id (λ columns, primitive_str columns type_name).

Definition text : Codec str := str_codec "text" TEXT.
Definition varchar : Codec str := str_codec "varchar" VARCHAR.
Definition bpchar : Codec str := str_codec "bpchar" BPCHAR.

(** ** [bytea] *)
Fixpoint hex_pairs (s : bytes) : result Error bytes :=
  match s with
  | a :: b :: s =>
    pair ← map_err (λ _, Error.Codec "bytea: non-UTF8") (from_utf8 [a; b]);
    z ← map_err (λ _, Error.Codec ("bytea: bad hex digit pair " ++ debug_str pair))
          (parse_uint 8 16 pair);
    out ← hex_pairs s;
    Ok (byte_of z :: out)
  | _ => Ok []
  end.

Definition bytea_decode (columns : Slots) : result Error bytes :=
  b ← primitive_bytes columns "bytea";
  match strip_prefix "\x" b with
  | Some hex =>
    s ← map_err (λ e, Error.Codec ("bytea: text not UTF-8: " ++ utf8_error_text e)) (from_utf8 b);
    if negb (Nat.even (length hex)) then Err (Error.Codec ("bytea: odd hex length in " ++ debug_str s))
    else hex_pairs hex
  | None => Ok b
  end.

Definition bytea : Codec bytes := scalar BYTEA FORMAT_BINARY id bytea_decode.

(** ** [nullable] *)
Definition push_nulls (n : nat) : SE Slots Error unit := λ ps, (Ok tt, ps ++ replicate n None).

Definition all_null (columns : Slots) : bool := forallb (λ c, match c with None => true | Some _ => false end) columns.

Definition nullable {A} (c : Codec A) : Codec (option A) :=
  mk_codec
    (mk_encoder (λ v, match v with
                      | None => push_nulls (length (enc_oids (enc c)))
                      | Some a => encode (enc c) a
                      end)
       (enc_oids (enc c)) (enc_types (enc c)) (enc_formats (enc c)))
    (mk_decoder (λ columns, if all_null (take (n_columns (dec c)) columns) then Ok None
                            else Some <$> decode (dec c) columns)
       (n_columns (dec c)) (dec_oids (dec c)) (dec_types (dec c)) (dec_formats (dec c))).

(** ** Tuples

    The source generates one instance per arity from one macro; [tuple_codec] is that macro, on
    the list of component types. *)
Fixpoint tuple (Ts : list Type) : Type :=
  match Ts with [] => unit | T :: Ts => (T * tuple Ts)%type end.
Fixpoint codecs (Ts : list Type) : Type :=
  match Ts with [] => unit | T :: Ts => (Codec T * codecs Ts)%type end.

(** The concatenation of one attribute of the components. *)
Fixpoint concat_components {X} (f : ∀ T, Codec T → list X) (Ts : list Type) : codecs Ts → list X :=
  match Ts with
  | [] => λ _, []
  | T :: Ts => λ cs, f T cs.1 ++ concat_components f Ts cs.2
  end.

Fixpoint tuple_columns (Ts : list Type) : codecs Ts → nat :=
  match Ts with
  | [] => λ _, 0%nat
  | T :: Ts => λ cs, (n_columns (dec cs.1) + tuple_columns Ts cs.2)%nat
  end.

Fixpoint tuple_encode (Ts : list Type) : codecs Ts → tuple Ts → SE Slots Error unit :=
  match Ts with
  | [] => λ _ _, mret tt
  | T :: Ts => λ cs v, encode (enc cs.1) v.1;; tuple_encode Ts cs.2 v.2
  end.

(** [&columns[offset..offset + n]] *)
Definition slice {X} (offset n : nat) (l : list X) : list X := take n (drop offset l).

Fixpoint tuple_decode_from (Ts : list Type) : codecs Ts → nat → Slots → result Error (tuple Ts) :=
  match Ts with
  | [] => λ _ _ _, Ok tt
  | T :: Ts => λ cs offset columns,
    let n := n_columns (dec cs.1) in
    v ← decode (dec cs.1) (slice offset n columns);
    vs ← tuple_decode_from Ts cs.2 (offset + n)%nat columns;
    Ok (v, vs)
  end.

Definition need_columns (columns : Slots) (expected : nat) : result Error unit :=
  if (length columns <? expected)%nat
  then Err (Error.Codec ("tuple decoder needs " ++ Text.dec (Z.of_nat expected) ++ " columns, got " ++ Text.dec (Z.of_nat (length columns))))
  else Ok tt.

Definition tuple_codec (Ts : list Type) (cs : codecs Ts) : Codec (tuple Ts) :=
  mk_codec
    (mk_encoder (tuple_encode Ts cs)
       (concat_components (λ T c, enc_oids (enc c)) Ts cs)
       (concat_components (λ T c, enc_types (enc c)) Ts cs)
       (concat_components (λ T c, enc_formats (enc c)) Ts cs))
    (mk_decoder (λ columns, need_columns columns (tuple_columns Ts cs);; tuple_decode_from Ts cs 0 columns)
       (tuple_columns Ts cs)
       (concat_components (λ T c, dec_oids (dec c)) Ts cs)
       (concat_components (λ T c, dec_types (dec c)) Ts cs)
       (concat_components (λ T c, dec_formats (dec c)) Ts cs)).

(** The codec of [()]. *)
Definition unit_codec : Codec unit :=
  mk_codec (mk_encoder (λ _, mret tt) [] [] []) (mk_decoder (λ _, Ok tt) 0 [] [] []).

(** ** What a codec promises

    The contract the traits document: an encoder appends exactly [oids().len()] slots, a
    decoder consumes exactly [n_columns()] columns, of which it names the OIDs, and decoding
    what was encoded gives the value back, whatever columns follow.  [ok] are the values for
    which the codec promises it. *)
Class Lawful {A} (c : Codec A) (ok : A → Prop) : Prop := {
  law_columns : n_columns (dec c) = length (enc_oids (enc c));
  law_oids : dec_oids (dec c) = enc_oids (enc c);
  law_round_trip a ps : ok a →
    ∃ slots, encode (enc c) a ps = (Ok tt, ps ++ slots)
      ∧ length slots = length (enc_oids (enc c))
      ∧ ∀ rest, decode (dec c) (slots ++ rest) = Ok a;
}.

(** A codec that never encodes a value as NULL only. *)
Class NeverNull {A} (c : Codec A) (ok : A → Prop) : Prop := {
  never_null a ps slots : ok a → encode (enc c) a ps = (Ok tt, ps ++ slots) → all_null slots = false;
}.

Section scalars.
Context {A : Type} (oid : Oid) (format : Z) (e : A → bytes) (d : Slots → result Error A).

Lemma scalar_lawful (ok : A → Prop) :
  (∀ a rest, ok a → d (Some (e a) :: rest) = Ok a) → Lawful (scalar oid format e d) ok.
Proof.
  intros Hd. split; [done..|]. intros a ps Ha. exists [Some (e a)]. split; [done|].
  split; [done|]. intros rest. by apply Hd.
Qed.

#[export] Instance scalar_never_null ok : NeverNull (scalar oid format e d) ok.
Proof.
  split. intros a ps slots _. cbn. unfold push. intros [= Hs]. by apply app_inv_head in Hs as <-.
Qed.
End scalars.

#[export] Instance int_lawful name n oid :
  (0 < n)%nat → Lawful (int_codec name n oid) (in_sint (8 * Z.of_nat n)).
Proof.
  intros Hn. apply scalar_lawful. intros z rest Hz. unfold int_decode. cbn.
  rewrite length_to_be_bytes, Nat.eqb_refl. f_equal. rewrite from_be_i_to_be.
  apply wrap_sint_id; [lia | done].
Qed.

#[export] Instance int2_lawful : Lawful int2 (in_sint 16).
Proof. apply (int_lawful "int2" 2 INT2). lia. Qed.
#[export] Instance int4_lawful : Lawful int4 (in_sint 32).
Proof. apply (int_lawful "int4" 4 INT4). lia. Qed.
#[export] Instance int8_lawful : Lawful int8 (in_sint 64).
Proof. apply (int_lawful "int8" 8 INT8). lia. Qed.

#[export] Instance bool_lawful : Lawful bool_ (λ _, True).
Proof. apply scalar_lawful. by intros [] rest _. Qed.

(** A Rust [String] is valid UTF-8. *)
#[export] Instance str_lawful name oid : Lawful (str_codec name oid) (λ s, utf8_valid s = true).
Proof.
  apply scalar_lawful. intros s rest Hs. unfold primitive_str, id. cbn [primitive_bytes mbind result_bind].
  by rewrite (proj2 (from_utf8_Ok s s) (conj eq_refl Hs)).
Qed.

(** [bytea] takes a value that begins with [\x] for the text format. *)
#[export] Instance bytea_lawful : Lawful bytea (λ b, strip_prefix "\x" b = None).
Proof. apply scalar_lawful. intros b rest Hb. unfold bytea_decode, id. cbn [primitive_bytes mbind result_bind]. by rewrite Hb. Qed.

#[export] Instance unit_lawful : Lawful unit_codec (λ _, True).
Proof.
  split; [done..|]. intros [] ps _. exists []. split; [by rewrite app_nil_r | done].
Qed.

Lemma all_null_replicate n : all_null (replicate n None) = true.
Proof. induction n; [done | exact IHn]. Qed.

#[export] Instance nullable_lawful {A} (c : Codec A) ok :
  Lawful c ok → NeverNull c ok → Lawful (nullable c) (λ v, match v with Some a => ok a | None => True end).
Proof.
  intros [Hc Ho Hr] [Hn]. split; [exact Hc | exact Ho|]. intros [a|] ps Ha; cbn.
  - destruct (Hr a ps Ha) as (slots & He & Hl & Hd). exists slots. split; [exact He|].
    split; [done|]. intros rest. rewrite take_app_exact by congruence.
    by rewrite (Hn a ps slots Ha He), Hd.
  - exists (replicate (length (enc_oids (enc c))) None). split; [done|].
    split; [apply length_replicate|]. intros rest.
    rewrite take_app_exact by (rewrite length_replicate; congruence). by rewrite all_null_replicate.
Qed.

(** ** Tuples *)
Fixpoint lawful_all (Ts : list Type) : codecs Ts → (tuple Ts → Prop) → Prop :=
  match Ts with
  | [] => λ _ ok, ∀ v, ok v
  | T :: Ts => λ cs ok, ∃ ok1 ok2, Lawful cs.1 ok1 ∧ lawful_all Ts cs.2 ok2
                 ∧ ∀ v, ok v → ok1 v.1 ∧ ok2 v.2
  end.

Lemma tuple_columns_oids Ts cs ok :
  lawful_all Ts cs ok →
  tuple_columns Ts cs = length (concat_components (λ T c, enc_oids (enc c)) Ts cs)
  ∧ concat_components (λ T c, dec_oids (dec c)) Ts cs
    = concat_components (λ T c, enc_oids (enc c)) Ts cs.
Proof.
  revert cs ok. induction Ts as [|T Ts IH]; intros cs ok; [done|]. cbn.
  intros (ok1 & ok2 & [Hc Ho _] & Hrest & _). destruct (IH _ _ Hrest) as [-> ->].
  by rewrite length_app, Hc, Ho.
Qed.

Lemma slice_app {X} (before slots rest : list X) n :
  length slots = n → slice (length before) n (before ++ slots ++ rest) = slots.
Proof. intros <-. unfold slice. by rewrite drop_app_length, take_app_length. Qed.

Lemma tuple_round_trip Ts cs ok v ps :
  lawful_all Ts cs ok → ok v →
  ∃ slots, tuple_encode Ts cs v ps = (Ok tt, ps ++ slots)
    ∧ length slots = length (concat_components (λ T c, enc_oids (enc c)) Ts cs)
    ∧ ∀ before rest, tuple_decode_from Ts cs (length before) (before ++ slots ++ rest) = Ok v.
Proof.
  revert cs ok v ps. induction Ts as [|T Ts IH]; intros cs ok v ps Hl Hv.
  { exists []. cbn. rewrite app_nil_r. split; [done|]. split; [done|]. by destruct v. }
  destruct Hl as (ok1 & ok2 & [Hc Ho Hr] & Hrest & Hok). destruct (Hok v Hv) as [Hv1 Hv2].
  destruct (Hr _ ps Hv1) as (s1 & He1 & Hl1 & Hd1).
  destruct (IH cs.2 ok2 v.2 (ps ++ s1) Hrest Hv2) as (s2 & He2 & Hl2 & Hd2).
  exists (s1 ++ s2). cbn. split; [|split].
  - unfold mbind, se_bind. rewrite He1, He2. by rewrite app_assoc.
  - by rewrite !length_app, Hl1, Hl2.
  - intros before rest. rewrite <- app_assoc, slice_app by congruence.
    specialize (Hd1 []). rewrite app_nil_r in Hd1. rewrite Hd1. cbn.
    specialize (Hd2 (before ++ s1) rest). rewrite length_app, <- app_assoc in Hd2.
    rewrite Hc, <- Hl1, Hd2. cbn. by destruct v.
Qed.

#[export] Instance tuple_lawful Ts cs ok : lawful_all Ts cs ok → Lawful (tuple_codec Ts cs) ok.
Proof.
  intros Hl. destruct (tuple_columns_oids Ts cs ok Hl) as [Hc Ho]. split; [exact Hc | exact Ho|].
  intros v ps Hv. destruct (tuple_round_trip Ts cs ok v ps Hl Hv) as (slots & He & Hlen & Hd).
  exists slots. split; [exact He|]. split; [exact Hlen|]. intros rest.
  cbn. unfold need_columns. rewrite length_app, (proj2 (Nat.ltb_ge _ _)) by lia. cbn.
  exact (Hd [] rest).
Qed.

(** ** The theorems *)

(** the integer codecs round-trip every value of their width: the one slot they push is the
    big-endian value, and decoding it, whatever columns follow, gives the value back. *)
Theorem int_codec_round_trip name n oid z ps rest :
  (0 < n)%nat → in_sint (8 * Z.of_nat n) z →
  encode (enc (int_codec name n oid)) z ps = (Ok tt, ps ++ [Some (to_be_bytes n z)])
  ∧ decode (dec (int_codec name n oid)) (Some (to_be_bytes n z) :: rest) = Ok z.
Proof.
  intros Hn Hz. split; [done|]. destruct (int_lawful name n oid Hn) as [_ _ Hr].
  destruct (Hr z [] Hz) as (slots & He & _ & Hd). cbn in He. injection He as <-. apply Hd.
Qed.

(** C31: codecs compose.  For any list of component codecs that keep the contract, the tuple
    codec keeps it: it pushes as many slots as it has OIDs, consumes as many columns, and
    decodes what it encoded, component by component, for tuples of any arity. *)
Theorem tuple_codec_lawful Ts (cs : codecs Ts) ok v ps rest :
  lawful_all Ts cs ok → ok v →
  ∃ slots, encode (enc (tuple_codec Ts cs)) v ps = (Ok tt, ps ++ slots)
    ∧ length slots = length (enc_oids (enc (tuple_codec Ts cs)))
    ∧ n_columns (dec (tuple_codec Ts cs)) = length slots
    ∧ decode (dec (tuple_codec Ts cs)) (slots ++ rest) = Ok v.
Proof.
  intros Hl Hv. destruct (tuple_lawful Ts cs ok Hl) as [Hc _ Hr].
  destruct (Hr v ps Hv) as (slots & He & Hlen & Hd). exists slots.
  split; [done|]. split; [done|]. split; [congruence | apply Hd].
Qed.

(** [nullable] adds NULL to a codec and nothing else: it keeps the contract of any codec
    whose values are never all NULL, with [None] as one NULL per slot. *)
Theorem nullable_round_trip {A} (c : Codec A) ok v ps rest :
  Lawful c ok → NeverNull c ok → match v with Some a => ok a | None => True end →
  ∃ slots, encode (enc (nullable c)) v ps = (Ok tt, ps ++ slots)
    ∧ length slots = length (enc_oids (enc c)) ∧ (all_null slots = true ↔ v = None ∨ enc_oids (enc c) = [])
    ∧ decode (dec (nullable c)) (slots ++ rest) = Ok v.
Proof.
  intros Hl Hn Hv. destruct (nullable_lawful c ok Hl Hn) as [Hc _ Hr].
  destruct (Hr v ps Hv) as (slots & He & Hlen & Hd). exists slots.
  split; [done|]. split; [done|]. split; [|apply Hd].
  destruct v as [a|]; cbn in He.
  - destruct Hn as [Hn]. pose proof (Hn a ps slots Hv He) as Ha. rewrite Ha.
    split; [done|]. intros [|Ho]; [done|]. cbn in Hlen. rewrite Ho in Hlen.
    by destruct slots.
  - unfold push_nulls in He. injection He as He. apply app_inv_head in He as <-.
    rewrite all_null_replicate. naive_solver.
Qed.

(** ** Where the text fallback and the binary format meet *)

(** A [bytea] that begins with the bytes [\x] does not come back: it is read as hex text. *)
Lemma bytea_confused :
  decode (dec bytea) [Some ("\x41"%s)] = Ok ("A"%s).
Proof. reflexivity. Qed.

(** A four-byte text is read as the binary form. *)
Lemma int4_text_confused : decode (dec int4) [Some ("1234"%s)] = Ok 825373492.
Proof. reflexivity. Qed.

(** The one-byte texts ["1"] and ["0"] that the text branch lists are refused before it. *)
Lemma bool_digit_refused : is_err (decode (dec bool_) [Some ("1"%s)]).
Proof. eexists. reflexivity. Qed.

(** [nullable] over a codec with NULL values of its own cannot tell [Some None] from [None]. *)
Lemma nullable_nested_confused :
  decode (dec (nullable (nullable int4))) ((encode (enc (nullable (nullable int4))) (Some None) []).2)
  = Ok None.
Proof. reflexivity. Qed.

(** ** Witnesses *)
Lemma int_codec_round_trip_witness :
  in_sint 32 (-7) ∧ decode (dec int4) [Some [xff; xff; xff; xf9]; None] = Ok (-7).
Proof.
  split; [unfold in_sint; lia|].
  exact (proj2 (int_codec_round_trip "int4" 4 INT4 (-7) [] [None] ltac:(lia) ltac:(unfold in_sint; lia))).
Defined.

Definition sample_types : list Type := [Z : Type; option str : Type; bool : Type].
Definition sample_codecs : codecs sample_types := (int4, (nullable text, (bool_, tt))).
Definition sample_ok : tuple sample_types → Prop :=
  λ v, in_sint 32 v.1 ∧ match v.2.1 with Some s => utf8_valid s = true | None => True end.

Lemma tuple_codec_lawful_witness :
  ∃ slots, encode (enc (tuple_codec sample_types sample_codecs)) (7, (Some "hi"%s, (true, tt))) [] = (Ok tt, slots)
    ∧ decode (dec (tuple_codec sample_types sample_codecs)) (slots ++ []) = Ok (7, (Some "hi"%s, (true, tt))).
Proof.
  destruct (tuple_codec_lawful sample_types sample_codecs sample_ok (7, (Some "hi"%s, (true, tt))) [] [])
    as (slots & He & _ & _ & Hd).
  - exists (in_sint 32), (λ v, match v.1 with Some s => utf8_valid s = true | None => True end).
    split; [apply int4_lawful|]. split; [|by intros v []].
    exists (λ v, match v with Some s => utf8_valid s = true | None => True end), (λ _, True).
    split; [apply nullable_lawful; apply _ |]. split; [|by intros v Hv].
    exists (λ _, True), (λ _, True). split; [apply bool_lawful|]. done.
  - split; [split; vm_compute; done || discriminate | vm_compute; reflexivity].
  - exists slots. split; [exact He | exact Hd].
Defined.

Lemma nullable_round_trip_witness :
  decode (dec (nullable int4)) [None] = Ok None.
Proof.
  destruct (nullable_round_trip int4 (in_sint 32) None [] [] int4_lawful _ I) as (slots & He & _ & _ & Hd).
  cbn in He. injection He as <-. exact Hd.
Defined.
