(* ===== verification/Composite.v ===== *)
(** * Array, range and multirange codecs

    [crates/core/src/codec/array.rs], [range.rs], [multirange.rs], over the binary forms of
    arrays and ranges in the [postgres-protocol] crate ([PgTypes]).  [PgTypesLaws] states what
    is relied on: reading an array or a range that the crate has written gives it back.  The
    frame of a multirange is the code's own. *)
From S2P Require Import Prelude Bytes Text Error Types Codec.

Local Open Scope Z_scope.
Local Open Scope str_scope.

Record ArrayDimension := mk_dim { dim_len : Z; lower_bound : Z }.

Inductive RangeBound (T : Type) := Inclusive (v : T) | Exclusive (v : T) | Unbounded.
Arguments Inclusive {T}. Arguments Exclusive {T}. Arguments Unbounded {T}.
Inductive Range (T : Type) := Empty | NonEmpty (lower upper : RangeBound T).
Arguments Empty {T}. Arguments NonEmpty {T}.

(** An array as the crate's reader presents it: its element type, and its two fallible
    iterators run to the end. *)
Record PgArray := mk_pg_array {
  element_type : Oid;
  pg_dimensions : result str (list ArrayDimension);
  pg_values : result str (list (option bytes));
}.

(** The writers call back once per element or bound, and stop at the first error. *)
Class PgTypes := {
  array_to_sql : list ArrayDimension → Oid → list (result str (option bytes)) → result str bytes;
  array_from_sql : bytes → result str PgArray;
  empty_range_to_sql : bytes;
  range_to_sql : result str (RangeBound bytes) → result str (RangeBound bytes) → result str bytes;
  range_from_sql : bytes → result str (Range (option bytes));
}.

Definition bound_map {A B} (f : A → B) (b : RangeBound A) : RangeBound B :=
  match b with Inclusive v => Inclusive (f v) | Exclusive v => Exclusive (f v) | Unbounded => Unbounded end.

Class PgTypesLaws `{PgTypes} : Prop := {
  array_sql_round_trip dims oid elems b :
    array_to_sql dims oid (map Ok elems) = Ok b →
    array_from_sql b = Ok (mk_pg_array oid (Ok dims) (Ok elems));
  empty_range_round_trip : range_from_sql empty_range_to_sql = Ok Empty;
  range_sql_round_trip l u b :
    range_to_sql (Ok l) (Ok u) = Ok b →
    range_from_sql b = Ok (NonEmpty (bound_map Some l) (bound_map Some u));
}.

(** ** Helpers the three codecs share *)

(** [binary_scalar_oid] *)
Definition binary_scalar_oid {T} (c : Codec T) (context : str) : result Error Oid :=
  match enc_oids (enc c), n_columns (dec c) with
  | [oid], 1%nat =>
    if default FORMAT_TEXT (head (enc_formats (enc c))) =? FORMAT_BINARY then Ok oid
    else Err (Error.Codec (context ++ ": inner codec must use binary format"))
  | _, _ => Err (Error.Codec (context ++ ": inner codec must be scalar (1 OID / 1 column)"))
  end.

Definition one_slot {T} (c : Codec T) (context : str) (v : T) : result Error (option bytes) :=
  match encode (enc c) v [] with
  | (Err e, _) => Err e
  | (Ok _, [slot]) => Ok slot
  | (Ok _, _) => Err (Error.Codec (context ++ ": inner codec must produce exactly 1 parameter slot"))
  end.

(** The error of a callback reaches the caller rendered. *)
Definition rendered {A} (r : result Error A) : result str A := map_err Error_display r.
Definition codec_error {A} (context : str) (r : result str A) : result Error A :=
  map_err (λ e, Error.Codec (context ++ ": " ++ e)) r.

Definition column_bytes (columns : Slots) (context : str) : result Error bytes :=
  match columns with
  | [] => Err (Error.Codec (context ++ ": decoder needs 1 column, got 0"))
  | None :: _ => Err (Error.Codec (context ++ ": unexpected NULL; use nullable() to allow it"))
  | Some b :: _ => Ok b
  end.

Definition unsupported (context : str) (oid : Oid) : Error :=
  Error.Codec (context ++ ": unsupported inner OID " ++ Text.dec oid).

(** The codec value's OID: the composite of the inner codec's first OID, or 0. *)
Definition composite_oid {T} (of_scalar : Oid → option Oid) (c : Codec T) : Oid :=
  default 0 (of_scalar (default 0 (head (enc_oids (enc c))))).

(** ** Arrays *)
Record Array (T : Type) := mk_array { dimensions : list ArrayDimension; values : list T }.
Arguments mk_array {T}. Arguments dimensions {T}. Arguments values {T}.

(** [usize] is 64 bits; the product is checked. *)
Fixpoint shape_size (dims : list ArrayDimension) (expected : Z) : result Error Z :=
  match dims with
  | [] => Ok expected
  | d :: dims =>
    if dim_len d <? 0 then Err (Error.Codec "array: dimension length cannot be negative")
    else if 2 ^ 64 <=? expected * dim_len d
         then Err (Error.Codec "array: too many elements for declared dimensions")
    else shape_size dims (expected * dim_len d)
  end.

Definition validate_shape (dims : list ArrayDimension) (value_len : nat) : result Error unit :=
  match dims with
  | [] =>
    if (value_len =? 0)%nat then Ok tt
    else Err (Error.Codec "array: zero-dimensional arrays must not carry element values")
  | _ =>
    expected ← shape_size dims 1;
    if expected =? Z.of_nat value_len then Ok tt
    else Err (Error.Codec ("array: shape declares " ++ Text.dec expected ++ " elements, got "
                           ++ Text.dec (Z.of_nat value_len)))
  end.

Definition Array_new {T} (dims : list ArrayDimension) (vs : list T) : result Error (Array T) :=
  validate_shape dims (length vs);; Ok (mk_array dims vs).

(** [Array::from_vec]; its [expect] needs fewer than 2^31 elements. *)
Definition Array_from_vec {T} (vs : list T) : Array T :=
  mk_array (match vs with [] => [] | _ => [mk_dim (Z.of_nat (length vs)) 1] end) vs.

Definition array_oids : list (Oid * Oid) :=
  [(BOOL, BOOL_ARRAY); (BYTEA, BYTEA_ARRAY); (INT2, INT2_ARRAY); (INT4, INT4_ARRAY);
   (TEXT, TEXT_ARRAY); (INT8, INT8_ARRAY); (FLOAT4, FLOAT4_ARRAY); (FLOAT8, FLOAT8_ARRAY);
   (VARCHAR, VARCHAR_ARRAY); (BPCHAR, BPCHAR_ARRAY); (INET, INET_ARRAY); (CIDR, CIDR_ARRAY);
   (DATE, DATE_ARRAY); (TIME, TIME_ARRAY); (TIMESTAMP, TIMESTAMP_ARRAY);
   (TIMESTAMPTZ, TIMESTAMPTZ_ARRAY); (INTERVAL, INTERVAL_ARRAY); (UUID, UUID_ARRAY)].
Definition range_oids : list (Oid * Oid) :=
  [(INT4, INT4_RANGE); (INT8, INT8_RANGE); (NUMERIC, NUM_RANGE); (DATE, DATE_RANGE);
   (TIMESTAMP, TS_RANGE); (TIMESTAMPTZ, TSTZ_RANGE)].
Definition multirange_oids : list (Oid * Oid) :=
  [(INT4, INT4_MULTIRANGE); (INT8, INT8_MULTIRANGE); (NUMERIC, NUM_MULTIRANGE);
   (DATE, DATE_MULTIRANGE); (TIMESTAMP, TS_MULTIRANGE); (TIMESTAMPTZ, TSTZ_MULTIRANGE)].

Definition oid_in (table : list (Oid * Oid)) (oid : Oid) : option Oid :=
  snd <$> find (λ x, x.1 =? oid) table.
Definition array_oid_for_scalar_oid : Oid → option Oid := oid_in array_oids.
Definition range_oid_for_scalar_oid : Oid → option Oid := oid_in range_oids.
Definition multirange_oid_for_scalar_oid : Oid → option Oid := oid_in multirange_oids.

Section composite.
Context `{PgTypes} {T : Type}.
Variable c : Codec T.

Definition array_encode (v : Array T) : SE Slots Error unit := λ ps,
  match
    (validate_shape (dimensions v) (length (values v));;
     element_oid ← binary_scalar_oid c "array";
     if composite_oid array_oid_for_scalar_oid c =? 0 then Err (unsupported "array" element_oid)
     else codec_error "array" (array_to_sql (dimensions v) element_oid
            (map (λ item, rendered (one_slot c "array" item)) (values v))))
  with
  | Ok b => push (Some b) ps
  | Err e => (Err e, ps)
  end.

Definition array_decode (columns : Slots) : result Error (Array T) :=
  b ← column_bytes columns "array";
  a ← codec_error "array" (array_from_sql b);
  expected ← binary_scalar_oid c "array";
  if composite_oid array_oid_for_scalar_oid c =? 0 then Err (unsupported "array" expected)
  else if negb (element_type a =? expected) then
    Err (Error.Codec ("array: server element OID " ++ Text.dec (element_type a)
           ++ " does not match inner codec OID " ++ Text.dec expected))
  else
    dims ← codec_error "array" (pg_dimensions a);
    elems ← codec_error "array" (pg_values a);
    vs ← map_result (λ cell, decode (Codec.dec c) [cell]) elems;
    Array_new dims vs.

Definition composite (oid : Oid) {V} (e : V → SE Slots Error unit) (d : Slots → result Error V) : Codec V :=
  mk_codec (mk_encoder e [oid] (types_for_oids [oid]) [FORMAT_BINARY])
           (mk_decoder d 1 [oid] (types_for_oids [oid]) [FORMAT_BINARY]).

Definition array : Codec (Array T) :=
  composite (composite_oid array_oid_for_scalar_oid c) array_encode array_decode.

(** ** Ranges *)

(** [encode_scalar] of [range.rs]: a NULL bound is refused. *)
Definition range_scalar (v : T) : result Error bytes :=
  slot ← one_slot c "range" v;
  ok_or slot (Error.Codec "range: NULL bounds are invalid; use unbounded instead").

Definition encode_bound (b : RangeBound T) : result Error (RangeBound bytes) :=
  match b with
  | Unbounded => Ok Unbounded
  | Inclusive v => Inclusive <$> range_scalar v
  | Exclusive v => Exclusive <$> range_scalar v
  end.

Definition encode_range_value (v : Range T) : result Error bytes :=
  match v with
  | Empty => Ok empty_range_to_sql
  | NonEmpty lower upper =>
    codec_error "range" (range_to_sql (rendered (encode_bound lower)) (rendered (encode_bound upper)))
  end.

Definition decode_scalar (b : bytes) (expected_oid : Oid) : result Error T :=
  oid ← ok_or (head (dec_oids (Codec.dec c))) (Error.Codec "range: inner codec produced no OIDs");
  if negb (oid =? expected_oid) then
    Err (Error.Codec ("range: server element OID " ++ Text.dec expected_oid
           ++ " does not match inner codec OID " ++ Text.dec oid))
  else decode (Codec.dec c) [Some b].

Definition decode_bound (b : RangeBound (option bytes)) (expected_oid : Oid) : result Error (RangeBound T) :=
  match b with
  | Unbounded => Ok Unbounded
  | Inclusive (Some b) => Inclusive <$> decode_scalar b expected_oid
  | Exclusive (Some b) => Exclusive <$> decode_scalar b expected_oid
  | Inclusive None | Exclusive None =>
    Err (Error.Codec "range: NULL bounds are invalid; use unbounded instead")
  end.

Definition decode_range_value (b : bytes) (expected_oid : Oid) : result Error (Range T) :=
  r ← codec_error "range" (range_from_sql b);
  match r with
  | Empty => Ok Empty
  | NonEmpty lower upper =>
    l ← decode_bound lower expected_oid;
    u ← decode_bound upper expected_oid;
    Ok (NonEmpty l u)
  end.

(** The checks [RangeCodec] and [MultirangeCodec] make first. *)
Definition range_checks (context : str) (of_scalar : Oid → option Oid) : result Error Oid :=
  element_oid ← binary_scalar_oid c context;
  if composite_oid of_scalar c =? 0 then Err (unsupported context element_oid) else Ok element_oid.

Definition push_result (r : result Error bytes) : SE Slots Error unit := λ ps,
  match r with Ok b => push (Some b) ps | Err e => (Err e, ps) end.

Definition range_encode (v : Range T) : SE Slots Error unit :=
  push_result (range_checks "range" range_oid_for_scalar_oid;; encode_range_value v).

Definition range_decode (columns : Slots) : result Error (Range T) :=
  b ← column_bytes columns "range";
  expected ← range_checks "range" range_oid_for_scalar_oid;
  decode_range_value b expected.

Definition range : Codec (Range T) :=
  composite (composite_oid range_oid_for_scalar_oid c) range_encode range_decode.

(** ** Multiranges: a count, then each range behind its length *)
Definition i32_len (n : nat) (e : Error) : result Error bytes :=
  if Z.of_nat n <? 2 ^ 31 then Ok (to_be_bytes 4 (Z.of_nat n)) else Err e.

Definition encode_one_range (v : Range T) : result Error bytes :=
  b ← encode_range_value v;
  len ← i32_len (length b) (Error.Codec "multirange: encoded range too large");
  Ok (len ++ b).

Definition multirange_encode (v : list (Range T)) : SE Slots Error unit :=
  push_result
    (range_checks "multirange" multirange_oid_for_scalar_oid;;
     count ← i32_len (length v) (Error.Codec "multirange: too many ranges");
     rs ← map_result encode_one_range v;
     Ok (count ++ concat rs)).

Definition invalid_size : Error := Error.Codec "multirange: invalid message size".

(** [bytes.get(offset..offset + n)], on what is left from [offset]. *)
Definition get_bytes (n : nat) (b : bytes) : result Error (bytes * bytes) :=
  if (length b <? n)%nat then Err invalid_size else Ok (take n b, drop n b).

Fixpoint decode_ranges (count : nat) (b : bytes) (expected : Oid) : result Error (list (Range T) * bytes) :=
  match count with
  | O => Ok ([], b)
  | S count =>
    '(len, b) ← get_bytes 4 b;
    if from_be_i len <? 0 then Err (Error.Codec "multirange: invalid embedded range size")
    else
      '(rb, b) ← get_bytes (Z.to_nat (from_be_i len)) b;
      r ← decode_range_value rb expected;
      '(rs, b) ← decode_ranges count b expected;
      Ok (r :: rs, b)
  end.

Definition multirange_decode (columns : Slots) : result Error (list (Range T)) :=
  b ← column_bytes columns "multirange";
  expected ← range_checks "multirange" multirange_oid_for_scalar_oid;
  '(count, b) ← get_bytes 4 b;
  if from_be_i count <? 0 then Err (Error.Codec "multirange: invalid range count")
  else
    '(rs, b) ← decode_ranges (Z.to_nat (from_be_i count)) b expected;
    match b with
    | [] => Ok rs
    | _ => Err invalid_size
    end.

Definition multirange : Codec (list (Range T)) :=
  composite (composite_oid multirange_oid_for_scalar_oid c) multirange_encode multirange_decode.
End composite.

(** ** The tables agree with the type catalogue *)
Definition name_of (oid : Oid) : option str := ty_name <$> known_type_for_oid oid.

Lemma array_oids_named :
  Forall (λ x, name_of x.2 = app "_" <$> name_of x.1) array_oids.
Proof. apply (bool_decide_unpack _). vm_compute. exact I. Qed.

(** ** Round trips *)
Section round_trips.
Context `{PgTypesLaws} {T : Type}.
Variables (c : Codec T) (ok : T → Prop).
Context `{!Lawful c ok}.

Lemma one_slot_decode context v slot :
  ok v → one_slot c context v = Ok slot → decode (Codec.dec c) [slot] = Ok v.
Proof.
  intros Hv. unfold one_slot. destruct (law_round_trip v [] Hv) as (slots & -> & _ & Hd).
  cbn. destruct slots as [|s [|??]]; try done. intros [= <-]. exact (Hd []).
Qed.

Lemma one_slots_decode context vs elems :
  Forall ok vs → map_result (one_slot c context) vs = Ok elems →
  map_result (λ cell, decode (Codec.dec c) [cell]) elems = Ok vs.
Proof.
  intros Hvs Hm%map_result_Ok. apply map_result_Ok. revert elems Hm.
  induction Hvs as [|v vs Hv _ IH]; intros elems Hm.
  - apply Forall2_nil_inv_l in Hm as ->. constructor.
  - apply Forall2_cons_inv_l in Hm as (e & es & He & Hes & ->).
    constructor; [by eapply one_slot_decode | by apply IH].
Qed.

(** A writer that succeeds was given successful callbacks only. *)
Definition stops_at_errors : Prop :=
  (∀ dims oid elems b, array_to_sql dims oid elems = Ok b → ∃ es, elems = map Ok es)
  ∧ (∀ l u b, range_to_sql l u = Ok b → ∃ l' u', l = Ok l' ∧ u = Ok u').

Lemma rendered_all {A} (f : T → result Error A) vs es :
  map (λ v, rendered (f v)) vs = map Ok es → map_result f vs = Ok es.
Proof.
  revert es. induction vs as [|v vs IH]; intros [|e es]; cbn; try done.
  intros [= Hv Hvs]. rewrite (IH _ Hvs). by destruct (f v); cbn in *; simplify_eq.
Qed.

Lemma push_result_Ok r ps slots :
  push_result r ps = (Ok tt, ps ++ slots) → ∃ b, r = Ok b ∧ slots = [Some b].
Proof.
  unfold push_result, push. destruct r as [b|]; [|done]. intros [= Hs].
  apply app_inv_head in Hs as <-. eauto.
Qed.

Lemma array_round_trip_lemma v ps slots rest :
  stops_at_errors → Forall ok (values v) →
  encode (enc (array c)) v ps = (Ok tt, ps ++ slots) →
  decode (Codec.dec (array c)) (slots ++ rest) = Ok v.
Proof.
  intros [Hstop _] Hok. cbn [array composite enc encode Codec.dec decode].
  unfold array_encode, array_decode.
  destruct (validate_shape (dimensions v) (length (values v))) as [[]|] eqn:Hshape; [|done].
  destruct (binary_scalar_oid c "array") as [oid|] eqn:Hoid; [|done]. cbn [mbind result_bind].
  destruct (composite_oid array_oid_for_scalar_oid c =? 0) eqn:Hz; [done|].
  destruct (array_to_sql (dimensions v) oid _) as [b|] eqn:Hsql; [|done]. cbn [codec_error map_err].
  intros [= Hs]. apply app_inv_head in Hs as <-.
  destruct (Hstop _ _ _ _ Hsql) as [es Hes]. rewrite Hes in Hsql.
  cbn [column_bytes app mbind result_bind]. rewrite (array_sql_round_trip _ _ _ _ Hsql).
  cbn [codec_error map_err mbind result_bind element_type pg_dimensions pg_values].
  rewrite Z.eqb_refl. cbn [negb].
  apply rendered_all in Hes. rewrite (one_slots_decode _ _ _ Hok Hes). cbn [mbind result_bind].
  unfold Array_new. rewrite Hshape. by destruct v.
Qed.

(** *** Ranges *)
Definition bound_ok (b : RangeBound T) : Prop :=
  match b with Inclusive v | Exclusive v => ok v | Unbounded => True end.
Definition range_ok (r : Range T) : Prop :=
  match r with Empty => True | NonEmpty l u => bound_ok l ∧ bound_ok u end.

Lemma range_scalar_decode oid v b :
  ok v → binary_scalar_oid c "range" = Ok oid ∨ binary_scalar_oid c "multirange" = Ok oid →
  range_scalar c v = Ok b → decode_scalar c b oid = Ok v.
Proof.
  intros Hv Hoid. unfold range_scalar, decode_scalar. intros (slot & Hs & Hb)%result_bind_Ok.
  destruct slot as [b'|]; [|done]. injection Hb as ->.
  rewrite (law_oids (c := c)).
  assert (enc_oids (enc c) = [oid]) as ->.
  { unfold binary_scalar_oid in Hoid. destruct (enc_oids (enc c)) as [|o [|??]]; [naive_solver..| |naive_solver].
    destruct (n_columns (Codec.dec c)) as [|[|?]]; [naive_solver| |naive_solver].
    destruct (_ =? FORMAT_BINARY); naive_solver. }
  cbn. rewrite Z.eqb_refl. cbn. by eapply one_slot_decode.
Qed.

Lemma encode_bound_decode oid b b' :
  bound_ok b → binary_scalar_oid c "range" = Ok oid ∨ binary_scalar_oid c "multirange" = Ok oid →
  encode_bound c b = Ok b' → decode_bound c (bound_map Some b') oid = Ok b.
Proof.
  intros Hb Hoid. destruct b as [v|v|]; cbn.
  - intros (x & Hx & ->)%result_fmap_Ok. cbn. by rewrite (range_scalar_decode oid v x).
  - intros (x & Hx & ->)%result_fmap_Ok. cbn. by rewrite (range_scalar_decode oid v x).
  - by intros [= <-].
Qed.

Lemma range_value_decode oid r b :
  stops_at_errors → range_ok r →
  binary_scalar_oid c "range" = Ok oid ∨ binary_scalar_oid c "multirange" = Ok oid →
  encode_range_value c r = Ok b → decode_range_value c b oid = Ok r.
Proof.
  intros [_ Hstop] Hr Hoid. unfold encode_range_value, decode_range_value.
  destruct r as [|l u]; [intros [= <-]; by rewrite empty_range_round_trip|].
  destruct (range_to_sql _ _) as [b'|] eqn:Hsql; [|done]. intros [= ->].
  destruct (Hstop _ _ _ Hsql) as (l' & u' & Hl & Hu). rewrite Hl, Hu in Hsql.
  rewrite (range_sql_round_trip _ _ _ Hsql). cbn.
  unfold rendered in Hl, Hu. apply map_err_Ok in Hl, Hu. destruct Hr as [Hlo Hup].
  by rewrite (encode_bound_decode oid l l'), (encode_bound_decode oid u u').
Qed.

Lemma range_checks_Ok context f oid :
  range_checks c context f = Ok oid → binary_scalar_oid c context = Ok oid.
Proof.
  unfold range_checks. destruct (binary_scalar_oid c context); [|done]. cbn.
  case_match; [done|]. by intros [= ->].
Qed.

Lemma range_round_trip_lemma r ps slots rest :
  stops_at_errors → range_ok r →
  encode (enc (range c)) r ps = (Ok tt, ps ++ slots) →
  decode (Codec.dec (range c)) (slots ++ rest) = Ok r.
Proof.
  intros Hstop Hr (b & Hb & ->)%push_result_Ok. cbn. unfold range_decode. cbn.
  destruct (range_checks c "range" _) as [oid|] eqn:Hoid; [|done]. cbn in Hb |- *.
  apply range_checks_Ok in Hoid. eapply range_value_decode; eauto.
Qed.

(** *** Multiranges *)
Lemma get_bytes_app n b rest : length b = n → get_bytes n (b ++ rest) = Ok (b, rest).
Proof.
  intros <-. unfold get_bytes. rewrite length_app, (proj2 (Nat.ltb_ge _ _)) by lia.
  by rewrite take_app_length, drop_app_length.
Qed.

Lemma i32_len_Ok n e b :
  i32_len n e = Ok b → length b = 4%nat ∧ from_be_i b = Z.of_nat n.
Proof.
  unfold i32_len. destruct (Z.ltb_spec (Z.of_nat n) (2 ^ 31)); [|done]. intros [= <-].
  split; [apply length_to_be_bytes|]. apply i32_round_trip. unfold in_sint. lia.
Qed.

Lemma decode_ranges_encoded oid rs bs rest :
  stops_at_errors → Forall range_ok rs → binary_scalar_oid c "multirange" = Ok oid →
  map_result (encode_one_range c) rs = Ok bs →
  decode_ranges c (length rs) (concat bs ++ rest) oid = Ok (rs, rest).
Proof.
  intros Hstop Hrs Hoid Hm%map_result_Ok. revert bs Hm.
  induction Hrs as [|r rs Hr _ IH]; intros bs Hm.
  { apply Forall2_nil_inv_l in Hm as ->. done. }
  apply Forall2_cons_inv_l in Hm as (b & bs' & Hb & Hbs & ->).
  unfold encode_one_range in Hb. apply result_bind_Ok in Hb as (rb & Hrb & Hb).
  apply result_bind_Ok in Hb as (len & Hlen & [= <-]).
  apply i32_len_Ok in Hlen as [Hl4 Hlen].
  cbn [length decode_ranges concat]. rewrite <- !app_assoc, get_bytes_app by done.
  cbn [mbind result_bind]. rewrite Hlen, (proj2 (Z.ltb_ge _ _)) by lia.
  rewrite Nat2Z.id, get_bytes_app by done. cbn [mbind result_bind].
  rewrite (range_value_decode oid r rb) by auto. cbn [mbind result_bind].
  by rewrite (IH bs' Hbs).
Qed.

Lemma multirange_round_trip_lemma rs ps slots rest :
  stops_at_errors → Forall range_ok rs →
  encode (enc (multirange c)) rs ps = (Ok tt, ps ++ slots) →
  decode (Codec.dec (multirange c)) (slots ++ rest) = Ok rs.
Proof.
  intros Hstop Hrs (b & Hb & ->)%push_result_Ok. cbn. unfold multirange_decode. cbn.
  destruct (range_checks c "multirange" _) as [oid|] eqn:Hoid; [|done]. cbn in Hb |- *.
  apply range_checks_Ok in Hoid.
  apply result_bind_Ok in Hb as (count & Hc & Hb). apply result_bind_Ok in Hb as (bs & Hbs & [= <-]).
  apply i32_len_Ok in Hc as [Hc4 Hc]. rewrite get_bytes_app by done. cbn [mbind result_bind].
  rewrite Hc, (proj2 (Z.ltb_ge _ _)) by lia. rewrite Nat2Z.id.
  rewrite <- (app_nil_r (concat bs)), (decode_ranges_encoded oid rs bs []) by done. done.
Qed.

End round_trips.

(** ** An instance of the interface

    Any injective byte encoding of the crate's data will do to show the laws can be met. *)
Fixpoint pos_bytes (p : positive) : bytes :=
  match p with xH => [] | xO p => x00 :: pos_bytes p | xI p => x01 :: pos_bytes p end.
Fixpoint bytes_pos (b : bytes) : positive :=
  match b with
  | [] => xH
  | x :: b => if byte_is x 0 then xO (bytes_pos b) else xI (bytes_pos b)
  end.

Lemma bytes_pos_bytes p : bytes_pos (pos_bytes p) = p.
Proof. induction p; cbn; by rewrite ?IHp. Qed.

Definition to_code {A} `{Countable A} (a : A) : bytes := pos_bytes (countable.encode a).
Definition of_code {A} `{Countable A} (b : bytes) : option A := countable.decode (bytes_pos b).

Lemma of_to_code {A} `{Countable A} (a : A) : of_code (to_code a) = Some a.
Proof. unfold of_code, to_code. by rewrite bytes_pos_bytes, countable.decode_encode. Qed.

Definition bound_code (b : RangeBound bytes) : Z * bytes :=
  match b with Inclusive v => (1, v) | Exclusive v => (2, v) | Unbounded => (0, []) end.
Definition code_bound (x : Z * bytes) : RangeBound (option bytes) :=
  if x.1 =? 1 then Inclusive (Some x.2) else if x.1 =? 2 then Exclusive (Some x.2) else Unbounded.

#[export] Instance toy_pg_types : PgTypes := {
  array_to_sql dims oid elems :=
    es ← map_result id elems;
    Ok (to_code (map (λ d, (dim_len d, lower_bound d)) dims, oid, es));
  array_from_sql b :=
    match of_code b with
    | Some (dims, oid, es) => Ok (mk_pg_array oid (Ok (map (λ x, mk_dim x.1 x.2) dims)) (Ok es))
    | None => Err "invalid array"
    end;
  empty_range_to_sql := to_code (None : option ((Z * bytes) * (Z * bytes)));
  range_to_sql l u := l ← l; u ← u; Ok (to_code (Some (bound_code l, bound_code u)));
  range_from_sql b :=
    match of_code b with
    | Some (Some (l, u)) => Ok (NonEmpty (code_bound l) (code_bound u))
    | Some None => Ok Empty
    | None => Err "invalid range"
    end;
}.

Lemma map_result_id_Ok {E A} (es : list A) : map_result (E := E) id (map Ok es) = Ok es.
Proof. apply map_result_Ok. by induction es; constructor. Qed.

#[export] Instance toy_pg_laws : PgTypesLaws.
Proof.
  split.
  - intros dims oid elems b. unfold array_to_sql, toy_pg_types. rewrite map_result_id_Ok.
    intros [= <-]. cbn. rewrite of_to_code, map_map.
    match goal with |- context [map ?f dims] => assert (map f dims = dims) as -> end; [|done].
    induction dims as [|[l b] dims IH]; [done|]. cbn in *. by rewrite IH.
  - cbn. by rewrite of_to_code.
  - intros l u b. cbn. intros [= <-]. rewrite of_to_code. by destruct l, u.
Qed.

Lemma toy_stops_at_errors : stops_at_errors.
Proof.
  split.
  - intros dims oid elems b. cbn. intros (es & Hes%map_result_Ok & _)%result_bind_Ok. exists es.
    induction Hes as [|e a elems es He _ IH]; cbn in *; [done|]. unfold id in He. by subst.
  - intros l u b. cbn. destruct l as [l|], u as [u|]; try done. eauto.
Qed.

Definition sample_ranges : list (Range Z) :=
  [NonEmpty (Inclusive 1) (Exclusive 5); Empty; NonEmpty Unbounded (Inclusive 9)].

