(* ===== verification/ScalarCodecs.v ===== *)
(** * Scalar codecs over the standard library and other crates

    [codec/primitive.rs] (floats), [interval.rs], [pgvector.rs], [citext.rs], [text_search.rs],
    [uuid.rs], [json.rs], [numeric.rs], [net.rs].

    An [f32] or [f64] is its bits.  Parsing one from text is the standard library's
    ([FloatText]); UUID text, JSON, decimals and the binary form of addresses are other crates'
    ([Uuids], [Json], [Decimals], [Inet]), with their documented round trips as laws.  The [Display]
    of their errors is the string they return. *)
From S2P Require Import Prelude Bytes Text Error Types Codec.
From coqutil Require Import Word.LittleEndianList.

Local Open Scope Z_scope.
Local Open Scope str_scope.

(** The first column, as these codecs all read it. *)
Definition column (kind : str) (columns : Slots) : result Error bytes :=
  match columns with
  | [] => Err (Error.Codec (kind ++ ": decoder needs 1 column, got 0"))
  | None :: _ => Err (Error.Codec (kind ++ ": unexpected NULL; use nullable() to allow it"))
  | Some b :: _ => Ok b
  end.
Definition utf8_column (kind : str) (columns : Slots) : result Error str :=
  b ← column kind columns;
  map_err (λ e, Error.Codec (kind ++ ": column not UTF-8: " ++ utf8_error_text e)) (from_utf8 b).

(** ** [float4] and [float8] *)
Class FloatText := { parse_f32 : str → result str Z; parse_f64 : str → result str Z }.

(** The bits of the special values. *)
Definition f32_nan : Z := 0x7fc00000.
Definition f32_infinity : Z := 0x7f800000.
Definition f32_neg_infinity : Z := 0xff800000.
Definition f64_nan : Z := 0x7ff8000000000000.
Definition f64_infinity : Z := 0x7ff0000000000000.
Definition f64_neg_infinity : Z := 0xfff0000000000000.

Section floats.
Context `{FloatText}.

Definition parse_float_f32 (s : str) : result Error Z :=
  if bool_decide (s = "NaN"%s) then Ok f32_nan
  else if bool_decide (s = "Infinity"%s) then Ok f32_infinity
  else if bool_decide (s = "-Infinity"%s) then Ok f32_neg_infinity
  else map_err (λ e, Error.Codec ("float4: " ++ e ++ " (got " ++ debug_str s ++ ")")) (parse_f32 s).
Definition parse_float_f64 (s : str) : result Error Z :=
  if bool_decide (s = "NaN"%s) then Ok f64_nan
  else if bool_decide (s = "Infinity"%s) then Ok f64_infinity
  else if bool_decide (s = "-Infinity"%s) then Ok f64_neg_infinity
  else map_err (λ e, Error.Codec ("float8: " ++ e ++ " (got " ++ debug_str s ++ ")")) (parse_f64 s).

(** The value, if the column is text. *)
Definition float_text (parse : str → result Error Z) (b : bytes) : option Z := s ← to_option (from_utf8 b); to_option (parse s).

(** Text first, then the binary form: the two codecs share their text. *)
Definition float_decode (kind : str) (parse : str → result Error Z) (n : nat) (columns : Slots) : result Error Z :=
  b ← primitive_bytes columns kind;
  match float_text parse b with
  | Some v => Ok v
  | None =>
    if (length b =? n)%nat then Ok (from_be_u b)
    else Err (Error.Codec (kind ++ ": cannot decode " ++ Text.dec (Z.of_nat (length b)) ++ " bytes as text or binary"))
  end.

Definition float4 : Codec Z := scalar FLOAT4 FORMAT_BINARY (to_be_bytes 4) (float_decode "float4" parse_float_f32 4).
Definition float8 : Codec Z := scalar FLOAT8 FORMAT_BINARY (to_be_bytes 8) (float_decode "float8" parse_float_f64 8).
End floats.

(** ** [interval] *)
Record Interval := mk_interval { months : Z; days : Z; microseconds : Z }.

Definition interval_encode (v : Interval) : bytes := to_be_bytes 8 (microseconds v) ++ to_be_bytes 4 (days v) ++ to_be_bytes 4 (months v).
Definition interval_decode (columns : Slots) : result Error Interval :=
  b ← column "interval" columns;
  if negb (length b =? 16)%nat then Err (Error.Codec ("interval: expected 16 binary bytes, got " ++ Text.dec (Z.of_nat (length b))))
  else Ok (mk_interval (from_be_i (slice 12 4 b)) (from_be_i (slice 8 4 b)) (from_be_i (slice 0 8 b))).
Definition interval : Codec Interval := scalar INTERVAL FORMAT_BINARY interval_encode interval_decode.

(** ** [vector] *)
Record Vector := mk_vector { values : list Z }.
(** [f32::is_finite]: the exponent is not all ones. *)
Definition f32_is_finite (v : Z) : bool := negb (Z.land v 0x7f800000 =? 0x7f800000).

Fixpoint first_not_finite (index : nat) (vs : list Z) : option nat :=
  match vs with
  | [] => None
  | v :: vs => if f32_is_finite v then first_not_finite (S index) vs else Some index
  end.
Definition validate_values (vs : list Z) : result Error unit :=
  if bool_decide (vs = []) then Err (Error.Codec "vector: pgvector values must contain at least 1 dimension")
  else match first_not_finite 0 vs with
       | Some index => Err (Error.Codec ("vector: element " ++ Text.dec (Z.of_nat index) ++ " is not finite"))
       | None => Ok tt
       end.
Definition Vector_new (vs : list Z) : result Error Vector := _ ← validate_values vs; Ok (mk_vector vs).
Definition dimensions (v : Vector) : nat := length (values v).

Definition vector_encode (v : Vector) : SE Slots Error unit :=
  _ ← lift (validate_values (values v));
  if 2 ^ 15 <=? Z.of_nat (dimensions v) then throw (Error.Codec "vector: too many dimensions for binary encoding")
  else push (Some (to_be_bytes 2 (Z.of_nat (dimensions v)) ++ to_be_bytes 2 0 ++ concat (map (to_be_bytes 4) (values v)))).

(** [chunks_exact(4)]: what is left over is dropped. *)
Fixpoint chunks4 (b : bytes) : list bytes :=
  match b with
  | b1 :: b2 :: b3 :: b4 :: rest => [b1; b2; b3; b4] :: chunks4 rest
  | _ => []
  end.

Definition parse_binary_vector (b : bytes) : result Error Vector :=
  if (length b <? 4)%nat then Err (Error.Codec ("vector: binary value too short (" ++ Text.dec (Z.of_nat (length b)) ++ " bytes)"))
  else
    let dims := from_be_i (slice 0 2 b) in
    if dims <=? 0 then Err (Error.Codec ("vector: binary dimension count must be positive, got " ++ Text.dec dims))
    else
      let unused := from_be_i (slice 2 2 b) in
      if negb (unused =? 0) then Err (Error.Codec ("vector: expected unused header field to be 0, got " ++ Text.dec unused))
      else
        let expected_len := 4 + dims * 4 in
        if negb (Z.of_nat (length b) =? expected_len) then
          Err (Error.Codec ("vector: binary length mismatch, header says " ++ Text.dec dims ++ " dims (" ++ Text.dec expected_len
            ++ " bytes) but value has " ++ Text.dec (Z.of_nat (length b)) ++ " bytes"))
        else Vector_new (map from_be_u (chunks4 (drop 4 b))).

Section vectors.
Context `{FloatText}.

Definition vector_part (text part : str) : result Error Z :=
  let part := Text.trim part in
  if bool_decide (part = []) then Err (Error.Codec ("vector: invalid text representation " ++ debug_str text))
  else map_err (λ e, Error.Codec ("vector: " ++ e ++ " (got " ++ debug_str part ++ ")")) (parse_f32 part).

Definition parse_text_vector (b : bytes) : result Error Vector :=
  text ← map_err (λ e, Error.Codec ("vector: " ++ utf8_error_text e)) (from_utf8 b);
  let text := Text.trim text in
  inner ← ok_or (rest ← Text.strip_prefix "[" text; Text.strip_suffix "]" rest)
            (Error.Codec ("vector: invalid text representation " ++ debug_str text));
  vs ← map_result (vector_part text) (split_byte x2c inner);
  Vector_new vs.

Definition vector_decode (columns : Slots) : result Error Vector :=
  b ← column "vector" columns;
  if bool_decide (is_Some (Text.strip_prefix "[" b)) then parse_text_vector b else parse_binary_vector b.

Definition vector : Codec Vector :=
  mk_codec (mk_encoder vector_encode [0] [VECTOR_TYPE] [FORMAT_BINARY]) (mk_decoder vector_decode 1 [0] [VECTOR_TYPE] [FORMAT_BINARY]).
End vectors.

(** ** Text: [citext], [tsvector], [tsquery] *)
Definition citext : Codec str :=
  mk_codec (mk_encoder (λ s, push (Some s)) [0] [CITEXT_TYPE] [FORMAT_TEXT])
    (mk_decoder (utf8_column "citext") 1 [0] [CITEXT_TYPE] [FORMAT_TEXT]).

(** They give no format codes of their own: the trait's default is an empty list. *)
Record TsVector := mk_tsvector { tsvector_text : str }.
Record TsQuery := mk_tsquery { tsquery_text : str }.
Definition text_search {A} (kind : str) (oid : Oid) (as_str : A → str) (new : str → A) : Codec A :=
  mk_codec (mk_encoder (λ v, push (Some (as_str v))) [oid] (types_for_oids [oid]) [])
    (mk_decoder (λ columns, new <$> utf8_column kind columns) 1 [oid] (types_for_oids [oid]) []).
Definition tsvector : Codec TsVector := text_search "tsvector" TSVECTOR tsvector_text mk_tsvector.
Definition tsquery : Codec TsQuery := text_search "tsquery" TSQUERY tsquery_text mk_tsquery.

(** ** [uuid]: a value is its 16 bytes *)
Class Uuids := { uuid_parse : str → result str bytes }.
Definition uuid_decode `{Uuids} (columns : Slots) : result Error bytes :=
  b ← column "uuid" columns;
  if (length b =? 16)%nat then Ok b
  else
    text ← map_err (λ e, Error.Codec ("uuid: column not UTF-8: " ++ utf8_error_text e)) (from_utf8 b);
    map_err (λ e, Error.Codec ("uuid: " ++ e ++ " (got " ++ debug_str text ++ ")")) (uuid_parse text).
Definition uuid `{Uuids} : Codec bytes := scalar UUID FORMAT_BINARY id uuid_decode.

(** ** JSON: [json], [jsonb], [typed_json], [typed_json_text] *)
Class Json (T : Type) := { json_to_vec : T → result str bytes; json_from_slice : bytes → result str T }.
Class JsonLaws (T : Type) `{Json T} (json_ok : T → Prop) : Prop :=
  json_round_trip v : json_ok v → ∃ b, json_to_vec v = Ok b ∧ json_from_slice b = Ok v.

Section json.
Context {T : Type} `{Json T}.

Definition decode_json (kind : str) (columns : Slots) : result Error T :=
  b ← column kind columns; map_err (λ e, Error.Codec (kind ++ ": " ++ e)) (json_from_slice b).
Definition encode_json (kind : str) (v : T) : SE Slots Error unit :=
  b ← lift (map_err (λ e, Error.Codec (kind ++ ": " ++ e)) (json_to_vec v)); push (Some b).
Definition json_codec (kind : str) (oid : Oid) : Codec T :=
  mk_codec (mk_encoder (encode_json kind) [oid] (types_for_oids [oid]) [FORMAT_TEXT])
    (mk_decoder (decode_json kind) 1 [oid] (types_for_oids [oid]) [FORMAT_TEXT]).

Definition json : Codec T := json_codec "json" JSON.
Definition jsonb : Codec T := json_codec "jsonb" JSONB.
Definition typed_json : Codec T := json_codec "typed jsonb" JSONB.
Definition typed_json_text : Codec T := json_codec "typed json" JSON.
End json.

(** ** [numeric] *)
Class Decimals (D : Type) := { normalize : D → D; decimal_text : D → str; decimal_parse : str → result str D }.
(** [Decimal]'s equality does not see trailing zeros: it is the parameter [deq]. *)
Class DecimalLaws (D : Type) `{Decimals D} (deq : D → D → Prop) : Prop := {
  decimal_ascii d : utf8_valid (decimal_text d) = true;
  decimal_round_trip d : ∃ d', decimal_parse (decimal_text d) = Ok d' ∧ deq d' d;
  normalize_equal d : deq (normalize d) d;
  deq_trans a b c : deq a b → deq b c → deq a c;
}.
Definition numeric_decode {D} `{Decimals D} (columns : Slots) : result Error D :=
  text ← utf8_column "numeric" columns;
  map_err (λ e, Error.Codec ("numeric: " ++ e ++ " (got " ++ debug_str text ++ ")")) (decimal_parse text).
Definition numeric {D} `{Decimals D} : Codec D := scalar NUMERIC FORMAT_TEXT (λ d, decimal_text (normalize d)) numeric_decode.

(** ** [inet] and [cidr] *)
Inductive IpAddr := V4 (octets : bytes) | V6 (octets : bytes).
#[export] Instance IpAddr_eq_dec : EqDecision IpAddr.
Proof. solve_decision. Defined.
Definition host_mask (a : IpAddr) : Z := match a with V4 _ => 32 | V6 _ => 128 end.

Class Inet := { inet_to_sql : IpAddr → Z → bytes; inet_from_sql : bytes → result str (IpAddr * Z); ip_text : IpAddr → str }.
Class InetLaws `{Inet} : Prop := inet_round_trip a mask : 0 ≤ mask ≤ host_mask a → inet_from_sql (inet_to_sql a mask) = Ok (a, mask).

Section net.
Context `{Inet}.
Definition encode_host (a : IpAddr) : bytes := inet_to_sql a (host_mask a).
Definition decode_host (kind : str) (columns : Slots) : result Error IpAddr :=
  b ← column kind columns;
  parsed ← map_err (λ e, Error.Codec (kind ++ ": " ++ e)) (inet_from_sql b);
  if negb (parsed.2 =? host_mask parsed.1) then
    Err (Error.Codec (kind ++ ": " ++ ip_text parsed.1 ++ "/" ++ Text.dec parsed.2
      ++ " is not a host address; IpAddr codecs require a full-width netmask"))
  else Ok parsed.1.
Definition inet : Codec IpAddr := scalar INET FORMAT_BINARY encode_host (decode_host "inet").
Definition cidr : Codec IpAddr := scalar CIDR FORMAT_BINARY encode_host (decode_host "cidr").
End net.

(** ** What they promise *)
Section laws.
Implicit Types (rest : Slots).

#[export] Instance float_lawful kind parse n oid : (0 < n)%nat →
  Lawful (scalar oid FORMAT_BINARY (to_be_bytes n) (float_decode kind parse n))
    (λ v, in_uint (8 * Z.of_nat n) v ∧ float_text parse (to_be_bytes n v) = None).
Proof.
  intros Hn. apply scalar_lawful. intros v rest [Hv Ht]. unfold float_decode. cbn [primitive_bytes mbind result_bind].
  rewrite Ht, length_to_be_bytes, Nat.eqb_refl, from_be_u_to_be. f_equal. by apply wrap_uint_id.
Qed.

Definition interval_ok (v : Interval) : Prop := in_sint 32 (months v) ∧ in_sint 32 (days v) ∧ in_sint 64 (microseconds v).

#[export] Instance interval_lawful : Lawful interval interval_ok.
Proof.
  apply scalar_lawful. intros [m d u] rest (Hm & Hd & Hu). cbn [months days microseconds] in *. unfold interval_decode, interval_encode.
  cbn [column mbind result_bind months days microseconds].
  rewrite !length_app, !length_to_be_bytes. cbn [Nat.add Nat.eqb negb].
  assert (slice 0 8 (to_be_bytes 8 u ++ to_be_bytes 4 d ++ to_be_bytes 4 m) = to_be_bytes 8 u) as ->
    by exact (slice_app [] (to_be_bytes 8 u) (to_be_bytes 4 d ++ to_be_bytes 4 m) 8 (length_to_be_bytes 8 u)).
  assert (slice 8 4 (to_be_bytes 8 u ++ to_be_bytes 4 d ++ to_be_bytes 4 m) = to_be_bytes 4 d) as ->.
  { pose proof (slice_app (to_be_bytes 8 u) (to_be_bytes 4 d) (to_be_bytes 4 m) 4 (length_to_be_bytes 4 d)) as Hs. by rewrite length_to_be_bytes in Hs. }
  assert (slice 12 4 (to_be_bytes 8 u ++ to_be_bytes 4 d ++ to_be_bytes 4 m) = to_be_bytes 4 m) as ->.
  { pose proof (slice_app (to_be_bytes 8 u ++ to_be_bytes 4 d) (to_be_bytes 4 m) [] 4 (length_to_be_bytes 4 m)) as Hs.
    by rewrite length_app, !length_to_be_bytes, app_nil_r, <- (assoc_L (++)) in Hs. }
  by rewrite i32_round_trip, i32_round_trip, i64_round_trip.
Qed.

Definition vector_ok (v : Vector) : Prop :=
  validate_values (values v) = Ok tt ∧ Forall (in_uint 32) (values v) ∧ Z.of_nat (dimensions v) < 23296.

Lemma chunks4_concat vs : chunks4 (concat (map (to_be_bytes 4) vs)) = map (to_be_bytes 4) vs.
Proof.
  induction vs as [|v vs IH]; [done|]. cbn [map concat]. pose proof (length_to_be_bytes 4 v) as Hl.
  destruct (to_be_bytes 4 v) as [|b1 [|b2 [|b3 [|b4 [|]]]]]; try done. cbn. by rewrite IH.
Qed.

Lemma length_concat_be vs : length (concat (map (to_be_bytes 4) vs)) = (4 * length vs)%nat.
Proof. induction vs as [|v vs IH]; [done|]. cbn [map concat length]. rewrite length_app, length_to_be_bytes, IH. lia. Qed.

(** A vector of fewer than 23296 dimensions does not begin with a bracket. *)
Lemma dims_no_bracket n (tl : bytes) : Z.of_nat n < 23296 → Text.strip_prefix "[" (to_be_bytes 2 (Z.of_nat n) ++ tl) = None.
Proof.
  intros Hn. assert (to_be_bytes 2 (Z.of_nat n) = [byte_of (Z.of_nat n / 256); byte_of (Z.of_nat n)]) as ->.
  { unfold to_be_bytes. change (le_split 2 (Z.of_nat n)) with [byte_of (Z.of_nat n); byte_of (Z.shiftr (Z.of_nat n) 8)].
    by rewrite Z.shiftr_div_pow2 by lia. }
  cbn [app Text.strip_prefix]. destruct (byte_of (Z.of_nat n / 256)) eqn:Hb; try done. exfalso.
  apply (f_equal u8_of) in Hb. rewrite u8_of_byte_of in Hb.
  - change (u8_of x5b) with 91 in Hb. pose proof (Z.div_lt_upper_bound (Z.of_nat n) 256 91). lia.
  - split; [apply Z.div_pos; lia|apply Z.div_lt_upper_bound; lia].
Qed.

Lemma parse_binary_vector_encoded vs : validate_values vs = Ok tt → Forall (in_uint 32) vs → Z.of_nat (length vs) < 23296 →
  parse_binary_vector (to_be_bytes 2 (Z.of_nat (length vs)) ++ to_be_bytes 2 0 ++ concat (map (to_be_bytes 4) vs)) = Ok (mk_vector vs).
Proof.
  intros Hv Hr Hl. assert (Hne : vs ≠ []) by (intros ->; cbn in Hv; discriminate).
  assert (Hpos : (0 < length vs)%nat) by (destruct vs; [done|cbn; lia]).
  set (head := to_be_bytes 2 (Z.of_nat (length vs))). set (body := concat (map (to_be_bytes 4) vs)).
  assert (Hhead : length head = 2%nat) by apply length_to_be_bytes.
  assert (Hlen : length (head ++ to_be_bytes 2 0 ++ body) = (4 + 4 * length vs)%nat).
  { unfold body. rewrite !length_app, Hhead, length_to_be_bytes, length_concat_be. lia. }
  unfold parse_binary_vector. rewrite Hlen. rewrite (proj2 (Nat.ltb_ge _ _)) by lia.
  assert (slice 0 2 (head ++ to_be_bytes 2 0 ++ body) = head) as -> by exact (slice_app [] head _ 2 Hhead).
  assert (slice 2 2 (head ++ to_be_bytes 2 0 ++ body) = to_be_bytes 2 0) as ->.
  { pose proof (slice_app head (to_be_bytes 2 0) body 2 (length_to_be_bytes 2 0)) as Hs. by rewrite Hhead in Hs. }
  assert (drop 4 (head ++ to_be_bytes 2 0 ++ body) = body) as ->.
  { rewrite (assoc_L (++)). apply drop_app_exact. by rewrite length_app, Hhead, length_to_be_bytes. }
  unfold head. rewrite !i16_round_trip by (unfold in_sint; lia). cbn [negb Z.eqb].
  rewrite (proj2 (Z.leb_gt _ _)) by lia. rewrite (proj2 (Z.eqb_eq _ _)) by lia. cbn [negb].
  unfold body. rewrite chunks4_concat, map_map.
  assert (map (λ v, from_be_u (to_be_bytes 4 v)) vs = vs) as ->.
  { clear -Hr. induction Hr as [|v vs Hv _ IH]; [done|]. cbn. by rewrite u32_round_trip, IH. }
  unfold Vector_new. by rewrite Hv.
Qed.

#[export] Instance vector_lawful `{FloatText} : Lawful vector vector_ok.
Proof.
  split; [done..|]. intros [vs] ps (Hv & Hr & Hl). unfold dimensions in Hl. cbn [values] in *.
  eexists [Some _]. cbn [encode enc vector]. unfold vector_encode, mbind, se_bind, lift. cbn [values]. rewrite Hv.
  unfold dimensions. cbn [values]. rewrite (proj2 (Z.leb_gt _ _)) by lia. split; [reflexivity|]. split; [done|]. intros rest.
  cbn [decode dec vector app]. unfold vector_decode. cbn [column mbind result_bind].
  rewrite dims_no_bracket by done. rewrite bool_decide_eq_false_2 by by intros []. by apply parse_binary_vector_encoded.
Qed.

Lemma utf8_column_ok kind s rest : utf8_valid s = true → utf8_column kind (Some s :: rest) = Ok s.
Proof. intros Hs. unfold utf8_column. cbn [column mbind result_bind]. by rewrite (proj2 (from_utf8_Ok s s) (conj eq_refl Hs)). Qed.

#[export] Instance citext_lawful : Lawful citext (λ s, utf8_valid s = true).
Proof.
  split; [done..|]. intros s ps Hs. exists [Some s]. split; [done|]. split; [done|]. intros rest. by apply utf8_column_ok.
Qed.

#[export] Instance text_search_lawful {A} kind oid (as_str : A → str) new : (∀ a, new (as_str a) = a) →
  Lawful (text_search kind oid as_str new) (λ a, utf8_valid (as_str a) = true).
Proof.
  intros Hnew. split; [done..|]. intros a ps Hs. exists [Some (as_str a)]. split; [done|]. split; [done|]. intros rest.
  cbn [decode dec text_search app]. rewrite utf8_column_ok by done. cbn. by rewrite Hnew.
Qed.

#[export] Instance uuid_lawful `{Uuids} : Lawful uuid (λ b, length b = 16%nat).
Proof. apply scalar_lawful. intros b rest Hb. unfold uuid_decode, id. cbn [column mbind result_bind]. by rewrite Hb. Qed.

#[export] Instance json_lawful {T} (json_ok : T → Prop) `{JsonLaws T json_ok} kind oid : Lawful (json_codec kind oid) json_ok.
Proof.
  split; [done..|]. intros v ps Hv. destruct (json_round_trip v Hv) as (b & He & Hd). exists [Some b].
  cbn [encode enc json_codec]. unfold encode_json, mbind, se_bind, lift. rewrite He. split; [done|]. split; [done|]. intros rest.
  cbn [decode dec json_codec app]. unfold decode_json. cbn [column mbind result_bind]. by rewrite Hd.
Qed.

#[export] Instance net_lawful `{InetLaws} kind oid : Lawful (scalar oid FORMAT_BINARY encode_host (decode_host kind)) (λ _, True).
Proof.
  apply scalar_lawful. intros a rest _. unfold decode_host, encode_host. cbn [column mbind result_bind].
  rewrite inet_round_trip by (destruct a; cbn; lia). cbn. by rewrite Z.eqb_refl.
Qed.

(** A decimal comes back equal, though not always with its trailing zeros. *)
Lemma numeric_round_trip {D} `{DecimalLaws D deq} d ps rest :
  ∃ slot d', encode (enc numeric) d ps = (Ok tt, ps ++ [slot]) ∧ decode (dec numeric) (slot :: rest) = Ok d' ∧ deq d' d.
Proof.
  destruct (decimal_round_trip (normalize d)) as (d' & Hp & He). eexists _, d'. split; [reflexivity|]. split.
  - cbn [decode dec numeric scalar]. unfold numeric_decode. rewrite utf8_column_ok by apply decimal_ascii. cbn. by rewrite Hp.
  - eapply deq_trans; [exact He|apply normalize_equal].
Qed.
End laws.

(** C35: every one of these codecs keeps the contract of the traits: one slot, one column, and
    what was encoded is decoded again, for the values it is for: floats whose binary form is not
    itself the text of a number, finite non-empty vectors, intervals of any sign. *)
Theorem scalar_codecs_lawful `{FloatText} `{Uuids} `{InetLaws} {T} (json_ok : T → Prop) `{JsonLaws T json_ok} :
  Lawful float4 (λ v, in_uint 32 v ∧ float_text parse_float_f32 (to_be_bytes 4 v) = None)
  ∧ Lawful float8 (λ v, in_uint 64 v ∧ float_text parse_float_f64 (to_be_bytes 8 v) = None)
  ∧ Lawful interval interval_ok ∧ Lawful vector vector_ok
  ∧ Lawful citext (λ s, utf8_valid s = true)
  ∧ Lawful tsvector (λ v, utf8_valid (tsvector_text v) = true) ∧ Lawful tsquery (λ v, utf8_valid (tsquery_text v) = true)
  ∧ Lawful uuid (λ b, length b = 16%nat) ∧ Lawful inet (λ _, True) ∧ Lawful cidr (λ _, True)
  ∧ Lawful json json_ok ∧ Lawful jsonb json_ok ∧ Lawful typed_json json_ok ∧ Lawful typed_json_text json_ok.
Proof.
  split_and!; try apply net_lawful; try (by eapply json_lawful); try (apply text_search_lawful; by intros []); try apply _.
  - by apply (float_lawful "float4" parse_float_f32 4 FLOAT4); lia.
  - by apply (float_lawful "float8" parse_float_f64 8 FLOAT8); lia.
Qed.

(** ** Where text and binary meet *)

(** The binary form of a float whose bytes are the digits of a number is read as that number. *)
Lemma float4_digits_confused `{FloatText} v : parse_f32 "1234" = Ok v → decode (dec float4) [Some (to_be_bytes 4 0x31323334)] = Ok v.
Proof.
  intros Hp. change (to_be_bytes 4 0x31323334) with ("1234"%s). cbn [decode dec float4 scalar]. unfold float_decode.
  cbn [primitive_bytes mbind result_bind]. unfold float_text.
  change (from_utf8 "1234") with (@Ok Utf8Error _ ("1234"%s)). cbn [to_option mbind option_bind].
  unfold parse_float_f32. rewrite !bool_decide_eq_false_2 by done. by rewrite Hp.
Qed.

(** A codec with no format codes shifts those of its neighbours: of the two parameters of this
    tuple one code is sent, which the server applies to both. *)
Example tsvector_tuple_formats :
  enc_formats (enc (tuple_codec [TsVector : Type; Z : Type] (tsvector, (int4, tt)))) = [FORMAT_BINARY]
  ∧ length (enc_oids (enc (tuple_codec [TsVector : Type; Z : Type] (tsvector, (int4, tt))))) = 2%nat.
Proof. done. Qed.

(** ** Witness: instances of the interfaces *)
Section instances.
Local Instance no_floats : FloatText := {| parse_f32 _ := Err "invalid float literal"; parse_f64 _ := Err "invalid float literal" |}.
Local Instance no_uuids : Uuids := {| uuid_parse _ := Err "invalid uuid" |}.
Local Instance str_json : Json str := {| json_to_vec := Ok; json_from_slice := Ok |}.
Local Instance str_json_laws : JsonLaws str (λ _, True).
Proof. intros v _. by exists v. Qed.
Local Instance plain_inet : Inet := {|
  inet_to_sql a mask := match a with V4 o => [x02; byte_of mask] ++ o | V6 o => [x03; byte_of mask] ++ o end;
  inet_from_sql b :=
    match b with
    | f :: m :: o => if byte_is f 2 then Ok (V4 o, u8_of m) else if byte_is f 3 then Ok (V6 o, u8_of m) else Err "invalid family"
    | _ => Err "invalid message length"
    end;
  ip_text _ := "address";
|}.
Local Instance plain_inet_laws : InetLaws.
Proof. intros [o|o] mask Hm; cbn in *; rewrite u8_of_byte_of by lia; reflexivity. Qed.

Lemma scalar_codecs_lawful_witness :
  vector_ok (mk_vector [0x3f800000; 0xc0200000]) ∧ Lawful vector vector_ok ∧ Lawful inet (λ _, True) ∧ Lawful (json (T := str)) (λ _, True).
Proof.
  split; [split_and!; [reflexivity|repeat constructor; unfold in_uint; lia|cbn; lia]|].
  pose proof (scalar_codecs_lawful (T := str) (λ _, True)) as (_ & _ & _ & Hv & _ & _ & _ & _ & Hi & _ & Hj & _). done.
Defined.
End instances.
