(* ===== verification/Temporal.v ===== *)
(** * Dates and times: [codec/time.rs] and [codec/chrono.rs]

    The two files are the same codec over two crates; they differ in how a time of day is taken
    apart.  A date or an instant is a value of the crate's type, with the crate's own arithmetic
    ([Dates], [Instants]); adding a duration panics when the result is out of the type's range,
    which is [None], here and in the decoders.  A duration is its number of nanoseconds.  The
    integers on the wire are written by [postgres-protocol] ([PgTime]). *)
From S2P Require Import Prelude Bytes Text Error Types Codec ScalarCodecs.

Local Open Scope Z_scope.
Local Open Scope str_scope.

(** ** Other crates *)
Class PgTime := {
  date_to_sql : Z → bytes; date_from_sql : bytes → result str Z;
  time_to_sql : Z → bytes; time_from_sql : bytes → result str Z;
  timestamp_to_sql : Z → bytes; timestamp_from_sql : bytes → result str Z;
}.
Class PgTimeLaws `{PgTime} : Prop := {
  date_sql_round_trip d : in_sint 32 d → date_from_sql (date_to_sql d) = Ok d;
  time_sql_round_trip t : in_sint 64 t → time_from_sql (time_to_sql t) = Ok t;
  timestamp_sql_round_trip t : in_sint 64 t → timestamp_from_sql (timestamp_to_sql t) = Ok t;
}.

Class Dates (D : Type) := {
  from_ymd : Z → Z → Z → option D;
  (** whole days from the second to the first *)
  days_between : D → D → Z;
  add_days : D → Z → option D;
}.
Class DateLaws (D : Type) `{Dates D} : Prop := {
  millennium : is_Some (from_ymd 2000 1 1);
  add_days_between a b : add_days b (days_between a b) = Some a;
}.

Class Instants (D T : Type) := {
  midnight : D → T;
  (** nanoseconds from the second to the first *)
  nanos_between : T → T → Z;
  add_nanos : T → Z → option T;
}.
Class InstantLaws (D T : Type) `{Instants D T} : Prop := {
  (** Instants between two instants exist, and are where they should be. *)
  add_nanos_between a b n : Z.abs n ≤ Z.abs (nanos_between a b) → 0 ≤ n * nanos_between a b →
    ∃ c, add_nanos b n = Some c ∧ nanos_between c b = n;
  nanos_between_inj a c b : nanos_between a b = nanos_between c b → a = c;
}.

Section codecs.
Context `{PgTime} {D T : Type} `{Dates D} `{Instants D T}.

Definition pg_epoch_date : option D := from_ymd 2000 1 1.
Definition pg_epoch : option T := midnight <$> pg_epoch_date.

(** ** Dates *)
Definition date_encode (name : str) (v : D) : option (SE Slots Error unit) :=
  epoch ← pg_epoch_date;
  let days := days_between v epoch in
  Some (if bool_decide (in_sint 32 days) then push (Some (date_to_sql days))
        else throw (Error.Codec (name ++ " out of Postgres range"))).

Definition date_decode (name : str) (columns : Slots) : option (result Error D) :=
  match column name columns with
  | Err e => Some (Err e)
  | Ok b =>
    match date_from_sql b with
    | Err e => Some (Err (Error.Codec (name ++ ": " ++ e)))
    | Ok days => epoch ← pg_epoch_date; Ok <$> add_days epoch days
    end
  end.

(** ** Instants: [timestamp] and, of the instant in UTC, [timestamptz] *)

(** [whole_microseconds], [num_microseconds]: towards zero. *)
Definition whole_microseconds (nanos : Z) : Z := Z.quot nanos 1000.

Definition timestamp_encode (name : str) (v : T) : option (SE Slots Error unit) :=
  epoch ← pg_epoch;
  let micros := whole_microseconds (nanos_between v epoch) in
  Some (if bool_decide (in_sint 64 micros) then push (Some (timestamp_to_sql micros))
        else throw (Error.Codec (name ++ " out of Postgres range"))).

Definition timestamp_decode (name : str) (columns : Slots) : option (result Error T) :=
  match column name columns with
  | Err e => Some (Err e)
  | Ok b =>
    match timestamp_from_sql b with
    | Err e => Some (Err (Error.Codec (name ++ ": " ++ e)))
    | Ok micros => epoch ← pg_epoch; Ok <$> add_nanos epoch (micros * 1000)
    end
  end.
End codecs.

(** ** Times of day *)

(** [time::Time] *)
Class TimeOfDay (T : Type) := {
  hour : T → Z; minute : T → Z; second : T → Z; nanosecond : T → Z;
  from_hms_nano : Z → Z → Z → Z → result str T;
}.
Class TimeOfDayLaws (T : Type) `{TimeOfDay T} : Prop := {
  hour_range t : 0 ≤ hour t < 24; minute_range t : 0 ≤ minute t < 60;
  second_range t : 0 ≤ second t < 60; nano_range t : 0 ≤ nanosecond t < 10 ^ 9;
  from_components h m s n : 0 ≤ h < 24 → 0 ≤ m < 60 → 0 ≤ s < 60 → 0 ≤ n < 10 ^ 9 →
    ∃ t, from_hms_nano h m s n = Ok t ∧ hour t = h ∧ minute t = m ∧ second t = s ∧ nanosecond t = n;
  components_inj t u : hour t = hour u → minute t = minute u → second t = second u → nanosecond t = nanosecond u → t = u;
  bad_hour h m s n : 24 ≤ h → is_err (from_hms_nano h m s n);
}.

Definition try_uint (w : Z) (z : Z) (e : Error) : result Error Z := if bool_decide (in_uint w z) then Ok z else Err e.

Section time.
Context `{PgTime} {T : Type} `{TimeOfDay T}.

Definition time_micros (v : T) : Z := hour v * 3600000000 + minute v * 60000000 + second v * 1000000 + Z.quot (nanosecond v) 1000.
Definition time_encode (v : T) : SE Slots Error unit := push (Some (time_to_sql (time_micros v))).

(** [div_euclid] and [rem_euclid] by a positive number are the floor's; [%] is the remainder of
    the division towards zero. *)
Definition time_of_micros (micros : Z) : result Error T :=
  h ← try_uint 8 (micros / 3600000000) (Error.Codec "time::Time: hour out of range");
  m ← try_uint 8 (Z.rem (micros / 60000000) 60) (Error.Codec "time::Time: minute out of range");
  s ← try_uint 8 (Z.rem (micros / 1000000) 60) (Error.Codec "time::Time: second out of range");
  n ← try_uint 32 (micros mod 1000000 * 1000) (Error.Codec "time::Time: nanosecond out of range");
  map_err (λ e, Error.Codec ("time::Time: " ++ e)) (from_hms_nano h m s n).
Definition time_decode (columns : Slots) : result Error T :=
  b ← column "time::Time" columns;
  micros ← map_err (λ e, Error.Codec ("time::Time: " ++ e)) (time_from_sql b);
  time_of_micros micros.
Definition time : Codec T :=
  mk_codec (mk_encoder time_encode [TIME] (types_for_oids [TIME]) [FORMAT_BINARY])
    (mk_decoder time_decode 1 [TIME] (types_for_oids [TIME]) [FORMAT_BINARY]).
End time.

(** [chrono::NaiveTime]: seconds of the day and nanoseconds, of which a leap second has more
    than [10 ^ 9]. *)
Class NaiveTime (T : Type) := {
  seconds_from_midnight : T → Z; subsec_nanos : T → Z;
  from_num_seconds_opt : Z → Z → option T;
}.
Class NaiveTimeLaws (T : Type) `{NaiveTime T} : Prop := {
  seconds_range t : 0 ≤ seconds_from_midnight t < 86400; subsec_range t : 0 ≤ subsec_nanos t < 2 * 10 ^ 9;
  from_seconds s n : 0 ≤ s < 86400 → 0 ≤ n < 10 ^ 9 → ∃ t, from_num_seconds_opt s n = Some t ∧ seconds_from_midnight t = s ∧ subsec_nanos t = n;
  naive_inj t u : seconds_from_midnight t = seconds_from_midnight u → subsec_nanos t = subsec_nanos u → t = u;
  bad_seconds s n : 86400 ≤ s → from_num_seconds_opt s n = None;
}.

Section naive_time.
Context `{PgTime} {T : Type} `{NaiveTime T}.

Definition naive_micros (v : T) : Z := seconds_from_midnight v * 1000000 + Z.quot (subsec_nanos v) 1000.
Definition chrono_time_encode (v : T) : SE Slots Error unit := push (Some (time_to_sql (naive_micros v))).
Definition naive_of_micros (micros : Z) : result Error T :=
  let secs := micros / 1000000 in
  let micros_part := micros mod 1000000 in
  nanos ← try_uint 32 (micros_part * 1000) (Error.Codec "chrono::NaiveTime: nanoseconds out of range");
  secs ← try_uint 32 secs (Error.Codec "chrono::NaiveTime: seconds out of range");
  ok_or (from_num_seconds_opt secs nanos) (Error.Codec "chrono::NaiveTime: invalid time value").
Definition chrono_time_decode (columns : Slots) : result Error T :=
  b ← column "chrono::NaiveTime" columns;
  micros ← map_err (λ e, Error.Codec ("chrono::NaiveTime: " ++ e)) (time_from_sql b);
  naive_of_micros micros.
Definition chrono_time : Codec T :=
  mk_codec (mk_encoder chrono_time_encode [TIME] (types_for_oids [TIME]) [FORMAT_BINARY])
    (mk_decoder chrono_time_decode 1 [TIME] (types_for_oids [TIME]) [FORMAT_BINARY]).
End naive_time.

(** ** Round trips *)
Lemma try_uint_ok w z e : in_uint w z → try_uint w z e = Ok z.
Proof. intros Hz. unfold try_uint. by rewrite bool_decide_eq_true_2. Qed.

Lemma div_of q r d z : 0 ≤ r < d → z = d * q + r → z / d = q.
Proof. intros Hr ->. symmetry. by apply (Z.div_unique_pos _ _ q r). Qed.
Lemma mod_of q r d z : 0 ≤ r < d → z = d * q + r → z mod d = r.
Proof. intros Hr ->. symmetry. by apply (Z.mod_unique_pos _ _ q r). Qed.

(** A number of microseconds, taken apart. *)
Lemma micros_parts h m s u z : 0 ≤ h → 0 ≤ m < 60 → 0 ≤ s < 60 → 0 ≤ u < 1000000 →
  z = h * 3600000000 + m * 60000000 + s * 1000000 + u →
  z / 3600000000 = h ∧ Z.rem (z / 60000000) 60 = m ∧ Z.rem (z / 1000000) 60 = s ∧ z mod 1000000 = u.
Proof.
  intros Hh Hm Hs Hu ->. split_and!.
  - apply (div_of h (m * 60000000 + s * 1000000 + u)); lia.
  - rewrite (div_of (h * 60 + m) (s * 1000000 + u)) by lia. rewrite Z.rem_mod_nonneg by lia. apply (mod_of h); lia.
  - rewrite (div_of (h * 3600 + m * 60 + s) u) by lia. rewrite Z.rem_mod_nonneg by lia. apply (mod_of (h * 60 + m)); lia.
  - apply (mod_of (h * 3600 + m * 60 + s)); lia.
Qed.

Lemma quot_1000 n w : 0 ≤ n < w * 1000 → 0 ≤ Z.quot n 1000 < w ∧ Z.quot n 1000 * 1000 = n - n mod 1000.
Proof.
  intros Hn. rewrite Z.quot_div_nonneg by lia. pose proof (Z.div_mod n 1000 ltac:(lia)). pose proof (Z.mod_pos_bound n 1000 ltac:(lia)).
  split; [|lia]. split; [apply Z.div_pos; lia|apply Z.div_lt_upper_bound; lia].
Qed.

Section times.
Context `{PgTimeLaws}.

Lemma time_round_trip {T} `{TimeOfDayLaws T} (v : T) rest :
  0 ≤ time_micros v < 86400000000 ∧
  ∃ v', time_decode (Some (time_to_sql (time_micros v)) :: rest) = Ok v'
    ∧ hour v' = hour v ∧ minute v' = minute v ∧ second v' = second v ∧ nanosecond v' = nanosecond v - nanosecond v mod 1000.
Proof.
  pose proof (hour_range v) as Hh. pose proof (minute_range v) as Hm. pose proof (second_range v) as Hs. pose proof (nano_range v) as Hn.
  destruct (quot_1000 (nanosecond v) 1000000) as [Hq Hq']; [lia|].
  assert (Hr : 0 ≤ time_micros v < 86400000000) by (unfold time_micros; lia). split; [done|].
  destruct (micros_parts (hour v) (minute v) (second v) (Z.quot (nanosecond v) 1000) (time_micros v)) as (E1 & E2 & E3 & E4); [lia..|done|].
  destruct (from_components (hour v) (minute v) (second v) (nanosecond v - nanosecond v mod 1000)) as (v' & Hv & Hparts); [lia..|].
  exists v'. split; [|done]. unfold time_decode. cbn [column mbind result_bind].
  rewrite time_sql_round_trip by (unfold in_sint; lia). cbn [map_err mbind result_bind]. unfold time_of_micros. rewrite E1, E2, E3, E4.
  rewrite !try_uint_ok by (unfold in_uint; lia). cbn [mbind result_bind]. by rewrite Hq', Hv.
Qed.

Lemma time_lawful {T} `{TimeOfDayLaws T} : Lawful (time (T := T)) (λ v, nanosecond v mod 1000 = 0).
Proof.
  split; [done..|]. intros v ps Hv. exists [Some (time_to_sql (time_micros v))]. split; [done|]. split; [done|]. intros rest.
  destruct (time_round_trip v rest) as (_ & v' & Hd & Eh & Em & Es & En). cbn [decode dec time app]. rewrite Hd. f_equal.
  apply components_inj; lia.
Qed.

(** The server's [24:00:00] is refused. *)
Lemma end_of_day_refused {T} `{TimeOfDayLaws T} rest : is_err (time_decode (T := T) (Some (time_to_sql 86400000000) :: rest)).
Proof.
  unfold time_decode. cbn [column mbind result_bind]. rewrite time_sql_round_trip by (unfold in_sint; lia). cbn [map_err mbind result_bind].
  unfold time_of_micros. rewrite !try_uint_ok by done. cbn [mbind result_bind].
  destruct (bad_hour (T := T) 24 0 0 0) as [e He]; [lia|]. eexists. change (86400000000 / 3600000000) with 24.
  change (Z.rem (86400000000 / 60000000) 60) with 0. change (Z.rem (86400000000 / 1000000) 60) with 0.
  change (86400000000 mod 1000000 * 1000) with 0. by rewrite He.
Qed.

(** Without a leap second. *)
Lemma chrono_time_lawful {T} `{NaiveTimeLaws T} : Lawful (chrono_time (T := T)) (λ v, subsec_nanos v mod 1000 = 0 ∧ subsec_nanos v < 10 ^ 9).
Proof.
  split; [done..|]. intros v ps [Hv Hlt]. exists [Some (time_to_sql (naive_micros v))]. split; [done|]. split; [done|]. intros rest.
  pose proof (seconds_range v) as Hs. pose proof (subsec_range v) as Hn. destruct (quot_1000 (subsec_nanos v) 1000000) as [Hq Hq']; [lia|].
  destruct (from_seconds (seconds_from_midnight v) (subsec_nanos v)) as (v' & Hf & Es & En); [lia..|].
  cbn [decode dec chrono_time app]. unfold chrono_time_decode. cbn [column mbind result_bind].
  rewrite time_sql_round_trip by (unfold in_sint, naive_micros; lia). cbn [map_err mbind result_bind]. unfold naive_of_micros.
  rewrite (div_of (seconds_from_midnight v) (Z.quot (subsec_nanos v) 1000)) by (unfold naive_micros; lia).
  rewrite (mod_of (seconds_from_midnight v) (Z.quot (subsec_nanos v) 1000)) by (unfold naive_micros; lia).
  rewrite !try_uint_ok by (unfold in_uint; lia). cbn [mbind result_bind]. replace (Z.quot (subsec_nanos v) 1000 * 1000) with (subsec_nanos v) by lia.
  rewrite Hf. cbn. f_equal. by apply naive_inj.
Qed.

(** A leap second is sent as the next second: the last of the day as [24:00:00], which the
    decoder refuses. *)
Lemma leap_second_refused {T} `{NaiveTimeLaws T} (v : T) rest : seconds_from_midnight v = 86399 → 10 ^ 9 ≤ subsec_nanos v →
  is_err (chrono_time_decode (T := T) (Some (time_to_sql (naive_micros v)) :: rest)).
Proof.
  intros Hs Hn. pose proof (subsec_range v). unfold chrono_time_decode. cbn [column mbind result_bind].
  destruct (quot_1000 (subsec_nanos v) 2000000) as [Hq Hq']; [lia|]. pose proof (Z.mod_pos_bound (subsec_nanos v) 1000 ltac:(lia)).
  assert (1000000 ≤ Z.quot (subsec_nanos v) 1000) by lia.
  rewrite time_sql_round_trip by (unfold in_sint, naive_micros; lia). cbn [map_err mbind result_bind]. unfold naive_of_micros.
  rewrite (div_of 86400 (Z.quot (subsec_nanos v) 1000 - 1000000)) by (unfold naive_micros; lia).
  rewrite (mod_of 86400 (Z.quot (subsec_nanos v) 1000 - 1000000)) by (unfold naive_micros; lia).
  rewrite !try_uint_ok by (unfold in_uint; lia). cbn [mbind result_bind]. rewrite bad_seconds by lia. by eexists.
Qed.
End times.

Section instants.
Context `{PgTimeLaws} {D T : Type} `{DateLaws D} `{!Instants D T} `{!InstantLaws D T}.

Lemma date_round_trip name (v : D) ps rest : ∃ epoch, pg_epoch_date = Some epoch ∧
  if bool_decide (in_sint 32 (days_between v epoch)) then
    ∃ slot, (m ← date_encode name v; Some (m ps)) = Some (Ok tt, ps ++ [slot]) ∧ date_decode name (slot :: rest) = Some (Ok v)
  else ∃ e, (m ← date_encode name v; Some (m ps)) = Some (Err e, ps).
Proof.
  destruct millennium as [epoch He]. exists epoch. split; [done|]. unfold date_encode, date_decode, pg_epoch_date. rewrite He. cbn [mbind option_bind].
  case_bool_decide as Hd; [|by eexists]. eexists. split; [reflexivity|]. cbn [column]. rewrite date_sql_round_trip by done.
  by rewrite add_days_between.
Qed.

(** The instant that comes back is the one sent, without the part of it below a microsecond,
    towards 2000-01-01. *)
Lemma timestamp_round_trip name (v : T) ps rest : ∃ epoch, pg_epoch (D := D) = Some epoch ∧
  let nanos := nanos_between v epoch in
  if bool_decide (in_sint 64 (whole_microseconds nanos)) then
    ∃ slot v', (m ← timestamp_encode (D := D) name v; Some (m ps)) = Some (Ok tt, ps ++ [slot])
      ∧ timestamp_decode (D := D) name (slot :: rest) = Some (Ok v')
      ∧ nanos_between v' epoch = nanos - Z.rem nanos 1000 ∧ (Z.rem nanos 1000 = 0 → v' = v)
  else ∃ e, (m ← timestamp_encode (D := D) name v; Some (m ps)) = Some (Err e, ps).
Proof.
  destruct (millennium (D := D)) as [d He]. exists (midnight d). unfold timestamp_encode, timestamp_decode, pg_epoch, pg_epoch_date. rewrite He.
  split; [done|]. cbv zeta. cbn [fmap option_fmap option_map mbind option_bind].
  set (n := nanos_between v (midnight d)). case_bool_decide as Hm; [|by eexists].
  assert (Hq : whole_microseconds n * 1000 = n - Z.rem n 1000) by (unfold whole_microseconds; pose proof (Z.quot_rem n 1000); lia).
  destruct (add_nanos_between v (midnight d) (whole_microseconds n * 1000)) as (c & Hc & Hn).
  - fold n. rewrite Hq. destruct (Z.le_gt_cases 0 n).
    + rewrite Z.rem_mod_nonneg by lia. pose proof (Z.mod_pos_bound n 1000). pose proof (Z.mod_le n 1000). lia.
    + pose proof (Z.rem_opp_l n 1000). pose proof (Z.rem_mod_nonneg (- n) 1000 ltac:(lia) ltac:(lia)).
      pose proof (Z.mod_pos_bound (- n) 1000). pose proof (Z.mod_le (- n) 1000). lia.
  - fold n. unfold whole_microseconds. pose proof (Z.quot_rem n 1000 ltac:(lia)). destruct (Z.le_gt_cases 0 n).
    + pose proof (Z.quot_pos n 1000). nia.
    + pose proof (Z.quot_opp_l n 1000). pose proof (Z.quot_pos (- n) 1000). nia.
  - eexists _, c. split; [reflexivity|]. cbn [column]. rewrite timestamp_sql_round_trip by done. rewrite Hc. split; [done|].
    split; [by rewrite Hn|]. intros Hz. apply (nanos_between_inj c v (midnight d)). fold n. lia.
Qed.

(** A value of the server beyond the type's range, such as [infinity], panics the decoder. *)
Lemma date_out_of_range name (epoch : D) days rest : pg_epoch_date = Some epoch → in_sint 32 days → add_days epoch days = None →
  date_decode (D := D) name (Some (date_to_sql days) :: rest) = None.
Proof. intros He Hd Ha. unfold date_decode. cbn [column]. rewrite date_sql_round_trip by done. rewrite He. cbn. by rewrite Ha. Qed.
End instants.


(** ** Instances: numbers of days and of nanoseconds *)
Section instances.
Local Instance be_time : PgTime := {|
  date_to_sql := to_be_bytes 4; date_from_sql b := if (length b =? 4)%nat then Ok (from_be_i b) else Err "invalid message length";
  time_to_sql := to_be_bytes 8; time_from_sql b := if (length b =? 8)%nat then Ok (from_be_i b) else Err "invalid message length";
  timestamp_to_sql := to_be_bytes 8; timestamp_from_sql b := if (length b =? 8)%nat then Ok (from_be_i b) else Err "invalid message length";
|}.
Local Instance be_time_laws : PgTimeLaws.
Proof.
  split; intros z Hz; cbn [date_to_sql date_from_sql time_to_sql time_from_sql timestamp_to_sql timestamp_from_sql be_time];
    rewrite length_to_be_bytes; cbn [Nat.eqb]; f_equal; by auto with babar.
Qed.
Local Instance day_numbers : Dates Z := {| from_ymd y m d := if (y =? 2000) && (m =? 1) && (d =? 1) then Some 0 else None;
  days_between a b := a - b; add_days b n := Some (b + n) |}.
Local Instance day_number_laws : DateLaws Z.
Proof. split; [by eexists|]. intros a b. cbn. f_equal. lia. Qed.
Local Instance nano_numbers : Instants Z Z := {| midnight d := d * 86400000000000; nanos_between a b := a - b; add_nanos b n := Some (b + n) |}.
Local Instance nano_number_laws : InstantLaws Z Z.
Proof. split; cbn; [intros a b n _ _; exists (b + n); split; [done|lia]|intros a c b; lia]. Qed.

(** A time is its nanoseconds since midnight. *)
Record DayNanos := mk_day_nanos { dn : Z; dn_ok : (0 <=? dn) && (dn <? 86400000000000) = true }.
Definition day_nanos (z : Z) : option DayNanos :=
  match bool_eq_dec ((0 <=? z) && (z <? 86400000000000)) true with left H => Some (mk_day_nanos z H) | right _ => None end.
Lemma day_nanos_Some z : 0 ≤ z < 86400000000000 → ∃ t, day_nanos z = Some t ∧ dn t = z.
Proof. intros Hz. unfold day_nanos. destruct (bool_eq_dec _ true) as [H|H]; [by eexists|]. exfalso. apply H. apply andb_true_iff. lia. Qed.
Lemma day_nanos_inj t u : dn t = dn u → t = u.
Proof. destruct t as [a Ha], u as [b Hb]. cbn. intros ->. f_equal. apply (proof_irrel Ha Hb). Qed.
Lemma dn_range t : 0 ≤ dn t < 86400000000000.
Proof. destruct t as [z Hz]. cbn. apply andb_true_iff in Hz. lia. Qed.

Local Instance day_time : TimeOfDay DayNanos := {|
  hour t := dn t / 3600000000000; minute t := dn t / 60000000000 mod 60; second t := dn t / 1000000000 mod 60; nanosecond t := dn t mod 1000000000;
  from_hms_nano h m s n := if (h <? 24) && (m <? 60) && (s <? 60) && (n <? 1000000000)
    then ok_or (day_nanos (((h * 60 + m) * 60 + s) * 1000000000 + n)) "out of range" else Err "out of range" |}.
Local Instance day_time_laws : TimeOfDayLaws DayNanos.
Proof.
  split.
  - intros t. pose proof (dn_range t). cbn. split; [apply Z.div_pos; lia|apply Z.div_lt_upper_bound; lia].
  - intros t. cbn. apply Z.mod_pos_bound. lia.
  - intros t. cbn. apply Z.mod_pos_bound. lia.
  - intros t. cbn. apply Z.mod_pos_bound. lia.
  - intros h m s n Hh Hm Hs Hn. cbn. destruct (day_nanos_Some (((h * 60 + m) * 60 + s) * 1000000000 + n)) as (t & Ht & Hd); [lia|].
    rewrite !(proj2 (Z.ltb_lt _ _)) by lia. cbn [andb]. rewrite Ht. exists t. rewrite Hd. split; [done|]. split_and!.
    + apply (div_of h ((m * 60 + s) * 1000000000 + n)); lia.
    + rewrite (div_of (h * 60 + m) (s * 1000000000 + n)) by lia. apply (mod_of h); lia.
    + rewrite (div_of ((h * 60 + m) * 60 + s) n) by lia. apply (mod_of (h * 60 + m)); lia.
    + apply (mod_of ((h * 60 + m) * 60 + s)); lia.
  - intros t u. cbn. intros Eh Em Es En. apply day_nanos_inj. pose proof (dn_range t). pose proof (dn_range u).
    assert (Hparts : ∀ z, 0 ≤ z → z = (z / 3600000000000 * 3600 + z / 60000000000 mod 60 * 60 + z / 1000000000 mod 60) * 1000000000 + z mod 1000000000).
    { intros z Hz. pose proof (Z.div_mod z 1000000000 ltac:(lia)). pose proof (Z.div_mod (z / 1000000000) 60 ltac:(lia)).
      pose proof (Z.div_mod (z / 60000000000) 60 ltac:(lia)). rewrite Z.div_div in * by lia. change (1000000000 * 60) with 60000000000 in *.
      change (60000000000 * 60) with 3600000000000 in *. lia. }
    rewrite (Hparts (dn t)), (Hparts (dn u)) by lia. by rewrite Eh, Em, Es, En.
  - intros h m s n Hh. cbn. rewrite (proj2 (Z.ltb_ge _ _)) by lia. by eexists.
Qed.

Local Instance day_seconds : NaiveTime DayNanos := {|
  seconds_from_midnight t := dn t / 1000000000; subsec_nanos t := dn t mod 1000000000;
  from_num_seconds_opt s n := if s <? 86400 then day_nanos (s * 1000000000 + n) else None |}.
Local Instance day_seconds_laws : NaiveTimeLaws DayNanos.
Proof.
  split.
  - intros t. pose proof (dn_range t). cbn. split; [apply Z.div_pos; lia|apply Z.div_lt_upper_bound; lia].
  - intros t. cbn. pose proof (Z.mod_pos_bound (dn t) 1000000000 ltac:(lia)). lia.
  - intros s n Hs Hn. cbn. rewrite (proj2 (Z.ltb_lt _ _)) by lia. destruct (day_nanos_Some (s * 1000000000 + n)) as (t & Ht & Hd); [lia|].
    exists t. rewrite Hd. split_and!; [done|apply (div_of s n); lia|apply (mod_of s n); lia].
  - intros t u. cbn. intros Es En. apply day_nanos_inj. pose proof (Z.div_mod (dn t) 1000000000 ltac:(lia)). pose proof (Z.div_mod (dn u) 1000000000 ltac:(lia)). lia.
  - intros s n Hs. cbn. by rewrite (proj2 (Z.ltb_ge _ _)) by lia.
Qed.

End instances.
