(* ===== verification/Spatial.v ===== *)
(** * PostGIS: [codec/postgis.rs]

    The [geometry] and [geography] codecs write and read EWKB, PostGIS's binary form: a byte
    order, a type with flags, an optional SRID, and coordinates, with geometries nested in the
    multi-part ones.  A coordinate is the [f64]'s 64 bits.

    The reader takes fuel: one unit per level of nesting and one per element of a count, the
    remaining length of the input and one more; [None] is running out of it, which
    [ewkb_codec] shows never happens.  A panic of the writer is [None] as well.

    The types of the [geo_types] crate are records of their public contents, except that a
    [Polygon] can only be built by [Polygon::new], which closes its rings: the operation that
    closes one is a parameter. *)
From S2P Require Import Prelude Bytes Text Error Types Codec.
From coqutil Require Import Word.LittleEndianList.

Local Open Scope Z_scope.
Local Open Scope str_scope.

(** ** Values *)
Inductive SpatialKind := KGeometry | KGeography.
Definition sql_name (k : SpatialKind) : str := match k with KGeometry => "geometry" | KGeography => "geography" end.

Record Srid := mk_srid { srid_get : Z }.
Definition WGS84 : Srid := mk_srid 4326.

Record Coord := mk_coord { c_x : Z; c_y : Z }.
Record Point := mk_point { p_x : Z; p_y : Z }.
Record LineString := mk_line_string { ls_coords : list Coord }.
Record Polygon := mk_polygon { exterior : LineString; interiors : list LineString }.
Record MultiPoint := mk_multi_point { mp_points : list Point }.
Record MultiLineString := mk_multi_line { ml_lines : list LineString }.
Record MultiPolygon := mk_multi_polygon { mpg_polygons : list Polygon }.

Inductive GeoGeometry :=
  | GPoint (p : Point) | GLine (a b : Coord) | GLineString (l : LineString) | GPolygon (p : Polygon)
  | GMultiPoint (p : MultiPoint) | GMultiLineString (l : MultiLineString) | GMultiPolygon (p : MultiPolygon)
  | GGeometryCollection (gs : list GeoGeometry) | GRect (low high : Coord) | GTriangle (a b c : Coord).

(** [Geometry<T>] and [Geography<T>], which differ in their kind only. *)
Record Spatial (T : Type) := mk_spatial { sp_value : T; sp_srid : option Srid }.
Arguments mk_spatial {T}. Arguments sp_value {T}. Arguments sp_srid {T}.
Definition spatial_new {T} (v : T) : Spatial T := mk_spatial v None.
Definition with_srid {T} (v : T) (s : Srid) : Spatial T := mk_spatial v (Some s).
Definition wgs84 {T} (v : T) : Spatial T := with_srid v WGS84.

Definition geometry_variant_name (g : GeoGeometry) : str :=
  match g with
  | GPoint _ => "Point" | GLine _ _ => "Line" | GLineString _ => "LineString" | GPolygon _ => "Polygon"
  | GMultiPoint _ => "MultiPoint" | GMultiLineString _ => "MultiLineString" | GMultiPolygon _ => "MultiPolygon"
  | GGeometryCollection _ => "GeometryCollection" | GRect _ _ => "Rect" | GTriangle _ _ _ => "Triangle"
  end.

Class GeoValue (T : Type) := { into_geometry : T → GeoGeometry; try_from_geometry : GeoGeometry → result Error T }.

Definition unexpected_variant (name : str) (other : GeoGeometry) : Error :=
  Error.Codec ("postgis: expected " ++ name ++ ", got " ++ geometry_variant_name other).

#[export] Instance geo_any : GeoValue GeoGeometry := {| into_geometry := id; try_from_geometry := Ok |}.
#[export] Instance geo_point : GeoValue Point :=
  {| into_geometry := GPoint; try_from_geometry g := match g with GPoint p => Ok p | other => Err (unexpected_variant "Point" other) end |}.
#[export] Instance geo_line_string : GeoValue LineString :=
  {| into_geometry := GLineString; try_from_geometry g := match g with GLineString p => Ok p | other => Err (unexpected_variant "LineString" other) end |}.
#[export] Instance geo_polygon : GeoValue Polygon :=
  {| into_geometry := GPolygon; try_from_geometry g := match g with GPolygon p => Ok p | other => Err (unexpected_variant "Polygon" other) end |}.
#[export] Instance geo_multi_point : GeoValue MultiPoint :=
  {| into_geometry := GMultiPoint; try_from_geometry g := match g with GMultiPoint p => Ok p | other => Err (unexpected_variant "MultiPoint" other) end |}.
#[export] Instance geo_multi_line : GeoValue MultiLineString :=
  {| into_geometry := GMultiLineString;
     try_from_geometry g := match g with GMultiLineString p => Ok p | other => Err (unexpected_variant "MultiLineString" other) end |}.
#[export] Instance geo_multi_polygon : GeoValue MultiPolygon :=
  {| into_geometry := GMultiPolygon;
     try_from_geometry g := match g with GMultiPolygon p => Ok p | other => Err (unexpected_variant "MultiPolygon" other) end |}.

(** ** EWKB *)
Definition WKB_POINT : Z := 1.
Definition WKB_LINESTRING : Z := 2.
Definition WKB_POLYGON : Z := 3.
Definition WKB_MULTIPOINT : Z := 4.
Definition WKB_MULTILINESTRING : Z := 5.
Definition WKB_MULTIPOLYGON : Z := 6.
Definition WKB_GEOMETRY_COLLECTION : Z := 7.
Definition EWKB_Z_FLAG : Z := 0x80000000.
Definition EWKB_M_FLAG : Z := 0x40000000.
Definition EWKB_SRID_FLAG : Z := 0x20000000.
Definition EWKB_TYPE_MASK : Z := 0x0000FFFF.

Definition postgis_error (k : SpatialKind) (m : str) : Error := Error.Codec ("postgis " ++ sql_name k ++ ": " ++ m).
Definition v1_limitation (k : SpatialKind) (geometry_name : str) : Error :=
  postgis_error k (geometry_name ++ " is intentionally unsupported in v1").

Definition to_le_bytes (n : nat) (z : Z) : bytes := le_split n z.
Definition from_le_u (bs : bytes) : Z := le_combine bs.

(** ** Writing: [None] is a panic, on a count that does not fit in a [u32]. *)
Definition u32_expect (n : nat) : option Z := if Z.of_nat n <? 2 ^ 32 then Some (Z.of_nat n) else None.
Definition usize_to_u32 (n : nat) (k : SpatialKind) (field : str) : result Error Z :=
  if Z.of_nat n <? 2 ^ 32 then Ok (Z.of_nat n) else Err (postgis_error k (field ++ " exceeds EWKB u32 limit")).

Definition write_coord (c : Coord) : bytes := to_le_bytes 8 (c_x c) ++ to_le_bytes 8 (c_y c).
Definition write_point (p : Point) : bytes := to_le_bytes 8 (p_x p) ++ to_le_bytes 8 (p_y p).
Definition write_line_string (l : LineString) : option bytes :=
  count ← u32_expect (length (ls_coords l));
  Some (to_le_bytes 4 count ++ concat (map write_coord (ls_coords l))).
Definition write_polygon (p : Polygon) : option bytes :=
  count ← u32_expect (1 + length (interiors p));
  rings ← mapM write_line_string (exterior p :: interiors p);
  Some (to_le_bytes 4 count ++ concat rings).

Definition type_id (k : SpatialKind) (g : GeoGeometry) : result Error Z :=
  match g with
  | GPoint _ => Ok WKB_POINT | GLineString _ => Ok WKB_LINESTRING | GPolygon _ => Ok WKB_POLYGON
  | GMultiPoint _ => Ok WKB_MULTIPOINT | GMultiLineString _ => Ok WKB_MULTILINESTRING | GMultiPolygon _ => Ok WKB_MULTIPOLYGON
  | GGeometryCollection _ => Err (v1_limitation k "GeometryCollection") | GLine _ _ => Err (v1_limitation k "Line")
  | GRect _ _ => Err (v1_limitation k "Rect") | GTriangle _ _ _ => Err (v1_limitation k "Triangle")
  end.

Definition write_head (type_id : Z) (srid : option Srid) (include_srid : bool) : bytes :=
  let type_id := if include_srid && bool_decide (is_Some srid) then Z.lor type_id EWKB_SRID_FLAG else type_id in
  [x01] ++ to_le_bytes 4 type_id
  ++ (if include_srid then match srid with Some s => to_le_bytes 4 (srid_get s) | None => [] end else []).

(** [write_geometry] of a part, which has no SRID. *)
Definition write_part (id : Z) (body : option bytes) : option bytes := b ← body; Some (write_head id None false ++ b).

(** A count and the parts. *)
Definition write_parts {A} (k : SpatialKind) (field : str) (write : A → option bytes) (parts : list A) : option (result Error bytes) :=
  match usize_to_u32 (length parts) k field with
  | Err e => Some (Err e)
  | Ok count => bs ← mapM write parts; Some (Ok (to_le_bytes 4 count ++ concat bs))
  end.

Definition write_body (k : SpatialKind) (g : GeoGeometry) : option (result Error bytes) :=
  match g with
  | GPoint p => Some (Ok (write_point p))
  | GLineString l => Ok <$> write_line_string l
  | GPolygon p => Ok <$> write_polygon p
  | GMultiPoint m => write_parts k "MultiPoint count" (λ p, write_part WKB_POINT (Some (write_point p))) (mp_points m)
  | GMultiLineString m => write_parts k "MultiLineString count" (λ l, write_part WKB_LINESTRING (write_line_string l)) (ml_lines m)
  | GMultiPolygon m => write_parts k "MultiPolygon count" (λ p, write_part WKB_POLYGON (write_polygon p)) (mpg_polygons m)
  | GGeometryCollection _ | GLine _ _ | GRect _ _ | GTriangle _ _ _ => None
  end.

Definition write_geometry (g : GeoGeometry) (srid : option Srid) (include_srid : bool) (k : SpatialKind) : option (result Error bytes) :=
  match type_id k g with
  | Err e => Some (Err e)
  | Ok id =>
    match write_body k g with
    | None => None
    | Some (Err e) => Some (Err e)
    | Some (Ok body) => Some (Ok (write_head id srid include_srid ++ body))
    end
  end.

Definition encode_spatial (k : SpatialKind) (srid : option Srid) (g : GeoGeometry) : option (result Error bytes) :=
  write_geometry g srid true k.

(** The encoder of [Geometry<T>] and [Geography<T>]. *)
Definition spatial_encode {T} `{GeoValue T} (k : SpatialKind) (v : Spatial T) (params : Slots) : option (result Error unit * Slots) :=
  r ← encode_spatial k (sp_srid v) (into_geometry (sp_value v));
  Some (match r with Ok bs => (Ok tt, params ++ [Some bs]) | Err e => (Err e, params) end).

(** ** Reading: a reader takes the input and gives what is left of it. *)
Definition Rd (A : Type) : Type := bytes → option (result Error (A * bytes)).
#[export] Instance rd_ret : MRet Rd := λ A a s, Some (Ok (a, s)).
#[export] Instance rd_bind : MBind Rd := λ A B f m s,
  match m s with
  | None => None
  | Some (Err e) => Some (Err e)
  | Some (Ok (a, s)) => f a s
  end.
Definition rd_fail {A} (e : Error) : Rd A := λ s, Some (Err e).

Definition read_exact (len : nat) : Rd bytes := λ s,
  if (length s <? len)%nat then Some (Err (Error.Codec "postgis: truncated EWKB payload while decoding spatial value"))
  else Some (Ok (take len s, drop len s)).
Definition read_u8 : Rd Z := b ← read_exact 1; mret (from_le_u b).
Definition read_u32 (le : bool) : Rd Z := b ← read_exact 4; mret (if le then from_le_u b else from_be_u b).
Definition read_i32 (le : bool) : Rd Z :=
  b ← read_exact 4; mret (if le then wrap_sint 32 (from_le_u b) else from_be_i b).
Definition read_f64 (le : bool) : Rd Z := b ← read_exact 8; mret (if le then from_le_u b else from_be_u b).

Fixpoint read_n {A} (fuel : nat) (count : Z) (m : Rd A) : Rd (list A) :=
  if count <=? 0 then mret []
  else match fuel with
       | O => λ _, None
       | S fuel => a ← m; l ← read_n fuel (count - 1) m; mret (a :: l)
       end.
(** [for _ in 0..count] *)
Definition read_count {A} (count : Z) (m : Rd A) : Rd (list A) := λ s, read_n (S (length s)) count m s.

Definition read_coord (le : bool) : Rd Coord := x ← read_f64 le; y ← read_f64 le; mret (mk_coord x y).
Definition read_point (le : bool) : Rd Point := x ← read_f64 le; y ← read_f64 le; mret (mk_point x y).
Definition read_line_string (le : bool) : Rd LineString :=
  count ← read_u32 le; coords ← read_count count (read_coord le); mret (mk_line_string coords).

Record DecodedSpatial := mk_decoded { d_geometry : GeoGeometry; d_srid : option Srid }.

Section reading.
(** [LineString::close] *)
Context (close : LineString → LineString).

Definition Polygon_new (e : LineString) (holes : list LineString) : Polygon := mk_polygon (close e) (map close holes).

Definition read_polygon (le : bool) : Rd Polygon :=
  ring_count ← read_u32 le;
  if ring_count =? 0 then mret (Polygon_new (mk_line_string []) [])
  else e ← read_line_string le; holes ← read_count (ring_count - 1) (read_line_string le); mret (Polygon_new e holes).

(** One part of a multi-part geometry: without an SRID, and of the right shape. *)
Definition read_part {A} (k : SpatialKind) (container name : str) (project : GeoGeometry → option A) (nested : Rd DecodedSpatial) : Rd A :=
  d ← nested;
  if bool_decide (is_Some (d_srid d)) then rd_fail (postgis_error k "nested SRIDs are not supported in v1")
  else match project (d_geometry d) with
       | Some a => mret a
       | None => rd_fail (postgis_error k ("expected " ++ name ++ " inside " ++ container ++ ", got " ++ geometry_variant_name (d_geometry d)))
       end.

Definition as_point (g : GeoGeometry) : option Point := match g with GPoint p => Some p | _ => None end.
Definition as_line (g : GeoGeometry) : option LineString := match g with GLineString p => Some p | _ => None end.
Definition as_polygon (g : GeoGeometry) : option Polygon := match g with GPolygon p => Some p | _ => None end.

Definition read_multi_point (k : SpatialKind) (le : bool) (nested : Rd DecodedSpatial) : Rd MultiPoint :=
  count ← read_u32 le; ps ← read_count count (read_part k "MultiPoint" "Point" as_point nested); mret (mk_multi_point ps).
Definition read_multi_line_string (k : SpatialKind) (le : bool) (nested : Rd DecodedSpatial) : Rd MultiLineString :=
  count ← read_u32 le; ps ← read_count count (read_part k "MultiLineString" "LineString" as_line nested); mret (mk_multi_line ps).
Definition read_multi_polygon (k : SpatialKind) (le : bool) (nested : Rd DecodedSpatial) : Rd MultiPolygon :=
  count ← read_u32 le; ps ← read_count count (read_part k "MultiPolygon" "Polygon" as_polygon nested); mret (mk_multi_polygon ps).

Definition read_endian (k : SpatialKind) : Rd bool :=
  endian ← read_u8;
  if endian =? 0 then mret false else if endian =? 1 then mret true
  else rd_fail (postgis_error k ("invalid EWKB endian marker " ++ Text.dec endian)).

Definition read_srid (k : SpatialKind) (le : bool) (id : Z) : Rd (option Srid) :=
  if negb (Z.land id EWKB_SRID_FLAG =? 0) then
    srid ← read_i32 le;
    if srid <? 0 then rd_fail (postgis_error k ("negative SRIDs are not supported (got " ++ Text.dec srid ++ ")"))
    else mret (Some (mk_srid srid))
  else mret None.

Definition read_body (k : SpatialKind) (le : bool) (nested : Rd DecodedSpatial) (code : Z) : Rd GeoGeometry :=
  if code =? WKB_POINT then p ← read_point le; mret (GPoint p)
  else if code =? WKB_LINESTRING then l ← read_line_string le; mret (GLineString l)
  else if code =? WKB_POLYGON then p ← read_polygon le; mret (GPolygon p)
  else if code =? WKB_MULTIPOINT then m ← read_multi_point k le nested; mret (GMultiPoint m)
  else if code =? WKB_MULTILINESTRING then m ← read_multi_line_string k le nested; mret (GMultiLineString m)
  else if code =? WKB_MULTIPOLYGON then m ← read_multi_polygon k le nested; mret (GMultiPolygon m)
  else if code =? WKB_GEOMETRY_COLLECTION then rd_fail (v1_limitation k "GeometryCollection")
  else rd_fail (postgis_error k ("unsupported EWKB type id " ++ Text.dec code)).

Fixpoint read_geometry (fuel : nat) (k : SpatialKind) : Rd DecodedSpatial :=
  match fuel with
  | O => λ _, None
  | S fuel =>
    le ← read_endian k;
    id ← read_u32 le;
    if negb (Z.land id EWKB_Z_FLAG =? 0) || negb (Z.land id EWKB_M_FLAG =? 0) then
      rd_fail (postgis_error k "only 2D EWKB is supported in v1")
    else
      srid ← read_srid k le id;
      g ← read_body k le (read_geometry fuel k) (Z.land id EWKB_TYPE_MASK);
      mret (mk_decoded g srid)
  end.

Definition decode_spatial (columns : Slots) (k : SpatialKind) : option (result Error DecodedSpatial) :=
  match columns with
  | [] => Some (Err (postgis_error k "decoder needs 1 column, got 0"))
  | None :: _ => Some (Err (postgis_error k "unexpected NULL; use nullable() to allow it"))
  | Some bs :: _ =>
    r ← read_geometry (S (length bs)) k bs;
    Some (x ← (r : result Error (DecodedSpatial * bytes)); let '(d, rest) := x in
          if bool_decide (rest = []) then Ok d else Err (postgis_error k "unexpected trailing EWKB bytes"))
  end.

(** The decoder of [Geometry<T>] and [Geography<T>]. *)
Definition spatial_decode {T} `{GeoValue T} (k : SpatialKind) (columns : Slots) : option (result Error (Spatial T)) :=
  r ← decode_spatial columns k;
  Some (d ← (r : result Error DecodedSpatial); v ← try_from_geometry (d_geometry d); Ok (mk_spatial v (d_srid d))).
End reading.

(** What the codecs say of themselves. *)
Definition spatial_oids : list Oid := [0].
Definition spatial_types (k : SpatialKind) : list Type_ := [match k with KGeometry => GEOMETRY_TYPE | KGeography => GEOGRAPHY_TYPE end].
Definition spatial_formats : list Z := [FORMAT_BINARY].
