(* ===== verification/SpatialFacts.v ===== *)
(** * EWKB: what the PostGIS codecs accept and write

    [Ewkb] is the grammar of two-dimensional EWKB, in either byte order at every level.  The
    reader accepts exactly it, and what the writer makes is in it.  Readers are compared with
    grammars by [parses], which composes along [mbind] and counts. *)
From S2P Require Import Prelude Bytes Text Error Types Codec Spatial.
From coqutil Require Import Word.LittleEndianList.

Local Open Scope Z_scope.
Local Open Scope str_scope.

(** ** The grammar *)
Definition uint_bytes (le : bool) (n : nat) (z : Z) : bytes := if le then to_le_bytes n z else to_be_bytes n z.

Definition coord_ok (c : Coord) : Prop := in_uint 64 (c_x c) ∧ in_uint 64 (c_y c).
Definition coord_bytes (le : bool) (c : Coord) : bytes := uint_bytes le 8 (c_x c) ++ uint_bytes le 8 (c_y c).
Definition point_ok (p : Point) : Prop := in_uint 64 (p_x p) ∧ in_uint 64 (p_y p).
Definition point_bytes (le : bool) (p : Point) : bytes := uint_bytes le 8 (p_x p) ++ uint_bytes le 8 (p_y p).

(** A count that fits, and what is counted. *)
Definition counted (le : bool) (n : nat) : bytes := uint_bytes le 4 (Z.of_nat n).
Definition count_ok (n : nat) : Prop := in_uint 32 (Z.of_nat n).

Definition line_ok (l : LineString) : Prop := count_ok (length (ls_coords l)) ∧ Forall coord_ok (ls_coords l).
Definition line_bytes (le : bool) (l : LineString) : bytes := counted le (length (ls_coords l)) ++ concat (map (coord_bytes le) (ls_coords l)).

Definition srid_bytes (le : bool) (srid : option Srid) : bytes := match srid with Some s => uint_bytes le 4 (srid_get s) | None => [] end.
Definition srid_ok (srid : option Srid) : Prop := match srid with Some s => 0 ≤ srid_get s < 2 ^ 31 | None => True end.

(** Byte order, type and flags, SRID. *)
Definition ewkb_head (le : bool) (code : Z) (srid : option Srid) (b : bytes) : Prop :=
  ∃ id, in_uint 32 id ∧ Z.land id EWKB_Z_FLAG = 0 ∧ Z.land id EWKB_M_FLAG = 0 ∧ Z.land id EWKB_TYPE_MASK = code
    ∧ (Z.land id EWKB_SRID_FLAG ≠ 0 ↔ is_Some srid) ∧ srid_ok srid
    ∧ b = [if le then x01 else x00] ++ uint_bytes le 4 id ++ srid_bytes le srid.

Section grammar.
Context (close : LineString → LineString).

Definition ewkb_polygon (le : bool) (b : bytes) (p : Polygon) : Prop :=
  (∃ e holes, count_ok (S (length holes)) ∧ Forall line_ok (e :: holes)
     ∧ b = counted le (S (length holes)) ++ concat (map (line_bytes le) (e :: holes)) ∧ p = Polygon_new close e holes)
  ∨ (b = counted le 0 ∧ p = Polygon_new close (mk_line_string []) []).

Inductive Ewkb : bytes → GeoGeometry → option Srid → Prop :=
  | Ewkb_point le h srid p : ewkb_head le WKB_POINT srid h → point_ok p → Ewkb (h ++ point_bytes le p) (GPoint p) srid
  | Ewkb_line le h srid l : ewkb_head le WKB_LINESTRING srid h → line_ok l → Ewkb (h ++ line_bytes le l) (GLineString l) srid
  | Ewkb_polygon le h srid b p : ewkb_head le WKB_POLYGON srid h → ewkb_polygon le b p → Ewkb (h ++ b) (GPolygon p) srid
  | Ewkb_multi_point le h srid bs ps :
    ewkb_head le WKB_MULTIPOINT srid h → count_ok (length ps) → Forall2 (λ b p, Ewkb b (GPoint p) None) bs ps →
    Ewkb (h ++ counted le (length ps) ++ concat bs) (GMultiPoint (mk_multi_point ps)) srid
  | Ewkb_multi_line le h srid bs ls :
    ewkb_head le WKB_MULTILINESTRING srid h → count_ok (length ls) → Forall2 (λ b l, Ewkb b (GLineString l) None) bs ls →
    Ewkb (h ++ counted le (length ls) ++ concat bs) (GMultiLineString (mk_multi_line ls)) srid
  | Ewkb_multi_polygon le h srid bs ps :
    ewkb_head le WKB_MULTIPOLYGON srid h → count_ok (length ps) → Forall2 (λ b p, Ewkb b (GPolygon p) None) bs ps →
    Ewkb (h ++ counted le (length ps) ++ concat bs) (GMultiPolygon (mk_multi_polygon ps)) srid.
End grammar.

(** ** Readers and grammars *)

(** On inputs shorter than [n] the reader ends, and accepts exactly the prefixes in [P]. *)
Definition parses {A} (n : nat) (m : Rd A) (P : bytes → A → Prop) : Prop :=
  ∀ s, (length s < n)%nat → ∃ r, m s = Some r ∧ ∀ a rest, r = Ok (a, rest) ↔ ∃ b, s = b ++ rest ∧ P b a.

Lemma parses_iff {A} n (m : Rd A) (P Q : bytes → A → Prop) : parses n m P → (∀ b a, P b a ↔ Q b a) → parses n m Q.
Proof. intros H Heq s Hs. destruct (H s Hs) as (r & Hr & Ha). exists r. split; [done|]. intros a rest. rewrite Ha. by setoid_rewrite Heq. Qed.

Lemma parses_ret {A} n (a : A) : parses n (mret a) (λ b x, b = [] ∧ x = a).
Proof. intros s Hs. eexists. split; [reflexivity|]. intros x rest. split; [intros [= <- <-]; by exists []|]. by intros (b & -> & -> & ->). Qed.

Lemma parses_fail {A} n e : parses n (rd_fail (A := A) e) (λ _ _, False).
Proof. intros s Hs. eexists. split; [reflexivity|]. intros x rest. split; [done|]. by intros (b & _ & []). Qed.

(** The first reader consumes something, if the second can only take shorter inputs. *)
Lemma parses_bind_lt {A B} n n' (m : Rd A) (f : A → Rd B) P Q :
  parses n m P → (∀ b a, P b a → n ≤ n' + length b)%nat → (∀ a, parses n' (f a) (Q a)) →
  parses n (m ≫= f) (λ b c, ∃ b1 b2 a, b = b1 ++ b2 ∧ P b1 a ∧ Q a b2 c).
Proof.
  intros Hm Hlt Hf s Hs. destruct (Hm s Hs) as ([[a s1]|e] & Hr & Ha); unfold mbind, rd_bind; rewrite Hr.
  - destruct (proj1 (Ha a s1) eq_refl) as (b1 & -> & HP). specialize (Hlt _ _ HP). rewrite length_app in Hs.
    destruct (Hf a s1 ltac:(lia)) as (r & -> & Hc). exists r. split; [done|]. intros c rest. rewrite Hc. split.
    + intros (b2 & -> & HQ). exists (b1 ++ b2). split; [by rewrite (assoc_L (++))|]. eauto 10.
    + intros (b & Heq & b1' & b2 & a' & -> & HP' & HQ). rewrite <- (assoc_L (++)) in Heq.
      assert (@Ok Error _ (a, s1) = Ok (a', b2 ++ rest)) as [= <- ->]; [|by exists b2].
      apply (Ha a' (b2 ++ rest)). exists b1'. by rewrite Heq.
  - eexists. split; [reflexivity|]. intros c rest. split; [done|]. intros (b & -> & b1 & b2 & a & -> & HP & _).
    enough (Err e = @Ok Error _ (a, b2 ++ rest)) by done. apply Ha. exists b1. split; [by rewrite (assoc_L (++))|done].
Qed.

Lemma parses_bind {A B} n (m : Rd A) (f : A → Rd B) P Q : parses n m P → (∀ a, parses n (f a) (Q a)) →
  parses n (m ≫= f) (λ b c, ∃ b1 b2 a, b = b1 ++ b2 ∧ P b1 a ∧ Q a b2 c).
Proof. intros Hm. apply parses_bind_lt; [done|]. intros. lia. Qed.

(** A reader whose result is wrapped. *)
Lemma parses_map {A B} n (m : Rd A) (g : A → B) P : parses n m P → parses n (m ≫= λ a, mret (g a)) (λ b c, ∃ a, P b a ∧ c = g a).
Proof.
  intros Hm. eapply parses_iff; [apply parses_bind; [exact Hm|intros a; apply parses_ret]|]. intros b c. split.
  - intros (b1 & b2 & a & -> & HP & -> & ->). rewrite app_nil_r. eauto.
  - intros (a & HP & ->). exists b, [], a. by rewrite app_nil_r.
Qed.
Lemma parses_exact n len : parses n (read_exact len) (λ b x, x = b ∧ length b = len).
Proof.
  intros s Hs. unfold read_exact. destruct (Nat.ltb_spec (length s) len) as [Hlt|Hge]; eexists; (split; [reflexivity|]); intros x rest; split.
  - done.
  - intros (b & -> & -> & <-). rewrite length_app in Hlt. lia.
  - intros [= <- <-]. exists (take len s). rewrite take_drop, length_take. split; [done|]. split; [done|lia].
  - intros (b & -> & -> & <-). by rewrite take_app_length, drop_app_length.
Qed.

Lemma parses_n {A} n (m : Rd A) P : parses n m P → (∀ b a, P b a → b ≠ []) → ∀ fuel count s, (length s < n)%nat → (length s < fuel)%nat →
  ∃ r, read_n fuel count m s = Some r ∧ ∀ l rest, r = Ok (l, rest) ↔
    ∃ bs, s = concat bs ++ rest ∧ Forall2 P bs l ∧ Z.of_nat (length l) = Z.max 0 count.
Proof.
  intros Hm Hne. induction fuel as [|fuel IH]; intros count s Hs Hf; [lia|]. cbn [read_n]. destruct (Z.leb_spec count 0) as [Hc|Hc].
  { eexists. split; [reflexivity|]. intros l rest. split; [intros [= <- <-]; exists []; split_and!; [done|done|cbn; lia]|].
    intros (bs & -> & Hall & Hl). destruct l; [|cbn in Hl; lia]. by inversion Hall. }
  destruct (Hm s Hs) as ([[a s1]|e] & Hr & Ha); unfold mbind at 1, rd_bind at 1; rewrite Hr.
  - destruct (proj1 (Ha a s1) eq_refl) as (b1 & -> & HP). assert (0 < length b1)%nat by (specialize (Hne _ _ HP); destruct b1; [done|cbn; lia]).
    rewrite length_app in Hs, Hf. destruct (IH (count - 1) s1 ltac:(lia) ltac:(lia)) as ([[l1 s2]|e] & Hn & Hl); unfold mbind, rd_bind; rewrite Hn.
    + eexists. split; [reflexivity|]. intros l rest. destruct (proj1 (Hl l1 s2) eq_refl) as (bs & -> & Hall & Hlen). split.
      * intros [= <- <-]. exists (b1 :: bs). split_and!; [by rewrite concat_cons, (assoc_L (++))|by constructor|cbn [length]; lia].
      * intros (bs' & Heq & Hall' & Hlen'). destruct Hall' as [|b1' a' bs' l' HP' Hall']; [cbn in Hlen'; lia|].
        rewrite concat_cons, <- (assoc_L (++)) in Heq.
        assert (@Ok Error _ (a, concat bs ++ s2) = Ok (a', concat bs' ++ rest)) as [= <- Heq']; [apply Ha; by exists b1'|].
        assert (@Ok Error _ (l1, s2) = Ok (l', rest)) as [= <- <-]; [|done]. apply Hl. exists bs'. split_and!; [done|done|cbn [length] in Hlen'; lia].
    + eexists. split; [reflexivity|]. intros l rest. split; [done|]. intros (bs' & Heq & Hall' & Hlen').
      destruct Hall' as [|b1' a' bs' l' HP' Hall']; [cbn in Hlen'; lia|]. rewrite concat_cons, <- (assoc_L (++)) in Heq.
      assert (@Ok Error _ (a, s1) = Ok (a', concat bs' ++ rest)) as [= <- ->]; [apply Ha; by exists b1'|].
      enough (Err e = @Ok Error _ (l', rest)) by done. apply Hl. exists bs'. split_and!; [done|done|cbn [length] in Hlen'; lia].
  - eexists. split; [reflexivity|]. intros l rest. split; [done|]. intros (bs' & -> & Hall' & Hlen').
    destruct Hall' as [|b1' a' bs' l' HP' Hall']; [cbn in Hlen'; lia|].
    enough (Err e = @Ok Error _ (a', concat bs' ++ rest)) by done. apply Ha. exists b1'. split; [by rewrite concat_cons, (assoc_L (++))|done].
Qed.

Lemma parses_count {A} n (m : Rd A) P count : parses n m P → (∀ b a, P b a → b ≠ []) →
  parses n (read_count count m) (λ b l, ∃ bs, b = concat bs ∧ Forall2 P bs l ∧ Z.of_nat (length l) = Z.max 0 count).
Proof.
  intros Hm Hne s Hs. destruct (parses_n n m P Hm Hne (S (length s)) count s Hs) as (r & Hr & Hl); [lia|].
  exists r. split; [exact Hr|]. intros l rest. rewrite Hl. split; [intros (bs & -> & ?); eauto|intros (b & -> & bs & -> & ?); eauto].
Qed.

(** ** Numbers *)
Lemma length_uint_bytes le n z : length (uint_bytes le n z) = n.
Proof. destruct le; [apply length_le_split|apply length_to_be_bytes]. Qed.

Definition uint_of (le : bool) (b : bytes) : Z := if le then from_le_u b else from_be_u b.

Lemma uint_of_bytes le n z : in_uint (8 * Z.of_nat n) z → uint_of le (uint_bytes le n z) = z.
Proof.
  intros Hz. destruct le; cbn.
  - unfold from_le_u, to_le_bytes. rewrite le_combine_split, Z.mul_comm. by apply Z.mod_small.
  - rewrite from_be_u_to_be. by apply wrap_uint_id.
Qed.

Lemma uint_bytes_of le b : uint_bytes le (length b) (uint_of le b) = b.
Proof. destruct le; [apply split_le_combine|apply to_be_from_be_u]. Qed.

Lemma uint_of_range le b : in_uint (8 * Z.of_nat (length b)) (uint_of le b).
Proof. destruct le; [apply le_combine_bound|apply from_be_u_range]. Qed.

Lemma parses_uint n (le : bool) (len : nat) : parses n ((b ← read_exact len; mret (if le then from_le_u b else from_be_u b)) : Rd Z)
  (λ b x, in_uint (8 * Z.of_nat len) x ∧ b = uint_bytes le len x).
Proof.
  eapply parses_iff; [apply (parses_map n _ (uint_of le)), parses_exact|]. intros b x. split.
  - intros (b' & [-> <-] & ->). split; [apply uint_of_range|by rewrite uint_bytes_of].
  - intros [Hx ->]. exists (uint_bytes le len x). rewrite length_uint_bytes, uint_of_bytes by done. done.
Qed.

Lemma parses_u32 n le : parses n (read_u32 le) (λ b x, in_uint 32 x ∧ b = uint_bytes le 4 x).
Proof. apply (parses_uint n le 4). Qed.
Lemma parses_f64 n le : parses n (read_f64 le) (λ b x, in_uint 64 x ∧ b = uint_bytes le 8 x).
Proof. apply (parses_uint n le 8). Qed.

Lemma parses_i32 n le : parses n (read_i32 le) (λ b x, in_sint 32 x ∧ b = uint_bytes le 4 (x mod 2 ^ 32)).
Proof.
  eapply parses_iff; [apply (parses_map n _ (λ b, if le then wrap_sint 32 (from_le_u b) else from_be_i b)), parses_exact|].
  intros b x. assert (Hof : ∀ b, length b = 4%nat → (if le then wrap_sint 32 (from_le_u b) else from_be_i b) = wrap_sint 32 (uint_of le b)).
  { intros c Hc. destruct le; [done|]. unfold from_be_i. by rewrite Hc. }
  split.
  - intros (b' & [-> Hl] & ->). rewrite Hof by done. split; [by apply wrap_sint_range|]. rewrite wrap_sint_unwrap by lia.
    pose proof (uint_of_range le b) as Hr. rewrite Hl in Hr. rewrite Z.mod_small by exact Hr. by rewrite <- Hl, uint_bytes_of.
  - intros [Hx ->]. exists (uint_bytes le 4 (x mod 2 ^ 32)). rewrite Hof, length_uint_bytes, uint_of_bytes by (by apply Z.mod_pos_bound || by apply length_uint_bytes).
    by rewrite wrap_sint_mod, wrap_sint_id.
Qed.

(** ** Shapes *)
Lemma parses_pair {A} n le (mk : Z → Z → A) :
  parses n ((x ← read_f64 le; y ← read_f64 le; mret (mk x y)) : Rd A)
    (λ b c, ∃ x y, c = mk x y ∧ in_uint 64 x ∧ in_uint 64 y ∧ b = uint_bytes le 8 x ++ uint_bytes le 8 y).
Proof.
  eapply parses_iff.
  { apply parses_bind; [apply parses_f64|intros x]. apply (parses_map n _ (mk x)), parses_f64. }
  intros b c. split.
  - intros (b1 & b2 & x & -> & [Hx ->] & y & [Hy ->] & ->). eauto 10.
  - intros (x & y & -> & Hx & Hy & ->). do 2 eexists. exists x. split_and!; [done|done|done|]. by exists y.
Qed.

Lemma parses_coord n le : parses n (read_coord le) (λ b c, coord_ok c ∧ b = coord_bytes le c).
Proof.
  eapply parses_iff; [apply parses_pair|]. intros b c. split.
  - intros (x & y & -> & Hx & Hy & ->). done.
  - destruct c as [x y]. intros [[Hx Hy] ->]. by exists x, y.
Qed.

Lemma parses_point n le : parses n (read_point le) (λ b p, point_ok p ∧ b = point_bytes le p).
Proof.
  eapply parses_iff; [apply parses_pair|]. intros b c. split.
  - intros (x & y & -> & Hx & Hy & ->). done.
  - destruct c as [x y]. intros [[Hx Hy] ->]. by exists x, y.
Qed.

(** Elements with one encoding each. *)
Lemma Forall2_bytes {A} (ok : A → Prop) (f : A → bytes) bs l :
  Forall2 (λ b a, ok a ∧ b = f a) bs l ↔ Forall ok l ∧ bs = map f l.
Proof.
  split.
  - induction 1 as [|b a bs l [Ha ->] _ [Hl ->]]; [done|]. split; [by constructor|done].
  - intros [Hl ->]. induction Hl; cbn; constructor; auto.
Qed.

Lemma nonempty_app_l {A} (l1 l2 : list A) : l1 ≠ [] → l1 ++ l2 ≠ [].
Proof. by destruct l1. Qed.
Lemma uint_bytes_nonempty le n z : n ≠ 0%nat → uint_bytes le n z ≠ [].
Proof. intros Hn H. apply (f_equal length) in H. by rewrite length_uint_bytes in H. Qed.

Lemma coord_bytes_nonempty le c : coord_bytes le c ≠ [].
Proof. by apply nonempty_app_l, uint_bytes_nonempty. Qed.
Lemma line_bytes_nonempty le l : line_bytes le l ≠ [].
Proof. by apply nonempty_app_l, uint_bytes_nonempty. Qed.

Lemma parses_line n le : parses n (read_line_string le) (λ b l, line_ok l ∧ b = line_bytes le l).
Proof.
  eapply parses_iff.
  { apply parses_bind; [apply parses_u32|intros count]. apply (parses_map n _ mk_line_string), parses_count; [apply parses_coord|].
    intros b c [_ ->]. apply coord_bytes_nonempty. }
  intros b l. split.
  - intros (b1 & b2 & count & -> & [Hc ->] & cs & (bs & -> & Hall & Hlen) & ->). apply Forall2_bytes in Hall as [Hcs ->].
    assert (Z.of_nat (length cs) = count) as <- by (unfold in_uint in Hc; lia). done.
  - destruct l as [cs]. intros [[Hc Hcs] ->]. do 2 eexists. exists (Z.of_nat (length cs)). split_and!; [reflexivity|exact Hc|done|].
    exists cs. split; [|done]. exists (map (coord_bytes le) cs). split_and!; [done|by apply Forall2_bytes|lia].
Qed.

Section geometry.
Context (close : LineString → LineString) (k : SpatialKind).
Abbreviation Ewkb := (Ewkb close).

Lemma parses_polygon n le : parses n (read_polygon close le) (ewkb_polygon close le).
Proof.
  eapply parses_iff.
  { apply parses_bind; [apply parses_u32|intros count]. instantiate (1 := λ count b p,
      if count =? 0 then b = [] ∧ p = Polygon_new close (mk_line_string []) []
      else ∃ e holes, Forall line_ok (e :: holes) ∧ Z.of_nat (length holes) = Z.max 0 (count - 1)
        ∧ b = concat (map (line_bytes le) (e :: holes)) ∧ p = Polygon_new close e holes). cbv beta.
    destruct (count =? 0); [apply parses_ret|]. eapply parses_iff.
    { apply parses_bind; [apply parses_line|intros e]. apply (parses_map n _ (Polygon_new close e)), parses_count; [apply parses_line|].
      intros b l [_ ->]. apply line_bytes_nonempty. }
    intros b p. split.
    - intros (b1 & b2 & e & -> & [He ->] & holes & (bs & -> & Hall & Hlen) & ->). apply Forall2_bytes in Hall as [Hh ->].
      exists e, holes. split_and!; [by constructor|done|done|done].
    - intros (e & holes & [He Hh]%Forall_cons & Hlen & -> & ->). exists (line_bytes le e), (concat (map (line_bytes le) holes)), e.
      split_and!; [done|done|done|]. exists holes. split; [|done]. eexists. split_and!; [reflexivity|by apply Forall2_bytes|done]. }
  intros b p. unfold ewkb_polygon, count_ok, counted. split.
  - intros (b1 & b2 & count & -> & [Hc ->] & Hp). destruct (Z.eqb_spec count 0) as [->|Hne].
    + destruct Hp as [-> ->]. right. by rewrite app_nil_r.
    + destruct Hp as (e & holes & Hall & Hlen & -> & ->). left. exists e, holes.
      assert (Z.of_nat (S (length holes)) = count) as -> by (unfold in_uint in Hc; lia). done.
  - intros [(e & holes & Hc & Hall & -> & ->)|[-> ->]].
    + eexists _, _, (Z.of_nat (S (length holes))). split_and!; [reflexivity|exact Hc|done|].
      rewrite (proj2 (Z.eqb_neq _ _)) by lia. exists e, holes. split_and!; [done|lia|done|done].
    + exists (uint_bytes le 4 (Z.of_nat 0)), [], 0. split_and!; [by rewrite app_nil_r|done|done|done].
Qed.

Lemma from_le_one c : from_le_u [c] = u8_of c.
Proof. by destruct c. Qed.

Lemma parses_endian n : parses n (read_endian k) (λ b le, b = [if le then x01 else x00]).
Proof.
  eapply parses_iff.
  { apply parses_bind; [apply (parses_map n _ from_le_u), parses_exact|intros e]. instantiate (1 := λ e b le, b = [] ∧ e = (if le then 1 else 0)). cbv beta.
    destruct (Z.eqb_spec e 0) as [->|H0]; [eapply parses_iff; [apply parses_ret|by intros b []; naive_solver]|].
    destruct (Z.eqb_spec e 1) as [->|H1]; [eapply parses_iff; [apply parses_ret|by intros b []; naive_solver]|].
    eapply parses_iff; [apply parses_fail|]. intros b []; naive_solver. }
  intros b le. split.
  - intros (b1 & b2 & e & -> & (b' & [-> Hl] & ->) & -> & He). rewrite app_nil_r. destruct b1 as [|c [|]]; try done.
    rewrite from_le_one in He. f_equal. apply u8_of_inj. rewrite He. by destruct le.
  - intros ->. exists [if le then x01 else x00], [], (if le then 1 else 0). split_and!; [done| |done|done].
    eexists. split; [done|]. by destruct le.
Qed.

Lemma parses_srid n le id : parses n (read_srid k le id)
  (λ b srid, (Z.land id EWKB_SRID_FLAG ≠ 0 ↔ is_Some srid) ∧ srid_ok srid ∧ b = srid_bytes le srid).
Proof.
  unfold read_srid. destruct (Z.eqb_spec (Z.land id EWKB_SRID_FLAG) 0) as [Hz|Hz]; cbn [negb].
  { eapply parses_iff; [apply parses_ret|]. intros b srid. split.
    - intros [-> ->]. split_and!; [|done|done]. split; [done|by intros []].
    - intros (Hs & _ & ->). destruct srid; [|done]. exfalso. by apply Hs. }
  eapply parses_iff.
  { apply parses_bind; [apply parses_i32|intros s]. instantiate (1 := λ s b srid, b = [] ∧ 0 ≤ s ∧ srid = Some (mk_srid s)). cbv beta.
    destruct (Z.ltb_spec s 0); [eapply parses_iff; [apply parses_fail|naive_solver lia]|].
    eapply parses_iff; [apply parses_ret|naive_solver lia]. }
  intros b srid. split.
  - intros (b1 & b2 & s & -> & [Hs ->] & -> & Hpos & ->). unfold in_sint in Hs. rewrite app_nil_r.
    split_and!; [split; [by eexists|done]|cbn; lia|]. cbn. rewrite Z.mod_small; [done|lia].
  - intros (Hs & Hok & ->). destruct srid as [[s]|]; [|exfalso; destruct (proj1 Hs Hz); done]. cbn in Hok.
    eexists _, [], s. rewrite app_nil_r. split_and!; [reflexivity|unfold in_sint; lia| |done|lia|done].
    cbn. rewrite Z.mod_small; [done|lia].
Qed.

(** A part of a multi-part geometry. *)
Lemma parses_part {A} n container name (project : GeoGeometry → option A) (wrap : A → GeoGeometry) nested :
  (∀ g a, project g = Some a ↔ g = wrap a) → parses n nested (λ b d, Ewkb b (d_geometry d) (d_srid d)) →
  parses n (read_part k container name project nested) (λ b a, Ewkb b (wrap a) None).
Proof.
  intros Hproj Hn. eapply parses_iff.
  { apply parses_bind; [exact Hn|intros d]. instantiate (1 := λ d b a, b = [] ∧ d = mk_decoded (wrap a) None). cbv beta.
    case_bool_decide as Hs; [eapply parses_iff; [apply parses_fail|]; intros b a; split; [done|intros [_ ->]; by destruct Hs]|].
    destruct d as [g srid]. cbn in *. destruct srid; [exfalso; by apply Hs|].
    destruct (project g) as [a|] eqn:Hg.
    - apply Hproj in Hg as ->. eapply parses_iff; [apply parses_ret|]. intros b a'. split; [by intros [-> ->]|].
      intros [-> [= Hw]]. assert (project (wrap a) = Some a) as H1 by by apply Hproj. assert (project (wrap a) = Some a') as H2 by by apply Hproj. naive_solver.
    - eapply parses_iff; [apply parses_fail|]. intros b a. split; [done|]. intros [_ [= ->]]. by rewrite (proj2 (Hproj _ a) eq_refl) in Hg. }
  intros b a. split.
  - intros (b1 & b2 & d & -> & He & -> & ->). by rewrite app_nil_r.
  - intros He. exists b, [], (mk_decoded (wrap a) None). by rewrite app_nil_r.
Qed.

Lemma ewkb_nonempty b g srid : Ewkb b g srid → b ≠ [].
Proof. intros H. destruct H as [le h srid p (id & _ & _ & _ & _ & _ & _ & ->) _|le h srid p (id & _ & _ & _ & _ & _ & _ & ->) _|le h srid b p (id & _ & _ & _ & _ & _ & _ & ->) _
  |le h srid bs p (id & _ & _ & _ & _ & _ & _ & ->) _ _|le h srid bs p (id & _ & _ & _ & _ & _ & _ & ->) _ _|le h srid bs p (id & _ & _ & _ & _ & _ & _ & ->) _ _]; done. Qed.

Lemma parses_multi {A B} n le container name (project : GeoGeometry → option A) (wrap : A → GeoGeometry) (mk : list A → B) nested :
  (∀ g a, project g = Some a ↔ g = wrap a) → parses n nested (λ b d, Ewkb b (d_geometry d) (d_srid d)) →
  parses n ((count ← read_u32 le; ps ← read_count count (read_part k container name project nested); mret (mk ps)) : Rd B)
    (λ b c, ∃ bs ps, c = mk ps ∧ count_ok (length ps) ∧ Forall2 (λ b p, Ewkb b (wrap p) None) bs ps ∧ b = counted le (length ps) ++ concat bs).
Proof.
  intros Hproj Hn. eapply parses_iff.
  { apply parses_bind; [apply parses_u32|intros count]. apply (parses_map n _ mk), parses_count; [by eapply parses_part|].
    intros b a H. exact (ewkb_nonempty _ _ _ H). }
  intros b c. unfold count_ok, counted. split.
  - intros (b1 & b2 & count & -> & [Hc ->] & ps & (bs & -> & Hall & Hlen) & ->). exists bs, ps.
    assert (Z.of_nat (length ps) = count) as -> by (unfold in_uint in Hc; lia). done.
  - intros (bs & ps & -> & Hc & Hall & ->). eexists _, _, (Z.of_nat (length ps)). split_and!; [reflexivity|exact Hc|done|].
    exists ps. split; [|done]. exists bs. split_and!; [done|done|lia].
Qed.

(** The body for a code, over what parts are. *)
Definition ewkb_body (le : bool) (code : Z) (b : bytes) (g : GeoGeometry) : Prop :=
  match g with
  | GPoint p => code = WKB_POINT ∧ point_ok p ∧ b = point_bytes le p
  | GLineString l => code = WKB_LINESTRING ∧ line_ok l ∧ b = line_bytes le l
  | GPolygon p => code = WKB_POLYGON ∧ ewkb_polygon close le b p
  | GMultiPoint m => code = WKB_MULTIPOINT ∧ ∃ bs ps, m = mk_multi_point ps ∧ count_ok (length ps)
      ∧ Forall2 (λ b p, Ewkb b (GPoint p) None) bs ps ∧ b = counted le (length ps) ++ concat bs
  | GMultiLineString m => code = WKB_MULTILINESTRING ∧ ∃ bs ls, m = mk_multi_line ls ∧ count_ok (length ls)
      ∧ Forall2 (λ b l, Ewkb b (GLineString l) None) bs ls ∧ b = counted le (length ls) ++ concat bs
  | GMultiPolygon m => code = WKB_MULTIPOLYGON ∧ ∃ bs ps, m = mk_multi_polygon ps ∧ count_ok (length ps)
      ∧ Forall2 (λ b p, Ewkb b (GPolygon p) None) bs ps ∧ b = counted le (length ps) ++ concat bs
  | _ => False
  end.

Lemma ewkb_split b g srid : Ewkb b g srid ↔ ∃ le code h body, b = h ++ body ∧ ewkb_head le code srid h ∧ ewkb_body le code body g.
Proof.
  split.
  - intros [le h s p Hh Hp|le h s l Hh Hl|le h s b' p Hh Hp|le h s bs ps Hh Hc Hall|le h s bs ls Hh Hc Hall|le h s bs ps Hh Hc Hall];
      exists le; do 3 eexists; (split_and!; [reflexivity|exact Hh|]); cbn; split; eauto 10.
  - intros (le & code & h & body & -> & Hh & Hb). destruct g; cbn in Hb; try done.
    + destruct Hb as (-> & Hp & ->). by constructor.
    + destruct Hb as (-> & Hp & ->). by constructor.
    + destruct Hb as (-> & Hp). by eapply Ewkb_polygon.
    + destruct Hb as (-> & bs & ps & -> & Hc & Hall & ->). by constructor.
    + destruct Hb as (-> & bs & ps & -> & Hc & Hall & ->). by constructor.
    + destruct Hb as (-> & bs & ps & -> & Hc & Hall & ->). by constructor.
Qed.

Lemma parses_wrap {A} n (m : Rd A) (P : bytes → A → Prop) (wrap : A → GeoGeometry) (Q : bytes → GeoGeometry → Prop) :
  parses n m P → (∀ b g, Q b g ↔ ∃ a, P b a ∧ g = wrap a) → parses n ((a ← m; mret (wrap a)) : Rd GeoGeometry) Q.
Proof. intros Hm HQ. eapply parses_iff; [by apply parses_map|]. intros b g. by rewrite HQ. Qed.

Lemma parses_body n le nested code : parses n nested (λ b d, Ewkb b (d_geometry d) (d_srid d)) →
  parses n (read_body close k le nested code) (ewkb_body le code).
Proof.
  intros Hn. unfold read_body.
  assert (Hcodes : ∀ b g, ewkb_body le code b g → code = WKB_POINT ∨ code = WKB_LINESTRING ∨ code = WKB_POLYGON ∨ code = WKB_MULTIPOINT
    ∨ code = WKB_MULTILINESTRING ∨ code = WKB_MULTIPOLYGON) by (intros b []; cbn; naive_solver).
  destruct (Z.eqb_spec code WKB_POINT) as [->|H1]; [eapply parses_wrap; [apply parses_point|intros b []; cbn; naive_solver]|].
  destruct (Z.eqb_spec code WKB_LINESTRING) as [->|H2]; [eapply parses_wrap; [apply parses_line|intros b []; cbn; naive_solver]|].
  destruct (Z.eqb_spec code WKB_POLYGON) as [->|H3]; [eapply parses_wrap; [apply parses_polygon|intros b []; cbn; naive_solver]|].
  destruct (Z.eqb_spec code WKB_MULTIPOINT) as [->|H4].
  { eapply parses_wrap; [apply (parses_multi _ _ _ _ _ GPoint); [|done]; intros [] ?; cbn; naive_solver|intros b []; cbn; naive_solver]. }
  destruct (Z.eqb_spec code WKB_MULTILINESTRING) as [->|H5].
  { eapply parses_wrap; [apply (parses_multi _ _ _ _ _ GLineString); [|done]; intros [] ?; cbn; naive_solver|intros b []; cbn; naive_solver]. }
  destruct (Z.eqb_spec code WKB_MULTIPOLYGON) as [->|H6].
  { eapply parses_wrap; [apply (parses_multi _ _ _ _ _ GPolygon); [|done]; intros [] ?; cbn; naive_solver|intros b []; cbn; naive_solver]. }
  destruct (code =? WKB_GEOMETRY_COLLECTION); (eapply parses_iff; [apply parses_fail|]); intros b g; (split; [done|]); intros H%Hcodes; naive_solver.
Qed.

Lemma parses_geometry fuel : parses fuel (read_geometry close fuel k) (λ b d, Ewkb b (d_geometry d) (d_srid d)).
Proof.
  induction fuel as [|fuel IH]; [intros s Hs; lia|]. cbn [read_geometry]. eapply parses_iff.
  { apply (parses_bind_lt (S fuel) fuel); [apply parses_endian|intros b a ->; cbn; lia|intros le].
    apply parses_bind; [apply parses_u32|intros id].
    instantiate (1 := λ id b d, Z.land id EWKB_Z_FLAG = 0 ∧ Z.land id EWKB_M_FLAG = 0 ∧ ∃ b1 b2, b = b1 ++ b2
      ∧ (Z.land id EWKB_SRID_FLAG ≠ 0 ↔ is_Some (d_srid d)) ∧ srid_ok (d_srid d) ∧ b1 = srid_bytes le (d_srid d)
      ∧ ewkb_body le (Z.land id EWKB_TYPE_MASK) b2 (d_geometry d)). cbv beta.
    destruct (Z.eqb_spec (Z.land id EWKB_Z_FLAG) 0) as [Hz|Hz]; cbn [negb orb]; [|eapply parses_iff; [apply parses_fail|naive_solver]].
    destruct (Z.eqb_spec (Z.land id EWKB_M_FLAG) 0) as [Hm|Hm]; cbn [negb orb]; [|eapply parses_iff; [apply parses_fail|naive_solver]].
    eapply parses_iff.
    { apply parses_bind; [apply parses_srid|intros srid]. apply (parses_map fuel _ (λ g, mk_decoded g srid)), parses_body, IH. }
    intros b [g s]. cbn. split.
    - intros (b1 & b2 & srid & -> & (Hs & Hok & ->) & g' & Hb & [= -> ->]). split_and!; [done|done|]. eauto 10.
    - intros (_ & _ & b1 & b2 & -> & Hs & Hok & -> & Hb). exists (srid_bytes le s), b2, s. split; [done|]. split; [done|]. eauto. }
  intros b [g s]. cbn. rewrite ewkb_split. split.
  - intros (b1 & b2 & le & -> & -> & b3 & b4 & id & -> & [Hid ->] & Hz & Hm & b5 & b6 & -> & Hs & Hok & -> & Hb).
    exists le, (Z.land id EWKB_TYPE_MASK), ([if le then x01 else x00] ++ uint_bytes le 4 id ++ srid_bytes le s), b6.
    split_and!; [by rewrite <- !(assoc_L (++))| |done]. by exists id.
  - intros (le & code & h & body & -> & (id & Hid & Hz & Hm & <- & Hs & Hok & ->) & Hb).
    exists [if le then x01 else x00], (uint_bytes le 4 id ++ srid_bytes le s ++ body), le. split_and!; [by rewrite <- !(assoc_L (++))|done|].
    exists (uint_bytes le 4 id), (srid_bytes le s ++ body), id. split; [done|]. split; [done|]. split; [done|]. split; [done|]. by exists (srid_bytes le s), body.
Qed.

(** ** The column *)
Lemma decode_total columns : is_Some (decode_spatial close columns k).
Proof.
  destruct columns as [|[bs|] rest]; [by eexists| |by eexists]. unfold decode_spatial.
  destruct (parses_geometry (S (length bs)) bs) as (r & -> & _); [lia|]. by eexists.
Qed.

Lemma decode_ewkb bs rest d : decode_spatial close (Some bs :: rest) k = Some (Ok d) ↔ Ewkb bs (d_geometry d) (d_srid d).
Proof.
  unfold decode_spatial. destruct (parses_geometry (S (length bs)) bs) as (r & -> & Hr); [lia|].
  change (Some ?x ≫= ?f) with (f x). cbv beta. trans (r = @Ok Error _ (d, [])).
  - destruct r as [[d' s]|e]; cbn; [|split; [by intros [= ]|done]]. case_bool_decide as Hs.
    + subst s. split; [by intros [= ->]|by intros [= ->]].
    + split; [by intros [= ]|intros [= -> ->]; by destruct Hs].
  - rewrite Hr. split; [intros (b & -> & Hb); by rewrite app_nil_r|intros Hb; exists bs; by rewrite app_nil_r].
Qed.

(** ** Writing *)
Definition polygon_ok (p : Polygon) : Prop :=
  count_ok (S (length (interiors p))) ∧ Forall (λ l, line_ok l ∧ close l = l) (exterior p :: interiors p).

(** What can be written: a shape of the first version, with counts and coordinates in range and
    closed rings, which is what [Polygon::new] makes of finite coordinates. *)
Definition geometry_ok (g : GeoGeometry) : Prop :=
  match g with
  | GPoint p => point_ok p
  | GLineString l => line_ok l
  | GPolygon p => polygon_ok p
  | GMultiPoint m => count_ok (length (mp_points m)) ∧ Forall point_ok (mp_points m)
  | GMultiLineString m => count_ok (length (ml_lines m)) ∧ Forall line_ok (ml_lines m)
  | GMultiPolygon m => count_ok (length (mpg_polygons m)) ∧ Forall polygon_ok (mpg_polygons m)
  | _ => False
  end.

Lemma u32_expect_ok n : count_ok n → u32_expect n = Some (Z.of_nat n).
Proof. intros [_ H]. unfold u32_expect. by rewrite (proj2 (Z.ltb_lt _ _) H). Qed.

Lemma write_line_ok l : line_ok l → write_line_string l = Some (line_bytes true l).
Proof. intros [Hc _]. unfold write_line_string. by rewrite u32_expect_ok. Qed.

Lemma mapM_all {A} (f : A → option bytes) (g : A → bytes) l : Forall (λ a, f a = Some (g a)) l → mapM f l = Some (map g l).
Proof. induction 1 as [|a l Ha _ IH]; [done|]. cbn. rewrite Ha. cbn. by rewrite IH. Qed.

Lemma write_polygon_ok p : polygon_ok p → ∃ b, write_polygon p = Some b ∧ ewkb_polygon close true b p.
Proof.
  intros [Hc Hl]. unfold write_polygon. rewrite u32_expect_ok by done. cbn [mbind option_bind].
  rewrite (mapM_all _ (line_bytes true)) by (eapply Forall_impl; [exact Hl|]; intros l [H _]; by apply write_line_ok).
  eexists. split; [reflexivity|]. left. exists (exterior p), (interiors p). split_and!; [done..| |done|].
  - eapply Forall_impl; [exact Hl|]. by intros l [].
  - apply Forall_cons in Hl as [[_ He] Hi]. unfold Polygon_new. rewrite He. destruct p as [e holes]. cbn in *. f_equal.
    symmetry. rewrite <- (map_id holes) at 2. apply map_ext_in. intros l Hin%list_elem_of_In. rewrite Forall_forall in Hi. by apply Hi.
Qed.

Lemma write_head_ok code srid inc : code ∈ [1; 2; 3; 4; 5; 6] → srid_ok srid → (inc = false → srid = None) →
  ewkb_head true code srid (write_head code srid inc).
Proof.
  intros Hcode Hs Hinc. rewrite !elem_of_cons, elem_of_nil in Hcode. unfold write_head, ewkb_head. destruct srid as [[s]|]; cbn [is_Some].
  - destruct inc; [|by specialize (Hinc eq_refl)]. exists (Z.lor code EWKB_SRID_FLAG). rewrite bool_decide_eq_true_2 by by eexists.
    destruct Hcode as [->|[->|[->|[->|[->|[->|[]]]]]]]; (split_and!; try done; by eexists).
  - exists code. rewrite bool_decide_eq_false_2 by by intros []. rewrite andb_false_r.
    destruct Hcode as [->|[->|[->|[->|[->|[->|[]]]]]]]; (split_and!; try done; by destruct inc).
Qed.

Lemma write_parts_ok {A} field (write : A → option bytes) (P : A → Prop) (G : bytes → A → Prop) parts :
  count_ok (length parts) → Forall P parts → (∀ a, P a → ∃ b, write a = Some b ∧ G b a) →
  ∃ bs, write_parts k field write parts = Some (Ok (counted true (length parts) ++ concat bs)) ∧ Forall2 G bs parts.
Proof.
  intros [_ Hc] Hall Hw. unfold write_parts, usize_to_u32. rewrite (proj2 (Z.ltb_lt _ _) Hc).
  assert (∃ bs, mapM write parts = Some bs ∧ Forall2 G bs parts) as (bs & -> & HG); [|by exists bs].
  clear Hc. induction Hall as [|a l Ha _ (bs & Hm & Hbs)]; [by exists []|]. destruct (Hw a Ha) as (b & Hb & Hg). exists (b :: bs). cbn.
  rewrite Hb. cbn. rewrite Hm. split; [done|by constructor].
Qed.

Lemma write_part_ok id srid_head b : write_part id (Some b) = Some srid_head → srid_head = write_head id None false ++ b.
Proof. by intros [= <-]. Qed.

Lemma write_geometry_ok g srid : geometry_ok g → srid_ok srid → ∃ b, encode_spatial k srid g = Some (Ok b) ∧ Ewkb b g srid.
Proof.
  intros Hg Hs. assert (Hhead : ∀ code, code ∈ [1; 2; 3; 4; 5; 6] → ewkb_head true code srid (write_head code srid true)) by (intros code Hc; by apply write_head_ok).
  assert (Hpart : ∀ code, code ∈ [1; 2; 3; 4; 5; 6] → ewkb_head true code None (write_head code None false)) by (intros code Hc; by apply write_head_ok).
  unfold encode_spatial, write_geometry. destruct g as [p| |l|p|m|m|m| | |]; cbn in Hg; try done; cbn [type_id write_body].
  - eexists. split; [done|]. apply (Ewkb_point close true); [apply Hhead; set_solver|done].
  - rewrite write_line_ok by done. eexists. split; [done|]. apply Ewkb_line; [apply Hhead; set_solver|done].
  - destruct (write_polygon_ok p Hg) as (b & -> & Hb). eexists. split; [done|]. eapply Ewkb_polygon; [apply Hhead; set_solver|done].
  - destruct Hg as [Hc Hall]. destruct m as [ps]. cbn [mp_points ml_lines mpg_polygons] in *. destruct (write_parts_ok "MultiPoint count" (λ p, write_part WKB_POINT (Some (write_point p)))
      point_ok (λ b p, Ewkb b (GPoint p) None) ps Hc Hall) as (bs & -> & Hbs).
    + intros p Hp. eexists. split; [done|]. apply (Ewkb_point close true); [apply Hpart; set_solver|done].
    + eexists. split; [done|]. apply Ewkb_multi_point; [apply Hhead; set_solver|done..].
  - destruct Hg as [Hc Hall]. destruct m as [ls]. cbn [mp_points ml_lines mpg_polygons] in *. destruct (write_parts_ok "MultiLineString count" (λ l, write_part WKB_LINESTRING (write_line_string l))
      line_ok (λ b l, Ewkb b (GLineString l) None) ls Hc Hall) as (bs & -> & Hbs).
    + intros l Hl. rewrite write_line_ok by done. eexists. split; [done|]. apply Ewkb_line; [apply Hpart; set_solver|done].
    + eexists. split; [done|]. apply Ewkb_multi_line; [apply Hhead; set_solver|done..].
  - destruct Hg as [Hc Hall]. destruct m as [ps]. cbn [mp_points ml_lines mpg_polygons] in *. destruct (write_parts_ok "MultiPolygon count" (λ p, write_part WKB_POLYGON (write_polygon p))
      polygon_ok (λ b p, Ewkb b (GPolygon p) None) ps Hc Hall) as (bs & -> & Hbs).
    + intros p Hp. destruct (write_polygon_ok p Hp) as (b & -> & Hb). eexists. split; [done|]. eapply Ewkb_polygon; [apply Hpart; set_solver|done].
    + eexists. split; [done|]. apply Ewkb_multi_polygon; [apply Hhead; set_solver|done..].
Qed.
End geometry.

(** Reading back a value of one shape. *)
Class GeoLaws (T : Type) `{GeoValue T} : Prop := geo_try_into (v : T) : try_from_geometry (into_geometry v) = Ok v.
#[export] Instance geo_any_laws : GeoLaws GeoGeometry. Proof. done. Qed.
#[export] Instance geo_point_laws : GeoLaws Point. Proof. done. Qed.
#[export] Instance geo_line_string_laws : GeoLaws LineString. Proof. done. Qed.
#[export] Instance geo_polygon_laws : GeoLaws Polygon. Proof. done. Qed.
#[export] Instance geo_multi_point_laws : GeoLaws MultiPoint. Proof. done. Qed.
#[export] Instance geo_multi_line_laws : GeoLaws MultiLineString. Proof. done. Qed.
#[export] Instance geo_multi_polygon_laws : GeoLaws MultiPolygon. Proof. done. Qed.

(** C32: the PostGIS codecs.  Decoding always ends; it accepts exactly the columns that are two-dimensional
    EWKB, whatever their byte orders, and gives the geometry and the SRID they describe; and a
    value that can be written, of any of the seven types, is decoded from what it is encoded to. *)
Theorem ewkb_codec (close : LineString → LineString) (k : SpatialKind) (T : Type) `{GeoLaws T} :
  (∀ columns, is_Some (decode_spatial close columns k))
  ∧ (∀ bs rest d, decode_spatial close (Some bs :: rest) k = Some (Ok d) ↔ Ewkb close bs (d_geometry d) (d_srid d))
  ∧ (∀ (v : Spatial T) params rest, geometry_ok close (into_geometry (sp_value v)) → srid_ok (sp_srid v) →
      ∃ bs, spatial_encode k v params = Some (Ok tt, params ++ [Some bs]) ∧ spatial_decode close k (Some bs :: rest) = Some (Ok v)).
Proof.
  split_and!; [apply decode_total|apply decode_ewkb|]. intros [v srid] params rest Hg Hs. cbn in Hg, Hs.
  destruct (write_geometry_ok close k _ srid Hg Hs) as (bs & He & Hb). exists bs. unfold spatial_encode, spatial_decode. cbn [sp_srid sp_value].
  rewrite He. split; [done|]. rewrite (proj2 (decode_ewkb close k bs rest (mk_decoded (into_geometry v) srid)) Hb).
  cbn. by rewrite geo_try_into.
Qed.

(** Closing a ring by comparing bits: the crate's comparison on coordinates that are numbers. *)
Definition close_ring (l : LineString) : LineString :=
  match ls_coords l, list.last (ls_coords l) with
  | first :: _, Some last =>
    if (c_x first =? c_x last) && (c_y first =? c_y last) then l else mk_line_string (ls_coords l ++ [first])
  | _, _ => l
  end.
Definition a_ring : LineString := mk_line_string [mk_coord 0 0; mk_coord 0 (2 ^ 62); mk_coord (2 ^ 62) 0; mk_coord 0 0].
Definition a_geography : Spatial MultiPolygon := wgs84 (mk_multi_polygon [mk_polygon a_ring []; mk_polygon a_ring [a_ring]]).

Lemma ewkb_codec_witness :
  geometry_ok close_ring (into_geometry (sp_value a_geography)) ∧ srid_ok (sp_srid a_geography) ∧
  ∃ bs, spatial_encode KGeography a_geography [] = Some (Ok tt, [Some bs])
    ∧ spatial_decode close_ring KGeography [Some bs] = Some (Ok a_geography).
Proof.
  assert (Hok : geometry_ok close_ring (into_geometry (sp_value a_geography)) ∧ srid_ok (sp_srid a_geography)).
  { split; [|cbn; lia]. cbn. unfold polygon_ok, line_ok, coord_ok, count_ok, in_uint. cbn. repeat first [apply Forall_nil; exact I | apply Forall_cons | split]; cbn; first [lia | done]. }
  split; [apply Hok|]. split; [apply Hok|].
  exact (proj2 (proj2 (ewkb_codec close_ring KGeography MultiPolygon)) a_geography [] [] (proj1 Hok) (proj2 Hok)).
Defined.

(** A big-endian point, which the codec never writes but reads. *)
Example big_endian_point :
  spatial_decode (T := Point) close_ring KGeometry [Some ([x00] ++ to_be_bytes 4 1 ++ to_be_bytes 8 7 ++ to_be_bytes 8 9)]
  = Some (Ok (spatial_new (mk_point 7 9))).
Proof. vm_compute. reflexivity. Qed.

(** An SRID is written as a [u32] and read as an [i32]: from [2^31] on it does not come back. *)
Example large_srid_refused :
  ∃ bs, spatial_encode KGeometry (with_srid (mk_point 0 0) (mk_srid (2 ^ 31))) [] = Some (Ok tt, [Some bs])
    ∧ spatial_decode (T := Point) close_ring KGeometry [Some bs]
      = Some (Err (postgis_error KGeometry "negative SRIDs are not supported (got -2147483648)")).
Proof.
  exists (write_head WKB_POINT (Some (mk_srid (2 ^ 31))) true ++ write_point (mk_point 0 0)).
  split; [reflexivity|vm_compute; reflexivity].
Qed.
