(* ===== verification/Fragment.v ===== *)
(** * Statements: fragments, queries and commands

    [crates/core/src/query/fragment.rs] and [query/mod.rs].  A [Fragment] is SQL text, the
    encoder of its parameters and their number; [bind] and [plus] keep the three in step.
    [__from_dynamic_parts] fragments carry a function that renders the statement for given
    arguments.  The abstract specification is a [Builder]: the expression that built the
    fragment, read as a template of literals and holes numbered from left to right. *)
From S2P Require Import Prelude Bytes Text Error Types Codec.

Local Open Scope Z_scope.
Local Open Scope str_scope.

(** ** Bound statements *)
Record BoundStatement := mk_bound {
  bound_sql : str;
  bound_params : Slots;
  bound_types : list Type_;
  bound_formats : list Z;
}.

(** The three vectors [push_bound_param] and [push_null_param] extend. *)
Record ParamVecs := mk_vecs { vec_params : Slots; vec_types : list Type_; vec_formats : list Z }.

Definition push_metadata {A} (codec : Encoder A) (v : ParamVecs) (params : Slots) : ParamVecs :=
  mk_vecs params (vec_types v ++ enc_types codec) (vec_formats v ++ enc_formats codec).

Definition push_bound_param {A} (codec : Encoder A) (value : A) : SE ParamVecs Error unit := λ v,
  match encode codec value (vec_params v) with
  | (Ok _, params) => (Ok tt, push_metadata codec v params)
  | (Err e, params) => (Err e, mk_vecs params (vec_types v) (vec_formats v))
  end.

Definition push_null_param {A} (codec : Encoder A) (v : ParamVecs) : ParamVecs :=
  push_metadata codec v (vec_params v ++ replicate (length (enc_oids codec)) None).

(** [Toggle]: the [format_codes] are the trait's default, which is empty. *)
Definition Toggle : Encoder bool := mk_encoder (λ _, mret tt) [] [] [].

(** ** Fragments *)
Record Fragment (A : Type) := mk_fragment {
  frag_sql : str;
  frag_encoder : Encoder A;
  n_params : nat;
  frag_origin : option Origin;
  dynamic : option (A → result Error BoundStatement);
}.
Arguments mk_fragment {A}. Arguments frag_sql {A}. Arguments frag_encoder {A}. Arguments n_params {A}.
Arguments frag_origin {A}. Arguments dynamic {A}.

Definition lit (sql : str) : Fragment unit := mk_fragment sql (enc unit_codec) 0 None None.

Definition append_lit {A} (f : Fragment A) (sql : str) : Fragment A :=
  mk_fragment (frag_sql f ++ sql) (frag_encoder f) (n_params f) (frag_origin f) (dynamic f).

Definition with_origin {A} (f : Fragment A) (o : Origin) : Fragment A :=
  mk_fragment (frag_sql f) (frag_encoder f) (n_params f) (Some o) (dynamic f).

(** [AppendOne] and [AppendChain] have the same body. *)
Definition AppendChain {A B} (head : Encoder A) (tail : Encoder B) : Encoder (A * B) :=
  mk_encoder (λ value, encode head value.1;; encode tail value.2)
    (enc_oids head ++ enc_oids tail) (enc_types head ++ enc_types tail) (enc_formats head ++ enc_formats tail).
Definition AppendOne {A X} (head : Encoder A) (tail : Encoder X) : Encoder (A * X) := AppendChain head tail.

(** [write!(sql, "${}", n)] *)
Definition placeholder (n : Z) : str := "$" ++ Text.dec n.

Definition bind {A X} (f : Fragment A) (codec : Codec X) : Fragment (A * X) :=
  let n := S (n_params f) in
  mk_fragment (frag_sql f ++ placeholder (Z.of_nat n)) (AppendOne (frag_encoder f) (enc codec)) n
    (frag_origin f) None.

(** The inner [while] of [renumber_placeholders]: the digits from [j] on and what follows. *)
Fixpoint span_digits (s : str) : str * str :=
  match s with
  | c :: s' => if is_ascii_digit c then let '(ds, r) := span_digits s' in (c :: ds, r) else ([], s)
  | [] => ([], [])
  end.

(** [renumber_placeholders]: [None] is a panic, of [expect] when the number does not fit a
    [usize] (64 bits) or of the addition, with overflow checks, when the sum does not.  A byte
    that is not part of a placeholder is pushed as the character with that code.  One unit of
    fuel is one turn of the loop, which consumes at least one byte. *)
Fixpoint renumber_loop (fuel : nat) (offset : Z) (s : str) : option str :=
  match fuel, s with
  | S fuel, c :: rest =>
    let '(digits, after) := span_digits rest in
    if byte_is c 36 && (0 <? length digits)%nat then
      n ← to_option (parse_uint 64 10 digits);
      if n + offset <? 2 ^ 64 then app (placeholder (n + offset)) <$> renumber_loop fuel offset after
      else None
    else app (encode_char (u8_of c)) <$> renumber_loop fuel offset rest
  | _, _ => Some []
  end.

Definition renumber_placeholders (sql : str) (offset : nat) : option str :=
  if (offset =? 0)%nat then Some sql else renumber_loop (length sql) (Z.of_nat offset) sql.

Definition or_origin (a b : option Origin) : option Origin := match a with Some _ => a | None => b end.

Definition plus {A B} (f : Fragment A) (other : Fragment B) : option (Fragment (A * B)) :=
  renumbered ← renumber_placeholders (frag_sql other) (n_params f);
  Some (mk_fragment (frag_sql f ++ renumbered) (AppendChain (frag_encoder f) (frag_encoder other))
          (n_params f + n_params other) (or_origin (frag_origin f) (frag_origin other)) None).

Definition from_parts {A} (sql : str) (encoder : Encoder A) (n : nat) (o : option Origin) : Fragment A :=
  mk_fragment sql encoder n o None.
Definition from_dynamic_parts {A} (sql : str) (encoder : Encoder A) (n : nat) (o : option Origin)
    (d : A → result Error BoundStatement) : Fragment A :=
  mk_fragment sql encoder n o (Some d).

Definition bind_runtime {A} (f : Fragment A) (args : A) : result Error BoundStatement :=
  match dynamic f with
  | Some d => d args
  | None =>
    match encode (frag_encoder f) args [] with
    | (Ok _, params) =>
      Ok (mk_bound (frag_sql f) params (enc_types (frag_encoder f)) (enc_formats (frag_encoder f)))
    | (Err e, _) => Err e
    end
  end.

Definition sql_for {A} (f : Fragment A) (args : A) : result Error str := bound_sql <$> bind_runtime f args.

(** ** Queries and commands *)
Record Query (A B : Type) := mk_query { q_fragment : Fragment A; q_decoder : Decoder B }.
Record QueryCommand (A : Type) := mk_command { c_fragment : Fragment A }.
Arguments mk_query {A B}. Arguments q_fragment {A B}. Arguments q_decoder {A B}.
Arguments mk_command {A}. Arguments c_fragment {A}.

Definition fragment_query {A B} (f : Fragment A) (d : Decoder B) : Query A B := mk_query f d.
Definition fragment_command {A} (f : Fragment A) : QueryCommand A := mk_command f.

Definition Query_raw {B} (sql : str) (d : Decoder B) : Query unit B :=
  mk_query (from_parts sql (enc unit_codec) 0 None) d.
Definition Query_raw_with {A B} (sql : str) (e : Encoder A) (d : Decoder B) : Query A B :=
  mk_query (from_parts sql e (length (enc_oids e)) None) d.
Definition Command_raw (sql : str) : QueryCommand unit := mk_command (from_parts sql (enc unit_codec) 0 None).
Definition Command_raw_with {A} (sql : str) (e : Encoder A) : QueryCommand A :=
  mk_command (from_parts sql e (length (enc_oids e)) None).

(** ** Builders

    The calls that make a fragment. *)
Inductive Builder : Type → Type :=
  | BLit (sql : str) : Builder unit
  | BAppend {A} (b : Builder A) (sql : str) : Builder A
  | BOrigin {A} (b : Builder A) (o : Origin) : Builder A
  | BBind {A X} (b : Builder A) (c : Codec X) : Builder (A * X)
  | BPlus {A B} (a : Builder A) (b : Builder B) : Builder (A * B).

Fixpoint build {A} (b : Builder A) : option (Fragment A) :=
  match b with
  | BLit sql => Some (lit sql)
  | BAppend b sql => f ← build b; Some (append_lit f sql)
  | BOrigin b o => f ← build b; Some (with_origin f o)
  | BBind b c => f ← build b; Some (bind f c)
  | BPlus a b => f ← build a; g ← build b; plus f g
  end.

(** The template: literals and holes, in order. *)
Fixpoint template {A} (b : Builder A) : list (option str) :=
  match b with
  | BLit sql => [Some sql]
  | BAppend b sql => template b ++ [Some sql]
  | BOrigin b _ => template b
  | BBind b _ => template b ++ [None]
  | BPlus a b => template a ++ template b
  end.

(** The SQL of a template whose first hole is [$(k + 1)]. *)
Fixpoint number (k : nat) (t : list (option str)) : str :=
  match t with
  | [] => []
  | Some sql :: t => sql ++ number k t
  | None :: t => placeholder (Z.of_nat (S k)) ++ number (S k) t
  end.

Definition holes (t : list (option str)) : nat := length (filter (λ x, x = None) t).

(** What encoding does, one computation per hole, and the metadata of the holes. *)
Fixpoint encoders {A} (b : Builder A) : A → list (SE Slots Error unit) :=
  match b with
  | BLit _ => λ _, []
  | BAppend b _ => encoders b
  | BOrigin b _ => encoders b
  | BBind b c => λ v, encoders b v.1 ++ [encode (enc c) v.2]
  | BPlus a b => λ v, encoders a v.1 ++ encoders b v.2
  end.

Fixpoint metadata {Y A} (get : ∀ X, Codec X → list Y) (b : Builder A) : list Y :=
  match b with
  | BLit _ => []
  | BAppend b _ => metadata get b
  | BOrigin b _ => metadata get b
  | BBind b c => metadata get b ++ get _ c
  | BPlus a b => metadata get a ++ metadata get b
  end.

Fixpoint run_all (ms : list (SE Slots Error unit)) : SE Slots Error unit :=
  match ms with [] => mret tt | m :: ms => m;; run_all ms end.

Fixpoint builder_origin {A} (b : Builder A) : option Origin :=
  match b with
  | BLit _ => None
  | BAppend b _ => builder_origin b
  | BOrigin _ o => Some o
  | BBind b _ => builder_origin b
  | BPlus a b => or_origin (builder_origin a) (builder_origin b)
  end.

(** A literal that cannot be mistaken for part of a placeholder: ASCII, without a [$] before a
    digit, and not starting with a digit. *)
Definition starts_with_digit (s : str) : bool := match s with c :: _ => is_ascii_digit c | [] => false end.

Fixpoint placeholder_free (s : str) : bool :=
  match s with
  | [] => true
  | c :: s => (u8_of c <? 128) && negb (byte_is c 36 && starts_with_digit s) && placeholder_free s
  end.

Definition literal_ok (s : str) : bool := placeholder_free s && negb (starts_with_digit s).
Definition template_ok (t : list (option str)) : Prop :=
  Forall (λ x, match x with Some s => literal_ok s = true | None => True end) t.

(** ** Renumbering a rendered template *)
Lemma starts_with_digit_number k t : template_ok t → starts_with_digit (number k t) = false.
Proof.
  revert k. induction t as [|[s|] t IH]; intros k Hok; [done| |].
  - apply Forall_cons in Hok as [[_ Hs]%andb_true_iff Hok]. apply negb_true_iff in Hs.
    destruct s; [by apply IH|done].
  - done.
Qed.

Lemma span_digits_app ds r : Forall (λ b, 48 ≤ u8_of b ≤ 57) ds → starts_with_digit r = false →
  span_digits (ds ++ r) = (ds, r).
Proof.
  intros Hds Hr. induction Hds as [|d ds Hd _ IH]; cbn.
  - destruct r as [|c r]; cbn in *; [done|]. by rewrite Hr.
  - unfold is_ascii_digit. rewrite (proj2 (within_true _ _ _) Hd), IH. done.
Qed.

Lemma encode_char_ascii c : u8_of c < 128 → encode_char (u8_of c) = [c].
Proof.
  intros Hc. unfold encode_char. rewrite (proj2 (Z.ltb_lt _ _)) by lia. by rewrite byte_of_u8_of.
Qed.

Lemma renumber_text fuel offset s r : placeholder_free s = true → starts_with_digit r = false →
  renumber_loop (length s + fuel) offset (s ++ r) = app s <$> renumber_loop fuel offset r.
Proof.
  intros Hs Hr. revert Hs. induction s as [|c s IH]; cbn; intros Hs.
  { by destruct (renumber_loop fuel offset r). }
  apply andb_true_iff in Hs as [[Hc%Z.ltb_lt Hd%negb_true_iff]%andb_true_iff Hs].
  assert (byte_is c 36 && (0 <? length (span_digits (s ++ r)).1)%nat = false) as Hno.
  { destruct (byte_is c 36); [|done]. destruct s as [|d s]; cbn in *.
    - destruct r as [|d r]; cbn in *; [done|by rewrite Hr].
    - by rewrite Hd. }
  destruct (span_digits (s ++ r)) as [ds after]; cbn in Hno |- *. rewrite Hno, IH by done.
  rewrite encode_char_ascii by done. by destruct (renumber_loop fuel offset r).
Qed.

Lemma renumber_placeholder fuel offset n r :
  0 ≤ n → 0 ≤ offset → n + offset < 2 ^ 64 → starts_with_digit r = false →
  renumber_loop (S fuel) offset (placeholder n ++ r)
  = app (placeholder (n + offset)) <$> renumber_loop fuel offset r.
Proof.
  intros Hn Ho Hsum Hr. unfold placeholder at 1. cbn [app]. cbn [renumber_loop].
  rewrite span_digits_app by (try done; by apply dec_digits).
  destruct (dec_nonneg_head n Hn) as (d & ds & Hd & E).
  assert (Text.dec n = digit_byte d :: ds) as E' by (unfold Text.dec; case_match; [lia|done]).
  rewrite E' at 1. cbn [length Nat.ltb Nat.leb andb].
  rewrite parse_uint_dec by (unfold in_uint; lia). cbn [to_option mbind option_bind].
  by rewrite (proj2 (Z.ltb_lt _ _)).
Qed.

(** Renumbering the rendering of a template is rendering it with shifted numbers. *)
Lemma renumber_number fuel offset k t : template_ok t →
  Z.of_nat (offset + k + holes t) < 2 ^ 64 → (length (number k t) ≤ fuel)%nat →
  renumber_loop fuel (Z.of_nat offset) (number k t) = Some (number (offset + k) t).
Proof.
  revert fuel k. induction t as [|[s|] t IH]; intros fuel k Hok Hn Hfuel.
  - by destruct fuel.
  - apply Forall_cons in Hok as [[Hs _]%andb_true_iff Hok].
    cbn [number] in *. rewrite length_app in Hfuel.
    replace fuel with (length s + (fuel - length s))%nat by lia.
    rewrite renumber_text by (try done; by apply starts_with_digit_number).
    rewrite IH by (try done; lia). done.
  - apply Forall_cons in Hok as [_ Hok]. cbn [number] in *.
    unfold holes in *. rewrite filter_cons_True in Hn by done. cbn [length] in Hn.
    rewrite length_app in Hfuel. unfold placeholder at 1 in Hfuel. cbn [length app] in Hfuel.
    destruct fuel as [|fuel]; [lia|].
    rewrite renumber_placeholder by (try lia; by apply starts_with_digit_number).
    rewrite IH by (try done; lia). cbn [fmap option_fmap option_map number].
    replace (offset + S k)%nat with (S (offset + k)) by lia.
    by replace (Z.of_nat (S k) + Z.of_nat offset) with (Z.of_nat (S (offset + k))) by lia.
Qed.

Lemma renumber_template offset t : template_ok t → Z.of_nat (offset + holes t) < 2 ^ 64 →
  renumber_placeholders (number 0 t) offset = Some (number offset t).
Proof.
  intros Hok Hn. unfold renumber_placeholders. case_match eqn:E.
  - apply Nat.eqb_eq in E. by subst.
  - rewrite renumber_number by (try done; rewrite ?Nat.add_0_r; lia). by rewrite Nat.add_0_r.
Qed.

Lemma number_app k t1 t2 : number k (t1 ++ t2) = number k t1 ++ number (k + holes t1) t2.
Proof.
  revert k. induction t1 as [|[s|] t1 IH]; intros k; cbn [app number].
  - by rewrite Nat.add_0_r.
  - rewrite IH, (assoc_L app). done.
  - rewrite IH, (assoc_L app). unfold holes. rewrite filter_cons_True by done. cbn [length].
    do 2 f_equal. lia.
Qed.

Lemma holes_app t1 t2 : holes (t1 ++ t2) = (holes t1 + holes t2)%nat.
Proof. unfold holes. by rewrite filter_app, length_app. Qed.

Lemma holes_lit s : holes [Some s] = 0%nat.
Proof. done. Qed.
Lemma holes_hole : holes [None] = 1%nat.
Proof. done. Qed.

Lemma run_all_app ms1 ms2 ps : run_all (ms1 ++ ms2) ps = (run_all ms1;; run_all ms2) ps.
Proof.
  revert ps. induction ms1 as [|m ms1 IH]; intros ps; [done|].
  cbn [app run_all]. unfold mbind, se_bind in *. destruct (m ps) as [[[]|e] ps']; [|done]. apply IH.
Qed.

Lemma holes_encoders {A} (b : Builder A) v : length (encoders b v) = holes (template b).
Proof.
  induction b as [|A' b IH s|A' b IH o|A' X b IH c|A' B' b1 IH1 b2 IH2]; cbn [encoders template];
    rewrite ?holes_app, ?length_app, ?holes_lit, ?holes_hole; cbn [length];
    [done|rewrite IH; lia|apply IH|by rewrite IH|by rewrite IH1, IH2].
Qed.

Lemma metadata_length {Y A} (get : ∀ X, Codec X → list Y) (b : Builder A) :
  Forall (λ n, n = 1%nat) (metadata (λ X c, [length (get X c)]) b) → length (metadata get b) = holes (template b).
Proof.
  induction b as [|A' b IH s|A' b IH o|A' X b IH c|A' B' b1 IH1 b2 IH2]; cbn [metadata template];
    rewrite ?holes_app, ?length_app, ?holes_lit, ?holes_hole, ?Forall_app, ?Forall_singleton;
    [done|intros Hone; rewrite IH by done; lia|done|intros [Hone ->]; by rewrite IH|].
  intros [Hone1 Hone2]. by rewrite IH1, IH2.
Qed.

(** ** What a builder yields *)
Lemma build_spec {A} (b : Builder A) : template_ok (template b) → Z.of_nat (holes (template b)) < 2 ^ 64 →
  ∃ f, build b = Some f ∧ frag_sql f = number 0 (template b) ∧ n_params f = holes (template b)
  ∧ frag_origin f = builder_origin b ∧ dynamic f = None
  ∧ (∀ v ps, encode (frag_encoder f) v ps = run_all (encoders b v) ps)
  ∧ enc_oids (frag_encoder f) = metadata (λ _ c, enc_oids (enc c)) b
  ∧ enc_types (frag_encoder f) = metadata (λ _ c, enc_types (enc c)) b
  ∧ enc_formats (frag_encoder f) = metadata (λ _ c, enc_formats (enc c)) b.
Proof.
  induction b as [sql|A' b' IH sql|A' b' IH o|A' X b' IH c|A' B' b1 IH1 b2 IH2];
    cbn [template build]; rewrite ?holes_app, ?holes_lit, ?holes_hole; intros Hok Hn.
  - eexists. split; [done|]. cbn. rewrite app_nil_r. done.
  - apply Forall_app in Hok as [Hok _]. destruct IH as (f & -> & Hf); [done|lia|].
    destruct Hf as (Hsql & Hp & Hf). eexists. split; [done|]. cbn.
    rewrite number_app, Hsql, Hp. cbn. rewrite app_nil_r. split; [done|]. split; [lia|done].
  - destruct IH as (f & -> & Hf); [done..|]. destruct Hf as (Hsql & Hp & _ & Hf).
    eexists. split; [done|]. done.
  - apply Forall_app in Hok as [Hok _]. destruct IH as (f & -> & Hf); [done|lia|].
    destruct Hf as (Hsql & Hp & Ho & _ & He & H1 & H2 & H3). eexists. split; [done|]. cbn.
    rewrite number_app, Hsql, Hp, H1, H2, H3. cbn. rewrite app_nil_r.
    split; [done|]. split; [lia|]. split; [done|]. split; [done|]. split; [|done].
    intros v ps. rewrite run_all_app. cbn. unfold mbind, se_bind. rewrite He.
    destruct (run_all _ ps) as [[[]|e] ps']; [|done]. cbn. by destruct (encode (enc c) v.2 ps') as [[[]|] ?].
  - apply Forall_app in Hok as [Hok1 Hok2].
    destruct IH1 as (f & -> & Hsql1 & Hp1 & Ho1 & _ & He1 & H1 & H2 & H3); [done|lia|].
    destruct IH2 as (g & -> & Hsql2 & Hp2 & Ho2 & _ & He2 & H4 & H5 & H6); [done|lia|].
    cbn [mbind option_bind]. unfold plus. rewrite Hsql2, Hp1, renumber_template by (try done; lia).
    eexists. split; [done|]. cbn.
    rewrite number_app, Hsql1, Hp2, Ho1, Ho2, H1, H2, H3, H4, H5, H6.
    do 4 (split; [done|]). split; [|done].
    intros v ps. rewrite run_all_app. unfold mbind, se_bind. rewrite He1.
    by destruct (run_all _ ps) as [[[]|e] ps'].
Qed.

Lemma run_all_slots ms slots ps :
  Forall2 (λ m slot, ∀ ps, m ps = (Ok tt, ps ++ [slot])) ms slots → run_all ms ps = (Ok tt, ps ++ slots).
Proof.
  intros Hs. revert ps. induction Hs as [|m slot ms slots Hm _ IH]; intros ps; cbn.
  - by rewrite app_nil_r.
  - unfold mbind, se_bind. by rewrite Hm, IH, <- (assoc_L app).
Qed.


Definition sample_builder : Builder (unit * Z * (unit * Z * str)) :=
  BPlus (BBind (BLit "SELECT ") int4)
    (BAppend (BBind (BAppend (BBind (BOrigin (BLit " WHERE x = ") (Origin_new "demo.rs" 1 1)) int8) " AND y = ") text) ";").


(** What the hypothesis on literals keeps out: a literal with non-ASCII text on the right of a
    [plus] is re-encoded byte by byte, a literal starting with a digit extends the placeholder
    before it, and a number too large for a [usize] panics. *)
Lemma plus_mangles_non_ascii :
  frag_sql <$> plus (bind (lit "SELECT ") int4) (lit [xc3; xa9])
  = Some ("SELECT $1" ++ [xc3; x83; xc2; xa9]).
Proof. by vm_compute. Qed.

Lemma plus_panics_on_large_number :
  plus (bind (lit "SELECT ") int4) (lit "$18446744073709551616") = None.
Proof. by vm_compute. Qed.

Lemma literal_digit_extends_placeholder :
  frag_sql (append_lit (bind (lit "SELECT ") int4) "0") = "SELECT $10".
Proof. by vm_compute. Qed.

(** [bind] and [plus] on a dynamic fragment keep its static text and forget its function. *)
Lemma bind_forgets_dynamic {A X} (f : Fragment A) (c : Codec X) : dynamic (bind f c) = None.
Proof. done. Qed.
