(* ===== verification/Cache.v ===== *)
(** * The statement cache and the type registry

    [crates/core/src/session/cache.rs] and [type_registry.rs]: the two maps a session keeps
    behind locks.  Each operation is one critical section.  The hash in the cache key is the
    standard library's [DefaultHasher], whose algorithm is unspecified: it is the parameter
    [sql_hash], about which nothing is assumed.  The [u64] counter is unbounded here: it would
    take 2^64 preparations to overflow it. *)
From S2P Require Import Prelude Bytes Text Error Backend Types.

Local Open Scope Z_scope.
Local Open Scope str_scope.

#[export] Instance Type_eq_dec : EqDecision Type_.
Proof. solve_decision. Defined.
#[export] Program Instance Type_countable : Countable Type_ :=
  inj_countable' (λ t, (ty_oid t, ty_name t, ty_extension t)) (λ x, mk_type x.1.1 x.1.2 x.2) _.
Next Obligation. by intros []. Qed.

(** ** Keys *)
Class SqlHash := sql_hash : str → Z.

Record CacheKey := mk_key { key_hash : Z; key_types : list Type_ }.

#[export] Instance CacheKey_eq_dec : EqDecision CacheKey.
Proof. solve_decision. Defined.
#[export] Program Instance CacheKey_countable : Countable CacheKey :=
  inj_countable' (λ k, (key_hash k, key_types k)) (λ x, mk_key x.1 x.2) _.
Next Obligation. by intros []. Qed.

Definition CacheKey_new `{SqlHash} (sql : str) (param_types : list Type_) : CacheKey :=
  mk_key (sql_hash sql) param_types.

(** ** The cache *)
Record CachedStatement := mk_cached { cached_name : str; cached_oids : list Z; cached_fields : list RowField }.
Record CacheEntry := mk_centry { entry_stmt : CachedStatement; handles : nat }.
Record StatementCache := mk_cache {
  stmts : gmap CacheKey CacheEntry;
  counter : Z;
  retain_on_zero_handles : bool;
}.

Definition StatementCache_new (retain : bool) : StatementCache := mk_cache ∅ 0 retain.

Definition set_stmts (m : gmap CacheKey CacheEntry) (c : StatementCache) : StatementCache :=
  mk_cache m (counter c) (retain_on_zero_handles c).

Definition checkout (key : CacheKey) (c : StatementCache) : option CachedStatement * StatementCache :=
  match stmts c !! key with
  | None => (None, c)
  | Some e => (Some (entry_stmt e), set_stmts (<[key := mk_centry (entry_stmt e) (S (handles e))]> (stmts c)) c)
  end.

Definition cache_insert (key : CacheKey) (stmt : CachedStatement) (c : StatementCache) : StatementCache :=
  set_stmts (<[key := mk_centry stmt 1]> (stmts c)) c.

Definition release_handle (key : CacheKey) (c : StatementCache) : option CachedStatement * StatementCache :=
  match stmts c !! key with
  | None => (None, c)
  | Some e =>
    if (1 <? handles e)%nat then
      (None, set_stmts (<[key := mk_centry (entry_stmt e) (handles e - 1)]> (stmts c)) c)
    else if retain_on_zero_handles c then
      (None, set_stmts (<[key := mk_centry (entry_stmt e) 0]> (stmts c)) c)
    else (Some (entry_stmt e), set_stmts (delete key (stmts c)) c)
  end.

Definition statement_name (n : Z) : str := "_babar_" ++ dec n.

Definition next_name (c : StatementCache) : str * StatementCache :=
  let n := counter c + 1 in (statement_name n, mk_cache (stmts c) n (retain_on_zero_handles c)).

Lemma statement_name_inj m n : 0 ≤ m → 0 ≤ n → statement_name m = statement_name n → m = n.
Proof. intros Hm Hn E. apply dec_inj_uint; [done..|]. by apply (app_inv_head "_babar_"). Qed.

(** ** The type registry *)
Definition TypeRegistry : Type := (gmap Type_ Oid).
Definition registry_get (ty : Type_) (r : TypeRegistry) : option Oid := r !! ty.
Definition registry_insert (ty : Type_) (oid : Oid) (r : TypeRegistry) : TypeRegistry := <[ty := oid]> r.
