(* ===== verification/Prog.v ===== *)
(** * Session programs: what an async function of the session does, step by step

    The functions of [session/mod.rs], [prepared.rs], [stream.rs] and [transaction.rs] are async
    functions over shared state: they send commands to the driver, take the locks of the
    statement cache and the type registry for one operation at a time, draw names from atomic
    counters and spawn tasks.  A [Prog A] is such a function: a tree of operations, each of
    which is one indivisible step.  [run] executes a program alone; [pool_step] interleaves the
    programs of many tasks, one operation at a time.

    A command's reply channel is a fresh oneshot: a [Request] is the command without it, and the
    answer is [None] when the command could not be sent or the channel was dropped. *)
From S2P Require Import Prelude Bytes Text Error Backend Driver Types Cache.

Local Open Scope Z_scope.
Local Open Scope str_scope.

(** What a reply channel of a kind carries when it succeeds. *)
Definition payload (k : ReplyKind) : Type :=
  match k with
  | KSimple => list RawRows | KExtended => ExtendedOutcome | KCopyIn => CopyInOutcome
  | KPrepare => PrepareOutcome | KUnit => unit | KBatch => PortalBatch
  end.

Definition unpack (k : ReplyKind) (r : Reply) : option (result Error (payload k)) :=
  match k, r return option (result Error (payload k)) with
  | KSimple, RSimple r => Some r
  | KExtended, RExtended r => Some r
  | KCopyIn, RCopyIn r => Some r
  | KPrepare, RPrepare r => Some r
  | KUnit, RUnit r => Some r
  | KBatch, RBatch r => Some r
  | _, _ => None
  end.

(** The atomic counters of the crate. *)
Inductive Counter := StreamNames | SavepointNames | PoolSavepointNames.
#[export] Instance Counter_eq_dec : EqDecision Counter.
Proof. solve_decision. Defined.

Inductive Op : Type → Type :=
  | Request (k : ReplyKind) (c : Chan → Command) : Op (option (result Error (payload k)))
  | Post (c : Chan → Command) : Op bool
  | Checkout (key : CacheKey) : Op (option CachedStatement)
  | NextName : Op str
  | InsertStatement (key : CacheKey) (stmt : CachedStatement) : Op unit
  | ReleaseHandle (key : CacheKey) : Op (option CachedStatement)
  | RegistryGet (ty : Type_) : Op (option Oid)
  | RegistryInsert (ty : Type_) (oid : Oid) : Op unit
  | FetchAdd (c : Counter) : Op Z
  | RowClosed : Op bool
  | RowSend {B : Type} (row : result Error B) : Op bool
  | MarkBroken : Op unit.

Inductive Prog (A : Type) : Type :=
  | Ret (a : A)
  | Do {X} (o : Op X) (k : X → Prog A)
  | Fork (p : Prog unit) (k : Prog A).
Arguments Ret {A}. Arguments Do {A X}. Arguments Fork {A}.

Definition do {X} (o : Op X) : Prog X := Do o Ret.
Definition fork (p : Prog unit) : Prog unit := Fork p (Ret tt).

Fixpoint prog_bind {A B} (p : Prog A) : (A → Prog B) → Prog B :=
  match p with
  | Ret a => λ f, f a
  | Do o k => λ f, Do o (λ x, prog_bind (k x) f)
  | Fork q k => λ f, Fork q (prog_bind k f)
  end.

#[export] Instance prog_ret : MRet Prog := λ A a, Ret a.
#[export] Instance prog_mbind : MBind Prog := λ A B f p, prog_bind p f.

(** What a finished program returned. *)
Definition result_of {A} (p : Prog A) : option A :=
  match p with Ret a => Some a | _ => None end.

(** Programs that can fail. *)
Definition PE (A : Type) : Type := Prog (result Error A).
#[export] Instance pe_ret : MRet PE := λ A a, Ret (Ok a).
#[export] Instance pe_bind : MBind PE := λ A B f p,
  prog_bind p (λ r, match r with Ok a => f a | Err e => Ret (Err e) end).

Definition fail {A} (e : Error) : PE A := Ret (Err e).
Definition of_result {A} (r : result Error A) : PE A := Ret r.
Definition perform {X} (o : Op X) : PE X := Do o (λ x, Ret (Ok x)).
Definition always {A} (p : Prog A) : PE A := prog_bind p (λ a, Ret (Ok a)).

(** ** Execution

    [serve] is the connection: what the driver answers to a command (a [Post]'s reply is not
    read) and how the world behind it changes. *)
Class Connection (W : Type) := serve : (Chan → Command) → W → option Reply * W.

(** What the tasks of a session share.  The row channel of a stream: [delivered] are the rows
    put into it, [demand] how many more the consumer lets in before it closes the channel
    ([None]: it never does).  [broken] is the flag of the pooled connection that has checked the
    session out, which its handles share. *)
Record Shared (W : Type) := mk_shared {
  world : W;
  cache : StatementCache;
  registry : TypeRegistry;
  next_id : Counter → Z;
  delivered : list {B : Type & result Error B};
  demand : option nat;
  spawned : list (Prog unit);
  broken : bool;
}.
Arguments mk_shared {W}. Arguments world {W}. Arguments cache {W}. Arguments registry {W}.
Arguments next_id {W}. Arguments delivered {W}. Arguments demand {W}. Arguments spawned {W}. Arguments broken {W}.

Section execution.
Context {W : Type} `{Connection W}.
Implicit Types s : Shared W.

Definition with_world s (w : W) : Shared W := mk_shared w (cache s) (registry s) (next_id s) (delivered s) (demand s) (spawned s) (broken s).
Definition with_cache s c : Shared W := mk_shared (world s) c (registry s) (next_id s) (delivered s) (demand s) (spawned s) (broken s).
Definition with_registry s r : Shared W := mk_shared (world s) (cache s) r (next_id s) (delivered s) (demand s) (spawned s) (broken s).
Definition with_next_id s f : Shared W := mk_shared (world s) (cache s) (registry s) f (delivered s) (demand s) (spawned s) (broken s).
Definition with_rows s l d : Shared W := mk_shared (world s) (cache s) (registry s) (next_id s) l d (spawned s) (broken s).
Definition with_spawned s l : Shared W := mk_shared (world s) (cache s) (registry s) (next_id s) (delivered s) (demand s) l (broken s).

Definition with_broken s b : Shared W := mk_shared (world s) (cache s) (registry s) (next_id s) (delivered s) (demand s) (spawned s) b.

Definition channel_closed s : bool := match demand s with Some 0%nat => true | _ => false end.

Definition handle {X} (o : Op X) s : X * Shared W :=
  match o in Op X return X * Shared W with
  | Request k c => let '(r, w) := serve c (world s) in (r ≫= unpack k, with_world s w)
  | Post c => let '(r, w) := serve c (world s) in (bool_decide (is_Some r), with_world s w)
  | Checkout key => let '(x, c) := checkout key (cache s) in (x, with_cache s c)
  | NextName => let '(x, c) := next_name (cache s) in (x, with_cache s c)
  | InsertStatement key stmt => (tt, with_cache s (cache_insert key stmt (cache s)))
  | ReleaseHandle key => let '(x, c) := release_handle key (cache s) in (x, with_cache s c)
  | RegistryGet ty => (registry_get ty (registry s), s)
  | RegistryInsert ty oid => (tt, with_registry s (registry_insert ty oid (registry s)))
  | FetchAdd c =>
    (next_id s c, with_next_id s (λ c', if decide (c' = c) then next_id s c + 1 else next_id s c'))
  | RowClosed => (channel_closed s, s)
  | @RowSend B row =>
    if channel_closed s then (false, s)
    else (true, with_rows s (delivered s ++ [existT B row]) (pred <$> demand s))
  | MarkBroken => (tt, with_broken s true)
  end.

(** One task running alone; spawned tasks are collected. *)
Fixpoint run {A} (p : Prog A) s : A * Shared W :=
  match p with
  | Ret a => (a, s)
  | Do o k => let '(x, s') := handle o s in run (k x) s'
  | Fork q k => run k (with_spawned s (spawned s ++ [q]))
  end.

(** One operation of one task. *)
Definition advance {A} (p : Prog A) s : option (Prog A * list (Prog unit) * Shared W) :=
  match p with
  | Ret _ => None
  | Do o k => let '(x, s') := handle o s in Some (k x, [], s')
  | Fork q k => Some (k, [q], s)
  end.

Lemma run_bind {A B} (p : Prog A) (f : A → Prog B) s :
  run (p ≫= f) s = let '(a, s') := run p s in run (f a) s'.
Proof.
  revert s. unfold mbind, prog_mbind.
  induction p as [A a|A X o k IH|A q _ k IH]; intros s; cbn; [done| |apply IH].
  destruct (handle o s) as [x s']. apply IH.
Qed.

Lemma run_pe_bind {A B} (p : PE A) (f : A → PE B) s :
  run (p ≫= f) s = match run p s with (Ok a, s') => run (f a) s' | (Err e, s') => (Err e, s') end.
Proof.
  change (p ≫= f) with (prog_bind p (λ r, match r with Ok a => f a | Err e => Ret (Err e) end)).
  change (prog_bind p ?g) with (@mbind Prog _ _ _ g p).
  rewrite run_bind. by destruct (run p s) as [[a|e] s'].
Qed.

End execution.
