(* ===== verification/Session.v ===== *)
(** * The session: queries, prepared statements, type resolution

    [crates/core/src/session/mod.rs] and [prepared.rs], as programs over the operations of
    [Prog.v].  The tracing spans have no counterpart.  Streams are in [Stream.v]. *)
From S2P Require Import Prelude Bytes Text Error Backend Driver Types Codec Fragment Cache Prog.

Local Open Scope Z_scope.
Local Open Scope str_scope.

(** ** Text helpers *)

(** [split_whitespace().next_back()] on a text without trailing white space. *)
Fixpoint last_word (word s : str) : str :=
  match s with
  | [] => word
  | b0 :: s1 =>
    if is_ascii_ws b0 then last_word [] s1
    else match s1 with
         | b1 :: s2 =>
           if ws2 b0 b1 then last_word [] s2
           else match s2 with
                | b2 :: s3 => if ws3 b0 b1 b2 then last_word [] s3 else last_word (word ++ [b0]) s1
                | [] => last_word (word ++ [b0]) s1
                end
         | [] => last_word (word ++ [b0]) s1
         end
  end.

Definition parse_affected_rows (tag : option str) : Z :=
  match tag with
  | None => 0
  | Some tag => default 0 (to_option (parse_uint 64 10 (last_word [] (trim_end tag))))
  end.

Definition escape_sql_literal (value : str) : str := replace_byte "'"%byte "''" value.

(** ** Requests

    Send, wait for the reply, and add the SQL to the error; a connection that is gone is
    [Error::closed()]. *)
Definition annotate {A} (sql : str) (o : option Origin) (r : result Error A) : result Error A :=
  map_err (λ e, with_sql e sql o) r.

Definition request_raw (k : ReplyKind) (c : Chan → Command) : PE (payload k) :=
  r ← perform (Request k c); of_result (default (Err closed) r).

Definition request (k : ReplyKind) (c : Chan → Command) (sql : str) (o : option Origin) : PE (payload k) :=
  r ← perform (Request k c); of_result (annotate sql o (default (Err closed) r)).

Definition simple_query_raw (sql : str) : PE (list RawRows) := request KSimple (CSimpleQuery sql) sql None.

Definition copy_in_raw (sql : str) (data : list bytes) : PE Z :=
  outcome ← request KCopyIn (CCopyIn sql data) sql None;
  mret (parse_affected_rows (Some (copy_tag outcome))).

(** [stream::run_control_command] *)
Definition run_control_command (sql : str) : PE unit :=
  _ ← request_raw KExtended (CExtendedQuery sql [] [] [] None); mret tt.

(** [stream::close_statement_best_effort] *)
Definition close_statement_best_effort (name : str) : Prog unit :=
  _ ← do (Request KUnit (CCloseStatement name)); Ret tt.

(** ** One-shot statements *)
Definition decode_rows {B} (d : Decoder B) (sql : str) (o : option Origin) (rows : RawRows) : result Error (list B) :=
  map_result (λ columns, annotate sql o (decode d columns)) rows.

Definition q_sql {A B} (q : Query A B) : str := frag_sql (q_fragment q).
Definition q_origin {A B} (q : Query A B) : option Origin := frag_origin (q_fragment q).
Definition c_sql {A} (c : QueryCommand A) : str := frag_sql (c_fragment c).
Definition c_origin {A} (c : QueryCommand A) : option Origin := frag_origin (c_fragment c).

Definition execute {A} (cmd : QueryCommand A) (args : A) : PE Z :=
  bound ← of_result (annotate (c_sql cmd) (c_origin cmd) (bind_runtime (c_fragment cmd) args));
  let sql := bound_sql bound in
  outcome ← request KExtended (CExtendedQuery sql (bound_params bound) (bound_formats bound) [] None) sql (c_origin cmd);
  mret (parse_affected_rows (command_tag outcome)).

Definition query {A B} (q : Query A B) (args : A) : PE (list B) :=
  bound ← of_result (annotate (q_sql q) (q_origin q) (bind_runtime (q_fragment q) args));
  let sql := bound_sql bound in
  outcome ← request KExtended
    (CExtendedQuery sql (bound_params bound) (bound_formats bound) (dec_formats (q_decoder q))
       (Some (Z.of_nat (n_columns (q_decoder q))))) sql (q_origin q);
  of_result (decode_rows (q_decoder q) sql (q_origin q) (rows outcome)).

(** ** Dynamic types *)
Definition resolve_sql (ty : Type_) : str :=
  match ty_extension ty with
  | Some extension =>
    "SELECT t.oid::text FROM pg_type AS t JOIN pg_namespace AS n ON n.oid = t.typnamespace "
    ++ "JOIN pg_extension AS e ON e.extnamespace = n.oid WHERE e.extname = '"
    ++ escape_sql_literal extension ++ "' AND t.typname = '" ++ escape_sql_literal (ty_name ty) ++ "'"
  | None => "SELECT to_regtype('" ++ escape_sql_literal (ty_name ty) ++ "')::oid::text"
  end.

Definition quoted (s : str) : str := [x22] ++ s ++ [x22].

(** [rows.first().first().first()], an existing cell that is not NULL. *)
Definition first_cell (results : list RawRows) : option bytes :=
  rowset ← head results; row ← head rowset; cell ← head row; cell.

Definition parse_oid (ty : Type_) (results : list RawRows) : result Error Oid :=
  raw ← ok_or (first_cell results) (Error.Codec ("could not resolve PostgreSQL type " ++ quoted (ty_name ty)
    ++ match ty_extension ty with Some ext => " from extension " ++ quoted ext | None => [] end));
  text ← map_err (λ _, Error.Codec ("type resolution for " ++ quoted (ty_name ty) ++ " returned non-UTF-8"))
    (from_utf8 raw);
  map_err (λ _, Error.Codec ("type resolution for " ++ quoted (ty_name ty) ++ " returned invalid OID " ++ debug_str text))
    (parse_uint 32 10 text).

Definition resolve_dynamic_type (ty : Type_) : PE Oid :=
  results ← simple_query_raw (resolve_sql ty); of_result (parse_oid ty results).

Definition resolve_type (ty : Type_) : PE Oid :=
  if is_resolved ty then mret (ty_oid ty)
  else
    known ← perform (RegistryGet ty);
    match known with
    | Some oid => mret oid
    | None =>
      oid ← resolve_dynamic_type ty;
      _ ← perform (RegistryInsert ty oid);
      mret oid
    end.

Fixpoint resolve_type_oids (declared : list Type_) : PE (list Oid) :=
  match declared with
  | [] => mret []
  | ty :: declared => oid ← resolve_type ty; oids ← resolve_type_oids declared; mret (oid :: oids)
  end.

(** ** Row descriptions *)
Fixpoint first_mismatch (position : Z) (expected : list Oid) (fields : list RowField) : option Error :=
  match expected, fields with
  | e :: expected, f :: fields =>
    if e =? type_oid f then first_mismatch (position + 1) expected fields
    else Some (SchemaMismatch position e (type_oid f) (field_name f) None None)
  | _, _ => None
  end.

Definition validate_row_description {B} (d : Decoder B) (fields : list RowField) (expected : list Oid)
  : result Error unit :=
  if negb (length fields =? n_columns d)%nat then
    Err (ColumnAlignment (Z.of_nat (n_columns d)) (Z.of_nat (length fields)) None None)
  else match first_mismatch 0 expected fields with Some e => Err e | None => Ok tt end.

(** ** Prepared statements

    A handle: the statement's name on the server, the fragment and the cache key.  [closed] is
    set by [close], which consumes the handle, so that dropping it afterwards does nothing. *)
Record PreparedStatement (A : Type) := mk_prepared {
  ps_name : str;
  ps_fragment : Fragment A;
  ps_key : CacheKey;
  ps_closed : bool;
}.
Arguments mk_prepared {A}. Arguments ps_name {A}. Arguments ps_fragment {A}. Arguments ps_key {A}.
Arguments ps_closed {A}.

Record PreparedQuery (A B : Type) := mk_prepared_query { pq_statement : PreparedStatement A; pq_decoder : Decoder B }.
Arguments mk_prepared_query {A B}. Arguments pq_statement {A B}. Arguments pq_decoder {A B}.
Abbreviation PreparedCommand := PreparedStatement.

Section statement.
Context {A : Type} (st : PreparedStatement A).
Let sql := frag_sql (ps_fragment st).
Let origin := frag_origin (ps_fragment st).

Definition ps_encode (args : A) : result Error Slots :=
  match encode (frag_encoder (ps_fragment st)) args [] with
  | (Ok _, params) => Ok params
  | (Err e, _) => Err (with_sql e sql origin)
  end.

Definition param_formats : list Z := enc_formats (frag_encoder (ps_fragment st)).

(** [PreparedStatement::close]: only the last handle closes the statement on the server. *)
Definition close_prepared : PE unit :=
  released ← perform (ReleaseHandle (ps_key st));
  match released with
  | None => mret tt
  | Some _ => request KUnit (CCloseStatement (ps_name st)) sql origin
  end.

(** [schedule_close_on_drop] *)
Definition drop_prepared : Prog unit :=
  if ps_closed st then mret tt
  else fork (released ← do (ReleaseHandle (ps_key st));
             match released with
             | None => mret tt
             | Some _ => _ ← do (Post (CCloseStatement (ps_name st))); mret tt
             end).

Definition prepared_execute (args : A) : PE Z :=
  params ← of_result (ps_encode args);
  outcome ← request KExtended (CExecutePrepared (ps_name st) params param_formats [] None) sql origin;
  mret (parse_affected_rows (command_tag outcome)).
End statement.

Definition prepared_query {A B} (p : PreparedQuery A B) (args : A) : PE (list B) :=
  let st := pq_statement p in
  let sql := frag_sql (ps_fragment st) in
  let origin := frag_origin (ps_fragment st) in
  params ← of_result (ps_encode st args);
  outcome ← request KExtended
    (CExecutePrepared (ps_name st) params (param_formats st) (dec_formats (pq_decoder p))
       (Some (Z.of_nat (n_columns (pq_decoder p))))) sql origin;
  of_result (decode_rows (pq_decoder p) sql origin (rows outcome)).

(** ** Preparing

    [prepare_query] and [prepare_command] differ in their refusal text, in the types that are
    resolved after the parameters' and in the check of the row description. *)
Section prepare.
Context `{SqlHash} {A : Type} (f : Fragment A).

Definition fragment_key : CacheKey := CacheKey_new (frag_sql f) (enc_types (frag_encoder f)).

Definition handle_named (name : str) : PreparedStatement A := mk_prepared name f fragment_key false.

(** After the server's answer: check it, and enter the statement in the cache. *)
Definition enter_statement (name : str) (check : PrepareOutcome → result Error unit) (outcome : PrepareOutcome)
  : PE (PreparedStatement A) :=
  match check outcome with
  | Err e =>
    _ ← always (close_statement_best_effort name);
    fail (with_sql e (frag_sql f) (frag_origin f))
  | Ok _ =>
    _ ← perform (InsertStatement fragment_key (mk_cached name (param_oids outcome) (row_fields outcome)));
    mret (handle_named name)
  end.

(** A cache miss. *)
Definition prepare_new {X} (resolve : PE X) (check : X → PrepareOutcome → result Error unit)
  : PE (PreparedStatement A) :=
  name ← perform NextName;
  oids ← resolve_type_oids (enc_types (frag_encoder f));
  x ← resolve;
  outcome ← request KPrepare (CPrepare name (frag_sql f) oids) (frag_sql f) (frag_origin f);
  enter_statement name (check x) outcome.

Definition prepare {X} (refusal : str) (resolve : PE X) (check : X → PrepareOutcome → result Error unit)
  : PE (PreparedStatement A) :=
  match dynamic f with
  | Some _ => fail (with_sql (Error.Codec refusal) (frag_sql f) (frag_origin f))
  | None =>
    cached ← perform (Checkout fragment_key);
    match cached with
    | Some c => mret (handle_named (cached_name c))
    | None => prepare_new resolve check
    end
  end.
End prepare.

Definition prepare_query `{SqlHash} {A B} (q : Query A B) : PE (PreparedQuery A B) :=
  let d := q_decoder q in
  st ← prepare (q_fragment q)
    "queries with runtime-dependent optional schema-aware SQL cannot be prepared; call Session::query or Session::stream with arguments instead"
    (resolve_type_oids (dec_types d))
    (λ output_oids outcome, validate_row_description d (row_fields outcome) output_oids);
  mret (mk_prepared_query st d).

Definition prepare_command `{SqlHash} {A} (c : QueryCommand A) : PE (PreparedCommand A) :=
  prepare (c_fragment c)
    "commands with runtime-dependent optional schema-aware SQL cannot be prepared; call Session::execute with arguments instead"
    (mret tt) (λ _ _, Ok tt).

(** ** Opening and closing *)

(** [new_session]: the shared state of a fresh session over a connection. *)
Definition new_session {W} (w : W) (retain_prepared_statements : bool) : Shared W :=
  mk_shared w (StatementCache_new retain_prepared_statements) ∅ (λ _, 1) [] None [] false.

(** [Session::close]: [timed_out] when the driver does not answer within five seconds.  A failed
    send is ignored: the reply channel is then dropped and the wait ends at once. *)
Definition close_result (timed_out : bool) (reply : option (result Error unit)) : result Error unit :=
  if timed_out then Err (protocol "Session::close timed out waiting for driver")
  else default (Ok tt) reply.

Definition session_close (timed_out : bool) : PE unit :=
  reply ← perform (Request KUnit CClose); of_result (close_result timed_out reply).

(** [Drop for Session] *)
Definition session_drop (is_closed : bool) : Prog unit :=
  if is_closed then mret tt else _ ← do (Post CClose); mret tt.

(** ** Facts shared by the theorems *)
Lemma run_perform {W} `{Connection W} {X} (o : Op X) (s : Shared W) :
  Prog.run (perform o) s = let '(x, s') := handle o s in (Ok x, s').
Proof. cbn. by destruct (handle o s). Qed.

Lemma run_of_result {W} `{Connection W} {A} (r : result Error A) (s : Shared W) :
  Prog.run (of_result r) s = (r, s).
Proof. done. Qed.

Lemma run_request {W} `{Connection W} k c sql o (s : Shared W) :
  Prog.run (request k c sql o) s
  = (annotate sql o (default (Err closed) ((serve c (world s)).1 ≫= unpack k)),
     with_world s (serve c (world s)).2).
Proof. unfold request. rewrite run_pe_bind, run_perform. cbn. by destruct (serve c (world s)). Qed.

(** The last word of a tag that ends in a number is the number. *)
Lemma last_word_digits word p ds : Forall (λ b, 48 ≤ u8_of b ≤ 57) ds → last_word word (p ++ " " ++ ds) = ds.
Proof.
  intros Hds.
  assert (∀ word, last_word word ds = word ++ ds) as Hend.
  { clear word p. induction Hds as [|d ds Hd Hds IH]; intros word; cbn; [by rewrite app_nil_r|].
    assert (is_ascii_ws d = false) as -> by (unfold is_ascii_ws, within, byte_is; lia).
    assert (∀ b, ws2 d b = false) as H2 by (intros; unfold ws2, byte_is; lia).
    assert (∀ b c, ws3 d b c = false) as H3 by (intros; unfold ws3, byte_is; lia).
    rewrite IH, <- (assoc_L app).
    by destruct ds as [|d1 [|d2 ds]]; rewrite ?H2, ?H3. }
  remember (length p) as n eqn:Hn. revert word p Hn.
  induction n as [n IH] using lt_wf_ind. intros word p ->.
  assert (∀ w q, (length q < length p)%nat → last_word w (q ++ " " ++ ds) = ds) as IHp by (intros; by eapply IH).
  clear IH. destruct p as [|b0 p]; [cbn; apply Hend|].
  assert (∀ b, ws2 b " "%byte = false) as Hs2 by (intros; unfold ws2, byte_is; cbn; lia).
  assert (∀ b c, ws3 b c " "%byte = false) as Hs3 by (intros; unfold ws3, within, byte_is; cbn; lia).
  assert (∀ b c, ws3 b " "%byte c = false) as Hs3' by (intros; unfold ws3, byte_is; cbn; lia).
  cbn [app last_word]. destruct (is_ascii_ws b0); [apply (IHp [] p); cbn; lia|].
  destruct p as [|b1 p]; cbn [app] in *.
  - rewrite Hs2. destruct ds; rewrite ?Hs3'; apply (IHp _ []); cbn; lia.
  - destruct (ws2 b0 b1); [apply (IHp _ p); cbn; lia|].
    destruct p as [|b2 p]; cbn [app] in *.
    + rewrite Hs3. apply (IHp _ [b1]); cbn; lia.
    + destruct (ws3 b0 b1 b2); [apply (IHp _ p); cbn; lia|apply (IHp _ (b1 :: b2 :: p)); cbn; lia].
Qed.

Lemma trim_end_digits p d ds : Forall (λ b, 48 ≤ u8_of b ≤ 57) (d :: ds) →
  trim_end (p ++ d :: ds) = p ++ d :: ds.
Proof.
  intros Hds. destruct (exists_last (l := d :: ds) ltac:(done)) as (ds' & e & E). rewrite E in *.
  apply Forall_app in Hds as [_ He]. rewrite Forall_singleton in He.
  unfold trim_end. rewrite (assoc_L app), reverse_snoc. cbn [trim_rev].
  assert (is_ascii_ws e = false) as -> by (unfold is_ascii_ws, within, byte_is; lia).
  assert (∀ b, ws2 b e = false) as H2 by (intros; unfold ws2, byte_is; lia).
  assert (∀ b c, ws3 c b e = false) as H3 by (intros; unfold ws3, within, byte_is; lia).
  rewrite <- (reverse_involutive (p ++ ds')) at 2.
  destruct (reverse (p ++ ds')) as [|b [|c r]]; rewrite ?H2, ?H3; by rewrite reverse_cons.
Qed.

Lemma parse_affected_rows_count p n : in_uint 64 n → parse_affected_rows (Some (p ++ " " ++ Text.dec n)) = n.
Proof.
  intros Hn. assert (0 ≤ n) as Hpos by apply Hn. pose proof (dec_digits n Hpos) as Hd.
  destruct (dec_nonneg_head n Hpos) as (d & ds & _ & E).
  assert (Text.dec n = digit_byte d :: ds) as E' by (unfold Text.dec; case_match; [lia|done]).
  unfold parse_affected_rows. rewrite E', (assoc_L app), trim_end_digits by (by rewrite <- E').
  rewrite <- (assoc_L app), <- E', last_word_digits, parse_uint_dec by done. done.
Qed.
