(* ===== verification/Link.v ===== *)
(** * A session over the driver: statements end to end

    The connection of [Session.v] instantiated by the driver of [Driver.v] over a recording
    socket and a server that answers the bytes it is sent.  The theorem composes the layers:
    fragment binding, the session's request, the driver's messages, the server's answer, the
    driver's reply and the row decoder. *)
From S2P Require Import Prelude Bytes Text Error Backend Frontend Driver DriverFacts Types Codec Fragment Cache Prog Session.

Local Open Scope Z_scope.
Local Open Scope str_scope.

(** What a server answers to the bytes of one command: messages, then [ReadyForQuery] with a
    status. *)
Class Server (S : Type) := respond : bytes → S → list BackendMessage * byte * S.

Abbreviation LoopDriver := (Driver (H0 := recorder)).
Definition link_send := send (H0 := recorder).

Section link.
Context {S : Type} `{Server S}.

Record Link := mk_link { link_driver : LoopDriver; link_server : S }.

(** The driver waits for commands, and nothing is queued. *)
Definition idle (d : LoopDriver) : Prop := pending d = None ∧ inbox d = [] ∧ inbox_closed d = false.

(** The last reply sent on channel [id]. *)
Definition reply_on (id : nat) (d : LoopDriver) : option Reply :=
  snd <$> last (filter (λ x, x.1 = id) (replies d)).

(** A command through the driver: it is submitted on a fresh channel and taken from the inbox;
    unless that answered it already, the server gets the bytes written and the driver the
    server's messages. *)
#[export] Instance link_connection : Connection Link := λ c l,
  let d := link_driver l in
  let id := length (replies d) in
  match Driver.run (mk_loop d false) [Submit (c (Caller id)); Recv] with
  | None => (None, l)
  | Some r =>
    match pending (driver r) with
    | None => (reply_on id (driver r), mk_link (driver r) (link_server l))
    | Some _ =>
      let '(ms, status, σ) := respond (drop (length (sock d)) (sock (driver r))) (link_server l) in
      match Driver.run r (map Driver.Server (ms ++ [ReadyForQuery status])) with
      | Some r' => (reply_on id (driver r'), mk_link (driver r') σ)
      | None => (None, mk_link (driver r) σ)
      end
    end
  end.

Definition is_ready (m : BackendMessage) : bool := match m with ReadyForQuery _ => true | _ => false end.

(** Without an expected number of columns only the server's errors are problems. *)
Lemma problem_None (ms : list BackendMessage) : omap (problem None) ms = omap server_error ms.
Proof. induction ms as [|m ms IH]; [done|]. cbn. rewrite IH. by destruct m. Qed.

(** A lawful codec decodes exactly what it encoded. *)
Lemma lawful_decode {A} (c : Codec A) ok `{!Lawful c ok} v row :
  ok v → encode (enc c) v [] = (Ok tt, row) → decode (dec c) row = Ok v.
Proof.
  intros Hv He. destruct (law_round_trip v [] Hv) as (slots & He' & _ & Hd).
  rewrite He in He'. injection He' as ->. specialize (Hd []). by rewrite app_nil_r in Hd.
Qed.

(** The driver after a command: its bytes sent, its reply delivered. *)
Definition after (wire : bytes) (reply : Reply) (status : byte) (d : LoopDriver) : LoopDriver :=
  mk_driver (H0 := recorder) (sock d ++ wire) [] false None [] status (replies d ++ [(length (replies d), reply)]).

Lemma idle_after wire reply status d : idle (after wire reply status d).
Proof. done. Qed.

Definition with_chan (c : Chan → Command) : Prop := ∀ ch, command_chan (c ch) = ch.

Lemma link_serve c build wire ms status σ l p :
  idle (link_driver l) → with_chan c →
  command_plan (c (Caller (length (replies (link_driver l))))) = Some (build, p) →
  build [] = (Ok tt, wire) → respond wire (link_server l) = (ms, status, σ) →
  Forall (quiet (c (Caller (length (replies (link_driver l)))))) ms →
  let reply := outcome (c (Caller (length (replies (link_driver l))))) ms in
  serve c l = (Some reply, mk_link (after wire reply status (link_driver l)) σ).
Proof.
  destruct l as [d σ0]. cbn. intros (Hp & Hi & Hc) Hch Hplan Hb Hr Hq.
  unfold serve, link_connection. cbn [link_driver link_server].
  set (cmd := c (Caller (length (replies d)))) in *.
  assert (Driver.run (mk_loop d false) [Submit cmd; Recv]
          = Some (mk_loop (sent (H0 := recorder) [] p (sock d ++ wire) (with_inbox d [cmd] false)) false)) as ->.
  { cbn. rewrite Hc, Hi. cbn. rewrite Hp. unfold start. rewrite Hplan. unfold start_with, on_buf. cbn.
    rewrite Hb. unfold flush. cbn. done. }
  cbn [driver sent pending]. change (sock (sent [] p _ _)) with (sock d ++ wire).
  rewrite (drop_app_length (sock d) wire : drop (length (sock d)) (sock d ++ wire) = wire), Hr.
  erewrite (run_to_answer cmd [] ms p) by (done || by eapply progress_start).
  unfold settled. replace (command_chan cmd) with (Caller (length (replies d))) by (symmetry; apply Hch).
  cbn. unfold reply_on. cbn. rewrite filter_app, filter_cons_True by done. cbn. rewrite last_snoc. done.
Qed.

(** One extended query of the session over the link. *)
Lemma run_extended sql params formats result_formats expected wire ms status σ text o (s : Shared Link) :
  idle (link_driver (world s)) →
  build_extended_query sql params formats result_formats [] = (Ok tt, wire) →
  respond wire (link_server (world s)) = (ms, status, σ) →
  Forall (λ m, is_ready m = false) ms →
  ∃ d, idle d ∧ sock d = sock (link_driver (world s)) ++ wire ∧ Driver.transaction_status d = status ∧
  Prog.run (A := result Error ExtendedOutcome)
    (request KExtended (CExtendedQuery sql params formats result_formats expected) text o) s
  = (annotate text o (settle (head (omap (problem expected) ms)) (mk_extended (omap row_of ms) (last (omap tag_of_completion ms)))),
     with_world s (mk_link d σ)).
Proof.
  intros Hi Hb Hr Hms. set (id := length (replies (link_driver (world s)))).
  set (c := CExtendedQuery sql params formats result_formats expected).
  pose proof (link_serve c _ wire ms status σ (world s) _ Hi (λ _, eq_refl) eq_refl Hb Hr) as Hs.
  exists (after wire (outcome (c (Caller id)) ms) status (link_driver (world s))).
  split; [done|]. split; [done|]. split; [done|].
  etrans; [apply (run_request KExtended c)|]. rewrite Hs; [done|].
  apply (Forall_impl _ _ _ Hms). by intros [].
Qed.
End link.

(** C12: A one-shot statement over the driver and a server.  When the arguments bind and the
    command fits its messages, the session writes exactly the bytes of that command and waits
    for exactly the server's messages: a query returns the decoded rows in order, or the first
    problem (an error response, or a description with the wrong number of columns) with the SQL
    and origin attached; rows encoded by a lawful codec come back as the values that were
    encoded; a command returns the count that ends its completion tag.  The connection is then
    idle again, in the status the server reported. *)
Theorem statements_end_to_end {Sv : Type} `{Server Sv} {A B} (q : Query A B) (cmd : QueryCommand A) (args : A)
    bound bound' wire wire' ms status σ (s : Shared (Link (S := Sv))) :
  let d := q_decoder q in
  let sql := bound_sql bound in
  let expected := Some (Z.of_nat (n_columns d)) in
  idle (link_driver (world s)) → Forall (λ m, is_ready m = false) ms →
  (bind_runtime (q_fragment q) args = Ok bound →
   build_extended_query sql (bound_params bound) (bound_formats bound) (dec_formats d) [] = (Ok tt, wire) →
   respond wire (link_server (world s)) = (ms, status, σ) →
   ∃ l, idle l ∧ sock l = sock (link_driver (world s)) ++ wire ∧ Driver.transaction_status l = status ∧
   Prog.run (Session.query q args) s
   = (match head (omap (problem expected) ms) with
      | Some e => Err (with_sql e sql (q_origin q))
      | None => decode_rows d sql (q_origin q) (omap row_of ms)
      end, with_world s (mk_link l σ)) ∧
   ∀ (c : Codec B) ok vals, Lawful c ok → d = dec c → head (omap (problem expected) ms) = None →
     Forall2 (λ v row, ok v ∧ encode (enc c) v [] = (Ok tt, row)) vals (omap row_of ms) →
     Prog.run (Session.query q args) s = (Ok vals, with_world s (mk_link l σ))) ∧
  (bind_runtime (c_fragment cmd) args = Ok bound' →
   build_extended_query (bound_sql bound') (bound_params bound') (bound_formats bound') [] [] = (Ok tt, wire') →
   respond wire' (link_server (world s)) = (ms, status, σ) →
   head (omap server_error ms) = None →
   ∃ l, idle l ∧ sock l = sock (link_driver (world s)) ++ wire' ∧
   ∀ verb n, in_uint 64 n → last (omap tag_of_completion ms) = Some (verb ++ " " ++ Text.dec n) →
     Prog.run (execute cmd args) s = (Ok n, with_world s (mk_link l σ))).
Proof.
  intros d sql expected Hi Hms. subst d sql expected. split.
  - intros Hb Hbuild Hr.
    destruct (run_extended _ _ _ _ (Some (Z.of_nat (n_columns (q_decoder q)))) _ _ _ _ (bound_sql bound) (q_origin q) s Hi Hbuild Hr Hms) as (l & Hl & Hsock & Hst & Hrun).
    exists l. do 3 (split; [done|]).
    assert (Prog.run (Session.query q args) s
      = (match head (omap (problem (Some (Z.of_nat (n_columns (q_decoder q))))) ms) with
         | Some e => Err (with_sql e (bound_sql bound) (q_origin q))
         | None => decode_rows (q_decoder q) (bound_sql bound) (q_origin q) (omap row_of ms)
         end, with_world s (mk_link l σ))) as Hq.
    { unfold Session.query. rewrite run_pe_bind, run_of_result, Hb. cbn [annotate map_err].
      rewrite run_pe_bind, Hrun. by destruct (head (omap (problem _) ms)). }
    split; [done|]. intros c ok vals Hc Hd Hnone Hvals. rewrite Hq, Hnone, Hd. f_equal.
    clear -Hc Hvals. unfold decode_rows. induction Hvals as [|v row vals rows [Hok He] _ IH]; cbn; [done|].
    rewrite (lawful_decode c ok v row) by done. cbn. by rewrite IH.
  - intros Hb Hbuild Hr Herr.
    destruct (run_extended _ _ _ _ None _ _ _ _ (bound_sql bound') (c_origin cmd) s Hi Hbuild Hr Hms) as (l & Hl & Hsock & _ & Hrun).
    exists l. do 2 (split; [done|]). intros verb n Hn Htag.
    unfold execute. rewrite run_pe_bind, run_of_result, Hb. cbn [annotate map_err].
    rewrite run_pe_bind, Hrun, problem_None, Herr, Htag. cbn -[parse_affected_rows Text.dec].
    do 2 f_equal. by apply (parse_affected_rows_count verb).
Qed.

(** A scripted server: the same messages whatever is sent. *)
Definition scripted : Server (list BackendMessage * byte) := λ _ σ, (σ.1, σ.2, σ).

Definition fresh_driver : LoopDriver := Driver_new (H0 := recorder) [] "I"%byte.

Definition sample_query : Query (unit * Z) Z :=
  mk_query (bind (lit "SELECT id FROM t WHERE id > ") int4) (dec int4).

Definition sample_messages : list BackendMessage :=
  [ParseComplete; BindComplete; RowDescription [mk_row_field "id" 0 0 23 4 0 1];
   DataRow [Some [x00; x00; x00; x07]]; DataRow [Some [x00; x00; x00; x08]]; CommandComplete "SELECT 2"].

Definition sample_session : Shared (Link (S := list BackendMessage * byte)) :=
  new_session (mk_link fresh_driver (sample_messages, "I"%byte)) false.

Lemma statements_end_to_end_witness :
  (Prog.run (W := Link (S := list BackendMessage * byte)) (H := link_connection (H := scripted))
     (Session.query sample_query (tt, 5)) sample_session).1 = Ok [7; 8]
  ∧ (Prog.run (W := Link (S := list BackendMessage * byte)) (H := link_connection (H := scripted))
     (execute (mk_command (q_fragment sample_query)) (tt, 5)) sample_session).1 = Ok 2.
Proof.
  pose (bound := mk_bound "SELECT id FROM t WHERE id > $1" [Some [x00; x00; x00; x05]] (types_for_oids [INT4]) [1]).
  pose (built := λ formats, (build_extended_query (H := wire_api) (bound_sql bound) (bound_params bound)
    (bound_formats bound) formats []).2).
  destruct (statements_end_to_end (H := scripted) sample_query (mk_command (q_fragment sample_query)) (tt, 5)
    bound bound (built [1]) (built []) sample_messages "I"%byte (sample_messages, "I"%byte) sample_session
    ltac:(by split) ltac:(repeat constructor)) as [Hq He].
  split.
  - destruct Hq as (l & _ & _ & _ & _ & Hq); [by vm_compute|by vm_compute|done|].
    rewrite (Hq int4 (in_sint 32) [7; 8]); [done|apply int4_lawful|done|by vm_compute|].
    repeat constructor; try done; by vm_compute.
  - destruct He as (l & _ & _ & He); [by vm_compute|by vm_compute|done|by vm_compute|].
    rewrite (He "SELECT" 2); [done|done|by vm_compute].
Defined.
