(* ===== verification/Prepared.v ===== *)
(** * Prepared statements under concurrency

    Many tasks prepare, use, close and drop statements of one session at the same time.  A pool
    holds the shared state and the tasks; an action lets one task perform one operation, so that
    a list of actions is an interleaving of the programs of [Session.v].  A task that has
    finished preparing is a live handle until it is closed or dropped.

    The method: a protocol.  [allowed] and [next] give each operation a precondition and an
    effect on the [Phase] of the task performing it (what it owns), [follows] says that a program
    keeps to the protocol, and the invariant relates the phases of all tasks to the cache and to
    the server.  The programs are checked against the protocol once, and the invariant is
    preserved operation by operation. *)
From S2P Require Import Prelude Bytes Text Error Backend Driver Types Codec Fragment Cache Prog Session.

Local Open Scope Z_scope.
Local Open Scope str_scope.

(** ** Tasks and pools *)
Definition Handle : Type := {A : Type & PreparedStatement A}.
Definition handle_name (h : Handle) : str := ps_name (projT2 h).
Definition handle_key (h : Handle) : CacheKey := ps_key (projT2 h).
Definition handle_sql (h : Handle) : str := frag_sql (ps_fragment (projT2 h)).

Inductive Statement : Type :=
  | StmtQuery {A B} (q : Query A B)
  | StmtCommand {A} (c : QueryCommand A).

Section pool.
Context `{SqlHash}.

Definition prepare_of (s : Statement) : PE Handle :=
  match s with
  | StmtQuery q => p ← prepare_query q; mret (existT _ (pq_statement p))
  | StmtCommand c => p ← prepare_command c; mret (existT _ p)
  end.

Definition statement_key (s : Statement) : CacheKey :=
  match s with StmtQuery q => fragment_key (q_fragment q) | StmtCommand c => fragment_key (c_fragment c) end.

Definition close_of (h : Handle) : Prog unit := prog_bind (close_prepared (projT2 h)) (λ _, Ret tt).
Definition drop_of (h : Handle) : Prog unit := drop_prepared (projT2 h).

Inductive Task := Preparing (key : CacheKey) (p : PE Handle) | Releasing (p : Prog unit).

(** A preparation of [key] that has not finished. *)
Definition in_progress (key : CacheKey) (t : Task) : bool :=
  match t with
  | Preparing key' p => bool_decide (key' = key) && match result_of p with None => true | Some _ => false end
  | Releasing _ => false
  end.

Definition live_handle (t : Task) : option Handle :=
  match t with
  | Preparing _ p => match result_of p with Some (Ok h) => Some h | _ => None end
  | Releasing _ => None
  end.

(** A finished task that holds nothing. *)
Definition finished (t : Task) : bool :=
  match t with
  | Preparing _ p => match result_of p with Some (Err _) => true | _ => false end
  | Releasing p => match result_of p with Some _ => true | None => false end
  end.

Inductive Action :=
  | Begin (i : nat) (s : Statement)   (* a caller starts preparing *)
  | Turn (i j : nat)                  (* task [i] performs one operation; a task it spawns is [j] *)
  | CloseHandle (i : nat)             (* the holder of handle [i] calls [close] *)
  | DropHandle (i : nat)              (* the holder of handle [i] drops it *)
  | Reap (i : nat).                   (* a finished task goes away *)

Context {W : Type} `{Connection W}.

Record Pool := mk_pool { shared : Shared W; tasks : gmap nat Task }.

Definition turn_program {A} (wrap : Prog A → Task) (i j : nat) (p : Prog A) (pool : Pool) : option Pool :=
  match advance p (shared pool) with
  | Some (p', [], s') => Some (mk_pool s' (<[i := wrap p']> (tasks pool)))
  | Some (p', q :: _, s') =>
    match tasks pool !! j with
    | None => Some (mk_pool s' (<[j := Releasing q]> (<[i := wrap p']> (tasks pool))))
    | Some _ => None
    end
  | None => None
  end.

(** With [serial], a preparation only starts when none of the same key is in progress. *)
Definition act (serial : bool) (a : Action) (pool : Pool) : option Pool :=
  match a with
  | Begin i s =>
    match tasks pool !! i with
    | Some _ => None
    | None =>
      if serial && existsb (λ x, in_progress (statement_key s) x.2) (map_to_list (tasks pool)) then None
      else Some (mk_pool (shared pool) (<[i := Preparing (statement_key s) (prepare_of s)]> (tasks pool)))
    end
  | Turn i j =>
    t ← tasks pool !! i;
    match t with
    | Preparing key p => turn_program (Preparing key) i j p pool
    | Releasing p => turn_program Releasing i j p pool
    end
  | CloseHandle i =>
    t ← tasks pool !! i; h ← live_handle t;
    Some (mk_pool (shared pool) (<[i := Releasing (close_of h)]> (tasks pool)))
  | DropHandle i =>
    t ← tasks pool !! i; h ← live_handle t;
    Some (mk_pool (shared pool) (<[i := Releasing (drop_of h)]> (tasks pool)))
  | Reap i =>
    t ← tasks pool !! i;
    if finished t then Some (mk_pool (shared pool) (delete i (tasks pool))) else None
  end.

Fixpoint acts (serial : bool) (l : list Action) (pool : Pool) : option Pool :=
  match l with [] => Some pool | a :: l => act serial a pool ≫= acts serial l end.

Definition new_pool (w : W) (retain : bool) : Pool := mk_pool (new_session w retain) ∅.

(** ** The server

    [prepared]: the statements the server holds for this connection, with their SQL; [None] when
    the connection is gone, for good.  [Parse] of a free name enters the statement unless it is
    answered by an error; [Close] removes it, and never fails; looking up a type changes
    nothing.  A command that gets no answer means that the connection is gone. *)
Class PreparedServer := {
  prepared : W → option (gmap str str);
  law_gone c w : prepared w = None → prepared (serve c w).2 = None;
  law_prepare name sql oids w m : prepared w = Some m → m !! name = None →
    match serve (CPrepare name sql oids) w with
    | (Some (RPrepare (Ok _)), w') => prepared w' = Some (<[name := sql]> m)
    | (Some (RPrepare (Err _)), w') => prepared w' = Some m ∨ prepared w' = None
    | (_, w') => prepared w' = None
    end;
  law_close name w m : prepared w = Some m →
    match serve (CCloseStatement name) w with
    | (Some _, w') => prepared w' = Some (delete name m) ∨ prepared w' = None
    | (None, w') => prepared w' = None
    end;
  law_resolve ty w m : prepared w = Some m →
    prepared (serve (CSimpleQuery (resolve_sql ty)) w).2 = Some m
    ∨ prepared (serve (CSimpleQuery (resolve_sql ty)) w).2 = None;
}.
End pool.
Arguments mk_pool {W}. Arguments shared {W}. Arguments tasks {W}.
Arguments PreparedServer W {_}.

(** ** The protocol *)
Inductive Phase :=
  | Starting (k : CacheKey)             (* about to look into the cache *)
  | Missed (k : CacheKey)               (* the cache had no entry *)
  | Named (k : CacheKey) (n : str)      (* has drawn a name nobody else has *)
  | Owning (k : CacheKey) (n : str)     (* has a statement on the server that no entry names *)
  | Held (k : CacheKey) (n : str)       (* counted in the entry of [k], which names [n] *)
  | Closing (n : str)                   (* has taken the statement out of the cache *)
  | Nothing.

#[export] Instance Phase_eq_dec : EqDecision Phase.
Proof. solve_decision. Defined.

Section protocol.
Context `{SqlHash}.

Definition allowed {X} (o : Op X) (ph : Phase) : Prop :=
  match o, ph with
  | Checkout k', Starting k => k' = k
  | NextName, Missed _ => True
  | (RegistryGet _ | RegistryInsert _ _), Named _ _ => True
  | Request KSimple c, Named _ _ => ∃ ty, c = CSimpleQuery (resolve_sql ty)
  | Request KPrepare c, Named k n => ∃ sql oids, c = CPrepare n sql oids ∧ sql_hash sql = key_hash k
  | Request KUnit c, (Owning _ n | Closing n) => c = CCloseStatement n
  | Post c, Closing n => c = CCloseStatement n
  | InsertStatement k' stmt, Owning k n => k' = k ∧ cached_name stmt = n
  | ReleaseHandle k', Held k n => k' = k
  | _, _ => False
  end.

Definition next {X} (o : Op X) (ph : Phase) : X → Phase :=
  match o in Op X return X → Phase with
  | Checkout k => λ x, match x with Some c => Held k (cached_name c) | None => Missed k end
  | NextName => λ n, match ph with Missed k => Named k n | _ => Nothing end
  | Request k _ =>
    match k return option (result Error (payload k)) → Phase with
    | KPrepare => λ x, match x, ph with Some (Ok _), Named k n => Owning k n | _, _ => Nothing end
    | KUnit => λ _, Nothing
    | _ => λ _, ph
    end
  | Post _ => λ _, Nothing
  | InsertStatement k stmt => λ _, Held k (cached_name stmt)
  | ReleaseHandle k => λ x, match x, ph with Some _, Held _ n => Closing n | _, _ => Nothing end
  | _ => λ _, ph
  end.

(** [p] keeps to the protocol from phase [ph] on, and ends as [post] says. *)
Fixpoint follows {A} (p : Prog A) (ph : Phase) (post : A → Phase → Prop) : Prop :=
  match p with
  | Ret a => post a ph
  | Do o k => allowed o ph ∧ ∀ x, follows (k x) (next o ph x) post
  | Fork q k => False
  end.

Lemma follows_bind {A B} (p : Prog A) (f : A → Prog B) ph post :
  follows p ph (λ a ph', follows (f a) ph' post) → follows (prog_bind p f) ph post.
Proof.
  revert f ph. induction p as [A a|A X o k IH|A q _ k IH]; intros f ph; cbn; [done| |done].
  intros [Ho Hk]. split; [done|]. intros x. apply IH, Hk.
Qed.

Lemma follows_mono {A} (p : Prog A) ph (post post' : A → Phase → Prop) :
  (∀ a ph, post a ph → post' a ph) → follows p ph post → follows p ph post'.
Proof.
  revert ph post post'. induction p as [A a|A X o k IH|A q _ k IH]; intros ph post post' Hpost; cbn; [apply Hpost| |done].
  intros [Ho Hk]. split; [done|]. intros x. by eapply IH.
Qed.

(** A phase in which a preparation may fail: it has nothing on the server or in the cache. *)
Definition droppable (ph : Phase) : Prop :=
  match ph with Starting _ | Missed _ | Named _ _ | Nothing => True | _ => False end.

(** How a preparation ends. *)
Definition prepared_post (k : CacheKey) (r : result Error Handle) (ph : Phase) : Prop :=
  match r with
  | Ok h => ph = Held k (handle_name h) ∧ handle_key h = k ∧ sql_hash (handle_sql h) = key_hash k
            ∧ ps_closed (projT2 h) = false
  | Err _ => droppable ph
  end.

Lemma follows_resolve_type ty k n :
  follows (resolve_type ty) (Named k n) (λ _ ph, ph = Named k n).
Proof.
  unfold resolve_type. destruct (is_resolved ty); [done|].
  split; [done|]. intros [oid|]; [done|]. split; [by eexists|].
  intros r. unfold of_result. cbn. destruct (annotate _ _ _) as [rows|e]; cbn; [|done].
  by destruct (parse_oid ty rows).
Qed.

Lemma follows_resolve_types tys k n :
  follows (resolve_type_oids tys) (Named k n) (λ _ ph, ph = Named k n).
Proof.
  induction tys as [|ty tys IH]; [done|]. apply follows_bind.
  eapply follows_mono; [|apply follows_resolve_type]. intros [oid|e] ph ->; [|done].
  apply follows_bind. eapply follows_mono; [|apply IH]. by intros [oids|e] ph ->.
Qed.

Lemma follows_prepare {A X} (f : Fragment A) refusal (resolve : PE X) check :
  (∀ k n, follows resolve (Named k n) (λ _ ph, ph = Named k n)) →
  follows (prepare f refusal resolve check) (Starting (fragment_key f)) (λ r ph,
    match r with
    | Ok st => ph = Held (fragment_key f) (ps_name st) ∧ ps_key st = fragment_key f ∧ ps_fragment st = f
             ∧ ps_closed st = false
    | Err _ => droppable ph
    end).
Proof.
  intros Hres. unfold prepare. destruct (dynamic f); [done|].
  split; [done|]. intros [c|]; [done|]. cbn [prog_bind]. unfold prepare_new. apply follows_bind. split; [done|].
  intros name. cbn [follows next]. apply follows_bind. eapply follows_mono; [|apply follows_resolve_types]. intros [oids|e] ph ->; [|done].
  apply follows_bind. eapply follows_mono; [|apply Hres]. intros [x|e] ph ->; [|done].
  split; [by repeat eexists|]. intros [[outcome|e]|]; [|done..].
  cbn. unfold enter_statement. destruct (check x outcome).
  - split; [done|]. by intros [].
  - split; [done|]. by intros r.
Qed.

Lemma follows_prepare_of s :
  follows (prepare_of s) (Starting (statement_key s)) (prepared_post (statement_key s)).
Proof.
  destruct s as [A B q|A c]; apply follows_bind.
  - apply follows_bind. eapply follows_mono; [|apply follows_prepare].
    + intros [st|e] ph; [|done]. intros (-> & Hk & Hf & Hc). cbn. unfold handle_sql. cbn. by rewrite Hf.
    + intros k n. apply follows_resolve_types.
  - eapply follows_mono; [|apply follows_prepare]; [|done].
    intros [st|e] ph; [|done]. intros (-> & Hk & Hf & Hc). cbn. unfold handle_sql. cbn. by rewrite Hf.
Qed.

Lemma follows_close_of h : follows (close_of h) (Held (handle_key h) (handle_name h)) (λ _ ph, ph = Nothing).
Proof. apply follows_bind. split; [done|]. intros [c|]; [|done]. by split. Qed.

(** Dropping spawns a task that does the work. *)
Definition release_on_drop (h : Handle) : Prog unit :=
  Do (ReleaseHandle (handle_key h)) (λ released,
    match released with
    | None => Ret tt
    | Some _ => Do (Post (CCloseStatement (handle_name h))) (λ _, Ret tt)
    end).

Lemma drop_of_eq h : ps_closed (projT2 h) = false → drop_of h = Fork (release_on_drop h) (Ret tt).
Proof. unfold drop_of, drop_prepared. by intros ->. Qed.

Lemma follows_release_on_drop h :
  follows (release_on_drop h) (Held (handle_key h) (handle_name h)) (λ _ ph, ph = Nothing).
Proof. split; [done|]. intros [c|]; [|done]. by split. Qed.
End protocol.

(** ** Counting holders *)
Definition count (ph : Phase) (phs : gmap nat Phase) : nat := size (filter (λ x, x.2 = ph) phs).

Lemma count_insert_new ph i q phs : phs !! i = None →
  count ph (<[i := q]> phs) = ((if decide (q = ph) then 1 else 0) + count ph phs)%nat.
Proof.
  intros Hi. unfold count. destruct (decide (q = ph)) as [E|E].
  - rewrite map_filter_insert_True, map_size_insert_None; [done| |done].
    apply map_lookup_filter_None. by left.
  - rewrite map_filter_insert_False, delete_id by done. done.
Qed.

Lemma count_delete ph i q phs : phs !! i = Some q →
  count ph phs = ((if decide (q = ph) then 1 else 0) + count ph (delete i phs))%nat.
Proof.
  intros Hi. rewrite <- (insert_delete_id phs i q Hi) at 1. apply count_insert_new, lookup_delete_eq.
Qed.

Lemma count_insert ph i q q' phs : phs !! i = Some q →
  (count ph (<[i := q']> phs) + (if decide (q = ph) then 1 else 0)
   = (if decide (q' = ph) then 1 else 0) + count ph phs)%nat.
Proof.
  intros Hi. rewrite (count_delete _ _ _ _ Hi), <- insert_delete_eq, count_insert_new by apply lookup_delete_eq.
  lia.
Qed.

Lemma count_zero ph phs : (∀ i, phs !! i ≠ Some ph) → count ph phs = 0%nat.
Proof.
  intros Hno. apply map_size_empty_iff, map_empty. intros i. apply map_lookup_filter_None.
  right. intros q Hq E. cbn in E. subst. by apply (Hno i).
Qed.

Lemma count_pos ph phs : (0 < count ph phs)%nat → ∃ i, phs !! i = Some ph.
Proof.
  intros Hpos. destruct (map_choose (filter (λ x, x.2 = ph) phs)) as (i & q & Hi).
  - intros E. unfold count in Hpos. rewrite E, map_size_empty in Hpos. lia.
  - apply map_lookup_filter_Some in Hi as [Hi Hq]. cbn in Hq. subst. by exists i.
Qed.

(** ** The invariant *)

(** The key a phase is preparing; the name a phase owns outside the cache. *)
Definition preparing_key (ph : Phase) : option CacheKey :=
  match ph with Starting k | Missed k | Named k _ | Owning k _ => Some k | _ => None end.
Definition owned_name (ph : Phase) : option str :=
  match ph with Named _ n | Owning _ n | Closing n => Some n | _ => None end.
Definition missed_key (ph : Phase) : option CacheKey :=
  match ph with Missed k | Named k _ | Owning k _ => Some k | _ => None end.
(** The statement a phase has on the server, beside the cache's. *)
Definition server_name (ph : Phase) : option str :=
  match ph with Owning _ n | Closing n => Some n | _ => None end.

Inductive Owner := OCache (k : CacheKey) | OTask (i : nat).

Definition owns (c : StatementCache) (phs : gmap nat Phase) (o : Owner) (n : str) : Prop :=
  match o with
  | OCache k => ∃ e, stmts c !! k = Some e ∧ cached_name (entry_stmt e) = n
  | OTask i => ∃ ph, phs !! i = Some ph ∧ owned_name ph = Some n
  end.

Section invariant.
Context `{SqlHash}.

Record Inv (phs : gmap nat Phase) (c : StatementCache) (m : gmap str str) : Prop := {
  inv_counter : 0 ≤ counter c;
  inv_fresh o n : owns c phs o n → ∃ z, 0 ≤ z ≤ counter c ∧ n = statement_name z;
  inv_unique o1 o2 n : owns c phs o1 n → owns c phs o2 n → o1 = o2;
  inv_entry k e : stmts c !! k = Some e →
    (∃ sql, m !! cached_name (entry_stmt e) = Some sql ∧ sql_hash sql = key_hash k)
    ∧ handles e = count (Held k (cached_name (entry_stmt e))) phs
    ∧ (retain_on_zero_handles c = false → handles e ≠ 0%nat);
  inv_held i k n : phs !! i = Some (Held k n) → ∃ e, stmts c !! k = Some e ∧ cached_name (entry_stmt e) = n;
  inv_absent i ph k : phs !! i = Some ph → missed_key ph = Some k → stmts c !! k = None;
  inv_serial i j p1 p2 k : phs !! i = Some p1 → phs !! j = Some p2 →
    preparing_key p1 = Some k → preparing_key p2 = Some k → i = j;
  inv_server n sql : m !! n = Some sql →
    (∃ k e, stmts c !! k = Some e ∧ cached_name (entry_stmt e) = n)
    ∨ ∃ i ph, phs !! i = Some ph ∧ server_name ph = Some n;
  inv_named i k n : phs !! i = Some (Named k n) → m !! n = None;
  inv_owning i k n : phs !! i = Some (Owning k n) → ∃ sql, m !! n = Some sql ∧ sql_hash sql = key_hash k;
}.

Ltac phase_cases := repeat match goal with
  | Hl : <[_ := _]> _ !! _ = Some _ |- _ => apply lookup_insert_Some in Hl as [[? ?]|[? Hl]]; subst
  | Hl : delete _ _ !! _ = Some _ |- _ => apply lookup_delete_Some in Hl as [? Hl]
  end.

Lemma owns_insert c phs i q o n : owns c (<[i := q]> phs) o n →
  (o = OTask i ∧ owned_name q = Some n) ∨ (o ≠ OTask i ∧ owns c phs o n).
Proof.
  destruct o as [k|j]; cbn; [intros He; by right|].
  intros (ph & Hph & Hn). phase_cases; [by left|]. right. split; [congruence|]. by exists ph.
Qed.

(** A phase change that takes nothing new. *)
Lemma inv_quiet phs c m i p q :
  Inv phs c m → phs !! i = Some p →
  (owned_name q = None ∨ (owned_name q = owned_name p ∧ server_name q = server_name p)) →
  (owned_name q = None → server_name p = None) →
  (∀ k, missed_key q = Some k → stmts c !! k = None) →
  (∀ k, preparing_key q = Some k → preparing_key p = Some k) →
  (∀ k n, p ≠ Held k n ∧ q ≠ Held k n ∧ (q = Named k n → p = Named k n) ∧ (q = Owning k n → p = Owning k n)) →
  Inv (<[i := q]> phs) c m.
Proof.
  intros I Hi Hname Hsrv Hmiss Hprep Hheld.
  assert (∀ o n, owns c (<[i := q]> phs) o n → owns c phs o n) as Hown.
  { intros o n [[-> Hn]|[_ ?]]%owns_insert; [|done]. exists p. split; [done|].
    destruct Hname as [E|[<- _]]; congruence. }
  assert (∀ k n, count (Held k n) (<[i := q]> phs) = count (Held k n) phs) as Hcount.
  { intros k n. pose proof (count_insert (Held k n) i p q phs Hi) as E.
    destruct (Hheld k n) as (? & ? & _). rewrite !decide_False in E by done. lia. }
  split.
  - apply I.
  - intros o n Ho. by eapply I, Hown.
  - intros o1 o2 n H1 H2. by eapply (inv_unique _ _ _ I); apply Hown.
  - intros k e He. rewrite Hcount. by apply I.
  - intros j k n Hj. phase_cases; [by destruct (Hheld k n) as (_ & [] & _)|by eapply I].
  - intros j ph k Hj Hk. phase_cases; [by apply Hmiss|by eapply I].
  - intros j1 j2 p1 p2 k H1 H2 K1 K2.
    phase_cases; try done; eapply (inv_serial _ _ _ I); try done; by apply Hprep.
  - intros n sql Hn. destruct (inv_server _ _ _ I n sql Hn) as [?|(j & ph & Hj & Hs)]; [by left|right].
    destruct (decide (i = j)) as [<-|]; [|exists j, ph; by rewrite lookup_insert_ne].
    exists i, q. split; [apply lookup_insert_eq|]. rewrite Hi in Hj. injection Hj as <-.
    destruct Hname as [E|[_ ->]]; [|done]. rewrite (Hsrv E) in Hs. done.
  - intros j k n Hj. phase_cases; [|by eapply I].
    eapply (inv_named _ _ _ I _ k n). rewrite Hi. f_equal. by apply Hheld.
  - intros j k n Hj. phase_cases; [|by eapply I].
    eapply (inv_owning _ _ _ I _ k n). rewrite Hi. f_equal. by apply Hheld.
Qed.

Lemma inv_begin phs c m i k :
  Inv phs c m → phs !! i = None → (∀ j p, phs !! j = Some p → preparing_key p ≠ Some k) →
  Inv (<[i := Starting k]> phs) c m.
Proof.
  intros I Hi Hno.
  assert (∀ o n, owns c (<[i := Starting k]> phs) o n → owns c phs o n) as Hown by (by intros o n [[_ ?]|[_ ?]]%owns_insert).
  split.
  - apply I.
  - intros o n Ho. by eapply I, Hown.
  - intros o1 o2 n H1 H2. by eapply (inv_unique _ _ _ I); apply Hown.
  - intros k' e He. rewrite count_insert_new by done. by apply I.
  - intros j k' n Hj. phase_cases; [done|by eapply I].
  - intros j ph k' Hj Hk. phase_cases; [done|by eapply I].
  - intros j1 j2 p1 p2 k' H1 H2 K1 K2. phase_cases; try done.
    + injection K2 as ->. by destruct (Hno _ _ H1).
    + injection K1 as ->. by destruct (Hno _ _ H2).
    + by eapply (inv_serial _ _ _ I).
  - intros n sql Hn. destruct (inv_server _ _ _ I n sql Hn) as [?|(j & ph & Hj & Hs)]; [by left|right].
    exists j, ph. split; [|done]. rewrite lookup_insert_ne; [done|]. intros <-. congruence.
  - intros j k' n Hj. phase_cases; [done|by eapply I].
  - intros j k' n Hj. phase_cases; [done|by eapply I].
Qed.

(** A finished task goes away. *)
Lemma inv_reap phs c m i : Inv phs c m → phs !! i = Some Nothing → Inv (delete i phs) c m.
Proof.
  intros I Hi.
  assert (∀ o n, owns c (delete i phs) o n → owns c phs o n) as Hown.
  { intros [k|j] n; [done|]. intros (ph & Hj & Hn). phase_cases. by exists ph. }
  split.
  - apply I.
  - intros o n Ho. by eapply I, Hown.
  - intros o1 o2 n H1 H2. by eapply (inv_unique _ _ _ I); apply Hown.
  - intros k e He. pose proof (count_delete (Held k (cached_name (entry_stmt e))) _ _ _ Hi) as E.
    rewrite decide_False in E by done. cbn [Nat.add] in E. rewrite <- E. by apply I.
  - intros j k n Hj. phase_cases. by eapply I.
  - intros j ph k Hj Hk. phase_cases. by eapply I.
  - intros j1 j2 p1 p2 k H1 H2 K1 K2. phase_cases. by eapply (inv_serial _ _ _ I).
  - intros n sql Hn. destruct (inv_server _ _ _ I n sql Hn) as [?|(j & ph & Hj & Hs)]; [by left|right].
    exists j, ph. split; [|done]. apply lookup_delete_Some. split; [|done]. intros <-. by rewrite Hi in Hj; injection Hj as <-.
  - intros j k n Hj. phase_cases. by eapply I.
  - intros j k n Hj. phase_cases. by eapply I.
Qed.

(** A handle moves to the task that releases it. *)
Lemma inv_move phs c m i j k n : Inv phs c m → phs !! i = Some (Held k n) → phs !! j = None →
  Inv (<[j := Held k n]> (<[i := Nothing]> phs)) c m.
Proof.
  intros I Hi Hj. assert (i ≠ j) as Hij by congruence.
  assert (∀ o n', owns c (<[j := Held k n]> (<[i := Nothing]> phs)) o n' → owns c phs o n') as Hown.
  { intros o n' [[_ ?]|[_ [[_ ?]|[_ ?]]%owns_insert]]%owns_insert; done. }
  assert (∀ k' n', count (Held k' n') (<[j := Held k n]> (<[i := Nothing]> phs)) = count (Held k' n') phs) as Hcount.
  { intros k' n'. rewrite count_insert_new by by rewrite lookup_insert_ne.
    pose proof (count_insert (Held k' n') i _ Nothing phs Hi) as E. rewrite (decide_False (P := Nothing = _)) in E by done.
    case_decide; lia. }
  split.
  - apply I.
  - intros o n' Ho. by eapply I, Hown.
  - intros o1 o2 n' H1 H2. by eapply (inv_unique _ _ _ I); apply Hown.
  - intros k' e He. rewrite Hcount. by apply I.
  - intros j' k' n' Hj'. phase_cases; try done; [|by eapply I]. simplify_eq. by eapply I.
  - intros j' ph k' Hj' Hk. phase_cases; try done. by eapply I.
  - intros j1 j2 p1 p2 k' H1 H2 K1 K2. phase_cases; try done. by eapply (inv_serial _ _ _ I).
  - intros n' sql Hn. destruct (inv_server _ _ _ I n' sql Hn) as [?|(j' & ph & Hj' & Hs)]; [by left|right].
    exists j', ph. split; [|done]. rewrite !lookup_insert_ne; [done| |]; intros <-; simplify_eq.
  - intros j' k' n' Hj'. phase_cases; try done. by eapply I.
  - intros j' k' n' Hj'. phase_cases; try done. by eapply I.
Qed.

(** [checkout] of an entry and the releases that keep it: the number of handles follows the
    number of holders. *)
Lemma inv_handles phs c m i k e p q h :
  Inv phs c m → phs !! i = Some p → stmts c !! k = Some e →
  let n := cached_name (entry_stmt e) in
  (p = Starting k ∨ p = Held k n) → (q = Held k n ∨ q = Nothing) →
  h = count (Held k n) (<[i := q]> phs) → (retain_on_zero_handles c = false → h ≠ 0%nat) →
  Inv (<[i := q]> phs) (set_stmts (<[k := mk_centry (entry_stmt e) h]> (stmts c)) c) m.
Proof.
  intros I Hi He n Hp Hq Hh Hretain.
  set (c' := set_stmts _ c).
  assert (∀ k' e', stmts c' !! k' = Some e' →
    ∃ e0, stmts c !! k' = Some e0 ∧ entry_stmt e' = entry_stmt e0 ∧ (k' ≠ k → e' = e0)) as Hentry.
  { intros k' e' He'. cbn in He'. apply lookup_insert_Some in He' as [[<- <-]|[? He']]; [by exists e|by exists e']. }
  assert (∀ k' e0, stmts c !! k' = Some e0 → ∃ e', stmts c' !! k' = Some e' ∧ entry_stmt e' = entry_stmt e0) as Hback.
  { intros k' e0 He0. cbn. destruct (decide (k = k')) as [<-|].
    - rewrite lookup_insert_eq. eexists. split; [done|]. simplify_eq. done.
    - rewrite lookup_insert_ne by done. by exists e0. }
  assert (∀ o n', owns c' (<[i := q]> phs) o n' → owns c phs o n') as Hown.
  { intros o n' [[_ Hn]|[_ Ho]]%owns_insert; [by destruct Hq as [-> | ->]|].
    destruct o as [k'|j]; [|done]. destruct Ho as (e' & He' & <-).
    destruct (Hentry _ _ He') as (e0 & ? & E & _). exists e0. by rewrite E. }
  assert (∀ k' n', Held k' n' ≠ Held k n → count (Held k' n') (<[i := q]> phs) = count (Held k' n') phs) as Hcount.
  { intros k' n' Hne. pose proof (count_insert (Held k' n') i p q phs Hi) as E.
    rewrite !decide_False in E by (destruct Hp as [-> | ->], Hq as [-> | ->]; congruence). lia. }
  split.
  - apply I.
  - intros o n' Ho. by eapply I, Hown.
  - intros o1 o2 n' H1 H2. by eapply (inv_unique _ _ _ I); apply Hown.
  - intros k' e' He'. destruct (Hentry _ _ He') as (e0 & He0 & Es & Hsame). rewrite Es.
    destruct (inv_entry _ _ _ I _ _ He0) as (Hm & Hn & Hr). split; [done|].
    destruct (decide (k' = k)) as [->|Hk].
    + simplify_eq. cbn in He'. rewrite lookup_insert_eq in He'. by simplify_eq.
    + rewrite (Hsame Hk), Hcount by congruence. done.
  - intros j k' n' Hj. assert (∃ e0, stmts c !! k' = Some e0 ∧ cached_name (entry_stmt e0) = n') as (e0 & He0 & <-).
    { phase_cases; [|by eapply I]. destruct Hq as [[= -> ->]|?]; [by exists e|done]. }
    destruct (Hback _ _ He0) as (e' & He' & E). exists e'. by rewrite E.
  - intros j ph k' Hj Hk. assert (stmts c !! k' = None) as Hnone.
    { phase_cases; [by destruct Hq as [-> | ->]|by eapply I]. }
    cbn. rewrite lookup_insert_ne; [done|]. intros ->. congruence.
  - intros j1 j2 p1 p2 k' H1 H2 K1 K2.
    phase_cases; try (by destruct Hq as [-> | ->]); try done. by eapply (inv_serial _ _ _ I).
  - intros n' sql Hn. destruct (inv_server _ _ _ I n' sql Hn) as [(k' & e0 & He0 & <-)|(j & ph & Hj & Hs)].
    + left. destruct (Hback _ _ He0) as (e' & He' & E). exists k', e'. by rewrite E.
    + right. exists j, ph. split; [|done]. rewrite lookup_insert_ne; [done|]. intros <-. simplify_eq.
      by destruct Hp as [-> | ->].
  - intros j k' n' Hj. phase_cases; [by destruct Hq|by eapply I].
  - intros j k' n' Hj. phase_cases; [by destruct Hq|by eapply I].
Qed.

(** [next_name] *)
Lemma inv_named_next phs c m i k :
  Inv phs c m → phs !! i = Some (Missed k) →
  Inv (<[i := Named k (next_name c).1]> phs) (next_name c).2 m.
Proof.
  intros I Hi. set (n := (next_name c).1). cbn [snd next_name].
  set (c' := mk_cache _ _ _). pose proof (inv_counter _ _ _ I) as Hc.
  assert (∀ o n', owns c' (<[i := Named k n]> phs) o n' → (o = OTask i ∧ n' = n) ∨ (o ≠ OTask i ∧ owns c phs o n')) as Hown.
  { intros o n' [[-> [= <-]]|[? Ho]]%owns_insert; [by left|right]. by destruct o. }
  assert (∀ o, ¬ owns c phs o n) as Hnew.
  { intros o Ho. destruct (inv_fresh _ _ _ I _ _ Ho) as (z & Hz & E). apply statement_name_inj in E; lia. }
  assert (m !! n = None) as Hfree.
  { destruct (m !! n) as [sql|] eqn:Hn; [exfalso|done].
    destruct (inv_server _ _ _ I n sql Hn) as [(k1 & e & He & E)|(j1 & ph & Hj1 & Hs)].
    + apply (Hnew (OCache k1)). by exists e.
    + apply (Hnew (OTask j1)). exists ph. split; [done|]. by destruct ph. }
  assert (∀ k' n', count (Held k' n') (<[i := Named k n]> phs) = count (Held k' n') phs) as Hcount.
  { intros k' n'. pose proof (count_insert (Held k' n') i _ (Named k n) phs Hi) as E.
    rewrite !decide_False in E by done. lia. }
  split.
  - cbn. lia.
  - intros o n' [[-> ->]|[_ Ho]]%Hown; [exists (counter c + 1); cbn; split; [lia|done]|].
    destruct (inv_fresh _ _ _ I _ _ Ho) as (z & Hz & ->). exists z. cbn. split; [lia|done].
  - intros o1 o2 n' [[-> ->]|[? H1]]%Hown [[-> E]|[? H2]]%Hown; try done.
    + by destruct (Hnew o2).
    + subst. by destruct (Hnew o1).
    + by eapply (inv_unique _ _ _ I).
  - intros k' e He. rewrite Hcount. by apply I.
  - intros j k' n' Hj. phase_cases; [done|by eapply I].
  - intros j ph k' Hj Hk. phase_cases; [|by eapply I]. injection Hk as ->. by eapply I.
  - intros j1 j2 p1 p2 k' H1 H2 K1 K2.
    phase_cases; try done; eapply (inv_serial _ _ _ I); try done.
  - intros n' sql Hn. destruct (inv_server _ _ _ I n' sql Hn) as [?|(j & ph & Hj & Hs)]; [by left|right].
    exists j, ph. split; [|done]. rewrite lookup_insert_ne; [done|]. intros <-. by simplify_eq.
  - intros j k' n' Hj. phase_cases; [by simplify_eq|by eapply I].
  - intros j k' n' Hj. phase_cases; [done|by eapply I].
Qed.

(** The server accepts [Parse]. *)
Lemma inv_prepare_ok phs c m i k n sql :
  Inv phs c m → phs !! i = Some (Named k n) → sql_hash sql = key_hash k →
  Inv (<[i := Owning k n]> phs) c (<[n := sql]> m).
Proof.
  intros I Hi Hsql. pose proof (inv_named _ _ _ I _ _ _ Hi) as Hfree.
  assert (owns c phs (OTask i) n) as Hmine by (by exists (Named k n)).
  assert (∀ o n', owns c (<[i := Owning k n]> phs) o n' → owns c phs o n') as Hown.
  { intros o n' [[-> [= <-]]|[_ Ho]]%owns_insert; done. }
  assert (∀ k' n', count (Held k' n') (<[i := Owning k n]> phs) = count (Held k' n') phs) as Hcount.
  { intros k' n'. pose proof (count_insert (Held k' n') i _ (Owning k n) phs Hi) as E.
    rewrite !decide_False in E by done. lia. }
  split.
  - apply I.
  - intros o n' Ho. by eapply I, Hown.
  - intros o1 o2 n' H1 H2. by eapply (inv_unique _ _ _ I); apply Hown.
  - intros k' e He. rewrite Hcount. destruct (inv_entry _ _ _ I _ _ He) as ((sql' & Hm & E) & Hn & Hr).
    split; [|done]. exists sql'. rewrite lookup_insert_ne; [done|]. intros ->. congruence.
  - intros j k' n' Hj. phase_cases; [done|by eapply I].
  - intros j ph k' Hj Hk. phase_cases; [|by eapply I]. injection Hk as ->. by eapply I.
  - intros j1 j2 p1 p2 k' H1 H2 K1 K2. phase_cases; try done; eapply (inv_serial _ _ _ I); try done.
  - intros n' sql' Hn. apply lookup_insert_Some in Hn as [[<- <-]|[Hne Hn]].
    + right. exists i, (Owning k n). by rewrite lookup_insert_eq.
    + destruct (inv_server _ _ _ I n' _ Hn) as [?|(j & ph & Hj & Hs)]; [by left|right].
      exists j, ph. split; [|done]. rewrite lookup_insert_ne; [done|]. intros <-. by simplify_eq.
  - intros j k' n' Hj. phase_cases; [done|]. rewrite lookup_insert_ne; [by eapply I|]. intros <-.
    assert (OTask i = OTask j) by (eapply (inv_unique _ _ _ I); [done|by exists (Named k' n)]). congruence.
  - intros j k' n' Hj. phase_cases.
    + simplify_eq. exists sql. by rewrite lookup_insert_eq.
    + destruct (inv_owning _ _ _ I _ _ _ Hj) as (sql' & Hm & E). exists sql'.
      rewrite lookup_insert_ne; [done|]. intros ->. congruence.
Qed.

(** [insert] *)
Lemma inv_insert phs c m i k n stmt :
  Inv phs c m → phs !! i = Some (Owning k n) → cached_name stmt = n →
  Inv (<[i := Held k n]> phs) (cache_insert k stmt c) m.
Proof.
  intros I Hi Hn. pose proof (inv_absent _ _ _ I _ _ k Hi eq_refl) as Habs.
  assert (owns c phs (OTask i) n) as Hmine by (by exists (Owning k n)).
  assert (∀ o n', owns (cache_insert k stmt c) (<[i := Held k n]> phs) o n' →
    (o = OCache k ∧ n' = n) ∨ (o ≠ OCache k ∧ o ≠ OTask i ∧ owns c phs o n')) as Hown.
  { intros o n' [[_ ?]|[? Ho]]%owns_insert; [done|]. destruct o as [k'|j]; [|by right].
    destruct Ho as (e & He & <-). cbn in He. apply lookup_insert_Some in He as [[<- <-]|[? He]]; [by left|right].
    split; [congruence|]. split; [done|]. by exists e. }
  assert (∀ k' n', Held k' n' ≠ Held k n → count (Held k' n') (<[i := Held k n]> phs) = count (Held k' n') phs) as Hcount.
  { intros k' n' Hne. pose proof (count_insert (Held k' n') i _ (Held k n) phs Hi) as E.
    rewrite !decide_False in E by congruence. lia. }
  assert (count (Held k n) (<[i := Held k n]> phs) = 1%nat) as Hone.
  { pose proof (count_insert (Held k n) i _ (Held k n) phs Hi) as E.
    rewrite decide_False, decide_True in E by done. rewrite (count_zero (Held k n) phs) in E; [lia|].
    intros j Hj. destruct (inv_held _ _ _ I _ _ _ Hj) as (e & He & _). congruence. }
  split.
  - apply I.
  - intros o n' [[-> ->]|(_ & _ & Ho)]%Hown; by eapply I.
  - intros o1 o2 n' [[-> ->]|(Hk1 & Ho1 & H1)]%Hown [[-> E]|(Hk2 & Ho2 & H2)]%Hown; try done.
    + by destruct Ho2; eapply (inv_unique _ _ _ I).
    + subst n'. by destruct Ho1; eapply (inv_unique _ _ _ I).
    + by eapply (inv_unique _ _ _ I).
  - intros k' e He. cbn in He. apply lookup_insert_Some in He as [[<- <-]|[Hne He]].
    + cbn. rewrite Hn, Hone. split; [|done]. by eapply (inv_owning _ _ _ I).
    + rewrite Hcount by congruence. by apply I.
  - intros j k' n' Hj. phase_cases.
    + simplify_eq. cbn. rewrite lookup_insert_eq. by eexists.
    + destruct (inv_held _ _ _ I _ _ _ Hj) as (e & He & E). exists e. split; [|done].
      cbn. rewrite lookup_insert_ne; [done|]. intros <-. congruence.
  - intros j ph k' Hj Hk. phase_cases; [done|]. cbn. rewrite lookup_insert_ne; [by eapply I|]. intros <-.
    assert (i = j) by (eapply (inv_serial _ _ _ I); [done..|by destruct ph]). done.
  - intros j1 j2 p1 p2 k' H1 H2 K1 K2. phase_cases; try done; eapply (inv_serial _ _ _ I); try done.
  - intros n' sql Hn'. destruct (inv_server _ _ _ I n' _ Hn') as [(k' & e & He & E)|(j & ph & Hj & Hs)].
    + left. exists k', e. cbn. rewrite lookup_insert_ne; [done|]. intros <-. congruence.
    + destruct (decide (i = j)) as [<-|].
      * left. exists k, (mk_centry stmt 1). cbn. rewrite lookup_insert_eq. split; [done|].
        rewrite Hn. rewrite Hi in Hj. injection Hj as <-. by injection Hs.
      * right. exists j, ph. by rewrite lookup_insert_ne.
  - intros j k' n' Hj. phase_cases; [done|by eapply I].
  - intros j k' n' Hj. phase_cases; [done|by eapply I].
Qed.

(** [Close] of a statement a task owns. *)
Lemma inv_close phs c m i p n :
  Inv phs c m → phs !! i = Some p → server_name p = Some n →
  Inv (<[i := Nothing]> phs) c (delete n m).
Proof.
  intros I Hi Hp.
  assert (owns c phs (OTask i) n) as Hmine by (exists p; split; [done|by destruct p]).
  assert (∀ o n', owns c (<[i := Nothing]> phs) o n' → o ≠ OTask i ∧ owns c phs o n') as Hown.
  { intros o n' [[_ ?]|[? Ho]]%owns_insert; done. }
  assert (∀ o n', owns c phs o n' → o ≠ OTask i → n' ≠ n) as Hother.
  { intros o n' Ho Hne ->. destruct Hne. by eapply (inv_unique _ _ _ I). }
  assert (∀ k' n', count (Held k' n') (<[i := Nothing]> phs) = count (Held k' n') phs) as Hcount.
  { intros k' n'. pose proof (count_insert (Held k' n') i _ Nothing phs Hi) as E.
    assert (p ≠ Held k' n') by (intros E'; by rewrite E' in Hp). rewrite !decide_False in E by done. lia. }
  split.
  - apply I.
  - intros o n' [_ Ho]%Hown. by eapply I.
  - intros o1 o2 n' [_ H1]%Hown [_ H2]%Hown. by eapply (inv_unique _ _ _ I).
  - intros k' e He. rewrite Hcount. destruct (inv_entry _ _ _ I _ _ He) as ((sql & Hm & E) & ?).
    split; [|done]. exists sql. rewrite lookup_delete_ne; [done|].
    intros E'. apply (Hother (OCache k') (cached_name (entry_stmt e))); [by exists e|done|done].
  - intros j k' n' Hj. phase_cases; [done|by eapply I].
  - intros j ph k' Hj Hk. phase_cases; [done|by eapply I].
  - intros j1 j2 p1 p2 k' H1 H2 K1 K2. phase_cases; try done. by eapply (inv_serial _ _ _ I).
  - intros n' sql [Hne Hn]%lookup_delete_Some. destruct (inv_server _ _ _ I n' _ Hn) as [?|(j & ph & Hj & Hs)]; [by left|right].
    exists j, ph. split; [|done]. rewrite lookup_insert_ne; [done|]. intros <-. congruence.
  - intros j k' n' Hj. phase_cases; [done|]. apply lookup_delete_None. right. by eapply I.
  - intros j k' n' Hj. phase_cases; [done|]. destruct (inv_owning _ _ _ I _ _ _ Hj) as (sql & Hm & E).
    exists sql. rewrite lookup_delete_ne; [done|]. intros E'.
    apply (Hother (OTask j) n'); [by exists (Owning k' n')|congruence|done].
Qed.

(** [release_handle] of the last handle: the statement leaves the cache. *)
Lemma inv_release_last phs c m i k n e :
  Inv phs c m → phs !! i = Some (Held k n) → stmts c !! k = Some e → (handles e ≤ 1)%nat →
  Inv (<[i := Closing n]> phs) (set_stmts (delete k (stmts c)) c) m.
Proof.
  intros I Hi He Hh. set (c' := set_stmts _ c).
  destruct (inv_held _ _ _ I _ _ _ Hi) as (e' & He' & Hn). simplify_eq.
  set (n := cached_name (entry_stmt e)) in *.
  assert (owns c phs (OCache k) n) as Hmine by (by exists e).
  assert (∀ o n', owns c' (<[i := Closing n]> phs) o n' →
    (o = OTask i ∧ n' = n) ∨ (o ≠ OTask i ∧ o ≠ OCache k ∧ owns c phs o n')) as Hown.
  { intros o n' [[-> [= <-]]|[? Ho]]%owns_insert; [by left|right]. split; [done|].
    destruct o as [k'|j]; [|done]. destruct Ho as (e' & He' & <-). cbn in He'. phase_cases.
    split; [congruence|]. by exists e'. }
  assert (∀ k' n', Held k' n' ≠ Held k n → count (Held k' n') (<[i := Closing n]> phs) = count (Held k' n') phs) as Hcount.
  { intros k' n' Hne. pose proof (count_insert (Held k' n') i _ (Closing n) phs Hi) as E.
    rewrite !decide_False in E by congruence. lia. }
  assert (∀ j, phs !! j = Some (Held k n) → j = i) as Hlast.
  { intros j Hj. destruct (decide (j = i)) as [|Hne]; [done|exfalso].
    destruct (inv_entry _ _ _ I _ _ He) as (_ & Hc & _). fold n in Hc.
    rewrite (count_delete _ _ _ _ Hi), decide_True in Hc by done.
    rewrite (count_delete (Held k n) j (Held k n)), decide_True in Hc by (done || by rewrite lookup_delete_ne). lia. }
  split.
  - apply I.
  - intros o n' [[-> ->]|(_ & _ & Ho)]%Hown; by eapply I.
  - intros o1 o2 n' [[-> ->]|(Hk1 & Ho1 & H1)]%Hown [[-> E]|(Hk2 & Ho2 & H2)]%Hown; try done.
    + by destruct Ho2; eapply (inv_unique _ _ _ I).
    + subst n'. by destruct Ho1; eapply (inv_unique _ _ _ I).
    + by eapply (inv_unique _ _ _ I).
  - intros k' e' He'. cbn in He'. phase_cases. rewrite Hcount by congruence. by apply I.
  - intros j k' n' Hj. phase_cases; [done|]. destruct (inv_held _ _ _ I _ _ _ Hj) as (e' & He' & E).
    exists e'. split; [|done]. cbn. rewrite lookup_delete_ne; [done|]. intros <-.
    simplify_eq. by destruct (Hlast j Hj).
  - intros j ph k' Hj Hk. cbn. apply lookup_delete_None. phase_cases; [done|]. right. by eapply I.
  - intros j1 j2 p1 p2 k' H1 H2 K1 K2. phase_cases; try done. by eapply (inv_serial _ _ _ I).
  - intros n' sql Hn'. destruct (inv_server _ _ _ I n' _ Hn') as [(k' & e' & He' & E)|(j & ph & Hj & Hs)].
    + destruct (decide (k = k')) as [<-|].
      * right. exists i, (Closing n). rewrite lookup_insert_eq. split; [done|]. simplify_eq. done.
      * left. exists k', e'. cbn. by rewrite lookup_delete_ne.
    + right. exists j, ph. split; [|done]. rewrite lookup_insert_ne; [done|]. intros <-. by simplify_eq.
  - intros j k' n' Hj. phase_cases; [done|by eapply I].
  - intros j k' n' Hj. phase_cases; [done|by eapply I].
Qed.

Lemma inv_drop phs c m i p : Inv phs c m → phs !! i = Some p → droppable p → Inv (<[i := Nothing]> phs) c m.
Proof. intros I Hi Hp. eapply inv_quiet; [done..|by left| |done|done|]; by destruct p. Qed.
End invariant.

(** ** One operation *)
Section steps.
Context `{SqlHash} {W : Type} `{Connection W} `{!PreparedServer W}.

Definition pool_ok (phs : gmap nat Phase) (s : Shared W) : Prop :=
  ∀ m, prepared (world s) = Some m → Inv phs (cache s) m.

Lemma still_there c w m : prepared (serve c w).2 = Some m → ∃ m0, prepared w = Some m0.
Proof.
  intros Hm. destruct (prepared w) as [m0|] eqn:E; [by exists m0|].
  by rewrite (law_gone c w E) in Hm.
Qed.

Lemma step_checkout phs s i k : pool_ok phs s → phs !! i = Some (Starting k) →
  let '(x, s') := handle (Checkout k) s in
  pool_ok (<[i := next (Checkout k) (Starting k) x]> phs) s'.
Proof.
  intros Hok Hi. cbn. unfold checkout. destruct (stmts (cache s) !! k) as [e|] eqn:He; intros m Hm; cbn in Hm |- *.
  - specialize (Hok m Hm). destruct (inv_entry _ _ _ Hok _ _ He) as (_ & Hc & _).
    eapply inv_handles; [done..|by left|by left| |done].
    pose proof (count_insert (Held k (cached_name (entry_stmt e))) i _ (Held k (cached_name (entry_stmt e))) phs Hi) as E.
    rewrite decide_False, decide_True in E by done. lia.
  - eapply inv_quiet; [by apply Hok|done|by left|done|by intros k' [= <-]|done|done].
Qed.

Lemma step_release phs s i k n : pool_ok phs s → phs !! i = Some (Held k n) →
  let '(x, s') := handle (ReleaseHandle k) s in
  pool_ok (<[i := next (ReleaseHandle k) (Held k n) x]> phs) s'.
Proof.
  intros Hok Hi. cbn. unfold release_handle. destruct (stmts (cache s) !! k) as [e|] eqn:He.
  2: { intros m Hm. cbn in Hm. destruct (inv_held _ _ _ (Hok m Hm) _ _ _ Hi) as (e & He' & _). congruence. }
  assert (∀ m, prepared (world s) = Some m → cached_name (entry_stmt e) = n
    ∧ handles e = S (count (Held k n) (<[i := Nothing]> phs))) as Hc.
  { intros m Hm. destruct (inv_held _ _ _ (Hok m Hm) _ _ _ Hi) as (e' & He' & <-). simplify_eq.
    destruct (inv_entry _ _ _ (Hok m Hm) _ _ He) as (_ & Hc & _). split; [done|].
    pose proof (count_insert (Held k (cached_name (entry_stmt e))) i _ Nothing phs Hi) as E.
    rewrite decide_True, decide_False in E by done. lia. }
  destruct (1 <? handles e)%nat eqn:Hh; [apply Nat.ltb_lt in Hh|apply Nat.ltb_ge in Hh].
  - intros m Hm. cbn in Hm |- *. destruct (Hc m Hm) as [<- Hn].
    eapply inv_handles; [by apply Hok|done..|by right|by right|lia|lia].
  - destruct (retain_on_zero_handles (cache s)) eqn:Hr.
    + intros m Hm. cbn in Hm |- *. destruct (Hc m Hm) as [<- Hn].
      eapply inv_handles; [by apply Hok|done..|by right|by right|lia|congruence].
    + intros m Hm. cbn in Hm |- *. by eapply inv_release_last; [apply Hok|..].
Qed.

Lemma step_prepare phs s i k n sql oids : pool_ok phs s → phs !! i = Some (Named k n) → sql_hash sql = key_hash k →
  let '(x, s') := handle (Request KPrepare (CPrepare n sql oids)) s in
  pool_ok (<[i := next (Request KPrepare (CPrepare n sql oids)) (Named k n) x]> phs) s'.
Proof.
  intros Hok Hi Hsql. cbn. destruct (serve (CPrepare n sql oids) (world s)) as [r w] eqn:Hs.
  intros m' Hm'. cbn in Hm'.
  destruct (still_there (CPrepare n sql oids) (world s) m') as (m & Hm); [by rewrite Hs|].
  pose proof (Hok m Hm) as I. pose proof (law_prepare n sql oids _ _ Hm (inv_named _ _ _ I _ _ _ Hi)) as Hlaw.
  rewrite Hs in Hlaw. destruct r as [[r|r|r|[o|e]|r|r]|]; cbn; try congruence.
  - assert (m' = <[n := sql]> m) as -> by congruence. by apply inv_prepare_ok.
  - assert (m' = m) as -> by (destruct Hlaw; congruence). by eapply inv_drop.
Qed.

Lemma step_close phs s i p n r w : pool_ok phs s → phs !! i = Some p → server_name p = Some n →
  serve (CCloseStatement n) (world s) = (r, w) → pool_ok (<[i := Nothing]> phs) (with_world s w).
Proof.
  intros Hok Hi Hp Hs m' Hm'. cbn in Hm'.
  destruct (still_there (CCloseStatement n) (world s) m') as (m & Hm); [by rewrite Hs|].
  pose proof (law_close n _ _ Hm) as Hlaw. rewrite Hs in Hlaw.
  assert (m' = delete n m) as -> by (destruct r; [destruct Hlaw|]; congruence).
  eapply inv_close; [by apply Hok|done..].
Qed.

(** Every operation the protocol allows preserves the invariant. *)
Lemma step_ok {X} (o : Op X) phs s i ph : pool_ok phs s → phs !! i = Some ph → allowed o ph →
  let '(x, s') := handle o s in pool_ok (<[i := next o ph x]> phs) s'.
Proof.
  intros Hok Hi Hall. destruct o as [k c|c|k| |k stmt|k|ty|ty oid|c| |B row|].
  - destruct k; try (by destruct ph); destruct ph as [| |k n|k n| |n|]; try done.
    + destruct Hall as [ty ->]. cbn. rewrite insert_id by done.
      destruct (serve (CSimpleQuery (resolve_sql ty)) (world s)) as [r w] eqn:Hs. intros m' Hm'. cbn in Hm'.
      destruct (still_there (CSimpleQuery (resolve_sql ty)) (world s) m') as (m & Hm); [by rewrite Hs|].
      pose proof (law_resolve ty _ _ Hm) as Hlaw. rewrite Hs in Hlaw. cbn in Hlaw.
      assert (m' = m) as -> by (destruct Hlaw; congruence). by apply Hok.
    + destruct Hall as (sql & oids & -> & Hsql). by apply step_prepare.
    + cbn in Hall. subst c. cbn. destruct (serve _ (world s)) as [r w] eqn:Hs. by eapply step_close.
    + cbn in Hall. subst c. cbn. destruct (serve _ (world s)) as [r w] eqn:Hs. by eapply step_close.
  - destruct ph; try done. cbn in Hall. subst c. cbn.
    destruct (serve _ (world s)) as [r w] eqn:Hs. by eapply step_close.
  - destruct ph; try done. cbn in Hall. subst k. by apply step_checkout.
  - destruct ph; try done. intros m Hm. by apply inv_named_next, Hi; [apply Hok].
  - destruct ph; try done. destruct Hall as [-> <-]. intros m Hm. by apply inv_insert; [apply Hok|..].
  - destruct ph; try done. cbn in Hall. subst k. by apply step_release.
  - destruct ph; try done. cbn. by rewrite insert_id.
  - destruct ph; try done. cbn. rewrite insert_id by done. exact Hok.
  - done.
  - done.
  - done.
  - done.
Qed.

(** What a task's program and its phase have to do with each other. *)
Definition task_ok (t : Task) (ph : Phase) : Prop :=
  match t with
  | Preparing k p =>
    match result_of p with
    | None => follows p ph (prepared_post k) ∧ (∀ k', preparing_key ph = Some k' → k' = k)
    | Some (Ok h) => prepared_post k (Ok h) ph
    | Some (Err _) => ph = Nothing
    end
  | Releasing p =>
    preparing_key ph = None
    ∧ (follows p ph (λ _ ph', ph' = Nothing)
       ∨ ∃ h, p = Fork (release_on_drop h) (Ret tt) ∧ ph = Held (handle_key h) (handle_name h))
  end.

Definition tasks_ok (ts : gmap nat Task) (phs : gmap nat Phase) : Prop :=
  ∀ i, match ts !! i, phs !! i with Some t, Some ph => task_ok t ph | None, None => True | _, _ => False end.

Definition pool_inv (p : Pool (W := W)) : Prop := ∃ phs, tasks_ok (tasks p) phs ∧ pool_ok phs (shared p).

Lemma tasks_ok_insert ts phs i t ph : tasks_ok ts phs → task_ok t ph → tasks_ok (<[i := t]> ts) (<[i := ph]> phs).
Proof.
  intros Hts Ht j. destruct (decide (i = j)) as [<-|].
  - by rewrite !lookup_insert_eq.
  - rewrite !lookup_insert_ne by done. apply Hts.
Qed.

Lemma tasks_ok_Some ts phs i t : tasks_ok ts phs → ts !! i = Some t → ∃ ph, phs !! i = Some ph ∧ task_ok t ph.
Proof. intros Hts Hi. specialize (Hts i). rewrite Hi in Hts. destruct (phs !! i) as [ph|]; [by exists ph|done]. Qed.

Lemma tasks_ok_None ts phs i : tasks_ok ts phs → ts !! i = None → phs !! i = None.
Proof. intros Hts Hi. specialize (Hts i). rewrite Hi in Hts. by destruct (phs !! i). Qed.

(** A phase that prepares a key belongs to a preparation in progress. *)
Lemma task_ok_preparing t ph k : task_ok t ph → preparing_key ph = Some k → in_progress k t = true.
Proof.
  destruct t as [k' p|p]; cbn; [|by intros [-> _]].
  destruct (result_of p) as [[h|e]|].
  - by intros (-> & _).
  - by intros ->.
  - intros [_ Hk] E. rewrite (Hk _ E). by rewrite bool_decide_eq_true_2.
Qed.

Lemma next_preparing {X} (o : Op X) ph x k :
  allowed o ph → preparing_key (next o ph x) = Some k → preparing_key ph = Some k.
Proof.
  destruct o as [[] c|c|k'| |k' stmt|k'|ty|ty oid|c| |B row|]; destruct ph; cbn; try done.
  - intros _. by destruct x as [[|]|].
  - intros ->. by destruct x.
  - by destruct x.
Qed.

(** A step of a program that follows the protocol. *)
Lemma advance_ok {A} (p : Prog A) p' ts s s' phs i ph post :
  pool_ok phs s → phs !! i = Some ph → follows p ph post → advance p s = Some (p', ts, s') →
  ∃ ph', ts = [] ∧ follows p' ph' post ∧ pool_ok (<[i := ph']> phs) s'
    ∧ ∀ k, preparing_key ph' = Some k → preparing_key ph = Some k.
Proof.
  intros Hok Hi Hf Hadv. destruct p as [a|X o K|q K]; [done| |done]. destruct Hf as [Hall Hf].
  cbn in Hadv. pose proof (step_ok o _ _ _ _ Hok Hi Hall) as Hstep.
  destruct (handle o s) as [x s1]. injection Hadv as <- <- <-.
  exists (next o ph x). split; [done|]. split; [apply Hf|]. split; [done|]. intros k. by apply next_preparing.
Qed.

(** A preparation that has just failed holds nothing. *)
Lemma settle_ok k p phs s i ph :
  follows p ph (prepared_post k) → (∀ k', preparing_key ph = Some k' → k' = k) →
  pool_ok (<[i := ph]> phs) s →
  ∃ ph', task_ok (Preparing k p) ph' ∧ pool_ok (<[i := ph']> phs) s.
Proof.
  intros Hf Hk Hok. destruct p as [[h|e]|X o K|q K]; [by exists ph| |by exists ph|done].
  exists Nothing. split; [done|]. intros m Hm. rewrite <- (insert_insert_eq phs i Nothing ph).
  eapply inv_drop; [by apply Hok|apply lookup_insert_eq|done].
Qed.

(** No preparation of [k] is in progress: no phase prepares [k]. *)
Lemma none_preparing ts phs k :
  tasks_ok ts phs → existsb (λ x, in_progress k x.2) (map_to_list ts) = false →
  ∀ j p, phs !! j = Some p → preparing_key p ≠ Some k.
Proof.
  intros Hts Hex j p Hj Hp. specialize (Hts j). rewrite Hj in Hts.
  destruct (ts !! j) as [t|] eqn:Ht; [|done].
  assert (existsb (λ x, in_progress k x.2) (map_to_list ts) = true); [|congruence].
  apply existsb_exists. exists (j, t). split; [|by eapply task_ok_preparing].
  by apply list_elem_of_In, elem_of_map_to_list.
Qed.

Lemma begin_ok pool phs i st :
  tasks_ok (tasks pool) phs → pool_ok phs (shared pool) → tasks pool !! i = None →
  existsb (λ x, in_progress (statement_key st) x.2) (map_to_list (tasks pool)) = false →
  pool_inv (mk_pool (shared pool) (<[i := Preparing (statement_key st) (prepare_of st)]> (tasks pool))).
Proof.
  intros Hts Hok Hi Hex.
  destruct (settle_ok (statement_key st) (prepare_of st) phs (shared pool) i (Starting (statement_key st)))
    as (ph & Ht & Hok'); [apply follows_prepare_of|by intros k' [= <-]| |].
  - intros m Hm. apply inv_begin; [by apply Hok|by eapply tasks_ok_None|by eapply none_preparing].
  - exists (<[i := ph]> phs). split; [by apply tasks_ok_insert|done].
Qed.

Lemma turn_preparing_ok pool phs i j k p pool' :
  tasks_ok (tasks pool) phs → pool_ok phs (shared pool) → tasks pool !! i = Some (Preparing k p) →
  turn_program (Preparing k) i j p pool = Some pool' → pool_inv pool'.
Proof.
  intros Hts Hok Hi Hturn. destruct (tasks_ok_Some _ _ _ _ Hts Hi) as (ph & Hph & Ht).
  unfold turn_program in Hturn. destruct (advance p (shared pool)) as [[[p' ts] s']|] eqn:Hadv; [|done].
  cbn in Ht. destruct (result_of p) as [r|] eqn:Hr; [by destruct p|]. destruct Ht as [Hf Hk].
  destruct (advance_ok _ _ _ _ _ _ _ _ _ Hok Hph Hf Hadv) as (ph1 & -> & Hf1 & Hok1 & Hk1).
  injection Hturn as <-.
  destruct (settle_ok k p' phs s' i ph1) as (ph2 & Ht2 & Hok2); [done|by intros k' ?%Hk1; apply Hk|done|].
  exists (<[i := ph2]> phs). split; [by apply tasks_ok_insert|done].
Qed.

Lemma turn_releasing_ok pool phs i j p pool' :
  tasks_ok (tasks pool) phs → pool_ok phs (shared pool) → tasks pool !! i = Some (Releasing p) →
  turn_program Releasing i j p pool = Some pool' → pool_inv pool'.
Proof.
  intros Hts Hok Hi Hturn. destruct (tasks_ok_Some _ _ _ _ Hts Hi) as (ph & Hph & Hk & Ht).
  unfold turn_program in Hturn. destruct (advance p (shared pool)) as [[[p' ts] s']|] eqn:Hadv; [|done].
  destruct Ht as [Hf|(h & -> & ->)].
  - destruct (advance_ok _ _ _ _ _ _ _ _ _ Hok Hph Hf Hadv) as (ph1 & -> & Hf1 & Hok1 & Hk1).
    injection Hturn as <-. exists (<[i := ph1]> phs). split; [|done]. apply tasks_ok_insert; [done|].
    split; [|by left]. destruct (preparing_key ph1) as [k|] eqn:E; [|done]. by rewrite (Hk1 k eq_refl) in Hk.
  - injection Hadv as <- <- <-. destruct (tasks pool !! j) as [t|] eqn:Hj; [done|]. injection Hturn as <-.
    exists (<[j := Held (handle_key h) (handle_name h)]> (<[i := Nothing]> phs)). split.
    + apply tasks_ok_insert; [by apply tasks_ok_insert; [|by split; [|left]]|].
      split; [done|]. left. apply follows_release_on_drop.
    + intros m Hm. apply inv_move; [by apply Hok|done|by eapply tasks_ok_None].
Qed.

Lemma live_handle_ok t ph h : task_ok t ph → live_handle t = Some h →
  ph = Held (handle_key h) (handle_name h) ∧ sql_hash (handle_sql h) = key_hash (handle_key h)
  ∧ ps_closed (projT2 h) = false.
Proof.
  destruct t as [k p|p]; cbn; [|done]. destruct (result_of p) as [[h'|e]|]; [|done..].
  intros (-> & <- & ? & ?) [= ->]. done.
Qed.

(** The holder gives its handle to a releasing program. *)
Lemma give_up_ok pool phs i t h p :
  tasks_ok (tasks pool) phs → pool_ok phs (shared pool) → tasks pool !! i = Some t → live_handle t = Some h →
  (ps_closed (projT2 h) = false → task_ok (Releasing p) (Held (handle_key h) (handle_name h))) →
  pool_inv (mk_pool (shared pool) (<[i := Releasing p]> (tasks pool))).
Proof.
  intros Hts Hok Hi Hh Hp. destruct (tasks_ok_Some _ _ _ _ Hts Hi) as (ph & Hph & Ht).
  destruct (live_handle_ok _ _ _ Ht Hh) as (-> & _ & Hc). exists phs. split; [|done].
  rewrite <- (insert_id phs i _ Hph). apply tasks_ok_insert; [done|by apply Hp].
Qed.

Lemma act_ok a pool pool' : pool_inv pool → act true a pool = Some pool' → pool_inv pool'.
Proof.
  intros (phs & Hts & Hok) Hact. destruct a as [i st|i j|i|i|i]; cbn in Hact;
    destruct (tasks pool !! i) as [t|] eqn:Hi; try done; cbn in Hact.
  - destruct (existsb _ _) eqn:Hex; [done|]. injection Hact as <-. by eapply begin_ok.
  - destruct t; [by eapply turn_preparing_ok|by eapply turn_releasing_ok].
  - destruct (live_handle t) as [h|] eqn:Hh; [|done]. injection Hact as <-. eapply give_up_ok; [done..|].
    intros _. split; [done|]. left. apply follows_close_of.
  - destruct (live_handle t) as [h|] eqn:Hh; [|done]. injection Hact as <-. eapply give_up_ok; [done..|].
    intros Hc. split; [done|]. right. exists h. by rewrite drop_of_eq.
  - destruct (finished t) eqn:Hfin; [|done]. injection Hact as <-.
    destruct (tasks_ok_Some _ _ _ _ Hts Hi) as (ph & Hph & Ht). exists (delete i phs). split.
    + intros j. cbn. destruct (decide (i = j)) as [<-|]; [by rewrite !lookup_delete_eq|].
      rewrite !lookup_delete_ne by done. apply Hts.
    + assert (ph = Nothing) as ->.
      { destruct t as [k p|p]; cbn in Ht, Hfin.
        - by destruct (result_of p) as [[|]|].
        - destruct Ht as [_ [Hf|(h & -> & _)]]; [|done]. by destruct p. }
      intros m Hm. apply inv_reap; [by apply Hok|done].
Qed.

Lemma acts_ok l pool pool' : pool_inv pool → acts true l pool = Some pool' → pool_inv pool'.
Proof.
  revert pool. induction l as [|a l IH]; intros pool Hp; cbn; [by intros [= <-]|].
  destruct (act true a pool) as [p1|] eqn:Ha; [|done]. apply IH. by eapply act_ok.
Qed.

Lemma new_pool_ok w retain : prepared w = Some ∅ → pool_inv (new_pool w retain).
Proof.
  intros Hw. exists ∅. split; [by intros i|]. intros m Hm. cbn in Hm. rewrite Hw in Hm. injection Hm as <-.
  split; cbn; try done.
  - by intros [k|i] n; cbn; [intros (e & ? & _)|intros (ph & ? & _)].
  - by intros [k|i] o2 n; cbn; [intros (e & ? & _)|intros (ph & ? & _)].
Qed.

(** The retention policy is fixed. *)
Lemma handle_retain {X} (o : Op X) (s : Shared W) :
  retain_on_zero_handles (cache (handle o s).2) = retain_on_zero_handles (cache s).
Proof.
  destruct o as [k c|c|k| |k stmt|k|ty|ty oid|c| |B row|]; cbn; try done.
  - by destruct (serve c (world s)).
  - by destruct (serve c (world s)).
  - unfold checkout. by destruct (stmts (cache s) !! k).
  - unfold release_handle. destruct (stmts (cache s) !! k); [|done].
    destruct (1 <? _)%nat; [done|]. by destruct (retain_on_zero_handles (cache s)) eqn:E.
  - by destruct (channel_closed s).
Qed.

Lemma advance_retain {A} (p : Prog A) s p' ts s' : advance p s = Some (p', ts, s') →
  retain_on_zero_handles (cache s') = retain_on_zero_handles (cache s).
Proof.
  destruct p as [a|X o K|q K]; cbn; [done| |by intros [= <- <- <-]].
  pose proof (handle_retain o s) as Hr. destruct (handle o s) as [x s1]. by intros [= <- <- <-].
Qed.

Lemma turn_retain {A} (wrap : Prog A → Task) i j p pool pool' : turn_program wrap i j p pool = Some pool' →
  retain_on_zero_handles (cache (shared pool')) = retain_on_zero_handles (cache (shared pool)).
Proof.
  unfold turn_program. destruct (advance p (shared pool)) as [[[p' [|q ts]] s']|] eqn:Hadv; [| |done].
  - intros [= <-]. by eapply advance_retain.
  - destruct (tasks pool !! j); [done|]. intros [= <-]. by eapply advance_retain.
Qed.

Lemma acts_retain serial l pool pool' : acts serial l pool = Some pool' →
  retain_on_zero_handles (cache (shared pool')) = retain_on_zero_handles (cache (shared pool)).
Proof.
  revert pool. induction l as [|a l IH]; intros pool; cbn; [by intros [= <-]|].
  destruct (act serial a pool) as [p1|] eqn:Ha; cbn; [|done]. intros ->%IH.
  destruct a as [i st|i j|i|i|i]; cbn in Ha; destruct (tasks pool !! i) as [t|]; try done; cbn in Ha.
  - destruct (_ && _); [done|]. by injection Ha as <-.
  - destruct t; by eapply turn_retain.
  - destruct (live_handle t); [|done]. by injection Ha as <-.
  - destruct (live_handle t); [|done]. by injection Ha as <-.
  - destruct (finished t); [|done]. by injection Ha as <-.
Qed.

(** C2: Prepared statements under every interleaving.  Tasks prepare, use, close and drop
    statements one operation at a time, in any order, over any server that treats [Parse] and
    [Close] as documented.  As long as no two preparations of the same key run at once, while
    the connection is up: every live handle names a statement the server holds, prepared from a
    text with the same hash as the handle's; two live handles have the same statement exactly
    when they have the same key; and when every task is gone the server holds exactly the
    statements in the cache, which is empty unless the session retains them (a pooled one). *)
Theorem prepared_statements_usable w retain l pool m :
  prepared w = Some ∅ → acts true l (new_pool w retain) = Some pool →
  prepared (world (shared pool)) = Some m →
  let is_live i h := ∃ t, tasks pool !! i = Some t ∧ live_handle t = Some h in
  (∀ i h, is_live i h → ∃ sql, m !! handle_name h = Some sql ∧ sql_hash sql = sql_hash (handle_sql h))
  ∧ (∀ i1 i2 h1 h2, is_live i1 h1 → is_live i2 h2 →
      (handle_key h1 = handle_key h2 ↔ handle_name h1 = handle_name h2))
  ∧ (tasks pool = ∅ →
      (∀ n, is_Some (m !! n) ↔ ∃ k e, stmts (cache (shared pool)) !! k = Some e ∧ cached_name (entry_stmt e) = n)
      ∧ (retain = false → m = ∅)).
Proof.
  intros Hw Hacts Hm. pose proof (acts_ok _ _ _ (new_pool_ok w retain Hw) Hacts) as (phs & Hts & Hok).
  pose proof (Hok m Hm) as I. pose proof (acts_retain _ _ _ _ Hacts) as Hret. cbn in Hret.
  assert (∀ i h, (∃ t, tasks pool !! i = Some t ∧ live_handle t = Some h) →
    sql_hash (handle_sql h) = key_hash (handle_key h)
    ∧ ∃ e, stmts (cache (shared pool)) !! handle_key h = Some e ∧ cached_name (entry_stmt e) = handle_name h) as Hlive.
  { intros i h (t & Hi & Hh). destruct (tasks_ok_Some _ _ _ _ Hts Hi) as (ph & Hph & Ht).
    destruct (live_handle_ok _ _ _ Ht Hh) as (-> & Hs & _). split; [done|]. by eapply inv_held. }
  split; [|split].
  - intros i h Hh. destruct (Hlive i h Hh) as (Hs & e & He & Hn).
    destruct (inv_entry _ _ _ I _ _ He) as ((sql & Hsql & E) & _). exists sql. rewrite <- Hn. split; [done|]. congruence.
  - intros i1 i2 h1 h2 H1 H2. destruct (Hlive i1 h1 H1) as (_ & e1 & He1 & Hn1).
    destruct (Hlive i2 h2 H2) as (_ & e2 & He2 & Hn2). split; [intros E; congruence|].
    intros E. assert (OCache (handle_key h1) = OCache (handle_key h2)) as [= ->]; [|done].
    eapply (inv_unique _ _ _ I); [by exists e1|exists e2; split; [done|congruence]].
  - intros Hempty. assert (∀ i, phs !! i = None) as Hnone.
    { intros i. eapply tasks_ok_None; [done|]. by rewrite Hempty. }
    assert (∀ n, is_Some (m !! n) ↔ ∃ k e, stmts (cache (shared pool)) !! k = Some e ∧ cached_name (entry_stmt e) = n) as Hiff.
    { intros n. split.
      - intros [sql Hn]. destruct (inv_server _ _ _ I _ _ Hn) as [?|(i & ph & Hi & _)]; [done|]. by rewrite Hnone in Hi.
      - intros (k & e & He & <-). destruct (inv_entry _ _ _ I _ _ He) as ((sql & Hsql & _) & _). by exists sql. }
    split; [done|]. intros ->. apply map_empty. intros n. apply eq_None_not_Some. rewrite Hiff.
    intros (k & e & He & _). destruct (inv_entry _ _ _ I _ _ He) as (_ & Hc & Hz).
    apply (Hz Hret). rewrite Hc. apply count_zero. intros i. by rewrite Hnone.
Qed.
End steps.

(** ** A small server, for examples *)
Definition toy_reply (c : Command) (m : gmap str str) : Reply * gmap str str :=
  match c with
  | CPrepare n sql _ _ =>
    match m !! n with
    | None => (RPrepare (Ok (mk_prepare [] [])), <[n := sql]> m)
    | Some _ => (RPrepare (Err (protocol "prepared statement already exists")), m)
    end
  | CCloseStatement n _ => (RUnit (Ok tt), delete n m)
  | _ => (err_reply (command_kind c) (protocol "not served"), m)
  end.

#[export] Instance toy_server : Connection (option (gmap str str)) := λ c w,
  match w with
  | None => (None, None)
  | Some m => let '(r, m') := toy_reply (c (Caller 0)) m in (Some r, Some m')
  end.

#[export] Program Instance toy_prepared : PreparedServer (option (gmap str str)) := {| prepared w := w |}.
Next Obligation. by intros c w ->. Qed.
Next Obligation. intros name sql oids w m -> Hn. unfold serve, toy_server. cbn. by rewrite Hn. Qed.
Next Obligation. intros name w m ->. by left. Qed.
Next Obligation. intros ty w m ->. by left. Qed.

Definition toy_hash : SqlHash := λ sql, Z.of_nat (length sql).
Definition toy_statement : Statement := StmtCommand (Command_raw "DELETE FROM t").

(** Where a schedule leads: the names of the live handles and of the server's statements. *)
Definition outcome_of (serial : bool) (l : list Action) : option (list (nat * str) * list str) :=
  p ← acts (H := toy_hash) serial l (new_pool (Some ∅) false);
  m ← world (shared p);
  Some (omap (λ x, (λ h, (x.1, handle_name h)) <$> live_handle x.2) (map_to_list (tasks p)), fst <$> map_to_list m).

(** Two handles of one statement, one of them closed. *)
Definition sample_schedule : list Action :=
  [Begin 0 toy_statement; Turn 0 9; Turn 0 9; Turn 0 9; Turn 0 9; Begin 1 toy_statement; Turn 1 9;
   CloseHandle 0; Turn 0 9; Reap 0].

(** What is looked at in a pool: the name and text of handle [i], whether the server is up. *)
Definition observe (i : nat) (p : Pool (W := option (gmap str str))) : option (str * str * bool) :=
  t ← tasks p !! i; h ← live_handle t;
  Some (handle_name h, handle_sql h, bool_decide (is_Some (world (shared p)))).

Lemma prepared_statements_usable_witness :
  ∃ pool m, acts (H := toy_hash) true sample_schedule (new_pool (Some ∅) false) = Some pool
  ∧ world (shared pool) = Some m
  ∧ ∃ sql, m !! ("_babar_1"%s : str) = Some sql ∧ toy_hash sql = toy_hash "DELETE FROM t".
Proof.
  assert (acts (H := toy_hash) true sample_schedule (new_pool (Some ∅) false) ≫= observe 1
          = Some ("_babar_1"%s, "DELETE FROM t"%s, true)) as E by (vm_compute; reflexivity).
  destruct (acts (H := toy_hash) true sample_schedule (new_pool (Some ∅) false)) as [pool|] eqn:Hpool; [|done].
  unfold observe in E. cbn [mbind option_bind] in E.
  destruct (tasks pool !! 1%nat) as [t|] eqn:Ht; [|done]. cbn [mbind option_bind] in E.
  destruct (live_handle t) as [h|] eqn:Hh; [|done]. cbn [mbind option_bind] in E. injection E as En Es Ew.
  apply bool_decide_eq_true in Ew as [m Hm]. exists pool, m. split; [done|]. split; [done|].
  destruct (prepared_statements_usable (H := toy_hash) (PreparedServer0 := toy_prepared) (Some ∅) false sample_schedule pool m ltac:(by vm_compute) Hpool Hm) as (Husable & _ & _).
  rewrite <- En, <- Es. apply (Husable 1%nat h). by exists t.
Defined.

(** Two preparations of the same statement at once: both miss, the second entry replaces the
    first, and the handles are counted against the wrong statement.  Handle 2 shares the second
    statement; closing handles 0 and 1 closes it on the server while handle 2 is live. *)
Definition racing_schedule : list Action :=
  [Begin 0 toy_statement; Begin 1 toy_statement; Turn 0 9; Turn 1 9; Turn 0 9; Turn 0 9; Turn 0 9;
   Turn 1 9; Turn 1 9; Turn 1 9; Begin 2 toy_statement; Turn 2 9;
   CloseHandle 0; Turn 0 9; CloseHandle 1; Turn 1 9; Turn 1 9].

Lemma concurrent_prepares_break_a_handle :
  outcome_of false racing_schedule = Some ([(2%nat, "_babar_2"%s)], ["_babar_1"%s]).
Proof. by vm_compute. Qed.

(** A cache hit returns a handle without looking at the row description: a query whose decoder
    does not fit is refused when the statement is new, and accepted when it is cached. *)
Lemma cache_hit_skips_validation `{SqlHash} {A B} (q : Query A B) c :
  dynamic (q_fragment q) = None → ∀ {W} `{Connection W} (s : Shared W),
  stmts (cache s) !! fragment_key (q_fragment q) = Some c →
  (Prog.run (prepare_query q) s).1
  = Ok (mk_prepared_query (handle_named (q_fragment q) (cached_name (entry_stmt c))) (q_decoder q)).
Proof.
  intros Hd W HW s Hc. unfold prepare_query. rewrite run_pe_bind. unfold prepare. rewrite Hd.
  cbn. unfold checkout. by rewrite Hc.
Qed.
