(* ===== verification/Copy.v ===== *)
(** * Binary COPY payloads

    [crates/core/src/copy.rs] and [Session::copy_in] ([session/mod.rs]).  The chunks of a payload
    are the header, one chunk per row and the trailer; the driver sends each in its own message
    ([Driver.v]).  [read_copy] is the other side: a reader of PostgreSQL's binary COPY format,
    written from its documentation. *)
From S2P Require Import Prelude Bytes Text Error Backend Frontend Driver Types Codec Cache Prog Session.

Local Open Scope Z_scope.
Local Open Scope str_scope.

(** ** [CopyIn] *)
Record CopyIn (T : Type) := mk_copy { copy_sql : str; row_encoder : Encoder T }.
Arguments mk_copy {T}. Arguments copy_sql {T}. Arguments row_encoder {T}.

Definition binary {T} (sql : str) (e : Encoder T) : CopyIn T := mk_copy sql e.
Definition column_oids {T} (c : CopyIn T) : list Oid := enc_oids (row_encoder c).
Definition copy_n_columns {T} (c : CopyIn T) : nat := length (column_oids c).

(** A column without a format code is text. *)
Fixpoint ensure_binary_from (index : Z) (oids : list Oid) (formats : list Z) : result Error unit :=
  match oids with
  | [] => Ok tt
  | _ :: oids =>
    let format := default FORMAT_TEXT (head formats) in
    if negb (format =? FORMAT_BINARY) then
      Err (Error.Codec ("COPY FROM STDIN BINARY requires binary row codecs; column "
        ++ Text.dec (index + 1) ++ " uses format code " ++ Text.dec format))
    else ensure_binary_from (index + 1) oids (tail formats)
  end.
Definition ensure_binary_copy_capable (oids : list Oid) (formats : list Z) : result Error unit :=
  ensure_binary_from 0 oids formats.

(** [BinaryCopyRow::encode_fields] *)
Definition encode_field (field : option bytes) : result Error bytes :=
  match field with
  | Some b =>
    if Z.of_nat (length b) <? 2 ^ 31 then Ok (to_be_bytes 4 (Z.of_nat (length b)) ++ b)
    else Err (Error.Codec ("COPY field exceeds binary format limit: " ++ Text.dec (Z.of_nat (length b)) ++ " bytes"))
  | None => Ok (to_be_bytes 4 (-1))
  end.

Definition encode_fields (fields : Slots) : result Error bytes :=
  if Z.of_nat (length fields) <? 2 ^ 15 then
    body ← map_result encode_field fields;
    Ok (to_be_bytes 2 (Z.of_nat (length fields)) ++ concat body)
  else Err (Error.Codec ("COPY row has too many columns: " ++ Text.dec (Z.of_nat (length fields)))).

(** [EncoderCopyRowEncoder::encode_row] *)
Definition encode_row {T} (e : Encoder T) (value : T) : result Error bytes :=
  ensure_binary_copy_capable (enc_oids e) (enc_formats e);;
  match encode e value [] with
  | (Err err, _) => Err err
  | (Ok _, fields) =>
    if negb (length fields =? length (enc_oids e))%nat then
      Err (Error.Codec ("COPY row encoder declared " ++ Text.dec (Z.of_nat (length (enc_oids e)))
        ++ " columns but produced " ++ Text.dec (Z.of_nat (length fields)) ++ " fields"))
    else encode_fields fields
  end.

(** [BinaryCopyPayload::encode] *)
Definition encode_rows {T} (c : CopyIn T) (rows : list T) : result Error (list bytes) :=
  body ← map_result (encode_row (row_encoder c)) rows;
  Ok (copy_binary_header [] :: body ++ [copy_binary_trailer []]).

Definition copy_in {T} (c : CopyIn T) (rows : list T) : PE Z :=
  data ← of_result (encode_rows c rows); copy_in_raw (copy_sql c) data.

(** ** The format's reader *)
Definition read_i (n : nat) (b : bytes) : option (Z * bytes) :=
  if (length b <? n)%nat then None else Some (from_be_i (take n b), drop n b).

Definition read_field (b : bytes) : option (option bytes * bytes) :=
  '(len, b) ← read_i 4 b;
  if len =? -1 then Some (None, b)
  else if (len <? 0) || (length b <? Z.to_nat len)%nat then None
  else Some (Some (take (Z.to_nat len) b), drop (Z.to_nat len) b).

Fixpoint read_fields (n : nat) (b : bytes) : option (Slots * bytes) :=
  match n with
  | O => Some ([], b)
  | S n => '(f, b) ← read_field b; '(fs, b) ← read_fields n b; Some (f :: fs, b)
  end.

(** Tuples up to the trailer, which must be the end.  A tuple takes two bytes at least, so the
    length of the stream is enough fuel. *)
Fixpoint read_tuples (fuel : nat) (b : bytes) : option (list Slots) :=
  match fuel with
  | O => None
  | S fuel =>
    '(n, b) ← read_i 2 b;
    if n =? -1 then if bool_decide (b = []) then Some [] else None
    else if n <? 0 then None
    else '(fs, b) ← read_fields (Z.to_nat n) b; fss ← read_tuples fuel b; Some (fs :: fss)
  end.

(** The signature, no flags, no header extension. *)
Definition read_copy (b : bytes) : option (list Slots) :=
  b ← strip_prefix ("PGCOPY" ++ [x0a; xff; x0d; x0a; x00]) b;
  '(flags, b) ← read_i 4 b;
  '(ext, b) ← read_i 4 b;
  if (flags =? 0) && (ext =? 0) then read_tuples (S (length b)) b else None.

(** ** Reading back *)
Lemma read_i_app n z b : (0 < n)%nat → in_sint (8 * Z.of_nat n) z → read_i n (to_be_bytes n z ++ b) = Some (z, b).
Proof.
  intros Hn Hz. unfold read_i. rewrite length_app, length_to_be_bytes.
  replace (_ <? _)%nat with false by (symmetry; apply Nat.ltb_ge; lia).
  rewrite take_app_exact, drop_app_exact by apply length_to_be_bytes.
  rewrite from_be_i_to_be, wrap_sint_id by (done || lia). done.
Qed.

(** Injectivity without the simplification of [injection]. *)
Lemma Ok_eq {E A} (a b : A) : @Ok E A a = Ok b → a = b.
Proof. by intros [= ->]. Qed.

Lemma read_field_encode f enc b : encode_field f = Ok enc → read_field (enc ++ b) = Some (f, b).
Proof.
  unfold encode_field, read_field. destruct f as [x|].
  - destruct (_ <? _) eqn:Hlen; [|done]. apply Z.ltb_lt in Hlen. intros <-%Ok_eq.
    rewrite <- (assoc_L app), read_i_app by (lia || (unfold in_sint; lia)). cbn [mbind option_bind].
    replace (Z.of_nat (length x) =? -1) with false by lia.
    replace ((Z.of_nat (length x) <? 0) || _)%bool with false.
    + rewrite Nat2Z.id, take_app_length, drop_app_length. done.
    + symmetry. apply orb_false_iff. split; [lia|]. apply Nat.ltb_ge. rewrite length_app. lia.
  - intros <-%Ok_eq. rewrite read_i_app by (lia || (unfold in_sint; lia)). done.
Qed.

Lemma read_fields_encode fs encs b : map_result encode_field fs = Ok encs →
  read_fields (length fs) (concat encs ++ b) = Some (fs, b).
Proof.
  intros H%map_result_Ok. induction H as [|f e fs encs Hf _ IH]; cbn [length read_fields concat]; [done|].
  rewrite <- (assoc_L app), (read_field_encode _ _ _ Hf). cbn [mbind option_bind]. by rewrite IH.
Qed.

Lemma encode_fields_length fields row : encode_fields fields = Ok row → (2 ≤ length row)%nat.
Proof.
  unfold encode_fields. destruct (_ <? _); [|done]. intros (body & _ & <-%Ok_eq)%result_bind_Ok.
  rewrite length_app, length_to_be_bytes. lia.
Qed.

Lemma read_tuples_encode fuel fss rows : map_result encode_fields fss = Ok rows →
  (length (concat rows) + 2 < fuel)%nat →
  read_tuples fuel (concat rows ++ to_be_bytes 2 (-1)) = Some fss.
Proof.
  intros H%map_result_Ok. revert fuel. induction H as [|fs row fss rows Hrow _ IH]; intros fuel Hfuel.
  - destruct fuel as [|fuel]; [lia|]. cbn [concat app read_tuples].
    rewrite <- (app_nil_r (to_be_bytes 2 (-1))), read_i_app by (lia || (unfold in_sint; lia)). done.
  - pose proof (encode_fields_length _ _ Hrow) as Hlen. destruct fuel as [|fuel]; [lia|].
    cbn [concat read_tuples] in *. rewrite length_app in Hfuel.
    unfold encode_fields in Hrow. destruct (_ <? _) eqn:Hn; [|done]. apply Z.ltb_lt in Hn.
    apply result_bind_Ok in Hrow as (body & Hbody & <-%Ok_eq).
    rewrite <- !(assoc_L app), read_i_app by (lia || (unfold in_sint; lia)). cbn [mbind option_bind].
    replace (Z.of_nat (length fs) =? -1) with false by lia.
    replace (Z.of_nat (length fs) <? 0) with false by lia.
    rewrite Nat2Z.id, (read_fields_encode _ _ _ Hbody). cbn [mbind option_bind].
    rewrite IH; [done|]. rewrite length_app, length_to_be_bytes in Hlen, Hfuel. lia.
Qed.

Lemma read_copy_payload fss rows : map_result encode_fields fss = Ok rows →
  read_copy (concat (copy_binary_header [] :: rows ++ [copy_binary_trailer []])) = Some fss.
Proof.
  intros Hrows. unfold read_copy. cbn [concat]. rewrite concat_app. cbn [concat]. rewrite app_nil_r.
  assert (copy_binary_header [] = ("PGCOPY" ++ [x0a; xff; x0d; x0a; x00]) ++ to_be_bytes 4 0 ++ to_be_bytes 4 0) as -> by done.
  change (copy_binary_trailer []) with (to_be_bytes 2 (-1)).
  rewrite <- (assoc_L app), strip_prefix_app. cbn [mbind option_bind].
  rewrite <- (assoc_L app), !read_i_app by (lia || (unfold in_sint; lia)). cbn [mbind option_bind Z.eqb andb].
  rewrite read_i_app by (lia || (unfold in_sint; lia)). cbn [mbind option_bind Z.eqb andb].
  apply read_tuples_encode; [done|]. rewrite length_app, length_to_be_bytes. lia.
Qed.

(** ** Which rows are encoded *)
Lemma ensure_binary_ok n oids formats :
  ensure_binary_from n oids formats = Ok tt ↔
  ∀ i, (i < length oids)%nat → formats !! i = Some FORMAT_BINARY.
Proof.
  revert n formats. induction oids as [|o oids IH]; intros n formats; cbn; [split; [intros _ i; lia|done]|].
  assert (∀ f fs, (∀ i, (i < S (length oids))%nat → (f :: fs) !! i = Some FORMAT_BINARY)
    ↔ f = FORMAT_BINARY ∧ ∀ i, (i < length oids)%nat → fs !! i = Some FORMAT_BINARY) as Hcons.
  { intros f fs. split.
    - intros Hall. split; [specialize (Hall 0%nat ltac:(lia)); by injection Hall|].
      intros i Hi. apply (Hall (S i)). lia.
    - intros [-> Hall] [|i] Hi; [done|]. apply Hall. lia. }
  destruct formats as [|f formats]; cbn [head from_option tail id].
  - split; [done|]. intros Hall. by specialize (Hall 0%nat ltac:(lia)).
  - rewrite Hcons. destruct (Z.eqb_spec f FORMAT_BINARY) as [->|Hf]; cbn [negb].
    + rewrite IH. naive_solver.
    + split; [done|]. by intros [-> _].
Qed.

Lemma map_result_is_ok {E A B} (f : A → result E B) l :
  Forall (λ a, is_ok (f a)) l → is_ok (map_result f l).
Proof.
  induction 1 as [|a l [b Hb] _ [bs Hbs]]; [by eexists|]. exists (b :: bs). cbn. rewrite Hb. cbn. by rewrite Hbs.
Qed.

Lemma encode_field_ok f : is_ok (encode_field f) ↔ ∀ b, f = Some b → Z.of_nat (length b) < 2 ^ 31.
Proof.
  unfold encode_field. destruct f as [x|]; [|split; [done|intros _; by eexists]].
  destruct (Z.ltb_spec (Z.of_nat (length x)) (2 ^ 31)) as [Hx|Hx].
  - split; [by intros _ b [= <-]|intros _; by eexists].
  - split; [by intros [? ?]|]. intros Hb. specialize (Hb x eq_refl). lia.
Qed.

(** The values a row encoder can put in a binary COPY: the fields fit the format. *)
Definition copy_fits (fields : Slots) : Prop :=
  Z.of_nat (length fields) < 2 ^ 15 ∧ ∀ b, Some b ∈ fields → Z.of_nat (length b) < 2 ^ 31.

Lemma encode_fields_ok fields : copy_fits fields → is_ok (encode_fields fields).
Proof.
  intros [Hn Hb]. unfold encode_fields. rewrite (proj2 (Z.ltb_lt _ _) Hn).
  destruct (map_result_is_ok encode_field fields) as [body Hbody].
  - apply Forall_forall. intros f Hf. apply encode_field_ok. intros b ->. by apply Hb.
  - eexists. rewrite Hbody. done.
Qed.

Lemma encode_row_Ok {T} (e : Encoder T) v row : encode_row e v = Ok row ↔
  (∀ i, (i < length (enc_oids e))%nat → enc_formats e !! i = Some FORMAT_BINARY)
  ∧ ∃ fields, encode e v [] = (Ok tt, fields) ∧ length fields = length (enc_oids e) ∧ encode_fields fields = Ok row.
Proof.
  unfold encode_row, ensure_binary_copy_capable. rewrite <- (ensure_binary_ok 0).
  destruct (ensure_binary_from 0 _ _) as [[]|err]; cbn; [|naive_solver].
  destruct (encode e v []) as [[[]|err] fields]; [|naive_solver].
  destruct (Nat.eqb_spec (length fields) (length (enc_oids e))); cbn; naive_solver.
Qed.

(** Binary COPY payloads.  Whatever rows are encoded, the chunks are one more than the rows
    at each end, and a reader of the format finds in their concatenation exactly one tuple per
    row, in order, with the fields the row encoder produced, so that a lawful codec decodes the
    rows that were encoded.  Rows of a lawful codec whose slots are all binary and fit the
    format's limits are always encoded; an encoder with a text slot never is. *)
Theorem copy_round_trip {T} (sql : str) (c : Codec T) (ok : T → Prop) (rows : list T) :
  Lawful c ok →
  (∀ chunks, encode_rows (binary sql (enc c)) rows = Ok chunks → Forall ok rows →
    length chunks = S (S (length rows)) ∧
    ∃ fss, read_copy (concat chunks) = Some fss
    ∧ Forall2 (λ v fs, encode (enc c) v [] = (Ok tt, fs) ∧ decode (dec c) fs = Ok v) rows fss)
  ∧ (Forall (λ f, f = FORMAT_BINARY) (enc_formats (enc c)) →
     length (enc_formats (enc c)) = length (enc_oids (enc c)) →
     Forall (λ v, ok v ∧ copy_fits (encode (enc c) v []).2) rows →
     is_ok (encode_rows (binary sql (enc c)) rows))
  ∧ (FORMAT_TEXT ∈ take (length (enc_oids (enc c))) (enc_formats (enc c)) → rows ≠ [] →
     is_err (encode_rows (binary sql (enc c)) rows)).
Proof.
  intros Hc. unfold encode_rows, binary. cbn [row_encoder]. split; [|split].
  - intros chunks (body & Hbody & <-%Ok_eq)%result_bind_Ok Hok. apply map_result_Ok in Hbody.
    assert (∃ fss, Forall2 (λ v fs, encode (enc c) v [] = (Ok tt, fs) ∧ decode (dec c) fs = Ok v) rows fss
      ∧ map_result encode_fields fss = Ok body) as (fss & Hfss & Hmap).
    { induction Hbody as [|v row rows body Hrow _ IH]; [by exists []|].
      apply Forall_cons in Hok as [Hv Hok]. destruct (IH Hok) as (fss & Hfss & Hmap).
      apply encode_row_Ok in Hrow as (_ & fs & He & _ & Hf). exists (fs :: fss). split.
      - constructor; [|done]. split; [done|].
        destruct (law_round_trip v [] Hv) as (slots & He' & _ & Hd). rewrite He in He'.
        injection He' as ->. specialize (Hd []). by rewrite app_nil_r in Hd.
      - cbn. rewrite Hf. cbn. by rewrite Hmap. }
    split; [cbn; rewrite length_app; cbn; rewrite <- (Forall2_length _ _ _ Hbody); lia|].
    exists fss. split; [by apply read_copy_payload|done].
  - intros Hfmt Hlen Hrows. destruct (map_result_is_ok (encode_row (enc c)) rows) as [body ->]; [|by eexists].
    apply (Forall_impl _ _ _ Hrows). intros v [Hv Hfits].
    destruct (law_round_trip v [] Hv) as (slots & He & Hl & _). rewrite He in Hfits. cbn in Hfits.
    destruct (encode_fields_ok _ Hfits) as [row Hrow]. exists row. apply encode_row_Ok. split.
    + intros i Hi. destruct (lookup_lt_is_Some_2 (enc_formats (enc c)) i) as [f Hf]; [lia|].
      rewrite Hf. f_equal. by eapply (Forall_lookup_1 _ _ _ _ Hfmt).
    + exists slots. by rewrite He.
  - intros Htext Hrows. destruct rows as [|v rows]; [done|]. cbn.
    assert (∃ e, encode_row (enc c) v = Err e) as [e ->]; [|by eexists].
    destruct (encode_row (enc c) v) as [row|e] eqn:Hrow; [exfalso|by exists e].
    apply encode_row_Ok in Hrow as [Hall _]. apply list_elem_of_lookup in Htext as [i Hi].
    apply lookup_take_Some in Hi as [Hi Hlt]. rewrite (Hall i Hlt) in Hi. done.
Qed.

Definition copy_types : list Type := [Z : Type; option str : Type].
Definition copy_sample : Codec (tuple copy_types) := tuple_codec copy_types (int4, (nullable text, tt)).
Definition copy_rows : list (tuple copy_types) := [(7, (Some "hi"%s, tt)); (9, (None, tt))].

Definition copy_sample_ok (v : tuple copy_types) : Prop :=
  in_sint 32 v.1 ∧ match v.2.1 with Some s => utf8_valid s = true | None => True end.
Definition copy_chunks : list bytes :=
  match encode_rows (binary "COPY t FROM STDIN BINARY" (enc copy_sample)) copy_rows with Ok l => l | Err _ => [] end.

Lemma copy_round_trip_witness :
  encode_rows (binary "COPY t FROM STDIN BINARY" (enc copy_sample)) copy_rows = Ok copy_chunks
  ∧ length copy_chunks = 4%nat
  ∧ ∃ fss, read_copy (concat copy_chunks) = Some fss
    ∧ fss = [[Some [x00; x00; x00; x07]; Some "hi"%s]; [Some [x00; x00; x00; x09]; None]].
Proof.
  assert (encode_rows (binary "COPY t FROM STDIN BINARY" (enc copy_sample)) copy_rows = Ok copy_chunks) as E
    by (vm_compute; reflexivity).
  split; [exact E|].
  destruct (copy_round_trip "COPY t FROM STDIN BINARY" copy_sample copy_sample_ok copy_rows) as [Hread _].
  - apply tuple_lawful. exists (in_sint 32), (λ v, match v.1 with Some s => utf8_valid s = true | None => True end).
    split; [apply int4_lawful|]. split; [|by intros v []].
    exists (λ v, match v with Some s => utf8_valid s = true | None => True end), (λ _, True).
    split; [apply nullable_lawful; apply _|]. by split.
  - destruct (Hread copy_chunks E) as (Hl & fss & Hr & _).
    + repeat (apply Forall_cons; split); [split; [split; vm_compute; done || discriminate|by vm_compute]..|apply Forall_nil; done].
    + split; [exact Hl|]. exists fss. split; [done|].
      assert (read_copy (concat copy_chunks) = Some [[Some [x00; x00; x00; x07]; Some "hi"%s]; [Some [x00; x00; x00; x09]; None]])
        as E' by (vm_compute; reflexivity). rewrite E' in Hr. by injection Hr as <-.
Defined.
