(* ===== verification/Transaction.v ===== *)
(** * Transactions and savepoints

    [crates/core/src/transaction.rs].  The body of a scope is a program; the methods of
    [Transaction] and [Savepoint] forward to the session unchanged.  A [ScopeGuard] that is still
    armed when it is dropped spawns a task that rolls the scope back; a scope dropped in the
    middle of its body (cancellation) or outside of a runtime is not modelled.  The transaction blocks of
    the server are a specification ([control_step]), written from PostgreSQL's documentation. *)
From S2P Require Import Prelude Bytes Text Error Backend Driver Types Codec Cache Prog Session.

Local Open Scope Z_scope.
Local Open Scope str_scope.

(** ** Scope guards *)
Inductive CleanupAction := Rollback | RollbackSavepoint (name : str).

Definition rollback_to (name : str) : str := "ROLLBACK TO SAVEPOINT " ++ name.
Definition release_savepoint (name : str) : str := "RELEASE SAVEPOINT " ++ name.
Definition savepoint_sql (name : str) : str := "SAVEPOINT " ++ name.

(** The task an armed guard spawns. *)
Definition cleanup (a : CleanupAction) : Prog unit :=
  match a with
  | Rollback => _ ← (run_control_command "ROLLBACK" : Prog _); mret tt
  | RollbackSavepoint name =>
    _ ← (run_control_command (rollback_to name) : Prog _);
    _ ← (run_control_command (release_savepoint name) : Prog _);
    mret tt
  end.

(** Leave a scope: drop its guard. *)
Definition leave {A} (action : CleanupAction) (armed : bool) (r : A) : Prog A :=
  if armed then Fork (cleanup action) (Ret r) else Ret r.

(** ** [Session::transaction] *)
Definition transaction {T} (f : PE T) : PE T :=
  begun ← (run_control_command "BEGIN" : Prog _);
  match begun with
  | Err e => leave Rollback true (Err e)
  | Ok _ =>
    outcome ← (f : Prog _);
    match outcome with
    | Ok value =>
      committed ← (run_control_command "COMMIT" : Prog _);
      match committed with
      | Err e => leave Rollback true (Err e)
      | Ok _ => leave Rollback false (Ok value)
      end
    | Err err =>
      rolled_back ← (run_control_command "ROLLBACK" : Prog _);
      match rolled_back with
      | Err e => leave Rollback false (Err e)
      | Ok _ => leave Rollback false (Err err)
      end
    end
  end.

(** ** Savepoints *)
Definition savepoint_name (id : Z) : str := "babar_sp_" ++ Text.dec id.
Definition next_savepoint_name : Prog str := id ← do (FetchAdd SavepointNames); mret (savepoint_name id).

Definition rollback_savepoint (name : str) : PE unit :=
  _ ← run_control_command (rollback_to name); run_control_command (release_savepoint name).

(** [run_savepoint] once it has its name. *)
Definition savepoint_scope {T} (name : str) (f : PE T) : PE T :=
  let action := RollbackSavepoint name in
  saved ← (run_control_command (savepoint_sql name) : Prog _);
  match saved with
  | Err e => leave action true (Err e)
  | Ok _ =>
    outcome ← (f : Prog _);
    match outcome with
    | Ok value =>
      released ← (run_control_command (release_savepoint name) : Prog _);
      match released with
      | Err e => leave action true (Err e)
      | Ok _ => leave action false (Ok value)
      end
    | Err err =>
      rolled_back ← (rollback_savepoint name : Prog _);
      match rolled_back with
      | Err e => leave action true (Err e)
      | Ok _ => leave action false (Err err)
      end
    end
  end.

Definition run_savepoint {T} (f : PE T) : PE T := name ← next_savepoint_name; (savepoint_scope name f : Prog _).

(** ** The server's transaction blocks

    [D] is the data.  In a block: the data at [BEGIN], the savepoints with the data they saved,
    innermost first, the data now, and whether the block has failed. *)
Inductive Block (D : Type) :=
  | Outside (data : D)
  | Inside (base : D) (saves : list (str * D)) (now : D) (is_failed : bool).
Arguments Outside {D}. Arguments Inside {D}.

(** [ROLLBACK TO] and [RELEASE] act on the innermost savepoint of the name. *)
Fixpoint find_savepoint {D} (name : str) (saves : list (str * D)) : option (D * list (str * D)) :=
  match saves with
  | [] => None
  | (n, d) :: saves => if bool_decide (n = name) then Some (d, saves) else find_savepoint name saves
  end.

(** [control_step sql b ok b']: the statement may succeed or fail ([ok]) and lead from [b] to
    [b'].  [COMMIT] of a failed block succeeds and rolls back; [COMMIT] of a sound one may fail,
    for a deferred constraint, and then rolls back. *)
Inductive control_step {D : Type} : str → Block D → bool → Block D → Prop :=
  | cs_begin d : control_step "BEGIN" (Outside d) true (Inside d [] d false)
  | cs_commit b sv d : control_step "COMMIT" (Inside b sv d false) true (Outside d)
  | cs_commit_refused b sv d : control_step "COMMIT" (Inside b sv d false) false (Outside b)
  | cs_commit_failed b sv d : control_step "COMMIT" (Inside b sv d true) true (Outside b)
  | cs_rollback b sv d e : control_step "ROLLBACK" (Inside b sv d e) true (Outside b)
  | cs_rollback_outside d : control_step "ROLLBACK" (Outside d) true (Outside d)
  | cs_save name b sv d : control_step (savepoint_sql name) (Inside b sv d false) true (Inside b ((name, d) :: sv) d false)
  | cs_save_failed name b sv d : control_step (savepoint_sql name) (Inside b sv d true) false (Inside b sv d true)
  | cs_rollback_to name b sv d e d' sv' : find_savepoint name sv = Some (d', sv') →
      control_step (rollback_to name) (Inside b sv d e) true (Inside b ((name, d') :: sv') d' false)
  | cs_rollback_to_missing name b sv d e : find_savepoint name sv = None →
      control_step (rollback_to name) (Inside b sv d e) false (Inside b sv d true)
  | cs_release name b sv d d' sv' : find_savepoint name sv = Some (d', sv') →
      control_step (release_savepoint name) (Inside b sv d false) true (Inside b sv' d false)
  | cs_release_missing name b sv d : find_savepoint name sv = None →
      control_step (release_savepoint name) (Inside b sv d false) false (Inside b sv d true)
  | cs_release_failed name b sv d : control_step (release_savepoint name) (Inside b sv d true) false (Inside b sv d true).

(** A connection to such a server: [block] is what the server has for the session; a control
    statement that the specification covers is answered as it says. *)
Class TxnConnection (D W : Type) `{Connection W} := {
  block : W → Block D;
  block_law sql w : (∃ ok b, control_step sql (block w) ok b) →
    ∃ ok r, control_step sql (block w) ok (block (serve (CExtendedQuery sql [] [] [] None) w).2)
    ∧ (serve (CExtendedQuery sql [] [] [] None) w).1 = Some (RExtended r)
    ∧ (ok = true ↔ is_ok r);
}.

Section scopes.
Context {D W : Type} `{Connection W} `{!TxnConnection D W}.
Implicit Types s : Shared W.

Definition here s : Block D := block (world s).

(** A program that keeps to its scope: started in a sound block, it ends in the same block over
    the same savepoints; if it leaves savepoints of its own behind, the block has failed. *)
Definition scoped {T} (f : PE T) : Prop :=
  ∀ s b sv d, here s = Inside b sv d false → 0 ≤ next_id s SavepointNames →
  let s' := (Prog.run f s).2 in
  next_id s SavepointNames ≤ next_id s' SavepointNames ∧
  ∃ own d' e, here s' = Inside b (own ++ sv) d' e ∧ (e = false → own = [])
  ∧ Forall (λ x, ∃ id, next_id s SavepointNames ≤ id ∧ x.1 = savepoint_name id) own.

(** One control statement. *)
Lemma run_control sql s : (∃ ok b, control_step sql (here s) ok b) →
  ∃ s', ((∃ u, Prog.run (run_control_command sql) s = (Ok u, s') ∧ control_step sql (here s) true (here s'))
         ∨ (∃ e, Prog.run (run_control_command sql) s = (Err e, s') ∧ control_step sql (here s) false (here s')))
  ∧ spawned s' = spawned s ∧ next_id s' = next_id s.
Proof.
  intros Hex. destruct (block_law sql (world s) Hex) as (ok & r & Hstep & Hr & Hok).
  exists (with_world s (serve (CExtendedQuery sql [] [] [] None) (world s)).2). split; [|done].
  unfold run_control_command. rewrite run_pe_bind. unfold request_raw. rewrite run_pe_bind, run_perform. cbn [handle].
  destruct (serve (CExtendedQuery sql [] [] [] None) (world s)) as [rep w]. cbn in Hr, Hstep. subst rep. cbn.
  destruct r as [o|e]; cbn.
  - left. exists tt. split; [done|]. destruct ok; [done|]. by destruct (proj2 Hok (ex_intro _ o eq_refl)).
  - right. exists e. split; [done|]. destruct ok; [|done]. by destruct (proj1 Hok eq_refl).
Qed.

(** The specification, read off. *)
Lemma step_begin d ok b : control_step (D := D) "BEGIN" (Outside d) ok b → ok = true ∧ b = Inside d [] d false.
Proof. inversion 1; done. Qed.
Lemma step_commit b sv d e ok b' : control_step (D := D) "COMMIT" (Inside b sv d e) ok b' →
  (e = false ∧ ok = true ∧ b' = Outside d) ∨ (e = false ∧ ok = false ∧ b' = Outside b)
  ∨ (e = true ∧ ok = true ∧ b' = Outside b).
Proof. inversion 1; simplify_eq; eauto 6. Qed.
Lemma step_rollback b sv d e ok b' : control_step (D := D) "ROLLBACK" (Inside b sv d e) ok b' →
  ok = true ∧ b' = Outside b.
Proof. inversion 1; simplify_eq; done. Qed.
Lemma step_save name b sv d ok b' : control_step (D := D) (savepoint_sql name) (Inside b sv d false) ok b' →
  ok = true ∧ b' = Inside b ((name, d) :: sv) d false.
Proof. inversion 1; simplify_eq; done. Qed.
Lemma step_rollback_to name b sv d e d' sv' ok b' : find_savepoint name sv = Some (d', sv') →
  control_step (D := D) (rollback_to name) (Inside b sv d e) ok b' →
  ok = true ∧ b' = Inside b ((name, d') :: sv') d' false.
Proof. intros Hf. inversion 1; simplify_eq; done. Qed.
Lemma step_release_to name b sv d d' sv' ok b' : find_savepoint name sv = Some (d', sv') →
  control_step (D := D) (release_savepoint name) (Inside b sv d false) ok b' → ok = true ∧ b' = Inside b sv' d false.
Proof. intros Hf. inversion 1; simplify_eq; done. Qed.
Lemma step_release_failed name b sv d ok b' :
  control_step (D := D) (release_savepoint name) (Inside b sv d true) ok b' → ok = false ∧ b' = Inside b sv d true.
Proof. inversion 1; simplify_eq; done. Qed.

(** What the outcome of a transaction's body makes of the data [d] and the body's data [d']. *)
Definition transaction_end {T} (d d' : D) (is_failed : bool) (outcome r : result Error T)
    (spawned_before spawned_after : list (Prog unit)) (b : Block D) : Prop :=
  match outcome with
  | Err err => r = Err err ∧ b = Outside d ∧ spawned_after = spawned_before
  | Ok v =>
    (r = Ok v ∧ b = Outside (if is_failed then d else d') ∧ spawned_after = spawned_before)
    ∨ (is_failed = false ∧ is_err r ∧ b = Outside d ∧ spawned_after = spawned_before ++ [cleanup Rollback])
  end.

Lemma transaction_run {T} (f : PE T) s d : scoped f → here s = Outside d → 0 ≤ next_id s SavepointNames →
  ∃ s1 s2 outcome d' own e, here s1 = Inside d [] d false ∧ Prog.run f s1 = (outcome, s2)
  ∧ here s2 = Inside d own d' e
  ∧ transaction_end d d' e outcome (Prog.run (transaction f) s).1 (spawned s2)
      (spawned (Prog.run (transaction f) s).2) (here (Prog.run (transaction f) s).2).
Proof.
  intros Hf Hs Hid. unfold transaction.
  destruct (run_control "BEGIN" s) as (s1 & [(u & Hb & Hstep)|(er & _ & Hstep)] & _ & Hn1).
  { rewrite Hs. eexists _, _. constructor. }
  2: { rewrite Hs in Hstep. by apply step_begin in Hstep as [? _]. }
  rewrite Hs in Hstep. apply step_begin in Hstep as [_ H1].
  destruct (Hf s1 d [] d H1) as (_ & own & d' & e & H2 & _ & _); [by rewrite Hn1|].
  rewrite app_nil_r in H2. destruct (Prog.run f s1) as [outcome s2] eqn:Hrun. cbn in H2.
  exists s1, s2, outcome, d', own, e. split; [done|]. split; [done|]. split; [done|].
  rewrite run_bind, Hb. cbn beta iota. rewrite run_bind, Hrun. cbn beta iota. destruct outcome as [v|err].
  - rewrite run_bind.
    destruct (run_control "COMMIT" s2) as (s3 & Hc & Hsp & _).
    { rewrite H2. destruct e; eexists _, _; constructor. }
    rewrite H2 in Hc.
    destruct Hc as [(u' & -> & Hstep)|(er & -> & Hstep)]; unfold leave; cbn [Prog.run fst snd];
      apply step_commit in Hstep as [(-> & ? & Hb3)|[(-> & ? & Hb3)|(-> & ? & Hb3)]]; try done.
    + by left.
    + by left.
    + right. split; [done|]. split; [by eexists|]. split; [done|]. cbn. by rewrite Hsp.
  - rewrite run_bind.
    destruct (run_control "ROLLBACK" s2) as (s3 & Hc & Hsp & _); [rewrite H2; eexists _, _; constructor|].
    rewrite H2 in Hc.
    destruct Hc as [(u' & -> & Hstep)|(er & -> & Hstep)]; unfold leave; cbn [Prog.run fst snd];
      apply step_rollback in Hstep as (? & ?); done.
Qed.

(** What the outcome of a savepoint's body makes of the data [d] at the savepoint and the body's
    data [d'] and savepoints [own].  [RELEASE] is refused in a failed block: the savepoint is
    then left to the spawned task. *)
Definition savepoint_end {T} (name : str) (b : D) (sv : list (str * D)) (d d' : D) (own : list (str * D))
    (is_failed : bool) (outcome r : result Error T) (spawned_before spawned_after : list (Prog unit)) (blk : Block D) : Prop :=
  match outcome, is_failed with
  | Err err, _ => r = Err err ∧ blk = Inside b sv d false ∧ spawned_after = spawned_before
  | Ok v, false => r = Ok v ∧ blk = Inside b sv d' false ∧ spawned_after = spawned_before
  | Ok v, true => is_err r ∧ blk = Inside b (own ++ (name, d) :: sv) d' true
                  ∧ spawned_after = spawned_before ++ [cleanup (RollbackSavepoint name)]
  end.

Lemma savepoint_name_inj i j : 0 ≤ i → 0 ≤ j → savepoint_name i = savepoint_name j → i = j.
Proof. intros Hi Hj E. apply dec_inj_uint; [done..|]. by apply (app_inv_head "babar_sp_"). Qed.

(** The scope's own savepoint is found below those its body has left. *)
Lemma find_own id (own : list (str * D)) d sv : 0 ≤ id →
  Forall (λ x, ∃ id', id + 1 ≤ id' ∧ x.1 = savepoint_name id') own →
  find_savepoint (savepoint_name id) (own ++ (savepoint_name id, d) :: sv) = Some (d, sv).
Proof.
  intros Hid Hown. induction Hown as [|[n x] own (id' & Hlt & E) _ IH]; cbn [app find_savepoint].
  - by rewrite bool_decide_eq_true_2.
  - cbn in E. subst n. rewrite bool_decide_eq_false_2; [done|]. intros E%savepoint_name_inj; lia.
Qed.

Lemma run_next_name s :
  Prog.run next_savepoint_name s
  = (savepoint_name (next_id s SavepointNames),
     with_next_id s (λ c, if decide (c = SavepointNames) then next_id s SavepointNames + 1 else next_id s c)).
Proof. done. Qed.

Lemma savepoint_run {T} (f : PE T) s b sv d :
  scoped f → here s = Inside b sv d false → 0 ≤ next_id s SavepointNames →
  let name := savepoint_name (next_id s SavepointNames) in
  ∃ s1 s2 outcome d' own e, here s1 = Inside b ((name, d) :: sv) d false ∧ Prog.run f s1 = (outcome, s2)
  ∧ here s2 = Inside b (own ++ (name, d) :: sv) d' e ∧ (e = false → own = [])
  ∧ Forall (λ x, ∃ id, next_id s SavepointNames + 1 ≤ id ∧ x.1 = savepoint_name id) own
  ∧ next_id s SavepointNames + 1 ≤ next_id (Prog.run (run_savepoint f) s).2 SavepointNames
  ∧ savepoint_end name b sv d d' own e outcome (Prog.run (run_savepoint f) s).1 (spawned s2)
      (spawned (Prog.run (run_savepoint f) s).2) (here (Prog.run (run_savepoint f) s).2).
Proof.
  intros Hf Hs Hid name. unfold run_savepoint. rewrite run_bind, run_next_name. fold name.
  set (s0 := with_next_id s _).
  assert (here s0 = Inside b sv d false) as Hin0 by done.
  assert (next_id s0 SavepointNames = next_id s SavepointNames + 1) as Hn0 by (cbn; by rewrite decide_True).
  cbn beta iota zeta. unfold savepoint_scope. rewrite run_bind.
  destruct (run_control (savepoint_sql name) s0) as (s1 & Hb & _ & Hn1); [rewrite Hin0; eexists _, _; constructor|].
  rewrite Hin0 in Hb. destruct Hb as [(u & -> & Hstep)|(er & _ & Hstep)]; apply step_save in Hstep as [? Hin1]; [|done].
  destruct (Hf s1 b ((name, d) :: sv) d Hin1) as (Hmono & own & d' & e & Hin2 & He & Hown); [rewrite Hn1, Hn0; lia|].
  rewrite Hn1, Hn0 in Hmono, Hown.
  destruct (Prog.run f s1) as [outcome s2] eqn:Hrun. cbn [snd] in Hin2, Hmono.
  exists s1, s2, outcome, d', own, e. do 5 (split; [done|]).
  cbn beta iota. rewrite run_bind, Hrun. cbn beta iota.
  assert (∀ own' : list (str * D), Forall (λ x, ∃ id, next_id s SavepointNames + 1 ≤ id ∧ x.1 = savepoint_name id) own' →
    find_savepoint name (own' ++ (name, d) :: sv) = Some (d, sv)) as Hfind by (intros; by apply find_own).
  destruct outcome as [v|err].
  - rewrite run_bind. destruct e.
    + destruct (run_control (release_savepoint name) s2) as (s3 & Hc & Hsp & Hn3); [rewrite Hin2; eexists _, _; constructor|].
      rewrite Hin2 in Hc. destruct Hc as [(u' & -> & Hstep)|(er & -> & Hstep)];
        apply step_release_failed in Hstep as [? Hin3]; [done|]. unfold leave. cbn [Prog.run fst snd].
      split; [cbn; rewrite Hn3; lia|]. split; [by eexists|]. split; [done|]. cbn. by rewrite Hsp.
    + rewrite (He eq_refl) in *. cbn [app] in Hin2.
      assert (find_savepoint name ((name, d) :: sv) = Some (d, sv)) as Hf1 by (by apply (Hfind [])).
      destruct (run_control (release_savepoint name) s2) as (s3 & Hc & Hsp & Hn3);
        [rewrite Hin2; eexists _, _; by econstructor|].
      rewrite Hin2 in Hc. destruct Hc as [(u' & -> & Hstep)|(er & -> & Hstep)];
        eapply step_release_to in Hstep as [? Hin3]; try done. unfold leave. cbn [Prog.run fst snd].
      split; [rewrite Hn3; lia|]. done.
  - rewrite run_bind. unfold rollback_savepoint. rewrite run_pe_bind.
    destruct (run_control (rollback_to name) s2) as (s3 & Hc & Hsp & Hn3);
      [rewrite Hin2; eexists _, _; econstructor; by apply (Hfind own)|].
    rewrite Hin2 in Hc. destruct Hc as [(u' & -> & Hstep)|(er & -> & Hstep)];
      (eapply step_rollback_to in Hstep as [? Hin3]; [|by apply (Hfind own)]); [|done].
    assert (find_savepoint name ((name, d) :: sv) = Some (d, sv)) as Hf1 by (by apply (Hfind [])).
    destruct (run_control (release_savepoint name) s3) as (s4 & Hc & Hsp4 & Hn4);
      [rewrite Hin3; eexists _, _; by econstructor|].
    rewrite Hin3 in Hc. destruct Hc as [(u'' & -> & Hstep)|(er & -> & Hstep)];
      eapply step_release_to in Hstep as [? Hin4]; try done. unfold leave. cbn [Prog.run fst snd].
    split; [rewrite Hn4, Hn3; lia|]. split; [done|]. split; [done|]. by rewrite Hsp4, Hsp.
Qed.

(** A savepoint keeps to the scope around it. *)
Lemma run_savepoint_scoped {T} (f : PE T) : scoped f → scoped (run_savepoint f).
Proof.
  intros Hf s b sv d Hs Hid.
  destruct (savepoint_run f s b sv d Hf Hs Hid) as (s1 & s2 & outcome & d' & own & e & _ & _ & _ & He & Hown & Hmono & Hend).
  cbn zeta. split; [lia|]. destruct outcome as [v|err]; cbn in Hend; [destruct e|].
  - destruct Hend as (_ & Hb & _). exists (own ++ [(savepoint_name (next_id s SavepointNames), d)]), d', true.
    rewrite <- (assoc_L app). split; [done|]. split; [done|]. apply Forall_app. split.
    + apply (Forall_impl _ _ _ Hown). intros x (id & Hle & E). exists id. split; [lia|done].
    + apply Forall_singleton. exists (next_id s SavepointNames). by split.
  - destruct Hend as (_ & Hb & _). by exists [], d', false.
  - destruct Hend as (_ & Hb & _). by exists [], d, false.
Qed.


(** The task left behind by a refused commit rolls back whatever transaction the session is in
    when it runs. *)
Lemma stale_rollback_hits_the_next_transaction s b d :
  here s = Inside b [] d false → here (Prog.run (cleanup Rollback) s).2 = Outside b.
Proof.
  intros Hs. unfold cleanup. rewrite run_bind.
  destruct (run_control "ROLLBACK" s) as (s1 & Hc & _); [rewrite Hs; eexists _, _; constructor|].
  rewrite Hs in Hc. destruct Hc as [(u & -> & Hstep)|(e & -> & Hstep)]; cbn; by apply step_rollback in Hstep as [_ ->].
Qed.

(** The task left behind by a savepoint whose release was refused fails the next transaction: the
    savepoint no longer exists. *)
Lemma stale_savepoint_cleanup_fails_the_next_transaction s b d name :
  here s = Inside b [] d false → here (Prog.run (cleanup (RollbackSavepoint name)) s).2 = Inside b [] d true.
Proof.
  intros Hs. unfold cleanup. rewrite run_bind.
  destruct (run_control (rollback_to name) s) as (s1 & Hc & _); [rewrite Hs; eexists _, _; by constructor|].
  rewrite Hs in Hc.
  assert (here s1 = Inside b [] d true) as H1.
  { destruct Hc as [(u & _ & Hstep)|(e & _ & Hstep)]; inversion Hstep; simplify_eq; done. }
  assert (∀ X (r : X), here (Prog.run (_ ← (run_control_command (release_savepoint name) : Prog _); mret tt) s1).2
          = Inside b [] d true) as Hrel.
  { intros _ _. rewrite run_bind.
    destruct (run_control (release_savepoint name) s1) as (s2 & Hc2 & _); [rewrite H1; eexists _, _; constructor|].
    rewrite H1 in Hc2. destruct Hc2 as [(u & -> & Hstep)|(e & -> & Hstep)]; cbn; by apply step_release_failed in Hstep as [_ ->]. }
  destruct Hc as [(u & -> & _)|(e & -> & _)]; by apply (Hrel unit tt).
Qed.
End scopes.

(** ** A small server, for examples: the data is the list of statements run *)
Definition txn_control (sql : str) (b : Block (list str)) : bool * Block (list str) :=
  match b with
  | Outside d =>
    if bool_decide (sql = "BEGIN") then (true, Inside d [] d false)
    else (bool_decide (sql = "ROLLBACK"), b)
  | Inside base sv now is_failed =>
    if bool_decide (sql = "COMMIT") then (true, Outside (if is_failed then base else now))
    else if bool_decide (sql = "ROLLBACK") then (true, Outside base)
    else match strip_prefix "SAVEPOINT " sql, strip_prefix "ROLLBACK TO SAVEPOINT " sql, strip_prefix "RELEASE SAVEPOINT " sql with
    | Some name, _, _ => if is_failed then (false, b) else (true, Inside base ((name, now) :: sv) now false)
    | _, Some name, _ =>
      match find_savepoint name sv with
      | Some (d, sv) => (true, Inside base ((name, d) :: sv) d false)
      | None => (false, Inside base sv now true)
      end
    | _, _, Some name =>
      if is_failed then (false, b)
      else match find_savepoint name sv with
           | Some (_, sv) => (true, Inside base sv now false)
           | None => (false, Inside base sv now true)
           end
    | _, _, _ => (false, b)
    end
  end.

Definition txn_run (sql : str) (b : Block (list str)) : Block (list str) :=
  match b with
  | Outside d => Outside (d ++ [sql])
  | Inside base sv now is_failed => if is_failed then b else Inside base sv (now ++ [sql]) false
  end.

#[export] Instance txn_server : Connection (Block (list str)) := λ c b,
  match c (Caller 0) with
  | CExtendedQuery sql _ _ _ _ _ =>
    let '(ok, b') := txn_control sql b in
    (Some (RExtended (if ok then Ok (mk_extended [] None) else Err (protocol "refused"))), b')
  | CSimpleQuery sql _ => (Some (RSimple (Ok [])), txn_run sql b)
  | _ => (None, b)
  end.

Lemma txn_control_step sql b ok b' : control_step sql b ok b' →
  control_step sql b (txn_control sql b).1 (txn_control sql b).2.
Proof.
  assert (∀ name, strip_prefix "SAVEPOINT " (savepoint_sql name) = Some name) as Hs by (intros; apply strip_prefix_app).
  assert (∀ name, strip_prefix "ROLLBACK TO SAVEPOINT " (rollback_to name) = Some name) as Hr by (intros; apply strip_prefix_app).
  assert (∀ name, strip_prefix "RELEASE SAVEPOINT " (release_savepoint name) = Some name) as Hl by (intros; apply strip_prefix_app).
  destruct 1 as [d|b sv d|b sv d|b sv d|b sv d e|d|name b sv d|name b sv d|name b sv d e d' sv' Hf|name b sv d e Hf|name b sv d d' sv' Hf|name b sv d Hf|name b sv d];
    cbn [txn_control]; try (by constructor); try (by destruct e; constructor);
    rewrite !bool_decide_eq_false_2 by done; rewrite ?Hs, ?Hr, ?Hl; try (by constructor);
    try rewrite Hf; try (by econstructor).
Qed.

#[export] Program Instance txn_blocks : TxnConnection (list str) (Block (list str)) := {| block w := w |}.
Next Obligation.
  intros sql w (ok & b & Hstep). cbn in Hstep. pose proof (txn_control_step _ _ _ _ Hstep) as Hok.
  unfold serve, txn_server. destruct (txn_control sql w) as [ok' b'] eqn:E. cbn in Hok |- *.
  eexists _, _. split; [done|]. split; [done|]. destruct ok'; [by split; [eexists|]|by split; [|intros [? ?]]].
Qed.

Definition sample_body : PE unit := _ ← simple_query_raw "INSERT INTO t DEFAULT VALUES"; mret tt.
Definition sample_txn : Shared (Block (list str)) := new_session (Outside ["CREATE TABLE t ()"%s]) false.

