(* ===== verification/Stream.v ===== *)
(** * Row streams

    [crates/core/src/session/stream.rs] and [Session::stream_with_batch_size]
    ([session/mod.rs]).  A stream runs over a named portal inside a transaction block: a spawned
    task fetches one batch of rows at a time, decodes them into a channel, and always ends by
    closing the portal and the statement and by committing.  The channel's capacity only delays
    the task, so it has no counterpart; the consumer is [demand] of [Prog.v].

    The task's loop is unbounded in the source.  [drive_stream] takes fuel, one unit per batch;
    [enough_fuel] is enough for a portal of finitely many rows. *)
From S2P Require Import Prelude Bytes Text Error Backend Driver Types Codec Fragment Cache Prog Session.

Local Open Scope Z_scope.
Local Open Scope str_scope.

Definition DEFAULT_BATCH_ROWS : nat := 128.

Definition stream_name (prefix : str) : Prog str :=
  id ← do (FetchAdd StreamNames); mret (prefix ++ "_" ++ Text.dec id).

Definition begin_transaction : PE unit := run_control_command "BEGIN".
Definition finish_transaction_best_effort : Prog unit := _ ← (run_control_command "COMMIT" : Prog _); mret tt.
Definition close_portal_best_effort (name : str) : Prog unit := _ ← do (Request KUnit (CClosePortal name)); mret tt.

Record StreamConfig (B : Type) := mk_stream_config {
  sc_stmt_name : str;
  sc_params : Slots;
  sc_param_formats : list Z;
  sc_decoder : Decoder B;
  sc_batch_rows : nat;
  close_statement_on_finish : bool;
  close_transaction_on_finish : bool;
}.
Arguments mk_stream_config {B}. Arguments sc_stmt_name {B}. Arguments sc_params {B}. Arguments sc_param_formats {B}.
Arguments sc_decoder {B}. Arguments sc_batch_rows {B}. Arguments close_statement_on_finish {B}.
Arguments close_transaction_on_finish {B}.

(** ** The task *)
Definition cleanup_stream (portal : str) (statement : option str) (close_transaction : bool) : Prog unit :=
  _ ← close_portal_best_effort portal;
  _ ← match statement with Some name => close_statement_best_effort name | None => mret tt end;
  if close_transaction then finish_transaction_best_effort else mret tt.

(** The rows of a batch; [false] when the stream is over: the consumer is gone or a row does not
    decode. *)
Fixpoint send_rows {B} (d : Decoder B) (rows : RawRows) : Prog bool :=
  match rows with
  | [] => mret true
  | columns :: rows =>
    gone ← do RowClosed;
    if gone : bool then mret false
    else
      let row := decode d columns in
      sent ← do (RowSend row);
      if negb sent then mret false
      else match row with Err _ => mret false | Ok _ => send_rows d rows end
  end.

Fixpoint drive_stream {B} (fuel : nat) (portal : str) (statement : option str) (d : Decoder B)
    (batch : Z) (close_transaction : bool) : Prog unit :=
  let finish := cleanup_stream portal statement close_transaction in
  match fuel with
  | O => mret tt
  | S fuel =>
    gone ← do RowClosed;
    if gone : bool then finish
    else
      reply ← do (Request KBatch (CExecutePortal portal batch));
      match reply with
      | None => _ ← do (RowSend (B := B) (Err closed)); finish
      | Some (Err e) => _ ← do (RowSend (B := B) (Err e)); finish
      | Some (Ok b) =>
        go_on ← send_rows d (batch_rows b);
        if go_on && has_more b then drive_stream fuel portal statement d batch close_transaction
        else finish
      end
  end.

(** ** [RowStream::start] *)
Definition abandon_start {A B} (c : StreamConfig B) (e : Error) : PE A :=
  _ ← always (if close_statement_on_finish c then close_statement_best_effort (sc_stmt_name c) else mret tt);
  _ ← always (if close_transaction_on_finish c then finish_transaction_best_effort else mret tt);
  fail e.

Definition start_stream {B} (fuel : nat) (c : StreamConfig B) : PE unit :=
  let n := Z.of_nat (sc_batch_rows c) in
  if 2 ^ 31 <=? n then abandon_start c (Error.Config "stream batch size exceeds i32::MAX")
  else if n <=? 0 then abandon_start c (Error.Config "stream batch size must be greater than zero")
  else
    portal ← always (stream_name "babar_stream_portal");
    reply ← perform (Request KUnit (CBindPortal portal (sc_stmt_name c) (sc_params c) (sc_param_formats c)
                                      (dec_formats (sc_decoder c))));
    match reply with
    | None => abandon_start c closed
    | Some (Err e) => abandon_start c e
    | Some (Ok _) =>
      always (fork (drive_stream fuel portal
        (if close_statement_on_finish c then Some (sc_stmt_name c) else None)
        (sc_decoder c) n (close_transaction_on_finish c)))
    end.

(** ** [Session::stream_with_batch_size] *)
Definition annotate_pe {A} (sql : str) (o : option Origin) (p : PE A) : PE A := prog_bind p (λ r, Ret (annotate sql o r)).

Definition stream_with_batch_size {A B} (fuel : nat) (q : Query A B) (args : A) (batch_rows : nat) : PE unit :=
  bound ← of_result (annotate (q_sql q) (q_origin q) (bind_runtime (q_fragment q) args));
  let sql := bound_sql bound in
  let d := q_decoder q in
  stmt_name ← always (stream_name "babar_stream_stmt");
  param_oids ← resolve_type_oids (bound_types bound);
  output_oids ← resolve_type_oids (dec_types d);
  outcome ← request KPrepare (CPrepare stmt_name sql param_oids) sql (q_origin q);
  match validate_row_description d (row_fields outcome) output_oids with
  | Err e => _ ← always (close_statement_best_effort stmt_name); fail (with_sql e sql (q_origin q))
  | Ok _ =>
    begun ← always begin_transaction;
    match begun with
    | Err e => _ ← always (close_statement_best_effort stmt_name); fail (with_sql e sql (q_origin q))
    | Ok _ =>
      annotate_pe sql (q_origin q) (start_stream fuel
        (mk_stream_config stmt_name (bound_params bound) (bound_formats bound) d batch_rows true true))
    end
  end.

Definition stream {A B} (fuel : nat) (q : Query A B) (args : A) : PE unit :=
  stream_with_batch_size fuel q args DEFAULT_BATCH_ROWS.

(** ** What a stream delivers *)

(** Up to the first error, included. *)
Fixpoint until_error {B} (l : list (result Error B)) : list (result Error B) :=
  match l with
  | [] => []
  | Err e :: _ => [Err e]
  | Ok v :: l => Ok v :: until_error l
  end.

Definition within_demand {B} (demand : option nat) (l : list B) : list B :=
  match demand with None => l | Some n => take n l end.

(** The rows of a portal as the consumer should see them: those of the batches the server
    completes, decoded, then the server's error if there is one. *)
Definition portal_results {B} (d : Decoder B) (batch : nat) (rows : RawRows) (fault : option Error)
  : list (result Error B) :=
  match fault with
  | None => map (decode d) rows
  | Some e => map (decode d) (take (length rows / batch * batch) rows) ++ [Err e]
  end.

Definition cleanup_commands (portal : str) (statement : option str) (close_transaction : bool) : list Command :=
  [CClosePortal portal Orphan]
  ++ match statement with Some name => [CCloseStatement name Orphan] | None => [] end
  ++ if close_transaction then [CExtendedQuery "COMMIT" [] [] [] None Orphan] else [].

(** A connection to a server with an open portal: the rows left in it, the error that ends it if
    any, and the commands it has been sent.  [Execute] with a row limit suspends the portal when
    it has returned that many rows. *)
Class PortalServer (W : Type) `{Connection W} := {
  portal_rows : W → RawRows;
  portal_fault : W → option Error;
  log : W → list Command;
  law_log c w : log (serve c w).2 = log w ++ [c Orphan];
  law_execute portal max w : (0 < max)%nat →
    let rows := portal_rows w in
    let w' := (serve (CExecutePortal portal (Z.of_nat max)) w).2 in
    (serve (CExecutePortal portal (Z.of_nat max)) w).1
    = Some (RBatch (if (max <=? length rows)%nat then Ok (mk_batch (take max rows) true)
                    else match portal_fault w with None => Ok (mk_batch rows false) | Some e => Err e end))
    ∧ portal_rows w' = drop max rows ∧ portal_fault w' = portal_fault w;
}.

Definition enough_fuel (batch : nat) (rows : RawRows) : nat := S (length rows / batch).

Section delivery.
Context {W : Type} `{Connection W} {B : Type} (d : Decoder B).
Implicit Types s : Shared W.
Implicit Types rs : list (result Error B).

(** The effect of pushing results into the channel: what is delivered, the demand left, and
    whether to go on. *)
Fixpoint pushed (dem : option nat) rs : list (result Error B) * option nat * bool :=
  match rs with
  | [] => ([], dem, true)
  | r :: rs =>
    match dem, r with
    | Some O, _ => ([], dem, false)
    | _, Err _ => ([r], pred <$> dem, false)
    | _, Ok _ => let '(l, dem', b) := pushed (pred <$> dem) rs in (r :: l, dem', b)
    end
  end.

Lemma pushed_app dem rs more :
  let '(l, dem', b) := pushed dem rs in
  within_demand dem (until_error (rs ++ more)) = l ++ if b : bool then within_demand dem' (until_error more) else [].
Proof.
  revert dem. induction rs as [|r rs IH]; intros dem; [done|]. cbn.
  destruct dem as [[|n]|]; cbn; [done| |].
  - destruct r as [v|e]; cbn; [|by rewrite take_nil]. specialize (IH (Some n)).
    destruct (pushed (Some n) rs) as [[l dem'] b]. cbn. by rewrite <- IH.
  - destruct r as [v|e]; cbn; [|done]. specialize (IH None).
    destruct (pushed None rs) as [[l dem'] b]. cbn. by rewrite <- IH.
Qed.

(** Only the channel changes. *)
Definition put (l : list (result Error B)) (dem : option nat) s : Shared W :=
  with_rows s (delivered s ++ map (existT B) l) dem.

Lemma run_send_rows rows s :
  Prog.run (send_rows d rows) s
  = let '(l, dem', b) := pushed (demand s) (map (decode d) rows) in (b, put l dem' s).
Proof.
  revert s. induction rows as [|columns rows IH]; intros s; cbn.
  { unfold put. cbn. rewrite app_nil_r. by destruct s. }
  unfold channel_closed. destruct (demand s) as [[|n]|] eqn:Hd; cbn.
  - unfold put. cbn. rewrite app_nil_r, <- Hd. by destruct s.
  - unfold channel_closed. rewrite Hd. cbn. destruct (decode d columns) as [v|e]; cbn; [|done].
    rewrite IH. cbn. destruct (pushed (Some n) (map (decode d) rows)) as [[l dem'] b].
    unfold put. cbn. by rewrite <- (assoc_L app).
  - unfold channel_closed. rewrite Hd. cbn. destruct (decode d columns) as [v|e]; cbn; [|done].
    rewrite IH. cbn. destruct (pushed None (map (decode d) rows)) as [[l dem'] b].
    unfold put. cbn. by rewrite <- (assoc_L app).
Qed.

Context `{!PortalServer W}.

Lemma run_best_effort (k : ReplyKind) c s :
  ∃ r w, Prog.run (do (Request k c)) s = (r, with_world s w) ∧ log w = log (world s) ++ [c Orphan].
Proof.
  pose proof (law_log c (world s)) as Hlog. cbn. destruct (serve c (world s)) as [r w]. by eexists _, w.
Qed.

Lemma run_commit s : ∃ w, Prog.run finish_transaction_best_effort s = (tt, with_world s w)
  ∧ log w = log (world s) ++ [CExtendedQuery "COMMIT" [] [] [] None Orphan].
Proof.
  pose proof (law_log (CExtendedQuery "COMMIT" [] [] [] None) (world s)) as Hlog.
  unfold finish_transaction_best_effort. rewrite run_bind. unfold run_control_command.
  rewrite run_pe_bind. unfold request_raw. rewrite run_pe_bind, run_perform. cbn.
  destruct (serve _ (world s)) as [r w]. cbn. exists w. split; [|done].
  by destruct (default (Err closed) (r ≫= _)).
Qed.

Lemma run_cleanup portal statement close_transaction s :
  ∃ w, Prog.run (cleanup_stream portal statement close_transaction) s = (tt, with_world s w)
  ∧ log w = log (world s) ++ cleanup_commands portal statement close_transaction.
Proof.
  unfold cleanup_stream, close_portal_best_effort, cleanup_commands. rewrite !run_bind.
  destruct (run_best_effort KUnit (CClosePortal portal) s) as (r & w1 & -> & H1). cbn [Prog.run mret prog_ret].
  rewrite run_bind. destruct statement as [name|].
  - unfold close_statement_best_effort. rewrite run_bind.
    destruct (run_best_effort KUnit (CCloseStatement name) (with_world s w1)) as (r2 & w2 & -> & H2). cbn [Prog.run] in *.
    destruct close_transaction.
    + destruct (run_commit (with_world (with_world s w1) w2)) as (w3 & -> & H3). exists w3. split; [done|].
      cbn in *. by rewrite H3, H2, H1, <- !(assoc_L app).
    + exists w2. split; [done|]. cbn in *. by rewrite H2, H1, <- !(assoc_L app).
  - cbn [Prog.run mret prog_ret]. destruct close_transaction.
    + destruct (run_commit (with_world s w1)) as (w3 & -> & H3). exists w3. split; [done|].
      cbn in *. by rewrite H3, H1, <- !(assoc_L app).
    + exists w1. split; [done|]. by rewrite H1.
Qed.

Lemma div_step n batch : (0 < batch)%nat → (batch ≤ n)%nat → (n / batch = S ((n - batch) / batch))%nat.
Proof.
  intros Hb Hle. replace n with (1 * batch + (n - batch))%nat at 1 by lia. by rewrite Nat.div_add_l by lia.
Qed.

Lemma put_put l1 l2 dem1 dem2 w1 w2 s :
  put l2 dem2 (with_world (put l1 dem1 (with_world s w1)) w2) = put (l1 ++ l2) dem2 (with_world s w2).
Proof. unfold put. cbn. by rewrite map_app, <- (assoc_L app). Qed.

Lemma portal_results_step batch rows fault : (0 < batch)%nat → (batch ≤ length rows)%nat →
  portal_results d batch rows fault
  = map (decode d) (take batch rows) ++ portal_results d batch (drop batch rows) fault.
Proof.
  intros Hb Hle. unfold portal_results. destruct fault as [e|].
  - rewrite length_drop, (assoc_L app), <- map_app. do 2 f_equal. rewrite (div_step (length rows)) by done.
    cbn [Nat.mul]. symmetry. apply take_take_drop.
  - by rewrite <- map_app, take_drop.
Qed.

Lemma portal_results_last batch rows e : (length rows < batch)%nat → portal_results d batch rows (Some e) = [Err e].
Proof. intros Hlt. unfold portal_results. by rewrite Nat.div_small. Qed.

(** The task, run to its end. *)
Lemma run_drive_stream batch portal statement close_transaction fuel s :
  (0 < batch)%nat → (enough_fuel batch (portal_rows (world s)) ≤ fuel)%nat →
  ∃ dem w k,
    Prog.run (drive_stream fuel portal statement d (Z.of_nat batch) close_transaction) s
    = (tt, put (within_demand (demand s)
                  (until_error (portal_results d batch (portal_rows (world s)) (portal_fault (world s)))))
             dem (with_world s w))
    ∧ log w = log (world s) ++ replicate k (CExecutePortal portal (Z.of_nat batch) Orphan)
              ++ cleanup_commands portal statement close_transaction
    ∧ (k ≤ enough_fuel batch (portal_rows (world s)))%nat.
Proof.
  intros Hb. revert s. induction fuel as [|fuel IH]; intros s Hfuel; [unfold enough_fuel in Hfuel; lia|].
  cbn [drive_stream]. rewrite run_bind. cbn [Prog.run do handle].
  destruct (channel_closed s) eqn:Hgone.
  { unfold channel_closed in Hgone. destruct (demand s) as [[|n]|] eqn:Hd; try done.
    destruct (run_cleanup portal statement close_transaction s) as (w & -> & Hlog).
    exists (Some 0%nat), w, 0%nat. split; [|split; [done|lia]]. unfold put. cbn. rewrite app_nil_r, <- Hd. by destruct s. }
  rewrite run_bind. cbn [Prog.run do handle].
  destruct (law_execute portal batch (world s) Hb) as (Hr & Hrows & Hfault).
  pose proof (law_log (CExecutePortal portal (Z.of_nat batch)) (world s)) as Hlog.
  destruct (serve (CExecutePortal portal (Z.of_nat batch)) (world s)) as [r w1]. cbn in Hr, Hrows, Hfault, Hlog. subst r.
  cbn [mbind option_bind unpack].
  destruct (Nat.leb_spec batch (length (portal_rows (world s)))) as [Hle|Hlt].
  - rewrite run_bind, run_send_rows. cbn [demand batch_rows has_more].
    pose proof (pushed_app (demand s) (map (decode d) (take batch (portal_rows (world s))))
      (portal_results d batch (drop batch (portal_rows (world s))) (portal_fault (world s)))) as Hpush.
    rewrite <- portal_results_step in Hpush by done. cbn [demand with_world].
    destruct (pushed (demand s) _) as [[l dem'] b]. destruct b; cbn [andb].
    + destruct (IH (put l dem' (with_world s w1))) as (dem & w & k & Hrun & Hlog' & Hk).
      { cbn [put with_rows with_world world]. rewrite Hrows.
        unfold enough_fuel in *. rewrite length_drop. rewrite div_step in Hfuel by done. lia. }
      cbn [put with_rows with_world world demand] in Hrun, Hlog', Hk. rewrite Hrows in Hrun, Hk. rewrite Hfault in Hrun.
      exists dem, w, (S k). split; [|split].
      * rewrite Hpush, <- (put_put l _ dem' dem w1 w s). exact Hrun.
      * rewrite Hlog', Hlog, <- !(assoc_L app). done.
      * unfold enough_fuel in *. rewrite length_drop in Hk. rewrite div_step by done. lia.
    + rewrite app_nil_r in Hpush.
      destruct (run_cleanup portal statement close_transaction (put l dem' (with_world s w1))) as (w & -> & Hlog').
      exists dem', w, 1%nat. split; [|split].
      * by rewrite Hpush.
      * cbn [put with_rows with_world world] in Hlog'. by rewrite Hlog', Hlog, <- !(assoc_L app).
      * unfold enough_fuel. lia.
  - destruct (portal_fault (world s)) as [e|] eqn:Hf.
    + rewrite run_bind. cbn [Prog.run do handle].
      replace (channel_closed (with_world s w1)) with false by (symmetry; exact Hgone).
      destruct (run_cleanup portal statement close_transaction
        (with_rows (with_world s w1) (delivered (with_world s w1) ++ [existT B (Err e)]) (pred <$> demand (with_world s w1))))
        as (w & -> & Hlog').
      exists (pred <$> demand s), w, 1%nat. split; [|split].
      * rewrite portal_results_last by done. cbn. unfold channel_closed in Hgone.
        unfold put. cbn. destruct (demand s) as [[|n]|]; cbn; rewrite ?take_nil; done.
      * cbn [with_rows with_world world] in Hlog'. by rewrite Hlog', Hlog, <- !(assoc_L app).
      * unfold enough_fuel. lia.
    + rewrite run_bind, run_send_rows. cbn [batch_rows has_more].
      pose proof (pushed_app (demand s) (map (decode d) (portal_rows (world s))) []) as Hpush.
      rewrite app_nil_r in Hpush. cbn [demand with_world].
      destruct (pushed (demand s) _) as [[l dem'] b]. rewrite andb_false_r.
      destruct (run_cleanup portal statement close_transaction (put l dem' (with_world s w1))) as (w & -> & Hlog').
      exists dem', w, 1%nat. split; [|split].
      * cbn [portal_results]. rewrite Hpush. by destruct b, dem' as [[|n]|]; cbn [within_demand until_error take]; rewrite app_nil_r.
      * cbn [put with_rows with_world world] in Hlog'. by rewrite Hlog', Hlog, <- !(assoc_L app).
      * unfold enough_fuel. lia.
Qed.

Lemma run_abandon {A C} (c : StreamConfig C) e s :
  close_statement_on_finish c = true → close_transaction_on_finish c = true →
  ∃ w, Prog.run (abandon_start (A := A) c e) s = (Err e, with_world s w)
  ∧ log w = log (world s) ++ [CCloseStatement (sc_stmt_name c) Orphan; CExtendedQuery "COMMIT" [] [] [] None Orphan].
Proof.
  intros Hc Ht. unfold abandon_start. rewrite Hc, Ht, run_pe_bind. unfold always.
  change (prog_bind ?p ?f) with (@mbind Prog _ _ _ f p). rewrite run_bind. unfold close_statement_best_effort.
  rewrite run_bind. destruct (run_best_effort KUnit (CCloseStatement (sc_stmt_name c)) s) as (r & w1 & -> & H1).
  cbn [Prog.run]. rewrite run_pe_bind. change (prog_bind ?p ?f) with (@mbind Prog _ _ _ f p). rewrite run_bind.
  destruct (run_commit (with_world s w1)) as (w2 & -> & H2). exists w2. split; [done|].
  cbn [world with_world] in H2. by rewrite H2, H1, <- (assoc_L app).
Qed.
End delivery.

(** C16: A stream that starts spawns exactly one task, for a positive batch size; given one unit
    of fuel per batch the task ends, having put into the channel the portal's rows in order,
    decoded, up to the first row that does not decode, the server's error or the last row the
    consumer wants; the last commands it sends close the portal, close the statement and commit.
    A stream that fails to start delivers nothing, spawns nothing and has already closed the
    statement and ended the transaction. *)
Theorem stream_delivers {W} `{PortalServer W} {B} (c : StreamConfig B) fuel (s s' : Shared W) r :
  close_statement_on_finish c = true → close_transaction_on_finish c = true →
  Prog.run (start_stream fuel c) s = (r, s') →
  delivered s' = delivered s
  ∧ match r with
    | Err _ => spawned s' = spawned s
      ∧ ∃ bind, log (world s') = log (world s) ++ bind
          ++ [CCloseStatement (sc_stmt_name c) Orphan; CExtendedQuery "COMMIT" [] [] [] None Orphan]
    | Ok _ => (0 < Z.of_nat (sc_batch_rows c) < 2 ^ 31)
      ∧ ∃ task portal, spawned s' = spawned s ++ [task]
        ∧ ∀ s1, let rows := portal_rows (world s1) in
          (enough_fuel (sc_batch_rows c) rows ≤ fuel)%nat →
          ∃ s2 k, Prog.run task s1 = (tt, s2)
          ∧ delivered s2 = delivered s1 ++ map (existT B)
              (within_demand (demand s1)
                 (until_error (portal_results (sc_decoder c) (sc_batch_rows c) rows (portal_fault (world s1)))))
          ∧ log (world s2) = log (world s1)
              ++ replicate k (CExecutePortal portal (Z.of_nat (sc_batch_rows c)) Orphan)
              ++ cleanup_commands portal (Some (sc_stmt_name c)) true
          ∧ (k ≤ enough_fuel (sc_batch_rows c) rows)%nat
    end.
Proof.
  intros Hcs Hct. unfold start_stream.
  assert (Habandon : ∀ e s0, delivered s0 = delivered s → spawned s0 = spawned s →
    ∀ bind, log (world s0) = log (world s) ++ bind →
    Prog.run (abandon_start (A := unit) c e) s0 = (r, s') →
    delivered s' = delivered s ∧ ∃ e, r = Err e ∧ spawned s' = spawned s
      ∧ ∃ bind, log (world s') = log (world s) ++ bind
          ++ [CCloseStatement (sc_stmt_name c) Orphan; CExtendedQuery "COMMIT" [] [] [] None Orphan]).
  { intros e s0 Hd Hs bind Hl. destruct (run_abandon (A := unit) c e s0 Hcs Hct) as (w & -> & Hlog).
    intros [= <- <-]. split; [done|]. exists e. split; [done|]. split; [done|]. exists bind.
    cbn. by rewrite Hlog, Hl, <- (assoc_L app). }
  destruct (Z.leb_spec (2 ^ 31) (Z.of_nat (sc_batch_rows c))) as [Hbig|Hbig].
  { intros Hrun. destruct (Habandon _ s eq_refl eq_refl [] (eq_sym (app_nil_r _)) Hrun) as (Hd & e & -> & Hrest). done. }
  destruct (Z.leb_spec (Z.of_nat (sc_batch_rows c)) 0) as [Hz|Hpos].
  { intros Hrun. destruct (Habandon _ s eq_refl eq_refl [] (eq_sym (app_nil_r _)) Hrun) as (Hd & e & -> & Hrest). done. }
  rewrite run_pe_bind. cbn.
  set (portal := "babar_stream_portal" ++ "_" ++ Text.dec (next_id s StreamNames)).
  match goal with |- context [serve ?cmd (world s)] => pose proof (law_log cmd (world s)) as Hlog; destruct (serve cmd (world s)) as [reply w] end.
  cbn in Hlog |- *.
  match goal with |- context [match ?x with Some _ => _ | None => _ end] => destruct x as [[u|e]|] end; cbn.
  - rewrite Hcs, Hct. intros [= <- <-]. cbn. split; [done|]. split; [lia|]. eexists _, portal. split; [done|].
    intros s1 Hfuel.
    destruct (run_drive_stream (sc_decoder c) (sc_batch_rows c) portal (Some (sc_stmt_name c)) true fuel s1)
      as (dem & w2 & k & Hrun & Hl & Hk); [lia|done|].
    exists (put (within_demand (demand s1) (until_error (portal_results (sc_decoder c) (sc_batch_rows c)
      (portal_rows (world s1)) (portal_fault (world s1))))) dem (with_world s1 w2)), k.
    split; [exact Hrun|]. by cbn.
  - intros Hrun.
    match type of Hrun with Prog.run _ ?s0 = _ => destruct (Habandon e s0 eq_refl eq_refl _ Hlog Hrun) as (Hd & e' & -> & Hrest) end.
    done.
  - intros Hrun.
    match type of Hrun with Prog.run _ ?s0 = _ => destruct (Habandon closed s0 eq_refl eq_refl _ Hlog Hrun) as (Hd & e' & -> & Hrest) end.
    done.
Qed.

(** ** A portal on a small server *)
Record toy_portal := mk_toy_portal { toy_rows : RawRows; toy_fault : option Error; toy_log : list Command }.

#[export] Instance toy_portal_connection : Connection toy_portal := λ c w,
  let log := toy_log w ++ [c Orphan] in
  match c Orphan with
  | CExecutePortal _ max _ =>
    let n := Z.to_nat max in
    (Some (RBatch (if (n <=? length (toy_rows w))%nat then Ok (mk_batch (take n (toy_rows w)) true)
                   else match toy_fault w with None => Ok (mk_batch (toy_rows w) false) | Some e => Err e end)),
     mk_toy_portal (drop n (toy_rows w)) (toy_fault w) log)
  | _ => (Some (RUnit (Ok tt)), mk_toy_portal (toy_rows w) (toy_fault w) log)
  end.

#[export] Program Instance toy_portal_server : PortalServer toy_portal :=
  {| portal_rows := toy_rows; portal_fault := toy_fault; log := toy_log |}.
Next Obligation. intros c w. unfold serve, toy_portal_connection. by destruct (c Orphan). Qed.
Next Obligation.
  intros portal max w Hmax. unfold serve, toy_portal_connection. rewrite Nat2Z.id. by destruct (_ <=? _)%nat.
Qed.

Definition toy_stream_config : StreamConfig Z :=
  mk_stream_config "babar_stream_stmt_0" [] [] (dec int4) 2 true true.
Definition toy_row (i : Z) : Slots := [Some (to_be_bytes 4 i)].
Definition toy_stream_state : Shared toy_portal :=
  new_session (mk_toy_portal (map toy_row [1; 2; 3; 4; 5]) (Some closed) []) true.

(** Five rows in batches of two before a server that fails: four rows and the error arrive, after
    three fetches. *)
Lemma stream_delivers_witness :
  let s' := (Prog.run (start_stream 3 toy_stream_config) toy_stream_state).2 in
  ∃ task s2, spawned s' = [task] ∧ Prog.run task s' = (tt, s2)
  ∧ delivered s2 = map (existT (P := λ B : Type, result Error B) Z) [Ok 1; Ok 2; Ok 3; Ok 4; Err closed].
Proof.
  intros s'.
  assert (Hok : Prog.run (start_stream 3 toy_stream_config) toy_stream_state = (Ok tt, s')).
  { rewrite (surjective_pairing (Prog.run _ _)). f_equal. }
  destruct (stream_delivers toy_stream_config 3 toy_stream_state s' (Ok tt) eq_refl eq_refl Hok)
    as (Hd & _ & task & portal & Hs & Htask).
  destruct (Htask s') as (s2 & k & Hrun & Hdel & _); [by apply Nat.leb_le|].
  exists task, s2. split; [exact Hs|]. split; [exact Hrun|]. rewrite Hdel. reflexivity.
Defined.
