(* ===== verification/Pool.v ===== *)
(** * The connection pool

    [crates/core/src/pool.rs], the pool proper: its configuration, [Pool::new], [acquire],
    [close], the return of a connection and the maintenance task.  What a checked-out connection
    does with its session is in [PoolScopes.v].

    A session is a number here.  An async function is a [PProg], a tree of indivisible
    operations: each critical section of the state's lock, each load and store of [closed], each
    reading of the clock, each await of a session.  Its unbounded loops are nodes of the tree, so
    no fuel is needed.  [act] lets one task perform one operation; a list of actions is an
    interleaving of any number of callers, with connections that fail, health checks that fail,
    futures dropped in the middle and time that passes.  The answers of the network are part of
    the action.

    A critical section reads the clock once. *)
From S2P Require Import Prelude Bytes Text Error.

Local Open Scope Z_scope.
Local Open Scope str_scope.

Definition HEALTHCHECK_PING_SQL : str := "SELECT 1".
Definition MAINTENANCE_INTERVAL : Z := 1000000000.
Definition DEFAULT_ACQUIRE_TIMEOUT : Z := 30 * 1000000000.

(** ** Configuration

    A [Duration] is a number of nanoseconds. *)
Inductive HealthCheck := NoCheck | Ping | ResetQuery (sql : str).

Record PoolConfig := mk_pool_config {
  min_idle : nat;
  max_size : nat;
  acquire_timeout : Z;
  idle_timeout : option Z;
  max_lifetime : option Z;
  health_check : HealthCheck;
}.

Definition PoolConfig_default : PoolConfig := mk_pool_config 0 16 DEFAULT_ACQUIRE_TIMEOUT None None NoCheck.

Definition with_min_idle (n : nat) (c : PoolConfig) : PoolConfig :=
  mk_pool_config n (max_size c) (acquire_timeout c) (idle_timeout c) (max_lifetime c) (health_check c).
Definition with_max_size (n : nat) (c : PoolConfig) : PoolConfig :=
  mk_pool_config (min_idle c) n (acquire_timeout c) (idle_timeout c) (max_lifetime c) (health_check c).
Definition with_acquire_timeout (d : Z) (c : PoolConfig) : PoolConfig :=
  mk_pool_config (min_idle c) (max_size c) d (idle_timeout c) (max_lifetime c) (health_check c).
Definition with_idle_timeout (d : Z) (c : PoolConfig) : PoolConfig :=
  mk_pool_config (min_idle c) (max_size c) (acquire_timeout c) (Some d) (max_lifetime c) (health_check c).
Definition with_max_lifetime (d : Z) (c : PoolConfig) : PoolConfig :=
  mk_pool_config (min_idle c) (max_size c) (acquire_timeout c) (idle_timeout c) (Some d) (health_check c).
Definition with_health_check (h : HealthCheck) (c : PoolConfig) : PoolConfig :=
  mk_pool_config (min_idle c) (max_size c) (acquire_timeout c) (idle_timeout c) (max_lifetime c) h.

Definition is_zero (d : option Z) : bool := match d with Some d => d =? 0 | None => false end.

Definition pool_validate (c : PoolConfig) : result Error unit :=
  if (max_size c =? 0)%nat then Err (Error.Config "pool max_size must be greater than zero")
  else if (max_size c <? min_idle c)%nat then Err (Error.Config "pool min_idle cannot be greater than max_size")
  else if acquire_timeout c =? 0 then Err (Error.Config "pool acquire_timeout must be greater than zero")
  else if is_zero (idle_timeout c) then Err (Error.Config "pool idle_timeout must be greater than zero")
  else if is_zero (max_lifetime c) then Err (Error.Config "pool max_lifetime must be greater than zero")
  else Ok tt.

Inductive PoolError := Timeout | PoolClosed | AcquireFailed (e : Error).

Definition PoolError_display (e : PoolError) : str :=
  match e with
  | Timeout => "pool acquire timed out"
  | PoolClosed => "pool is closed"
  | AcquireFailed e => "pool acquire failed: " ++ Error_display e
  end.

(** ** State *)
Abbreviation SessionId := nat.

Record IdleSession := mk_idle { idle_session : SessionId; idle_created_at : Z; idle_since : Z }.

Record PoolState := mk_pool_state { total : nat; idle : list IdleSession }.
Definition PoolState_default : PoolState := mk_pool_state 0 [].

(** A checked-out connection; [broken] is the flag its handles share. *)
Record PoolConnection := mk_connection { conn_session : SessionId; conn_created_at : Z; conn_broken : bool }.

(** *** The critical sections *)
Definition pop_idle (s : PoolState) : option IdleSession * PoolState :=
  match idle s with [] => (None, s) | i :: l => (Some i, mk_pool_state (total s) l) end.

Definition reserve_slot (c : PoolConfig) (s : PoolState) : bool * PoolState :=
  if (max_size c <=? total s)%nat then (false, s) else (true, mk_pool_state (S (total s)) (idle s)).

Definition free_slot (s : PoolState) : PoolState := mk_pool_state (total s - 1) (idle s).

Definition reserve_min_idle (c : PoolConfig) (closed : bool) (s : PoolState) : bool * PoolState :=
  let target := Nat.min (min_idle c) (max_size c) in
  if closed || (target <=? length (idle s))%nat || (max_size c <=? total s)%nat then (false, s)
  else (true, mk_pool_state (S (total s)) (idle s)).

Definition store_idle (i : IdleSession) (closed : bool) (s : PoolState) : bool * PoolState :=
  if closed then (false, mk_pool_state (total s - 1) (idle s))
  else (true, mk_pool_state (total s) (idle s ++ [i])).

Definition drain_idle (s : PoolState) : list SessionId * PoolState :=
  (map idle_session (idle s), mk_pool_state (total s - length (idle s)) []).

Definition outlived (limit : option Z) (since now : Z) : bool :=
  match limit with Some d => d <=? Z.max 0 (now - since) | None => false end.

Definition expired_at (c : PoolConfig) (now : Z) (i : IdleSession) : bool :=
  outlived (idle_timeout c) (idle_since i) now || outlived (max_lifetime c) (idle_created_at i) now.

Fixpoint take_expired (c : PoolConfig) (now : Z) (n : nat) (l : list IdleSession)
  : list SessionId * nat * list IdleSession :=
  match l with
  | [] => ([], n, [])
  | i :: l =>
    if expired_at c now i then
      let '(gone, n, keep) := take_expired c now (n - 1) l in (idle_session i :: gone, n, keep)
    else let '(gone, n, keep) := take_expired c now n l in (gone, n, i :: keep)
  end.

(** ** Programs *)
Inductive PoolOp : Type → Type :=
  | LoadClosed : PoolOp bool
  | StoreClosed : PoolOp unit
  | Now : PoolOp Z
  | NotifyOne : PoolOp unit
  | NotifyWaiters : PoolOp unit
  | Notified (until : Z) : PoolOp bool
  | TakeIdle : PoolOp (option IdleSession)
  | ReserveSlot : PoolOp bool
  | FreeSlot : PoolOp unit
  | ReserveMinIdle : PoolOp bool
  | StoreIdle (i : IdleSession) : PoolOp bool
  | TakeExpired : PoolOp (list SessionId)
  | DrainIdle : PoolOp (list SessionId)
  | Connect : PoolOp (result Error SessionId)
  | SimpleQuery (s : SessionId) (sql : str) : PoolOp (result Error unit)
  | TransactionStatus (s : SessionId) : PoolOp byte
  | RollbackSession (s : SessionId) : PoolOp (result Error unit)
  | CloseSession (s : SessionId) : PoolOp unit
  | DropSession (s : SessionId) : PoolOp unit
  | Sleep (until : Z) : PoolOp unit
  | Upgrade : PoolOp bool.

Inductive PProg (A : Type) : Type :=
  | PRet (a : A)
  | PDo {X} (o : PoolOp X) (k : X → PProg A)
  | PIter {S B} (body : S → PProg (S + B)) (s : S) (k : B → PProg A)
  | PSpawn (p : PProg unit) (k : PProg A).
Arguments PRet {A}. Arguments PDo {A X}. Arguments PIter {A S B}. Arguments PSpawn {A}.

Fixpoint pprog_bind {A B} (p : PProg A) : (A → PProg B) → PProg B :=
  match p with
  | PRet a => λ f, f a
  | PDo o k => λ f, PDo o (λ x, pprog_bind (k x) f)
  | PIter body s k => λ f, PIter body s (λ b, pprog_bind (k b) f)
  | PSpawn q k => λ f, PSpawn q (pprog_bind k f)
  end.
#[export] Instance pprog_ret : MRet PProg := λ A a, PRet a.
#[export] Instance pprog_mbind : MBind PProg := λ A B f p, pprog_bind p f.

Definition op {X} (o : PoolOp X) : PProg X := PDo o PRet.
Definition loop {B} (body : PProg (unit + B)) : PProg B := PIter (λ _ : unit, body) tt PRet.
Definition continue {B} : PProg (unit + B) := PRet (inl tt).
Definition break {B} (b : B) : PProg (unit + B) := PRet (inr b).

Section programs.
Context (c : PoolConfig).

Definition release_slot : PProg unit := _ ← op FreeSlot; op NotifyWaiters.
Definition discard (s : SessionId) : PProg unit := _ ← release_slot; op (DropSession s).

Definition elapsed_beyond (limit : option Z) (since : Z) : PProg bool :=
  match limit with
  | Some d => now ← op Now; mret (d <=? Z.max 0 (now - since))
  | None => mret false
  end.
Definition is_expired (i : IdleSession) : PProg bool :=
  stale ← elapsed_beyond (idle_timeout c) (idle_since i);
  if stale : bool then mret true else elapsed_beyond (max_lifetime c) (idle_created_at i).

Definition run_health_check (s : SessionId) : PProg (result Error unit) :=
  match health_check c with
  | NoCheck => mret (Ok tt)
  | Ping => op (SimpleQuery s HEALTHCHECK_PING_SQL)
  | ResetQuery sql => op (SimpleQuery s sql)
  end.

Definition acquire_once (deadline : Z) : PProg (unit + result PoolError PoolConnection) :=
  closed ← op LoadClosed;
  if closed : bool then break (Err PoolClosed)
  else
    taken ← op TakeIdle;
    match taken with
    | Some i =>
      stale ← is_expired i;
      if stale : bool then _ ← discard (idle_session i); continue
      else
        healthy ← run_health_check (idle_session i);
        match healthy with
        | Err e =>
          _ ← discard (idle_session i);
          now ← op Now;
          if deadline <=? now then break (Err (AcquireFailed e)) else continue
        | Ok _ => break (Ok (mk_connection (idle_session i) (idle_created_at i) false))
        end
    | None =>
      reserved ← op ReserveSlot;
      if reserved : bool then
        opened ← op Connect;
        match opened with
        | Ok s => now ← op Now; break (Ok (mk_connection s now false))
        | Err e => _ ← release_slot; break (Err (AcquireFailed e))
        end
      else
        now ← op Now;
        if deadline <=? now then break (Err Timeout)
        else
          woken ← op (Notified deadline);
          if woken : bool then continue else break (Err Timeout)
    end.

Definition acquire : PProg (result PoolError PoolConnection) :=
  now ← op Now; loop (acquire_once (now + acquire_timeout c)).

Definition return_idle (s : SessionId) (created_at : Z) (should_discard : bool) : PProg unit :=
  if should_discard then discard s
  else
    now ← op Now;
    let i := mk_idle s created_at now in
    stale ← is_expired i;
    if stale : bool then discard s
    else
      stored ← op (StoreIdle i);
      if stored : bool then op NotifyOne
      else _ ← op NotifyWaiters; op (DropSession s).

Definition recycle (s : SessionId) (created_at : Z) (broken : bool) : PProg unit :=
  dropped ← (if broken then mret true else op LoadClosed);
  dropped ← (if dropped : bool then mret true
             else
               status ← op (TransactionStatus s);
               if bool_decide (status = "I"%byte) then mret false
               else
                 rolled_back ← op (RollbackSession s);
                 mret (match rolled_back with Ok _ => false | Err _ => true end));
  return_idle s created_at dropped.

Definition ensure_min_idle : PProg (result Error unit) :=
  loop (should_create ← op ReserveMinIdle;
        if negb should_create then break (Ok tt)
        else
          opened ← op Connect;
          match opened with
          | Ok s => now ← op Now; _ ← return_idle s now false; continue
          | Err e => _ ← release_slot; break (Err e)
          end).

Fixpoint each (f : SessionId → PoolOp unit) (l : list SessionId) : PProg unit :=
  match l with [] => mret tt | s :: l => _ ← op (f s); each f l end.

Definition maintenance_tick : PProg unit :=
  expired ← op TakeExpired;
  _ ← each DropSession expired;
  _ ← ensure_min_idle;
  mret tt.

Definition maintenance : PProg unit :=
  loop (now ← op Now;
        _ ← op (Sleep (now + MAINTENANCE_INTERVAL));
        alive ← op Upgrade;
        if negb alive then break tt
        else
          closed ← op LoadClosed;
          if closed : bool then break tt else _ ← maintenance_tick; continue).

Definition pool_close : PProg unit :=
  _ ← op StoreClosed;
  _ ← op NotifyWaiters;
  sessions ← op DrainIdle;
  each CloseSession sessions.

Definition pool_new : PProg (result Error unit) :=
  match pool_validate c with
  | Err e => mret (Err e)
  | Ok _ =>
    warmed ← ensure_min_idle;
    match warmed with
    | Err e => mret (Err e)
    | Ok _ => PSpawn maintenance (mret (Ok tt))
    end
  end.

End programs.

(** ** Execution

    What the tasks share, and the sessions behind it: which are open, what transaction status
    each would report, and whose connection has been flagged as broken.  [permit], [waiters] and
    [woken] are tokio's [Notify]: [notify_one] wakes the first waiter or else leaves one permit,
    [notify_waiters] wakes the tasks that wait now and leaves nothing.  A wake-up remembers
    whether it came from [notify_one], because a future dropped with such a wake-up passes it
    on. *)
Record World := mk_world {
  pstate : PoolState;
  closed : bool;
  clock : Z;
  permit : bool;
  waiters : list nat;
  woken : list (nat * bool);
  open_sessions : list SessionId;
  next_session : SessionId;
  status : SessionId → byte;
  flagged : SessionId → bool;
}.

(** What the environment answers to the operation performed. *)
Record Answer := mk_answer { succeeds : result Error unit; status_after : byte; pool_alive : bool }.

Definition with_state (p : PoolState) (w : World) : World :=
  mk_world p (closed w) (clock w) (permit w) (waiters w) (woken w) (open_sessions w) (next_session w) (status w) (flagged w).
Definition with_notify (b : bool) (ws : list nat) (wk : list (nat * bool)) (w : World) : World :=
  mk_world (pstate w) (closed w) (clock w) b ws wk (open_sessions w) (next_session w) (status w) (flagged w).
Definition with_sessions (l : list SessionId) (n : SessionId) (st : SessionId → byte) (fl : SessionId → bool) (w : World) : World :=
  mk_world (pstate w) (closed w) (clock w) (permit w) (waiters w) (woken w) l n st fl.
Definition set_at {A} (s : SessionId) (a : A) (f : SessionId → A) : SessionId → A := λ s', if decide (s' = s) then a else f s'.

Definition drop_waiter (i : nat) (l : list nat) : list nat := filter (λ j, j ≠ i) l.
Definition drop_woken (i : nat) (l : list (nat * bool)) : list (nat * bool) := filter (λ p, p.1 ≠ i) l.

Definition notify_one (w : World) : World :=
  match waiters w with
  | [] => with_notify true [] (woken w) w
  | j :: l => with_notify (permit w) l (woken w ++ [(j, true)]) w
  end.
Definition notify_waiters (w : World) : World :=
  with_notify (permit w) [] (woken w ++ map (λ j, (j, false)) (waiters w)) w.

(** The future of task [i] is dropped while it waits. *)
Definition drop_notified (i : nat) (w : World) : World :=
  let w' := with_notify (permit w) (drop_waiter i (waiters w)) (drop_woken i (woken w)) w in
  if bool_decide ((i, true) ∈ woken w) then notify_one w' else w'.

Definition end_session (s : SessionId) (w : World) : World :=
  with_sessions (filter (λ s', s' ≠ s) (open_sessions w)) (next_session w) (status w) (flagged w) w.

(** One operation of task [i]; no result while it has to wait. *)
Definition perform (c : PoolConfig) (i : nat) (a : Answer) {X} (o : PoolOp X) (w : World) : option X * World :=
  match o in PoolOp X return option X * World with
  | LoadClosed => (Some (closed w), w)
  | StoreClosed =>
    (Some tt, mk_world (pstate w) true (clock w) (permit w) (waiters w) (woken w) (open_sessions w)
                (next_session w) (status w) (flagged w))
  | Now => (Some (clock w), w)
  | NotifyOne => (Some tt, notify_one w)
  | NotifyWaiters => (Some tt, notify_waiters w)
  | Notified until =>
    if bool_decide (i ∈ map fst (woken w)) then (Some true, with_notify (permit w) (waiters w) (drop_woken i (woken w)) w)
    else if bool_decide (i ∈ waiters w) then
      if until <=? clock w then (Some false, with_notify (permit w) (drop_waiter i (waiters w)) (woken w) w)
      else (None, w)
    else if permit w then (Some true, with_notify false (waiters w) (woken w) w)
    else (None, with_notify false (waiters w ++ [i]) (woken w) w)
  | TakeIdle => let '(x, p) := pop_idle (pstate w) in (Some x, with_state p w)
  | ReserveSlot => let '(x, p) := reserve_slot c (pstate w) in (Some x, with_state p w)
  | FreeSlot => (Some tt, with_state (free_slot (pstate w)) w)
  | ReserveMinIdle => let '(x, p) := reserve_min_idle c (closed w) (pstate w) in (Some x, with_state p w)
  | StoreIdle idle => let '(x, p) := store_idle idle (closed w) (pstate w) in (Some x, with_state p w)
  | TakeExpired =>
    let '(gone, n, keep) := take_expired c (clock w) (total (pstate w)) (idle (pstate w)) in
    (Some gone, with_state (mk_pool_state n keep) w)
  | DrainIdle => let '(x, p) := drain_idle (pstate w) in (Some x, with_state p w)
  | Connect =>
    match succeeds a with
    | Err e => (Some (Err e), w)
    | Ok _ =>
      let s := next_session w in
      (Some (Ok s), with_sessions (open_sessions w ++ [s]) (S s) (set_at s "I"%byte (status w)) (set_at s false (flagged w)) w)
    end
  | SimpleQuery s sql =>
    (Some (succeeds a), with_sessions (open_sessions w) (next_session w) (set_at s (status_after a) (status w)) (flagged w) w)
  | TransactionStatus s => (Some (status w s), w)
  | RollbackSession s =>
    (Some (succeeds a),
     match succeeds a with
     | Ok _ => with_sessions (open_sessions w) (next_session w) (set_at s "I"%byte (status w)) (flagged w) w
     | Err _ => w
     end)
  | CloseSession s => (Some tt, end_session s w)
  | DropSession s => (Some tt, end_session s w)
  | Sleep until => if until <=? clock w then (Some tt, w) else (None, w)
  | Upgrade => (Some (pool_alive a), w)
  end.

Inductive Outcome := Acquired (r : result PoolError PoolConnection) | Finished.

Record Pool := mk_pool {
  shared : World;
  tasks : list (option (PProg Outcome));
  checked_out : list PoolConnection;
  refused : list PoolError;
}.

(** [ACancel] drops a future in the middle; a session it held closes itself some time later,
    which is not followed here. *)
Inductive Action :=
  | AAcquire
  | AClose
  | ATurn (i : nat) (a : Answer)
  | AUse (j : nat) (st : byte) (breaks : bool)
  | ADrop (j : nat)
  | ACancel (i : nat)
  | ATick (d : N).

Definition finishing {A} (p : PProg A) : PProg Outcome := p ≫= λ _, PRet Finished.
Definition acquiring (c : PoolConfig) : PProg Outcome := acquire c ≫= λ r, PRet (Acquired r).

Definition start (p : PProg Outcome) (σ : Pool) : Pool :=
  mk_pool (shared σ) (tasks σ ++ [Some p]) (checked_out σ) (refused σ).
Definition settle (i : nat) (t : option (PProg Outcome)) (σ : Pool) : Pool :=
  mk_pool (shared σ) (<[i := t]> (tasks σ)) (checked_out σ) (refused σ).
Definition with_shared (w : World) (σ : Pool) : Pool := mk_pool w (tasks σ) (checked_out σ) (refused σ).
Definition receive (o : Outcome) (σ : Pool) : Pool :=
  match o with
  | Acquired (Ok conn) => mk_pool (shared σ) (tasks σ) (checked_out σ ++ [conn]) (refused σ)
  | Acquired (Err e) => mk_pool (shared σ) (tasks σ) (checked_out σ) (refused σ ++ [e])
  | Finished => σ
  end.

Definition turn (c : PoolConfig) (i : nat) (a : Answer) (σ : Pool) : Pool :=
  match tasks σ !! i with
  | Some (Some p) =>
    match p with
    | PRet o => receive o (settle i None σ)
    | PDo o k =>
      let '(x, w) := perform c i a o (shared σ) in
      match x with Some x => settle i (Some (k x)) (with_shared w σ) | None => with_shared w σ end
    | PIter body s k =>
      settle i (Some (body s ≫= λ r, match r with inl s => PIter body s k | inr b => k b end)) σ
    | PSpawn q k => start (finishing q) (settle i (Some k) σ)
    end
  | _ => σ
  end.

Definition act (c : PoolConfig) (x : Action) (σ : Pool) : Pool :=
  match x with
  | AAcquire => start (acquiring c) σ
  | AClose => start (finishing pool_close) σ
  | ATurn i a => turn c i a σ
  | AUse j st breaks =>
    match checked_out σ !! j with
    | Some conn =>
      let s := conn_session conn in
      let w := shared σ in
      mk_pool (with_sessions (open_sessions w) (next_session w) (set_at s st (status w))
                 (set_at s (flagged w s || breaks) (flagged w)) w)
        (tasks σ) (<[j := mk_connection s (conn_created_at conn) (conn_broken conn || breaks)]> (checked_out σ)) (refused σ)
    | None => σ
    end
  | ADrop j =>
    match checked_out σ !! j with
    | Some conn =>
      start (finishing (recycle c (conn_session conn) (conn_created_at conn) (conn_broken conn)))
        (mk_pool (shared σ) (tasks σ) (delete j (checked_out σ)) (refused σ))
    | None => σ
    end
  | ACancel i => settle i None (with_shared (drop_notified i (shared σ)) σ)
  | ATick d =>
    let w := shared σ in
    with_shared (mk_world (pstate w) (closed w) (clock w + Z.of_N d) (permit w) (waiters w) (woken w)
                   (open_sessions w) (next_session w) (status w) (flagged w)) σ
  end.

Definition acts (c : PoolConfig) (l : list Action) (σ : Pool) : Pool := foldl (λ σ x, act c x σ) σ l.

(** A pool on which [Pool::new] has just been called. *)
Definition new_pool (c : PoolConfig) : Pool :=
  mk_pool (mk_world PoolState_default false 0 false [] [] [] 0 (λ _, "I"%byte) (λ _, false))
    [Some (finishing (pool_new c))] [] [].

(** ** The protocol

    What a task owns: slots counted in [total], and sessions, each with what is known of it. *)
Inductive Condition := Fit | Unchecked | Broken.
Record Hold := mk_hold { slots : nat; held : list (SessionId * Condition) }.
Definition nothing : Hold := mk_hold 0 [].

Fixpoint let_go (s : SessionId) (l : list (SessionId * Condition)) : list (SessionId * Condition) :=
  match l with [] => [] | (s', q) :: l => if decide (s' = s) then l else (s', q) :: let_go s l end.
Fixpoint reassess (s : SessionId) (f : Condition → Condition) (l : list (SessionId * Condition)) : list (SessionId * Condition) :=
  match l with [] => [] | (s', q) :: l => if decide (s' = s) then (s', f q) :: l else (s', q) :: reassess s f l end.

Definition cleared (q : Condition) : Condition := match q with Broken => Broken | _ => Fit end.
Definition doubted (q : Condition) : Condition := match q with Broken => Broken | _ => Unchecked end.

(** When a task may perform an operation. *)
Definition allowed {X} (o : PoolOp X) (h : Hold) : Prop :=
  match o with
  | FreeSlot => (0 < slots h)%nat
  | StoreIdle i => (0 < slots h)%nat ∧ (idle_session i, Fit) ∈ held h
  | CloseSession s | DropSession s | SimpleQuery s _ | TransactionStatus s | RollbackSession s => s ∈ map fst (held h)
  | _ => True
  end.

(** What it owns afterwards. *)
Definition owning {X} (o : PoolOp X) : X → Hold → Hold :=
  match o in PoolOp X return X → Hold → Hold with
  | TakeIdle => λ x h, match x with
                       | Some i => mk_hold (S (slots h)) ((idle_session i, Fit) :: held h)
                       | None => h
                       end
  | ReserveSlot => λ x h, if x : bool then mk_hold (S (slots h)) (held h) else h
  | ReserveMinIdle => λ x h, if x : bool then mk_hold (S (slots h)) (held h) else h
  | FreeSlot => λ _ h, mk_hold (pred (slots h)) (held h)
  | StoreIdle i => λ x h, mk_hold (pred (slots h)) (if x : bool then let_go (idle_session i) (held h) else held h)
  | TakeExpired => λ x h, mk_hold (slots h) (map (λ s, (s, Fit)) x ++ held h)
  | DrainIdle => λ x h, mk_hold (slots h) (map (λ s, (s, Fit)) x ++ held h)
  | Connect => λ x h, match x with Ok s => mk_hold (slots h) ((s, Fit) :: held h) | Err _ => h end
  | SimpleQuery s _ => λ _ h, mk_hold (slots h) (reassess s doubted (held h))
  | TransactionStatus s => λ x h, mk_hold (slots h) (if bool_decide (x = "I"%byte) then reassess s cleared (held h) else held h)
  | RollbackSession s => λ x h, mk_hold (slots h) (match x with Ok _ => reassess s cleared (held h) | Err _ => held h end)
  | CloseSession s => λ _ h, mk_hold (slots h) (let_go s (held h))
  | DropSession s => λ _ h, mk_hold (slots h) (let_go s (held h))
  | _ => λ _ h, h
  end.

(** A program keeps to the protocol from [h], and ends as [Q] says; a loop has an invariant. *)
Fixpoint follows {A} (p : PProg A) : (A → Hold → Prop) → Hold → Prop :=
  match p with
  | PRet a => λ Q h, Q a h
  | PDo o k => λ Q h, allowed o h ∧ ∀ x, follows (k x) Q (owning o x h)
  | PIter body s k => λ Q h, ∃ I : _ → Hold → Prop, I s h ∧
      ∀ s h, I s h → follows (body s) (λ r h, match r with inl s => I s h | inr b => follows (k b) Q h end) h
  | PSpawn q k => λ Q h, follows q (λ _ h, h = nothing) nothing ∧ follows k Q h
  end.

Lemma keeps_to_mono {A} (p : PProg A) (Q Q' : A → Hold → Prop) h :
  (∀ a h, Q a h → Q' a h) → follows p Q h → follows p Q' h.
Proof.
  revert Q Q' h. induction p as [A a|A X o k IH|A S B body IHb s k IH|A q _ k IH]; cbn; intros Q Q' h HQ; [auto| | |].
  - intros [Hok Hk]. split; [done|]. intros x. by eapply IH.
  - intros (I & Hs & Hstep). exists I. split; [done|]. intros s' h' Hs'.
    eapply IHb; [|by apply Hstep]. intros [s2|b] h2; cbn; [done|]. intros Hb. by eapply IH.
  - intros [Hq Hk]. split; [done|]. by eapply IH.
Qed.

Lemma keeps_to_bind {A B} (p : PProg A) (f : A → PProg B) Q h :
  follows p (λ a h, follows (f a) Q h) h → follows (p ≫= f) Q h.
Proof.
  unfold mbind, pprog_mbind. revert B f Q h.
  induction p as [A a|A X o k IH|A S C body _ s k IH|A q _ k IH]; cbn; intros B f Q h; [done| | |].
  - intros [Hok Hk]. split; [done|]. intros x. by apply IH.
  - intros (I & Hs & Hstep). exists I. split; [done|]. intros s' h' Hs'.
    eapply keeps_to_mono; [|by apply Hstep]. intros [s2|b] h2; cbn; [done|]. apply IH.
  - intros [Hq Hk]. split; [done|]. by apply IH.
Qed.

Lemma follows_ret {A} (a : A) (Q : A → Hold → Prop) h : Q a h → follows (mret a) Q h.
Proof. done. Qed.

Lemma follows_op {X} (o : PoolOp X) (Q : X → Hold → Prop) h :
  allowed o h → (∀ x, Q x (owning o x h)) → follows (op o) Q h.
Proof. intros Hok HQ. split; [exact Hok|]. intros x. apply HQ. Qed.

Lemma follows_loop {B} (body : PProg (unit + B)) (Q : B → Hold → Prop) h :
  follows body (λ r h', match r with inl _ => h' = h | inr b => Q b h' end) h → follows (loop body) Q h.
Proof.
  intros Hbody. exists (λ _ h', h' = h). split; [done|]. intros [] h' ->. eapply keeps_to_mono; [|exact Hbody].
  by intros [[]|b].
Qed.

Lemma let_go_head s q l : let_go s ((s, q) :: l) = l.
Proof. cbn. by rewrite decide_True. Qed.

Lemma reassess_head s q f l : reassess s f ((s, q) :: l) = (s, f q) :: l.
Proof. cbn. by rewrite decide_True. Qed.

(** One operation of a program, or the first part of a sequence. *)
Ltac next_op x :=
  repeat apply keeps_to_bind; apply follows_op; [cbn; first [done | lia | set_solver | split; [lia | set_solver]]|]; intros x;
  cbn [owning slots held pred]; rewrite ?let_go_head, ?reassess_head.

Section keeping.
Context (c : PoolConfig).

Lemma follows_discard n s q l (Q : unit → Hold → Prop) :
  Q tt (mk_hold n l) → follows (discard s) Q (mk_hold (S n) ((s, q) :: l)).
Proof. intros HQ. unfold discard, release_slot. next_op x. next_op y. next_op z. by destruct z. Qed.

Lemma follows_elapsed limit since (Q : bool → Hold → Prop) h : (∀ b, Q b h) → follows (elapsed_beyond limit since) Q h.
Proof. intros HQ. destruct limit as [d|]; cbn; auto. Qed.

Lemma follows_is_expired i (Q : bool → Hold → Prop) h : (∀ b, Q b h) → follows (is_expired c i) Q h.
Proof.
  intros HQ. unfold is_expired. apply keeps_to_bind, follows_elapsed. intros [|]; [apply HQ|]. by apply follows_elapsed.
Qed.

Lemma follows_health n s l (Q : result Error unit → Hold → Prop) :
  (∀ r q, q ≠ Broken → Q r (mk_hold n ((s, q) :: l))) →
  follows (run_health_check c s) Q (mk_hold n ((s, Fit) :: l)).
Proof.
  intros HQ. unfold run_health_check. destruct (health_check c) as [| |sql]; [by apply HQ| |]; next_op r; by apply HQ.
Qed.

(** What a caller of [acquire] gets. *)
Definition acquired (r : result PoolError PoolConnection) (h : Hold) : Prop :=
  match r with
  | Ok conn => conn_broken conn = false ∧ ∃ q, q ≠ Broken ∧ h = mk_hold 1 [(conn_session conn, q)]
  | Err _ => h = nothing
  end.

Lemma follows_acquire : follows (acquire c) acquired nothing.
Proof.
  unfold acquire. next_op t0. apply follows_loop. unfold acquire_once. next_op b. destruct b; [done|].
  next_op taken. destruct taken as [i|].
  - apply keeps_to_bind, follows_is_expired. intros [|].
    { apply keeps_to_bind, follows_discard. done. }
    apply keeps_to_bind, follows_health. intros [[]|e] q Hq.
    + split; [done|]. by exists q.
    + apply keeps_to_bind, follows_discard. next_op t. by destruct (_ <=? _).
  - next_op reserved. destruct reserved.
    + next_op opened. destruct opened as [s|e].
      * next_op t. split; [done|]. by exists Fit.
      * unfold release_slot. next_op x. by next_op y.
    + next_op t. destruct (_ <=? t); [done|]. next_op woke. by destruct woke.
Qed.

Lemma follows_return_idle n s q t b l (Q : unit → Hold → Prop) :
  (b = false → q = Fit) → Q tt (mk_hold n l) →
  follows (return_idle c s t b) Q (mk_hold (S n) ((s, q) :: l)).
Proof.
  intros Hq HQ. unfold return_idle. destruct b; [by apply follows_discard|]. rewrite Hq by done. next_op now.
  apply keeps_to_bind, follows_is_expired. intros [|]; [by apply follows_discard|].
  next_op stored. destruct stored; [next_op x; by destruct x|]. next_op x. next_op y. by destruct y.
Qed.

Lemma follows_recycle s t b :
  follows (recycle c s t b) (λ _ h, h = nothing) (mk_hold 1 [(s, if b then Broken else Unchecked)]).
Proof.
  unfold recycle. apply keeps_to_bind. destruct b.
  { apply follows_ret, keeps_to_bind, follows_ret. by apply follows_return_idle. }
  next_op dropped. destruct dropped; [by apply keeps_to_bind, follows_ret, follows_return_idle|].
  next_op st. case_bool_decide; [by apply follows_ret, follows_return_idle|].
  next_op r. apply follows_ret. destruct r as [u|e]; by apply follows_return_idle.
Qed.

Lemma follows_ensure h : follows (ensure_min_idle c) (λ _ h', h' = h) h.
Proof.
  unfold ensure_min_idle. apply follows_loop. next_op b. destruct b; cbn [negb]; [|by destruct h].
  next_op opened. destruct opened as [s|e].
  - next_op t. apply keeps_to_bind, follows_return_idle; [done|]. by destruct h.
  - unfold release_slot. next_op x. next_op y. by destruct h.
Qed.

Lemma follows_each f l n (Q : unit → Hold → Prop) :
  (∀ s, f s = CloseSession s ∨ f s = DropSession s) → Q tt (mk_hold n []) →
  follows (each f l) Q (mk_hold n (map (λ s, (s, Fit)) l)).
Proof.
  intros Hf HQ. induction l as [|s l IH]; cbn [each map]; [done|].
  destruct (Hf s) as [-> | ->]; next_op x; exact IH.
Qed.

Lemma follows_maintenance : follows (maintenance c) (λ _ h, h = nothing) nothing.
Proof.
  unfold maintenance. apply follows_loop. next_op t. next_op x. next_op alive. destruct alive; [|done]. cbn [negb].
  next_op b. destruct b; [done|]. unfold maintenance_tick. next_op gone. rewrite app_nil_r.
  apply keeps_to_bind, follows_each; [auto|]. apply keeps_to_bind.
  eapply keeps_to_mono; [|apply follows_ensure]. by intros r h ->.
Qed.

Lemma follows_close : follows pool_close (λ _ h, h = nothing) nothing.
Proof.
  unfold pool_close. next_op x. next_op y. next_op gone. rewrite app_nil_r. apply follows_each; auto.
Qed.

Lemma follows_new : follows (pool_new c) (λ _ h, h = nothing) nothing.
Proof.
  unfold pool_new. destruct (pool_validate c) as [u|e]; [|done]. apply keeps_to_bind.
  eapply keeps_to_mono; [|apply follows_ensure]. intros [v|e] h ->; [|done]. split; [apply follows_maintenance|done].
Qed.
End keeping.

(** ** The invariant *)

(** What being in a condition means. *)
Definition condition (w : World) (e : SessionId * Condition) : Prop :=
  match e.2 with
  | Fit => status w e.1 = "I"%byte ∧ flagged w e.1 = false
  | Unchecked => flagged w e.1 = false
  | Broken => True
  end.

Definition shelved (i : IdleSession) : SessionId * Condition := (idle_session i, Fit).
Definition lent (conn : PoolConnection) : SessionId * Condition :=
  (conn_session conn, if conn_broken conn then Broken else Unchecked).

(** The books of a pool: [h] is what one task owns, [n] and [rest] the slots and sessions owned
    elsewhere.  Every slot and every open session has exactly one owner. *)
Record balanced (c : PoolConfig) (w : World) (h : Hold) (n : nat) (rest : list (SessionId * Condition)) : Prop := {
  bal_total : total (pstate w) = (length (idle (pstate w)) + slots h + n)%nat;
  bal_max : (total (pstate w) ≤ max_size c)%nat;
  bal_open : open_sessions w ≡ₚ map fst (map shelved (idle (pstate w)) ++ held h ++ rest);
  bal_nodup : NoDup (open_sessions w);
  bal_fresh : Forall (λ s, s < next_session w)%nat (open_sessions w);
  bal_fit : Forall (condition w) (map shelved (idle (pstate w)) ++ held h ++ rest);
}.

Lemma let_go_perm s l : s ∈ map fst l → ∃ q, l ≡ₚ (s, q) :: let_go s l.
Proof.
  induction l as [|[s' q] l IH]; cbn; [by intros ?%elem_of_nil|]. intros Hs.
  destruct (decide (s' = s)) as [->|Hne]; [by exists q|].
  destruct IH as (q' & Hperm); [set_solver|]. exists q'. rewrite Hperm at 1. apply Permutation_swap.
Qed.

Lemma let_go_same s q l : (s, q) ∈ l → NoDup (map fst l) → l ≡ₚ (s, q) :: let_go s l.
Proof.
  intros Hin Hnd. destruct (let_go_perm s l) as (q' & Hperm).
  { apply list_elem_of_fmap. by exists (s, q). }
  rewrite Hperm in Hin, Hnd. apply NoDup_cons in Hnd as [Hs _].
  apply elem_of_cons in Hin as [[= ->]|Hin]; [done|]. destruct Hs. apply list_elem_of_fmap. by exists (s, q).
Qed.

Lemma reassess_fst s f l : map fst (reassess s f l) = map fst l.
Proof. induction l as [|[s' q] l IH]; cbn; [done|]. case_decide; cbn; by rewrite ?IH. Qed.

Lemma condition_elsewhere w w' s l : s ∉ map fst l →
  (∀ s', s' ≠ s → status w' s' = status w s' ∧ flagged w' s' = flagged w s') →
  Forall (condition w) l → Forall (condition w') l.
Proof.
  intros Hs Hsame Hl. apply Forall_forall. intros [s' q] Hin. rewrite Forall_forall in Hl.
  specialize (Hl _ Hin). unfold condition in *. cbn in *. destruct (Hsame s') as [-> ->]; [|done].
  intros ->. apply Hs, list_elem_of_fmap. by exists (s, q).
Qed.

Lemma condition_reassess w w' s f l : NoDup (map fst l) →
  (∀ s', s' ≠ s → status w' s' = status w s' ∧ flagged w' s' = flagged w s') →
  (∀ q, condition w (s, q) → condition w' (s, f q)) →
  Forall (condition w) l → Forall (condition w') (reassess s f l).
Proof.
  intros Hnd Hsame Hf. induction l as [|[s' q] l IH]; cbn; [done|]. cbn in Hnd. apply NoDup_cons in Hnd as [Hs Hnd].
  rewrite Forall_cons. intros [Hq Hl]. case_decide as Heq.
  - subst s'. constructor; [by apply Hf|]. by eapply condition_elsewhere.
  - constructor; [|by apply IH]. unfold condition in *. cbn in *. by destruct (Hsame s') as [-> ->].
Qed.

Lemma filter_other s (l : list SessionId) : s ∉ l → filter (λ s', s' ≠ s) l = l.
Proof. intros Hs. induction l as [|s' l IH]; [done|]. rewrite filter_cons_True by set_solver. rewrite IH; set_solver. Qed.

Section books.
Context (c : PoolConfig) (i : nat) (a : Answer).
Implicit Types (w : World) (h : Hold).

(** The owned sessions are all different. *)
Lemma balanced_nodup w h n rest : balanced c w h n rest → NoDup (map fst (map shelved (idle (pstate w)) ++ held h ++ rest)).
Proof. intros Hb. rewrite <- (bal_open _ _ _ _ _ Hb). apply (bal_nodup _ _ _ _ _ Hb). Qed.

(** Only the parts that matter to the books. *)
Lemma balanced_same w w' h n rest :
  pstate w' = pstate w → open_sessions w' = open_sessions w → next_session w' = next_session w →
  status w' = status w → flagged w' = flagged w → balanced c w h n rest → balanced c w' h n rest.
Proof.
  intros E1 E2 E3 E4 E5 []. split; rewrite ?E1, ?E2, ?E3; try done.
  eapply Forall_impl; [done|]. intros [s q]. unfold condition. by rewrite E4, E5.
Qed.

Lemma balanced_end w h n rest s : s ∈ map fst (held h) → balanced c w h n rest →
  balanced c (end_session s w) (mk_hold (slots h) (let_go s (held h))) n rest.
Proof.
  intros Hs Hb. pose proof (balanced_nodup _ _ _ _ Hb) as Hnd. destruct Hb as [Ht Hm Ho Hn Hf Hc].
  destruct (let_go_perm s (held h) Hs) as (q & Hperm). rewrite Hperm in Ho, Hnd, Hc.
  assert (Hfront : ∀ l1 l2 l3 : list (SessionId * Condition), l1 ++ ((s, q) :: l2) ++ l3 ≡ₚ (s, q) :: l1 ++ l2 ++ l3).
  { intros. symmetry. apply Permutation_middle. }
  rewrite Hfront in Ho, Hnd, Hc. cbn in Ho, Hnd. apply NoDup_cons in Hnd as [Hfresh Hnd]. apply Forall_cons in Hc as [_ Hc].
  split; cbn; [done|done| | | |done].
  - rewrite Ho, filter_cons_False, filter_other; [done|done|tauto].
  - by apply NoDup_filter.
  - rewrite Forall_forall in *. intros s' [_ Hs']%list_elem_of_filter. by apply Hf.
Qed.

(** What session [s] would report changes, and what the task knows about it. *)
Lemma balanced_status w w' h n rest s f : s ∈ map fst (held h) →
  pstate w' = pstate w → open_sessions w' = open_sessions w → next_session w' = next_session w →
  (∀ s', s' ≠ s → status w' s' = status w s' ∧ flagged w' s' = flagged w s') →
  (∀ q, condition w (s, q) → condition w' (s, f q)) →
  balanced c w h n rest → balanced c w' (mk_hold (slots h) (reassess s f (held h))) n rest.
Proof.
  intros Hs E1 E2 E3 Hsame Hf Hb. pose proof (balanced_nodup _ _ _ _ Hb) as Hnd. destruct Hb as [Ht Hm Ho Hn Hfr Hc].
  rewrite !map_app in Hnd. apply NoDup_app in Hnd as (Hn1 & Hd1 & Hnd). apply NoDup_app in Hnd as (Hn2 & Hd2 & Hn3).
  rewrite !Forall_app in Hc. destruct Hc as (Hc1 & Hc2 & Hc3).
  split; cbn; rewrite ?E1, ?E2, ?E3; try done.
  - rewrite Ho. by rewrite !map_app, reassess_fst.
  - rewrite !Forall_app. split; [|split].
    + eapply condition_elsewhere; [|exact Hsame|done]. intros Hin. apply (Hd1 s Hin). rewrite elem_of_app. by left.
    + by eapply condition_reassess.
    + eapply condition_elsewhere; [|exact Hsame|done]. intros Hin. by apply (Hd2 s Hs).
Qed.

(** Slots and sessions change hands together. *)
Lemma balanced_move w p h h' n rest :
  balanced c w h n rest →
  (total p + (length (idle (pstate w)) + slots h) = total (pstate w) + (length (idle p) + slots h'))%nat →
  (total p ≤ max_size c)%nat →
  map shelved (idle p) ++ held h' ≡ₚ map shelved (idle (pstate w)) ++ held h →
  balanced c (with_state p w) h' n rest.
Proof.
  intros [Ht Hm Ho Hn Hf Hc] Hslots Hmax Hperm.
  assert (Hall : map shelved (idle p) ++ held h' ++ rest ≡ₚ map shelved (idle (pstate w)) ++ held h ++ rest).
  { by rewrite !(assoc_L app), Hperm. }
  split; cbn; [lia|done|by rewrite Hall|done|done|]. rewrite Hall. eapply Forall_impl; [done|]. by intros [s q].
Qed.

Lemma take_expired_spec now n l :
  let '(gone, n', keep) := take_expired c now n l in
  n' = (n - length gone)%nat ∧ length l = (length gone + length keep)%nat
  ∧ map shelved l ≡ₚ map (λ s, (s, Fit)) gone ++ map shelved keep.
Proof.
  revert n. induction l as [|e l IH]; intros n; cbn; [split; [lia|done]|]. destruct (expired_at c now e).
  - specialize (IH (n - 1)%nat). destruct (take_expired c now (n - 1) l) as [[gone n'] keep]. cbn.
    destruct IH as (-> & -> & Hperm). split; [lia|]. split; [lia|]. by rewrite Hperm.
  - specialize (IH n). destruct (take_expired c now n l) as [[gone n'] keep]. cbn.
    destruct IH as (-> & -> & Hperm). split; [lia|]. split; [lia|]. rewrite Hperm. by rewrite Permutation_middle.
Qed.

Lemma perform_connect w h n rest : balanced c w h n rest →
  let s := next_session w in
  balanced c (with_sessions (open_sessions w ++ [s]) (S s) (set_at s "I"%byte (status w)) (set_at s false (flagged w)) w)
    (mk_hold (slots h) ((s, Fit) :: held h)) n rest.
Proof.
  intros [Ht Hm Ho Hn Hf Hc] s. assert (Hs : s ∉ open_sessions w).
  { intros Hin. rewrite Forall_forall in Hf. specialize (Hf _ Hin). unfold s in Hf. lia. }
  split; cbn; [done|done| | | |].
  - rewrite (Permutation_app_comm (open_sessions w)). cbn. by rewrite Ho, <- (Permutation_middle (map shelved _)).
  - apply NoDup_app. split; [done|]. split; [set_solver|]. apply NoDup_singleton.
  - apply Forall_app. split; [eapply Forall_impl; [exact Hf|]; cbn; lia|]. by constructor; [unfold s; lia|].
  - rewrite <- (Permutation_middle (map shelved _)). constructor; [unfold condition, set_at; cbn; split; by rewrite decide_True|].
    eapply (condition_elsewhere w _ s); [by rewrite <- Ho| |done]. intros s' Hne. cbn. unfold set_at.
    by rewrite !decide_False.
Qed.

Lemma perform_balanced {X} (o : PoolOp X) w h n rest : allowed o h → balanced c w h n rest →
  match perform c i a o w with
  | (Some x, w') => balanced c w' (owning o x h) n rest
  | (None, w') => balanced c w' h n rest
  end.
Proof.
  intros Hok Hb. destruct o; cbn in *; try done.
  - by apply (balanced_same w).
  - unfold notify_one. destruct (waiters w); by apply (balanced_same w).
  - by apply (balanced_same w).
  - repeat case_match; simplify_eq; try done; by apply (balanced_same w).
  - unfold pop_idle. destruct (idle (pstate w)) as [|e l] eqn:Hi.
    + eapply balanced_move; [done|lia|apply (bal_max _ _ _ _ _ Hb)|done].
    + eapply balanced_move; [done|rewrite Hi; cbn; lia|apply (bal_max _ _ _ _ _ Hb)|].
      rewrite Hi. cbn. by rewrite <- Permutation_middle.
  - unfold reserve_slot. destruct (Nat.leb_spec (max_size c) (total (pstate w))).
    + eapply balanced_move; [done|lia|apply (bal_max _ _ _ _ _ Hb)|done].
    + eapply balanced_move; [done|cbn; lia|cbn; lia|done].
  - pose proof (bal_total _ _ _ _ _ Hb). pose proof (bal_max _ _ _ _ _ Hb).
    eapply balanced_move; [done|cbn; lia|cbn; lia|done].
  - unfold reserve_min_idle. destruct (closed w || _ || _) eqn:Hfull.
    + eapply balanced_move; [done|lia|apply (bal_max _ _ _ _ _ Hb)|done].
    + apply orb_false_iff in Hfull as [_ Hfull%Nat.leb_gt].
      eapply balanced_move; [done|cbn; lia|cbn; lia|done].
  - destruct Hok as [Hslot Hheld]. pose proof (bal_total _ _ _ _ _ Hb). pose proof (bal_max _ _ _ _ _ Hb).
    unfold store_idle. destruct (closed w).
    + eapply balanced_move; [done|cbn; lia|cbn; lia|done].
    + eapply balanced_move; [done|cbn; rewrite length_app; cbn; lia|cbn; lia|]. cbn.
      rewrite map_app, <- (assoc_L app). f_equiv. cbn. symmetry. apply (let_go_same _ Fit); [done|].
      pose proof (balanced_nodup _ _ _ _ Hb) as Hnd. rewrite !map_app in Hnd.
      apply NoDup_app in Hnd as (_ & _ & Hnd). by apply NoDup_app in Hnd as (Hnd & _).
  - pose proof (take_expired_spec (clock w) (total (pstate w)) (idle (pstate w))) as Hspec.
    destruct (take_expired _ _ _ _) as [[gone n'] keep]. destruct Hspec as (-> & Hlen & Hperm).
    pose proof (bal_total _ _ _ _ _ Hb). pose proof (bal_max _ _ _ _ _ Hb).
    eapply balanced_move; [done|cbn; lia|cbn; lia|]. cbn. rewrite Hperm.
    rewrite !(assoc_L app). f_equiv. apply Permutation_app_comm.
  - pose proof (bal_total _ _ _ _ _ Hb). pose proof (bal_max _ _ _ _ _ Hb).
    eapply balanced_move; [done|cbn; lia|cbn; lia|]. cbn. by rewrite map_map.
  - destruct (succeeds a); [|done]. by apply perform_connect.
  - apply (balanced_status w); try done.
    + intros s' Hne. cbn. unfold set_at. by rewrite decide_False.
    + intros [| |]; unfold condition; cbn; [by intros []|done|done].
  - case_bool_decide as Hst; [|by destruct h].
    apply (balanced_status w); [done..| |done]. intros [| |]; unfold condition; cbn; first [done | by split].
  - destruct (succeeds a) as [u|e]; [|by destruct h]. apply (balanced_status w); try done.
    + intros s' Hne. cbn. unfold set_at. by rewrite decide_False.
    + intros [| |]; unfold condition, set_at; cbn; rewrite ?decide_True by done; [by intros []|by split|done].
  - by apply balanced_end.
  - by apply balanced_end.
  - by destruct (_ <=? _).
Qed.
End books.

(** *** All the tasks together *)
Definition ended (o : Outcome) (h : Hold) : Prop :=
  match o with Acquired r => acquired r h | Finished => h = nothing end.

(** A finished task owns nothing; a cancelled one may have kept something. *)
Definition task_ok (cancelled : Prop) (t : option (PProg Outcome)) (h : Hold) : Prop :=
  match t with Some p => follows p ended h | None => cancelled ∨ h = nothing end.

Definition books (c : PoolConfig) (σ : Pool) (hs : list Hold) : Prop :=
  balanced c (shared σ) nothing (sum_list_with slots hs + length (checked_out σ))
    (flat_map held hs ++ map lent (checked_out σ)).

Definition Inv (c : PoolConfig) (cancelled : Prop) (σ : Pool) : Prop :=
  ∃ hs, Forall2 (task_ok cancelled) (tasks σ) hs ∧ books c σ hs.

Section invariant.
Context (c : PoolConfig) (cancelled : Prop).

Lemma balanced_proper w h n rest rest' : rest ≡ₚ rest' → balanced c w h n rest → balanced c w h n rest'.
Proof. intros Hperm []. split; try done; by rewrite <- Hperm. Qed.

Lemma balanced_carve w h n rest : balanced c w nothing (slots h + n) (held h ++ rest) ↔ balanced c w h n rest.
Proof. split; intros []; split; cbn in *; try done; lia. Qed.

(** Setting one task's books apart from the others'. *)
Lemma books_split σ hs hs' h :
  hs ≡ₚ h :: hs' →
  books c σ hs ↔ balanced c (shared σ) h (sum_list_with slots hs' + length (checked_out σ))
                   (flat_map held hs' ++ map lent (checked_out σ)).
Proof.
  intros Hperm. rewrite <- balanced_carve, (assoc_L app). unfold books.
  assert (Hsum : sum_list_with slots hs = (slots h + sum_list_with slots hs')%nat) by by rewrite Hperm.
  rewrite Hsum, <- Nat.add_assoc. assert (Hrest : flat_map held hs ≡ₚ held h ++ flat_map held hs') by by rewrite Hperm.
  split; apply balanced_proper; by rewrite Hrest.
Qed.

Lemma hold_of σ hs i t : Forall2 (task_ok cancelled) (tasks σ) hs → tasks σ !! i = Some t →
  ∃ h hs', task_ok cancelled t h ∧ hs ≡ₚ h :: hs'
    ∧ ∀ h' t', task_ok cancelled t' h' →
        Forall2 (task_ok cancelled) (<[i := t']> (tasks σ)) (<[i := h']> hs) ∧ <[i := h']> hs ≡ₚ h' :: hs'.
Proof.
  intros Hall Hi. destruct (Forall2_lookup_l _ _ _ _ _ Hall Hi) as (h & Hh & Ht).
  exists h, (delete i hs). split; [done|]. split; [by apply delete_Permutation|]. intros h' t' Ht'.
  split; [by apply Forall2_insert|]. apply lookup_lt_Some in Hh.
  rewrite insert_take_drop by done. rewrite delete_take_drop. symmetry. apply Permutation_middle.
Qed.

(** A new task, with what it is given. *)
Lemma inv_start p σ h hs w l : Forall2 (task_ok cancelled) (tasks σ) hs → follows p ended h →
  balanced c w h (sum_list_with slots hs + length l) (flat_map held hs ++ map lent l) →
  Inv c cancelled (start p (mk_pool w (tasks σ) l (refused σ))).
Proof.
  intros Hall Hp Hb. exists (hs ++ [h]). split; [apply Forall2_app; [done|by constructor]|].
  eapply books_split; [|exact Hb]. apply Permutation_app_comm.
Qed.

Lemma inv_begun p σ : follows p ended nothing → Inv c cancelled σ → Inv c cancelled (start p σ).
Proof. intros Hp (hs & Hall & Hb). destruct σ as [w ts l r]. by apply (inv_start _ (mk_pool w ts l r) nothing hs). Qed.

Lemma follows_finishing {A} (p : PProg A) h : follows p (λ _ h, h = nothing) h → follows (finishing p) ended h.
Proof. intros Hp. apply keeps_to_bind. eapply keeps_to_mono; [|exact Hp]. by intros a' h' ->. Qed.

Lemma inv_new : Inv c cancelled (new_pool c).
Proof.
  exists [nothing]. split.
  - constructor; [|done]. apply follows_finishing, follows_new.
  - split; cbn; [done|lia|done|constructor..].
Qed.

Lemma inv_receive i o σ : tasks σ !! i = Some (Some (PRet o)) → Inv c cancelled σ → Inv c cancelled (receive o (settle i None σ)).
Proof.
  intros Hi (hs & Hall & Hb). destruct (hold_of σ hs i _ Hall Hi) as (h & hs' & Ht & Hperm & Hset).
  destruct (Hset nothing None (or_intror eq_refl)) as [Hall' Hperm'].
  apply (books_split _ _ _ _ Hperm) in Hb. exists (<[i := nothing]> hs). cbn in Ht.
  destruct o as [[conn|e]|]; cbn in Ht.
  - destruct Ht as (Hflag & q & Hq & ->). split; [done|]. eapply (books_split _ _ _ _ Hperm'). cbn.
    rewrite length_app, map_app, (assoc_L app). cbn.
    assert (Hlent : lent conn = (conn_session conn, Unchecked)) by (unfold lent; by rewrite Hflag). rewrite Hlent.
    destruct Hb as [Ht Hm Ho Hn Hf Hc]. cbn in *.
    split; cbn; [lia|done| |done|done|].
    + rewrite Ho, !map_app. cbn. rewrite map_app. solve_Permutation.
    + rewrite Forall_app, Forall_cons, Forall_app in Hc. rewrite !Forall_app. destruct Hc as (? & Hc & ? & ?).
      split; [done|]. split; [by split|].
      constructor; [|done]. by destruct q; [destruct Hc|..].
  - split; [done|]. rewrite Ht in Hb. by eapply (books_split _ _ _ _ Hperm').
  - split; [done|]. rewrite Ht in Hb. by eapply (books_split _ _ _ _ Hperm').
Qed.

Lemma inv_turn i a σ : Inv c cancelled σ → Inv c cancelled (turn c i a σ).
Proof.
  intros Hinv. unfold turn. destruct (tasks σ !! i) as [[p|]|] eqn:Hi; [|done|done].
  destruct p as [o|X o k|S B body s k|q k]; [by apply inv_receive|..];
    destruct Hinv as (hs & Hall & Hb); destruct (hold_of σ hs i _ Hall Hi) as (h & hs' & Ht & Hperm & Hset).
  - apply (books_split _ _ _ _ Hperm) in Hb. destruct Ht as [Hok Hk].
    pose proof (perform_balanced c i a o _ _ _ _ Hok Hb) as Hstep.
    destruct (perform c i a o (shared σ)) as [[x|] w].
    + destruct (Hset (owning o x h) (Some (k x)) (Hk x)) as [Hall' Hperm'].
      exists (<[i := owning o x h]> hs). split; [done|]. by eapply (books_split _ _ _ _ Hperm').
    + exists hs. split; [done|]. by eapply (books_split _ _ _ _ Hperm).
  - destruct Ht as (I & Hs & Hloop). edestruct (Hset h) as [Hall' Hperm'].
    2: { exists (<[i := h]> hs). split; [exact Hall'|]. apply (books_split _ _ _ _ Hperm) in Hb.
      by eapply (books_split _ _ _ _ Hperm'). }
    apply keeps_to_bind. eapply keeps_to_mono; [|by apply Hloop]. intros [s'|b] h'; cbn; [|done]. intros Hs'. by exists I.
  - destruct Ht as [Hq Hk]. destruct (Hset h (Some k) Hk) as [Hall' Hperm'].
    apply inv_begun; [by apply follows_finishing|]. exists (<[i := h]> hs). split; [done|].
    apply (books_split _ _ _ _ Hperm) in Hb. by eapply (books_split _ _ _ _ Hperm').
Qed.

Lemma checked_out_hold σ hs j conn : checked_out σ !! j = Some conn → books c σ hs →
  balanced c (shared σ) (mk_hold 1 [lent conn])
    (sum_list_with slots hs + length (delete j (checked_out σ))) (flat_map held hs ++ map lent (delete j (checked_out σ))).
Proof.
  intros Hj Hb. apply balanced_carve. pose proof (delete_Permutation _ _ _ Hj) as Hperm. unfold books in Hb.
  assert (Hlen : length (checked_out σ) = S (length (delete j (checked_out σ)))) by (by rewrite Hperm at 1).
  rewrite Hlen in Hb. cbn [slots held].
  replace (1 + (sum_list_with slots hs + length (delete j (checked_out σ))))%nat
    with (sum_list_with slots hs + S (length (delete j (checked_out σ))))%nat by lia.
  eapply balanced_proper; [|exact Hb]. rewrite Hperm at 1. cbn. by rewrite <- Permutation_middle.
Qed.

Lemma inv_use j st breaks σ : Inv c cancelled σ → Inv c cancelled (act c (AUse j st breaks) σ).
Proof.
  intros (hs & Hall & Hb). cbn. destruct (checked_out σ !! j) as [conn|] eqn:Hj; [|by exists hs].
  exists hs. split; [done|].
  pose proof (checked_out_hold _ _ _ _ Hj Hb) as Hone.
  apply (balanced_status c (shared σ) (with_sessions (open_sessions (shared σ)) (next_session (shared σ))
    (set_at (conn_session conn) st (status (shared σ)))
    (set_at (conn_session conn) (flagged (shared σ) (conn_session conn) || breaks) (flagged (shared σ))) (shared σ))
    _ _ _ (conn_session conn) (λ q, if breaks then Broken else doubted q)) in Hone; cbn; try done; [|set_solver| |].
  - apply balanced_carve in Hone. unfold books. cbn [shared checked_out].
    set (conn' := mk_connection _ _ _).
    assert (Hperm : <[j := conn']> (checked_out σ) ≡ₚ conn' :: delete j (checked_out σ)).
    { rewrite insert_take_drop, delete_take_drop by (by eapply lookup_lt_Some). symmetry. apply Permutation_middle. }
    assert (Hlen : length (<[j := conn']> (checked_out σ)) = S (length (delete j (checked_out σ)))) by by rewrite Hperm.
    rewrite Hlen. cbn [slots held] in Hone.
    replace (sum_list_with slots hs + S (length (delete j (checked_out σ))))%nat
      with (1 + (sum_list_with slots hs + length (delete j (checked_out σ))))%nat by lia.
    eapply balanced_proper; [|exact Hone]. rewrite Hperm. cbn. rewrite decide_True by done.
    rewrite <- Permutation_middle. cbn. f_equiv. unfold lent. cbn. by destruct (conn_broken conn), breaks.
  - intros s' Hne. unfold set_at. by rewrite !decide_False.
  - intros q. unfold condition, set_at. cbn. rewrite !decide_True by done.
    destruct breaks; [done|]. rewrite orb_false_r. destruct q; [by intros []|done|done].
Qed.

Lemma inv_act x σ : (∀ i, x = ACancel i → cancelled) → Inv c cancelled σ → Inv c cancelled (act c x σ).
Proof.
  intros Hx Hinv. destruct x as [| |i a|j st breaks|j|i|d]; cbn [act].
  - apply inv_begun; [|done]. apply keeps_to_bind. eapply keeps_to_mono; [|apply follows_acquire]. done.
  - apply inv_begun; [|done]. by apply follows_finishing, follows_close.
  - by apply inv_turn.
  - by apply inv_use.
  - destruct (checked_out σ !! j) as [conn|] eqn:Hj; [|done]. destruct Hinv as (hs & Hall & Hb).
    pose proof (checked_out_hold _ _ _ _ Hj Hb) as Hone. eapply inv_start; [done| |exact Hone].
    apply keeps_to_bind. eapply keeps_to_mono; [|apply follows_recycle]. by intros [] h ->.
  - destruct Hinv as (hs & Hall & Hb). destruct (tasks σ !! i) as [t|] eqn:Hi.
    + destruct (hold_of _ _ _ _ Hall Hi) as (h & hs' & Ht & Hperm & Hset).
      destruct (Hset h None) as [Hall' Hperm']; [left; by eapply Hx|].
      exists (<[i := h]> hs). split; [done|]. apply (books_split _ _ _ _ Hperm) in Hb.
      apply (books_split _ _ _ _ Hperm'). cbn. eapply (balanced_same c); [..|exact Hb];
        unfold drop_notified, notify_one; repeat case_match; done.
    + exists hs. cbn. split; [rewrite list_insert_ge; [done|by apply lookup_ge_None]|].
      eapply (balanced_same c); [..|exact Hb]; unfold drop_notified, notify_one; repeat case_match; done.
  - destruct Hinv as (hs & Hall & Hb). exists hs. split; [done|]. by eapply (balanced_same c); [..|exact Hb].
Qed.

Lemma inv_acts l σ : (∀ i, ACancel i ∈ l → cancelled) → Inv c cancelled σ → Inv c cancelled (acts c l σ).
Proof.
  revert σ. induction l as [|x l IH]; intros σ Hl Hinv; [done|]. cbn. apply IH; [intros i Hi; apply (Hl i); set_solver|].
  apply inv_act; [|done]. intros i ->. apply (Hl i). set_solver.
Qed.
End invariant.

(** A closed pool with nothing idle stays so. *)
Definition drained (w : World) : Prop := closed w = true ∧ idle (pstate w) = [].

Lemma perform_drained c i a {X} (o : PoolOp X) w : drained w → drained (perform c i a o w).2.
Proof.
  intros [Hc Hi]. unfold drained.
  destruct o; cbn; unfold notify_one, pop_idle, reserve_slot, reserve_min_idle, store_idle, drain_idle, take_expired;
    rewrite ?Hc, ?Hi; repeat case_match; simplify_eq; done.
Qed.

Lemma act_drained c x σ : drained (shared σ) → drained (shared (act c x σ)).
Proof.
  intros Hd. destruct x as [| |i a|j st b|j|i|d]; cbn; [done|done| | | | |done].
  - unfold turn. destruct (tasks σ !! i) as [[[o|X o k|S B body s k|q k]|]|]; try done.
    + by destruct o as [[conn|e]|].
    + pose proof (perform_drained c i a o _ Hd) as Hd'. by destruct (perform c i a o (shared σ)) as [[x|] w].
  - by destruct (checked_out σ !! j).
  - by destruct (checked_out σ !! j).
  - unfold drained, drop_notified, notify_one in *. repeat case_match; done.
Qed.

Lemma acts_drained c l σ : drained (shared σ) → drained (shared (acts c l σ)).
Proof. revert σ. induction l as [|x l IH]; intros σ Hd; [done|]. by apply IH, act_drained. Qed.

Definition finished (σ : Pool) : Prop := Forall (λ t, t = None) (tasks σ).

Lemma no_task_no_hold hs ts : Forall2 (task_ok False) ts hs → Forall (λ t, t = None) ts →
  sum_list_with slots hs = 0%nat ∧ flat_map held hs = [].
Proof.
  induction 1 as [|t h ts hs Ht _ IH]; intros Hts; [done|]. apply Forall_cons in Hts as [-> Hts].
  destruct Ht as [[]| ->]. cbn. by apply IH.
Qed.

(** C3: Whatever tasks acquire, return, cancel and close, in any interleaving and with any
    failures: no more than [max_size] slots are taken, every idle or checked-out connection has
    one and is open, no session is handed out twice, and every idle session is out of any
    transaction and was never flagged as broken.  A closed pool that is drained stays empty.  If
    no future was dropped in the middle, then once the tasks have ended no slot and no session
    has been lost. *)
Theorem pool_books c l :
  let σ := acts c l (new_pool c) in
  let p := pstate (shared σ) in
  let sessions := map idle_session (idle p) ++ map conn_session (checked_out σ) in
  (length (idle p) + length (checked_out σ) ≤ total p ≤ max_size c)%nat
  ∧ NoDup sessions ∧ sessions ⊆ open_sessions (shared σ)
  ∧ (∀ s, s ∈ map idle_session (idle p) → status (shared σ) s = "I"%byte ∧ flagged (shared σ) s = false)
  ∧ (drained (shared σ) → ∀ l', drained (shared (acts c l' σ)))
  ∧ ((∀ i, ACancel i ∉ l) → finished σ →
     total p = (length (idle p) + length (checked_out σ))%nat ∧ open_sessions (shared σ) ≡ₚ sessions).
Proof.
  intros σ p sessions.
  assert (Hfst : map fst (map shelved (idle p)) = map idle_session (idle p)) by (by rewrite map_map).
  assert (Hlent : map fst (map lent (checked_out σ)) = map conn_session (checked_out σ)) by (by rewrite map_map).
  destruct (inv_acts c True l _ (λ _ _, I) (inv_new c True)) as (hs & _ & [Ht Hm Ho Hn _ Hc]). fold σ in Ht, Hm, Ho, Hn, Hc.
  cbn in Ht, Ho, Hc. fold p in Ht, Hm, Ho, Hc.
  assert (Hperm : open_sessions (shared σ) ≡ₚ sessions ++ map fst (flat_map held hs)).
  { rewrite Ho, !map_app, Hfst, Hlent. unfold sessions. solve_Permutation. }
  split; [lia|]. split; [by rewrite Hperm in Hn; apply NoDup_app in Hn as [Hn _]|].
  split; [intros s Hs; rewrite Hperm; by apply elem_of_app; left|]. split; [|split].
  - intros s [i [-> Hi]]%list_elem_of_fmap. apply Forall_app in Hc as [Hc _]. rewrite Forall_forall in Hc.
    apply (Hc (shelved i)). apply list_elem_of_fmap. by exists i.
  - intros Hd l'. by apply acts_drained.
  - intros Hl Hfin. destruct (inv_acts c False l _ (λ i Hi, Hl i Hi) (inv_new c False)) as (hs' & Hall & [Ht' _ Ho' _ _ _]).
    fold σ in Hall, Ht', Ho'. destruct (no_task_no_hold _ _ Hall Hfin) as [Hs Hh].
    rewrite Hs in Ht'. rewrite Hh in Ho'. cbn in Ht', Ho'. fold p in Ht', Ho'. split; [lia|].
    by rewrite Ho', !map_app, Hfst, Hlent.
Qed.

(** ** Runs *)
Definition fine : Answer := mk_answer (Ok tt) "I"%byte true.
Definition turns (i n : nat) : list Action := replicate n (ATurn i fine).
Definition pool_of_one : PoolConfig := with_max_size 1 (with_idle_timeout 5 PoolConfig_default).
(** Task 0 opens the pool, task 1 is its maintenance, task 2 acquires, and task 3 takes the
    connection back. *)
Definition borrow_and_return : list Action := turns 0 6 ++ [AAcquire] ++ turns 2 9 ++ [ADrop 0] ++ turns 3 9.

(** The caller of [Pool::new] drops the maintenance task, and the pool is closed. *)
Definition closing : list Action := borrow_and_return ++ [ACancel 1; AClose] ++ turns 4 9.

Lemma pool_books_witness :
  drained (shared (acts pool_of_one [AAcquire] (acts pool_of_one closing (new_pool pool_of_one)))).
Proof.
  destruct (pool_books pool_of_one closing) as (_ & _ & _ & _ & Hstay & _).
  apply Hstay. split; vm_compute; reflexivity.
Defined.

(** Returning a connection leaves it idle, and its slot taken. *)
Lemma returned_is_idle :
  let σ := acts pool_of_one borrow_and_return (new_pool pool_of_one) in
  (total (pstate (shared σ)), map idle_session (idle (pstate (shared σ))), length (checked_out σ)) = (1%nat, [0%nat], 0%nat).
Proof. vm_compute. reflexivity. Qed.

(** [discard] gives the slot back before it drops the session: the next caller opens a session
    while the expired one is still open, one more than [max_size]. *)
Lemma discard_overshoots :
  let σ := acts pool_of_one (borrow_and_return ++ [ATick 10; AAcquire] ++ turns 4 7 ++ [AAcquire] ++ turns 5 6)
             (new_pool pool_of_one) in
  (max_size pool_of_one, open_sessions (shared σ)) = (1%nat, [0%nat; 1%nat]).
Proof. vm_compute. reflexivity. Qed.

(** A future of [acquire] dropped while it connects keeps its slot for ever: the pool is empty,
    nobody has a connection, and the next caller times out. *)
Lemma dropped_acquire_loses_its_slot :
  let σ := acts pool_of_one (turns 0 6 ++ [AAcquire] ++ turns 2 5 ++ [ACancel 2; AAcquire] ++ turns 3 9
             ++ [ATick 30000000000] ++ turns 3 9) (new_pool pool_of_one) in
  (total (pstate (shared σ)), idle (pstate (shared σ)), length (checked_out σ), refused σ)
  = (1%nat, [], 0%nat, [Timeout]).
Proof. vm_compute. reflexivity. Qed.

(** A wake-up between the look at the pool and the wait is lost: task 4 finds the pool full, the
    only connection is discarded and [notify_waiters] finds nobody waiting, and task 4 waits for
    its whole timeout though a slot is free from then on. *)
Lemma lost_wake_up :
  let σ := acts pool_of_one (turns 0 6 ++ [AAcquire] ++ turns 2 9 ++ [AAcquire] ++ turns 3 5
             ++ [AUse 0 "I"%byte true; ADrop 0] ++ turns 4 9 ++ turns 3 3) (new_pool pool_of_one) in
  total (pstate (shared σ)) = 0%nat ∧ length (waiters (shared σ)) = 1%nat
  ∧ refused (acts pool_of_one (ATick 30000000000 :: turns 3 9) σ) = [Timeout].
Proof. vm_compute. repeat split. Qed.
