(* ===== verification/PoolScopes.v ===== *)
(** * What a pooled connection does with its session

    [crates/core/src/pool.rs]: the methods of [PoolConnection], [PooledTransaction],
    [PooledSavepoint] and the pooled prepared statements.  Each forwards to the session and
    records in the connection's [broken] flag whether the error means that the session should not
    be used again; [Pool.v] says what becomes of the flag.  Transactions and savepoints repeat
    [transaction.rs] with the recording added and with savepoint names of their own.

    The forwarding methods of connections, transactions and savepoints are the same function. *)
From S2P Require Import Prelude Bytes Text Error Backend Driver Types Codec Fragment Cache Prog Session Transaction Stream.

Local Open Scope Z_scope.
Local Open Scope str_scope.

(** ** Errors that end a session *)
Definition should_recycle (err : Error) : bool :=
  match err with
  | Error.Closed _ _ | Io _ | Error.Protocol _ => true
  | Error.Server e _ _ =>
    bool_decide (is_Some (strip_prefix "08" (code e))) || bool_decide (code e = "26000"%s) || bool_decide (code e = "08P01"%s)
  | Auth _ | UnsupportedAuth _ | Error.Config _ | Error.Codec _ | Migration _ | ColumnAlignment _ _ _ _
  | SchemaMismatch _ _ _ _ _ _ => false
  end.

Definition mark_broken (err : Error) : Prog unit := if should_recycle err then do MarkBroken else mret tt.

(** [record_result] *)
Definition recorded {A} (p : PE A) : PE A :=
  result ← (p : Prog _);
  _ ← match result with Err err => mark_broken err | Ok _ => mret tt end;
  Ret result.

(** ** The forwarding methods *)
Definition pool_simple_query_raw (sql : str) : PE (list RawRows) := recorded (simple_query_raw sql).
Definition pool_execute {A} (cmd : QueryCommand A) (args : A) : PE Z := recorded (execute cmd args).
Definition pool_query {A B} (q : Query A B) (args : A) : PE (list B) := recorded (query q args).
Definition pool_stream {A B} (fuel : nat) (q : Query A B) (args : A) : PE unit := recorded (stream fuel q args).
Definition pool_stream_with_batch_size {A B} (fuel : nat) (q : Query A B) (args : A) (batch_rows : nat) : PE unit :=
  recorded (stream_with_batch_size fuel q args batch_rows).
Definition pool_prepare_query `{SqlHash} {A B} (q : Query A B) : PE (PreparedQuery A B) := recorded (prepare_query q).
Definition pool_prepare_command `{SqlHash} {A} (cmd : QueryCommand A) : PE (PreparedCommand A) := recorded (prepare_command cmd).
Definition pooled_prepared_query {A B} (p : PreparedQuery A B) (args : A) : PE (list B) := recorded (prepared_query p args).
Definition pooled_prepared_execute {A} (p : PreparedCommand A) (args : A) : PE Z := recorded (prepared_execute p args).
Definition pooled_prepared_close {A} (p : PreparedStatement A) : PE unit := recorded (close_prepared p).

(** [PooledRowStream::poll_next], when a row is ready. *)
Definition pooled_poll_ready {B} (row : result Error B) : PE B := recorded (of_result row).

(** ** Scopes *)

(** [Result::is_err] *)
Definition failed {A} (r : result Error A) : bool := match r with Err _ => true | Ok _ => false end.

Definition pooled_cleanup (a : CleanupAction) : Prog unit :=
  match a with
  | Rollback =>
    rollback ← (run_control_command "ROLLBACK" : Prog _);
    if failed rollback then do MarkBroken else mret tt
  | RollbackSavepoint name =>
    rollback ← (run_control_command (rollback_to name) : Prog _);
    release ← (run_control_command (release_savepoint name) : Prog _);
    if failed rollback || failed release then do MarkBroken else mret tt
  end.

Definition pooled_leave {A} (action : CleanupAction) (armed : bool) (r : A) : Prog A :=
  if armed then Fork (pooled_cleanup action) (Ret r) else Ret r.

Definition pooled_transaction {T} (f : PE T) : PE T :=
  begun ← (run_control_command "BEGIN" : Prog _);
  match begun with
  | Err e => pooled_leave Rollback true (Err e)
  | Ok _ =>
    outcome ← (f : Prog _);
    match outcome with
    | Ok value =>
      committed ← (run_control_command "COMMIT" : Prog _);
      match committed with
      | Err e => pooled_leave Rollback true (Err e)
      | Ok _ => pooled_leave Rollback false (Ok value)
      end
    | Err err =>
      rolled_back ← (run_control_command "ROLLBACK" : Prog _);
      match rolled_back with
      | Err e => pooled_leave Rollback false (Err e)
      | Ok _ => _ ← mark_broken err; pooled_leave Rollback false (Err err)
      end
    end
  end.

Definition pooled_savepoint_name (id : Z) : str := "babar_pool_sp_" ++ Text.dec id.
Definition pooled_next_savepoint_name : Prog str := id ← do (FetchAdd PoolSavepointNames); mret (pooled_savepoint_name id).

Definition pooled_savepoint_scope {T} (name : str) (f : PE T) : PE T :=
  let action := RollbackSavepoint name in
  saved ← (run_control_command (savepoint_sql name) : Prog _);
  match saved with
  | Err e => pooled_leave action true (Err e)
  | Ok _ =>
    outcome ← (f : Prog _);
    match outcome with
    | Ok value =>
      released ← (run_control_command (release_savepoint name) : Prog _);
      match released with
      | Err e => pooled_leave action true (Err e)
      | Ok _ => pooled_leave action false (Ok value)
      end
    | Err err =>
      rolled_back ← (rollback_savepoint name : Prog _);
      match rolled_back with
      | Err e => pooled_leave action true (Err e)
      | Ok _ => _ ← mark_broken err; pooled_leave action false (Err err)
      end
    end
  end.

Definition run_pooled_savepoint {T} (f : PE T) : PE T :=
  name ← pooled_next_savepoint_name; (pooled_savepoint_scope name f : Prog _).

(** ** Agreement with the session's own scopes *)

(** The error of a scope's body, when the scope was entered and undone without trouble. *)
Definition scope_error {W} `{Connection W} {T} (enter : PE unit) (f : PE T) (undo : PE unit) (s : Shared W) : option Error :=
  match Prog.run enter s with
  | (Err _, _) => None
  | (Ok _, s) =>
    match Prog.run f s with
    | (Ok _, _) => None
    | (Err e, s) => match Prog.run undo s with (Err _, _) => None | (Ok _, _) => Some e end
    end
  end.

Definition ends_session (e : option Error) : bool := match e with Some e => should_recycle e | None => false end.

(** The tasks two scopes leave behind clean up the same scope. *)
Inductive same_task : Prog unit → Prog unit → Prop :=
  | same_refl p : same_task p p
  | same_cleanup a : same_task (cleanup a) (pooled_cleanup a).

(** [q] does to the session what [p] does, and sets the flag if [flag]. *)
Definition agrees {W} `{Connection W} {T} (p q : PE T) (flag : bool) (s : Shared W) : Prop :=
  let '(r, s1) := Prog.run p s in
  ∃ sp, Prog.run q s = (r, with_broken (with_spawned s1 sp) (broken s1 || flag)) ∧ Forall2 same_task (spawned s1) sp.

Section agreement.
Context {W : Type} `{Connection W}.
Implicit Types s : Shared W.

Lemma same_tasks l : Forall2 same_task l l.
Proof. induction l; constructor; [constructor|done]. Qed.

Lemma shared_eta s : with_broken (with_spawned s (spawned s)) (broken s || false) = s.
Proof. rewrite orb_false_r. by destruct s. Qed.

Lemma run_mark_broken err s : Prog.run (mark_broken err) s = (tt, with_broken s (broken s || should_recycle err)).
Proof.
  unfold mark_broken. destruct (should_recycle err); cbn; [by rewrite orb_true_r|].
  rewrite orb_false_r. by destruct s.
Qed.

Lemma agrees_recorded {A} (p : PE A) s :
  agrees p (recorded p) (ends_session (match (Prog.run p s).1 with Err e => Some e | Ok _ => None end)) s.
Proof.
  unfold agrees, recorded. rewrite run_bind. destruct (Prog.run p s) as [[v|e] s1]; cbn [fst];
    exists (spawned s1); (split; [|apply same_tasks]).
  - cbn. by rewrite shared_eta.
  - rewrite run_bind, run_mark_broken. by destruct s1.
Qed.

Lemma agrees_leave {A} a armed (r : A) s : 
  ∃ sp, Prog.run (pooled_leave a armed r) s = (r, with_broken (with_spawned s sp) (broken s || false))
  ∧ Forall2 same_task (spawned (Prog.run (leave a armed r) s).2) sp ∧ Prog.run (leave a armed r) s
    = (r, with_spawned s (spawned (Prog.run (leave a armed r) s).2)).
Proof.
  rewrite orb_false_r. destruct armed; cbn.
  - exists (spawned s ++ [pooled_cleanup a]). split; [done|]. split; [|done].
    apply Forall2_app; [apply same_tasks|]. constructor; [constructor|done].
  - exists (spawned s). split; [by destruct s|]. split; [apply same_tasks|by destruct s].
Qed.

Lemma agrees_done {T} a armed (r : result Error T) s : agrees (leave a armed r) (pooled_leave a armed r) false s.
Proof.
  destruct (agrees_leave a armed r s) as (sp & Hq & Hsp & Hp). unfold agrees.
  rewrite Hp in *. cbn in Hsp. exists sp. split; [|done]. rewrite Hq. by destruct s.
Qed.

(** The two kinds of scope have the same shape. *)
Lemma agrees_scope {T} (enter leave_ok undo : PE unit) (f : PE T) a armed s :
  agrees
    (entered ← (enter : Prog _);
     match entered with
     | Err e => leave a true (Err e)
     | Ok _ =>
       outcome ← (f : Prog _);
       match outcome with
       | Ok value =>
         left ← (leave_ok : Prog _);
         match left with Err e => leave a true (Err e) | Ok _ => leave a false (Ok value) end
       | Err err =>
         undone ← (undo : Prog _);
         match undone with Err e => leave a armed (Err e) | Ok _ => leave a false (Err err) end
       end
     end)
    (entered ← (enter : Prog _);
     match entered with
     | Err e => pooled_leave a true (Err e)
     | Ok _ =>
       outcome ← (f : Prog _);
       match outcome with
       | Ok value =>
         left ← (leave_ok : Prog _);
         match left with Err e => pooled_leave a true (Err e) | Ok _ => pooled_leave a false (Ok value) end
       | Err err =>
         undone ← (undo : Prog _);
         match undone with
         | Err e => pooled_leave a armed (Err e)
         | Ok _ => _ ← mark_broken err; pooled_leave a false (Err err)
         end
       end
     end)
    (ends_session (scope_error enter f undo s)) s.
Proof.
  unfold agrees, scope_error. rewrite !run_bind.
  destruct (Prog.run enter s) as [[u|e] s1]; [|apply agrees_done]. rewrite !run_bind.
  destruct (Prog.run f s1) as [[v|e] s2]; rewrite !run_bind.
  - destruct (Prog.run leave_ok s2) as [[u'|e] s3]; apply agrees_done.
  - destruct (Prog.run undo s2) as [[u'|e'] s3]; [|apply agrees_done]. rewrite run_bind, run_mark_broken. cbn.
    exists (spawned s3). split; [by destruct s3|apply same_tasks].
Qed.
End agreement.

