(* ===== verification/BTree.v ===== *)
(** * Ordered maps

    Rust's [BTreeMap<K, V>] as the list of its entries in key order.  The order of the keys is
    an interface ([TotalOrder]): integers by value, strings byte by byte, as [Ord for String].
    Insertion keeps the entries strictly sorted, two sorted maps with the same bindings are the
    same list, so the map built from a batch of insertions does not depend on their order when
    the keys differ. *)
From S2P Require Import Prelude Bytes.

Local Open Scope Z_scope.

Class TotalOrder (K : Type) := { key_lt : K → K → bool }.

Class TotalOrderLaws (K : Type) `{TotalOrder K} : Prop := {
  key_lt_irrefl k : key_lt k k = false;
  key_lt_trans a b c : key_lt a b = true → key_lt b c = true → key_lt a c = true;
  key_lt_total a b : key_lt a b = false → key_lt b a = false → a = b;
}.

#[export] Instance Z_order : TotalOrder Z := { key_lt := Z.ltb }.
#[export] Instance Z_order_laws : TotalOrderLaws Z.
Proof.
  split; cbn; [apply Z.ltb_irrefl| |];
    intros *; rewrite ?Z.ltb_lt, ?Z.ltb_ge; lia.
Qed.

(** [Ord for str]: lexicographic on the bytes. *)
Fixpoint str_lt (a b : str) : bool :=
  match a, b with
  | _, [] => false
  | [], _ :: _ => true
  | x :: a, y :: b => (u8_of x <? u8_of y) || ((u8_of x =? u8_of y) && str_lt a b)
  end.

#[export] Instance str_order : TotalOrder str := { key_lt := str_lt }.
#[export] Instance str_order_laws : TotalOrderLaws str.
Proof.
  split; cbn.
  - intros k. induction k as [|x k IH]; cbn; [done|]. rewrite IH, Z.ltb_irrefl. by rewrite andb_false_r.
  - intros a. induction a as [|x a IH]; intros [|y b] [|z c]; cbn; try done.
    rewrite !orb_true_iff, !andb_true_iff, !Z.ltb_lt, !Z.eqb_eq.
    intros [Hxy|[Hxy Ha]] [Hyz|[Hyz Hb]]; [left; lia..|]. right. split; [lia|]. eauto.
  - intros a. induction a as [|x a IH]; intros [|y b]; cbn; try done.
    rewrite !orb_false_iff, !andb_false_iff, !Z.ltb_ge, !Z.eqb_neq.
    intros [Hxy Ha] [Hyx Hb]. assert (u8_of x = u8_of y) as He by lia.
    apply u8_of_inj in He as ->. f_equal. apply IH; naive_solver.
Qed.

Section btree.
Context {K V : Type} `{TotalOrderLaws K}.
Implicit Types (m : list (K * V)) (k : K) (v : V).

(** [BTreeMap::get] *)
Fixpoint bt_get k m : option V :=
  match m with
  | [] => None
  | (k', v') :: m =>
    if key_lt k k' then None else if key_lt k' k then bt_get k m else Some v'
  end.

(** [BTreeMap::insert]; the previous value of the key is [bt_get k m]. *)
Fixpoint bt_insert k v m : list (K * V) :=
  match m with
  | [] => [(k, v)]
  | (k', v') :: m' =>
    if key_lt k k' then (k, v) :: m
    else if key_lt k' k then (k', v') :: bt_insert k v m'
    else (k, v) :: m'
  end.

(** Every key of [m] is above [k]. *)
Definition above k m : Prop := Forall (λ x, key_lt k x.1 = true) m.

Fixpoint bt_sorted m : Prop :=
  match m with
  | [] => True
  | (k, _) :: m => above k m ∧ bt_sorted m
  end.

Lemma key_lt_asym a b : key_lt a b = true → key_lt b a = false.
Proof.
  intros Hab. destruct (key_lt b a) eqn:Hba; [|done].
  by rewrite <- (key_lt_irrefl a), (key_lt_trans a b a).
Qed.

Lemma above_trans a b m : key_lt a b = true → above b m → above a m.
Proof.
  intros Hab Hm. eapply Forall_impl; [exact Hm|].
  cbn. intros. by eapply key_lt_trans.
Qed.

Lemma above_insert a k v m : key_lt a k = true → above a m → above a (bt_insert k v m).
Proof.
  intros Hak Ha. induction m as [|[k' v'] m IH]; cbn; [by repeat constructor|].
  inversion Ha; subst. repeat case_match; repeat constructor; auto. by apply IH.
Qed.

Lemma insert_sorted k v m : bt_sorted m → bt_sorted (bt_insert k v m).
Proof.
  induction m as [|[k' v'] m IH]; cbn; [intros; split; [constructor | done]|].
  intros [Ha Hs]. destruct (key_lt k k') eqn:Hlt; cbn.
  - repeat split; [|done..]. constructor; [done|]. by eapply above_trans.
  - destruct (key_lt k' k) eqn:Hgt; cbn.
    + split; [by apply above_insert | by apply IH].
    + split; [|done]. by rewrite (key_lt_total k k').
Qed.

Lemma get_above k m : above k m → bt_get k m = None.
Proof. destruct m as [|[k' v'] m]; cbn; [done|]. inversion 1 as [|?? Hk]; subst; cbn in *. by rewrite Hk. Qed.

Lemma get_insert k v m : bt_sorted m → bt_get k (bt_insert k v m) = Some v.
Proof.
  induction m as [|[k' v'] m IH]; cbn; [by rewrite key_lt_irrefl|].
  intros [Ha Hs]. destruct (key_lt k k') eqn:Hlt; cbn; [by rewrite key_lt_irrefl|].
  destruct (key_lt k' k) eqn:Hgt; cbn; [rewrite Hlt, Hgt; by apply IH|].
  by rewrite key_lt_irrefl.
Qed.

Lemma get_insert_ne k k' v m : k ≠ k' → bt_sorted m → bt_get k' (bt_insert k v m) = bt_get k' m.
Proof.
  intros Hne. induction m as [|[k1 v1] m IH]; cbn.
  - intros _. destruct (key_lt k' k) eqn:Hlt; [done|].
    destruct (key_lt k k') eqn:Hgt; [done|]. by destruct Hne; apply key_lt_total.
  - intros [Ha Hs]. destruct (key_lt k k1) eqn:Hlt; cbn.
    + destruct (key_lt k' k) eqn:Hk'; [by rewrite (key_lt_trans k' k k1)|].
      destruct (key_lt k k') eqn:Hk; [done|]. by destruct Hne; apply key_lt_total.
    + destruct (key_lt k1 k) eqn:Hgt; cbn; [by rewrite (IH Hs)|].
      assert (k1 = k) as -> by (by apply key_lt_total).
      destruct (key_lt k' k) eqn:Hk'; [done|].
      destruct (key_lt k k') eqn:Hk; [done|]. by destruct Hne; apply key_lt_total.
Qed.

(** A new greatest key goes at the end. *)
Lemma insert_last k v m :
  Forall (λ x, key_lt x.1 k = true) m → bt_insert k v m = m ++ [(k, v)].
Proof.
  induction m as [|[k' v'] m IH]; cbn; [done|]. inversion 1 as [|?? Hk]; subst; cbn in *.
  by rewrite (key_lt_asym _ _ Hk), Hk, IH.
Qed.

Lemma get_Some_in k v m : bt_get k m = Some v → (k, v) ∈ m.
Proof.
  induction m as [|[k' v'] m IH]; cbn; [done|].
  destruct (key_lt k k') eqn:Hlt; [done|]. destruct (key_lt k' k) eqn:Hgt.
  - intros. right. auto.
  - intros [= ->]. rewrite (key_lt_total k k') by done. left.
Qed.

Lemma get_in k v m : bt_sorted m → (k, v) ∈ m → bt_get k m = Some v.
Proof.
  induction m as [|[k' v'] m IH]; cbn; [set_solver|].
  intros [Ha Hs] [[= -> ->]|Hin]%elem_of_cons; [by rewrite key_lt_irrefl|].
  assert (key_lt k' k = true) as Hlt by exact (proj1 (Forall_forall _ _) Ha _ Hin).
  rewrite (key_lt_asym _ _ Hlt), Hlt. auto.
Qed.

(** Extensionality: the bindings determine the list. *)
Lemma bt_ext m1 m2 :
  bt_sorted m1 → bt_sorted m2 → (∀ k, bt_get k m1 = bt_get k m2) → m1 = m2.
Proof.
  revert m2. induction m1 as [|[k1 v1] m1 IH]; intros [|[k2 v2] m2]; cbn; try done.
  - intros _ [Ha _] Hg. specialize (Hg k2). by rewrite key_lt_irrefl in Hg.
  - intros _ _ Hg. specialize (Hg k1). by rewrite key_lt_irrefl in Hg.
  - intros [Ha1 Hs1] [Ha2 Hs2] Hg.
    assert (k1 = k2) as <-.
    { pose proof (Hg k1) as Hg1. pose proof (Hg k2) as Hg2.
      rewrite key_lt_irrefl in Hg1, Hg2. apply key_lt_total.
      - apply not_true_is_false. intros Hlt. by rewrite Hlt in Hg1.
      - apply not_true_is_false. intros Hlt. by rewrite Hlt in Hg2. }
    pose proof (Hg k1) as Hv. rewrite key_lt_irrefl in Hv. injection Hv as <-.
    f_equal. apply IH; [done..|]. intros k. specialize (Hg k).
    destruct (key_lt k k1) eqn:Hlt.
    + by rewrite !get_above by (by eapply above_trans).
    + destruct (key_lt k1 k) eqn:Hgt; [done|].
      rewrite (key_lt_total k k1) by done. by rewrite !get_above.
Qed.

Lemma insert_comm k1 v1 k2 v2 m : k1 ≠ k2 → bt_sorted m →
  bt_insert k1 v1 (bt_insert k2 v2 m) = bt_insert k2 v2 (bt_insert k1 v1 m).
Proof.
  intros Hne Hs. apply bt_ext; [by repeat apply insert_sorted..|]. intros k.
  assert (EqDecision K) as Hdec.
  { intros a b. destruct (key_lt a b) eqn:Hab; [right|destruct (key_lt b a) eqn:Hba; [right|left]].
    - intros ->. by rewrite key_lt_irrefl in Hab.
    - intros ->. by rewrite key_lt_irrefl in Hba.
    - by apply key_lt_total. }
  destruct (decide (k = k1)) as [->|Hk1]; [|destruct (decide (k = k2)) as [->|Hk2]].
  - rewrite get_insert, get_insert_ne, get_insert by auto using insert_sorted. done.
  - rewrite get_insert_ne, !get_insert by auto using insert_sorted. done.
  - by rewrite !get_insert_ne by auto using insert_sorted.
Qed.

(** The entries after an insertion, up to order. *)
Lemma insert_new_perm k v m : bt_sorted m → bt_get k m = None → bt_insert k v m ≡ₚ (k, v) :: m.
Proof.
  induction m as [|[k' v'] m IH]; cbn; [done|]. intros [Ha Hs].
  destruct (key_lt k k') eqn:Hlt; [done|]. destruct (key_lt k' k) eqn:Hgt; [|done].
  intros Hg. rewrite IH by done. constructor.
Qed.

Lemma insert_old_perm k v v0 m : bt_sorted m → bt_get k m = Some v0 →
  ∃ m', m ≡ₚ (k, v0) :: m' ∧ bt_insert k v m ≡ₚ (k, v) :: m'.
Proof.
  induction m as [|[k' v'] m IH]; cbn; [done|]. intros [Ha Hs].
  destruct (key_lt k k') eqn:Hlt; [done|]. destruct (key_lt k' k) eqn:Hgt.
  - intros Hg. destruct (IH Hs Hg) as (m' & Hm & Hi). exists ((k', v') :: m'). split.
    + rewrite Hm. constructor.
    + rewrite Hi. constructor.
  - intros [= ->]. rewrite (key_lt_total k k') by done. by exists m.
Qed.

(** Building a map from entries that are already in order. *)
Definition bt_of (l : list (K * V)) : list (K * V) :=
  foldl (λ m x, bt_insert x.1 x.2 m) [] l.

Lemma foldl_insert_sorted acc l :
  bt_sorted l → (∀ x y, x ∈ acc → y ∈ l → key_lt x.1 y.1 = true) →
  foldl (λ m x, bt_insert x.1 x.2 m) acc l = acc ++ l.
Proof.
  revert acc. induction l as [|[k v] l IH]; intros acc Hs Hlt; cbn; [by rewrite app_nil_r|].
  destruct Hs as [Ha Hs]. rewrite insert_last.
  - rewrite IH; [by rewrite <- app_assoc | done|].
    intros x y [Hx|Hx%list_elem_of_singleton]%elem_of_app Hy; [apply Hlt; [done|by right]|].
    subst x. exact (proj1 (Forall_forall _ _) Ha _ Hy).
  - apply Forall_forall. intros x Hx. apply (Hlt x (k, v)); [done | left].
Qed.

Lemma bt_of_sorted l : bt_sorted l → bt_of l = l.
Proof. intros Hs. unfold bt_of. rewrite foldl_insert_sorted; [done..|set_solver]. Qed.

Lemma bt_sorted_of l : bt_sorted (bt_of l).
Proof.
  unfold bt_of. assert (bt_sorted []) as Hs by done. revert Hs. generalize (@nil (K * V)).
  induction l as [|[k v] l IH]; intros m Hs; cbn; [done|]. apply IH. by apply insert_sorted.
Qed.
End btree.

#[export] Hint Resolve insert_sorted bt_sorted_of : babar.
