(* ===== verification/SqlIr.v ===== *)
(** * Typed SQL: the parsed statement and its errors

    [crates/macros/src/typed_sql/ir.rs] and the errors of [typed_sql/mod.rs].  The SQL macros
    parse a statement with the [sqlparser] crate, normalise it to the trees of this file, resolve
    and type it against the declared schema, and generate code.  The trees are the input of
    [Resolver.v].  Identifiers and offsets, [u32] in the source, are integers. *)
From S2P Require Import Prelude Text.

Local Open Scope Z_scope.
Local Open Scope str_scope.

Definition AstId : Type := Z.
Definition PlaceholderId : Type := Z.

Record SourceSpan := mk_span { span_start : Z; span_end : Z }.
Record IdentSyntax := mk_ident { ident_value : str; ident_span : SourceSpan }.
Record ObjectNameSyntax := mk_object_name { name_parts : list IdentSyntax; name_span : SourceSpan }.

Inductive OutputNameSyntax := ExplicitName (i : IdentSyntax) | ImplicitName (i : IdentSyntax) | AnonymousName.

Inductive StatementKind := KQuery | KInsert | KUpdate | KDelete.
Inductive StatementResultKind := RRows | RCommand.
Inductive RowStatementKind := RKSelect | RKInsert | RKUpdate | RKDelete.
Inductive CommandStatementKind := CKInsert | CKUpdate | CKDelete.

Inductive JoinKind := JInner | JLeft | JRight | JFull.
Inductive OrderDirection := Asc | Desc.
Inductive NullsOrder := NullsFirst | NullsLast.
Inductive Literal := LNumber (digits : str) | LString (s : str) | LBoolean (b : bool) | LNull.
Inductive UnaryOp := Not | Plus | Minus.
Inductive BinaryOp := Eq | NotEq | Lt | LtEq | Gt | GtEq.
Inductive BoolOp := And | Or.

(** ** Expressions *)
Record ColumnRefSyntax := mk_column_ref {
  cr_id : AstId; cr_span : SourceSpan; cr_binding : IdentSyntax; cr_column : IdentSyntax;
}.
Record PlaceholderRef := mk_placeholder {
  ph_id : AstId; ph_span : SourceSpan; placeholder_id : PlaceholderId; ph_name : str; ph_slot : Z; ph_optional : bool;
}.
Record ParsedLiteral := mk_parsed_literal { lit_id : AstId; lit_span : SourceSpan; lit_value : Literal }.

Inductive ParsedExpr :=
  | PColumn (c : ColumnRefSyntax)
  | PPlaceholder (p : PlaceholderRef)
  | PLiteral (l : ParsedLiteral)
  | POptionalGroup (id : AstId) (span : SourceSpan) (expr : ParsedExpr)
  | PUnary (id : AstId) (span : SourceSpan) (op : UnaryOp) (expr : ParsedExpr)
  | PBinary (id : AstId) (span : SourceSpan) (op : BinaryOp) (left right : ParsedExpr)
  | PIsNull (id : AstId) (span : SourceSpan) (negated : bool) (expr : ParsedExpr)
  | PBoolChain (id : AstId) (span : SourceSpan) (op : BoolOp) (terms : list ParsedExpr).

Definition expr_span (e : ParsedExpr) : SourceSpan :=
  match e with
  | PColumn c => cr_span c
  | PPlaceholder p => ph_span p
  | PLiteral l => lit_span l
  | POptionalGroup _ span _ | PUnary _ span _ _ | PBinary _ span _ _ _ | PIsNull _ span _ _ | PBoolChain _ span _ _ => span
  end.

(** ** Clauses *)
Record ParsedFrom := mk_from {
  from_id : AstId; from_span : SourceSpan; table_name : ObjectNameSyntax; binding_name : IdentSyntax;
}.
Record ParsedJoin := mk_join {
  join_id : AstId; join_span : SourceSpan; join_kind : JoinKind; join_right : ParsedFrom; join_on : ParsedExpr;
}.
Record ParsedProjection := mk_projection {
  proj_id : AstId; proj_span : SourceSpan; proj_expr : ParsedExpr; output_name : OutputNameSyntax;
}.
Record ParsedOrderBy := mk_order_by {
  ob_id : AstId; ob_span : SourceSpan; ob_expr : ParsedExpr; ob_direction : OrderDirection; ob_nulls : option NullsOrder;
}.
Record ParsedLimit := mk_limit { limit_id : AstId; limit_span : SourceSpan; limit_expr : ParsedExpr }.
Record ParsedOffset := mk_offset { offset_id : AstId; offset_span : SourceSpan; offset_expr : ParsedExpr }.
Record ParsedValuesRow := mk_values_row { row_id : AstId; row_span : SourceSpan; row_values : list ParsedExpr }.
Record ParsedAssignmentTarget := mk_assignment_target {
  at_span : SourceSpan; at_binding : option IdentSyntax; at_column : IdentSyntax;
}.
Record ParsedAssignment := mk_assignment {
  as_id : AstId; as_span : SourceSpan; as_target : ParsedAssignmentTarget; as_value : ParsedExpr;
}.

(** ** Statements *)
Record ParsedSelect := mk_select {
  sel_id : AstId; sel_span : SourceSpan; sel_projections : list ParsedProjection; sel_from : ParsedFrom;
  sel_joins : list ParsedJoin; sel_filter : option ParsedExpr; sel_order_by : list ParsedOrderBy;
  sel_limit : option ParsedLimit; sel_offset : option ParsedOffset;
}.
Record ParsedInsert := mk_insert {
  ins_id : AstId; ins_span : SourceSpan; ins_target : ParsedFrom; ins_columns : list IdentSyntax;
  ins_values : list ParsedValuesRow; ins_returning : list ParsedProjection;
}.
Record ParsedUpdate := mk_update {
  upd_id : AstId; upd_span : SourceSpan; upd_target : ParsedFrom; upd_assignments : list ParsedAssignment;
  upd_filter : ParsedExpr; upd_returning : list ParsedProjection;
}.
Record ParsedDelete := mk_delete {
  del_id : AstId; del_span : SourceSpan; del_target : ParsedFrom; del_filter : ParsedExpr;
  del_returning : list ParsedProjection;
}.

Record ParsedRowColumn := mk_row_column { rc_id : AstId; rc_span : SourceSpan; rc_output_name : OutputNameSyntax }.
Definition ParsedRowShape : Type := (list ParsedRowColumn).
Definition from_projection (p : ParsedProjection) : ParsedRowColumn :=
  mk_row_column (proj_id p) (proj_span p) (output_name p).
Definition from_projections (ps : list ParsedProjection) : ParsedRowShape := map from_projection ps.

Inductive ParsedRowStatementBody :=
  | RBSelect (s : ParsedSelect) | RBInsert (i : ParsedInsert) | RBUpdate (u : ParsedUpdate) | RBDelete (d : ParsedDelete).
Record ParsedRowStatement := mk_row_statement {
  rs_kind : RowStatementKind; rs_shape : ParsedRowShape; rs_body : ParsedRowStatementBody;
}.
Definition row_select (s : ParsedSelect) : ParsedRowStatement :=
  mk_row_statement RKSelect (from_projections (sel_projections s)) (RBSelect s).
Definition row_insert (i : ParsedInsert) : ParsedRowStatement :=
  mk_row_statement RKInsert (from_projections (ins_returning i)) (RBInsert i).
Definition row_update (u : ParsedUpdate) : ParsedRowStatement :=
  mk_row_statement RKUpdate (from_projections (upd_returning u)) (RBUpdate u).
Definition row_delete (d : ParsedDelete) : ParsedRowStatement :=
  mk_row_statement RKDelete (from_projections (del_returning d)) (RBDelete d).

Inductive ParsedCommandStatementBody := CBInsert (i : ParsedInsert) | CBUpdate (u : ParsedUpdate) | CBDelete (d : ParsedDelete).
Record ParsedCommandStatement := mk_command_statement { cs_kind : CommandStatementKind; cs_body : ParsedCommandStatementBody }.
Definition command_insert (i : ParsedInsert) : ParsedCommandStatement := mk_command_statement CKInsert (CBInsert i).
Definition command_update (u : ParsedUpdate) : ParsedCommandStatement := mk_command_statement CKUpdate (CBUpdate u).
Definition command_delete (d : ParsedDelete) : ParsedCommandStatement := mk_command_statement CKDelete (CBDelete d).

Inductive ParsedStatementBody := SBRows (r : ParsedRowStatement) | SBCommand (c : ParsedCommandStatement).
Record ParsedStatement := mk_statement { st_kind : StatementKind; st_result : StatementResultKind; st_body : ParsedStatementBody }.

Definition statement_query (r : ParsedRowStatement) : ParsedStatement := mk_statement KQuery RRows (SBRows r).
Definition statement_rows (k : StatementKind) (r : ParsedRowStatement) : ParsedStatement := mk_statement k RRows (SBRows r).
Definition statement_command (k : StatementKind) (c : ParsedCommandStatement) : ParsedStatement :=
  mk_statement k RCommand (SBCommand c).
Definition row_statement (s : ParsedStatement) : option ParsedRowStatement :=
  match st_body s with SBRows r => Some r | SBCommand _ => None end.
Definition command_statement (s : ParsedStatement) : option ParsedCommandStatement :=
  match st_body s with SBRows _ => None | SBCommand c => Some c end.
Definition row_as_select (r : ParsedRowStatement) : option ParsedSelect :=
  match rs_body r with RBSelect s => Some s | _ => None end.
Definition as_select (s : ParsedStatement) : option ParsedSelect := row_statement s ≫= row_as_select.

(** ** Errors *)
Inductive TypedSqlErrorKind := EParse | EUnsupported | EResolve | EType | EInternal.
Record TypedSqlError := mk_sql_error { err_kind : TypedSqlErrorKind; err_message : str; err_span : option SourceSpan }.

Definition unsupported_at (m : str) (span : SourceSpan) : TypedSqlError := mk_sql_error EUnsupported m (Some span).
Definition resolve_at (m : str) (span : SourceSpan) : TypedSqlError := mk_sql_error EResolve m (Some span).
Definition type_at (m : str) (span : SourceSpan) : TypedSqlError := mk_sql_error EType m (Some span).
Definition internal (m : str) : TypedSqlError := mk_sql_error EInternal m None.

Definition stage_name (e : TypedSqlError) : str :=
  match err_kind e with
  | EParse => "parse" | EUnsupported => "normalize" | EResolve => "resolve" | EType => "type" | EInternal => "internal"
  end.

Definition headline (e : TypedSqlError) : str :=
  match err_kind e with
  | EParse => "invalid SQL for typed_sql v1"
  | EUnsupported => "this SQL construct is outside the typed_sql v1 subset"
  | EResolve => "could not resolve a table or column in typed_sql v1"
  | EType => "typed_sql v1 could not prove this query is well-typed"
  | EInternal => "typed_sql v1 hit an internal error"
  end.

Definition help (e : TypedSqlError) : option str :=
  let mentions s := contains s (err_message e) in
  match err_kind e with
  | EParse =>
    if mentions "expected an expression" then
      Some "add a placeholder like `$id`, a literal, or a qualified column like `users.id`"
    else None
  | EUnsupported =>
    if mentions "wildcard projections" then
      Some "list each selected column explicitly, for example `SELECT users.id, users.name ...`"
    else if mentions "fully qualified column references" then
      Some "qualify the column with its relation binding, for example `users.id` or `u.id`"
    else if mentions "plain table references" then
      Some "rewrite the query to select directly from real tables with JOIN ... ON"
    else if mentions "`$value?`" then
      Some "attach `?` only when the placeholder directly owns an entire WHERE/JOIN comparison or the full LIMIT/OFFSET expression; use `(...)?` for larger predicate groups"
    else if mentions "`(...)?`" then
      Some "wrap an entire parenthesized WHERE/JOIN predicate or a single ORDER BY expression, for example `(users.id = $id?)?`; do not wrap whole clauses or LIMIT/OFFSET"
    else None
  | EType =>
    if mentions "never constrained" then
      Some "compare the placeholder against a qualified column, or use it in LIMIT/OFFSET so its SQL type becomes known"
    else None
  | EInternal => Some "this is a bug in babar; please file an issue with the query that triggered it"
  | EResolve => None
  end%s.

Definition span_display (s : SourceSpan) : str := Text.dec (span_start s) ++ ".." ++ Text.dec (span_end s).

Definition TypedSqlError_display (e : TypedSqlError) : str :=
  headline e ++ ": " ++ err_message e
  ++ match help e with Some h => [x0a] ++ "help: " ++ h | None => [] end
  ++ match err_span e with Some s => [x0a] ++ "span: " ++ span_display s | None => [] end.
