(* ===== verification/SqlSource.v ===== *)
(** * Typed SQL: the source text and its canonical form

    [crates/macros/src/typed_sql/source.rs].  The macro's SQL has named placeholders ([$id]),
    optional ones ([$id?]) and optional groups ([(...)?]); [canonicalize] rewrites it to SQL with
    numbered placeholders, which the [sqlparser] crate can parse, and keeps a source map from
    which the spans of its tokens are brought back to the original text.

    The scanner works on characters; each step of its loop is [scan_step], and the loop takes
    fuel, one unit per character.  Offsets are in bytes. *)
From S2P Require Import Prelude Bytes Text SqlIr.

Local Open Scope Z_scope.
Local Open Scope str_scope.

(** ** Characters *)
Definition digit_char (c : Z) : bool := (48 <=? c) && (c <=? 57).
Definition alpha_char (c : Z) : bool := ((65 <=? c) && (c <=? 90)) || ((97 <=? c) && (c <=? 122)).
Definition is_ident_start (c : Z) : bool := (c =? 95) || alpha_char c.
Definition is_ident_continue (c : Z) : bool := (c =? 95) || alpha_char c || digit_char c.

Fixpoint take_while (f : Z → bool) (cs : list Z) : list Z :=
  match cs with
  | c :: cs => if f c then c :: take_while f cs else []
  | [] => []
  end.

Definition len (s : str) : Z := Z.of_nat (length s).

Definition to_u32 (z : Z) : result TypedSqlError Z :=
  if z <? 2 ^ 32 then Ok z else Err (internal ("value " ++ Text.dec z ++ " does not fit in u32")).

(** [&s[a..b]] *)
Definition slice (s : str) (a b : Z) : str := take (Z.to_nat (b - a)) (drop (Z.to_nat a) s).

Definition upper_byte (b : byte) : byte := if is_ascii_lowercase b then byte_of (u8_of b - 32) else b.
Definition to_ascii_uppercase (s : str) : str := map upper_byte s.

Definition starts_with_optional_clause_keyword (input : str) : bool :=
  let upper := to_ascii_uppercase (Text.trim_start input) in
  existsb (λ k, Text.starts_with (k ++ " ") upper || bool_decide (upper = k)) ["WHERE"; "ORDER BY"; "LIMIT"; "OFFSET"].

(** ** Tables *)
Record PlaceholderOccurrence := mk_occurrence { occ_original : SourceSpan; occ_canonical : SourceSpan; occ_optional : bool }.
Record PlaceholderEntry := mk_entry {
  entry_id : PlaceholderId; entry_name : str; entry_slot : Z; occurrences : list PlaceholderOccurrence;
}.
Record OptionalGroup := mk_group { group_original : SourceSpan; group_canonical : SourceSpan }.
Record ReplacementSpan := mk_replacement { rep_canonical : SourceSpan; rep_original : SourceSpan }.
Definition SourceMap : Type := (list ReplacementSpan).

Record CanonicalizedSql := mk_canonicalized {
  can_sql : str; can_map : SourceMap; can_placeholders : list PlaceholderEntry; can_groups : list OptionalGroup;
}.

Definition entry_for_token (entries : list PlaceholderEntry) (token : str) : option PlaceholderEntry :=
  digits ← Text.strip_prefix "$" token;
  slot ← to_option (Text.parse_uint 32 10 digits);
  '(_, e) ← list_find (λ e, entry_slot e = slot) entries;
  Some e.

Definition entry_for_canonical_span (groups : list OptionalGroup) (span : SourceSpan) : option OptionalGroup :=
  '(_, g) ← list_find (λ g, (span_start (group_canonical g) ≤ span_start span) ∧ (span_end span ≤ span_end (group_canonical g))) groups;
  Some g.

(** ** The source map *)
Inductive OffsetAnchor := AStart | AEnd.

Definition anchored (a : OffsetAnchor) (r : ReplacementSpan) : Z :=
  match a with AStart => span_start (rep_original r) | AEnd => span_end (rep_original r) end.
Definition span_len (s : SourceSpan) : Z := span_end s - span_start s.

(** The loop of [original_offset]: [delta] is an [i64], the result is cast to [u32]. *)
Fixpoint original_offset_loop (offset delta : Z) (a : OffsetAnchor) (rs : SourceMap) : Z :=
  match rs with
  | [] => wrap_uint 32 (offset + delta)
  | r :: rs =>
    if offset <? span_start (rep_canonical r) then wrap_uint 32 (offset + delta)
    else if offset <=? span_end (rep_canonical r) then anchored a r
    else original_offset_loop offset (delta + span_len (rep_original r) - span_len (rep_canonical r)) a rs
  end.
Definition original_offset (m : SourceMap) (offset : Z) (a : OffsetAnchor) : Z := original_offset_loop offset 0 a m.
Definition original_span (m : SourceMap) (s : SourceSpan) : SourceSpan :=
  mk_span (original_offset m (span_start s) AStart) (original_offset m (span_end s) AEnd).

(** ** The scanner *)
Inductive ScanState := Normal | SingleQuoted | DoubleQuoted | LineComment | BlockComment (depth : Z).
Record ParenFrame := mk_frame { frame_original : Z; frame_canonical : Z }.

(** The locals of [canonicalize_parts]. *)
Record Scan := mk_scan {
  sc_out : str;
  sc_replacements : list ReplacementSpan;
  sc_slots : gmap str nat;
  sc_placeholders : list PlaceholderEntry;
  sc_groups : list OptionalGroup;
  sc_parens : list ParenFrame;
  sc_state : ScanState;
  sc_off : Z;
  sc_rest : list Z;
}.

Definition scan_new (sql : str) : Scan := mk_scan [] [] ∅ [] [] [] Normal 0 (chars sql).

Definition width (cs : list Z) : Z := len (encode_chars cs).

(** Copy [cs], the next characters, and go to [st]. *)
Definition copy (cs : list Z) (rest : list Z) (st : ScanState) (s : Scan) : Scan :=
  mk_scan (sc_out s ++ encode_chars cs) (sc_replacements s) (sc_slots s) (sc_placeholders s) (sc_groups s) (sc_parens s) st
    (sc_off s + width cs) rest.

Definition push_paren (s : Scan) : Scan :=
  mk_scan (sc_out s) (sc_replacements s) (sc_slots s) (sc_placeholders s) (sc_groups s)
    (mk_frame (sc_off s) (len (sc_out s)) :: sc_parens s) (sc_state s) (sc_off s) (sc_rest s).
Definition pop_paren (s : Scan) : Scan :=
  mk_scan (sc_out s) (sc_replacements s) (sc_slots s) (sc_placeholders s) (sc_groups s) (tail (sc_parens s)) (sc_state s)
    (sc_off s) (sc_rest s).

Definition add_occurrence (o : PlaceholderOccurrence) (e : PlaceholderEntry) : PlaceholderEntry :=
  mk_entry (entry_id e) (entry_name e) (entry_slot e) (occurrences e ++ [o]).
Definition no_entry : PlaceholderEntry := mk_entry 0 [] 0 [].

(** [placeholder_slots.entry(name).or_insert_with(..)]: the index of the name's entry. *)
Definition intern (name : str) (s : Scan) : nat * gmap str nat * list PlaceholderEntry :=
  match sc_slots s !! name with
  | Some i => (i, sc_slots s, sc_placeholders s)
  | None =>
    let i := length (sc_placeholders s) in
    let next_slot := Z.of_nat i + 1 in
    (i, <[name := i]> (sc_slots s),
     sc_placeholders s ++ [mk_entry (wrap_uint 32 (next_slot - 1)) name (wrap_uint 32 next_slot) []])
  end.

(** A placeholder: [name] follows the [$], then [rest]. *)
Definition scan_placeholder (name rest : list Z) (s : Scan) : result TypedSqlError Scan :=
  let '(optional, rest) := match rest with 63 :: rest => (true, rest) | _ => (false, rest) end in
  let original_end := sc_off s + 1 + width name + (if optional : bool then 1 else 0) in
  let '(i, slots, entries) := intern (encode_chars name) s in
  let replacement := "$" ++ Text.dec (entry_slot (default no_entry (entries !! i))) in
  let out := sc_out s ++ replacement in
  original_start ← to_u32 (sc_off s);
  original_stop ← to_u32 original_end;
  canonical_start ← to_u32 (len (sc_out s));
  canonical_stop ← to_u32 (len out);
  let o := mk_occurrence (mk_span original_start original_stop) (mk_span canonical_start canonical_stop) optional in
  Ok (mk_scan out (sc_replacements s ++ [mk_replacement (occ_canonical o) (occ_original o)]) slots
        (alter (add_occurrence o) i entries) (sc_groups s) (sc_parens s) Normal original_end rest).

(** A [)?], which [rest] follows. *)
Definition scan_group (sql : str) (rest : list Z) (s : Scan) : result TypedSqlError Scan :=
  let out := sc_out s ++ ")" in
  let original_end := sc_off s + 1 in
  let frame := head (sc_parens s) in
  let original_with_suffix_end := original_end + 1 in
  span_from ← to_u32 (match frame with Some f => frame_original f | None => sc_off s end);
  span_to ← to_u32 original_with_suffix_end;
  if starts_with_optional_clause_keyword (slice sql (span_from + 1) original_end) then
    Err (unsupported_at "typed_sql v1 requires `(...)?` to own a parenthesized predicate or single ORDER BY item; it cannot wrap a clause keyword like ORDER BY, LIMIT, or OFFSET"
          (mk_span span_from span_to))
  else
    group_from ← to_u32 (match frame with Some f => frame_canonical f | None => len out - 1 end);
    group_to ← to_u32 (len out);
    suffix_from ← to_u32 original_end;
    Ok (mk_scan out (sc_replacements s ++ [mk_replacement (mk_span group_to group_to) (mk_span suffix_from span_to)])
          (sc_slots s) (sc_placeholders s) (sc_groups s ++ [mk_group (mk_span span_from span_to) (mk_span group_from group_to)])
          (tail (sc_parens s)) Normal original_with_suffix_end rest).

(** [ScanState::Normal], at the character [c]. *)
Definition scan_normal (sql : str) (c : Z) (rest : list Z) (s : Scan) : result TypedSqlError Scan :=
  let other := Ok (copy [c] rest Normal s) in
  if c =? 39 then Ok (copy [c] rest SingleQuoted s)
  else if c =? 34 then Ok (copy [c] rest DoubleQuoted s)
  else if c =? 45 then match rest with 45 :: rest => Ok (copy [45; 45] rest LineComment s) | _ => other end
  else if c =? 47 then match rest with 42 :: rest => Ok (copy [47; 42] rest (BlockComment 1) s) | _ => other end
  else if c =? 36 then
    match rest with
    | next :: _ =>
      if digit_char next then
        start ← to_u32 (sc_off s);
        stop ← to_u32 (sc_off s + 1);
        Err (unsupported_at "only named placeholders are supported in typed_sql v1" (mk_span start stop))
      else if is_ident_start next then
        let name := next :: take_while is_ident_continue (tail rest) in
        scan_placeholder name (drop (length name) rest) s
      else other
    | [] => other
    end
  else if c =? 40 then Ok (copy [c] rest Normal (push_paren s))
  else if c =? 41 then
    match rest with
    | 63 :: rest => scan_group sql rest s
    | _ => Ok (copy [c] rest Normal (pop_paren s))
    end
  else other.

(** Inside quotes: a doubled quote does not end them. *)
Definition scan_quoted (quote c : Z) (rest : list Z) (s : Scan) : Scan :=
  if c =? quote then
    match rest with
    | next :: rest' => if next =? quote then copy [c; quote] rest' (sc_state s) s else copy [c] rest Normal s
    | [] => copy [c] rest Normal s
    end
  else copy [c] rest (sc_state s) s.

(** Comments nest. *)
Definition scan_block_comment (depth c : Z) (rest : list Z) (s : Scan) : Scan :=
  match c, rest with
  | 47, 42 :: rest => copy [47; 42] rest (BlockComment (depth + 1)) s
  | 42, 47 :: rest => copy [42; 47] rest (if depth - 1 =? 0 then Normal else BlockComment (depth - 1)) s
  | _, _ => copy [c] rest (BlockComment depth) s
  end.

Definition scan_step (sql : str) (c : Z) (rest : list Z) (s : Scan) : result TypedSqlError Scan :=
  match sc_state s with
  | Normal => scan_normal sql c rest s
  | SingleQuoted => Ok (scan_quoted 39 c rest s)
  | DoubleQuoted => Ok (scan_quoted 34 c rest s)
  | LineComment => Ok (copy [c] rest (if c =? 10 then Normal else LineComment) s)
  | BlockComment depth => Ok (scan_block_comment depth c rest s)
  end.

(** [None] when the fuel runs out. *)
Fixpoint scan_loop (fuel : nat) (sql : str) (s : Scan) : option (result TypedSqlError Scan) :=
  match sc_rest s with
  | [] => Some (Ok s)
  | c :: rest =>
    match fuel with
    | O => None
    | S fuel =>
      match scan_step sql c rest s with
      | Err e => Some (Err e)
      | Ok s => scan_loop fuel sql s
      end
    end
  end.

Definition canonicalize_parts (sql : str) : result TypedSqlError CanonicalizedSql :=
  match scan_loop (length (chars sql)) sql (scan_new sql) with
  | None => Err (internal "out of fuel")
  | Some (Err e) => Err e
  | Some (Ok s) => Ok (mk_canonicalized (sc_out s) (sc_replacements s) (sc_placeholders s) (sc_groups s))
  end.

(** ** The source, and positions in it *)
Record SqlSource := mk_source {
  original_sql : str; canonical_sql : str; source_map : SourceMap; src_placeholders : list PlaceholderEntry;
  src_groups : list OptionalGroup; src_line_starts : list Z;
}.

(** [line_starts], from the offset [off]. *)
Fixpoint line_starts_from (off : Z) (cs : list Z) : list Z :=
  match cs with
  | [] => []
  | c :: cs => (if c =? 10 then [off + 1] else []) ++ line_starts_from (off + width [c]) cs
  end.
Definition line_starts (sql : str) : list Z := 0 :: line_starts_from 0 (chars sql).

Definition from_canonicalized (sql : str) (c : CanonicalizedSql) : SqlSource :=
  mk_source sql (can_sql c) (can_map c) (can_placeholders c) (can_groups c) (line_starts (can_sql c)).
Definition canonicalize (sql : str) : result TypedSqlError SqlSource :=
  c ← canonicalize_parts sql; Ok (from_canonicalized sql c).

Definition nth_char_boundary (input : str) (n : Z) : option Z :=
  if n =? 0 then Some 0
  else if n <=? Z.of_nat (length (chars input)) then Some (width (take (Z.to_nat n) (chars input))) else None.

(** Lines and columns are [u64]s, counted from one. *)
Definition byte_offset_for_location (src : SqlSource) (line column : Z) : result TypedSqlError Z :=
  let index := Z.to_nat (line - 1) in
  line_start ← ok_or (src_line_starts src !! index) (internal ("line " ++ Text.dec line ++ " is outside canonical SQL"));
  let line_end := match src_line_starts src !! S index with Some next => next - 1 | None => len (canonical_sql src) end in
  offset ← ok_or (nth_char_boundary (slice (canonical_sql src) line_start line_end) (Z.max 0 (column - 1)))
             (internal ("column " ++ Text.dec column ++ " is outside canonical SQL line " ++ Text.dec line));
  Ok (line_start + offset).

Record Location := mk_location { loc_line : Z; loc_column : Z }.

Definition canonical_span_for_parser (src : SqlSource) (from to : Location) : result TypedSqlError SourceSpan :=
  if (loc_line from =? 0) || (loc_line to =? 0) then Ok (mk_span 0 0)
  else
    start ← byte_offset_for_location src (loc_line from) (loc_column from);
    stop ← byte_offset_for_location src (loc_line to) (loc_column to);
    a ← to_u32 start;
    b ← to_u32 stop;
    Ok (mk_span a b).

(** The offset after the last line feed, or zero. *)
Definition after_last_newline (s : str) : Z :=
  len s - len (default [] (last (Text.split_byte x0a s))).

Definition pad_left (w : nat) (s : str) : str := replicate (w - length s) x20 ++ s.

Definition render_span_excerpt (src : SqlSource) (span : SourceSpan) : option str :=
  let s := original_sql src in
  let start := span_start span in
  let stop := span_end span in
  if (len s <? start) || (len s <? stop) || (stop <? start) then None
  else
    let line_start := after_last_newline (slice s 0 start) in
    let line_end := stop + len (default [] (head (Text.split_byte x0a (slice s stop (len s))))) in
    let line_text := slice s line_start line_end in
    let line_number := Z.of_nat (length (filter (λ b, b = x0a) (slice s 0 start))) + 1 in
    let column_start := length (chars (slice s line_start start)) in
    let underline_width := if start =? stop then 1%nat else Nat.max 1 (length (chars (slice s start stop))) in
    Some ("   |" ++ [x0a] ++ pad_left 2 (Text.dec line_number) ++ " | " ++ line_text ++ [x0a] ++ "   | "
          ++ replicate column_start x20 ++ replicate underline_width x5e).

(** [TypedSqlError::render_for_user] *)
Definition render_for_user (e : TypedSqlError) (src : SqlSource) : str :=
  headline e ++ ": " ++ err_message e
  ++ match err_span e ≫= render_span_excerpt src with Some excerpt => [x0a] ++ excerpt | None => [] end
  ++ match help e with Some h => [x0a] ++ "help: " ++ h | None => [] end.

Definition is_clause_keyword (token : str) : bool :=
  bool_decide (token ∈ (["WHERE"; "GROUP"; "ORDER"; "LIMIT"; "OFFSET"; "JOIN"] : list str)).

(** A token of the [sqlparser] crate: its text, whether it is whitespace, and its span. *)
Record Token := mk_token { tok_text : str; tok_trivia : bool; tok_from : Location; tok_to : Location }.

Section tokens.
Context (tokenize : str → result str (list Token)).

Definition tokens_of (src : SqlSource) : result TypedSqlError (list Token) :=
  map_err (λ e, internal ("failed to tokenize canonical SQL while building diagnostics: " ++ e))
    (ts ← tokenize (canonical_sql src); Ok (filter (λ t, tok_trivia t = false) ts)).

Fixpoint keyword_after_from (src : SqlSource) (saw_from : bool) (ts : list Token) : result TypedSqlError (option (str * SourceSpan)) :=
  match ts with
  | [] => Ok None
  | t :: ts =>
    if saw_from then
      if is_clause_keyword (tok_text t) then
        span ← canonical_span_for_parser src (tok_from t) (tok_to t);
        Ok (Some (tok_text t, original_span (source_map src) span))
      else keyword_after_from src false ts
    else keyword_after_from src (bool_decide (tok_text t = "FROM"%s)) ts
  end.
Definition clause_keyword_after_from (src : SqlSource) : result TypedSqlError (option (str * SourceSpan)) :=
  ts ← tokens_of src; keyword_after_from src false ts.

(** The loop of [anchor_canonical_span]. *)
Fixpoint anchor_loop (src : SqlSource) (offset : Z) (expected : option str) (ts : list Token)
    (previous previous_matching : option SourceSpan) : result TypedSqlError (option SourceSpan) :=
  match ts with
  | [] => Ok (match previous_matching with Some s => Some s | None => previous end)
  | t :: ts =>
    span ← canonical_span_for_parser src (tok_from t) (tok_to t);
    let here := (offset <=? span_start span) || (offset <? span_end span) in
    if bool_decide (expected = Some (tok_text t)) then
      if here then Ok (Some span) else anchor_loop src offset expected ts previous (Some span)
    else
      if here then Ok (Some span) else anchor_loop src offset expected ts (Some span) previous_matching
  end.
Definition anchor_canonical_span (src : SqlSource) (offset : Z) (expected : option str) : result TypedSqlError (option SourceSpan) :=
  ts ← tokens_of src; anchor_loop src offset expected ts None None.

Definition anchor_parser_error_span (src : SqlSource) (line column : Z) (expected : option str)
  : result TypedSqlError (option SourceSpan) :=
  if (line =? 0) || (column =? 0) then Ok None
  else
    offset ← byte_offset_for_location src line column;
    span ← anchor_canonical_span src offset expected;
    match span with
    | Some span => Ok (Some (original_span (source_map src) span))
    | None => a ← to_u32 offset; b ← to_u32 offset; Ok (Some (original_span (source_map src) (mk_span a b)))
    end.
End tokens.

(** ** Errors of the parser ([typed_sql/parse_backend.rs]) *)

(** [s.rsplit_once(p)] *)
Definition rsplit_once (p s : str) : option (str * str) :=
  '(l, r) ← Text.split_once (reverse p) (reverse s); Some (reverse r, reverse l).

Definition split_error_location (error : str) : str * option (Z * Z) :=
  let unlocated := (Text.trim error, None) in
  match rsplit_once " at Line: " error with
  | None => unlocated
  | Some (message, suffix) =>
    match Text.split_once ", Column: " suffix with
    | None => unlocated
    | Some (line, column) =>
      match Text.parse_uint 64 10 (Text.trim line), Text.parse_uint 64 10 (Text.trim column) with
      | Ok line, Ok column => (Text.trim message, Some (line, column))
      | _, _ => unlocated
      end
    end
  end.

Definition extract_found_token (message : str) : option str :=
  details ← Text.strip_prefix "Expected: " (Text.trim message);
  '(_, found) ← Text.split_once ", found: " details;
  if bool_decide (Text.trim found = "EOF"%s) then None else Some (Text.trim found).

Section parser_errors.
(** [to_lowercase]: [char::to_lowercase], the table of Unicode. *)
Context (to_lowercase : Z → list Z) (tokenize : str → result str (list Token)).

Definition lowercase_first (input : str) : str :=
  match chars input with [] => [] | first :: rest => encode_chars (to_lowercase first ++ rest) end.

Definition clean_parse_message (message : str) : str :=
  let message := Text.trim message in
  match Text.strip_prefix "Expected: " message with
  | None => message
  | Some details =>
    match Text.split_once ", found: " details with
    | None => message
    | Some (expected, found) =>
      let found := Text.trim found in
      "expected " ++ lowercase_first (Text.trim expected) ++ " before "
      ++ (if bool_decide (found = "EOF"%s) then "end of input" else "`" ++ found ++ "`")
    end
  end.

Definition map_parser_error (src : SqlSource) (error : str) : TypedSqlError :=
  let '(message, location) := split_error_location error in
  let normalized := Text.trim (default message (Text.strip_prefix "sql parser error: " message)) in
  let generic :=
    mk_sql_error EParse (clean_parse_message normalized)
      ('(line, column) ← location;
       mjoin (to_option (anchor_parser_error_span tokenize src line column (extract_found_token normalized)))) in
  if bool_decide (normalized = "Expected: end of statement, found: ."%s) then
    match clause_keyword_after_from tokenize src with
    | Ok (Some (keyword, span)) =>
      mk_sql_error EParse ("expected a table name after FROM before `" ++ keyword ++ "`") (Some span)
    | _ => generic
    end
  else generic.
End parser_errors.
