(* ===== verification/SqlSourceFacts.v ===== *)
(** * The canonical form of the macro's SQL

    The canonical text is the original with every named placeholder replaced by its number and
    the suffixes of optional groups dropped, and nothing else changed; the source map leads from
    the boundaries of its tokens back to the original, except where a token touches a
    placeholder. *)
From S2P Require Import Prelude Bytes Text SqlIr SqlSource.

Local Open Scope Z_scope.
Local Open Scope str_scope.

(** ** Pieces *)

(** A text and its canonical form, piece by piece: a character that is kept, a placeholder, or
    the end of an optional group. *)
Inductive piece := Plain (c : Z) | Hole (canonical original : str) | GroupEnd.

Definition canonical_text (p : piece) : str :=
  match p with Plain c => encode_char c | Hole a _ => a | GroupEnd => ")" end.
Definition original_text (p : piece) : str :=
  match p with Plain c => encode_char c | Hole _ b => b | GroupEnd => ")?" end.
Definition canonical_of (ps : list piece) : str := concat (map canonical_text ps).
Definition original_of (ps : list piece) : str := concat (map original_text ps).

(** The replacements of the pieces, from given offsets. *)
Fixpoint holes_at (c o : Z) (ps : list piece) : SourceMap :=
  match ps with
  | [] => []
  | p :: ps =>
    let c' := c + len (canonical_text p) in
    let o' := o + len (original_text p) in
    match p with
    | Plain _ => []
    | Hole _ _ => [mk_replacement (mk_span c c') (mk_span o o')]
    | GroupEnd => [mk_replacement (mk_span c' c') (mk_span (o' - 1) o')]
    end ++ holes_at c' o' ps
  end.

(** A placeholder is replaced by the number of its name. *)
Definition hole_of (i : nat) (name : str) (optional : bool) : piece :=
  Hole ("$" ++ Text.dec (Z.of_nat i + 1)) ("$" ++ name ++ (if optional then "?" else "")).
Definition piece_ok (names : list str) (p : piece) : Prop :=
  match p with
  | Hole _ _ => ∃ i name optional, names !! i = Some name ∧ p = hole_of i name optional
  | _ => True
  end.

Lemma len_app (s t : str) : len (s ++ t) = len s + len t.
Proof. unfold len. rewrite length_app. lia. Qed.
Lemma len_nonneg (s : str) : 0 ≤ len s.
Proof. unfold len. lia. Qed.

Lemma canonical_of_app ps qs : canonical_of (ps ++ qs) = canonical_of ps ++ canonical_of qs.
Proof. unfold canonical_of. by rewrite map_app, concat_app. Qed.
Lemma original_of_app ps qs : original_of (ps ++ qs) = original_of ps ++ original_of qs.
Proof. unfold original_of. by rewrite map_app, concat_app. Qed.

Lemma holes_at_app c o ps qs :
  holes_at c o (ps ++ qs) = holes_at c o ps ++ holes_at (c + len (canonical_of ps)) (o + len (original_of ps)) qs.
Proof.
  revert c o. induction ps as [|p ps IH]; intros c o.
  { cbn. unfold len. cbn. by rewrite !Z.add_0_r. }
  change (canonical_of (p :: ps)) with (canonical_text p ++ canonical_of ps).
  change (original_of (p :: ps)) with (original_text p ++ original_of ps).
  cbn [app holes_at]. rewrite IH, !len_app, !Z.add_assoc. by rewrite (assoc_L (++)).
Qed.

Lemma plain_of cs : canonical_of (map Plain cs) = encode_chars cs ∧ original_of (map Plain cs) = encode_chars cs
  ∧ ∀ c o, holes_at c o (map Plain cs) = [].
Proof.
  unfold canonical_of, original_of, encode_chars. rewrite !map_map. cbn. split; [done|]. split; [done|].
  induction cs as [|x cs IH]; intros c o; cbn; [done|]. apply IH.
Qed.

Lemma piece_ok_grow names names' p : piece_ok names p → piece_ok (names ++ names') p.
Proof.
  destruct p; try done. intros (i & name & optional & Hi & Hp). exists i, name, optional. split; [|done].
  by apply lookup_app_l_Some.
Qed.

Lemma piece_width names p : piece_ok names p → 0 < len (canonical_text p).
Proof.
  destruct p as [c|a b|]; cbn; [|intros (i & name & optional & _ & [= -> _])|done]; unfold len.
  - pose proof (encode_char_nonempty c). lia.
  - cbn. lia.
Qed.

(** ** The source map *)

(** Positions at which a token's start is mapped exactly: not after a placeholder or a group's
    end; and at which its end is: not before a placeholder. *)
Definition start_exact (l : list piece) : Prop := match last l with Some (Plain _) | None => True | _ => False end.
Definition end_exact (l : list piece) : Prop := match head l with Some (Hole _ _) => False | _ => True end.

Lemma start_exact_cons p l : start_exact (p :: l) → l ≠ [] → start_exact l.
Proof. destruct l as [|q l]; [done|]. unfold start_exact. by rewrite last_cons_cons. Qed.

Lemma offset_at names c o ps a : 0 ≤ o < 2 ^ 32 → Forall (piece_ok names) ps → (a = AEnd → end_exact ps) →
  original_offset_loop c (o - c) a (holes_at c o ps) = o.
Proof.
  intros Ho Hps Ha. assert (Hwrap : wrap_uint 32 (c + (o - c)) = o) by (rewrite wrap_uint_id; unfold in_uint; lia).
  destruct ps as [|p ps]; cbn; [done|]. apply Forall_cons in Hps as [Hp Hps].
  pose proof (piece_width _ _ Hp) as Hw. destruct p as [x|x y|]; cbn in *.
  - clear Ha Hp. set (k := len (encode_char x)) in *. assert (Hgen : ∀ k, 0 < k →
      original_offset_loop c (o - c) a (holes_at (c + k) (o + k) ps) = o); [|by apply Hgen].
    clear k Hw. induction ps as [|p ps IH]; intros k Hk; cbn; [done|]. apply Forall_cons in Hps as [Hp Hps].
    pose proof (piece_width _ _ Hp) as Hw. destruct p; cbn in *.
    + rewrite <- !Z.add_assoc. apply IH; [done|lia].
    + destruct (Z.ltb_spec c (c + k)); [done|lia].
    + destruct (Z.ltb_spec c (c + k + len ")")); [done|lia].
  - rewrite Z.ltb_irrefl. destruct (Z.leb_spec c (c + len x)); [|lia]. destruct a; [done|]. by destruct (Ha eq_refl).
  - destruct (Z.ltb_spec c (c + len ")")); [done|lia].
Qed.

Lemma offset_exact names c o l1 l2 a : 0 ≤ o → o + len (original_of l1) < 2 ^ 32 → Forall (piece_ok names) (l1 ++ l2) →
  match a with AStart => start_exact l1 | AEnd => end_exact l2 end →
  original_offset_loop (c + len (canonical_of l1)) (o - c) a (holes_at c o (l1 ++ l2)) = o + len (original_of l1).
Proof.
  revert c o. induction l1 as [|p l1 IH]; intros c o Ho Hlt Hps Ha.
  { cbn in *. replace (len (original_of [])) with 0 in * by done. replace (len (canonical_of [])) with 0 by done.
    rewrite !Z.add_0_r in *. apply (offset_at names); [lia|done|]. by intros ->. }
  cbn [app] in Hps. apply Forall_cons in Hps as [Hp Hps].
  change (canonical_of (p :: l1)) with (canonical_text p ++ canonical_of l1).
  change (original_of (p :: l1)) with (original_text p ++ original_of l1) in *.
  rewrite len_app in Hlt. rewrite !len_app, !Z.add_assoc. rewrite Z.add_assoc in Hlt.
  pose proof (len_nonneg (original_text p)) as Hno. pose proof (len_nonneg (canonical_of l1)) as Hnc.
  assert (Hrec : match a with AStart => l1 ≠ [] | AEnd => True end →
    original_offset_loop (c + len (canonical_text p) + len (canonical_of l1)) (o + len (original_text p) - (c + len (canonical_text p))) a
      (holes_at (c + len (canonical_text p)) (o + len (original_text p)) (l1 ++ l2)) = o + len (original_text p) + len (original_of l1)).
  { intros Hne. apply IH; [lia|done|done|]. destruct a; [|done]. by eapply start_exact_cons. }
  assert (Hpos : l1 ≠ [] → 0 < len (canonical_of l1)).
  { destruct l1 as [|q l1]; [done|]. intros _. change (canonical_of (q :: l1)) with (canonical_text q ++ canonical_of l1).
    rewrite len_app. pose proof (len_nonneg (canonical_of l1)). apply Forall_cons in Hps as [Hq _].
    pose proof (piece_width _ _ Hq). lia. }
  destruct p as [x|x y|]; cbn [holes_at app canonical_text original_text] in *.
  - replace (o - c) with (o + len (encode_char x) - (c + len (encode_char x))) by lia.
    destruct (decide (l1 = [])) as [->|Hne]; [|by apply Hrec; destruct a].
    destruct a; [|by apply Hrec]. replace (len (canonical_of [])) with 0 by done. replace (len (original_of [])) with 0 in * by done.
    rewrite !Z.add_0_r in *. apply (offset_at names); [lia|done|done].
  - cbn [original_offset_loop rep_canonical span_start span_end]. destruct (Z.ltb_spec (c + len x + len (canonical_of l1)) c).
    { pose proof (len_nonneg x). lia. }
    destruct (decide (l1 = [])) as [->|Hne].
    + destruct a; [done|]. replace (len (canonical_of [])) with 0 by done. replace (len (original_of [])) with 0 by done.
      rewrite !Z.add_0_r, Z.leb_refl. done.
    + specialize (Hpos Hne). destruct (Z.leb_spec (c + len x + len (canonical_of l1)) (c + len x)); [lia|].
      rewrite <- Hrec by (by destruct a). f_equal. unfold span_len. cbn. lia.
  - cbn [original_offset_loop rep_canonical span_start span_end].
    destruct (Z.ltb_spec (c + len ")" + len (canonical_of l1)) (c + len ")")); [lia|].
    destruct (decide (l1 = [])) as [->|Hne].
    + destruct a; [done|]. replace (len (canonical_of [])) with 0 by done. replace (len (original_of [])) with 0 by done.
      rewrite !Z.add_0_r, Z.leb_refl. done.
    + specialize (Hpos Hne). destruct (Z.leb_spec (c + len ")" + len (canonical_of l1)) (c + len ")")); [lia|].
      rewrite <- Hrec by (by destruct a). f_equal. unfold span_len. cbn. change (len ")") with 1. change (len ")?") with 2. lia.
Qed.

(** ** The scanner *)

(** The occurrence [o] is that of the piece [p] of [ps]. *)
Definition occurs (ps : list piece) (p : piece) (o : PlaceholderOccurrence) : Prop :=
  ∃ l1 l2, ps = l1 ++ p :: l2
  ∧ occ_canonical o = mk_span (len (canonical_of l1)) (len (canonical_of (l1 ++ [p])))
  ∧ occ_original o = mk_span (len (original_of l1)) (len (original_of (l1 ++ [p]))).

Lemma occurs_app ps qs p o : occurs ps p o → occurs (ps ++ qs) p o.
Proof. intros (l1 & l2 & -> & Hc & Ho). exists l1, (l2 ++ qs). split; [|done]. by rewrite <- (assoc_L (++)). Qed.

(** The table of placeholders: numbered from one in the order they first occur, with distinct
    names and the places where they occur. *)
Record entries_ok (ps : list piece) (slots : gmap str nat) (entries : list PlaceholderEntry) : Prop := {
  ent_numbers i e : entries !! i = Some e → entry_id e = Z.of_nat i ∧ entry_slot e = Z.of_nat i + 1;
  ent_names name i : slots !! name = Some i ↔ map entry_name entries !! i = Some name;
  ent_occurrences i e o : entries !! i = Some e → o ∈ occurrences e → occurs ps (hole_of i (entry_name e) (occ_optional o)) o;
}.

Record scanned (sql : str) (ps : list piece) (s : Scan) : Prop := {
  scd_out : sc_out s = canonical_of ps;
  scd_map : sc_replacements s = holes_at 0 0 ps;
  scd_text : sql = original_of ps ++ encode_chars (sc_rest s);
  scd_off : sc_off s = len (original_of ps);
  scd_pieces : Forall (piece_ok (map entry_name (sc_placeholders s))) ps;
  scd_entries : entries_ok ps (sc_slots s) (sc_placeholders s);
  scd_count : 2 * Z.of_nat (length (sc_placeholders s)) ≤ sc_off s;
}.

Lemma encode_chars_app a b : encode_chars (a ++ b) = encode_chars a ++ encode_chars b.
Proof. unfold encode_chars. by rewrite map_app, concat_app. Qed.

Lemma scanned_copy sql ps s cs rest st : scanned sql ps s → sc_rest s = cs ++ rest →
  scanned sql (ps ++ map Plain cs) (copy cs rest st s).
Proof.
  intros [Hout Hmap Htext Hoff Hps [Hn Hnames Hocc] Hcount] Hrest. destruct (plain_of cs) as (Hc & Ho & Hh). split; cbn.
  - by rewrite canonical_of_app, Hc, Hout.
  - by rewrite holes_at_app, Hh, (right_id_L [] (++)).
  - rewrite Htext, Hrest, encode_chars_app, original_of_app, Ho. by rewrite (assoc_L (++)).
  - rewrite original_of_app, len_app, Ho, Hoff. done.
  - apply Forall_app. split; [done|]. apply Forall_forall. by intros p (c & -> & _)%list_elem_of_fmap.
  - split; [done|done|]. intros i e o Hi Hin. by apply occurs_app, Hocc.
  - unfold width. pose proof (len_nonneg (encode_chars cs)). lia.
Qed.

Lemma scanned_parens sql ps s parens : scanned sql ps s →
  scanned sql ps (mk_scan (sc_out s) (sc_replacements s) (sc_slots s) (sc_placeholders s) (sc_groups s) parens (sc_state s) (sc_off s) (sc_rest s)).
Proof. by intros [? ? ? ? ? ? ?]. Qed.

Lemma to_u32_Ok z r : to_u32 z = Ok r → r = z ∧ z < 2 ^ 32.
Proof. unfold to_u32. destruct (Z.ltb_spec z (2 ^ 32)); [|done]. by intros [= <-]. Qed.

Lemma scanned_group sql ps s rest s' : scanned sql ps s → sc_rest s = 41 :: 63 :: rest → scan_group sql rest s = Ok s' →
  scanned sql (ps ++ [GroupEnd]) s' ∧ sc_rest s' = rest.
Proof.
  intros [Hout Hmap Htext Hoff Hps [Hn Hnames Hocc] Hcount] Hrest (a & _ & (b & [-> _]%to_u32_Ok & H)%result_bind_Ok)%result_bind_Ok.
  destruct (starts_with_optional_clause_keyword _); [done|].
  apply result_bind_Ok in H as (ga & _ & (gb & [-> _]%to_u32_Ok & (f & [-> _]%to_u32_Ok & [= <-])%result_bind_Ok)%result_bind_Ok).
  split; [|done]. split; cbn.
  - by rewrite canonical_of_app, Hout.
  - rewrite holes_at_app, Hmap. cbn. rewrite len_app, Hout, Hoff. change (len ")?") with 2. do 2 f_equal. f_equal; f_equal; lia.
  - rewrite Htext, Hrest, original_of_app, <- (assoc_L (++)). done.
  - rewrite original_of_app, len_app, Hoff. change (len (original_of [GroupEnd])) with 2. lia.
  - apply Forall_app. split; [done|by constructor].
  - split; [done|done|]. intros i e o Hi Hin. by apply occurs_app, Hocc.
  - lia.
Qed.

Lemma intern_ok ps s name i slots entries : entries_ok ps (sc_slots s) (sc_placeholders s) →
  2 * Z.of_nat (length (sc_placeholders s)) < 2 ^ 32 → intern name s = (i, slots, entries) →
  entries_ok ps slots entries ∧ map entry_name entries !! i = Some name
  ∧ (∃ names, map entry_name entries = map entry_name (sc_placeholders s) ++ names)
  ∧ (length entries ≤ S (length (sc_placeholders s)))%nat.
Proof.
  intros [Hn Hnames Hocc] Hcount. unfold intern. destruct (sc_slots s !! name) as [j|] eqn:Hj.
  - intros [= <- <- <-]. split; [done|]. split; [by apply Hnames|]. split; [exists []; by rewrite (right_id_L [] (++))|lia].
  - intros [= <- <- <-]. set (n := length (sc_placeholders s)) in *.
    assert (Hw : wrap_uint 32 (Z.of_nat n + 1 - 1) = Z.of_nat n ∧ wrap_uint 32 (Z.of_nat n + 1) = Z.of_nat n + 1).
    { split; rewrite wrap_uint_id; unfold in_uint; lia. }
    destruct Hw as [-> ->]. rewrite map_app. cbn.
    assert (Hlen : length (map entry_name (sc_placeholders s)) = n) by by rewrite length_map.
    split; [split|split; [|split]].
    + intros k e [Hk|[Hge Hk]]%lookup_app_Some; [by apply Hn|]. apply list_lookup_singleton_Some in Hk as [Hk <-].
      cbn. fold n in Hge, Hk. lia.
    + intros name' k. rewrite lookup_insert_Some, map_app, lookup_app_Some, Hlen. cbn. rewrite list_lookup_singleton_Some. split.
      * intros [[<- <-]|[Hne Hk]]; [right; split; [lia|]; split; [lia|done]|]. left. by apply Hnames.
      * intros [Hk|(Hge & Hk & <-)]; [|left; split; [done|lia]]. right. apply Hnames in Hk. split; [|done]. congruence.
    + intros k e o [Hk|[Hge Hk]]%lookup_app_Some; [by apply Hocc|]. apply list_lookup_singleton_Some in Hk as [_ <-]. cbn. by intros ?%elem_of_nil.
    + apply list_lookup_middle. by rewrite Hlen.
    + by exists [name].
    + rewrite length_app. cbn. fold n. lia.
Qed.

Lemma map_alter_name o i entries : map entry_name (alter (add_occurrence o) i entries) = map entry_name entries.
Proof.
  revert i. induction entries as [|e entries IH]; intros [|i]; try done. cbn. f_equal. apply IH.
Qed.

Lemma entries_alter ps p o i slots entries name : entries_ok ps slots entries → map entry_name entries !! i = Some name →
  p = hole_of i name (occ_optional o) → occurs (ps ++ [p]) p o →
  entries_ok (ps ++ [p]) slots (alter (add_occurrence o) i entries).
Proof.
  intros [Hn Hnames Hocc] Hi -> Ho. split.
  - intros k e. destruct (decide (i = k)) as [->|Hne].
    + rewrite list_lookup_alter_eq. intros (e0 & He0 & ->)%fmap_Some. cbn. by apply Hn.
    + rewrite list_lookup_alter_ne by done. apply Hn.
  - intros name' k. rewrite map_alter_name. apply Hnames.
  - intros k e o'. destruct (decide (i = k)) as [->|Hne].
    + rewrite list_lookup_alter_eq. intros (e0 & He0 & ->)%fmap_Some. cbn.
      intros [Ho'|Ho'%list_elem_of_singleton]%elem_of_app; [by apply occurs_app, Hocc|].
      subst o'. apply list_lookup_fmap_Some in Hi as (e1 & -> & He1). congruence.
    + rewrite list_lookup_alter_ne by done. intros He Hin. by apply occurs_app, Hocc.
Qed.

Lemma scanned_placeholder sql ps s name rest s' : scanned sql ps s → name ≠ [] → sc_rest s = 36 :: name ++ rest →
  scan_placeholder name rest s = Ok s' → ∃ p, scanned sql (ps ++ [p]) s' ∧ (length (sc_rest s') ≤ length rest)%nat.
Proof.
  intros [Hout Hmap Htext Hoff Hps Hent Hcount] Hname Hrest. unfold scan_placeholder.
  set (split_rest := match rest with 63 :: rest => (true, rest) | _ => (false, rest) end).
  assert (Hsplit : rest = (if split_rest.1 then [63] else []) ++ split_rest.2).
  { unfold split_rest. destruct rest as [|c rest]; [done|]. destruct c as [|q|q]; try done.
    by do 6 (destruct q as [q|q|]; try done). }
  destruct split_rest as [optional rest']. cbn in Hsplit.
  destruct (intern (encode_chars name) s) as [[i slots] entries] eqn:Hintern.
  intros (a & [-> Ha]%to_u32_Ok & (b & [-> _]%to_u32_Ok & (a' & [-> _]%to_u32_Ok & (b' & [-> _]%to_u32_Ok & [= <-])%result_bind_Ok)%result_bind_Ok)%result_bind_Ok)%result_bind_Ok.
  destruct (intern_ok _ _ _ _ _ _ Hent ltac:(lia) Hintern) as (Hent' & Hi & (names & Hgrow) & Hlen).
  destruct (proj1 (list_lookup_fmap_Some _ _ _ _) Hi) as (e & Hname' & He).
  assert (Hslot : entry_slot (default no_entry (entries !! i)) = Z.of_nat i + 1) by (rewrite He; by apply (ent_numbers _ _ _ Hent')).
  rewrite Hslot. set (p := hole_of i (encode_chars name) optional).
  assert (Horig : original_of [p] = "$" ++ encode_chars name ++ (if optional then "?" else "")) by (cbn; by rewrite (right_id_L [] (++))).
  assert (Hcan : canonical_of [p] = "$" ++ Text.dec (Z.of_nat i + 1)) by (cbn; by rewrite (right_id_L [] (++))).
  assert (Hstop : sc_off s + 1 + width name + (if optional then 1 else 0) = len (original_of (ps ++ [p]))).
  { rewrite original_of_app, len_app, Horig, !len_app, Hoff. unfold width. change (len "$") with 1. destruct optional; cbn [len]; unfold len; cbn; lia. }
  assert (Hout' : sc_out s ++ x24 :: Text.dec (Z.of_nat i + 1) = canonical_of (ps ++ [p])) by by rewrite canonical_of_app, Hcan, Hout.
  exists p. split; [|rewrite Hsplit; cbn [sc_rest]; rewrite length_app; lia]. split; cbn [sc_out sc_replacements sc_rest sc_off sc_placeholders sc_slots].
  - done.
  - rewrite holes_at_app, Hmap, Hstop, Hout', Hout, Hoff. cbn [holes_at]. rewrite (right_id_L [] (++)).
    rewrite !canonical_of_app, !original_of_app, !len_app. cbn [occ_canonical occ_original].
    replace (canonical_text p) with (canonical_of [p]) by (cbn; by rewrite (right_id_L [] (++))).
    replace (original_text p) with (original_of [p]) by (cbn; by rewrite (right_id_L [] (++))). done.
  - rewrite Htext, Hrest, original_of_app, Horig, Hsplit. change (36 :: name ++ ?r) with ([36] ++ name ++ r).
    rewrite !encode_chars_app, <- !(assoc_L (++)). by destruct optional.
  - done.
  - rewrite map_alter_name, Hgrow. apply Forall_app. split.
    + eapply Forall_impl; [exact Hps|]. intros q. apply piece_ok_grow.
    + constructor; [|done]. exists i, (encode_chars name), optional. by rewrite <- Hgrow.
  - eapply entries_alter; [exact Hent'|exact Hi|done|]. exists ps, []. split; [done|].
    cbn. rewrite Hstop, Hout', Hout, Hoff. done.
  - rewrite length_alter. assert (0 < width name).
    { destruct name as [|c name]; [done|]. unfold width. change (encode_chars (c :: name)) with (encode_char c ++ encode_chars name).
      rewrite len_app. pose proof (encode_char_nonempty c). pose proof (len_nonneg (encode_chars name)).
      assert (0 < len (encode_char c)) by (unfold len; lia). lia. }
    assert (0 ≤ if optional then 1 else 0) by by destruct optional. lia.
Qed.

(** A step copies characters, or replaces a placeholder or the end of a group. *)
Definition stepped (sql : str) (ps : list piece) (s s' : Scan) : Prop :=
  ∃ qs, scanned sql (ps ++ qs) s' ∧ (length (sc_rest s') < length (sc_rest s))%nat.

Lemma stepped_copy sql ps s cs rest st : scanned sql ps s → sc_rest s = cs ++ rest → cs ≠ [] → stepped sql ps s (copy cs rest st s).
Proof.
  intros Hs Hrest Hcs. exists (map Plain cs). split; [by apply scanned_copy|]. rewrite Hrest, length_app. cbn.
  destruct cs; [done|]. cbn. lia.
Qed.

Ltac stepped_copy := match goal with H : Ok (copy _ _ _ _) = Ok _ |- _ => injection H as <-; by apply stepped_copy end.

(** Tell whether the next character is a given one. *)
Ltac next_char rest d := destruct rest as [|d rest]; [|destruct d as [|d|d]; try (do 7 (try destruct d as [d|d|]))].

Lemma take_while_prefix f cs : ∃ rest, cs = take_while f cs ++ rest.
Proof.
  induction cs as [|c cs [rest IH]]; cbn; [by exists []|]. destruct (f c); [|by exists (c :: cs)].
  exists rest. cbn. by rewrite <- IH.
Qed.

Lemma stepped_normal sql ps s c rest s' : scanned sql ps s → sc_rest s = c :: rest → scan_normal sql c rest s = Ok s' →
  stepped sql ps s s'.
Proof.
  intros Hs Hrest H. unfold scan_normal in H.
  destruct (Z.eqb_spec c 39) as [->|]; [stepped_copy|]. destruct (Z.eqb_spec c 34) as [->|]; [stepped_copy|].
  destruct (Z.eqb_spec c 45) as [->|]; [next_char rest d; stepped_copy|].
  destruct (Z.eqb_spec c 47) as [->|]; [next_char rest d; stepped_copy|].
  destruct (Z.eqb_spec c 36) as [->|].
  { destruct rest as [|next rest]; [stepped_copy|]. destruct (digit_char next).
    { apply result_bind_Ok in H as (a & _ & (b & _ & H)%result_bind_Ok). done. }
    destruct (is_ident_start next); [|stepped_copy]. cbn [tail] in H. destruct (take_while_prefix is_ident_continue rest) as [rest' Hrest'].
    set (name := next :: take_while is_ident_continue rest) in *.
    assert (Hname : next :: rest = name ++ rest') by (unfold name; cbn; by f_equal).
    rewrite Hname, drop_app_length in H. rewrite Hname in Hrest.
    destruct (scanned_placeholder sql ps s name rest' s' Hs) as (p & Hp & Hlen); [done|done|done|].
    exists [p]. split; [done|]. rewrite Hrest. cbn. rewrite length_app. lia. }
  destruct (Z.eqb_spec c 40) as [->|].
  { injection H as <-. destruct (stepped_copy sql ps (push_paren s) [40] rest Normal) as (qs & Hqs & Hlen); [|done|done|by exists qs].
    by apply scanned_parens. }
  destruct (Z.eqb_spec c 41) as [->|]; [|stepped_copy].
  assert (Hpop : scanned sql ps (pop_paren s)) by (by apply scanned_parens).
  next_char rest d; try (injection H as <-; by apply (stepped_copy sql ps (pop_paren s))).
  destruct (scanned_group _ _ _ _ _ Hs Hrest H) as [Hs' Hrest']. exists [GroupEnd]. split; [done|]. rewrite Hrest', Hrest. cbn. lia.
Qed.

Lemma stepped_block_comment sql ps s depth c rest : scanned sql ps s → sc_rest s = c :: rest →
  stepped sql ps s (scan_block_comment depth c rest s).
Proof.
  intros Hs Hrest. unfold scan_block_comment. destruct c as [|c|c]; try (by apply stepped_copy).
  do 6 (destruct c as [c|c|]; try (by apply stepped_copy)); next_char rest d; by apply stepped_copy.
Qed.

Lemma stepped_quoted sql ps s quote c rest : scanned sql ps s → sc_rest s = c :: rest → stepped sql ps s (scan_quoted quote c rest s).
Proof.
  intros Hs Hrest. unfold scan_quoted. destruct (c =? quote); [|by apply stepped_copy].
  destruct rest as [|d rest]; [by apply stepped_copy|]. destruct (Z.eqb_spec d quote) as [->|]; by apply stepped_copy.
Qed.

Lemma scanned_step sql ps s c rest s' : scanned sql ps s → sc_rest s = c :: rest → scan_step sql c rest s = Ok s' →
  stepped sql ps s s'.
Proof.
  intros Hs Hrest. unfold scan_step. destruct (sc_state s).
  - by apply stepped_normal.
  - intros [= <-]. by apply stepped_quoted.
  - intros [= <-]. by apply stepped_quoted.
  - intros [= <-]. by apply stepped_copy.
  - intros [= <-]. by apply stepped_block_comment.
Qed.

Lemma scan_loop_ok fuel sql ps s : scanned sql ps s → (length (sc_rest s) ≤ fuel)%nat →
  ∃ r, scan_loop fuel sql s = Some r ∧ ∀ s', r = Ok s' → ∃ qs, scanned sql (ps ++ qs) s' ∧ sc_rest s' = [].
Proof.
  revert ps s. induction fuel as [|fuel IH]; intros ps s Hs Hlen; cbn; destruct (sc_rest s) as [|c rest] eqn:Hrest.
  - exists (Ok s). split; [done|]. intros ? [= <-]. exists []. by rewrite (right_id_L [] (++)).
  - cbn in Hlen. lia.
  - exists (Ok s). split; [done|]. intros ? [= <-]. exists []. by rewrite (right_id_L [] (++)).
  - destruct (scan_step sql c rest s) as [s1|e] eqn:Hstep; [|by exists (Err e)].
    destruct (scanned_step _ _ _ _ _ _ Hs Hrest Hstep) as (qs & Hs1 & Hlt). rewrite Hrest in Hlt. cbn in Hlt, Hlen.
    destruct (IH _ _ Hs1) as (r & Hr & Hok); [lia|]. exists r. split; [done|]. intros s' Hs'.
    destruct (Hok _ Hs') as (qs' & Hs2 & Hend). exists (qs ++ qs'). by rewrite (assoc_L (++)).
Qed.

Lemma scan_new_ok sql : utf8_valid sql = true → scanned sql [] (scan_new sql).
Proof.
  intros (cs & Hcs & ->)%utf8_valid_iff. split; cbn; try done.
  - unfold chars. by rewrite utf8_scan_encode.
Qed.

Lemma entries_distinct ps slots entries : entries_ok ps slots entries → NoDup (map entry_name entries).
Proof.
  intros [_ Hnames _]. apply NoDup_alt. intros i j name Hi%Hnames Hj%Hnames. congruence.
Qed.

(** What [canonicalize_parts] leaves of a text. *)
Record canonical_form (sql : str) (c : CanonicalizedSql) (ps : list piece) : Prop := {
  form_original : original_of ps = sql;
  form_canonical : canonical_of ps = can_sql c;
  form_pieces : Forall (piece_ok (map entry_name (can_placeholders c))) ps;
  form_entries i e : can_placeholders c !! i = Some e → entry_id e = Z.of_nat i ∧ entry_slot e = Z.of_nat i + 1;
  form_names : NoDup (map entry_name (can_placeholders c));
  form_count : 2 * Z.of_nat (length (can_placeholders c)) ≤ len sql;
  form_occurrences i e o : can_placeholders c !! i = Some e → o ∈ occurrences e →
    occurs ps (hole_of i (entry_name e) (occ_optional o)) o;
  form_map l1 l2 : ps = l1 ++ l2 → len sql < 2 ^ 32 →
    (start_exact l1 → original_offset (can_map c) (len (canonical_of l1)) AStart = len (original_of l1))
    ∧ (end_exact l2 → original_offset (can_map c) (len (canonical_of l1)) AEnd = len (original_of l1));
}.

Lemma canonicalize_pieces sql : utf8_valid sql = true →
  (∃ r, scan_loop (length (chars sql)) sql (scan_new sql) = Some r)
  ∧ ∀ c, canonicalize_parts sql = Ok c → ∃ ps, canonical_form sql c ps.
Proof.
  intros Hv. destruct (scan_loop_ok (length (chars sql)) sql [] (scan_new sql) (scan_new_ok _ Hv)) as (r & Hr & Hok); [done|].
  split; [by exists r|]. intros c. unfold canonicalize_parts. rewrite Hr. destruct r as [s|e]; [|done].
  intros [= <-]. destruct (Hok s eq_refl) as (ps & [Hout Hmap Htext Hoff Hps Hent Hcount] & Hend). cbn in *.
  assert (Horig : original_of ps = sql) by (rewrite Htext, Hend; change (encode_chars []) with (@nil byte); by rewrite (right_id_L [] (++))).
  exists ps. split; cbn; try done.
  - apply (ent_numbers _ _ _ Hent).
  - by eapply entries_distinct.
  - rewrite Hoff in Hcount. by rewrite <- Horig.
  - apply (ent_occurrences _ _ _ Hent).
  - intros l1 l2 -> Hlen. rewrite Hmap. rewrite <- Horig, original_of_app, len_app in Hlen.
    pose proof (len_nonneg (original_of l2)). unfold original_offset.
    assert (Hlt : 0 + len (original_of l1) < 2 ^ 32) by lia.
    split; intros Hexact; [apply (offset_exact _ 0 0 l1 l2 AStart ltac:(lia) Hlt Hps Hexact)
      |apply (offset_exact _ 0 0 l1 l2 AEnd ltac:(lia) Hlt Hps Hexact)].
Qed.

(** C18: The scanner of the macro's SQL always ends, and what it makes of a text differs from it only
    in that placeholders are replaced by the numbers of their names and the suffixes of optional
    groups are dropped: the two are read off the same pieces.  Names are numbered from one, each
    once, and their recorded occurrences are where they stand in both texts.  The source map
    leads from the canonical text back to the original, at every position that is not next to a
    placeholder or a group's end. *)
Theorem canonicalize_spec sql : utf8_valid sql = true →
  (∃ r, scan_loop (length (chars sql)) sql (scan_new sql) = Some r)
  ∧ ∀ c, canonicalize_parts sql = Ok c → ∃ ps, canonical_form sql c ps.
Proof. exact (canonicalize_pieces sql). Qed.

Definition example_sql : str := "SELECT u.id FROM users u WHERE u.id = $id AND (u.name = $name OR u.id= $id)?".

Lemma canonicalize_spec_witness :
  utf8_valid example_sql = true ∧
  ∃ c ps, canonicalize_parts example_sql = Ok c ∧ canonical_form example_sql c ps
  ∧ can_sql c = "SELECT u.id FROM users u WHERE u.id = $1 AND (u.name = $2 OR u.id= $1)"
  ∧ original_span (can_map c) (mk_span 46 57) = mk_span 47 61.
Proof.
  assert (Hv : utf8_valid example_sql = true) by (vm_compute; reflexivity). split; [done|].
  destruct (canonicalize_parts example_sql) as [c|e] eqn:Hc; [|vm_compute in Hc; discriminate].
  destruct (canonicalize_spec _ Hv) as [_ Hspec]. destruct (Hspec _ Hc) as [ps Hps]. exists c, ps.
  split; [done|]. split; [exact Hps|]. vm_compute in Hc. injection Hc as <-. by split; vm_compute.
Defined.

(** Next to a placeholder the source map is not exact: the end of the [=] in [a=$id] is brought to
    the end of [$id], and the start of the [)] in [($id)] to the start of [$id]. *)
Definition mapped (sql : str) (span : SourceSpan) : option SourceSpan :=
  c ← to_option (canonicalize_parts sql); Some (original_span (can_map c) span).

Example adjacent_spans : mapped "a=$id" (mk_span 1 2) = Some (mk_span 1 5) ∧ mapped "($id)" (mk_span 3 4) = Some (mk_span 1 5).
Proof. by split; vm_compute. Qed.
