(* ===== verification/Resolver.v ===== *)
(** * Typed SQL: name resolution and type inference

    [crates/macros/src/typed_sql/resolver.rs].  A statement is resolved against the schema
    catalog (tables, bindings, columns become indices), its expressions are analysed while the
    types of placeholders are inferred, the pending equalities between placeholders are solved,
    and the expressions are rebuilt with their final types and nullability.

    A [HashMap] is a [gmap]; where the source sorts what it collected from one, the elements are
    sorted here.  Indexing ([catalog.table(id)], [bindings[id]]) is total, with an empty table or
    binding out of range; [ResolverFacts.v] shows that the indices of a resolved statement are in
    range.  [solve] loops in the source; it takes fuel here, one unit per round. *)
From S2P Require Import Prelude Text BTree SqlIr.

Local Open Scope Z_scope.
Local Open Scope str_scope.

Definition TableId : Type := nat.
Definition ColumnId : Type := nat.
Definition BindingId : Type := nat.
Bind Scope nat_scope with TableId ColumnId BindingId.

(** ** SQL types *)
Inductive SqlType :=
  | TBool | TBytea | TVarchar | TText | TInt2 | TInt4 | TInt8 | TFloat4 | TFloat8 | TUuid
  | TDate | TTime | TTimestamp | TTimestamptz | TJson | TJsonb | TNumeric | TOther (name : str).
#[export] Instance SqlType_eq_dec : EqDecision SqlType.
Proof. solve_decision. Defined.

Definition type_name (t : SqlType) : str :=
  match t with
  | TBool => "bool" | TBytea => "bytea" | TVarchar => "varchar" | TText => "text" | TInt2 => "int2" | TInt4 => "int4"
  | TInt8 => "int8" | TFloat4 => "float4" | TFloat8 => "float8" | TUuid => "uuid" | TDate => "date" | TTime => "time"
  | TTimestamp => "timestamp" | TTimestamptz => "timestamptz" | TJson => "json" | TJsonb => "jsonb"
  | TNumeric => "numeric" | TOther name => name
  end.

Definition is_text_like (t : SqlType) : bool := match t with TText | TVarchar => true | _ => false end.
Definition is_integer_like (t : SqlType) : bool := match t with TInt2 | TInt4 | TInt8 => true | _ => false end.
Definition is_numeric_like (t : SqlType) : bool :=
  match t with TInt2 | TInt4 | TInt8 | TFloat4 | TFloat8 | TNumeric => true | _ => false end.
Definition supports_unary_sign (t : SqlType) : bool := is_numeric_like t.
Definition comparable_to (t u : SqlType) : bool :=
  bool_decide (t = u) || (is_text_like t && is_text_like u) || (is_integer_like t && is_integer_like u).
Definition limit_compatible (t : SqlType) : bool := is_integer_like t.

Inductive Nullability := NonNull | Nullable.
#[export] Instance Nullability_eq_dec : EqDecision Nullability.
Proof. solve_decision. Defined.
Definition widen (a b : Nullability) : Nullability := match a, b with NonNull, NonNull => NonNull | _, _ => Nullable end.

(** ** The schema catalog *)
Record SchemaColumn := mk_column { col_name : str; col_type : SqlType; col_nullability : Nullability }.
Record SchemaTable := mk_table {
  table_schema : option str; tbl_name : str; columns : list SchemaColumn; columns_by_name : gmap str ColumnId;
}.
Record SchemaCatalog := mk_catalog {
  tables : list SchemaTable;
  by_qualified_name : gmap (list str) TableId;
  by_unqualified_name : gmap str (list TableId);
}.

Definition joined (sep : str) (l : list str) : str := Text.join sep l.
Definition quoted (s : str) : str := "`" ++ s ++ "`".

(** The loop of [SchemaTable::new]. *)
Fixpoint index_columns (name : str) (index : nat) (cols : list SchemaColumn) (m : gmap str ColumnId)
  : result TypedSqlError (gmap str ColumnId) :=
  match cols with
  | [] => Ok m
  | c :: cols =>
    match m !! col_name c with
    | None => index_columns name (S index) cols (<[col_name c := index]> m)
    | Some _ => Err (internal ("duplicate column " ++ quoted (col_name c) ++ " on schema table " ++ quoted name))
    end
  end.

Definition SchemaTable_new (schema : option str) (name : str) (cols : list SchemaColumn) : result TypedSqlError SchemaTable :=
  m ← index_columns name 0 cols ∅; Ok (mk_table schema name cols m).

Definition qualified_name_parts (t : SchemaTable) : list str :=
  match table_schema t with Some schema => [schema; tbl_name t] | None => [tbl_name t] end.
Definition display_name (t : SchemaTable) : str := joined "." (qualified_name_parts t).

(** The loop of [SchemaCatalog::new]. *)
Fixpoint index_tables (index : nat) (ts : list SchemaTable) (q : gmap (list str) TableId) (u : gmap str (list TableId))
  : result TypedSqlError (gmap (list str) TableId * gmap str (list TableId)) :=
  match ts with
  | [] => Ok (q, u)
  | t :: ts =>
    let parts := qualified_name_parts t in
    match q !! parts with
    | Some _ => Err (internal ("duplicate schema table " ++ quoted (joined "." parts) ++ " in catalog"))
    | None => index_tables (S index) ts (<[parts := index]> q) (<[tbl_name t := default [] (u !! tbl_name t) ++ [index]]> u)
    end
  end.

Definition SchemaCatalog_new (ts : list SchemaTable) : result TypedSqlError SchemaCatalog :=
  m ← index_tables 0 ts ∅ ∅; Ok (mk_catalog ts m.1 m.2).

Definition resolve_table (c : SchemaCatalog) (parts : list str) (span : SourceSpan) : result TypedSqlError TableId :=
  match by_qualified_name c !! parts with
  | Some t => Ok t
  | None =>
    match parts with
    | [name] =>
      match by_unqualified_name c !! name with
      | None => Err (resolve_at ("unknown table " ++ quoted name) span)
      | Some [t] => Ok t
      | Some _ => Err (resolve_at ("table " ++ quoted name ++ " is ambiguous; qualify it with a schema name") span)
      end
    | _ => Err (resolve_at ("unknown table " ++ quoted (joined "." parts)) span)
    end
  end.

Definition no_table : SchemaTable := mk_table None [] [] ∅.
Definition no_column : SchemaColumn := mk_column [] TBool NonNull.
Definition table (c : SchemaCatalog) (t : TableId) : SchemaTable := default no_table (tables c !! t).
Definition column (c : SchemaCatalog) (t : TableId) (i : ColumnId) : SchemaColumn :=
  default no_column (columns (table c t) !! i).

Definition lookup_column_by_display_name (c : SchemaCatalog) (table_name column_name : str) : option SchemaColumn :=
  '(_, t) ← list_find (λ t, display_name t = table_name) (tables c);
  i ← columns_by_name t !! column_name;
  columns t !! i.

(** ** Resolved and checked trees *)
Record ResolvedColumnRef := mk_resolved_column {
  rcol_binding : BindingId; rcol_table : TableId; rcol_column : ColumnId; rcol_span : SourceSpan;
}.
Record ResolvedPlaceholderRef := mk_resolved_placeholder {
  rph_id : PlaceholderId; rph_name : str; rph_slot : Z; rph_span : SourceSpan; rph_optional : bool;
}.

Inductive ResolvedExprNode (E : Type) :=
  | RColumn (c : ResolvedColumnRef)
  | RPlaceholder (p : ResolvedPlaceholderRef)
  | RLiteral (l : Literal)
  | ROptionalGroup (id : AstId) (expr : E)
  | RUnary (op : UnaryOp) (expr : E)
  | RBinary (op : BinaryOp) (left right : E)
  | RIsNull (negated : bool) (expr : E)
  | RBoolChain (op : BoolOp) (terms : list E).
Arguments RColumn {E}. Arguments RPlaceholder {E}. Arguments RLiteral {E}. Arguments ROptionalGroup {E}.
Arguments RUnary {E}. Arguments RBinary {E}. Arguments RIsNull {E}. Arguments RBoolChain {E}.
Inductive ResolvedExpr := mk_resolved (re_span : SourceSpan) (re_node : ResolvedExprNode ResolvedExpr).
Definition re_span (e : ResolvedExpr) : SourceSpan := let 'mk_resolved s _ := e in s.
Definition re_node (e : ResolvedExpr) : ResolvedExprNode ResolvedExpr := let 'mk_resolved _ n := e in n.

Inductive ExprKind := Value | Predicate.
#[export] Instance ExprKind_eq_dec : EqDecision ExprKind.
Proof. solve_decision. Defined.

Inductive CheckedExprNode (E : Type) :=
  | CColumn (c : ResolvedColumnRef)
  | CPlaceholder (p : ResolvedPlaceholderRef)
  | CLiteral (l : Literal)
  | COptionalGroup (id : AstId) (expr : E) (required_placeholders : list PlaceholderId)
  | CUnary (op : UnaryOp) (expr : E)
  | CBinary (op : BinaryOp) (left right : E)
  | CIsNull (negated : bool) (expr : E)
  | CBoolChain (op : BoolOp) (terms : list E).
Arguments CColumn {E}. Arguments CPlaceholder {E}. Arguments CLiteral {E}. Arguments COptionalGroup {E}.
Arguments CUnary {E}. Arguments CBinary {E}. Arguments CIsNull {E}. Arguments CBoolChain {E}.
Inductive CheckedExpr := mk_checked (ce_span : SourceSpan) (ce_kind : ExprKind) (ce_type : SqlType)
  (ce_nullability : Nullability) (ce_node : CheckedExprNode CheckedExpr).
Definition ce_kind (e : CheckedExpr) : ExprKind := let 'mk_checked _ k _ _ _ := e in k.
Definition ce_type (e : CheckedExpr) : SqlType := let 'mk_checked _ _ t _ _ := e in t.
Definition ce_nullability (e : CheckedExpr) : Nullability := let 'mk_checked _ _ _ n _ := e in n.
Definition ce_node (e : CheckedExpr) : CheckedExprNode CheckedExpr := let 'mk_checked _ _ _ _ n := e in n.

Record ResolvedBinding := mk_binding { bind_id : BindingId; bind_name : str; bind_table : TableId }.
Inductive ProjectionOutputName := Explicit (name : str) | Implicit (name : str) | Anonymous.
Definition render_output_name (n : ProjectionOutputName) : str :=
  match n with Explicit name | Implicit name => name | Anonymous => "<anonymous>" end.
Record ResolvedProjection := mk_resolved_projection { rp_expr : ResolvedExpr; rp_name : ProjectionOutputName }.
Record ResolvedJoin := mk_resolved_join { rj_kind : JoinKind; rj_right : BindingId; rj_on : ResolvedExpr }.

Record CheckedBinding := mk_checked_binding {
  cb_id : BindingId; cb_name : str; cb_table_name : str; cb_nullability : Nullability;
}.
Record CheckedProjection := mk_checked_projection {
  cp_ordinal : Z; cp_output_name : str; cp_type : SqlType; cp_nullability : Nullability; cp_expr : CheckedExpr;
}.
Record CheckedJoin := mk_checked_join { cj_kind : JoinKind; cj_right : BindingId; cj_on : CheckedExpr }.
Record CheckedParameter := mk_parameter {
  par_id : PlaceholderId; par_name : str; par_slot : Z; par_type : SqlType; par_nullability : Nullability; par_optional : bool;
}.
Record CheckedAssignment := mk_checked_assignment { ca_target : ResolvedColumnRef; ca_value : CheckedExpr }.
Record CheckedSelect := mk_checked_select {
  cs_bindings : list CheckedBinding; cs_projections : list CheckedProjection; cs_filter : option CheckedExpr;
  cs_joins : list CheckedJoin; cs_order_by : list CheckedExpr; cs_limit : option CheckedExpr;
  cs_offset : option CheckedExpr; cs_parameters : list CheckedParameter;
}.
Record CheckedInsert := mk_checked_insert {
  ci_target : CheckedBinding; ci_projections : list CheckedProjection; ci_parameters : list CheckedParameter;
}.
Record CheckedUpdate := mk_checked_update {
  cu_target : CheckedBinding; cu_assignments : list CheckedAssignment; cu_filter : CheckedExpr;
  cu_projections : list CheckedProjection; cu_parameters : list CheckedParameter;
}.
Record CheckedDelete := mk_checked_delete {
  cd_target : CheckedBinding; cd_filter : CheckedExpr; cd_projections : list CheckedProjection;
  cd_parameters : list CheckedParameter;
}.
Inductive CheckedStatementBody :=
  | CSelect (s : CheckedSelect) | CInsert (i : CheckedInsert) | CUpdate (u : CheckedUpdate) | CDelete (d : CheckedDelete).
Record CheckedStatement := mk_checked_statement {
  cst_kind : StatementKind; cst_result : StatementResultKind; cst_body : CheckedStatementBody;
}.
Definition statement_parameters (s : CheckedStatement) : list CheckedParameter :=
  match cst_body s with
  | CSelect s => cs_parameters s | CInsert i => ci_parameters i | CUpdate u => cu_parameters u | CDelete d => cd_parameters d
  end.

(** ** Name resolution *)
Definition Scope : Type := (gmap str BindingId).

Definition scope_insert (sc : Scope) (name : str) (id : BindingId) (span : SourceSpan) : result TypedSqlError Scope :=
  match sc !! name with
  | None => Ok (<[name := id]> sc)
  | Some _ =>
    Err (resolve_at ("binding " ++ quoted name ++ " is already defined in this SELECT scope; choose a distinct alias") span)
  end.

Definition str_le (a b : str) : Prop := str_lt b a = false.
#[export] Instance str_le_dec : RelDecision str_le := λ a b, decide (str_lt b a = false).
Definition sorted_names (l : list str) : list str := merge_sort str_le l.

Definition scope_lookup (sc : Scope) (name : str) (span : SourceSpan) : result TypedSqlError BindingId :=
  match sc !! name with
  | Some id => Ok id
  | None =>
    let visible := sorted_names (map fst (map_to_list sc)) in
    let suffix := match visible with
                  | [] => "; no relation bindings are visible here"%s
                  | _ => "; visible bindings: " ++ joined ", " visible
                  end in
    Err (resolve_at ("unknown table/alias binding " ++ quoted name ++ suffix) span)
  end.

Definition no_binding : ResolvedBinding := mk_binding 0 [] 0.
Definition binding_at (bs : list ResolvedBinding) (id : BindingId) : ResolvedBinding := default no_binding (bs !! id).
Definition available_columns (t : SchemaTable) : str := joined ", " (map col_name (columns t)).

(** [resolve_from], with the next binding id and the scope it leaves. *)
Definition resolve_from (c : SchemaCatalog) (f : ParsedFrom) (next_id : BindingId) (sc : Scope)
  : result TypedSqlError (ResolvedBinding * BindingId * Scope) :=
  t ← resolve_table c (map ident_value (name_parts (table_name f))) (name_span (table_name f));
  let name := ident_value (binding_name f) in
  let b := mk_binding next_id name t in
  sc ← scope_insert sc name (bind_id b) (ident_span (binding_name f));
  Ok (b, S next_id, sc).

Section resolution.
Context (c : SchemaCatalog) (sc : Scope) (bs : list ResolvedBinding).

Definition resolve_column (col : ColumnRefSyntax) : result TypedSqlError ResolvedColumnRef :=
  binding ← scope_lookup sc (ident_value (cr_binding col)) (ident_span (cr_binding col));
  let rb := binding_at bs binding in
  let t := table c (bind_table rb) in
  match columns_by_name t !! ident_value (cr_column col) with
  | Some column_id => Ok (mk_resolved_column binding (bind_table rb) column_id (cr_span col))
  | None =>
    Err (resolve_at ("unknown column " ++ quoted (ident_value (cr_binding col) ++ "." ++ ident_value (cr_column col))
      ++ " on bound table " ++ quoted (display_name t) ++ "; available columns: " ++ available_columns t)
      (ident_span (cr_column col)))
  end.

Definition from_placeholder (p : PlaceholderRef) : ResolvedPlaceholderRef :=
  mk_resolved_placeholder (placeholder_id p) (ph_name p) (ph_slot p) (ph_span p) (ph_optional p).

Fixpoint resolve_expr (e : ParsedExpr) : result TypedSqlError ResolvedExpr :=
  let span := expr_span e in
  node ← match e with
         | PColumn col => r ← resolve_column col; Ok (RColumn r)
         | PPlaceholder p => Ok (RPlaceholder (from_placeholder p))
         | PLiteral l => Ok (RLiteral (lit_value l))
         | POptionalGroup id _ inner => r ← resolve_expr inner; Ok (ROptionalGroup id r)
         | PUnary _ _ op inner => r ← resolve_expr inner; Ok (RUnary op r)
         | PBinary _ _ op e1 e2 => l ← resolve_expr e1; r ← resolve_expr e2; Ok (RBinary op l r)
         | PIsNull _ _ negated inner => r ← resolve_expr inner; Ok (RIsNull negated r)
         | PBoolChain _ _ op terms => ts ← map_result resolve_expr terms; Ok (RBoolChain op ts)
         end;
  Ok (mk_resolved span node).

Definition resolve_projection (p : ParsedProjection) : result TypedSqlError ResolvedProjection :=
  e ← resolve_expr (proj_expr p);
  Ok (mk_resolved_projection e
        match output_name p with
        | ExplicitName i => Explicit (ident_value i)
        | ImplicitName i => Implicit (ident_value i)
        | AnonymousName => Anonymous
        end).

Definition resolve_target_column (t : SchemaTable) (column_name : str) (span : SourceSpan) : result TypedSqlError ColumnId :=
  match columns_by_name t !! column_name with
  | Some i => Ok i
  | None =>
    Err (resolve_at ("unknown column " ++ quoted column_name ++ " on target table " ++ quoted (display_name t)
      ++ "; available columns: " ++ available_columns t) span)
  end.

Definition resolve_assignment_target (a : ParsedAssignment) : result TypedSqlError ResolvedColumnRef :=
  let target := as_target a in
  binding ← match at_binding target with
            | Some b => scope_lookup sc (ident_value b) (ident_span b)
            | None => Ok (bind_id (binding_at bs 0))
            end;
  let rb := binding_at bs binding in
  column_id ← resolve_target_column (table c (bind_table rb)) (ident_value (at_column target)) (ident_span (at_column target));
  Ok (mk_resolved_column binding (bind_table rb) column_id (at_span target)).
End resolution.

Definition resolve_single_target (c : SchemaCatalog) (f : ParsedFrom)
  : result TypedSqlError (ResolvedBinding * Scope * list ResolvedBinding) :=
  r ← resolve_from c f 0 ∅;
  let '(b, _, sc) := r in Ok (b, sc, [b]).

(** ** Row environments *)
Definition RowEnv : Type := (gmap BindingId Nullability).

Definition RowEnv_new (base : BindingId) : RowEnv := {[ base := NonNull ]}.
Definition with_binding (b : BindingId) (n : Nullability) (env : RowEnv) : RowEnv := <[b := n]> env.
Definition binding_nullability (env : RowEnv) (b : BindingId) : Nullability := default NonNull (env !! b).
Definition mark_all_nullable (env : RowEnv) : RowEnv := (λ _, Nullable) <$> env.

Definition apply_join_nullability (k : JoinKind) (env : RowEnv) (right : BindingId) : RowEnv :=
  match k with
  | JInner => with_binding right NonNull env
  | JLeft => with_binding right Nullable env
  | JRight => with_binding right NonNull (mark_all_nullable env)
  | JFull => with_binding right Nullable (mark_all_nullable env)
  end.

(** ** Inference *)
Inductive ValueType :=
  | Concrete (t : SqlType) | Placeholder (p : PlaceholderId) | IntegerLiteral | NumericLiteral | StringLiteral | NullLiteral.
Record ExprMeta := mk_meta { meta_kind : ExprKind; meta_type : ValueType; meta_nullability : Nullability }.

Record PlaceholderState := mk_placeholder_state {
  ps_id : PlaceholderId; ps_name : option str; ps_slot : option Z; ps_inferred : option SqlType;
  ps_nullability : Nullability; ps_optional : bool; ps_first_span : SourceSpan;
}.
Record PendingConstraint := mk_pending { pc_left : PlaceholderId; pc_right : PlaceholderId; pc_span : SourceSpan }.
Record InferenceContext := mk_context { placeholders : gmap PlaceholderId PlaceholderState; pending : list PendingConstraint }.
Definition InferenceContext_new : InferenceContext := mk_context ∅ [].

Abbreviation Infer := (SE InferenceContext TypedSqlError).

Definition fresh_state (p : PlaceholderId) (span : SourceSpan) : PlaceholderState :=
  mk_placeholder_state p None None None NonNull false span.

(** [placeholder_state_mut], followed by the assignment of its fields. *)
Definition update_placeholder (p : PlaceholderId) (span : SourceSpan) (f : PlaceholderState → PlaceholderState)
    (ctx : InferenceContext) : InferenceContext :=
  let state := default (fresh_state p span) (placeholders ctx !! p) in
  mk_context (<[p := f state]> (placeholders ctx)) (pending ctx).

Definition placeholder_nullability (ctx : InferenceContext) (p : PlaceholderId) : Nullability :=
  match placeholders ctx !! p with Some s => ps_nullability s | None => NonNull end.
Definition placeholder_sql_type (ctx : InferenceContext) (p : PlaceholderId) : option SqlType :=
  placeholders ctx !! p ≫= ps_inferred.

Definition set_inferred (o : option SqlType) (s : PlaceholderState) : PlaceholderState :=
  mk_placeholder_state (ps_id s) (ps_name s) (ps_slot s) o (ps_nullability s) (ps_optional s) (ps_first_span s).
Definition widen_state (n : Nullability) (s : PlaceholderState) : PlaceholderState :=
  mk_placeholder_state (ps_id s) (ps_name s) (ps_slot s) (ps_inferred s) (widen (ps_nullability s) n) (ps_optional s) (ps_first_span s).

Definition shown_name (s : PlaceholderState) : str := default "?"%s (ps_name s).

Definition expect_placeholder (p : PlaceholderId) (expected : SqlType) (n : Nullability) (span : SourceSpan) : Infer unit := λ ctx,
  let ctx := update_placeholder p span (widen_state n) ctx in
  let state := default (fresh_state p span) (placeholders ctx !! p) in
  match ps_inferred state with
  | Some actual =>
    if bool_decide (actual = expected) then (Ok tt, ctx)
    else (Err (type_at ("placeholder " ++ quoted ("$" ++ shown_name state) ++ " was inferred as " ++ quoted (type_name actual)
           ++ " but is also required to be " ++ quoted (type_name expected)) span), ctx)
  | None => (Ok tt, update_placeholder p span (set_inferred (Some expected)) ctx)
  end.

Definition observe_placeholder (r : ResolvedPlaceholderRef) : Infer unit := λ ctx,
  (Ok tt, update_placeholder (rph_id r) (rph_span r)
    (λ s, mk_placeholder_state (ps_id s) (Some (rph_name r)) (Some (rph_slot r)) (ps_inferred s) (ps_nullability s)
            (ps_optional s || rph_optional r) (ps_first_span s)) ctx).

Definition relate_placeholders (left right : PlaceholderId) (span : SourceSpan) : Infer unit := λ ctx,
  let ctx := if bool_decide (left = right) then ctx
             else mk_context (placeholders ctx) (pending ctx ++ [mk_pending left right span]) in
  (Ok tt, update_placeholder right span id (update_placeholder left span id ctx)).

(** *** Solving *)
Definition solve_constraint (pc : PendingConstraint) (changed : bool) : Infer bool := λ ctx,
  match placeholder_sql_type ctx (pc_left pc), placeholder_sql_type ctx (pc_right pc) with
  | Some t, Some u =>
    if bool_decide (t = u) then (Ok changed, ctx)
    else (Err (type_at ("placeholders in the same comparison must solve to one SQL type, but " ++ quoted (type_name t)
           ++ " and " ++ quoted (type_name u) ++ " differ") (pc_span pc)), ctx)
  | Some t, None =>
    (_ ← expect_placeholder (pc_right pc) t (placeholder_nullability ctx (pc_left pc)) (pc_span pc); mret true) ctx
  | None, Some u =>
    (_ ← expect_placeholder (pc_left pc) u (placeholder_nullability ctx (pc_right pc)) (pc_span pc); mret true) ctx
  | None, None => (Ok changed, ctx)
  end.

Fixpoint solve_round (l : list PendingConstraint) (changed : bool) : Infer bool :=
  match l with
  | [] => mret changed
  | pc :: l => changed ← solve_constraint pc changed; solve_round l changed
  end.

(** [None] when the fuel runs out. *)
Fixpoint solve_loop (fuel : nat) (ctx : InferenceContext) : option (result TypedSqlError unit * InferenceContext) :=
  match fuel with
  | O => None
  | S fuel =>
    match solve_round (pending ctx) false ctx with
    | (Err e, ctx) => Some (Err e, ctx)
    | (Ok true, ctx) => solve_loop fuel ctx
    | (Ok false, ctx) => Some (Ok tt, ctx)
    end
  end.

Definition id_le (a b : PlaceholderState) : Prop := ps_id a ≤ ps_id b.
#[export] Instance id_le_dec : RelDecision id_le := λ a b, decide (ps_id a ≤ ps_id b).

Definition unresolved (ctx : InferenceContext) : list PlaceholderState :=
  merge_sort id_le
    (filter (λ s, ps_inferred s = None) (map snd (map_to_list (placeholders ctx)))).

Definition check_solved : Infer unit := λ ctx,
  match unresolved ctx with
  | s :: _ =>
    (Err (type_at ("placeholder " ++ quoted ("$" ++ shown_name s) ++ " is never constrained to a concrete SQL type in typed_sql v1")
       (ps_first_span s)), ctx)
  | [] => (Ok tt, ctx)
  end.

(** One round more than there are placeholders is enough ([ResolverFacts.solve_total]). *)
Definition solve : Infer unit := λ ctx,
  match solve_loop (S (size (placeholders ctx))) ctx with
  | Some (Err e, ctx) => (Err e, ctx)
  | Some (Ok _, ctx) => check_solved ctx
  | None => (Err (internal "out of fuel"), ctx)
  end.

Definition to_parameter (s : PlaceholderState) : option CheckedParameter :=
  t ← ps_inferred s;
  Some (mk_parameter (ps_id s) (default ("p" ++ Text.dec (ps_id s + 1)) (ps_name s)) (default (ps_id s + 1) (ps_slot s)) t
          (ps_nullability s) (ps_optional s)).

Definition slot_le (a b : CheckedParameter) : Prop := par_slot a ≤ par_slot b.
#[export] Instance slot_le_dec : RelDecision slot_le := λ a b, decide (par_slot a ≤ par_slot b).

Definition context_parameters (ctx : InferenceContext) : list CheckedParameter :=
  merge_sort slot_le (omap to_parameter (map snd (map_to_list (placeholders ctx)))).

(** ** Analysis *)
Definition is_integer_literal (number : str) : bool :=
  forallb (λ b, is_ascii_digit b || byte_is b 95 || byte_is b 45 || byte_is b 43) number.

Definition literal_value_type (l : Literal) : ValueType :=
  match l with
  | LNumber number => if is_integer_literal number then IntegerLiteral else NumericLiteral
  | LString _ => StringLiteral
  | LBoolean _ => Concrete TBool
  | LNull => NullLiteral
  end.

Definition finalize_literal_type (l : Literal) : option SqlType :=
  match literal_value_type l with
  | Concrete t => Some t
  | IntegerLiteral => Some TInt8
  | NumericLiteral => Some TNumeric
  | StringLiteral => Some TText
  | NullLiteral | Placeholder _ => None
  end.

Definition literal_nullability (l : Literal) : Nullability := match l with LNull => Nullable | _ => NonNull end.

Definition literal_compatible (t : SqlType) (l : ValueType) : bool :=
  match l with
  | IntegerLiteral => is_numeric_like t
  | NumericLiteral => match t with TFloat4 | TFloat8 | TNumeric => true | _ => false end
  | StringLiteral => is_text_like t
  | _ => false
  end.

Definition literals_comparable (l r : ValueType) : bool :=
  match l, r with
  | IntegerLiteral, IntegerLiteral | NumericLiteral, NumericLiteral | IntegerLiteral, NumericLiteral
  | NumericLiteral, IntegerLiteral | StringLiteral, StringLiteral => true
  | _, _ => false
  end.

Definition describe_value_type (v : ValueType) : str :=
  match v with
  | Concrete t => type_name t
  | Placeholder _ => "placeholder"
  | IntegerLiteral => "integer literal"
  | NumericLiteral => "numeric literal"
  | StringLiteral => "string literal"
  | NullLiteral => "NULL"
  end.

Definition describe_expr_meta (m : ExprMeta) : str :=
  match meta_kind m with
  | Predicate => "a predicate expression"
  | Value => "a value expression of SQL type " ++ quoted (describe_value_type (meta_type m))
  end.

Definition ensure_signed_numeric_operand (m : ExprMeta) (span : SourceSpan) : result TypedSqlError unit :=
  let refused := Err (type_at ("typed_sql v1 only supports unary `+` and `-` on numeric expressions, but this operand is "
                   ++ describe_expr_meta m) span) in
  match meta_type m with
  | Concrete t => if supports_unary_sign t then Ok tt else refused
  | Placeholder _ | IntegerLiteral | NumericLiteral => Ok tt
  | _ => refused
  end.

Definition cannot_compare (l r : str) (span : SourceSpan) : TypedSqlError :=
  type_at ("typed_sql v1 cannot compare " ++ quoted l ++ " to " ++ quoted r) span.

Definition constrain_comparison (l : ExprMeta) (l_span : SourceSpan) (r : ExprMeta) (r_span : SourceSpan) (span : SourceSpan)
  : Infer unit :=
  match meta_type l, meta_type r with
  | NullLiteral, _ | _, NullLiteral =>
    throw (type_at "typed_sql v1 requires `IS NULL` / `IS NOT NULL` instead of direct `NULL` comparisons" span)
  | Concrete t, Concrete u =>
    if comparable_to t u then mret tt else throw (cannot_compare (type_name t) (type_name u) span)
  | Concrete t, Placeholder p => expect_placeholder p t (meta_nullability l) r_span
  | Placeholder p, Concrete t => expect_placeholder p t (meta_nullability r) l_span
  | Placeholder p, Placeholder q => relate_placeholders p q span
  | Concrete t, literal | literal, Concrete t =>
    if literal_compatible t literal then mret tt
    else throw (cannot_compare (type_name t) (describe_value_type literal) span)
  | Placeholder _, _ | _, Placeholder _ => mret tt
  | a, b =>
    if literals_comparable a b then mret tt
    else throw (cannot_compare (describe_value_type a) (describe_value_type b) span)
  end.

Definition require_predicate (m : ExprMeta) (span : SourceSpan) : result TypedSqlError unit :=
  if bool_decide (meta_kind m = Predicate) then Ok tt
  else Err (type_at ("typed_sql v1 requires predicate expressions in `WHERE` and `JOIN ... ON` clauses, but this expression is "
         ++ describe_expr_meta m) span).

Definition require_limit_like (m : ExprMeta) (span : SourceSpan) : Infer unit :=
  let refused := throw (type_at ("typed_sql v1 requires LIMIT/OFFSET expressions to be int8-compatible, but this expression is "
                   ++ describe_expr_meta m) span) in
  match meta_type m with
  | Concrete t => if limit_compatible t then mret tt else refused
  | Placeholder p => expect_placeholder p TInt8 NonNull span
  | IntegerLiteral => mret tt
  | _ => refused
  end.

Definition constrain_assignment (expected : SqlType) (expected_nullability : Nullability) (actual : ExprMeta)
    (span : SourceSpan) : Infer unit :=
  let refused := throw (type_at ("typed_sql v1 cannot assign " ++ describe_expr_meta actual ++ " to "
                   ++ quoted (type_name expected) ++ " columns") span) in
  match meta_type actual with
  | Concrete t => if comparable_to expected t then mret tt else refused
  | Placeholder p => expect_placeholder p expected expected_nullability span
  | NullLiteral =>
    if bool_decide (expected_nullability = Nullable) then mret tt
    else throw (type_at ("typed_sql v1 cannot assign NULL to non-null " ++ quoted (type_name expected) ++ " columns") span)
  | literal => if literal_compatible expected literal then mret tt else refused
  end.

Definition current_nullability (p : PlaceholderId) : Infer Nullability := λ ctx, (Ok (placeholder_nullability ctx p), ctx).

(** A predicate's meta. *)
Definition predicate (n : Nullability) : ExprMeta := mk_meta Predicate (Concrete TBool) n.

Section analysis.
Context (env : RowEnv) (c : SchemaCatalog).

(** The loop over the terms of a boolean chain. *)
Definition analyze_terms (analyze : ResolvedExpr → Infer ExprMeta) (span : SourceSpan) : list ResolvedExpr → Nullability → Infer Nullability :=
  fix go terms n :=
    match terms with
    | [] => mret n
    | term :: terms =>
      m ← analyze term;
      if bool_decide (meta_kind m = Predicate) then go terms (widen n (meta_nullability m))
      else throw (type_at ("typed_sql v1 requires boolean chains to contain predicate expressions, but one term is "
             ++ describe_expr_meta m) span)
    end.

Definition column_nullability (col : ResolvedColumnRef) : Nullability :=
  widen (col_nullability (column c (rcol_table col) (rcol_column col))) (binding_nullability env (rcol_binding col)).

Fixpoint analyze_expr (e : ResolvedExpr) : Infer ExprMeta :=
  let 'mk_resolved span node := e in
  match node with
  | RColumn col =>
    mret (mk_meta Value (Concrete (col_type (column c (rcol_table col) (rcol_column col)))) (column_nullability col))
  | RPlaceholder p =>
    _ ← observe_placeholder p;
    n ← current_nullability (rph_id p);
    mret (mk_meta Value (Placeholder (rph_id p)) n)
  | RLiteral l => mret (mk_meta Value (literal_value_type l) (literal_nullability l))
  | ROptionalGroup _ inner => analyze_expr inner
  | RUnary Not inner =>
    m ← analyze_expr inner;
    if bool_decide (meta_kind m = Predicate) then mret (predicate (meta_nullability m))
    else throw (type_at ("typed_sql v1 requires `NOT` to apply to a predicate expression, but this operand is "
           ++ describe_expr_meta m) span)
  | RUnary _ inner =>
    m ← analyze_expr inner;
    _ ← lift (ensure_signed_numeric_operand m span);
    mret (mk_meta Value (meta_type m) (meta_nullability m))
  | RBinary _ e1 e2 =>
    l ← analyze_expr e1;
    r ← analyze_expr e2;
    _ ← constrain_comparison l (re_span e1) r (re_span e2) span;
    mret (predicate (widen (meta_nullability l) (meta_nullability r)))
  | RIsNull _ inner => _ ← analyze_expr inner; mret (predicate NonNull)
  | RBoolChain _ terms => n ← analyze_terms analyze_expr span terms NonNull; mret (predicate n)
  end.
End analysis.

(** ** Finalisation *)
Fixpoint collect_into (e : CheckedExpr) : list PlaceholderId :=
  match ce_node e with
  | CPlaceholder p => if rph_optional p then [rph_id p] else []
  | COptionalGroup _ inner required => required ++ collect_into inner
  | CUnary _ inner | CIsNull _ inner => collect_into inner
  | CBinary _ l r => collect_into l ++ collect_into r
  | CBoolChain _ terms => concat (map collect_into terms)
  | CColumn _ | CLiteral _ => []
  end.

(** [Vec::dedup] *)
Fixpoint dedup (l : list Z) : list Z :=
  match l with
  | a :: ((b :: _) as l) => if a =? b then dedup l else a :: dedup l
  | _ => l
  end.
Definition collect_optional_placeholders (e : CheckedExpr) : list PlaceholderId := dedup (merge_sort Z.le (collect_into e)).

Definition widen_all (l : list CheckedExpr) : Nullability := foldl (λ acc t, widen acc (ce_nullability t)) NonNull l.

Section finalisation.
Context (env : RowEnv) (c : SchemaCatalog) (ctx : InferenceContext).

Fixpoint finalize_expr (e : ResolvedExpr) : result TypedSqlError CheckedExpr :=
  let 'mk_resolved span node := e in
  match node with
  | RColumn col =>
    Ok (mk_checked span Value (col_type (column c (rcol_table col) (rcol_column col))) (column_nullability env c col) (CColumn col))
  | RPlaceholder p =>
    t ← ok_or (placeholder_sql_type ctx (rph_id p))
          (internal ("placeholder " ++ quoted ("$" ++ rph_name p) ++ " should be solved before finalization"));
    Ok (mk_checked span Value t (placeholder_nullability ctx (rph_id p)) (CPlaceholder p))
  | RLiteral l =>
    t ← ok_or (finalize_literal_type l)
          (type_at "typed_sql v1 does not infer a concrete type for bare `NULL` literals" span);
    Ok (mk_checked span Value t (literal_nullability l) (CLiteral l))
  | ROptionalGroup id inner =>
    i ← finalize_expr inner;
    Ok (mk_checked span (ce_kind i) (ce_type i) (ce_nullability i) (COptionalGroup id i (collect_optional_placeholders i)))
  | RUnary Not inner =>
    i ← finalize_expr inner;
    Ok (mk_checked span Predicate TBool (ce_nullability i) (CUnary Not i))
  | RUnary op inner =>
    i ← finalize_expr inner;
    if supports_unary_sign (ce_type i) then Ok (mk_checked span Value (ce_type i) (ce_nullability i) (CUnary op i))
    else Err (type_at ("typed_sql v1 only supports unary `+` and `-` on numeric expressions, but this operand has SQL type "
           ++ quoted (type_name (ce_type i))) span)
  | RBinary op e1 e2 =>
    l ← finalize_expr e1;
    r ← finalize_expr e2;
    Ok (mk_checked span Predicate TBool (widen (ce_nullability l) (ce_nullability r)) (CBinary op l r))
  | RIsNull negated inner =>
    i ← finalize_expr inner;
    Ok (mk_checked span Predicate TBool NonNull (CIsNull negated i))
  | RBoolChain op terms =>
    ts ← map_result finalize_expr terms;
    Ok (mk_checked span Predicate TBool (widen_all ts) (CBoolChain op ts))
  end.

Definition finalize_projection (p : ResolvedProjection) (ordinal : nat) : result TypedSqlError CheckedProjection :=
  e ← finalize_expr (rp_expr p);
  Ok (mk_checked_projection (Z.of_nat ordinal) (render_output_name (rp_name p)) (ce_type e) (ce_nullability e) e).

Fixpoint finalize_projections (ordinal : nat) (ps : list ResolvedProjection) : result TypedSqlError (list CheckedProjection) :=
  match ps with
  | [] => Ok []
  | p :: ps => cp ← finalize_projection p ordinal; cps ← finalize_projections (S ordinal) ps; Ok (cp :: cps)
  end.

Definition finalize_option (o : option ResolvedExpr) : result TypedSqlError (option CheckedExpr) :=
  match o with None => Ok None | Some e => e ← finalize_expr e; Ok (Some e) end.
End finalisation.

(** ** Statements *)
Definition is_column (e : ResolvedExpr) : bool := match re_node e with RColumn _ => true | _ => false end.
Definition is_explicit (n : ProjectionOutputName) : bool := match n with Explicit _ => true | _ => false end.

Definition analyze_projection (clause : str) (env : RowEnv) (c : SchemaCatalog) (p : ResolvedProjection) : Infer unit :=
  if negb (is_explicit (rp_name p)) && negb (is_column (rp_expr p)) then
    throw (type_at ("typed_sql v1 requires computed " ++ clause ++ " expressions to use `AS alias`") (re_span (rp_expr p)))
  else _ ← analyze_expr env c (rp_expr p); mret tt.

(** [for x in xs { f(x)?; }] *)
Fixpoint for_each {A} (f : A → Infer unit) (l : list A) : Infer unit :=
  match l with [] => mret tt | a :: l => _ ← f a; for_each f l end.

Definition checked_binding (env : RowEnv) (c : SchemaCatalog) (b : ResolvedBinding) : CheckedBinding :=
  mk_checked_binding (bind_id b) (bind_name b) (display_name (table c (bind_table b))) (binding_nullability env (bind_id b)).

Definition analyze_predicate (env : RowEnv) (c : SchemaCatalog) (e : ResolvedExpr) : Infer unit :=
  m ← analyze_expr env c e; lift (require_predicate m (re_span e)).
Definition analyze_limit (env : RowEnv) (c : SchemaCatalog) (e : ResolvedExpr) : Infer unit :=
  m ← analyze_expr env c e; require_limit_like m (re_span e).
Definition analyze_option (f : ResolvedExpr → Infer unit) (o : option ResolvedExpr) : Infer unit :=
  match o with Some e => f e | None => mret tt end.

(** The joins of a SELECT, resolved: each sees the bindings up to its own. *)
Fixpoint resolve_joins (c : SchemaCatalog) (joins : list ParsedJoin) (next_id : BindingId) (sc : Scope) (bs : list ResolvedBinding)
  : result TypedSqlError (list ResolvedJoin * Scope * list ResolvedBinding) :=
  match joins with
  | [] => Ok ([], sc, bs)
  | j :: joins =>
    r ← resolve_from c (join_right j) next_id sc;
    let '(right_b, next_id, sc) := r in
    let bs := bs ++ [right_b] in
    on ← resolve_expr c sc bs (join_on j);
    rest ← resolve_joins c joins next_id sc bs;
    let '(js, sc, bs) := rest in
    Ok (mk_resolved_join (join_kind j) (bind_id right_b) on :: js, sc, bs)
  end.

(** The joins analysed: the environment of each ON clause, and that of the joined rows. *)
Fixpoint analyze_joins (c : SchemaCatalog) (joins : list ResolvedJoin) (env : RowEnv) : Infer (list RowEnv * RowEnv) :=
  match joins with
  | [] => mret ([], env)
  | j :: joins =>
    let on_env := with_binding (rj_right j) NonNull env in
    _ ← analyze_predicate on_env c (rj_on j);
    rest ← analyze_joins c joins (apply_join_nullability (rj_kind j) env (rj_right j));
    mret (on_env :: rest.1, rest.2)
  end.

Fixpoint finalize_joins (c : SchemaCatalog) (ctx : InferenceContext) (joins : list ResolvedJoin) (plans : list RowEnv)
  : result TypedSqlError (list CheckedJoin) :=
  match joins, plans with
  | j :: joins, on_env :: plans =>
    on ← finalize_expr on_env c ctx (rj_on j);
    rest ← finalize_joins c ctx joins plans;
    Ok (mk_checked_join (rj_kind j) (rj_right j) on :: rest)
  | _, _ => Ok []
  end.

(** A SELECT with its names resolved. *)
Record ResolvedSelect := mk_resolved_select {
  rs_bindings : list ResolvedBinding; rs_base : BindingId; rs_joins : list ResolvedJoin;
  rs_projections : list ResolvedProjection; rs_filter : option ResolvedExpr; rs_order_by : list ResolvedExpr;
  rs_limit : option ResolvedExpr; rs_offset : option ResolvedExpr;
}.

Definition resolve_option (f : ParsedExpr → result TypedSqlError ResolvedExpr) (o : option ParsedExpr)
  : result TypedSqlError (option ResolvedExpr) :=
  match o with None => Ok None | Some e => r ← f e; Ok (Some r) end.

Definition resolve_names (s : ParsedSelect) (c : SchemaCatalog) : result TypedSqlError ResolvedSelect :=
  r ← resolve_from c (sel_from s) 0 ∅;
  let '(from, next_id, sc) := r in
  joined ← resolve_joins c (sel_joins s) next_id sc [from];
  let '(joins, sc, bs) := joined in
  projections ← map_result (resolve_projection c sc bs) (sel_projections s);
  filter ← resolve_option (resolve_expr c sc bs) (sel_filter s);
  order_by ← map_result (λ o, resolve_expr c sc bs (ob_expr o)) (sel_order_by s);
  limit ← resolve_option (resolve_expr c sc bs) (limit_expr <$> sel_limit s);
  offset ← resolve_option (resolve_expr c sc bs) (offset_expr <$> sel_offset s);
  Ok (mk_resolved_select bs (bind_id from) joins projections filter order_by limit offset).

(** The analysis of a SELECT: the environments of its ON clauses and of its rows. *)
Definition analyze_select (r : ResolvedSelect) (c : SchemaCatalog) : Infer (list RowEnv * RowEnv) :=
  joined ← analyze_joins c (rs_joins r) (RowEnv_new (rs_base r));
  let env := joined.2 in
  _ ← analyze_option (analyze_predicate env c) (rs_filter r);
  _ ← for_each (analyze_projection "projection" env c) (rs_projections r);
  _ ← for_each (λ e, _ ← analyze_expr env c e; mret tt) (rs_order_by r);
  _ ← analyze_option (analyze_limit env c) (rs_limit r);
  _ ← analyze_option (analyze_limit env c) (rs_offset r);
  _ ← solve;
  mret joined.

Definition finalize_select (r : ResolvedSelect) (plans : list RowEnv) (env : RowEnv) (c : SchemaCatalog) (ctx : InferenceContext)
  : result TypedSqlError CheckedSelect :=
  joins ← finalize_joins c ctx (rs_joins r) plans;
  filter ← finalize_option env c ctx (rs_filter r);
  projections ← finalize_projections env c ctx 0 (rs_projections r);
  order_by ← map_result (finalize_expr env c ctx) (rs_order_by r);
  limit ← finalize_option env c ctx (rs_limit r);
  offset ← finalize_option env c ctx (rs_offset r);
  Ok (mk_checked_select (map (checked_binding env c) (rs_bindings r)) projections filter joins order_by limit offset
        (context_parameters ctx)).

Definition resolve_select (s : ParsedSelect) (c : SchemaCatalog) : result TypedSqlError CheckedSelect :=
  r ← resolve_names s c;
  match analyze_select r c InferenceContext_new with
  | (Err e, _) => Err e
  | (Ok (plans, env), ctx) => finalize_select r plans env c ctx
  end.

(** [INSERT]: values are resolved and analysed as they come. *)
Definition insert_value (c : SchemaCatalog) (sc : Scope) (bs : list ResolvedBinding) (env : RowEnv) (t : TableId)
    (e : ParsedExpr) (i : ColumnId) : Infer unit :=
  r ← lift (resolve_expr c sc bs e);
  m ← analyze_expr env c r;
  let col := column c t i in
  constrain_assignment (col_type col) (col_nullability col) m (re_span r).

Fixpoint insert_values (f : ParsedExpr → ColumnId → Infer unit) (es : list ParsedExpr) (cols : list ColumnId) : Infer unit :=
  match es, cols with
  | e :: es, i :: cols => _ ← f e i; insert_values f es cols
  | _, _ => mret tt
  end.

Definition insert_row (f : ParsedExpr → ColumnId → Infer unit) (cols : list ColumnId) (row : ParsedValuesRow) : Infer unit :=
  if (length (row_values row) =? length cols)%nat then insert_values f (row_values row) cols
  else throw (type_at ("typed_sql v1 expected " ++ Text.dec (Z.of_nat (length cols))
         ++ " INSERT values for target columns, but found " ++ Text.dec (Z.of_nat (length (row_values row)))) (row_span row)).

Definition resolve_returning (c : SchemaCatalog) (sc : Scope) (bs : list ResolvedBinding) (env : RowEnv)
    (ps : list ParsedProjection) : Infer (list ResolvedProjection) :=
  rps ← lift (map_result (resolve_projection c sc bs) ps);
  _ ← for_each (analyze_projection "RETURNING" env c) rps;
  mret rps.

Definition insert_columns (t : SchemaTable) (cols : list IdentSyntax) : result TypedSqlError (list ColumnId) :=
  match cols with
  | [] => Ok (seq 0 (length (columns t)))
  | _ => map_result (λ col, resolve_target_column t (ident_value col) (ident_span col)) cols
  end.

Definition resolve_insert (i : ParsedInsert) (c : SchemaCatalog) : result TypedSqlError CheckedInsert :=
  r ← resolve_single_target c (ins_target i);
  let '(target, sc, bs) := r in
  let env := RowEnv_new (bind_id target) in
  let t := bind_table (binding_at bs 0) in
  cols ← insert_columns (table c t) (ins_columns i);
  let analysis : Infer (list ResolvedProjection) :=
    _ ← for_each (insert_row (insert_value c sc bs env t) cols) (ins_values i);
    ps ← resolve_returning c sc bs env (ins_returning i);
    _ ← solve;
    mret ps in
  match analysis InferenceContext_new with
  | (Err e, _) => Err e
  | (Ok ps, ctx) =>
    projections ← finalize_projections env c ctx 0 ps;
    Ok (mk_checked_insert (checked_binding env c target) projections (context_parameters ctx))
  end.

Definition update_assignment (c : SchemaCatalog) (sc : Scope) (bs : list ResolvedBinding) (env : RowEnv) (a : ParsedAssignment)
  : Infer (ResolvedColumnRef * ResolvedExpr) :=
  target ← lift (resolve_assignment_target c sc bs a);
  value ← lift (resolve_expr c sc bs (as_value a));
  m ← analyze_expr env c value;
  let col := column c (rcol_table target) (rcol_column target) in
  _ ← constrain_assignment (col_type col) (col_nullability col) m (re_span value);
  mret (target, value).

Fixpoint update_assignments (f : ParsedAssignment → Infer (ResolvedColumnRef * ResolvedExpr)) (l : list ParsedAssignment)
  : Infer (list (ResolvedColumnRef * ResolvedExpr)) :=
  match l with [] => mret [] | a :: l => x ← f a; xs ← update_assignments f l; mret (x :: xs) end.

Definition resolved_predicate (c : SchemaCatalog) (sc : Scope) (bs : list ResolvedBinding) (env : RowEnv) (e : ParsedExpr)
  : Infer ResolvedExpr :=
  r ← lift (resolve_expr c sc bs e); _ ← analyze_predicate env c r; mret r.

Definition resolve_update (u : ParsedUpdate) (c : SchemaCatalog) : result TypedSqlError CheckedUpdate :=
  r ← resolve_single_target c (upd_target u);
  let '(target, sc, bs) := r in
  let env := RowEnv_new (bind_id target) in
  let analysis : Infer (list (ResolvedColumnRef * ResolvedExpr) * ResolvedExpr * list ResolvedProjection) :=
    assignments ← update_assignments (update_assignment c sc bs env) (upd_assignments u);
    filter ← resolved_predicate c sc bs env (upd_filter u);
    ps ← resolve_returning c sc bs env (upd_returning u);
    _ ← solve;
    mret (assignments, filter, ps) in
  match analysis InferenceContext_new with
  | (Err e, _) => Err e
  | (Ok (assignments, filter, ps), ctx) =>
    assignments ← map_result (λ a, v ← finalize_expr env c ctx a.2; Ok (mk_checked_assignment a.1 v)) assignments;
    filter ← finalize_expr env c ctx filter;
    projections ← finalize_projections env c ctx 0 ps;
    Ok (mk_checked_update (checked_binding env c target) assignments filter projections (context_parameters ctx))
  end.

Definition resolve_delete (d : ParsedDelete) (c : SchemaCatalog) : result TypedSqlError CheckedDelete :=
  r ← resolve_single_target c (del_target d);
  let '(target, sc, bs) := r in
  let env := RowEnv_new (bind_id target) in
  let analysis : Infer (ResolvedExpr * list ResolvedProjection) :=
    filter ← resolved_predicate c sc bs env (del_filter d);
    ps ← resolve_returning c sc bs env (del_returning d);
    _ ← solve;
    mret (filter, ps) in
  match analysis InferenceContext_new with
  | (Err e, _) => Err e
  | (Ok (filter, ps), ctx) =>
    filter ← finalize_expr env c ctx filter;
    projections ← finalize_projections env c ctx 0 ps;
    Ok (mk_checked_delete (checked_binding env c target) filter projections (context_parameters ctx))
  end.

Definition resolve_statement (s : ParsedStatement) (c : SchemaCatalog) : result TypedSqlError CheckedStatement :=
  match st_kind s with
  | KQuery =>
    select ← ok_or (as_select s) (internal "query statement missing SELECT body");
    checked ← resolve_select select c;
    Ok (mk_checked_statement KQuery RRows (CSelect checked))
  | KInsert =>
    checked ← match st_body s with
              | SBRows r => match rs_body r with
                            | RBInsert i => resolve_insert i c
                            | _ => Err (internal "insert statement did not carry insert body")
                            end
              | SBCommand cmd => match cs_body cmd with
                                 | CBInsert i => resolve_insert i c
                                 | _ => Err (internal "insert command did not carry insert body")
                                 end
              end;
    Ok (mk_checked_statement KInsert (st_result s) (CInsert checked))
  | KUpdate =>
    checked ← match st_body s with
              | SBRows r => match rs_body r with
                            | RBUpdate u => resolve_update u c
                            | _ => Err (internal "update statement did not carry update body")
                            end
              | SBCommand cmd => match cs_body cmd with
                                 | CBUpdate u => resolve_update u c
                                 | _ => Err (internal "update command did not carry update body")
                                 end
              end;
    Ok (mk_checked_statement KUpdate (st_result s) (CUpdate checked))
  | KDelete =>
    checked ← match st_body s with
              | SBRows r => match rs_body r with
                            | RBDelete d => resolve_delete d c
                            | _ => Err (internal "delete statement did not carry delete body")
                            end
              | SBCommand cmd => match cs_body cmd with
                                 | CBDelete d => resolve_delete d c
                                 | _ => Err (internal "delete command did not carry delete body")
                                 end
              end;
    Ok (mk_checked_statement KDelete (st_result s) (CDelete checked))
  end.
