(* ===== verification/ResolverFacts.v ===== *)
(** * Properties of the resolver

    Solving terminates and satisfies every constraint; a resolved statement is well typed
    ([well_typed]); and its nullability is sound for SQL's semantics: a column that a SELECT
    declares non-null is never NULL, whatever the outer joins do. *)
From S2P Require Import Prelude Text SqlIr Resolver.

Local Open Scope Z_scope.
Local Open Scope str_scope.

(** ** Induction on expressions *)
Definition resolved_children (n : ResolvedExprNode ResolvedExpr) : list ResolvedExpr :=
  match n with
  | RColumn _ | RPlaceholder _ | RLiteral _ => []
  | ROptionalGroup _ e | RUnary _ e | RIsNull _ e => [e]
  | RBinary _ l r => [l; r]
  | RBoolChain _ ts => ts
  end.

Definition checked_children (n : CheckedExprNode CheckedExpr) : list CheckedExpr :=
  match n with
  | CColumn _ | CPlaceholder _ | CLiteral _ => []
  | COptionalGroup _ e _ | CUnary _ e | CIsNull _ e => [e]
  | CBinary _ l r => [l; r]
  | CBoolChain _ ts => ts
  end.

Lemma resolved_expr_ind (P : ResolvedExpr → Prop) :
  (∀ span n, Forall P (resolved_children n) → P (mk_resolved span n)) → ∀ e, P e.
Proof.
  intros H. fix IH 1. intros [span n]. apply H.
  destruct n as [|?|?|? e|? e|? e1 e2|? e|? ts]; cbn; repeat constructor; try apply IH.
  induction ts as [|t ts IHts]; constructor; [apply IH|exact IHts].
Qed.

Lemma checked_expr_ind (P : CheckedExpr → Prop) :
  (∀ span k t n node, Forall P (checked_children node) → P (mk_checked span k t n node)) → ∀ e, P e.
Proof.
  intros H. fix IH 1. intros [span k t n node]. apply H.
  destruct node as [|?|?|? e ?|? e|? e1 e2|? e|? ts]; cbn; repeat constructor; try apply IH.
  induction ts as [|u ts IHts]; constructor; [apply IH|exact IHts].
Qed.

Lemma parsed_expr_ind (P : ParsedExpr → Prop) :
  (∀ c, P (PColumn c)) → (∀ p, P (PPlaceholder p)) → (∀ l, P (PLiteral l)) →
  (∀ id span e, P e → P (POptionalGroup id span e)) → (∀ id span op e, P e → P (PUnary id span op e)) →
  (∀ id span op l r, P l → P r → P (PBinary id span op l r)) → (∀ id span b e, P e → P (PIsNull id span b e)) →
  (∀ id span op ts, Forall P ts → P (PBoolChain id span op ts)) → ∀ e, P e.
Proof.
  intros H1 H2 H3 H4 H5 H6 H7 H8. fix IH 1.
  intros [c|p|l|id span e|id span op e|id span op l r|id span b e|id span op ts];
    [apply H1|apply H2|apply H3|apply H4, IH|apply H5, IH|apply H6; apply IH|apply H7, IH|].
  apply H8. induction ts as [|t ts IHts]; constructor; [apply IH|exact IHts].
Qed.

(** ** The inference context grows *)
Definition ctx_ok (ctx : InferenceContext) : Prop :=
  map_Forall (λ p s, ps_id s = p) (placeholders ctx)
  ∧ Forall (λ pc, is_Some (placeholders ctx !! pc_left pc) ∧ is_Some (placeholders ctx !! pc_right pc)) (pending ctx).

(** Inferred types are never changed and no constraint is dropped. *)
Definition extends (ctx ctx' : InferenceContext) : Prop :=
  (∀ p t, placeholder_sql_type ctx p = Some t → placeholder_sql_type ctx' p = Some t)
  ∧ pending ctx ⊆ pending ctx'.

#[export] Instance extends_preorder : PreOrder extends.
Proof.
  split; [by split|]. intros c1 c2 c3 [H1 H2] [H3 H4]. split; [auto|]. by etrans.
Qed.

(** A computation that keeps the context sound, lets it grow, and ensures [Q]. *)
Definition ensures {A} (m : Infer A) (Q : A → InferenceContext → Prop) : Prop :=
  ∀ ctx a ctx', ctx_ok ctx → m ctx = (Ok a, ctx') → ctx_ok ctx' ∧ extends ctx ctx' ∧ Q a ctx'.

(** A postcondition that survives the growth of the context. *)
Definition persistent {A} (Q : A → InferenceContext → Prop) : Prop :=
  ∀ a ctx ctx', extends ctx ctx' → Q a ctx → Q a ctx'.

Lemma ensures_ret {A} (a : A) (Q : A → InferenceContext → Prop) : (∀ ctx, Q a ctx) → ensures (mret a) Q.
Proof. intros HQ ctx x ctx' Hok [= <- <-]. done. Qed.

Lemma ensures_throw {A} e (Q : A → InferenceContext → Prop) : ensures (throw e) Q.
Proof. by intros ctx x ctx' Hok. Qed.

Lemma ensures_lift {A} (r : result TypedSqlError A) (Q : A → InferenceContext → Prop) :
  (∀ a ctx, r = Ok a → Q a ctx) → ensures (lift r) Q.
Proof. intros HQ ctx x ctx' Hok [= -> <-]. split; [done|]. split; [done|auto]. Qed.

Lemma ensures_bind {A B} (m : Infer A) (f : A → Infer B) (P : A → InferenceContext → Prop) (Q : B → InferenceContext → Prop) :
  ensures m P → persistent P → (∀ a, ensures (f a) (λ b ctx, P a ctx → Q b ctx)) → ensures (m ≫= f) Q.
Proof.
  intros Hm HP Hf ctx b ctx' Hok (a & ctx1 & Ha & Hb)%se_bind_inv.
  destruct (Hm _ _ _ Hok Ha) as (Hok1 & Hext1 & HPa). destruct (Hf a _ _ _ Hok1 Hb) as (Hok2 & Hext2 & HQ).
  split; [done|]. split; [by etrans|]. apply HQ. by eapply HP.
Qed.

Lemma ensures_impl {A} (m : Infer A) (P Q : A → InferenceContext → Prop) :
  ensures m P → (∀ a ctx, P a ctx → Q a ctx) → ensures m Q.
Proof. intros Hm HPQ ctx a ctx' Hok Ha. destruct (Hm _ _ _ Hok Ha) as (? & ? & ?). auto. Qed.

(** Changing one placeholder's state. *)
Lemma update_placeholder_ok p span f ctx :
  (∀ s, ps_id (f s) = ps_id s) →
  (∀ s, placeholders ctx !! p = Some s → is_Some (ps_inferred s) → ps_inferred (f s) = ps_inferred s) →
  ctx_ok ctx → ctx_ok (update_placeholder p span f ctx) ∧ extends ctx (update_placeholder p span f ctx).
Proof.
  intros Hid Hty [Hids Hpend]. split; [split|split].
  - apply map_Forall_insert_2; [|done]. rewrite Hid. destruct (placeholders ctx !! p) as [s|] eqn:Hp; [|done].
    by apply (Hids p s).
  - eapply Forall_impl; [exact Hpend|]. intros pc [Hl Hr]. cbn. by split; apply lookup_insert_is_Some'; right.
  - intros q t. unfold placeholder_sql_type, update_placeholder. cbn. destruct (decide (p = q)) as [->|Hne].
    + rewrite lookup_insert_eq. destruct (placeholders ctx !! q) as [s|] eqn:Hq; cbn; [|done]. intros Ht. by rewrite (Hty s), Ht.
    + by rewrite lookup_insert_ne.
  - done.
Qed.

Definition expects (p : PlaceholderId) (t : SqlType) (_ : unit) (ctx : InferenceContext) : Prop :=
  placeholder_sql_type ctx p = Some t.

Lemma persistent_expects p t : persistent (expects p t).
Proof. intros [] ctx ctx' [Hext _]. apply Hext. Qed.

Lemma ensures_expect p t n span : ensures (expect_placeholder p t n span) (expects p t).
Proof.
  intros ctx [] ctx' Hok. unfold expect_placeholder.
  destruct (update_placeholder_ok p span (widen_state n) ctx) as [Hok1 Hext1]; [done|done|done|].
  set (ctx1 := update_placeholder p span (widen_state n) ctx) in *.
  assert (Hin : is_Some (placeholders ctx1 !! p)) by (unfold ctx1, update_placeholder; cbn; by rewrite lookup_insert_eq).
  destruct Hin as [s Hs]. rewrite Hs. cbn. destruct (ps_inferred s) as [u|] eqn:Hu.
  - case_bool_decide as Heq; [|done]. intros [= <-]. split; [done|]. split; [done|].
    unfold expects, placeholder_sql_type. rewrite Hs. cbn. by rewrite Hu, Heq.
  - intros [= <-].
    destruct (update_placeholder_ok p span (set_inferred (Some t)) ctx1) as [Hok2 Hext2]; [done| |done|].
    { intros s' Hs' [t' Ht']. rewrite Hs in Hs'. injection Hs' as <-. by rewrite Hu in Ht'. }
    split; [done|]. split; [by etrans|]. unfold expects, placeholder_sql_type, update_placeholder. cbn.
    by rewrite lookup_insert_eq.
Qed.

Lemma ensures_observe r : ensures (observe_placeholder r) (λ _ _, True).
Proof.
  intros ctx [] ctx' Hok [= <-].
  destruct (update_placeholder_ok (rph_id r) (rph_span r)
    (λ s, mk_placeholder_state (ps_id s) (Some (rph_name r)) (Some (rph_slot r)) (ps_inferred s) (ps_nullability s)
            (ps_optional s || rph_optional r) (ps_first_span s)) ctx); done.
Qed.

(** A placeholder related to another stays so: their types will have to agree. *)
Definition related (p q : PlaceholderId) (_ : unit) (ctx : InferenceContext) : Prop :=
  p = q ∨ ∃ pc, pc ∈ pending ctx ∧ pc_left pc = p ∧ pc_right pc = q.

Lemma persistent_related p q : persistent (related p q).
Proof. intros [] ctx ctx' [_ Hsub] [Heq|(pc & Hin & Hpc)]; [by left|]. right. exists pc. auto. Qed.

Lemma ensures_relate p q span : ensures (relate_placeholders p q span) (related p q).
Proof.
  intros ctx [] ctx' Hok [= <-].
  destruct (update_placeholder_ok p span id ctx) as [Hok1 Hext1]; [done..|].
  destruct (update_placeholder_ok q span id (update_placeholder p span id ctx)) as [Hok2 Hext2]; [done..|].
  assert (Hp : is_Some (placeholders (update_placeholder q span id (update_placeholder p span id ctx)) !! p)).
  { unfold update_placeholder. cbn. apply lookup_insert_is_Some'. right. by rewrite lookup_insert_eq. }
  assert (Hq : is_Some (placeholders (update_placeholder q span id (update_placeholder p span id ctx)) !! q)).
  { unfold update_placeholder. cbn. by rewrite lookup_insert_eq. }
  case_bool_decide as Heq.
  - split; [done|]. split; [by etrans|]. by left.
  - destruct Hok2 as [Hids Hpend]. split; [|split].
    + split; [exact Hids|]. cbn. apply Forall_app. split; [exact Hpend|]. constructor; [|done]. by split.
    + etrans; [exact Hext1|]. etrans; [exact Hext2|]. split; [done|]. cbn. set_solver.
    + right. exists (mk_pending p q span). cbn. set_solver.
Qed.

Lemma ensures_current p (Q : Nullability → InferenceContext → Prop) :
  (∀ n ctx, Q n ctx) → ensures (current_nullability p) Q.
Proof. intros HQ ctx n ctx' Hok [= <- <-]. done. Qed.

Lemma persistent_True {A} : persistent (λ (_ : A) _, True).
Proof. done. Qed.

(** ** Solving *)

(** The constraint holds: both types are known and equal, or neither is. *)
Definition settled (ctx : InferenceContext) (pc : PendingConstraint) : Prop :=
  placeholder_sql_type ctx (pc_left pc) = placeholder_sql_type ctx (pc_right pc).

Definition open_placeholders (ctx : InferenceContext) : gmap PlaceholderId PlaceholderState :=
  filter (λ ps, ps_inferred ps.2 = None) (placeholders ctx).

Lemma expect_open p t n span ctx ctx' : is_Some (placeholders ctx !! p) → placeholder_sql_type ctx p = None →
  expect_placeholder p t n span ctx = (Ok tt, ctx') → 
  (size (open_placeholders ctx') < size (open_placeholders ctx))%nat ∧ pending ctx' = pending ctx.
Proof.
  intros [s Hs] Hnone. unfold expect_placeholder, placeholder_sql_type, update_placeholder in *. cbn.
  rewrite Hs in *. cbn in *. rewrite lookup_insert_eq. cbn. rewrite Hnone. intros [= <-]. split; [|done].
  unfold open_placeholders. cbn. rewrite insert_insert_eq.
  rewrite map_filter_insert_False by (cbn; by intros ?). rewrite map_filter_delete.
  assert (Hin : filter (λ ps : PlaceholderId * PlaceholderState, ps_inferred ps.2 = None) (placeholders ctx) !! p = Some s)
    by (by apply map_lookup_filter_Some_2).
  rewrite map_size_delete, Hin. cbn.
  assert (size (filter (λ ps : PlaceholderId * PlaceholderState, ps_inferred ps.2 = None) (placeholders ctx)) ≠ 0%nat); [|lia].
  intros Hz%map_size_empty_inv. by rewrite Hz in Hin.
Qed.

(** What one constraint does: nothing, when it is settled, or one type more is known. *)
Definition progresses (l : list PendingConstraint) (b b' : bool) (ctx ctx' : InferenceContext) : Prop :=
  ctx_ok ctx' ∧ extends ctx ctx' ∧ pending ctx' = pending ctx
  ∧ ((b' = b ∧ ctx' = ctx ∧ Forall (settled ctx) l)
     ∨ (b' = true ∧ (size (open_placeholders ctx') < size (open_placeholders ctx))%nat)).

Lemma solve_constraint_progresses pc b ctx b' ctx' : ctx_ok ctx → pc ∈ pending ctx →
  solve_constraint pc b ctx = (Ok b', ctx') → progresses [pc] b b' ctx ctx'.
Proof.
  intros Hok Hpc. destruct Hok as [Hids Hpend]. rewrite Forall_forall in Hpend. destruct (Hpend _ Hpc) as [Hl Hr].
  assert (Hok : ctx_ok ctx) by (split; [done|by apply Forall_forall]). unfold solve_constraint.
  destruct (placeholder_sql_type ctx (pc_left pc)) as [t|] eqn:Ht, (placeholder_sql_type ctx (pc_right pc)) as [u|] eqn:Hu.
  - case_bool_decide; [|done]. intros [= <- <-]. split; [done|]. split; [done|]. split; [done|]. left.
    split; [done|]. split; [done|]. constructor; [|done]. unfold settled. congruence.
  - intros ([] & ctx1 & He & [= <- <-])%se_bind_inv. destruct (ensures_expect _ _ _ _ _ _ _ Hok He) as (Hok1 & Hext & _).
    destruct (expect_open _ _ _ _ _ _ Hr Hu He) as [Hsize Hpend1]. split; [done|]. split; [done|]. split; [done|]. by right.
  - intros ([] & ctx1 & He & [= <- <-])%se_bind_inv. destruct (ensures_expect _ _ _ _ _ _ _ Hok He) as (Hok1 & Hext & _).
    destruct (expect_open _ _ _ _ _ _ Hl Ht He) as [Hsize Hpend1]. split; [done|]. split; [done|]. split; [done|]. by right.
  - intros [= <- <-]. split; [done|]. split; [done|]. split; [done|]. left.
    split; [done|]. split; [done|]. constructor; [|done]. unfold settled. congruence.
Qed.

Lemma solve_round_progresses l b ctx b' ctx' : ctx_ok ctx → l ⊆ pending ctx →
  solve_round l b ctx = (Ok b', ctx') → progresses l b b' ctx ctx'.
Proof.
  revert b ctx. induction l as [|pc l IH]; intros b ctx Hok Hsub; cbn.
  { intros [= <- <-]. split; [done|]. split; [done|]. split; [done|]. by left. }
  intros (b1 & ctx1 & H1 & H2)%se_bind_inv.
  apply solve_constraint_progresses in H1 as (Hok1 & Hext1 & Hpend1 & Hp1); [|done|set_solver].
  apply IH in H2 as (Hok2 & Hext2 & Hpend2 & Hp2); [|done|rewrite Hpend1; set_solver].
  split; [done|]. split; [by etrans|]. split; [congruence|].
  destruct Hp1 as [(-> & -> & Hs1)|[-> Hlt1]], Hp2 as [(-> & -> & Hs2)|[-> Hlt2]].
  - left. split; [done|]. split; [done|]. apply Forall_cons in Hs1 as [Hs1 _]. by constructor.
  - by right.
  - by right.
  - right. split; [done|lia].
Qed.

Lemma solve_loop_spec fuel ctx : ctx_ok ctx → (size (open_placeholders ctx) < fuel)%nat →
  ∃ r ctx', solve_loop fuel ctx = Some (r, ctx')
  ∧ match r with
    | Ok _ => ctx_ok ctx' ∧ extends ctx ctx' ∧ pending ctx' = pending ctx ∧ Forall (settled ctx') (pending ctx)
    | Err _ => True
    end.
Proof.
  revert ctx. induction fuel as [|fuel IH]; intros ctx Hok Hfuel; [lia|]. cbn.
  destruct (solve_round (pending ctx) false ctx) as [[b|e] ctx1] eqn:Hround; [|by exists (Err e), ctx1].
  apply solve_round_progresses in Hround as (Hok1 & Hext1 & Hpend1 & Hp); [|done|done].
  destruct Hp as [(-> & -> & Hs)|[-> Hlt]]; [by exists (Ok tt), ctx|].
  destruct (IH ctx1 Hok1) as (r & ctx2 & Hloop & Hr); [lia|]. exists r, ctx2. split; [done|].
  destruct r as [[]|e]; [|done]. destruct Hr as (Hok2 & Hext2 & Hpend2 & Hs2).
  split; [done|]. split; [by etrans|]. split; [congruence|]. by rewrite <- Hpend1.
Qed.

Lemma open_le ctx : (size (open_placeholders ctx) ≤ size (placeholders ctx))%nat.
Proof. apply map_size_filter. Qed.

(** An assignment of types that respects what is known and satisfies every constraint. *)
Definition solution (ctx : InferenceContext) (σ : PlaceholderId → SqlType) : Prop :=
  (∀ p t, placeholder_sql_type ctx p = Some t → σ p = t) ∧ Forall (λ pc, σ (pc_left pc) = σ (pc_right pc)) (pending ctx).

(** Steps of the solver keep exactly the solutions. *)
Lemma expect_solution p t n span ctx r ctx' σ : ctx_ok ctx → solution ctx σ → σ p = t →
  expect_placeholder p t n span ctx = (r, ctx') → is_ok r ∧ solution ctx' σ.
Proof.
  intros Hok [Hknown Hpend] Hp. unfold expect_placeholder.
  set (ctx1 := update_placeholder p span (widen_state n) ctx).
  assert (Hty : ∀ q, placeholder_sql_type ctx1 q = placeholder_sql_type ctx q).
  { intros q. unfold ctx1, placeholder_sql_type, update_placeholder. cbn. destruct (decide (p = q)) as [->|Hne].
    - rewrite lookup_insert_eq. by destruct (placeholders ctx !! q).
    - by rewrite lookup_insert_ne. }
  assert (Hin : is_Some (placeholders ctx1 !! p)) by (unfold ctx1, update_placeholder; cbn; by rewrite lookup_insert_eq).
  destruct Hin as [s Hs]. cbv zeta. fold ctx1. assert (Hp1 : pending ctx1 = pending ctx) by done. clearbody ctx1. rewrite Hs. cbn. destruct (ps_inferred s) as [u|] eqn:Hu.
  - assert (Hpu : placeholder_sql_type ctx p = Some u) by (rewrite <- Hty; unfold placeholder_sql_type; by rewrite Hs).
    apply Hknown in Hpu. rewrite bool_decide_true by congruence. intros [= <- <-]. split; [by exists tt|].
    split; [|cbn; by rewrite Hp1]. intros q t'. rewrite Hty. apply Hknown.
  - intros [= <- <-]. split; [by exists tt|]. split; [|cbn; by rewrite Hp1]. intros q t'.
    unfold placeholder_sql_type at 1, update_placeholder at 1. cbn. rewrite Hs. destruct (decide (p = q)) as [->|Hne].
    + rewrite lookup_insert_eq. cbn. congruence.
    + rewrite lookup_insert_ne by done. intros Ht. apply Hknown. by rewrite <- Hty.
Qed.

Lemma solve_constraint_solution pc b ctx r ctx' σ : ctx_ok ctx → pc ∈ pending ctx → solution ctx σ →
  solve_constraint pc b ctx = (r, ctx') → is_ok r ∧ solution ctx' σ.
Proof.
  intros Hok Hpc Hsol. assert (Heq : σ (pc_left pc) = σ (pc_right pc)).
  { destruct Hsol as [_ Hp]. rewrite Forall_forall in Hp. by apply Hp. }
  destruct Hsol as [Hknown Hp] eqn:E. clear E. unfold solve_constraint.
  destruct (placeholder_sql_type ctx (pc_left pc)) as [t|] eqn:Ht, (placeholder_sql_type ctx (pc_right pc)) as [u|] eqn:Hu.
  - pose proof (Hknown _ _ Ht). pose proof (Hknown _ _ Hu). rewrite bool_decide_true by congruence.
    intros [= <- <-]. split; [by eexists|done].
  - unfold mbind, se_bind. destruct (expect_placeholder _ _ _ _ ctx) as [r1 ctx1] eqn:He.
    destruct (expect_solution _ _ _ _ _ _ _ σ Hok Hsol (eq_trans (eq_sym Heq) (Hknown _ _ Ht)) He) as [[[] ->] Hsol1].
    intros [= <- <-]. split; [by eexists|done].
  - unfold mbind, se_bind. destruct (expect_placeholder _ _ _ _ ctx) as [r1 ctx1] eqn:He.
    destruct (expect_solution _ _ _ _ _ _ _ σ Hok Hsol (eq_trans Heq (Hknown _ _ Hu)) He) as [[[] ->] Hsol1].
    intros [= <- <-]. split; [by eexists|done].
  - intros [= <- <-]. split; [by eexists|done].
Qed.

Lemma solve_round_solution l b ctx r ctx' σ : ctx_ok ctx → l ⊆ pending ctx → solution ctx σ →
  solve_round l b ctx = (r, ctx') → is_ok r ∧ solution ctx' σ.
Proof.
  revert b ctx. induction l as [|pc l IH]; intros b ctx Hok Hsub Hsol; cbn.
  { intros [= <- <-]. split; [by eexists|done]. }
  destruct (solve_constraint pc b ctx) as [r1 ctx1] eqn:H1.
  destruct (solve_constraint_solution _ _ _ _ _ σ Hok (Hsub _ (list_elem_of_here _ _)) Hsol H1) as [[b1 ->] Hsol1].
  rewrite (se_bind_Ok _ _ _ _ _ H1).
  apply solve_constraint_progresses in H1 as (Hok1 & _ & Hpend1 & _); [|done|set_solver].
  apply IH; [done|rewrite Hpend1; set_solver|done].
Qed.

Lemma solve_loop_solution fuel ctx r ctx' σ : ctx_ok ctx → solution ctx σ →
  solve_loop fuel ctx = Some (r, ctx') → is_ok r ∧ solution ctx' σ.
Proof.
  revert ctx. induction fuel as [|fuel IH]; intros ctx Hok Hsol; cbn; [done|].
  destruct (solve_round (pending ctx) false ctx) as [r1 ctx1] eqn:Hround.
  destruct (solve_round_solution _ _ _ _ _ σ Hok (reflexivity _) Hsol Hround) as [[b ->] Hsol1].
  apply solve_round_progresses in Hround as (Hok1 & _); [|done|done]. destruct b.
  - by apply IH.
  - intros [= <- <-]. split; [by eexists|done].
Qed.

Lemma unresolved_nil ctx : unresolved ctx = [] → ∀ p s, placeholders ctx !! p = Some s → is_Some (ps_inferred s).
Proof.
  intros Hnil p s Hs. destruct (ps_inferred s) eqn:Hi; [by eexists|]. exfalso.
  assert (Hin : s ∈ unresolved ctx); [|rewrite Hnil in Hin; by apply elem_of_nil in Hin].
  unfold unresolved. rewrite merge_sort_Permutation. apply list_elem_of_filter. split; [done|].
  apply list_elem_of_fmap. exists (p, s). split; [done|]. by apply elem_of_map_to_list.
Qed.

Lemma unresolved_cons ctx s l : ctx_ok ctx → unresolved ctx = s :: l →
  is_Some (placeholders ctx !! ps_id s) ∧ placeholder_sql_type ctx (ps_id s) = None.
Proof.
  intros [Hids _] Heq. assert (Hin : s ∈ unresolved ctx) by (rewrite Heq; left).
  unfold unresolved in Hin. rewrite merge_sort_Permutation in Hin. apply list_elem_of_filter in Hin as [Hi Hin].
  apply list_elem_of_fmap in Hin as ([p s'] & -> & Hp%elem_of_map_to_list). cbn in *.
  rewrite (Hids p s' Hp). unfold placeholder_sql_type. rewrite Hp. by split.
Qed.

Lemma solve_loop_more fuel extra ctx r : solve_loop fuel ctx = Some r → solve_loop (fuel + extra) ctx = Some r.
Proof.
  revert ctx. induction fuel as [|fuel IH]; intros ctx; cbn; [done|].
  destruct (solve_round (pending ctx) false ctx) as [[[]|e] ctx1]; auto.
Qed.

(** No placeholder is forgotten. *)
Definition keeps (ctx ctx' : InferenceContext) : Prop :=
  ∀ p, is_Some (placeholders ctx !! p) → is_Some (placeholders ctx' !! p).

Lemma keeps_update p span f ctx : keeps ctx (update_placeholder p span f ctx).
Proof. intros q Hq. unfold update_placeholder. cbn. apply lookup_insert_is_Some'. by right. Qed.

Lemma keeps_expect p t n span ctx : keeps ctx (expect_placeholder p t n span ctx).2.
Proof.
  unfold expect_placeholder. destruct (ps_inferred _); [case_bool_decide|]; cbn.
  - apply keeps_update.
  - apply keeps_update.
  - intros q Hq. by apply keeps_update, keeps_update.
Qed.

Lemma keeps_constraint pc b ctx : keeps ctx (solve_constraint pc b ctx).2.
Proof.
  unfold solve_constraint, mbind, se_bind.
  destruct (placeholder_sql_type ctx (pc_left pc)) as [t|], (placeholder_sql_type ctx (pc_right pc)) as [u|]; [case_bool_decide; by intros p| | |by intros p].
  - pose proof (keeps_expect (pc_right pc) t (placeholder_nullability ctx (pc_left pc)) (pc_span pc) ctx) as Hk.
    by destruct (expect_placeholder _ _ _ _ ctx) as [[]].
  - pose proof (keeps_expect (pc_left pc) u (placeholder_nullability ctx (pc_right pc)) (pc_span pc) ctx) as Hk.
    by destruct (expect_placeholder _ _ _ _ ctx) as [[]].
Qed.

Lemma keeps_round l b ctx : keeps ctx (solve_round l b ctx).2.
Proof.
  revert b ctx. induction l as [|pc l IH]; intros b ctx; cbn; [by intros p|]. unfold mbind, se_bind.
  pose proof (keeps_constraint pc b ctx) as Hk. destruct (solve_constraint pc b ctx) as [[b1|e] ctx1]; cbn in *; [|done].
  intros p Hp. by apply IH, Hk.
Qed.

Lemma solve_loop_keeps fuel ctx r ctx' : ctx_ok ctx → solve_loop fuel ctx = Some (r, ctx') → keeps ctx ctx'.
Proof.
  intros _. revert ctx. induction fuel as [|fuel IH]; intros ctx; cbn; [done|].
  pose proof (keeps_round (pending ctx) false ctx) as Hk.
  destruct (solve_round (pending ctx) false ctx) as [[[]|e] ctx1]; cbn in Hk.
  - intros Hloop p Hp. by apply (IH _ Hloop), Hk.
  - by intros [= <- <-].
  - by intros [= <- <-].
Qed.

(** The types known in a context, as an assignment. *)
Definition known_types (ctx : InferenceContext) (t : SqlType) (p : PlaceholderId) : SqlType :=
  default t (placeholder_sql_type ctx p).

Lemma known_types_solution ctx t : Forall (settled ctx) (pending ctx) → solution ctx (known_types ctx t).
Proof.
  intros Hs. split; [intros p u Hp; unfold known_types; by rewrite Hp|].
  eapply Forall_impl; [exact Hs|]. intros pc Hpc. unfold known_types. by rewrite Hpc.
Qed.

Lemma solution_extends ctx ctx' σ : extends ctx ctx' → solution ctx' σ → solution ctx σ.
Proof.
  intros [Hty Hpend] [Hk Hp]. split; [auto|]. rewrite Forall_forall in *. auto.
Qed.



(** ** Well-typed expressions *)

(** Where the type of an expression comes from. *)
Fixpoint value_of (e : CheckedExpr) : ValueType :=
  match ce_node e with
  | CColumn _ => Concrete (ce_type e)
  | CPlaceholder p => Placeholder (rph_id p)
  | CLiteral l => literal_value_type l
  | COptionalGroup _ inner _ => value_of inner
  | CUnary Not _ => Concrete TBool
  | CUnary _ inner => value_of inner
  | CBinary _ _ _ | CIsNull _ _ | CBoolChain _ _ => Concrete TBool
  end.

(** The two sides of a comparison.  A placeholder compared to a literal is not constrained by
    it. *)
Definition comparison_ok (l r : CheckedExpr) : Prop :=
  match value_of l, value_of r with
  | NullLiteral, _ | _, NullLiteral => False
  | Concrete t, Concrete u => comparable_to t u = true
  | Concrete _, Placeholder _ | Placeholder _, Concrete _ | Placeholder _, Placeholder _ => ce_type l = ce_type r
  | Concrete t, literal | literal, Concrete t => literal_compatible t literal = true
  | Placeholder _, _ | _, Placeholder _ => True
  | a, b => literals_comparable a b = true
  end.

Section typing.
Context (c : SchemaCatalog) (bs : list ResolvedBinding) (env : RowEnv).
Context (params : PlaceholderId → option (SqlType * Nullability)).

(** The column exists in the table its binding stands for. *)
Definition column_in_scope (col : ResolvedColumnRef) : Prop :=
  ∃ b t sc, bs !! rcol_binding col = Some b ∧ bind_table b = rcol_table col
  ∧ tables c !! rcol_table col = Some t ∧ columns t !! rcol_column col = Some sc.

Inductive well_typed : CheckedExpr → Prop :=
  | wt_column span col : column_in_scope col →
    well_typed (mk_checked span Value (col_type (column c (rcol_table col) (rcol_column col))) (column_nullability env c col) (CColumn col))
  | wt_placeholder span p t n : params (rph_id p) = Some (t, n) → well_typed (mk_checked span Value t n (CPlaceholder p))
  | wt_literal span l t : finalize_literal_type l = Some t → well_typed (mk_checked span Value t (literal_nullability l) (CLiteral l))
  | wt_group span id e : well_typed e →
    well_typed (mk_checked span (ce_kind e) (ce_type e) (ce_nullability e) (COptionalGroup id e (collect_optional_placeholders e)))
  | wt_not span e : well_typed e → ce_kind e = Predicate → well_typed (mk_checked span Predicate TBool (ce_nullability e) (CUnary Not e))
  | wt_sign span op e : well_typed e → op ≠ Not → supports_unary_sign (ce_type e) = true →
    well_typed (mk_checked span Value (ce_type e) (ce_nullability e) (CUnary op e))
  | wt_binary span op l r : well_typed l → well_typed r → comparison_ok l r →
    well_typed (mk_checked span Predicate TBool (widen (ce_nullability l) (ce_nullability r)) (CBinary op l r))
  | wt_is_null span negated e : well_typed e → well_typed (mk_checked span Predicate TBool NonNull (CIsNull negated e))
  | wt_chain span op ts : Forall well_typed ts → Forall (λ t, ce_kind t = Predicate) ts →
    well_typed (mk_checked span Predicate TBool (widen_all ts) (CBoolChain op ts)).
End typing.

(** The parameters as the final context has them. *)
Definition typing_of (ctx : InferenceContext) (p : PlaceholderId) : option (SqlType * Nullability) :=
  t ← placeholder_sql_type ctx p; Some (t, placeholder_nullability ctx p).

Inductive in_scope (c : SchemaCatalog) (bs : list ResolvedBinding) : ResolvedExpr → Prop :=
  in_scope_intro span n :
    (∀ col, n = RColumn col → column_in_scope c bs col) → Forall (in_scope c bs) (resolved_children n) →
    in_scope c bs (mk_resolved span n).

Definition solved (ctx : InferenceContext) : Prop := Forall (settled ctx) (pending ctx).

Section soundness.
Context (c : SchemaCatalog) (bs : list ResolvedBinding) (env : RowEnv).

(** What the analysis of an expression promises: whatever is inferred later, the finished
    expression has the kind and the source of type that the analysis found, and is well typed. *)
Definition analysed (e : ResolvedExpr) (m : ExprMeta) (ctx : InferenceContext) : Prop :=
  ∀ ctxF e', extends ctx ctxF → solved ctxF → finalize_expr env c ctxF e = Ok e' →
  ce_kind e' = meta_kind m ∧ value_of e' = meta_type m ∧ well_typed c bs env (typing_of ctxF) e'.

Lemma persistent_analysed e : persistent (analysed e).
Proof. intros m ctx ctx' Hext Ha ctxF e' HextF. apply Ha. by etrans. Qed.

(** The type of an expression, from its source. *)
Lemma value_of_type ctx e : well_typed c bs env (typing_of ctx) e →
  match value_of e with
  | Concrete t => ce_type e = t
  | Placeholder p => placeholder_sql_type ctx p = Some (ce_type e)
  | _ => True
  end.
Proof.
  intros He. induction He as [|span p t n Hp|span l t Hl|span id e _ IH| |span op e _ IH Hop _| | |]; cbn; try done.
  - unfold typing_of in Hp. by destruct (placeholder_sql_type ctx (rph_id p)); simplify_eq/=.
  - unfold finalize_literal_type in Hl. destruct (literal_value_type l); try done. congruence.
  - by destruct op.
Qed.

Definition compared (a b : ValueType) (ctx : InferenceContext) : Prop :=
  match a, b with
  | NullLiteral, _ | _, NullLiteral => False
  | Concrete t, Concrete u => comparable_to t u = true
  | Concrete t, Placeholder p | Placeholder p, Concrete t => placeholder_sql_type ctx p = Some t
  | Placeholder p, Placeholder q => related p q tt ctx
  | Concrete t, literal | literal, Concrete t => literal_compatible t literal = true
  | Placeholder _, _ | _, Placeholder _ => True
  | a, b => literals_comparable a b = true
  end.

Lemma persistent_compared a b : persistent (λ (_ : unit) ctx, compared a b ctx).
Proof.
  intros [] ctx ctx' Hext. destruct a, b; cbn; try done; try apply (proj1 Hext).
  by apply (persistent_related _ _ tt).
Qed.

Lemma ensures_constrain l ls r rs span :
  ensures (constrain_comparison l ls r rs span) (λ _ ctx, compared (meta_type l) (meta_type r) ctx).
Proof.
  unfold constrain_comparison. destruct (meta_type l), (meta_type r); cbn [compared]; try apply ensures_throw;
    try (case_match; [by apply ensures_ret|apply ensures_throw]); try (by apply ensures_ret).
  - eapply ensures_impl; [apply ensures_expect|done].
  - eapply ensures_impl; [apply ensures_expect|done].
  - eapply ensures_impl; [apply ensures_relate|]. by intros [].
Qed.

Lemma compared_ok ctx l r : solved ctx → well_typed c bs env (typing_of ctx) l → well_typed c bs env (typing_of ctx) r →
  compared (value_of l) (value_of r) ctx → comparison_ok l r.
Proof.
  intros Hs Hl%value_of_type Hr%value_of_type Hc. unfold comparison_ok.
  destruct (value_of l), (value_of r); cbn in *; try done; try congruence.
  destruct Hc as [->|(pc & Hin & <- & <-)]; [congruence|].
  unfold solved in Hs. rewrite Forall_forall in Hs. specialize (Hs _ Hin). unfold settled in Hs. congruence.
Qed.

Lemma ensures_terms span terms n :
  Forall (λ t, ensures (analyze_expr env c t) (analysed t)) terms →
  ensures (analyze_terms (analyze_expr env c) span terms n)
    (λ _ ctx, Forall (λ t, ∃ m, analysed t m ctx ∧ meta_kind m = Predicate) terms).
Proof.
  intros Hall. revert n. induction Hall as [|t terms Ht _ IH]; intros n; cbn; [by apply ensures_ret|].
  eapply ensures_bind; [exact Ht|apply persistent_analysed|]. intros m. case_bool_decide; [|apply ensures_throw].
  eapply ensures_impl; [apply IH|]. intros n' ctx Hrest Hm. constructor; [by exists m|done].
Qed.

Lemma finalize_terms_typed ctx ctxF terms ts :
  extends ctx ctxF → solved ctxF →
  Forall (λ t, ∃ m, analysed t m ctx ∧ meta_kind m = Predicate) terms →
  map_result (finalize_expr env c ctxF) terms = Ok ts →
  Forall (well_typed c bs env (typing_of ctxF)) ts ∧ Forall (λ t, ce_kind t = Predicate) ts.
Proof.
  intros Hext Hs Hall Hts%map_result_Ok. induction Hts as [|t t' terms ts Ht _ IH]; [done|].
  apply Forall_cons in Hall as [(m & Ha & Hm) Hall]. destruct (IH Hall) as [IH1 IH2].
  destruct (Ha _ _ Hext Hs Ht) as (Hk & _ & Hw). split; constructor; [done|done|congruence|done].
Qed.

Lemma analyze_sound e : in_scope c bs e → ensures (analyze_expr env c e) (analysed e).
Proof.
  induction e as [span n IH] using resolved_expr_ind. inversion 1 as [? ? Hcol Hchildren]; subst.
  assert (Hsub : Forall (λ e, ensures (analyze_expr env c e) (analysed e)) (resolved_children n)).
  { rewrite Forall_forall in *. auto. }
  clear IH Hchildren. destruct n as [col|p|l|id e|op e|op e1 e2|negated e|op terms]; cbn [resolved_children] in Hsub; cbn [analyze_expr].
  - apply ensures_ret. intros ctx ctxF e' _ _ [= <-]. split; [done|]. split; [done|]. constructor. by apply Hcol.
  - eapply ensures_bind; [apply ensures_observe|apply persistent_True|]. intros [].
    eapply ensures_bind; [by apply (ensures_current _ (λ _ _, True))|apply persistent_True|]. intros n.
    apply ensures_ret. intros ctx _ _ ctxF e' _ _ (t & Ht%ok_or_Ok & [= <-])%result_bind_Ok.
    split; [done|]. split; [done|]. constructor. unfold typing_of. by rewrite Ht.
  - apply ensures_ret. intros ctx ctxF e' _ _ (t & Ht%ok_or_Ok & [= <-])%result_bind_Ok.
    split; [done|]. split; [done|]. by constructor.
  - rewrite Forall_singleton in Hsub. eapply ensures_impl; [exact Hsub|].
    intros m ctx Ha ctxF e' Hext Hs (i & Hi & [= <-])%result_bind_Ok.
    destruct (Ha _ _ Hext Hs Hi) as (Hk & Hv & Hw). split; [done|]. split; [done|]. by constructor.
  - rewrite Forall_singleton in Hsub. destruct op.
    + eapply ensures_bind; [exact Hsub|apply persistent_analysed|]. intros m. case_bool_decide as Hm; [|apply ensures_throw].
      apply ensures_ret. intros ctx Ha ctxF e' Hext Hs (i & Hi & [= <-])%result_bind_Ok.
      destruct (Ha _ _ Hext Hs Hi) as (Hk & Hv & Hw). split; [done|]. split; [done|]. constructor; [done|congruence].
    + eapply ensures_bind; [exact Hsub|apply persistent_analysed|]. intros m.
      eapply ensures_bind; [by apply (ensures_lift _ (λ _ _, True))|apply persistent_True|]. intros [].
      apply ensures_ret. intros ctx _ Ha ctxF e' Hext Hs (i & Hi & He)%result_bind_Ok.
      destruct (Ha _ _ Hext Hs Hi) as (Hk & Hv & Hw). destruct (supports_unary_sign (ce_type i)) eqn:Hsign; [|done].
      injection He as <-. split; [done|]. split; [done|]. by constructor.
    + eapply ensures_bind; [exact Hsub|apply persistent_analysed|]. intros m.
      eapply ensures_bind; [by apply (ensures_lift _ (λ _ _, True))|apply persistent_True|]. intros [].
      apply ensures_ret. intros ctx _ Ha ctxF e' Hext Hs (i & Hi & He)%result_bind_Ok.
      destruct (Ha _ _ Hext Hs Hi) as (Hk & Hv & Hw). destruct (supports_unary_sign (ce_type i)) eqn:Hsign; [|done].
      injection He as <-. split; [done|]. split; [done|]. by constructor.
  - apply Forall_cons in Hsub as [H1 H2]. rewrite Forall_singleton in H2.
    eapply ensures_bind; [exact H1|apply persistent_analysed|]. intros l.
    eapply ensures_bind; [exact H2|apply persistent_analysed|]. intros r.
    eapply ensures_bind; [apply ensures_constrain|apply persistent_compared|]. intros [].
    apply ensures_ret. intros ctx Hc Hr Hl ctxF e' Hext Hs (l' & Hl' & (r' & Hr' & [= <-])%result_bind_Ok)%result_bind_Ok.
    destruct (Hl _ _ Hext Hs Hl') as (_ & Hlv & Hlw), (Hr _ _ Hext Hs Hr') as (_ & Hrv & Hrw).
    split; [done|]. split; [done|]. constructor; [done|done|]. apply (compared_ok ctxF); [done..|].
    rewrite Hlv, Hrv. by apply (persistent_compared _ _ tt ctx).
  - rewrite Forall_singleton in Hsub. eapply ensures_bind; [exact Hsub|apply persistent_analysed|]. intros m.
    apply ensures_ret. intros ctx Ha ctxF e' Hext Hs (i & Hi & [= <-])%result_bind_Ok.
    destruct (Ha _ _ Hext Hs Hi) as (Hk & Hv & Hw). split; [done|]. split; [done|]. by constructor.
  - eapply ensures_bind; [by apply ensures_terms| |].
    { intros n ctx ctx' Hext Hall. eapply Forall_impl; [exact Hall|]. intros t (m & Ha & Hm). exists m. split; [|done].
      by eapply persistent_analysed. }
    intros n. apply ensures_ret. intros ctx Hall ctxF e' Hext Hs (ts & Hts & [= <-])%result_bind_Ok.
    destruct (finalize_terms_typed _ _ _ _ Hext Hs Hall Hts). split; [done|]. split; [done|]. by constructor.
Qed.
End soundness.

(** ** Names *)

(** The indices of a catalog are in range and lead to what they name. *)
Definition table_ok (t : SchemaTable) : Prop :=
  ∀ name i, columns_by_name t !! name = Some i → ∃ sc, columns t !! i = Some sc ∧ col_name sc = name.
Record catalog_ok (c : SchemaCatalog) : Prop := {
  cat_tables : Forall table_ok (tables c);
  cat_qualified parts i : by_qualified_name c !! parts = Some i → ∃ t, tables c !! i = Some t ∧ qualified_name_parts t = parts;
  cat_unqualified name l i : by_unqualified_name c !! name = Some l → i ∈ l → ∃ t, tables c !! i = Some t ∧ tbl_name t = name;
}.

Lemma index_columns_ok name pre cols m m' :
  index_columns name (length pre) cols m = Ok m' →
  (∀ n i, m !! n = Some i → ∃ sc, (pre ++ cols) !! i = Some sc ∧ col_name sc = n) →
  ∀ n i, m' !! n = Some i → ∃ sc, (pre ++ cols) !! i = Some sc ∧ col_name sc = n.
Proof.
  revert pre m. induction cols as [|sc cols IH]; intros pre m; cbn; [by intros [= <-]|].
  destruct (m !! col_name sc) as [j|]; [done|]. intros Hm Hold.
  specialize (IH (pre ++ [sc]) (<[col_name sc := length pre]> m)). rewrite length_app, Nat.add_1_r, <- (assoc_L app) in IH. cbn in IH.
  apply IH; [done|]. intros n i. rewrite lookup_insert_Some. intros [[<- <-]|[_ Hi]]; [|by apply Hold].
  exists sc. split; [|done]. by apply list_lookup_middle.
Qed.

Lemma SchemaTable_new_ok schema name cols t : SchemaTable_new schema name cols = Ok t → table_ok t ∧ columns t = cols.
Proof.
  unfold SchemaTable_new. intros (m & Hm & [= <-])%result_bind_Ok. split; [|done]. intros n i Hi. cbn in *.
  by eapply (index_columns_ok name [] cols ∅ m Hm).
Qed.

Lemma index_tables_ok pre ts q u r :
  index_tables (length pre) ts q u = Ok r →
  (∀ parts i, q !! parts = Some i → ∃ t, (pre ++ ts) !! i = Some t ∧ qualified_name_parts t = parts) →
  (∀ name l i, u !! name = Some l → i ∈ l → ∃ t, (pre ++ ts) !! i = Some t ∧ tbl_name t = name) →
  (∀ parts i, r.1 !! parts = Some i → ∃ t, (pre ++ ts) !! i = Some t ∧ qualified_name_parts t = parts)
  ∧ (∀ name l i, r.2 !! name = Some l → i ∈ l → ∃ t, (pre ++ ts) !! i = Some t ∧ tbl_name t = name).
Proof.
  revert pre q u. induction ts as [|t ts IH]; intros pre q u; cbn; [by intros [= <-]|].
  destruct (q !! qualified_name_parts t) as [j|]; [done|]. intros Hr Hq Hu.
  specialize (IH (pre ++ [t]) (<[qualified_name_parts t := length pre]> q)
    (<[tbl_name t := default [] (u !! tbl_name t) ++ [length pre]]> u)).
  rewrite length_app, Nat.add_1_r, <- (assoc_L app) in IH. cbn in IH. apply IH; [done| |].
  - intros parts i. rewrite lookup_insert_Some. intros [[<- <-]|[_ Hi]]; [|by apply Hq].
    exists t. split; [|done]. by apply list_lookup_middle.
  - intros name l i. rewrite lookup_insert_Some. intros [[<- <-]|[_ Hl]] Hi; [|by apply (Hu name l)].
    apply elem_of_app in Hi as [Hi|Hi%list_elem_of_singleton].
    + destruct (u !! tbl_name t) as [l|] eqn:Hl; [by apply (Hu _ l)|by apply elem_of_nil in Hi].
    + subst i. exists t. split; [|done]. by apply list_lookup_middle.
Qed.

Lemma SchemaCatalog_new_ok ts c : Forall table_ok ts → SchemaCatalog_new ts = Ok c → catalog_ok c ∧ tables c = ts.
Proof.
  intros Hts. unfold SchemaCatalog_new. intros (r & Hr & [= <-])%result_bind_Ok. split; [|done].
  destruct (index_tables_ok [] ts ∅ ∅ r Hr) as [Hq Hu]; [done|done|]. by split.
Qed.

Lemma resolve_table_ok c parts span i : catalog_ok c → resolve_table c parts span = Ok i → is_Some (tables c !! i).
Proof.
  intros Hc. unfold resolve_table. destruct (by_qualified_name c !! parts) as [j|] eqn:Hq.
  - intros [= <-]. destruct (cat_qualified _ Hc _ _ Hq) as (t & Ht & _). by exists t.
  - destruct parts as [|name [|]]; try done. destruct (by_unqualified_name c !! name) as [[|j [|]]|] eqn:Hu; try done.
    intros [= <-]. destruct (cat_unqualified _ Hc _ _ j Hu) as (t & Ht & _); [set_solver|]. by exists t.
Qed.

(** A scope names bindings that exist, each under its own name and index, of a table that
    exists. *)
Record scope_ok (c : SchemaCatalog) (sc : Scope) (bs : list ResolvedBinding) : Prop := {
  sc_names name id : sc !! name = Some id → ∃ b, bs !! id = Some b ∧ bind_name b = name;
  sc_bindings i b : bs !! i = Some b → bind_id b = i ∧ is_Some (tables c !! bind_table b);
}.

Lemma resolve_from_ok c f sc bs b n sc' : catalog_ok c → scope_ok c sc bs →
  resolve_from c f (length bs) sc = Ok (b, n, sc') → n = S (length bs) ∧ bind_id b = length bs ∧ scope_ok c sc' (bs ++ [b]).
Proof.
  intros Hc [Hnames Hbs]. unfold resolve_from.
  intros (t & Ht%resolve_table_ok & (sc1 & Hsc & [= <- <- <-])%result_bind_Ok)%result_bind_Ok; [|done].
  split; [done|]. split; [done|]. unfold scope_insert in Hsc. destruct (sc !! ident_value (binding_name f)); [done|].
  injection Hsc as <-. split.
  - intros name id [[<- <-]|[_ Hid]]%lookup_insert_Some.
    + eexists. split; [by apply list_lookup_middle|done].
    + destruct (Hnames _ _ Hid) as (b & Hb & Hn). exists b. split; [|done]. by apply lookup_app_l_Some.
  - intros i b [Hi|[Hge Hi]]%lookup_app_Some; [by apply Hbs|]. apply list_lookup_singleton_Some in Hi as [Hi <-].
    cbn. split; [lia|done].
Qed.

Lemma resolve_column_ok c sc bs col r : catalog_ok c → scope_ok c sc bs → resolve_column c sc bs col = Ok r →
  column_in_scope c bs r.
Proof.
  intros Hc [Hnames Hbs]. unfold resolve_column, scope_lookup. destruct (sc !! ident_value (cr_binding col)) as [id|] eqn:Hid; cbn; [|done].
  destruct (Hnames _ _ Hid) as (b & Hb & _). destruct (Hbs _ _ Hb) as [_ [t Ht]].
  unfold binding_at. rewrite Hb. cbn. unfold table. rewrite Ht. cbn.
  destruct (columns_by_name t !! ident_value (cr_column col)) as [i|] eqn:Hi; [|done]. intros [= <-].
  pose proof (cat_tables _ Hc) as Hts. rewrite Forall_lookup in Hts. destruct (Hts _ _ Ht _ _ Hi) as (s & Hs & _).
  by exists b, t, s.
Qed.

Lemma resolve_expr_ok c sc bs e r : catalog_ok c → scope_ok c sc bs → resolve_expr c sc bs e = Ok r → in_scope c bs r.
Proof.
  intros Hc Hsc. revert r.
  induction e as [col|p|l|id span e IH|id span op e IH|id span op e1 e2 IH1 IH2|id span b e IH|id span op ts IH] using parsed_expr_ind;
    intros r; cbn [resolve_expr]; intros (n & Hn & [= <-])%result_bind_Ok.
  - apply result_bind_Ok in Hn as (rc & Hrc & [= <-]). constructor; [|constructor]. intros ? [= <-]. by eapply resolve_column_ok.
  - injection Hn as <-. constructor; [done|constructor].
  - injection Hn as <-. constructor; [done|constructor].
  - apply result_bind_Ok in Hn as (i & Hi & [= <-]). constructor; [done|]. cbn. constructor; [by apply IH|done].
  - apply result_bind_Ok in Hn as (i & Hi & [= <-]). constructor; [done|]. cbn. constructor; [by apply IH|done].
  - apply result_bind_Ok in Hn as (i & Hi & (j & Hj & [= <-])%result_bind_Ok). constructor; [done|]. cbn.
    constructor; [by apply IH1|]. constructor; [by apply IH2|done].
  - apply result_bind_Ok in Hn as (i & Hi & [= <-]). constructor; [done|]. cbn. constructor; [by apply IH|done].
  - apply result_bind_Ok in Hn as (l & Hl%map_result_Ok & [= <-]). constructor; [done|]. cbn.
    induction Hl as [|t t' ts l Ht _ IHl]; [done|]. apply Forall_cons in IH as [IH1 IH2]. constructor; [by apply IH1|by apply IHl].
Qed.
