(* ===== verification/StatementTyping.v ===== *)
(** * Resolved statements are well typed

    What [resolve_statement] ([Resolver.v]) promises to the code generator: every expression of the
    statement it returns is well typed for the catalog, the row environment of its clause and the
    types and nullability of the statement's own parameters; predicates, limits, assignments and
    the described columns are what their clauses require. *)
From S2P Require Import Prelude Text SqlIr Resolver ResolverFacts.

Local Open Scope Z_scope.

(** ** Parameters *)
Definition parameter_of (ps : list CheckedParameter) (p : PlaceholderId) : option (SqlType * Nullability) :=
  '(_, q) ← list_find (λ q, par_id q = p) ps; Some (par_type q, par_nullability q).

Lemma elem_of_parameters ctx q : ctx_ok ctx →
  q ∈ context_parameters ctx ↔ ∃ s, placeholders ctx !! par_id q = Some s ∧ to_parameter s = Some q.
Proof.
  intros [Hids _]. unfold context_parameters. rewrite merge_sort_Permutation, list_elem_of_omap. split.
  - intros (s & Hs & Hq). apply list_elem_of_fmap in Hs as ([p s'] & -> & Hs%elem_of_map_to_list). cbn in *.
    exists s'. split; [|done]. unfold to_parameter in Hq. destruct (ps_inferred s'); [|done]. injection Hq as <-. cbn.
    by rewrite (Hids _ _ Hs).
  - intros (s & Hs & Hq). exists s. split; [|done]. apply list_elem_of_fmap. exists (par_id q, s). split; [done|].
    by apply elem_of_map_to_list.
Qed.

Lemma context_parameters_typing ctx p : ctx_ok ctx → parameter_of (context_parameters ctx) p = typing_of ctx p.
Proof.
  intros Hok. unfold parameter_of. destruct (list_find _ _) as [[i q]|] eqn:Hfind; cbn.
  - apply list_find_Some in Hfind as (Hq%list_elem_of_lookup_2 & <- & _).
    apply elem_of_parameters in Hq as (s & Hs & Hq); [|done]. unfold typing_of, placeholder_sql_type, placeholder_nullability.
    rewrite Hs. unfold to_parameter in Hq. cbn in *. destruct (ps_inferred s); [|done]. by injection Hq as <-.
  - apply list_find_None in Hfind. unfold typing_of, placeholder_sql_type. destruct (placeholders ctx !! p) as [s|] eqn:Hs; [|done].
    cbn. destruct (ps_inferred s) as [t|] eqn:Ht; [|done]. exfalso.
    assert (ps_id s = p) as <- by (by apply (proj1 Hok)).
    destruct (to_parameter s) as [q|] eqn:Hq; [|unfold to_parameter in Hq; by rewrite Ht in Hq].
    assert (par_id q = ps_id s) as Heq by (unfold to_parameter in Hq; rewrite Ht in Hq; by injection Hq as <-).
    rewrite Forall_forall in Hfind. apply (Hfind q); [|done]. apply elem_of_parameters; [done|]. rewrite Heq. eauto.
Qed.

Lemma well_typed_params c bs env f g e : (∀ p, f p = g p) → well_typed c bs env f e → well_typed c bs env g e.
Proof.
  intros Hfg. induction e as [span k t n node IH] using checked_expr_ind. intros He.
  inversion He; subst; cbn in IH; try rewrite Forall_singleton in IH; constructor; auto.
  - by rewrite <- Hfg.
  - apply Forall_cons in IH as [IH _]. auto.
  - apply Forall_cons in IH as [_ IH]. rewrite Forall_singleton in IH. auto.
  - rewrite Forall_forall in *. auto.
Qed.

(** ** Checked statements, well typed *)

(** An assigned value fits its column.  A bare NULL never gets this far. *)
Definition assignable (expected : SqlType) (v : CheckedExpr) : Prop :=
  match value_of v with
  | Concrete t => comparable_to expected t = true
  | Placeholder _ => ce_type v = expected
  | NullLiteral => False
  | literal => literal_compatible expected literal = true
  end.

Section statements.
Context (c : SchemaCatalog) (ps : list CheckedParameter).

Definition typed (bs : list ResolvedBinding) (env : RowEnv) (e : CheckedExpr) : Prop := well_typed c bs env (parameter_of ps) e.
Definition typed_predicate (bs : list ResolvedBinding) (env : RowEnv) (e : CheckedExpr) : Prop :=
  typed bs env e ∧ ce_kind e = Predicate.
Definition typed_limit (bs : list ResolvedBinding) (env : RowEnv) (e : CheckedExpr) : Prop :=
  typed bs env e ∧ is_integer_like (ce_type e) = true.

(** Each ON clause sees the bindings up to its own, whose rows are present. *)
Fixpoint typed_joins (bs : list ResolvedBinding) (env : RowEnv) (rest : list ResolvedBinding) (js : list CheckedJoin) : Prop :=
  match js, rest with
  | [], [] => True
  | j :: js, b :: rest =>
    cj_right j = length bs
    ∧ typed_predicate (bs ++ [b]) (with_binding (cj_right j) NonNull env) (cj_on j)
    ∧ typed_joins (bs ++ [b]) (apply_join_nullability (cj_kind j) env (cj_right j)) rest js
  | _, _ => False
  end.

(** The described columns are numbered from zero and say what their expressions are. *)
Definition typed_projections (bs : list ResolvedBinding) (env : RowEnv) (cps : list CheckedProjection) : Prop :=
  ∀ i p, cps !! i = Some p → cp_ordinal p = Z.of_nat i ∧ typed bs env (cp_expr p)
    ∧ cp_type p = ce_type (cp_expr p) ∧ cp_nullability p = ce_nullability (cp_expr p).

Definition typed_assignment (bs : list ResolvedBinding) (env : RowEnv) (a : CheckedAssignment) : Prop :=
  let col := column c (rcol_table (ca_target a)) (rcol_column (ca_target a)) in
  column_in_scope c bs (ca_target a) ∧ typed bs env (ca_value a) ∧ assignable (col_type col) (ca_value a).
End statements.

Definition joined_env (env : RowEnv) (js : list CheckedJoin) : RowEnv :=
  foldl (λ env j, apply_join_nullability (cj_kind j) env (cj_right j)) env js.
Arguments joined_env : simpl never.
(** The environment of a SELECT's rows. *)
Definition rows_env (s : CheckedSelect) : RowEnv := joined_env (RowEnv_new 0) (cs_joins s).

Record select_typed (c : SchemaCatalog) (bs : list ResolvedBinding) (s : CheckedSelect) : Prop := {
  sel_bindings_ok : cs_bindings s = map (checked_binding (rows_env s) c) bs;
  sel_ids_ok i b : bs !! i = Some b → bind_id b = i;
  sel_joins_ok : ∃ b rest, bs = b :: rest ∧ typed_joins c (cs_parameters s) [b] (RowEnv_new 0) rest (cs_joins s);
  sel_filter_ok e : cs_filter s = Some e → typed_predicate c (cs_parameters s) bs (rows_env s) e;
  sel_projections_ok : typed_projections c (cs_parameters s) bs (rows_env s) (cs_projections s);
  sel_order_by_ok : Forall (typed c (cs_parameters s) bs (rows_env s)) (cs_order_by s);
  sel_limit_ok e : cs_limit s = Some e → typed_limit c (cs_parameters s) bs (rows_env s) e;
  sel_offset_ok e : cs_offset s = Some e → typed_limit c (cs_parameters s) bs (rows_env s) e;
}.

(** The single table of an INSERT, UPDATE or DELETE, whose rows are present. *)
Definition single_target (c : SchemaCatalog) (f : ParsedFrom) (cb : CheckedBinding) (b : ResolvedBinding) : Prop :=
  cb = checked_binding (RowEnv_new 0) c b ∧ bind_id b = 0%nat ∧ bind_name b = ident_value (binding_name f)
  ∧ resolve_table c (map ident_value (name_parts (table_name f))) (name_span (table_name f)) = Ok (bind_table b).

(** A value of an INSERT fits its column: a placeholder has the column's type, and so has a
    literal; NULL only goes into nullable columns. *)
Definition insertable (ps : list CheckedParameter) (col : SchemaColumn) (e : ParsedExpr) : Prop :=
  match e with
  | PPlaceholder p => fst <$> parameter_of ps (placeholder_id p) = Some (col_type col)
  | PLiteral l =>
    match literal_value_type (lit_value l) with
    | NullLiteral => col_nullability col = Nullable
    | Concrete t => comparable_to (col_type col) t = true
    | literal => literal_compatible (col_type col) literal = true
    end
  | _ => True
  end.

(** Rows of an INSERT have a value per target column, that fits it. *)
Definition insert_row_typed (c : SchemaCatalog) (ps : list CheckedParameter) (t : TableId) (cols : list ColumnId)
    (row : ParsedValuesRow) : Prop :=
  Forall2 (λ e i, insertable ps (column c t i) e) (row_values row) cols.

Definition insert_typed (c : SchemaCatalog) (i : ParsedInsert) (ci : CheckedInsert) : Prop :=
  ∃ b cols, single_target c (ins_target i) (ci_target ci) b
  ∧ insert_columns (table c (bind_table b)) (ins_columns i) = Ok cols
  ∧ Forall (insert_row_typed c (ci_parameters ci) (bind_table b) cols) (ins_values i)
  ∧ typed_projections c (ci_parameters ci) [b] (RowEnv_new 0) (ci_projections ci).

Definition update_typed (c : SchemaCatalog) (u : ParsedUpdate) (cu : CheckedUpdate) : Prop :=
  ∃ b, single_target c (upd_target u) (cu_target cu) b
  ∧ Forall (typed_assignment c (cu_parameters cu) [b] (RowEnv_new 0)) (cu_assignments cu)
  ∧ typed_predicate c (cu_parameters cu) [b] (RowEnv_new 0) (cu_filter cu)
  ∧ typed_projections c (cu_parameters cu) [b] (RowEnv_new 0) (cu_projections cu).

Definition delete_typed (c : SchemaCatalog) (d : ParsedDelete) (cd : CheckedDelete) : Prop :=
  ∃ b, single_target c (del_target d) (cd_target cd) b
  ∧ typed_predicate c (cd_parameters cd) [b] (RowEnv_new 0) (cd_filter cd)
  ∧ typed_projections c (cd_parameters cd) [b] (RowEnv_new 0) (cd_projections cd).

(** The body a statement carries. *)
Definition insert_body (s : ParsedStatement) : option ParsedInsert :=
  match st_body s with
  | SBRows r => match rs_body r with RBInsert i => Some i | _ => None end
  | SBCommand cmd => match cs_body cmd with CBInsert i => Some i | _ => None end
  end.
Definition update_body (s : ParsedStatement) : option ParsedUpdate :=
  match st_body s with
  | SBRows r => match rs_body r with RBUpdate u => Some u | _ => None end
  | SBCommand cmd => match cs_body cmd with CBUpdate u => Some u | _ => None end
  end.
Definition delete_body (s : ParsedStatement) : option ParsedDelete :=
  match st_body s with
  | SBRows r => match rs_body r with RBDelete d => Some d | _ => None end
  | SBCommand cmd => match cs_body cmd with CBDelete d => Some d | _ => None end
  end.

Definition statement_typed (c : SchemaCatalog) (s : ParsedStatement) (st : CheckedStatement) : Prop :=
  cst_kind st = st_kind s
  ∧ match cst_body st with
    | CSelect cs => ∃ sel r, as_select s = Some sel ∧ resolve_names sel c = Ok r ∧ select_typed c (rs_bindings r) cs
    | CInsert ci => ∃ i, insert_body s = Some i ∧ insert_typed c i ci
    | CUpdate cu => ∃ u, update_body s = Some u ∧ update_typed c u cu
    | CDelete cd => ∃ d, delete_body s = Some d ∧ delete_typed c d cd
    end.

(** ** What each step of the analysis ensures *)
Section steps.
Context (c : SchemaCatalog) (bs : list ResolvedBinding) (env : RowEnv).

Definition value_analysed (e : ResolvedExpr) (ctx : InferenceContext) : Prop := ∃ m, analysed c bs env e m ctx.
Definition predicate_analysed (e : ResolvedExpr) (ctx : InferenceContext) : Prop :=
  ∃ m, analysed c bs env e m ctx ∧ meta_kind m = Predicate.
Definition limit_analysed (e : ResolvedExpr) (ctx : InferenceContext) : Prop :=
  ∃ m, analysed c bs env e m ctx
  ∧ match meta_type m with
    | Concrete t => is_integer_like t = true
    | Placeholder p => placeholder_sql_type ctx p = Some TInt8
    | IntegerLiteral => True
    | _ => False
    end.
Definition assigned (t : SqlType) (n : Nullability) (v : ValueType) (ctx : InferenceContext) : Prop :=
  match v with
  | Concrete u => comparable_to t u = true
  | Placeholder p => placeholder_sql_type ctx p = Some t
  | NullLiteral => n = Nullable
  | literal => literal_compatible t literal = true
  end.

Lemma persistent_value e : persistent (λ _ : unit, value_analysed e).
Proof. intros [] ctx ctx' Hext (m & Hm). exists m. by eapply persistent_analysed. Qed.
Lemma persistent_predicate e : persistent (λ _ : unit, predicate_analysed e).
Proof. intros [] ctx ctx' Hext (m & Hm & Hk). exists m. split; [by eapply persistent_analysed|done]. Qed.
Lemma persistent_limit e : persistent (λ _ : unit, limit_analysed e).
Proof.
  intros [] ctx ctx' Hext (m & Hm & Hk). exists m. split; [by eapply persistent_analysed|].
  destruct (meta_type m); try done. by apply Hext.
Qed.
Lemma persistent_assigned t n v : persistent (λ _ : unit, assigned t n v).
Proof. intros [] ctx ctx' Hext. destruct v; cbn; try done. apply Hext. Qed.

Lemma ensures_value e : in_scope c bs e → ensures (_ ← analyze_expr env c e; mret tt) (λ _, value_analysed e).
Proof.
  intros He. eapply ensures_bind; [by apply analyze_sound|apply persistent_analysed|]. intros m.
  apply ensures_ret. intros ctx Hm. by exists m.
Qed.

Lemma ensures_predicate e : in_scope c bs e → ensures (analyze_predicate env c e) (λ _, predicate_analysed e).
Proof.
  intros He. eapply ensures_bind; [by apply analyze_sound|apply persistent_analysed|]. intros m. apply ensures_lift.
  intros [] ctx. unfold require_predicate. case_bool_decide; [|done]. intros _ Hm. by exists m.
Qed.

Lemma ensures_limit e : in_scope c bs e → ensures (analyze_limit env c e) (λ _, limit_analysed e).
Proof.
  intros He. eapply ensures_bind; [by apply analyze_sound|apply persistent_analysed|]. intros m. unfold require_limit_like.
  destruct (meta_type m) as [t|p| | | |] eqn:Hm; try apply ensures_throw.
  - unfold limit_compatible. destruct (is_integer_like t) eqn:Ht; [|apply ensures_throw].
    apply ensures_ret. intros ctx Ha. exists m. by rewrite Hm.
  - eapply ensures_impl; [apply ensures_expect|]. intros [] ctx Hp Ha. exists m. by rewrite Hm.
  - apply ensures_ret. intros ctx Ha. exists m. by rewrite Hm.
Qed.

Lemma ensures_assignment t n m span : ensures (constrain_assignment t n m span) (λ _, assigned t n (meta_type m)).
Proof.
  unfold constrain_assignment. destruct (meta_type m) as [u|p| | | |]; cbn [assigned];
    try (case_match; [by apply ensures_ret|apply ensures_throw]).
  - eapply ensures_impl; [apply ensures_expect|done].
  - case_bool_decide; [by apply ensures_ret|apply ensures_throw].
Qed.

Lemma ensures_projection clause p : in_scope c bs (rp_expr p) →
  ensures (analyze_projection clause env c p) (λ _, value_analysed (rp_expr p)).
Proof. intros Hp. unfold analyze_projection. case_match; [apply ensures_throw|by apply ensures_value]. Qed.
End steps.

Lemma ensures_for_each {A} (f : A → Infer unit) (P : A → InferenceContext → Prop) l :
  (∀ a, persistent (λ _ : unit, P a)) → Forall (λ a, ensures (f a) (λ _, P a)) l →
  ensures (for_each f l) (λ _ ctx, Forall (λ a, P a ctx) l).
Proof.
  intros HP. induction 1 as [|a l Ha Hl IH]; [by apply ensures_ret|]. cbn.
  eapply ensures_bind; [exact Ha|apply HP|]. intros []. eapply ensures_impl; [exact IH|]. intros [] ctx Hrest Hfirst.
  by constructor.
Qed.

Lemma persistent_Forall {A} (P : A → InferenceContext → Prop) l :
  (∀ a, persistent (λ _ : unit, P a)) → persistent (λ (_ : unit) ctx, Forall (λ a, P a ctx) l).
Proof. intros HP [] ctx ctx' Hext Hl. eapply Forall_impl; [exact Hl|]. intros a. by apply (HP a tt). Qed.

Lemma ensures_option (f : ResolvedExpr → Infer unit) (P : ResolvedExpr → InferenceContext → Prop) o :
  (∀ e, o = Some e → ensures (f e) (λ _, P e)) → ensures (analyze_option f o) (λ _ ctx, ∀ e, o = Some e → P e ctx).
Proof.
  intros Hf. destruct o as [e|]; [|by apply ensures_ret]. eapply ensures_impl; [by apply Hf|]. by intros [] ctx HP ? [= <-].
Qed.

Lemma persistent_option (P : ResolvedExpr → InferenceContext → Prop) o :
  (∀ e, persistent (λ _ : unit, P e)) → persistent (λ (_ : unit) ctx, ∀ e, o = Some e → P e ctx).
Proof. intros HP [] ctx ctx' Hext Ho e He. eapply (HP e tt); [exact Hext|auto]. Qed.

Lemma ensures_solve : ensures solve (λ _, solved).
Proof.
  intros ctx [] ctx' Hok. unfold solve. pose proof (open_le ctx).
  destruct (solve_loop_spec (S (size (placeholders ctx))) ctx Hok) as (r & ctx1 & -> & Hr); [lia|].
  destruct r as [[]|]; [|done]. destruct Hr as (Hok1 & Hext & Hpend & Hs). unfold check_solved.
  destruct (unresolved ctx1); [|done]. intros [= <-]. split; [done|]. split; [done|]. unfold solved. by rewrite Hpend.
Qed.

Lemma ensures_bind_lift {A B} (r : result TypedSqlError A) (f : A → Infer B) (Q : B → InferenceContext → Prop) :
  (∀ a, r = Ok a → ensures (f a) Q) → ensures (lift r ≫= f) Q.
Proof. intros Hf ctx b ctx' Hok (a & ctx1 & [= -> <-] & Hb)%se_bind_inv. by apply (Hf a). Qed.

Lemma ensures_finish {A} (a : A) : ensures (_ ← solve; mret a) (λ x ctx, x = a ∧ solved ctx).
Proof.
  intros ctx x ctx' Hok ([] & ctx1 & Hs & [= <- <-])%se_bind_inv. destruct (ensures_solve _ _ _ Hok Hs) as (? & ? & ?). done.
Qed.

Lemma context_new_ok : ctx_ok InferenceContext_new.
Proof. split; [apply map_Forall_empty|constructor]. Qed.

(** ** Finishing the statement *)
Lemma literal_type c bs env params e : well_typed c bs env params e →
  value_of e = IntegerLiteral → ce_type e = TInt8.
Proof.
  intros He. induction He as [| |span l t Hl|span id e _ IH| |span op e _ IH Hop _| | |]; cbn; try done.
  - unfold finalize_literal_type in Hl. destruct (literal_value_type l); try done. congruence.
  - by destruct op.
Qed.

Section finishing.
Context (c : SchemaCatalog) (bs : list ResolvedBinding) (env : RowEnv) (ctx : InferenceContext).
Context (Hok : ctx_ok ctx) (Hsolved : solved ctx).
Abbreviation ps := (context_parameters ctx).

Lemma typed_intro e : well_typed c bs env (typing_of ctx) e → typed c ps bs env e.
Proof. apply well_typed_params. intros p. by rewrite context_parameters_typing. Qed.

Lemma finalize_value e e' : value_analysed c bs env e ctx → finalize_expr env c ctx e = Ok e' → typed c ps bs env e'.
Proof. intros (m & Hm) He. destruct (Hm ctx e') as (_ & _ & Hw); [done|done|done|]. by apply typed_intro. Qed.

Lemma finalize_predicate e e' : predicate_analysed c bs env e ctx → finalize_expr env c ctx e = Ok e' →
  typed_predicate c ps bs env e'.
Proof.
  intros (m & Hm & Hk) He. destruct (Hm ctx e') as (Hk' & _ & Hw); [done|done|done|].
  split; [by apply typed_intro|congruence].
Qed.

Lemma finalize_limit e e' : limit_analysed c bs env e ctx → finalize_expr env c ctx e = Ok e' → typed_limit c ps bs env e'.
Proof.
  intros (m & Hm & Hl) He. destruct (Hm ctx e') as (_ & Hv & Hw); [done|done|done|]. split; [by apply typed_intro|].
  pose proof (value_of_type _ _ _ _ _ Hw) as Ht. rewrite Hv in Ht. destruct (meta_type m) eqn:Hmt; try done.
  - congruence.
  - rewrite Ht in Hl. by injection Hl as ->.
  - by rewrite (literal_type _ _ _ _ _ Hw Hv).
Qed.

Lemma finalize_assignment t n m e e' : analysed c bs env e m ctx → assigned t n (meta_type m) ctx →
  finalize_expr env c ctx e = Ok e' → typed c ps bs env e' ∧ assignable t e'.
Proof.
  intros Hm Ha He. destruct (Hm ctx e') as (_ & Hv & Hw); [done|done|done|]. split; [by apply typed_intro|].
  pose proof (value_of_type _ _ _ _ _ Hw) as Ht. unfold assignable. rewrite Hv in *. destruct (meta_type m) eqn:Hmt; try done.
  - cbn in Ha. rewrite Ht in Ha. by injection Ha.
  - clear - Hv He. revert e' Hv He. induction e as [span node IH] using resolved_expr_ind.
    intros e' Hv He. destruct node as [col|p|l|id e|op e|op e1 e2|negated e|op terms]; cbn in *.
    + by injection He as <-.
    + apply result_bind_Ok in He as (? & _ & [= <-]). done.
    + apply result_bind_Ok in He as (t & Hl%ok_or_Ok & [= <-]). cbn in Hv. unfold finalize_literal_type in Hl. by rewrite Hv in Hl.
    + apply result_bind_Ok in He as (i & Hi & [= <-]). rewrite Forall_singleton in IH. by apply (IH i).
    + rewrite Forall_singleton in IH. destruct op; apply result_bind_Ok in He as (i & Hi & He); [by simplify_eq/=|..];
        destruct (supports_unary_sign (ce_type i)); simplify_eq/=; by apply (IH i).
    + apply result_bind_Ok in He as (? & _ & (? & _ & [= <-])%result_bind_Ok). done.
    + apply result_bind_Ok in He as (? & _ & [= <-]). done.
    + apply result_bind_Ok in He as (? & _ & [= <-]). done.
Qed.

Lemma finalize_option_ok (P : ResolvedExpr → InferenceContext → Prop) (Q : CheckedExpr → Prop) o o' :
  (∀ e e', P e ctx → finalize_expr env c ctx e = Ok e' → Q e') → (∀ e, o = Some e → P e ctx) →
  finalize_option env c ctx o = Ok o' → ∀ e', o' = Some e' → Q e'.
Proof.
  intros HPQ Ho. unfold finalize_option. destruct o as [e|]; [|by intros [= <-]].
  intros (e1 & He1 & [= <-])%result_bind_Ok ? [= <-]. eapply HPQ; [|exact He1]. auto.
Qed.

Lemma finalize_values es es' : Forall (λ e, value_analysed c bs env e ctx) es →
  map_result (finalize_expr env c ctx) es = Ok es' → Forall (typed c ps bs env) es'.
Proof.
  intros Hes Hes'%map_result_Ok. induction Hes' as [|e e' es es' He _ IH]; [done|]. apply Forall_cons in Hes as [He1 Hes].
  constructor; [by apply (finalize_value e)|by apply IH].
Qed.

Lemma finalize_projections_ok n rps cps : Forall (λ p, value_analysed c bs env (rp_expr p) ctx) rps →
  finalize_projections env c ctx n rps = Ok cps → ∀ i p, cps !! i = Some p →
  cp_ordinal p = Z.of_nat (n + i) ∧ typed c ps bs env (cp_expr p)
  ∧ cp_type p = ce_type (cp_expr p) ∧ cp_nullability p = ce_nullability (cp_expr p).
Proof.
  intros Hps. revert n cps. induction Hps as [|rp rps Hrp _ IH]; intros n cps; cbn; [by intros [= <-]|].
  intros (cp & Hcp & (cps' & Hcps & [= <-])%result_bind_Ok)%result_bind_Ok i p. unfold finalize_projection in Hcp.
  apply result_bind_Ok in Hcp as (e & He & [= <-]). destruct i as [|i]; cbn.
  - intros [= <-]. cbn. rewrite Nat.add_0_r. split; [done|]. split; [by apply (finalize_value (rp_expr rp))|done].
  - intros Hp. rewrite <- Nat.add_succ_comm. by apply (IH (S n) cps').
Qed.
End finishing.

(** ** Joins *)

(** The joins of a SELECT, resolved: their bindings are numbered in order and their ON clauses
    name the bindings up to their own. *)
Fixpoint joins_in_scope (c : SchemaCatalog) (bs rest : list ResolvedBinding) (js : list ResolvedJoin) : Prop :=
  match js, rest with
  | [], [] => True
  | j :: js, b :: rest => rj_right j = length bs ∧ in_scope c (bs ++ [b]) (rj_on j) ∧ joins_in_scope c (bs ++ [b]) rest js
  | _, _ => False
  end.

Lemma resolve_joins_ok c joins sc bs js sc' bs' : catalog_ok c → scope_ok c sc bs →
  resolve_joins c joins (length bs) sc bs = Ok (js, sc', bs') →
  scope_ok c sc' bs' ∧ ∃ rest, bs' = bs ++ rest ∧ joins_in_scope c bs rest js.
Proof.
  intros Hc. revert sc bs js. induction joins as [|j joins IH]; intros sc bs js Hsc; cbn.
  { intros [= <- <- <-]. split; [done|]. exists []. by rewrite (right_id_L [] (++)). }
  intros ([[b n] sc1] & Hfrom & (on & Hon & ([[js1 sc2] bs2] & Hrest & [= <- <- <-])%result_bind_Ok)%result_bind_Ok)%result_bind_Ok.
  destruct (resolve_from_ok _ _ _ _ _ _ _ Hc Hsc Hfrom) as (-> & Hid & Hsc1).
  assert (length (bs ++ [b]) = S (length bs)) as Hlen by (rewrite length_app; cbn; lia). rewrite <- Hlen in Hrest.
  destruct (IH _ _ _ Hsc1 Hrest) as (Hsc2 & rest & -> & Hjs). split; [done|]. exists (b :: rest).
  rewrite <- (assoc_L (++)). split; [done|]. cbn. split; [done|]. split; [by eapply resolve_expr_ok|done].
Qed.

Fixpoint joins_analysed (c : SchemaCatalog) (bs : list ResolvedBinding) (env : RowEnv) (rest : list ResolvedBinding)
    (js : list ResolvedJoin) (ctx : InferenceContext) : Prop :=
  match js, rest with
  | [], [] => True
  | j :: js, b :: rest =>
    rj_right j = length bs
    ∧ predicate_analysed c (bs ++ [b]) (with_binding (rj_right j) NonNull env) (rj_on j) ctx
    ∧ joins_analysed c (bs ++ [b]) (apply_join_nullability (rj_kind j) env (rj_right j)) rest js ctx
  | _, _ => False
  end.

(** The environments of the ON clauses and of the rows. *)
Fixpoint on_envs (env : RowEnv) (js : list ResolvedJoin) : list RowEnv :=
  match js with
  | [] => []
  | j :: js => with_binding (rj_right j) NonNull env :: on_envs (apply_join_nullability (rj_kind j) env (rj_right j)) js
  end.
Definition final_env (env : RowEnv) (js : list ResolvedJoin) : RowEnv :=
  foldl (λ env j, apply_join_nullability (rj_kind j) env (rj_right j)) env js.

Lemma persistent_joins c bs env rest js : persistent (λ _ : unit, joins_analysed c bs env rest js).
Proof.
  intros [] ctx ctx' Hext. revert bs env rest. induction js as [|j js IH]; intros bs env [|b rest]; cbn; try done.
  intros (Hid & Hon & Hjs). split; [done|]. split; [by eapply (persistent_predicate _ _ _ _ tt)|by apply IH].
Qed.

Lemma ensures_joins c bs env rest js : joins_in_scope c bs rest js →
  ensures (analyze_joins c js env) (λ r ctx, r = (on_envs env js, final_env env js) ∧ joins_analysed c bs env rest js ctx).
Proof.
  revert bs env rest. induction js as [|j js IH]; intros bs env [|b rest]; cbn [joins_in_scope analyze_joins]; try done.
  { intros _. by apply ensures_ret. }
  intros (Hid & Hon & Hjs).
  eapply ensures_bind; [by apply (ensures_predicate c (bs ++ [b]))|apply persistent_predicate|]. intros [].
  eapply ensures_bind; [by apply (IH (bs ++ [b]))| |].
  { intros r ctx ctx' Hext [Hr Ha]. split; [done|]. by eapply (persistent_joins _ _ _ _ _ tt). }
  intros r. apply ensures_ret. intros ctx [-> Hrest] Hfirst. split; [done|]. split; [done|]. by split.
Qed.

Lemma finalize_joins_ok c bs env rest js ctx js' : ctx_ok ctx → solved ctx → joins_analysed c bs env rest js ctx →
  finalize_joins c ctx js (on_envs env js) = Ok js' →
  typed_joins c (context_parameters ctx) bs env rest js' ∧ joined_env env js' = final_env env js
  ∧ map (λ j, (cj_kind j, cj_right j)) js' = map (λ j, (rj_kind j, rj_right j)) js.
Proof.
  intros Hok Hs. revert bs env rest js'. induction js as [|j js IH]; intros bs env [|b rest] js'; cbn; try done.
  { by intros _ [= <-]. }
  intros (Hid & Hon & Hjs) (on & Hon' & (js1 & Hjs1 & [= <-])%result_bind_Ok)%result_bind_Ok.
  destruct (IH _ _ _ _ Hjs Hjs1) as (Ht & He & Hm). cbn. split; [|split; [exact He|by rewrite Hm]]. split; [done|]. split; [|done].
  by apply (finalize_predicate _ _ _ _ Hok Hs (rj_on j)).
Qed.

(** ** SELECT *)
Definition option_in_scope (c : SchemaCatalog) (bs : list ResolvedBinding) (o : option ResolvedExpr) : Prop :=
  ∀ e, o = Some e → in_scope c bs e.

Record names_ok (c : SchemaCatalog) (r : ResolvedSelect) : Prop := {
  nm_base : rs_base r = 0%nat;
  nm_ids i b : rs_bindings r !! i = Some b → bind_id b = i;
  nm_joins : ∃ b rest, rs_bindings r = b :: rest ∧ joins_in_scope c [b] rest (rs_joins r);
  nm_projections : Forall (λ p, in_scope c (rs_bindings r) (rp_expr p)) (rs_projections r);
  nm_filter : option_in_scope c (rs_bindings r) (rs_filter r);
  nm_order_by : Forall (in_scope c (rs_bindings r)) (rs_order_by r);
  nm_limit : option_in_scope c (rs_bindings r) (rs_limit r);
  nm_offset : option_in_scope c (rs_bindings r) (rs_offset r);
}.

Lemma scope_empty_ok c : scope_ok c ∅ [].
Proof. split; [|done]. by intros name id. Qed.

Lemma resolve_projection_ok c sc bs p rp : catalog_ok c → scope_ok c sc bs → resolve_projection c sc bs p = Ok rp →
  in_scope c bs (rp_expr rp).
Proof. intros Hc Hsc (e & He & [= <-])%result_bind_Ok. by eapply resolve_expr_ok. Qed.

Lemma map_result_Forall {A B} (f : A → result TypedSqlError B) (P : B → Prop) l l' :
  (∀ a b, f a = Ok b → P b) → map_result f l = Ok l' → Forall P l'.
Proof. intros Hf Hl%map_result_Ok. induction Hl; constructor; eauto. Qed.

Lemma resolve_option_ok c sc bs o o' : catalog_ok c → scope_ok c sc bs →
  resolve_option (resolve_expr c sc bs) o = Ok o' → option_in_scope c bs o'.
Proof.
  intros Hc Hsc. destruct o as [e|]; cbn; [|by intros [= <-]]. intros (r & Hr & [= <-])%result_bind_Ok ? [= <-].
  by eapply resolve_expr_ok.
Qed.

Lemma resolve_names_ok s c r : catalog_ok c → resolve_names s c = Ok r → names_ok c r.
Proof.
  intros Hc ([[from n] sc] & Hfrom & H)%result_bind_Ok.
  destruct (resolve_from_ok c _ _ _ _ _ _ Hc (scope_empty_ok c) Hfrom) as (-> & Hid & Hsc).
  apply result_bind_Ok in H as ([[js sc'] bs] & Hjs & H).
  destruct (resolve_joins_ok c _ _ [from] _ _ _ Hc Hsc Hjs) as (Hsc' & rest & -> & Hjoins).
  repeat (apply result_bind_Ok in H as (? & ? & H)). injection H as <-. split; cbn; try done.
  - intros i b. apply Hsc'.
  - eauto.
  - eapply map_result_Forall; [|done]. intros ??. by apply resolve_projection_ok.
  - by eapply resolve_option_ok.
  - eapply map_result_Forall; [|done]. intros ??. by apply resolve_expr_ok.
  - by eapply resolve_option_ok.
  - by eapply resolve_option_ok.
Qed.

(** What the analysis of a SELECT leaves behind. *)
Record select_analysed (c : SchemaCatalog) (r : ResolvedSelect) (env : RowEnv) (ctx : InferenceContext) : Prop := {
  sa_joins : ∃ b rest, rs_bindings r = b :: rest ∧ joins_analysed c [b] (RowEnv_new 0) rest (rs_joins r) ctx;
  sa_projections : Forall (λ p, value_analysed c (rs_bindings r) env (rp_expr p) ctx) (rs_projections r);
  sa_filter e : rs_filter r = Some e → predicate_analysed c (rs_bindings r) env e ctx;
  sa_order_by : Forall (λ e, value_analysed c (rs_bindings r) env e ctx) (rs_order_by r);
  sa_limit e : rs_limit r = Some e → limit_analysed c (rs_bindings r) env e ctx;
  sa_offset e : rs_offset r = Some e → limit_analysed c (rs_bindings r) env e ctx;
}.

(** The rule for [bind] when what the first computation returns is determined. *)
Lemma ensures_bind_eq {A B} (m : Infer A) a (f : A → Infer B) (P : InferenceContext → Prop) (Q : B → InferenceContext → Prop) :
  ensures m (λ x ctx, x = a ∧ P ctx) → persistent (λ _ : unit, P) → ensures (f a) (λ b ctx, P ctx → Q b ctx) →
  ensures (m ≫= f) Q.
Proof.
  intros Hm HP Hf ctx b ctx' Hok (x & ctx1 & Ha & Hb)%se_bind_inv.
  destruct (Hm _ _ _ Hok Ha) as (Hok1 & Hext1 & -> & HPa). destruct (Hf _ _ _ Hok1 Hb) as (Hok2 & Hext2 & HQ).
  split; [done|]. split; [by etrans|]. apply HQ. by eapply (HP tt).
Qed.

Lemma analyze_select_ok c r : names_ok c r →
  ensures (analyze_select r c) (λ j ctx, j = (on_envs (RowEnv_new 0) (rs_joins r), final_env (RowEnv_new 0) (rs_joins r))
    ∧ select_analysed c r (final_env (RowEnv_new 0) (rs_joins r)) ctx ∧ solved ctx).
Proof.
  intros [Hbase _ (b & rest & Hbs & Hjoins) Hps Hfilter Horder Hlimit Hoffset]. unfold analyze_select. rewrite Hbase.
  eapply ensures_bind_eq; [by apply (ensures_joins c [b])|apply persistent_joins|]. cbn [snd].
  set (env := final_env (RowEnv_new 0) (rs_joins r)). set (bs := rs_bindings r) in *.
  eapply ensures_bind; [apply (ensures_option _ (predicate_analysed c bs env))| |].
  { intros e He. by apply ensures_predicate, Hfilter. }
  { apply persistent_option, persistent_predicate. }
  intros []. eapply ensures_bind; [apply (ensures_for_each _ (λ p, value_analysed c bs env (rp_expr p)))| |].
  { intros p. apply persistent_value. }
  { eapply Forall_impl; [exact Hps|]. intros p. apply ensures_projection. }
  { apply persistent_Forall. intros p. apply persistent_value. }
  intros []. eapply ensures_bind; [apply (ensures_for_each _ (value_analysed c bs env))| |].
  { apply persistent_value. }
  { eapply Forall_impl; [exact Horder|]. intros e. apply ensures_value. }
  { apply persistent_Forall, persistent_value. }
  intros []. eapply ensures_bind; [apply (ensures_option _ (limit_analysed c bs env))| |].
  { intros e He. by apply ensures_limit, Hlimit. }
  { apply persistent_option, persistent_limit. }
  intros []. eapply ensures_bind; [apply (ensures_option _ (limit_analysed c bs env))| |].
  { intros e He. by apply ensures_limit, Hoffset. }
  { apply persistent_option, persistent_limit. }
  intros []. eapply ensures_impl; [apply ensures_finish|]. intros j ctx [-> Hsolved] Ho Hl Hor Hp Hf Hj.
  split; [done|]. split; [|done]. split; eauto.
Qed.

Lemma finalize_select_ok c r ctx cs : names_ok c r → ctx_ok ctx → solved ctx →
  select_analysed c r (final_env (RowEnv_new 0) (rs_joins r)) ctx →
  finalize_select r (on_envs (RowEnv_new 0) (rs_joins r)) (final_env (RowEnv_new 0) (rs_joins r)) c ctx = Ok cs →
  select_typed c (rs_bindings r) cs.
Proof.
  intros Hn Hok Hs [(b & rest & Hbs & Hjoins) Hps Hfilter Horder Hlimit Hoffset].
  intros (js & Hjs & (f & Hf & (cps & Hcps & (os & Hos & (l & Hl & (o & Ho & [= <-])%result_bind_Ok)%result_bind_Ok)%result_bind_Ok)%result_bind_Ok)%result_bind_Ok)%result_bind_Ok.
  destruct (finalize_joins_ok _ _ _ _ _ _ _ Hok Hs Hjoins Hjs) as (Hjt & Henv & _).
  set (env := final_env (RowEnv_new 0) (rs_joins r)) in *.
  split; unfold rows_env; cbn; rewrite ?Henv; try done.
  - apply (nm_ids _ _ Hn).
  - eauto.
  - by apply (finalize_option_ok c env ctx (predicate_analysed c (rs_bindings r) env) _ (rs_filter r) f (finalize_predicate c _ env ctx Hok Hs)).
  - intros i p Hp. by apply (finalize_projections_ok c (rs_bindings r) env ctx Hok Hs 0 (rs_projections r) cps).
  - by apply (finalize_values c (rs_bindings r) env ctx Hok Hs (rs_order_by r)).
  - by apply (finalize_option_ok c env ctx (limit_analysed c (rs_bindings r) env) _ (rs_limit r) l (finalize_limit c _ env ctx Hok Hs)).
  - by apply (finalize_option_ok c env ctx (limit_analysed c (rs_bindings r) env) _ (rs_offset r) o (finalize_limit c _ env ctx Hok Hs)).
Qed.

Lemma resolve_select_ok s c cs : catalog_ok c → resolve_select s c = Ok cs →
  ∃ r, resolve_names s c = Ok r ∧ select_typed c (rs_bindings r) cs.
Proof.
  intros Hc (r & Hr & Hcs)%result_bind_Ok. exists r. split; [done|].
  pose proof (resolve_names_ok _ _ _ Hc Hr) as Hn.
  destruct (analyze_select r c InferenceContext_new) as [[[plans env]|] ctx] eqn:Ha; [|done].
  destruct (analyze_select_ok c r Hn _ _ _ context_new_ok Ha) as (Hok & _ & [= -> ->] & Hsa & Hs).
  by apply (finalize_select_ok c r ctx).
Qed.

(** ** INSERT, UPDATE, DELETE *)
Lemma resolve_single_target_ok c f b sc bs : catalog_ok c → resolve_single_target c f = Ok (b, sc, bs) →
  bs = [b] ∧ bind_id b = 0%nat ∧ scope_ok c sc [b] ∧ single_target c f (checked_binding (RowEnv_new 0) c b) b.
Proof.
  intros Hc ([[b1 n] sc1] & Hfrom & [= <- <- <-])%result_bind_Ok.
  destruct (resolve_from_ok c _ _ _ _ _ _ Hc (scope_empty_ok c) Hfrom) as (_ & Hid & Hsc). split; [done|]. split; [done|].
  split; [done|]. unfold resolve_from in Hfrom. apply result_bind_Ok in Hfrom as (t & Ht & H).
  apply result_bind_Ok in H as (? & _ & [= <- _ _]). done.
Qed.

Section single.
Context (c : SchemaCatalog) (sc : Scope) (bs : list ResolvedBinding) (env : RowEnv).
Context (Hc : catalog_ok c) (Hsc : scope_ok c sc bs).

Definition returning_analysed (rps : list ResolvedProjection) (ctx : InferenceContext) : Prop :=
  Forall (λ p, value_analysed c bs env (rp_expr p) ctx) rps.

Lemma persistent_returning : persistent returning_analysed.
Proof.
  intros rps. apply (persistent_Forall (λ p, value_analysed c bs env (rp_expr p)) rps (λ p, persistent_value c bs env _) tt).
Qed.

Lemma ensures_returning ps : ensures (resolve_returning c sc bs env ps) returning_analysed.
Proof.
  apply ensures_bind_lift. intros rps Hrps.
  eapply ensures_bind; [apply (ensures_for_each _ (λ p, value_analysed c bs env (rp_expr p)))|apply persistent_Forall|].
  - intros p. apply persistent_value.
  - eapply map_result_Forall; [|exact Hrps]. intros p rp Hrp. by eapply ensures_projection, resolve_projection_ok.
  - intros p. apply persistent_value.
  - intros []. by apply ensures_ret.
Qed.

Lemma ensures_resolved_predicate e : ensures (resolved_predicate c sc bs env e) (predicate_analysed c bs env).
Proof.
  apply ensures_bind_lift. intros r Hr.
  eapply ensures_bind; [by eapply ensures_predicate, resolve_expr_ok|apply persistent_predicate|].
  intros []. by apply ensures_ret.
Qed.

(** A value of an INSERT, as far as it was inferred. *)
Definition inserted (col : SchemaColumn) (e : ParsedExpr) (ctx : InferenceContext) : Prop :=
  match e with
  | PPlaceholder p => assigned (col_type col) (col_nullability col) (Placeholder (placeholder_id p)) ctx
  | PLiteral l => assigned (col_type col) (col_nullability col) (literal_value_type (lit_value l)) ctx
  | _ => True
  end.

Lemma persistent_inserted col e : persistent (λ _ : unit, inserted col e).
Proof. destruct e; try done; apply persistent_assigned. Qed.

(** Where the type of a parsed placeholder or literal comes from. *)
Definition parsed_source (e : ParsedExpr) (v : ValueType) : Prop :=
  match e with
  | PPlaceholder p => v = Placeholder (placeholder_id p)
  | PLiteral l => v = literal_value_type (lit_value l)
  | _ => True
  end.

Lemma ensures_source e r : resolve_expr c sc bs e = Ok r → ensures (analyze_expr env c r) (λ m _, parsed_source e (meta_type m)).
Proof.
  intros Hr. assert (Hsound : ensures (analyze_expr env c r) (λ _ _, True)).
  { eapply ensures_impl; [by eapply analyze_sound, resolve_expr_ok|done]. }
  destruct e as [|p|l| | | | |]; try exact Hsound; injection Hr as <-.
  - eapply (ensures_bind _ _ (λ _ _, True)); [apply ensures_observe|done|]. intros [].
    eapply (ensures_bind _ _ (λ _ _, True)); [by apply ensures_current|done|]. intros n. by apply ensures_ret.
  - by apply ensures_ret.
Qed.

Lemma ensures_insert_value t e i : ensures (insert_value c sc bs env t e i) (λ _, inserted (column c t i) e).
Proof.
  apply ensures_bind_lift. intros r Hr.
  eapply ensures_bind; [by apply (ensures_source e)|by intros ?????|]. intros m.
  eapply ensures_impl; [apply ensures_assignment|]. intros [] ctx Ha Hsrc. destruct e; try done; cbn [parsed_source inserted] in *; by rewrite <- Hsrc.
Qed.

Lemma ensures_insert_values t es cols : ensures (insert_values (insert_value c sc bs env t) es cols)
  (λ _ ctx, length es = length cols → Forall2 (λ e i, inserted (column c t i) e ctx) es cols).
Proof.
  revert cols. induction es as [|e es IH]; intros [|i cols]; cbn; try (by apply ensures_ret).
  eapply ensures_bind; [apply ensures_insert_value|apply persistent_inserted|]. intros [].
  eapply ensures_impl; [apply IH|]. intros [] ctx Hrest Hfirst [= Hlen]. constructor; auto.
Qed.

Definition row_inserted (t : TableId) (cols : list ColumnId) (row : ParsedValuesRow) (ctx : InferenceContext) : Prop :=
  Forall2 (λ e i, inserted (column c t i) e ctx) (row_values row) cols.

Lemma persistent_row t cols row : persistent (λ _ : unit, row_inserted t cols row).
Proof. intros [] ctx ctx' Hext Hrow. eapply Forall2_impl; [exact Hrow|]. intros e i. by apply (persistent_inserted _ _ tt). Qed.

Lemma ensures_insert_row t cols row : ensures (insert_row (insert_value c sc bs env t) cols row) (λ _, row_inserted t cols row).
Proof.
  unfold insert_row. destruct (Nat.eqb_spec (length (row_values row)) (length cols)); [|apply ensures_throw].
  eapply ensures_impl; [apply ensures_insert_values|]. intros [] ctx Hrow. by apply Hrow.
Qed.

(** An assignment of an UPDATE. *)
Definition update_analysed (a : ResolvedColumnRef * ResolvedExpr) (ctx : InferenceContext) : Prop :=
  let col := column c (rcol_table a.1) (rcol_column a.1) in
  column_in_scope c bs a.1 ∧ ∃ m, analysed c bs env a.2 m ctx ∧ assigned (col_type col) (col_nullability col) (meta_type m) ctx.

Lemma persistent_update : persistent update_analysed.
Proof.
  intros a ctx ctx' Hext (Hcol & m & Hm & Ha). split; [done|]. exists m. split; [by eapply persistent_analysed|].
  by eapply (persistent_assigned _ _ _ tt).
Qed.

Lemma resolve_assignment_target_ok a r : is_Some (bs !! 0%nat) → resolve_assignment_target c sc bs a = Ok r → column_in_scope c bs r.
Proof.
  intros [b0 Hb0] (binding & Hbinding & (i & Hi & [= <-])%result_bind_Ok)%result_bind_Ok.
  assert (Hb : ∃ b, bs !! binding = Some b).
  { destruct (at_binding (as_target a)) as [name|].
    - unfold scope_lookup in Hbinding. destruct (sc !! ident_value name) as [id|] eqn:Hid; [|done]. injection Hbinding as <-.
      destruct (sc_names _ _ _ Hsc _ _ Hid) as (b & Hb & _). eauto.
    - injection Hbinding as <-. unfold binding_at, BindingId. rewrite Hb0. cbn. destruct (sc_bindings _ _ _ Hsc _ _ Hb0) as [-> _]. eauto. }
  destruct Hb as [b Hb]. destruct (sc_bindings _ _ _ Hsc _ _ Hb) as [_ [t Ht]].
  unfold binding_at in *. rewrite Hb in *. cbn in *. unfold resolve_target_column, table in Hi. rewrite Ht in Hi. cbn in Hi.
  destruct (columns_by_name t !! ident_value (at_column (as_target a))) as [j|] eqn:Hj; [|done]. injection Hi as <-.
  pose proof (cat_tables _ Hc) as Hts. rewrite Forall_lookup in Hts. destruct (Hts _ _ Ht _ _ Hj) as (s & Hs & _).
  by exists b, t, s.
Qed.

Lemma ensures_update_assignment a : is_Some (bs !! 0%nat) → ensures (update_assignment c sc bs env a) update_analysed.
Proof.
  intros H0. apply ensures_bind_lift. intros target Htarget. apply ensures_bind_lift. intros value Hvalue.
  eapply ensures_bind; [by eapply analyze_sound, resolve_expr_ok|apply persistent_analysed|]. intros m.
  eapply ensures_bind; [apply ensures_assignment|apply persistent_assigned|]. intros [].
  apply ensures_ret. intros ctx Ha Hm. split; [by eapply resolve_assignment_target_ok|]. by exists m.
Qed.

Lemma ensures_update_assignments l : is_Some (bs !! 0%nat) →
  ensures (update_assignments (update_assignment c sc bs env) l) (λ xs ctx, Forall (λ x, update_analysed x ctx) xs).
Proof.
  intros H0. induction l as [|a l IH]; cbn; [by apply ensures_ret|].
  eapply ensures_bind; [by apply ensures_update_assignment|apply persistent_update|]. intros x.
  eapply ensures_bind; [exact IH| |].
  { intros xs ctx ctx' Hext Hxs. eapply Forall_impl; [exact Hxs|]. intros y. by apply persistent_update. }
  intros xs. apply ensures_ret. intros ctx Hxs Hx. by constructor.
Qed.
End single.

Lemma parameters_assigned ctx p t : ctx_ok ctx → placeholder_sql_type ctx p = Some t →
  fst <$> parameter_of (context_parameters ctx) p = Some t.
Proof. intros Hok Hp. rewrite context_parameters_typing by done. unfold typing_of. by rewrite Hp. Qed.

Lemma row_inserted_typed c ctx t cols row : ctx_ok ctx → row_inserted c t cols row ctx →
  insert_row_typed c (context_parameters ctx) t cols row.
Proof.
  intros Hok Hrow. eapply Forall2_impl; [exact Hrow|]. intros e i. destruct e as [|p|l| | | | |]; try done; cbn [inserted insertable].
  - apply parameters_assigned, Hok.
  - by destruct (literal_value_type (lit_value l)) eqn:Hl; try done; destruct (lit_value l); cbn in Hl; try done; case_match.
Qed.

Lemma resolve_insert_ok i c ci : catalog_ok c → resolve_insert i c = Ok ci → insert_typed c i ci.
Proof.
  intros Hc ([[b sc] bs] & Htarget & (cols & Hcols & H)%result_bind_Ok)%result_bind_Ok.
  destruct (resolve_single_target_ok _ _ _ _ _ Hc Htarget) as (-> & Hid & Hsc & Hsingle). rewrite Hid in H. cbn [binding_at] in H.
  match type of H with match ?m InferenceContext_new with _ => _ end = _ => assert (Hens : ensures m
    (λ rps ctx, (Forall (λ row, row_inserted c (bind_table b) cols row ctx) (ins_values i)
      ∧ returning_analysed c [b] (RowEnv_new 0) rps ctx) ∧ solved ctx)); [|destruct (m InferenceContext_new) as [[rps|] ctx] eqn:Ha; [|done]] end.
  { eapply ensures_bind; [apply (ensures_for_each _ (row_inserted c (bind_table b) cols))|apply persistent_Forall|].
    - apply persistent_row.
    - apply Forall_forall. intros row _. apply ensures_insert_row; done.
    - apply persistent_row.
    - intros []. eapply ensures_bind; [by apply (ensures_returning c sc [b])|apply persistent_returning|]. intros rps.
      eapply ensures_impl; [apply ensures_finish|]. by intros x ctx [-> Hs] Hr Hrows. }
  destruct (Hens _ _ _ context_new_ok Ha) as (Hok & _ & [Hrows Hrps] & Hs).
  apply result_bind_Ok in H as (cps & Hcps & [= <-]). exists b, cols. split; [done|]. split; [done|]. split.
  - eapply Forall_impl; [exact Hrows|]. intros row. by apply row_inserted_typed.
  - intros k p. by apply (finalize_projections_ok c [b] (RowEnv_new 0) ctx Hok Hs 0 rps cps).
Qed.

Lemma resolve_update_ok u c cu : catalog_ok c → resolve_update u c = Ok cu → update_typed c u cu.
Proof.
  intros Hc ([[b sc] bs] & Htarget & H)%result_bind_Ok.
  destruct (resolve_single_target_ok _ _ _ _ _ Hc Htarget) as (-> & Hid & Hsc & Hsingle). rewrite Hid in H. cbn beta iota zeta in H.
  match type of H with match ?m InferenceContext_new with _ => _ end = _ => assert (Hens : ensures m
    (λ r ctx, (Forall (λ x, update_analysed c [b] (RowEnv_new 0) x ctx) r.1.1 ∧ predicate_analysed c [b] (RowEnv_new 0) r.1.2 ctx
      ∧ returning_analysed c [b] (RowEnv_new 0) r.2 ctx) ∧ solved ctx));
    [|destruct (m InferenceContext_new) as [[[[assignments filter] rps]|] ctx] eqn:Ha; [|done]] end.
  { eapply ensures_bind; [by apply (ensures_update_assignments c sc [b])| |].
    { intros xs ctx ctx' Hext Hxs. eapply Forall_impl; [exact Hxs|]. intros y. by apply persistent_update. }
    intros xs. eapply ensures_bind; [by apply (ensures_resolved_predicate c sc [b])| |].
    { intros e ctx ctx' Hext. by apply (persistent_predicate _ _ _ e tt). }
    intros e. eapply ensures_bind; [by apply (ensures_returning c sc [b])|apply persistent_returning|]. intros rps.
    eapply ensures_impl; [apply ensures_finish|]. by intros x ctx [-> Hs] Hr He Hxs. }
  destruct (Hens _ _ _ context_new_ok Ha) as (Hok & _ & (Hxs & Hf & Hrps) & Hs). cbn in Hxs, Hf, Hrps.
  apply result_bind_Ok in H as (xs & Hxs'%map_result_Ok & (f & Hf' & (cps & Hcps & [= <-])%result_bind_Ok)%result_bind_Ok).
  exists b. split; [done|]. cbn. split; [|split].
  - clear - Hxs Hxs' Hok Hs. induction Hxs' as [|x x' assignments xs Hx _ IH]; [done|]. apply Forall_cons in Hxs as [(Hcol & m & Hm & Ha) Hxs].
    constructor; [|by apply IH]. apply result_bind_Ok in Hx as (v & Hv & [= <-]). split; [done|].
    by apply (finalize_assignment c [b] (RowEnv_new 0) ctx Hok Hs _ _ m x.2 v Hm Ha).
  - by apply (finalize_predicate c [b] (RowEnv_new 0) ctx Hok Hs filter f).
  - intros k p. by apply (finalize_projections_ok c [b] (RowEnv_new 0) ctx Hok Hs 0 rps cps).
Qed.

Lemma resolve_delete_ok d c cd : catalog_ok c → resolve_delete d c = Ok cd → delete_typed c d cd.
Proof.
  intros Hc ([[b sc] bs] & Htarget & H)%result_bind_Ok.
  destruct (resolve_single_target_ok _ _ _ _ _ Hc Htarget) as (-> & Hid & Hsc & Hsingle). rewrite Hid in H. cbn beta iota zeta in H.
  match type of H with match ?m InferenceContext_new with _ => _ end = _ => assert (Hens : ensures m
    (λ r ctx, (predicate_analysed c [b] (RowEnv_new 0) r.1 ctx ∧ returning_analysed c [b] (RowEnv_new 0) r.2 ctx) ∧ solved ctx));
    [|destruct (m InferenceContext_new) as [[[filter rps]|] ctx] eqn:Ha; [|done]] end.
  { eapply ensures_bind; [by apply (ensures_resolved_predicate c sc [b])| |].
    { intros e ctx ctx' Hext. by apply (persistent_predicate _ _ _ e tt). }
    intros e. eapply ensures_bind; [by apply (ensures_returning c sc [b])|apply persistent_returning|]. intros rps.
    eapply ensures_impl; [apply ensures_finish|]. by intros x ctx [-> Hs] Hr He. }
  destruct (Hens _ _ _ context_new_ok Ha) as (Hok & _ & (Hf & Hrps) & Hs). cbn in Hf, Hrps.
  apply result_bind_Ok in H as (f & Hf' & (cps & Hcps & [= <-])%result_bind_Ok).
  exists b. split; [done|]. cbn. split.
  - by apply (finalize_predicate c [b] (RowEnv_new 0) ctx Hok Hs filter f).
  - intros k p. by apply (finalize_projections_ok c [b] (RowEnv_new 0) ctx Hok Hs 0 rps cps).
Qed.

(** C6: Every statement the resolver accepts is well typed: its columns exist in the tables its
    bindings stand for; its expressions have the types, kinds and nullability that the typing
    rules give them in the row environment of their clause, with one type for every placeholder
    throughout the statement; filters and ON clauses are predicates, limits are integers, assigned
    values fit their columns, and the columns it describes are the expressions' own. *)
Theorem resolve_statement_typed s c st : catalog_ok c → resolve_statement s c = Ok st → statement_typed c s st.
Proof.
  intros Hc. unfold resolve_statement, statement_typed, insert_body, update_body, delete_body.
  destruct (st_kind s).
  - intros (sel & Hsel%ok_or_Ok & (cs & Hcs & [= <-])%result_bind_Ok)%result_bind_Ok. split; [done|]. cbn.
    destruct (resolve_select_ok _ _ _ Hc Hcs) as (r & Hr & Ht). eauto.
  - intros (ci & Hci & [= <-])%result_bind_Ok. split; [done|]. cbn.
    destruct (st_body s) as [r|cmd]; [destruct (rs_body r)|destruct (cs_body cmd)]; try done; eauto using resolve_insert_ok.
  - intros (cu & Hcu & [= <-])%result_bind_Ok. split; [done|]. cbn.
    destruct (st_body s) as [r|cmd]; [destruct (rs_body r)|destruct (cs_body cmd)]; try done; eauto using resolve_update_ok.
  - intros (cd & Hcd & [= <-])%result_bind_Ok. split; [done|]. cbn.
    destruct (st_body s) as [r|cmd]; [destruct (rs_body r)|destruct (cs_body cmd)]; try done; eauto using resolve_delete_ok.
Qed.

(** ** An example *)

(** [users(id, name)] and [posts(id, author_id, title)], where only names may be NULL. *)
Definition example_tables : list (str * list SchemaColumn) :=
  [ ("users"%s, [mk_column "id"%s TInt4 NonNull; mk_column "name"%s TText Nullable]);
    ("posts"%s, [mk_column "id"%s TInt4 NonNull; mk_column "author_id"%s TInt4 NonNull; mk_column "title"%s TText NonNull]) ].

Definition make_catalog (ts : list (str * list SchemaColumn)) : result TypedSqlError SchemaCatalog :=
  ts ← map_result (λ t, SchemaTable_new None t.1 t.2) ts; SchemaCatalog_new ts.

Lemma make_catalog_ok ts c : make_catalog ts = Ok c → catalog_ok c.
Proof.
  intros (l & Hl & Hc)%result_bind_Ok. eapply SchemaCatalog_new_ok; [|exact Hc].
  eapply map_result_Forall; [|exact Hl]. intros a t Ht. by destruct (SchemaTable_new_ok _ _ _ _ Ht).
Qed.

Definition example_catalog : SchemaCatalog :=
  match make_catalog example_tables with Ok c => c | Err _ => mk_catalog [] ∅ ∅ end.

Definition no_span : SourceSpan := mk_span 0 0.
Definition ident (s : str) : IdentSyntax := mk_ident s no_span.
Definition relation (t b : str) : ParsedFrom := mk_from 0 no_span (mk_object_name [ident t] no_span) (ident b).
Definition col_expr (b c : str) : ParsedExpr := PColumn (mk_column_ref 0 no_span (ident b) (ident c)).
Definition equals (l r : ParsedExpr) : ParsedExpr := PBinary 0 no_span Eq l r.

(** SELECT u.id, p.title FROM users AS u LEFT JOIN posts AS p ON u.id = p.author_id
    WHERE u.name = $name *)
Definition example_select : ParsedSelect :=
  mk_select 0 no_span
    [mk_projection 0 no_span (col_expr "u"%s "id"%s) (ImplicitName (ident "id"%s));
     mk_projection 0 no_span (col_expr "p"%s "title"%s) (ImplicitName (ident "title"%s))]
    (relation "users"%s "u"%s)
    [mk_join 0 no_span JLeft (relation "posts"%s "p"%s) (equals (col_expr "u"%s "id"%s) (col_expr "p"%s "author_id"%s))]
    (Some (equals (col_expr "u"%s "name"%s) (PPlaceholder (mk_placeholder 0 no_span 0 "name"%s 1 false))))
    [] None None.

Lemma example_catalog_ok : catalog_ok example_catalog.
Proof.
  apply (make_catalog_ok example_tables).
  assert (H : match make_catalog example_tables with Ok _ => true | Err _ => false end = true) by (vm_compute; reflexivity).
  unfold example_catalog. by destruct (make_catalog example_tables).
Qed.

Definition example_statement : ParsedStatement := statement_query (row_select example_select).

(** The columns and parameters of a statement. *)
Definition described (st : CheckedStatement) : list (str * SqlType * Nullability) * list (str * SqlType * Nullability) :=
  (map (λ p, (cp_output_name p, cp_type p, cp_nullability p)) match cst_body st with CSelect cs => cs_projections cs | _ => [] end,
   map (λ p, (par_name p, par_type p, par_nullability p)) (statement_parameters st)).

Lemma example_described : described <$> resolve_statement example_statement example_catalog
  = Ok ([("id"%s, TInt4, NonNull); ("title"%s, TText, Nullable)], [("name"%s, TText, Nullable)]).
Proof. by vm_compute. Qed.

Lemma resolve_statement_typed_witness :
  ∃ st, resolve_statement example_statement example_catalog = Ok st ∧ statement_typed example_catalog example_statement st
  ∧ described st = ([("id"%s, TInt4, NonNull); ("title"%s, TText, Nullable)], [("name"%s, TText, Nullable)]).
Proof.
  pose proof example_described as Hd. destruct (resolve_statement example_statement example_catalog) as [st|e] eqn:Hst; [|discriminate].
  apply result_fmap_Ok in Hd as (? & [= <-] & Hd). exists st.
  split; [done|]. split; [exact (resolve_statement_typed _ _ _ example_catalog_ok Hst)|done].
Defined.
