(* ===== verification/SelectSemantics.v ===== *)
(** * The nullability of a SELECT is sound

    A semantics of the SELECTs of [Resolver.v] - nested-loop joins with padding, three-valued
    logic, expressions on rows with missing bindings - and the theorem that the resolver's
    nullability agrees with it: a column the statement describes as non-null is never NULL, and a
    binding described as non-null has a row.  The generated decoder of a non-null column fails on
    NULL, so this is what keeps it from failing.

    What the server does with values that are present ([Ops]) is left open, and so are the
    decisions of ON and WHERE clauses: the theorem holds for any of them.  ORDER BY, LIMIT and
    OFFSET only reorder and drop rows. *)
From S2P Require Import Prelude Text SqlIr Resolver ResolverFacts StatementTyping.

Local Open Scope Z_scope.

(** ** Semantics *)

(** The operators on values that are present; none of them yields NULL. *)
Record Ops (V : Type) := {
  op_literal : Literal → V;
  op_compare : BinaryOp → V → V → V;
  op_sign : UnaryOp → V → V;
  op_truth : V → bool;
  op_bool : bool → V;
}.
Arguments op_literal {V}. Arguments op_compare {V}. Arguments op_sign {V}. Arguments op_truth {V}. Arguments op_bool {V}.

(** AND and OR on three values, of which [None] is unknown. *)
Definition logic (op : BoolOp) (a b : option bool) : option bool :=
  match op, a, b with
  | And, Some false, _ | And, _, Some false => Some false
  | And, Some true, Some true => Some true
  | Or, Some true, _ | Or, _, Some true => Some true
  | Or, Some false, Some false => Some false
  | _, _, _ => None
  end.
Definition logic_unit (op : BoolOp) : bool := match op with And => true | Or => false end.

Section semantics.
Context {V : Type} (ops : Ops V).

(** A row of a table, and a row of a join: the bindings that have a row in it. *)
Abbreviation tuple := (list (option V)).
Abbreviation joined_row := (gmap BindingId tuple).

Section evaluation.
Context (row : joined_row) (args : PlaceholderId → option V).

Fixpoint eval (e : CheckedExpr) : option V :=
  match ce_node e with
  | CColumn col => t ← row !! rcol_binding col; mjoin (t !! rcol_column col)
  | CPlaceholder p => args (rph_id p)
  | CLiteral LNull => None
  | CLiteral l => Some (op_literal ops l)
  | COptionalGroup _ inner _ => eval inner
  | CUnary Not inner => v ← eval inner; Some (op_bool ops (negb (op_truth ops v)))
  | CUnary op inner => op_sign ops op <$> eval inner
  | CBinary op l r => a ← eval l; b ← eval r; Some (op_compare ops op a b)
  | CIsNull negated inner => Some (op_bool ops (xorb negated (match eval inner with None => true | Some _ => false end)))
  | CBoolChain op ts =>
    op_bool ops <$> foldr (λ t acc, logic op (op_truth ops <$> eval t) acc) (Some (logic_unit op)) ts
  end.
End evaluation.

(** The rows of a join, by nested loops: the pairs that match, then the unmatched rows of the
    sides that are kept, without the other side's bindings. *)
Definition join_rows (kind : JoinKind) (b : BindingId) (on : joined_row → bool) (tuples : list tuple) (rows : list joined_row)
  : list joined_row :=
  let pairs := filter (λ p, on p) (l ← rows; map (λ t, <[b := t]> l) tuples) in
  let left_rows := filter (λ l, Forall (λ t, on (<[b := t]> l) = false) tuples) rows in
  let right_rows := map (λ t, {[b := t]}) (filter (λ t, Forall (λ l, on (<[b := t]> l) = false) rows) tuples) in
  match kind with
  | JInner => pairs
  | JLeft => pairs ++ left_rows
  | JRight => pairs ++ right_rows
  | JFull => pairs ++ left_rows ++ right_rows
  end.

(** The decision of an ON or WHERE clause on a row. *)
Abbreviation decision := (CheckedExpr → joined_row → bool).

Fixpoint joins_rows (holds : decision) (db : TableId → list tuple) (bs : list ResolvedBinding) (js : list CheckedJoin)
    (rows : list joined_row) : list joined_row :=
  match js with
  | [] => rows
  | j :: js =>
    joins_rows holds db bs js
      (join_rows (cj_kind j) (cj_right j) (holds (cj_on j)) (db (bind_table (binding_at bs (cj_right j)))) rows)
  end.

Definition select_rows (holds : decision) (db : TableId → list tuple) (bs : list ResolvedBinding) (s : CheckedSelect)
  : list joined_row :=
  let rows := joins_rows holds db bs (cs_joins s) (map (λ t, {[0%nat := t]}) (db (bind_table (binding_at bs 0)))) in
  match cs_filter s with None => rows | Some f => filter (λ r, holds f r) rows end.

(** A database whose tables respect the non-null columns of the catalog. *)
Definition tuple_ok (c : SchemaCatalog) (t : TableId) (cells : tuple) : Prop :=
  ∀ i sc, columns (table c t) !! i = Some sc → col_nullability sc = NonNull → is_Some (mjoin (cells !! i)).
Definition db_ok (c : SchemaCatalog) (db : TableId → list tuple) : Prop := ∀ t, Forall (tuple_ok c t) (db t).

Fixpoint expr_placeholders (e : CheckedExpr) : list PlaceholderId :=
  match ce_node e with
  | CPlaceholder p => [rph_id p]
  | COptionalGroup _ inner _ | CUnary _ inner | CIsNull _ inner => expr_placeholders inner
  | CBinary _ l r => expr_placeholders l ++ expr_placeholders r
  | CBoolChain _ ts => concat (map expr_placeholders ts)
  | CColumn _ | CLiteral _ => []
  end.

(** The non-null parameters an expression uses have arguments. *)
Definition args_ok (params : PlaceholderId → option (SqlType * Nullability)) (args : PlaceholderId → option V) (e : CheckedExpr) : Prop :=
  ∀ p t, p ∈ expr_placeholders e → params p = Some (t, NonNull) → is_Some (args p).

(** ** Expressions *)

(** A row that the environment describes. *)
Record row_ok (c : SchemaCatalog) (bs : list ResolvedBinding) (env : RowEnv) (row : joined_row) : Prop := {
  row_present i : (i < length bs)%nat → binding_nullability env i = NonNull → is_Some (row !! i);
  row_tuples i b t : bs !! i = Some b → row !! i = Some t → tuple_ok c (bind_table b) t;
  row_bounds i : is_Some (row !! i) → (i < length bs)%nat;
}.

Lemma widen_NonNull a b : widen a b = NonNull ↔ a = NonNull ∧ b = NonNull.
Proof. destruct a, b; naive_solver. Qed.

Lemma widen_all_NonNull ts : widen_all ts = NonNull → Forall (λ t, ce_nullability t = NonNull) ts.
Proof.
  unfold widen_all. generalize NonNull at 1. induction ts as [|t ts IH]; intros n; cbn; [done|].
  intros H. assert (Hw : widen n (ce_nullability t) = NonNull).
  { clear IH. revert H. generalize (widen n (ce_nullability t)) as m. induction ts as [|u ts IH]; intros m; cbn; [done|].
    intros H%IH. by apply widen_NonNull in H as [? _]. }
  constructor; [by apply widen_NonNull in Hw as [_ ?]|by eapply IH].
Qed.

Lemma eval_non_null c bs env params row args e : row_ok c bs env row → well_typed c bs env params e → args_ok params args e →
  ce_nullability e = NonNull → is_Some (eval row args e).
Proof.
  intros Hrow. induction e as [span k t n node IH] using checked_expr_ind. intros He Hargs. unfold args_ok in Hargs.
  inversion He as [? col Hcol|? p ? ? Hp|? l ? Hl|? id e Hw|? e Hw Hk|? op e Hw Hop Hs|? op l r Hl Hr Hc|? neg e Hw|? op ts Hts Hks];
    subst; cbn in *; intros Hn.
  - destruct Hcol as (b & tb & sc & Hb & Hbt & Htb & Hsc). unfold column_nullability in Hn. apply widen_NonNull in Hn as [Hcn Hbn].
    destruct (row_present _ _ _ _ Hrow (rcol_binding col)) as [cells Hcells]; [by eapply lookup_lt_Some|done|]. unfold BindingId in *. rewrite Hcells. cbn.
    apply (row_tuples _ _ _ _ Hrow _ _ _ Hb Hcells) with sc; [unfold table; by rewrite Hbt, Htb|].
    unfold column, table in Hcn. by rewrite Htb in Hcn; cbn in Hcn; rewrite Hsc in Hcn.
  - subst n. eapply Hargs; [|exact Hp]. set_solver.
  - destruct l; cbn in *; eauto; done.
  - rewrite Forall_singleton in IH. by apply IH.
  - rewrite Forall_singleton in IH. destruct (IH Hw Hargs Hn) as [v ->]. eauto.
  - rewrite Forall_singleton in IH. destruct (IH Hw Hargs Hn) as [v Hv]. destruct op; try done; rewrite Hv; eauto.
  - apply widen_NonNull in Hn as [Hnl Hnr]. apply Forall_cons in IH as [IHl IHr]. rewrite Forall_singleton in IHr.
    destruct IHl as [a ->]; [done|intros p' t' Hp'; apply Hargs; set_solver|done|].
    destruct IHr as [b ->]; [done|intros p' t' Hp'; apply Hargs; set_solver|done|]. eauto.
  - eauto.
  - apply fmap_is_Some. apply widen_all_NonNull in Hn. clear He Hks.
    induction ts as [|u ts IHts]; cbn; [eauto|]. cbn in Hargs.
    apply Forall_cons in IH as [IHu IH], Hts as [Hu Hts], Hn as [Hnu Hn].
    destruct IHu as [v ->]; [done|intros p' t' Hp'; apply Hargs; set_solver|done|].
    destruct IHts as [w Hw]; try done; [intros p' t' Hp'; apply Hargs; set_solver|].
    rewrite Hw. cbn. destruct op, (op_truth ops v), w; cbn; eauto.
Qed.

(** ** Joins *)
Definition env_covers (env : RowEnv) (n : nat) : Prop := ∀ i, (i < n)%nat → is_Some (env !! i).

Lemma apply_join_covers k env n : env_covers env n → env_covers (apply_join_nullability k env n) (S n).
Proof.
  intros Henv i Hi. destruct (decide (i = n)) as [->|Hne]; destruct k; cbn; unfold env_covers, with_binding, mark_all_nullable, RowEnv, BindingId in *;
    rewrite ?lookup_insert_eq, ?lookup_insert_ne, ?lookup_fmap by done; try done.
  all: try (apply fmap_is_Some); apply Henv; lia.
Qed.

(** An outer join keeps the side it pads from being present for certain, and only that. *)
Lemma apply_join_right k env n :
  binding_nullability (apply_join_nullability k env n) n = match k with JInner | JRight => NonNull | JLeft | JFull => Nullable end.
Proof. by destruct k; cbn; unfold with_binding, binding_nullability, RowEnv, BindingId; rewrite lookup_insert_eq. Qed.

Lemma apply_join_left k env n i : env_covers env n → (i < n)%nat →
  binding_nullability (apply_join_nullability k env n) i
  = match k with JInner | JLeft => binding_nullability env i | JRight | JFull => Nullable end.
Proof.
  intros Henv Hi. destruct (Henv i Hi) as [x Hx].
  by destruct k; cbn; unfold with_binding, binding_nullability, mark_all_nullable, RowEnv, BindingId in *;
    rewrite lookup_insert_ne by lia; rewrite ?lookup_fmap, Hx.
Qed.

Section joining.
Context (c : SchemaCatalog) (bs : list ResolvedBinding) (b : ResolvedBinding) (env : RowEnv).
Abbreviation n := (length bs).

Lemma length_snoc : length (bs ++ [b]) = S n.
Proof. rewrite length_app. cbn. lia. Qed.

Lemma lookup_snoc i x : (bs ++ [b]) !! i = Some x → (bs !! i = Some x ∧ (i < n)%nat) ∨ (i = n ∧ x = b).
Proof.
  intros [Hi|[Hge Hi]]%lookup_app_Some; [left; split; [done|by eapply lookup_lt_Some]|].
  apply list_lookup_singleton_Some in Hi as [Hi <-]. right. split; [lia|done].
Qed.

Lemma row_ok_pair k l t : env_covers env n → row_ok c bs env l → tuple_ok c (bind_table b) t →
  row_ok c (bs ++ [b]) (apply_join_nullability k env n) (<[n := t]> l).
Proof.
  intros Henv [Hp Ht Hb] Htup. split.
  - intros i Hi Hn. rewrite length_snoc in Hi. destruct (decide (i = n)) as [->|Hne]; [by rewrite lookup_insert_eq|].
    rewrite lookup_insert_ne by done. assert (Hlt : (i < n)%nat) by lia. apply Hp; [done|].
    rewrite (apply_join_left k env n i Henv Hlt) in Hn. by destruct k.
  - intros i x u [[Hx Hi]|[-> ->]]%lookup_snoc; [rewrite lookup_insert_ne by lia|rewrite lookup_insert_eq]; [by apply Ht|].
    by intros [= <-].
  - intros i Hi. rewrite length_snoc. destruct (decide (i = n)) as [->|Hne]; [lia|].
    rewrite lookup_insert_ne in Hi by done. apply Hb in Hi. lia.
Qed.

Lemma row_ok_left k l : env_covers env n → k = JLeft ∨ k = JFull → row_ok c bs env l →
  row_ok c (bs ++ [b]) (apply_join_nullability k env n) l.
Proof.
  intros Henv Hk [Hp Ht Hb]. split.
  - intros i Hi Hn. rewrite length_snoc in Hi. destruct (decide (i = n)) as [->|Hne].
    + rewrite apply_join_right in Hn. destruct Hk; by subst.
    + assert (Hlt : (i < n)%nat) by lia. apply Hp; [done|]. rewrite (apply_join_left k env n i Henv Hlt) in Hn. by destruct k.
  - intros i x u [[Hx Hi]|[-> ->]]%lookup_snoc; [by apply Ht|]. intros Hu. exfalso.
    assert (Hlt : (n < n)%nat) by (by apply Hb). lia.
  - intros i Hi%Hb. rewrite length_snoc. lia.
Qed.

Lemma row_ok_right k t : env_covers env n → k = JRight ∨ k = JFull → tuple_ok c (bind_table b) t →
  row_ok c (bs ++ [b]) (apply_join_nullability k env n) {[n := t]}.
Proof.
  intros Henv Hk Htup. split.
  - intros i Hi Hn. rewrite length_snoc in Hi. destruct (decide (i = n)) as [->|Hne]; [by rewrite lookup_singleton_eq|].
    assert (Hlt : (i < n)%nat) by lia. rewrite (apply_join_left k env n i Henv Hlt) in Hn. destruct Hk; by subst.
  - intros i x u [[Hx Hi]|[-> ->]]%lookup_snoc; [rewrite lookup_singleton_ne by lia; done|].
    rewrite lookup_singleton_eq. by intros [= <-].
  - intros i Hi. rewrite length_snoc. destruct (decide (i = n)) as [->|Hne]; [lia|].
    rewrite lookup_singleton_ne in Hi by done. by destruct Hi.
Qed.

Lemma join_rows_ok k on tuples rows : env_covers env n → Forall (row_ok c bs env) rows → Forall (tuple_ok c (bind_table b)) tuples →
  Forall (row_ok c (bs ++ [b]) (apply_join_nullability k env n)) (join_rows k n on tuples rows).
Proof.
  intros Henv Hrows Htups. rewrite Forall_forall in Hrows. rewrite Forall_forall in Htups.
  assert (Hpairs : ∀ k, Forall (row_ok c (bs ++ [b]) (apply_join_nullability k env n))
    (filter (λ p, on p) (l ← rows; map (λ t, <[n := t]> l) tuples))).
  { intros k'. apply Forall_forall. intros p (_ & (l & Hp & Hl)%list_elem_of_bind)%list_elem_of_filter.
    apply list_elem_of_fmap in Hp as (t & -> & Ht). apply row_ok_pair; auto. }
  assert (Hleft : ∀ k (P : joined_row → Prop) {HP : ∀ l, Decision (P l)}, k = JLeft ∨ k = JFull →
    Forall (row_ok c (bs ++ [b]) (apply_join_nullability k env n)) (filter P rows)).
  { intros k' P HP Hk. apply Forall_forall. intros l [_ Hl]%list_elem_of_filter. apply row_ok_left; auto. }
  assert (Hright : ∀ k (P : tuple → Prop) {HP : ∀ t, Decision (P t)}, k = JRight ∨ k = JFull →
    Forall (row_ok c (bs ++ [b]) (apply_join_nullability k env n)) (map (λ t, {[n := t]}) (filter P tuples))).
  { intros k' P HP Hk. apply Forall_forall. intros r (t & -> & [_ Ht]%list_elem_of_filter)%list_elem_of_fmap.
    apply row_ok_right; auto. }
  destruct k; unfold join_rows; rewrite ?Forall_app; auto 6.
Qed.
End joining.

Lemma joins_rows_ok c ps holds db bs rest env js rows : db_ok c db → env_covers env (length bs) →
  typed_joins c ps bs env rest js → Forall (row_ok c bs env) rows →
  Forall (row_ok c (bs ++ rest) (joined_env env js)) (joins_rows holds db (bs ++ rest) js rows).
Proof.
  intros Hdb. revert bs rest env rows. induction js as [|j js IH]; intros bs [|b rest] env rows Henv; cbn [typed_joins joins_rows]; try done.
  { intros _. by rewrite (right_id_L [] (++)). }
  intros (Hid & _ & Hjs) Hrows. rewrite Hid in *. unfold binding_at.
  replace (bs ++ b :: rest) with ((bs ++ [b]) ++ rest) by by rewrite <- (assoc_L (++)).
  assert (Hat : ((bs ++ [b]) ++ rest) !! length bs = Some b) by (rewrite <- (assoc_L (++)); by apply list_lookup_middle).
  unfold BindingId in *. rewrite Hat. cbn [default]. unfold joined_env. cbn [foldl]. rewrite Hid. apply IH.
  - rewrite length_snoc. by apply apply_join_covers.
  - done.
  - by apply join_rows_ok.
Qed.

Lemma select_rows_ok c holds db bs s : db_ok c db → select_typed c bs s →
  Forall (row_ok c bs (rows_env s)) (select_rows holds db bs s).
Proof.
  intros Hdb Hs. destruct (sel_joins_ok _ _ _ Hs) as (b & rest & -> & Hjoins).
  assert (Hrows : Forall (row_ok c (b :: rest) (rows_env s))
    (joins_rows holds db (b :: rest) (cs_joins s) (map (λ t, {[0%nat := t]}) (db (bind_table (binding_at (b :: rest) 0)))))).
  { apply (joins_rows_ok c (cs_parameters s) holds db [b] rest); [done| |done|].
    - intros [|i] Hi; [|cbn in Hi; lia]. unfold RowEnv_new, RowEnv. by rewrite lookup_singleton_eq.
    - apply Forall_forall. intros r (t & -> & Ht)%list_elem_of_fmap. split.
      + intros [|i] Hi; [|cbn in Hi; lia]. by rewrite lookup_singleton_eq.
      + intros [|i] x u; [|done]. intros [= <-]. rewrite lookup_singleton_eq. intros [= <-].
        pose proof (Hdb (bind_table b)) as Hb. rewrite Forall_forall in Hb. by apply Hb.
      + intros [|i] Hi; cbn; [lia|]. rewrite lookup_singleton_ne in Hi by done. by destruct Hi. }
  unfold select_rows. destruct (cs_filter s); [|done]. rewrite Forall_forall in *. intros r [_ Hr]%list_elem_of_filter. auto.
Qed.
End semantics.

(** C5: The nullability the resolver gives a SELECT is sound: in every database that respects the
    catalog's non-null columns, for any arguments of the non-null parameters and whatever its ON
    and WHERE clauses decide, every row of the result has a row for each binding that is
    described as non-null, and a value for each column that is. *)
Theorem select_nullability_sound {V} (ops : Ops V) s c r cs holds db row args :
  catalog_ok c → resolve_names s c = Ok r → resolve_select s c = Ok cs → db_ok c db →
  row ∈ select_rows holds db (rs_bindings r) cs →
  (∀ i cb, cs_bindings cs !! i = Some cb → cb_nullability cb = NonNull → is_Some (row !! cb_id cb))
  ∧ ∀ p, p ∈ cs_projections cs → cp_nullability p = NonNull →
    args_ok (parameter_of (cs_parameters cs)) args (cp_expr p) → is_Some (eval ops row args (cp_expr p)).
Proof.
  intros Hc Hr Hcs Hdb Hrow. destruct (resolve_select_ok _ _ _ Hc Hcs) as (r' & Hr' & Ht). rewrite Hr in Hr'. injection Hr' as <-.
  pose proof (select_rows_ok c holds db _ _ Hdb Ht) as Hrows. rewrite Forall_forall in Hrows. specialize (Hrows _ Hrow). split.
  - intros i cb Hcb Hn. rewrite (sel_bindings_ok _ _ _ Ht) in Hcb. apply list_lookup_fmap_Some in Hcb as (b & -> & Hb).
    cbn in *. pose proof (sel_ids_ok _ _ _ Ht _ _ Hb) as Hid. apply (row_present _ _ _ _ Hrows); [|done].
    rewrite Hid. by eapply lookup_lt_Some.
  - intros p [i Hi]%list_elem_of_lookup Hn Hargs. destruct (sel_projections_ok _ _ _ Ht _ _ Hi) as (_ & Hw & _ & Hcn).
    eapply eval_non_null; [exact Hrows|exact Hw|done|congruence].
Qed.

(** *** An example: numbers for values, and the SELECT of [StatementTyping.v]. *)
Definition example_ops : Ops Z := {|
  op_literal _ := 0;
  op_compare op a b := if match op with Eq => a =? b | _ => false end then 1 else 0;
  op_sign _ v := - v;
  op_truth v := v =? 1;
  op_bool b := if b then 1 else 0;
|}.
Definition example_args (p : PlaceholderId) : option Z := Some 7.
Definition example_holds (e : CheckedExpr) (row : gmap BindingId (list (option Z))) : bool :=
  match eval example_ops row example_args e with Some v => op_truth example_ops v | None => false end.

(** Two users and a post by neither. *)
Definition example_db (t : TableId) : list (list (option Z)) :=
  match t with
  | 0%nat => [[Some 1; None]; [Some 2; Some 7]]
  | 1%nat => [[Some 10; Some 3; Some 5]]
  | _ => []
  end.

Lemma example_db_ok : db_ok example_catalog example_db.
Proof.
  assert (Hall : ∀ t, (t < 2)%nat → Forall (λ cells, Forall2 (λ sc v, col_nullability sc = NonNull → is_Some v)
    (columns (table example_catalog t)) cells) (example_db t)).
  { assert (Hcols : columns (table example_catalog 0) = (example_tables !!! 0%nat).2
      ∧ columns (table example_catalog 1) = (example_tables !!! 1%nat).2) by (split; by vm_compute).
    destruct Hcols as [H0 H1]. intros [|[|t]] Ht; [rewrite H0|rewrite H1|lia]; cbn; repeat constructor; cbn; try done; eauto. }
  intros [|[|t]]; [| |constructor]; [pose proof (Hall 0%nat) as Ht|pose proof (Hall 1%nat) as Ht];
    (eapply Forall_impl; [apply Ht; lia|]); intros cells Hcells i sc Hsc Hn;
    destruct (Forall2_lookup_l _ _ _ _ _ Hcells Hsc) as (v & Hv & Hp); rewrite Hv; cbn; auto.
Qed.

(** What the example yields, all in one evaluation. *)
Definition example_result : option (ResolvedSelect * CheckedSelect * gmap BindingId (list (option Z)) * list (Nullability * option Z)) :=
  match resolve_names example_select example_catalog, resolve_select example_select example_catalog with
  | Ok r, Ok cs =>
    match select_rows example_holds example_db (rs_bindings r) cs with
    | [row] => Some (r, cs, row, map (λ p, (cp_nullability p, eval example_ops row example_args (cp_expr p))) (cs_projections cs))
    | _ => None
    end
  | _, _ => None
  end.

Lemma example_result_ok : snd <$> example_result = Some [(NonNull, Some 2); (Nullable, None)].
Proof. by vm_compute. Qed.

Lemma select_nullability_sound_witness :
  ∃ r cs row,
    example_result = Some (r, cs, row, [(NonNull, Some 2); (Nullable, None)])
    ∧ resolve_select example_select example_catalog = Ok cs
    ∧ (∀ i cb, cs_bindings cs !! i = Some cb → cb_nullability cb = NonNull → is_Some (row !! cb_id cb))
    ∧ ∀ p, p ∈ cs_projections cs → cp_nullability p = NonNull →
      args_ok (parameter_of (cs_parameters cs)) example_args (cp_expr p) → is_Some (eval example_ops row example_args (cp_expr p)).
Proof.
  pose proof example_result_ok as Hok. destruct example_result as [[[[r cs] row] l]|] eqn:Hresult; [|discriminate].
  injection Hok as ->. exists r, cs, row. split; [done|].
  unfold example_result in Hresult.
  destruct (resolve_names example_select example_catalog) as [r'|] eqn:Hr; [|discriminate].
  destruct (resolve_select example_select example_catalog) as [cs'|] eqn:Hcs; [|discriminate].
  destruct (select_rows example_holds example_db (rs_bindings r') cs') as [|row' [|]] eqn:Hrow; try discriminate.
  injection Hresult as -> -> -> _. split; [done|].
  apply (select_nullability_sound example_ops example_select example_catalog r cs example_holds example_db row example_args
    example_catalog_ok Hr Hcs example_db_ok). rewrite Hrow. by constructor.
Defined.
