(* ===== verification/Lower.v ===== *)
(** * Typed SQL: lowering

    [crates/macros/src/typed_sql/lower.rs].  A checked statement becomes a [LoweredQuery]: the SQL
    text with every optional part, the codecs of its parameters and columns, and the renderer that
    writes the SQL for the optional parameters that are present and the groups that are switched
    on.  When it has optional parts, the macro enumerates every combination of them
    ([runtime_sql_shapes]) and generates a function that picks one by the arguments
    ([select_shape]).

    Token streams are the Rust text they quote.  A panic ([expect]) is [None].  The renderer
    returns a [Result] in the source that is never an error; here it returns the value.  A
    [HashSet] is a [gset]. *)
From S2P Require Import Prelude Bytes Text SqlIr SqlSource Resolver Fragment.

Local Open Scope Z_scope.
Local Open Scope str_scope.

(** ** Codecs *)
Inductive BaseRuntimeCodec :=
  | BBool | BBytea | BVarchar | BText | BInt2 | BInt4 | BInt8 | BFloat4 | BFloat8 | BUuid | BDate | BTime | BTimestamp
  | BTimestamptz | BJson | BJsonb | BNumeric.
Inductive RuntimeCodec :=
  | RCBool | RCBytea | RCVarchar | RCText | RCInt2 | RCInt4 | RCInt8 | RCFloat4 | RCFloat8 | RCUuid | RCDate | RCTime
  | RCTimestamp | RCTimestamptz | RCJson | RCJsonb | RCNumeric | RCNullable (base : BaseRuntimeCodec).

Definition base_tokens (b : BaseRuntimeCodec) : str :=
  match b with
  | BBool => "::babar::codec::bool" | BBytea => "::babar::codec::bytea" | BVarchar => "::babar::codec::varchar"
  | BText => "::babar::codec::text" | BInt2 => "::babar::codec::int2" | BInt4 => "::babar::codec::int4"
  | BInt8 => "::babar::codec::int8" | BFloat4 => "::babar::codec::float4" | BFloat8 => "::babar::codec::float8"
  | BUuid => "::babar::codec::uuid" | BDate => "::babar::codec::date" | BTime => "::babar::codec::time"
  | BTimestamp => "::babar::codec::timestamp" | BTimestamptz => "::babar::codec::timestamptz"
  | BJson => "::babar::codec::json" | BJsonb => "::babar::codec::jsonb" | BNumeric => "::babar::codec::numeric"
  end.
Definition base_value_type_tokens (b : BaseRuntimeCodec) : str :=
  match b with
  | BBool => "bool" | BBytea => "::std::vec::Vec<u8>" | BVarchar | BText => "::std::string::String"
  | BInt2 => "i16" | BInt4 => "i32" | BInt8 => "i64" | BFloat4 => "f32" | BFloat8 => "f64"
  | BUuid => "::uuid::Uuid" | BDate => "::time::Date" | BTime => "::time::Time"
  | BTimestamp => "::time::PrimitiveDateTime" | BTimestamptz => "::time::OffsetDateTime"
  | BJson | BJsonb => "::serde_json::Value" | BNumeric => "::rust_decimal::Decimal"
  end.

Definition codec_tokens (c : RuntimeCodec) : str :=
  match c with
  | RCBool => "::babar::codec::bool" | RCBytea => "::babar::codec::bytea" | RCVarchar => "::babar::codec::varchar"
  | RCText => "::babar::codec::text" | RCInt2 => "::babar::codec::int2" | RCInt4 => "::babar::codec::int4"
  | RCInt8 => "::babar::codec::int8" | RCFloat4 => "::babar::codec::float4" | RCFloat8 => "::babar::codec::float8"
  | RCUuid => "::babar::codec::uuid" | RCDate => "::babar::codec::date" | RCTime => "::babar::codec::time"
  | RCTimestamp => "::babar::codec::timestamp" | RCTimestamptz => "::babar::codec::timestamptz"
  | RCJson => "::babar::codec::json" | RCJsonb => "::babar::codec::jsonb" | RCNumeric => "::babar::codec::numeric"
  | RCNullable base => "::babar::codec::nullable(" ++ base_tokens base ++ ")"
  end.
Definition value_type_tokens (c : RuntimeCodec) : str :=
  match c with
  | RCBool => "bool" | RCBytea => "::std::vec::Vec<u8>" | RCVarchar | RCText => "::std::string::String"
  | RCInt2 => "i16" | RCInt4 => "i32" | RCInt8 => "i64" | RCFloat4 => "f32" | RCFloat8 => "f64"
  | RCUuid => "::uuid::Uuid" | RCDate => "::time::Date" | RCTime => "::time::Time"
  | RCTimestamp => "::time::PrimitiveDateTime" | RCTimestamptz => "::time::OffsetDateTime"
  | RCJson | RCJsonb => "::serde_json::Value" | RCNumeric => "::rust_decimal::Decimal"
  | RCNullable base => "::core::option::Option<" ++ base_value_type_tokens base ++ ">"
  end.

Definition base_codec (t : SqlType) : option BaseRuntimeCodec :=
  match t with
  | TBool => Some BBool | TBytea => Some BBytea | TVarchar => Some BVarchar | TText => Some BText | TInt2 => Some BInt2
  | TInt4 => Some BInt4 | TInt8 => Some BInt8 | TFloat4 => Some BFloat4 | TFloat8 => Some BFloat8 | TUuid => Some BUuid
  | TDate => Some BDate | TTime => Some BTime | TTimestamp => Some BTimestamp | TTimestamptz => Some BTimestamptz
  | TJson => Some BJson | TJsonb => Some BJsonb | TNumeric => Some BNumeric | TOther _ => None
  end.
Definition non_null_codec (b : BaseRuntimeCodec) : RuntimeCodec :=
  match b with
  | BBool => RCBool | BBytea => RCBytea | BVarchar => RCVarchar | BText => RCText | BInt2 => RCInt2 | BInt4 => RCInt4
  | BInt8 => RCInt8 | BFloat4 => RCFloat4 | BFloat8 => RCFloat8 | BUuid => RCUuid | BDate => RCDate | BTime => RCTime
  | BTimestamp => RCTimestamp | BTimestamptz => RCTimestamptz | BJson => RCJson | BJsonb => RCJsonb | BNumeric => RCNumeric
  end.

Definition lower_runtime_codec (t : SqlType) (n : Nullability) (span : option SourceSpan) : result TypedSqlError RuntimeCodec :=
  base ← ok_or (base_codec t) (mk_sql_error EUnsupported
           ("typed_sql v1 runtime lowering does not yet support SQL type `" ++ type_name t
            ++ "`; supported lowered codecs are bool, bytea, varchar, text, int2, int4, int8, float4, float8, uuid, date, time, timestamp, timestamptz, json, jsonb, and numeric")
           span);
  Ok (match n with NonNull => non_null_codec base | Nullable => RCNullable base end).

Definition runtime_codec_tokens (t : SqlType) (n : Nullability) (span : option SourceSpan) : result TypedSqlError str :=
  c ← lower_runtime_codec t n span; Ok (codec_tokens c).
Definition runtime_value_type_tokens (t : SqlType) (n : Nullability) (span : option SourceSpan) : result TypedSqlError str :=
  c ← lower_runtime_codec t n span; Ok (value_type_tokens c).

(** ** Rendering expressions *)
Definition column_sql (c : ColumnRefSyntax) : str := ident_value (cr_binding c) ++ "." ++ ident_value (cr_column c).
Definition render_placeholder (p : PlaceholderRef) : str := "$" ++ Text.dec (ph_slot p).
Definition render_literal (l : Literal) : str :=
  match l with
  | LNumber value => value
  | LString value => "'" ++ Text.replace_byte x27 "''" value ++ "'"
  | LBoolean true => "TRUE"
  | LBoolean false => "FALSE"
  | LNull => "NULL"
  end.
Definition render_binary_op (op : BinaryOp) : str :=
  match op with Eq => "=" | NotEq => "<>" | Lt => "<" | LtEq => "<=" | Gt => ">" | GtEq => ">=" end.
Definition unary_sql (op : UnaryOp) (inner : str) : str :=
  match op with Not => "(NOT " ++ inner ++ ")" | Plus => "(+ " ++ inner ++ ")" | Minus => "(- " ++ inner ++ ")" end.
Definition binary_sql (op : BinaryOp) (l r : str) : str := "(" ++ l ++ " " ++ render_binary_op op ++ " " ++ r ++ ")".
Definition is_null_sql (negated : bool) (inner : str) : str := "(" ++ inner ++ " IS " ++ (if negated then "NOT " else "") ++ "NULL)".
Definition chain_sql (op : BoolOp) (terms : list str) : str :=
  "(" ++ Text.join (match op with And => " AND " | Or => " OR " end) terms ++ ")".

(** With everything in it. *)
Fixpoint render_expr_sql (e : ParsedExpr) : str :=
  match e with
  | PColumn c => column_sql c
  | PPlaceholder p => render_placeholder p
  | PLiteral l => render_literal (lit_value l)
  | POptionalGroup _ _ inner => "(" ++ render_expr_sql inner ++ ")"
  | PUnary _ _ op inner => unary_sql op (render_expr_sql inner)
  | PBinary _ _ op l r => binary_sql op (render_expr_sql l) (render_expr_sql r)
  | PIsNull _ _ negated inner => is_null_sql negated (render_expr_sql inner)
  | PBoolChain _ _ op terms => chain_sql op (map render_expr_sql terms)
  end.

Fixpoint collect_optional_placeholders_into (e : ParsedExpr) : list PlaceholderId :=
  match e with
  | PPlaceholder p => if ph_optional p then [placeholder_id p] else []
  | POptionalGroup _ _ inner | PUnary _ _ _ inner | PIsNull _ _ _ inner => collect_optional_placeholders_into inner
  | PBinary _ _ _ l r => collect_optional_placeholders_into l ++ collect_optional_placeholders_into r
  | PBoolChain _ _ _ terms => concat (map collect_optional_placeholders_into terms)
  | PColumn _ | PLiteral _ => []
  end.
Definition collect_optional_placeholders (e : ParsedExpr) : list PlaceholderId :=
  dedup (merge_sort Z.le (collect_optional_placeholders_into e)).

Section active.
Context (active_placeholders : gset PlaceholderId) (active_groups : gset AstId).

Definition group_active (e : ParsedExpr) (group_id : AstId) : bool :=
  match collect_optional_placeholders e with
  | [] => bool_decide (group_id ∈ active_groups)
  | required => forallb (λ p, bool_decide (p ∈ active_placeholders)) required
  end.

(** [render_expr] and [render_non_optional_expr]: [None] for what is left out. *)
Fixpoint render_expr (e : ParsedExpr) : option str :=
  match e with
  | PColumn c => Some (column_sql c)
  | PPlaceholder p =>
    if ph_optional p && negb (bool_decide (placeholder_id p ∈ active_placeholders)) then None else Some (render_placeholder p)
  | PLiteral l => Some (render_literal (lit_value l))
  | POptionalGroup id _ inner =>
    if group_active inner id then inner ← render_expr inner; Some ("(" ++ inner ++ ")") else None
  | PUnary _ _ op inner => inner ← render_expr inner; Some (unary_sql op inner)
  | PBinary _ _ op l r =>
    match render_expr l, render_expr r with
    | Some l, Some r => Some (binary_sql op l r)
    | _, _ => None
    end
  | PIsNull _ _ negated inner => inner ← render_expr inner; Some (is_null_sql negated inner)
  | PBoolChain _ _ op terms =>
    match omap render_expr terms with
    | [] => None
    | [term] => Some term
    | terms => Some (chain_sql op terms)
    end
  end.

Definition render_order_by_item (o : ParsedOrderBy) : option str :=
  sql ← render_expr (ob_expr o);
  Some (sql ++ (match ob_direction o with Desc => " DESC" | Asc => "" end)
        ++ (match ob_nulls o with None => "" | Some NullsFirst => " NULLS FIRST" | Some NullsLast => " NULLS LAST" end)).
End active.

(** ** Rendering statements *)
Definition render_object_name (n : ObjectNameSyntax) : str := Text.join "." (map ident_value (name_parts n)).
Definition render_from (f : ParsedFrom) : str := render_object_name (table_name f) ++ " AS " ++ ident_value (binding_name f).
Definition is_column_named (e : ParsedExpr) (name : str) : bool :=
  match e with PColumn c => bool_decide (ident_value (cr_column c) = name) | _ => false end.
Definition render_projection (p : ParsedProjection) : str :=
  let expr := render_expr_sql (proj_expr p) in
  match output_name p with
  | ExplicitName alias => expr ++ " AS " ++ ident_value alias
  | ImplicitName alias => if is_column_named (proj_expr p) (ident_value alias) then expr else expr ++ " AS " ++ ident_value alias
  | AnonymousName => expr
  end.
Definition render_values_row (r : ParsedValuesRow) : str := "(" ++ Text.join ", " (map render_expr_sql (row_values r)) ++ ")".
Definition render_assignment_target (t : ParsedAssignmentTarget) : str :=
  match at_binding t with
  | Some b => ident_value b ++ "." ++ ident_value (at_column t)
  | None => ident_value (at_column t)
  end.
Definition render_assignment (a : ParsedAssignment) : str :=
  render_assignment_target (as_target a) ++ " = " ++ render_expr_sql (as_value a).
Definition join_kind_sql (k : JoinKind) : str :=
  match k with JInner => "INNER" | JLeft => "LEFT" | JRight => "RIGHT" | JFull => "FULL" end.

Inductive RenderedStatement :=
  | RenderSelect (s : ParsedSelect) | RenderInsert (i : ParsedInsert) | RenderUpdate (u : ParsedUpdate) | RenderDelete (d : ParsedDelete).

Section render.
Context (active_placeholders : gset PlaceholderId) (active_groups : gset AstId).
Abbreviation expr := (render_expr active_placeholders active_groups).

(** A clause, when there is something in it. *)
Definition clause (keyword : str) (o : option str) : str := match o with Some sql => keyword ++ sql | None => "" end.

Definition render_join (j : ParsedJoin) : str :=
  " " ++ join_kind_sql (join_kind j) ++ " JOIN " ++ render_from (join_right j) ++ " ON " ++ default "TRUE" (expr (join_on j)).
Definition render_where (filter : ParsedExpr) : str := clause " WHERE " (expr filter).
Definition render_returning (ps : list ParsedProjection) : str :=
  match ps with [] => "" | _ => " RETURNING " ++ Text.join ", " (map render_projection ps) end.

Definition render_select (s : ParsedSelect) : str :=
  "SELECT " ++ Text.join ", " (map render_projection (sel_projections s)) ++ " FROM " ++ render_from (sel_from s)
  ++ concat (map render_join (sel_joins s))
  ++ (match sel_filter s with Some f => render_where f | None => "" end)
  ++ (match omap (render_order_by_item active_placeholders active_groups) (sel_order_by s) with
      | [] => "" | items => " ORDER BY " ++ Text.join ", " items end)
  ++ clause " LIMIT " (l ← sel_limit s; expr (limit_expr l))
  ++ clause " OFFSET " (o ← sel_offset s; expr (offset_expr o)).

Definition render_insert (i : ParsedInsert) : str :=
  "INSERT INTO " ++ render_from (ins_target i)
  ++ (match ins_columns i with [] => "" | cols => " (" ++ Text.join ", " (map ident_value cols) ++ ")" end)
  ++ " VALUES " ++ Text.join ", " (map render_values_row (ins_values i)) ++ render_returning (ins_returning i).

Definition render_update (u : ParsedUpdate) : str :=
  "UPDATE " ++ render_from (upd_target u) ++ " SET " ++ Text.join ", " (map render_assignment (upd_assignments u))
  ++ render_where (upd_filter u) ++ render_returning (upd_returning u).

Definition render_delete (d : ParsedDelete) : str :=
  "DELETE FROM " ++ render_from (del_target d) ++ render_where (del_filter d) ++ render_returning (del_returning d).

Definition render (s : RenderedStatement) : str :=
  match s with
  | RenderSelect s => render_select s
  | RenderInsert i => render_insert i
  | RenderUpdate u => render_update u
  | RenderDelete d => render_delete d
  end.
End render.

(** ** Optional groups *)
Fixpoint collect_optional_group_ids_expr (e : ParsedExpr) : list AstId :=
  match e with
  | POptionalGroup id _ inner => id :: collect_optional_group_ids_expr inner
  | PUnary _ _ _ inner | PIsNull _ _ _ inner => collect_optional_group_ids_expr inner
  | PBinary _ _ _ l r => collect_optional_group_ids_expr l ++ collect_optional_group_ids_expr r
  | PBoolChain _ _ _ terms => concat (map collect_optional_group_ids_expr terms)
  | PColumn _ | PPlaceholder _ | PLiteral _ => []
  end.
Abbreviation ids_of := collect_optional_group_ids_expr.
Definition ids_of_option (o : option ParsedExpr) : list AstId := match o with Some e => ids_of e | None => [] end.
Definition ids_of_projections (ps : list ParsedProjection) : list AstId := concat (map (λ p, ids_of (proj_expr p)) ps).

Definition collect_optional_group_ids_select (s : ParsedSelect) : list AstId :=
  ids_of_projections (sel_projections s) ++ ids_of_option (sel_filter s) ++ concat (map (λ j, ids_of (join_on j)) (sel_joins s))
  ++ concat (map (λ o, ids_of (ob_expr o)) (sel_order_by s))
  ++ ids_of_option (limit_expr <$> sel_limit s) ++ ids_of_option (offset_expr <$> sel_offset s).

Definition sorted_ids (ids : list AstId) : list AstId := dedup (merge_sort Z.le ids).

Definition optional_group_ids (s : RenderedStatement) : list AstId :=
  sorted_ids
    match s with
    | RenderSelect s => collect_optional_group_ids_select s
    | RenderInsert i => concat (map (λ r, concat (map ids_of (row_values r))) (ins_values i)) ++ ids_of_projections (ins_returning i)
    | RenderUpdate u =>
      concat (map (λ a, ids_of (as_value a)) (upd_assignments u)) ++ ids_of (upd_filter u) ++ ids_of_projections (upd_returning u)
    | RenderDelete d => ids_of (del_filter d) ++ ids_of_projections (del_returning d)
    end.

(** The groups of a checked expression that no optional placeholder controls: switches of their own. *)
Fixpoint collect_toggle_group_ids_expr (e : CheckedExpr) : list AstId :=
  match ce_node e with
  | COptionalGroup id inner required => (match required with [] => [id] | _ => [] end) ++ collect_toggle_group_ids_expr inner
  | CUnary _ inner | CIsNull _ inner => collect_toggle_group_ids_expr inner
  | CBinary _ l r => collect_toggle_group_ids_expr l ++ collect_toggle_group_ids_expr r
  | CBoolChain _ terms => concat (map collect_toggle_group_ids_expr terms)
  | CColumn _ | CPlaceholder _ | CLiteral _ => []
  end.
Definition toggles_of_option (o : option CheckedExpr) : list AstId :=
  match o with Some e => collect_toggle_group_ids_expr e | None => [] end.

Definition collect_toggle_group_ids_select (s : CheckedSelect) : list AstId :=
  sorted_ids (toggles_of_option (cs_filter s) ++ concat (map (λ j, collect_toggle_group_ids_expr (cj_on j)) (cs_joins s))
    ++ concat (map collect_toggle_group_ids_expr (cs_order_by s)) ++ toggles_of_option (cs_limit s) ++ toggles_of_option (cs_offset s)).
Definition collect_toggle_group_ids_exprs (es : list (option CheckedExpr)) : list AstId :=
  sorted_ids (concat (map toggles_of_option es)).

(** ** Lowered queries *)
Record LoweredParameter := mk_lowered_parameter {
  lp_id : PlaceholderId; lp_logical_name : str; lp_position : Z; lp_type : SqlType; lp_nullability : Nullability;
  lp_optional : bool; lp_codec : RuntimeCodec;
}.
Record LoweredColumn := mk_lowered_column { lc_label : str; lc_type : SqlType; lc_nullability : Nullability; lc_codec : RuntimeCodec }.
Record LoweredQuery := mk_lowered {
  lq_sql : str; lq_parameters : list LoweredParameter; lq_columns : list LoweredColumn; lq_renderer : RenderedStatement;
  lq_toggle_group_ids : list AstId;
}.

Record ParsedSql := mk_parsed { ps_source : SqlSource; ps_statement : ParsedStatement; ps_select : option ParsedSelect }.
Definition ParsedSql_new (source : SqlSource) (s : ParsedStatement) : ParsedSql := mk_parsed source s (as_select s).

Definition lower_parameter (parsed : ParsedSql) (p : CheckedParameter) : result TypedSqlError LoweredParameter :=
  let span :=
    '(_, entry) ← list_find (λ e, entry_id e = par_id p) (src_placeholders (ps_source parsed));
    o ← head (occurrences entry);
    Some (occ_original o) in
  codec ← lower_runtime_codec (par_type p) (par_nullability p) span;
  Ok (mk_lowered_parameter (par_id p) (par_name p) (par_slot p) (par_type p) (par_nullability p) (par_optional p) codec).

Definition ce_span (e : CheckedExpr) : SourceSpan := let 'mk_checked s _ _ _ _ := e in s.
Definition lower_projection (p : CheckedProjection) : result TypedSqlError LoweredColumn :=
  codec ← lower_runtime_codec (cp_type p) (cp_nullability p) (Some (ce_span (cp_expr p)));
  Ok (mk_lowered_column (cp_output_name p) (cp_type p) (cp_nullability p) codec).

(** The common body of [lower_select] and [lower_dml]. *)
Definition lower_dml (parsed : ParsedSql) (params : list CheckedParameter) (projections : list CheckedProjection)
    (renderer : RenderedStatement) (toggles : list AstId) : result TypedSqlError LoweredQuery :=
  parameters ← map_result (lower_parameter parsed) params;
  columns ← map_result lower_projection projections;
  let sql := render (list_to_set (map lp_id parameters)) (list_to_set (optional_group_ids renderer)) renderer in
  Ok (mk_lowered sql parameters columns renderer toggles).

(** A body of the wrong kind is [unreachable!]: [None]. *)
Definition lower_select (parsed : ParsedSql) (checked : CheckedSelect) : option (result TypedSqlError LoweredQuery) :=
  select ← ps_select parsed;
  Some (lower_dml parsed (cs_parameters checked) (cs_projections checked) (RenderSelect select)
          (collect_toggle_group_ids_select checked)).

Definition lower_insert (parsed : ParsedSql) (checked : CheckedInsert) : option (result TypedSqlError LoweredQuery) :=
  insert ← match st_body (ps_statement parsed) with
           | SBRows r => match rs_body r with RBInsert i => Some i | _ => None end
           | SBCommand c => match cs_body c with CBInsert i => Some i | _ => None end
           end;
  Some (lower_dml parsed (ci_parameters checked) (ci_projections checked) (RenderInsert insert) []).

Definition lower_update (parsed : ParsedSql) (checked : CheckedUpdate) : option (result TypedSqlError LoweredQuery) :=
  update ← match st_body (ps_statement parsed) with
           | SBRows r => match rs_body r with RBUpdate u => Some u | _ => None end
           | SBCommand c => match cs_body c with CBUpdate u => Some u | _ => None end
           end;
  Some (lower_dml parsed (cu_parameters checked) (cu_projections checked) (RenderUpdate update)
          (collect_toggle_group_ids_exprs [Some (cu_filter checked)])).

Definition lower_delete (parsed : ParsedSql) (checked : CheckedDelete) : option (result TypedSqlError LoweredQuery) :=
  delete ← match st_body (ps_statement parsed) with
           | SBRows r => match rs_body r with RBDelete d => Some d | _ => None end
           | SBCommand c => match cs_body c with CBDelete d => Some d | _ => None end
           end;
  Some (lower_dml parsed (cd_parameters checked) (cd_projections checked) (RenderDelete delete)
          (collect_toggle_group_ids_exprs [Some (cd_filter checked)])).

Definition lower_statement (parsed : ParsedSql) (checked : CheckedStatement) : option (result TypedSqlError LoweredQuery) :=
  match cst_body checked with
  | CSelect s => lower_select parsed s
  | CInsert i => lower_insert parsed i
  | CUpdate u => lower_update parsed u
  | CDelete d => lower_delete parsed d
  end.

(** ** Numbering the placeholders of a variant *)

(** The loop of [renumber_sql_placeholders]: a number that is not active, or too large, is a
    panic; a byte that is not part of a placeholder is pushed as the character with that code.
    One unit of fuel is one turn, which consumes at least one byte. *)
Fixpoint renumber_slots (fuel : nat) (slots : gmap Z Z) (s : str) : option str :=
  match fuel, s with
  | S fuel, c :: rest =>
    let '(digits, after) := span_digits rest in
    if byte_is c 36 && (0 <? length digits)%nat then
      slot ← to_option (Text.parse_uint 32 10 digits);
      mapped ← slots !! slot;
      app (placeholder mapped) <$> renumber_slots fuel slots after
    else app (encode_char (u8_of c)) <$> renumber_slots fuel slots rest
  | _, _ => Some []
  end.

(** The slots in order, numbered from one. *)
Definition slot_map (active : list Z) : gmap Z Z :=
  list_to_map (reverse (imap (λ i slot, (slot, Z.of_nat i + 1)) active)).

Definition renumber_sql_placeholders (sql : str) (active : list Z) : option str :=
  match active with
  | [] => Some sql
  | _ => renumber_slots (length sql) (slot_map active) sql
  end.

(** ** Variants *)
Record RuntimeSqlShape := mk_shape { sh_flags : list bool; sh_sql : str; sh_active : list nat }.

Definition optional_parameters (q : LoweredQuery) : list (nat * PlaceholderId) :=
  omap (λ x, if lp_optional x.2 then Some (x.1, lp_id x.2) else None) (imap pair (lq_parameters q)).

Definition is_dynamic (q : LoweredQuery) : bool :=
  existsb lp_optional (lq_parameters q) || negb (bool_decide (lq_toggle_group_ids q = [])).

Definition active_indexes (q : LoweredQuery) (active : gset PlaceholderId) : list nat :=
  omap (λ x, if negb (lp_optional x.2) || bool_decide (lp_id x.2 ∈ active) then Some x.1 else None) (imap pair (lq_parameters q)).

(** The ids whose flags are set. *)
Definition flagged (flags : list bool) (ids : list Z) : gset Z :=
  list_to_set (omap (λ x, if x.1 : bool then Some x.2 else None) (zip flags ids)).

Definition shape_of (q : LoweredQuery) (flags : list bool) : option RuntimeSqlShape :=
  let optionals := map snd (optional_parameters q) in
  let active := flagged (take (length optionals) flags) optionals in
  let groups := flagged (drop (length optionals) flags) (lq_toggle_group_ids q) in
  let indexes := active_indexes q active in
  let slots := omap (λ i, lp_position <$> lq_parameters q !! i) indexes in
  sql ← renumber_sql_placeholders (render active groups (lq_renderer q)) slots;
  Some (mk_shape flags sql indexes).

(** The bits of [mask], the lowest first. *)
Definition mask_flags (n : nat) (mask : nat) : list bool := map (λ i, Nat.testbit mask i) (seq 0 n).

(** One shape for every mask below [1 << total_flags]. *)
Definition runtime_sql_shapes (q : LoweredQuery) : option (list RuntimeSqlShape) :=
  let total := (length (optional_parameters q) + length (lq_toggle_group_ids q))%nat in
  mapM (λ mask, shape_of q (mask_flags total mask)) (seq 0 (2 ^ total)).

(** What the generated function does: the [match] on which optional arguments are present and
    which groups are on, and the arm's SQL and arguments to push, by their index. *)
Definition select_shape (shapes : list RuntimeSqlShape) (present toggles : list bool) : option RuntimeSqlShape :=
  '(_, s) ← list_find (λ s, sh_flags s = present ++ toggles) shapes; Some s.

(** ** Generated tokens *)
Definition template_codec_tokens (p : LoweredParameter) : str :=
  if lp_optional p then "::babar::codec::nullable(" ++ codec_tokens (lp_codec p) ++ ")" else codec_tokens (lp_codec p).
Definition template_value_type_tokens (p : LoweredParameter) : str :=
  if lp_optional p then "::core::option::Option<" ++ value_type_tokens (lp_codec p) ++ ">" else value_type_tokens (lp_codec p).
(** A tuple of tokens, with a comma after each. *)
Definition tuple_tokens (ts : list str) : str := "(" ++ concat (map (λ t, t ++ ",") ts) ++ ")".
Definition tuple_codec_tokens (cs : list RuntimeCodec) : str := tuple_tokens (map codec_tokens cs).
Definition parameter_codec_tokens (q : LoweredQuery) : str :=
  tuple_tokens (map template_codec_tokens (lq_parameters q) ++ map (λ _, "::babar::__private::toggle"%s) (lq_toggle_group_ids q)).
Definition parameter_type_tokens (q : LoweredQuery) : str :=
  tuple_tokens (map template_value_type_tokens (lq_parameters q) ++ map (λ _, "bool"%s) (lq_toggle_group_ids q)).
Definition row_codec_tokens (q : LoweredQuery) : str := tuple_codec_tokens (map lc_codec (lq_columns q)).
Definition row_type_tokens (q : LoweredQuery) : str := tuple_tokens (map (λ c, value_type_tokens (lc_codec c)) (lq_columns q)).
