(* ===== verification/LowerFacts.v ===== *)
(** * Lowered queries

    The SQL of every variant of a lowered query is that of its statement with the parts that are
    switched off left out and the placeholders numbered by the arguments the variant sends, and
    there is exactly one variant for every combination of present arguments and groups. *)
From S2P Require Import Prelude Bytes Text SqlIr SqlSource Resolver ResolverFacts Fragment Lower.

Local Open Scope Z_scope.
Local Open Scope str_scope.

(** ** Leaving parts out *)
Section pruning.
Context (active : gset PlaceholderId) (groups : gset AstId).

(** The expression without its inactive parts: what contains an absent optional argument goes,
    up to the enclosing chain, which collapses when one term is left. *)
Fixpoint prune (e : ParsedExpr) : option ParsedExpr :=
  match e with
  | PColumn _ | PLiteral _ => Some e
  | PPlaceholder p => if ph_optional p && negb (bool_decide (placeholder_id p ∈ active)) then None else Some e
  | POptionalGroup id span inner =>
    if group_active active groups inner id then inner ← prune inner; Some (POptionalGroup id span inner) else None
  | PUnary id span op inner => inner ← prune inner; Some (PUnary id span op inner)
  | PBinary id span op l r => l ← prune l; r ← prune r; Some (PBinary id span op l r)
  | PIsNull id span negated inner => inner ← prune inner; Some (PIsNull id span negated inner)
  | PBoolChain id span op terms =>
    match omap prune terms with
    | [] => None
    | [term] => Some term
    | terms => Some (PBoolChain id span op terms)
    end
  end.
End pruning.

Fixpoint placeholders_of (e : ParsedExpr) : list PlaceholderRef :=
  match e with
  | PPlaceholder p => [p]
  | POptionalGroup _ _ inner | PUnary _ _ _ inner | PIsNull _ _ _ inner => placeholders_of inner
  | PBinary _ _ _ l r => placeholders_of l ++ placeholders_of r
  | PBoolChain _ _ _ terms => concat (map placeholders_of terms)
  | PColumn _ | PLiteral _ => []
  end.

(** The placeholder is written in the variant with the given active ones. *)
Definition written (active : gset PlaceholderId) (p : PlaceholderRef) : Prop := ph_optional p = false ∨ placeholder_id p ∈ active.

(** Chains have at least two terms. *)
Fixpoint chains_ok (e : ParsedExpr) : bool :=
  match e with
  | POptionalGroup _ _ inner | PUnary _ _ _ inner | PIsNull _ _ _ inner => chains_ok inner
  | PBinary _ _ _ l r => chains_ok l && chains_ok r
  | PBoolChain _ _ _ terms => (2 <=? length terms)%nat && forallb chains_ok terms
  | PColumn _ | PPlaceholder _ | PLiteral _ => true
  end.

Lemma omap_all {A B} (f : A → option B) (g : A → B) l : Forall (λ a, f a = Some (g a)) l → omap f l = map g l.
Proof. induction 1 as [|a l Ha _ IH]; cbn; [done|]. by rewrite Ha, IH. Qed.

Lemma render_prunes_map active groups terms :
  Forall (λ e, render_expr active groups e = render_expr_sql <$> prune active groups e) terms →
  omap (render_expr active groups) terms = map render_expr_sql (omap (prune active groups) terms).
Proof.
  induction 1 as [|e terms He _ IH]; cbn; [done|]. rewrite He. destruct (prune active groups e); cbn; [by f_equal|done].
Qed.

Lemma elem_of_dedup x l : x ∈ dedup l ↔ x ∈ l.
Proof.
  induction l as [|a l IH]; [done|]. destruct l as [|b l]; [done|]. change (dedup (a :: b :: l)) with (if a =? b then dedup (b :: l) else a :: dedup (b :: l)).
  destruct (Z.eqb_spec a b) as [->|Hne].
  - rewrite IH, !elem_of_cons. naive_solver.
  - rewrite !elem_of_cons in *. naive_solver.
Qed.

Lemma elem_of_optional x e : x ∈ collect_optional_placeholders e ↔ x ∈ collect_optional_placeholders_into e.
Proof. unfold collect_optional_placeholders. by rewrite elem_of_dedup, merge_sort_Permutation. Qed.

Lemma collect_optional_elem e x : x ∈ collect_optional_placeholders_into e ↔
  ∃ p, p ∈ placeholders_of e ∧ ph_optional p = true ∧ placeholder_id p = x.
Proof.
  induction e as [c|p|l|id span e IH|id span op e IH|id span op l r IHl IHr|id span b e IH|id span op ts IH] using parsed_expr_ind; cbn;
    try done; try set_solver.
  - destruct (ph_optional p) eqn:Hp; split.
    + intros ->%list_elem_of_singleton. exists p. by rewrite list_elem_of_singleton.
    + intros (q & ->%list_elem_of_singleton & _ & <-). by apply list_elem_of_singleton.
    + by intros ?%elem_of_nil.
    + intros (q & ->%list_elem_of_singleton & Ho & _). congruence.
  - rewrite elem_of_concat_map. setoid_rewrite elem_of_concat_map. rewrite Forall_forall in IH. split.
    + intros (t & Ht & Hx). destruct (proj1 (IH t Ht) Hx) as (p & ? & ?). naive_solver.
    + intros (p & (t & Ht & Hp) & Ho). exists t. split; [done|]. apply (IH t Ht). eauto.
Qed.

(** What is written of an expression is what pruning leaves of it. *)
Lemma render_prune active groups e : render_expr active groups e = render_expr_sql <$> prune active groups e.
Proof.
  induction e as [c|p|l|id span e IH|id span op e IH|id span op l r IHl IHr|id span b e IH|id span op ts IH] using parsed_expr_ind; cbn.
  - done.
  - by destruct (ph_optional p && _).
  - done.
  - destruct (group_active active groups e id); [|done]. rewrite IH. by destruct (prune active groups e).
  - rewrite IH. by destruct (prune active groups e).
  - rewrite IHl, IHr. by destruct (prune active groups l), (prune active groups r).
  - rewrite IH. by destruct (prune active groups e).
  - rewrite render_prunes_map by done. by destruct (omap (prune active groups) ts) as [|t [|u us]].
Qed.

Lemma prune_written active groups e e' : prune active groups e = Some e' →
  ∀ p, p ∈ placeholders_of e' → p ∈ placeholders_of e ∧ written active p.
Proof.
  revert e'.
  induction e as [c|p|l|id span e IH|id span op e IH|id span op l r IHl IHr|id span b e IH|id span op ts IH] using parsed_expr_ind;
    intros e'; cbn.
  - intros [= <-]. set_solver.
  - destruct (ph_optional p) eqn:Hp; cbn; [|intros [= <-] q ->%list_elem_of_singleton; cbn; split; [set_solver|by left]].
    destruct (bool_decide (placeholder_id p ∈ active)) eqn:Ha; [|done]. apply bool_decide_eq_true in Ha.
    intros [= <-] q ->%list_elem_of_singleton. split; [cbn; set_solver|by right].
  - intros [= <-]. set_solver.
  - destruct (group_active active groups e id); [|done]. intros (i & Hi & [= <-])%bind_Some. exact (IH _ Hi).
  - intros (i & Hi & [= <-])%bind_Some. exact (IH _ Hi).
  - intros (l' & Hl & (r' & Hr & [= <-])%bind_Some)%bind_Some q. cbn. rewrite !elem_of_app.
    intros [Hq|Hq]; [destruct (IHl _ Hl q Hq)|destruct (IHr _ Hr q Hq)]; auto.
  - intros (i & Hi & [= <-])%bind_Some. exact (IH _ Hi).
  - assert (Hall : ∀ t, t ∈ omap (prune active groups) ts → ∀ q, q ∈ placeholders_of t →
      q ∈ concat (map placeholders_of ts) ∧ written active q).
    { intros t (u & Hu & Ht)%list_elem_of_omap q Hq. rewrite Forall_forall in IH. destruct (IH u Hu t Ht q Hq) as [Hin Hw].
      split; [|done]. apply elem_of_concat_map. by exists u. }
    destruct (omap (prune active groups) ts) as [|t [|u us]]; [done| |]; intros [= <-] q Hq.
    + apply (Hall t); [set_solver|done].
    + cbn in Hq. change (placeholders_of t ++ placeholders_of u ++ concat (map placeholders_of us))
        with (concat (map placeholders_of (t :: u :: us))) in Hq.
      apply elem_of_concat_map in Hq as (v & Hv & Hq). by apply (Hall v).
Qed.

(** The group is on: all its optional placeholders are, or it is switched on. *)
Lemma group_active_all active groups e id : (∀ p, p ∈ placeholders_of e → written active p) → id ∈ groups → group_active active groups e id = true.
Proof.
  intros Hall Hid. unfold group_active. destruct (collect_optional_placeholders e) as [|x l] eqn:Hc; [by apply bool_decide_eq_true|].
  apply forallb_forall. intros y Hy%list_elem_of_In. apply bool_decide_eq_true. rewrite <- Hc in Hy.
  apply elem_of_optional, collect_optional_elem in Hy as (p & Hp & Ho & <-). destruct (Hall p Hp); [congruence|done].
Qed.

(** With everything on nothing is left out. *)
Lemma prune_all active groups e : chains_ok e = true → (∀ p, p ∈ placeholders_of e → written active p) →
  (∀ id, id ∈ collect_optional_group_ids_expr e → id ∈ groups) → prune active groups e = Some e.
Proof.
  induction e as [c|p|l|id span e IH|id span op e IH|id span op l r IHl IHr|id span b e IH|id span op ts IH] using parsed_expr_ind;
    cbn; intros Hc Hp Hg; try done.
  - destruct (Hp p) as [->|Ha]; [set_solver|done|]. rewrite bool_decide_eq_true_2 by done. by rewrite andb_false_r.
  - rewrite group_active_all by (try done; apply Hg; set_solver). rewrite IH by (try done; set_solver). done.
  - by rewrite IH.
  - apply andb_true_iff in Hc as [Hl Hr]. rewrite IHl, IHr by (try done; set_solver). done.
  - by rewrite IH.
  - apply andb_true_iff in Hc as [Hlen Hc]. rewrite (omap_all _ (λ t, t)), map_id.
    + by destruct ts as [|t [|u us]].
    + rewrite Forall_forall in *. intros t Ht. apply (IH t Ht).
      * rewrite forallb_forall in Hc. by apply Hc, list_elem_of_In.
      * intros p Hin. apply Hp, elem_of_concat_map. eauto.
      * intros i Hi. apply Hg, elem_of_concat_map. eauto.
Qed.

(** ** Numbering placeholders *)

(** The text [s] is turned into [t] wherever it stands before something that is not a digit. *)
Definition reads (m : gmap Z Z) (s t : str) : Prop :=
  ∀ fuel r, starts_with_digit r = false → (length (s ++ r) ≤ fuel)%nat →
  ∃ fuel', (length r ≤ fuel')%nat ∧ renumber_slots fuel m (s ++ r) = app t <$> renumber_slots fuel' m r.

(** Text in which no placeholder can begin: ASCII, without a [$]. *)
Definition dollar_free (s : str) : bool := forallb (λ b, (u8_of b <? 128) && negb (byte_is b 36)) s.

Lemma dollar_free_app s t : dollar_free (s ++ t) = dollar_free s && dollar_free t.
Proof. apply forallb_app. Qed.

Section reading.
Context (m : gmap Z Z).

Lemma app_fmap (s t : str) (o : option str) : app s <$> (app t <$> o) = app (s ++ t) <$> o.
Proof. destruct o; cbn; [|done]. by rewrite (assoc_L (++)). Qed.

Lemma renumber_char fuel c r : u8_of c < 128 → byte_is c 36 = false → renumber_slots (S fuel) m (c :: r) = app [c] <$> renumber_slots fuel m r.
Proof. intros Hc Hd. cbn [renumber_slots]. destruct (span_digits r) as [ds after]. rewrite Hd. cbn [andb]. by rewrite encode_char_ascii. Qed.

Lemma reads_free s : dollar_free s = true → ∀ fuel r, (length (s ++ r) ≤ fuel)%nat →
  ∃ fuel', (length r ≤ fuel')%nat ∧ renumber_slots fuel m (s ++ r) = app s <$> renumber_slots fuel' m r.
Proof.
  induction s as [|c s IH]; intros Hs fuel r Hfuel.
  { exists fuel. split; [done|]. cbn [app]. by destruct (renumber_slots fuel m r). }
  cbn in Hs, Hfuel. apply andb_true_iff in Hs as [[Hc%Z.ltb_lt Hd%negb_true_iff]%andb_true_iff Hs].
  destruct fuel as [|fuel]; [lia|]. destruct (IH Hs fuel r) as (fuel' & Hf & Heq); [lia|]. exists fuel'. split; [done|].
  change ((c :: s) ++ r) with (c :: (s ++ r)). rewrite renumber_char, Heq by done. apply (app_fmap [c] s).
Qed.

(** Text that holds no placeholder is kept. *)
Lemma reads_text s : placeholder_free s = true → reads m s s.
Proof.
  intros Hs fuel r Hr. revert fuel Hs. induction s as [|c s IH]; intros fuel Hs Hfuel.
  { exists fuel. split; [done|]. cbn [app]. by destruct (renumber_slots fuel m r). }
  cbn in Hs, Hfuel. apply andb_true_iff in Hs as [[Hc%Z.ltb_lt Hd%negb_true_iff]%andb_true_iff Hs].
  destruct fuel as [|fuel]; [lia|]. destruct (IH fuel Hs) as (fuel' & Hf & Heq); [lia|]. exists fuel'. split; [done|].
  change ((c :: s) ++ r) with (c :: (s ++ r)). cbn [renumber_slots].
  assert (byte_is c 36 && (0 <? length (span_digits (s ++ r)).1)%nat = false) as Hno.
  { destruct (byte_is c 36); [|done]. destruct s as [|d s]; cbn in *.
    - destruct r as [|d r]; cbn in *; [done|by rewrite Hr].
    - by rewrite Hd. }
  destruct (span_digits (s ++ r)) as [ds after]; cbn in Hno |- *. rewrite Hno, Heq, encode_char_ascii by done.
  apply (app_fmap [c] s).
Qed.

Lemma reads_placeholder slot k : 0 ≤ slot < 2 ^ 32 → m !! slot = Some k → reads m (placeholder slot) (placeholder k).
Proof.
  intros Hs Hk fuel r Hr Hfuel. destruct fuel as [|fuel]; [cbn in Hfuel; lia|]. exists fuel. split.
  { unfold placeholder in Hfuel. cbn in Hfuel. rewrite length_app in Hfuel. lia. }
  unfold placeholder at 1. change (("$" ++ Text.dec slot) ++ r) with (x24 :: (Text.dec slot ++ r)). cbn [renumber_slots].
  rewrite span_digits_app by (try done; by apply dec_digits; lia).
  destruct (dec_nonneg_head slot ltac:(lia)) as (d & ds & Hd & E).
  assert (Text.dec slot = digit_byte d :: ds) as E' by (unfold Text.dec; case_match; [lia|done]).
  rewrite E' at 1. cbn [length Nat.ltb Nat.leb andb byte_is].
  rewrite parse_uint_dec by (unfold in_uint; lia). cbn [to_option mbind option_bind]. by rewrite Hk.
Qed.

Lemma reads_nil : reads m "" "".
Proof. by apply reads_text. Qed.

(** A fixed prefix. *)
Lemma reads_pre c s t : dollar_free c = true → reads m s t → reads m (c ++ s) (c ++ t).
Proof.
  intros Hc Hs fuel r Hr Hfuel. rewrite <- (assoc_L (++)) in *.
  destruct (reads_free c Hc fuel (s ++ r) Hfuel) as (f1 & Hf1 & ->). destruct (Hs f1 r Hr Hf1) as (f2 & Hf2 & ->).
  exists f2. split; [done|]. apply app_fmap.
Qed.

Lemma starts_app s r : starts_with_digit s = false → starts_with_digit r = false → starts_with_digit (s ++ r) = false.
Proof. by destruct s. Qed.

Lemma reads_app s1 s2 t1 t2 : reads m s1 t1 → reads m s2 t2 → starts_with_digit s2 = false → reads m (s1 ++ s2) (t1 ++ t2).
Proof.
  intros H1 H2 Hd fuel r Hr Hfuel. rewrite <- (assoc_L (++)) in *.
  destruct (H1 fuel (s2 ++ r)) as (f1 & Hf1 & ->); [by apply starts_app|done|].
  destruct (H2 f1 r Hr Hf1) as (f2 & Hf2 & ->). exists f2. split; [done|]. apply app_fmap.
Qed.

(** A fixed text after another: it does not begin with a digit. *)
Lemma reads_mid s1 t1 c s2 t2 : reads m s1 t1 → dollar_free c = true → starts_with_digit c = false → c ≠ [] → reads m s2 t2 →
  reads m (s1 ++ c ++ s2) (t1 ++ c ++ t2).
Proof.
  intros H1 Hc Hd Hne H2. apply reads_app; [done|by apply reads_pre|]. by destruct c.
Qed.

Lemma reads_post s t c : reads m s t → dollar_free c = true → starts_with_digit c = false → reads m (s ++ c) (t ++ c).
Proof.
  intros Hs Hc Hd. apply reads_app; [done| |done]. rewrite <- (right_id_L [] (++) c). apply reads_pre; [done|apply reads_nil].
Qed.

Lemma reads_join sep l l' : dollar_free sep = true → starts_with_digit sep = false → sep ≠ [] → Forall2 (reads m) l l' →
  reads m (Text.join sep l) (Text.join sep l').
Proof.
  intros Hs Hd Hne. induction 1 as [|s t l l' Hst Hl IH]; [apply reads_nil|].
  destruct Hl as [|s2 t2 l l' Hst2 Hl]; [done|].
  change (Text.join sep (s :: s2 :: l)) with (s ++ sep ++ Text.join sep (s2 :: l)).
  change (Text.join sep (t :: t2 :: l')) with (t ++ sep ++ Text.join sep (t2 :: l')). by apply reads_mid.
Qed.

Lemma reads_concat l l' : Forall2 (reads m) l l' → Forall (λ s, starts_with_digit s = false) l → reads m (concat l) (concat l').
Proof.
  induction 1 as [|s t l l' Hst Hl IH]; intros Hd; [apply reads_nil|]. apply Forall_cons in Hd as [Hd1 Hd]. cbn.
  apply reads_app; [done|auto|]. clear - Hd. induction Hd as [|s l Hs _ IHd]; cbn; [done|by apply starts_app].
Qed.

Lemma reads_dollar_free s : dollar_free s = true → reads m s s.
Proof. intros Hs. rewrite <- (right_id_L [] (++) s). apply reads_pre; [done|apply reads_nil]. Qed.
End reading.

(** ** Renaming the slots of a statement *)
Section renaming.
Context (ρ : Z → Z).

Definition rename_placeholder (p : PlaceholderRef) : PlaceholderRef :=
  mk_placeholder (ph_id p) (ph_span p) (placeholder_id p) (ph_name p) (ρ (ph_slot p)) (ph_optional p).
Fixpoint rename (e : ParsedExpr) : ParsedExpr :=
  match e with
  | PColumn _ | PLiteral _ => e
  | PPlaceholder p => PPlaceholder (rename_placeholder p)
  | POptionalGroup id span inner => POptionalGroup id span (rename inner)
  | PUnary id span op inner => PUnary id span op (rename inner)
  | PBinary id span op l r => PBinary id span op (rename l) (rename r)
  | PIsNull id span negated inner => PIsNull id span negated (rename inner)
  | PBoolChain id span op terms => PBoolChain id span op (map rename terms)
  end.
Definition rename_projection (p : ParsedProjection) : ParsedProjection :=
  mk_projection (proj_id p) (proj_span p) (rename (proj_expr p)) (output_name p).
Definition rename_join (j : ParsedJoin) : ParsedJoin :=
  mk_join (join_id j) (join_span j) (join_kind j) (join_right j) (rename (join_on j)).
Definition rename_order_by (o : ParsedOrderBy) : ParsedOrderBy :=
  mk_order_by (ob_id o) (ob_span o) (rename (ob_expr o)) (ob_direction o) (ob_nulls o).
Definition rename_limit (l : ParsedLimit) : ParsedLimit := mk_limit (limit_id l) (limit_span l) (rename (limit_expr l)).
Definition rename_offset (o : ParsedOffset) : ParsedOffset := mk_offset (offset_id o) (offset_span o) (rename (offset_expr o)).
Definition rename_row (r : ParsedValuesRow) : ParsedValuesRow := mk_values_row (row_id r) (row_span r) (map rename (row_values r)).
Definition rename_assignment (a : ParsedAssignment) : ParsedAssignment :=
  mk_assignment (as_id a) (as_span a) (as_target a) (rename (as_value a)).

Definition rename_statement (s : RenderedStatement) : RenderedStatement :=
  match s with
  | RenderSelect s =>
    RenderSelect (mk_select (sel_id s) (sel_span s) (map rename_projection (sel_projections s)) (sel_from s)
      (map rename_join (sel_joins s)) (rename <$> sel_filter s) (map rename_order_by (sel_order_by s))
      (rename_limit <$> sel_limit s) (rename_offset <$> sel_offset s))
  | RenderInsert i =>
    RenderInsert (mk_insert (ins_id i) (ins_span i) (ins_target i) (ins_columns i) (map rename_row (ins_values i))
      (map rename_projection (ins_returning i)))
  | RenderUpdate u =>
    RenderUpdate (mk_update (upd_id u) (upd_span u) (upd_target u) (map rename_assignment (upd_assignments u)) (rename (upd_filter u))
      (map rename_projection (upd_returning u)))
  | RenderDelete d =>
    RenderDelete (mk_delete (del_id d) (del_span d) (del_target d) (rename (del_filter d)) (map rename_projection (del_returning d)))
  end.
End renaming.

(** ** What a statement is made of *)

(** The expressions that are always written, and those that may be left out. *)
Definition value_exprs (s : RenderedStatement) : list ParsedExpr :=
  match s with
  | RenderSelect s => map proj_expr (sel_projections s)
  | RenderInsert i => concat (map row_values (ins_values i)) ++ map proj_expr (ins_returning i)
  | RenderUpdate u => map as_value (upd_assignments u) ++ map proj_expr (upd_returning u)
  | RenderDelete d => map proj_expr (del_returning d)
  end.
Definition clause_exprs (s : RenderedStatement) : list ParsedExpr :=
  match s with
  | RenderSelect s =>
    map join_on (sel_joins s) ++ option_list (sel_filter s) ++ map ob_expr (sel_order_by s)
    ++ option_list (limit_expr <$> sel_limit s) ++ option_list (offset_expr <$> sel_offset s)
  | RenderInsert _ => []
  | RenderUpdate u => [upd_filter u]
  | RenderDelete d => [del_filter d]
  end.
Definition statement_placeholders (s : RenderedStatement) : list PlaceholderRef :=
  concat (map placeholders_of (value_exprs s ++ clause_exprs s)).

(** The names a statement is written with. *)
Definition from_names (f : ParsedFrom) : list str := map ident_value (name_parts (table_name f)) ++ [ident_value (binding_name f)].
Definition output_names (p : ParsedProjection) : list str :=
  match output_name p with ExplicitName i | ImplicitName i => [ident_value i] | AnonymousName => [] end.
Definition target_names (t : ParsedAssignmentTarget) : list str :=
  option_list (ident_value <$> at_binding t) ++ [ident_value (at_column t)].
Definition statement_names (s : RenderedStatement) : list str :=
  match s with
  | RenderSelect s => concat (map output_names (sel_projections s)) ++ from_names (sel_from s) ++ concat (map (λ j, from_names (join_right j)) (sel_joins s))
  | RenderInsert i => from_names (ins_target i) ++ map ident_value (ins_columns i) ++ concat (map output_names (ins_returning i))
  | RenderUpdate u => from_names (upd_target u) ++ concat (map (λ a, target_names (as_target a)) (upd_assignments u))
                      ++ concat (map output_names (upd_returning u))
  | RenderDelete d => from_names (del_target d) ++ concat (map output_names (del_returning d))
  end.

(** Text that cannot be taken for a placeholder: no [$] in names and, in literals, none before a
    digit; and only ASCII. *)
Fixpoint text_ok (e : ParsedExpr) : bool :=
  match e with
  | PColumn c => dollar_free (ident_value (cr_binding c)) && dollar_free (ident_value (cr_column c))
  | PLiteral l => placeholder_free (render_literal (lit_value l))
  | PPlaceholder _ => true
  | POptionalGroup _ _ inner | PUnary _ _ _ inner | PIsNull _ _ _ inner => text_ok inner
  | PBinary _ _ _ l r => text_ok l && text_ok r
  | PBoolChain _ _ _ terms => forallb text_ok terms
  end.
Definition statement_text_ok (s : RenderedStatement) : Prop :=
  Forall (λ n, dollar_free n = true) (statement_names s) ∧ Forall (λ e, text_ok e = true) (value_exprs s ++ clause_exprs s).

(** ** Renumbering is renaming *)
Section renumbering.
Context (m : gmap Z Z) (ρ : Z → Z) (active : gset PlaceholderId) (groups : gset AstId).

Definition numbered (p : PlaceholderRef) : Prop := 0 ≤ ph_slot p < 2 ^ 32 ∧ m !! ph_slot p = Some (ρ (ph_slot p)).

Lemma reads_placeholder_ref p : numbered p → reads m (render_placeholder p) (render_placeholder (rename_placeholder ρ p)).
Proof. intros [Hs Hm]. by apply reads_placeholder. Qed.

Lemma reads_paren s t : reads m s t → reads m ("(" ++ s ++ ")") ("(" ++ t ++ ")").
Proof. intros H. apply reads_pre; [done|]. by apply reads_post. Qed.

Lemma reads_unary op s t : reads m s t → reads m (unary_sql op s) (unary_sql op t).
Proof. intros H. destruct op; (apply reads_pre; [done|]; by apply reads_post). Qed.

Lemma reads_binary op s1 t1 s2 t2 : reads m s1 t1 → reads m s2 t2 → reads m (binary_sql op s1 s2) (binary_sql op t1 t2).
Proof.
  intros H1 H2. unfold binary_sql. apply reads_pre; [done|]. apply reads_mid; [done..|].
  destruct op; (apply reads_pre; [done|]); (apply reads_pre; [done|]); by apply reads_post.
Qed.

Lemma reads_is_null negated s t : reads m s t → reads m (is_null_sql negated s) (is_null_sql negated t).
Proof. intros H. unfold is_null_sql. apply reads_pre; [done|]. apply reads_app; [done| |done]. destruct negated; by apply reads_dollar_free. Qed.

Lemma reads_chain op l l' : Forall2 (reads m) l l' → reads m (chain_sql op l) (chain_sql op l').
Proof. intros H. unfold chain_sql. apply reads_paren. destruct op; by apply reads_join. Qed.

Lemma reads_expr_sql e : text_ok e = true → (∀ p, p ∈ placeholders_of e → numbered p) →
  reads m (render_expr_sql e) (render_expr_sql (rename ρ e)).
Proof.
  induction e as [c|p|l|id span e IH|id span op e IH|id span op l r IHl IHr|id span b e IH|id span op ts IH] using parsed_expr_ind; cbn;
    intros Ht Hp.
  - apply andb_true_iff in Ht as [H1 H2]. apply reads_dollar_free. unfold column_sql. by rewrite !dollar_free_app, H1, H2.
  - apply reads_placeholder_ref, Hp. set_solver.
  - by apply reads_text.
  - by apply reads_paren, IH.
  - by apply reads_unary, IH.
  - apply andb_true_iff in Ht as [Hl Hr]. apply reads_binary; [apply IHl|apply IHr]; try done; set_solver.
  - by apply reads_is_null, IH.
  - apply reads_chain. clear id span. induction IH as [|t ts IHt _ IHts]; cbn in *; [done|].
    apply andb_true_iff in Ht as [Ht1 Ht]. constructor; [apply IHt|apply IHts]; try done; set_solver.
Qed.

Lemma collect_rename e : collect_optional_placeholders_into (rename ρ e) = collect_optional_placeholders_into e.
Proof.
  induction e as [c|p|l|id span e IH|id span op e IH|id span op l r IHl IHr|id span b e IH|id span op ts IH] using parsed_expr_ind; cbn;
    try done; [congruence|]. induction IH as [|t ts IHt _ IHts]; cbn; [done|]. by rewrite IHt, IHts.
Qed.

Lemma group_active_rename e id : group_active active groups (rename ρ e) id = group_active active groups e id.
Proof. unfold group_active, collect_optional_placeholders. by rewrite collect_rename. Qed.

Lemma prune_rename e : prune active groups (rename ρ e) = rename ρ <$> prune active groups e.
Proof.
  induction e as [c|p|l|id span e IH|id span op e IH|id span op l r IHl IHr|id span b e IH|id span op ts IH] using parsed_expr_ind; cbn.
  - done.
  - by destruct (ph_optional p && _).
  - done.
  - rewrite group_active_rename. destruct (group_active active groups e id); [|done]. rewrite IH. by destruct (prune active groups e).
  - rewrite IH. by destruct (prune active groups e).
  - rewrite IHl, IHr. by destruct (prune active groups l), (prune active groups r).
  - rewrite IH. by destruct (prune active groups e).
  - assert (omap (prune active groups) (map (rename ρ) ts) = map (rename ρ) (omap (prune active groups) ts)) as ->.
    { induction IH as [|t ts IHt _ IHts]; cbn; [done|]. rewrite IHt. destruct (prune active groups t); cbn; [by f_equal|done]. }
    by destruct (omap (prune active groups) ts) as [|t [|u us]].
Qed.

Lemma text_ok_prune e e' : text_ok e = true → prune active groups e = Some e' → text_ok e' = true.
Proof.
  revert e'.
  induction e as [c|p|l|id span e IH|id span op e IH|id span op l r IHl IHr|id span b e IH|id span op ts IH] using parsed_expr_ind;
    intros e' Ht; cbn.
  - by intros [= <-].
  - destruct (ph_optional p && _); [done|by intros [= <-]].
  - by intros [= <-].
  - destruct (group_active active groups e id); [|done]. intros (i & Hi & [= <-])%bind_Some. exact (IH _ Ht Hi).
  - intros (i & Hi & [= <-])%bind_Some. exact (IH _ Ht Hi).
  - intros (l' & Hl & (r' & Hr & [= <-])%bind_Some)%bind_Some. cbn in *. apply andb_true_iff in Ht as [Htl Htr].
    by rewrite (IHl l'), (IHr r').
  - intros (i & Hi & [= <-])%bind_Some. exact (IH _ Ht Hi).
  - assert (Hall : forallb text_ok (omap (prune active groups) ts) = true).
    { apply forallb_forall. intros u (t & Ht' & Hu)%list_elem_of_In%list_elem_of_omap. rewrite Forall_forall in IH.
      apply (IH t Ht'); [|done]. cbn in Ht. rewrite forallb_forall in Ht. by apply Ht, list_elem_of_In. }
    destruct (omap (prune active groups) ts) as [|t [|u us]]; [done| |]; intros [= <-]; [|done].
    cbn in Hall. by apply andb_true_iff in Hall as [? _].
Qed.

(** A rendered expression, or nothing, in both. *)
Definition reads_option (o o' : option str) : Prop :=
  match o, o' with Some s, Some t => reads m s t | None, None => True | _, _ => False end.

Lemma reads_expr e : text_ok e = true → (∀ p, p ∈ placeholders_of e → written active p → numbered p) →
  reads_option (render_expr active groups e) (render_expr active groups (rename ρ e)).
Proof.
  intros Ht Hp. rewrite !render_prune, prune_rename. destruct (prune active groups e) as [e'|] eqn:He; cbn; [|done].
  apply reads_expr_sql; [by eapply text_ok_prune|]. intros p Hin. destruct (prune_written _ _ _ _ He p Hin). auto.
Qed.

Definition ok_value (e : ParsedExpr) : Prop := text_ok e = true ∧ ∀ p, p ∈ placeholders_of e → numbered p.
Definition ok_clause (e : ParsedExpr) : Prop := text_ok e = true ∧ ∀ p, p ∈ placeholders_of e → written active p → numbered p.
Definition ok_names (l : list str) : Prop := Forall (λ n, dollar_free n = true) l.

Lemma reads_map {A} (f : A → str) (g : A → A) l : Forall (λ a, reads m (f a) (f (g a))) l → Forall2 (reads m) (map f l) (map f (map g l)).
Proof. induction 1; cbn; by constructor. Qed.

Lemma dollar_free_join sep l : dollar_free sep = true → ok_names l → dollar_free (Text.join sep l) = true.
Proof.
  intros Hs. induction 1 as [|n l Hn Hl IH]; [done|]. destruct l as [|n' l]; [done|].
  change (Text.join sep (n :: n' :: l)) with (n ++ sep ++ Text.join sep (n' :: l)). by rewrite !dollar_free_app, Hn, Hs, IH.
Qed.

Lemma dollar_free_from f : ok_names (from_names f) → dollar_free (render_from f) = true.
Proof.
  intros [Hparts Hname]%Forall_app. rewrite Forall_singleton in Hname. unfold render_from, render_object_name.
  by rewrite !dollar_free_app, dollar_free_join, Hname.
Qed.

Lemma reads_clause kw o o' : dollar_free kw = true → reads_option o o' → reads m (clause kw o) (clause kw o').
Proof. intros Hk Ho. destruct o, o'; try done; [by apply reads_pre|apply reads_nil]. Qed.

Lemma starts_clause kw o : starts_with_digit kw = false → kw ≠ [] → starts_with_digit (clause kw o) = false.
Proof. intros Hd Hne. destruct o; [|done]. by destruct kw. Qed.

Lemma is_column_rename e n : is_column_named (rename ρ e) n = is_column_named e n.
Proof. by destruct e. Qed.

Lemma reads_projection p : ok_names (output_names p) → ok_value (proj_expr p) →
  reads m (render_projection p) (render_projection (rename_projection ρ p)).
Proof.
  intros Hn [Ht Hp]. unfold ok_names, render_projection, output_names in *. cbn [proj_expr output_name rename_projection].
  pose proof (reads_expr_sql _ Ht Hp) as He. destruct (output_name p) as [i|i|]; [| |done].
  - rewrite Forall_singleton in Hn. apply reads_post; [done| |done]. by rewrite dollar_free_app, Hn.
  - rewrite Forall_singleton in Hn. rewrite is_column_rename. destruct (is_column_named _ _); [done|].
    apply reads_post; [done| |done]. by rewrite dollar_free_app, Hn.
Qed.

Lemma reads_projections ps : ok_names (concat (map output_names ps)) → Forall ok_value (map proj_expr ps) →
  reads m (Text.join ", " (map render_projection ps)) (Text.join ", " (map render_projection (map (rename_projection ρ) ps))).
Proof.
  intros Hn Hv. apply reads_join; [done..|]. apply reads_map. induction ps as [|p ps IH]; [done|]. cbn in *.
  apply Forall_app in Hn as [Hn1 Hn]. apply Forall_cons in Hv as [Hv1 Hv]. constructor; [by apply reads_projection|by apply IH].
Qed.

Lemma reads_returning ps : ok_names (concat (map output_names ps)) → Forall ok_value (map proj_expr ps) →
  reads m (render_returning ps) (render_returning (map (rename_projection ρ) ps)).
Proof.
  intros Hn Hv. pose proof (reads_projections ps Hn Hv) as H. destruct ps as [|p ps]; [apply reads_nil|]. by apply reads_pre.
Qed.

Lemma starts_returning ps : starts_with_digit (render_returning ps) = false.
Proof. by destruct ps. Qed.

Lemma reads_where f : ok_clause f → reads m (render_where active groups f) (render_where active groups (rename ρ f)).
Proof. intros [Ht Hp]. apply reads_clause; [done|]. by apply reads_expr. Qed.

Lemma starts_where f : starts_with_digit (render_where active groups f) = false.
Proof. by apply starts_clause. Qed.

Lemma reads_join_clause j : ok_names (from_names (join_right j)) → ok_clause (join_on j) →
  reads m (render_join active groups j) (render_join active groups (rename_join ρ j)).
Proof.
  intros Hn [Ht Hp]. unfold render_join. cbn [join_kind join_right join_on rename_join].
  apply reads_pre; [done|]. apply reads_pre; [by destruct (join_kind j)|]. apply reads_pre; [done|].
  apply reads_pre; [by apply dollar_free_from|]. apply reads_pre; [done|].
  pose proof (reads_expr _ Ht Hp) as H. destruct (render_expr active groups (join_on j)), (render_expr active groups (rename ρ (join_on j)));
    try done. by apply reads_dollar_free.
Qed.

Lemma reads_order_by o : ok_clause (ob_expr o) →
  reads_option (render_order_by_item active groups o) (render_order_by_item active groups (rename_order_by ρ o)).
Proof.
  intros [Ht Hp]. unfold render_order_by_item. cbn [ob_expr ob_direction ob_nulls rename_order_by].
  pose proof (reads_expr _ Ht Hp) as H. destruct (render_expr active groups (ob_expr o)), (render_expr active groups (rename ρ (ob_expr o)));
    try done. cbn. apply reads_app; [done| |by destruct (ob_direction o), (ob_nulls o) as [[]|]].
  apply reads_dollar_free. by destruct (ob_direction o), (ob_nulls o) as [[]|].
Qed.

Lemma reads_omap {A} (f : A → option str) (g : A → A) l :
  Forall (λ a, reads_option (f a) (f (g a))) l → Forall2 (reads m) (omap f l) (omap f (map g l)).
Proof.
  induction 1 as [|a l Ha _ IH]; cbn; [done|]. destruct (f a), (f (g a)); try done. by constructor.
Qed.

Lemma reads_order_bys l : Forall ok_clause (map ob_expr l) →
  let items l := match omap (render_order_by_item active groups) l with [] => ""%s | items => " ORDER BY " ++ Text.join ", " items end in
  reads m (items l) (items (map (rename_order_by ρ) l)).
Proof.
  intros Hl. assert (Hitems := reads_omap (render_order_by_item active groups) (rename_order_by ρ) l). ospecialize (Hitems _).
  { rewrite Forall_map in Hl. eapply Forall_impl; [exact Hl|]. intros o. apply reads_order_by. }
  cbv zeta beta. destruct Hitems as [|s t l1 l2 Hst Hrest]; [apply reads_nil|]. apply reads_pre; [done|]. apply reads_join; try done. by constructor.
Qed.

Lemma reads_row r : Forall ok_value (row_values r) → reads m (render_values_row r) (render_values_row (rename_row ρ r)).
Proof.
  intros Hv. apply reads_paren. cbn [row_values rename_row]. apply reads_join; [done..|]. apply reads_map.
  eapply Forall_impl; [exact Hv|]. intros e [Ht Hp]. by apply reads_expr_sql.
Qed.

Lemma reads_assignment a : ok_names (target_names (as_target a)) → ok_value (as_value a) →
  reads m (render_assignment a) (render_assignment (rename_assignment ρ a)).
Proof.
  intros Hn [Ht Hp]. unfold render_assignment, rename_assignment. cbn [as_target as_value]. apply reads_pre.
  { unfold ok_names, target_names, render_assignment_target in *. destruct (at_binding (as_target a)) as [b|].
    - apply Forall_app in Hn as [Hb Hn]. cbn in Hb. rewrite Forall_singleton in Hb, Hn. by rewrite !dollar_free_app, Hb, Hn.
    - apply Forall_app in Hn as [_ Hn]. by rewrite Forall_singleton in Hn. }
  apply reads_pre; [done|]. by apply reads_expr_sql.
Qed.

Lemma reads_optional_clause {A} kw (expr : A → ParsedExpr) (g : A → A) (o : option A) : dollar_free kw = true →
  (∀ a, expr (g a) = rename ρ (expr a)) → Forall ok_clause (option_list (expr <$> o)) →
  reads m (clause kw (a ← o; render_expr active groups (expr a))) (clause kw (a ← g <$> o; render_expr active groups (expr a))).
Proof.
  intros Hk Hg Ho. apply reads_clause; [done|]. destruct o as [a|]; [|done]. cbn in *. rewrite Forall_singleton in Ho.
  destruct Ho as [Ht Hp]. rewrite Hg. by apply reads_expr.
Qed.

Lemma reads_insert i : ok_names (statement_names (RenderInsert i)) → Forall ok_value (value_exprs (RenderInsert i)) →
  reads m (render active groups (RenderInsert i)) (render active groups (rename_statement ρ (RenderInsert i))).
Proof.
  cbn [statement_names value_exprs render rename_statement]. intros [Hfrom [Hcols Hout]%Forall_app]%Forall_app [Hrows Hret]%Forall_app.
  unfold render_insert. cbn [ins_target ins_columns ins_values ins_returning].
  apply reads_pre; [done|]. apply reads_pre; [by apply dollar_free_from|]. apply reads_pre.
  { assert (Hj := dollar_free_join ", " _ eq_refl Hcols). destruct (ins_columns i); [done|]. by rewrite !dollar_free_app, Hj. }
  apply reads_pre; [done|]. apply reads_app; [|by apply reads_returning|apply starts_returning].
  apply reads_join; [done..|]. apply reads_map. clear -Hrows. induction (ins_values i) as [|r rs IH]; [done|].
  cbn in Hrows. apply Forall_app in Hrows as [Hr Hrs]. constructor; [by apply reads_row|by apply IH].
Qed.

Lemma reads_update u : ok_names (statement_names (RenderUpdate u)) → Forall ok_value (value_exprs (RenderUpdate u)) → ok_clause (upd_filter u) →
  reads m (render active groups (RenderUpdate u)) (render active groups (rename_statement ρ (RenderUpdate u))).
Proof.
  cbn [statement_names value_exprs render rename_statement]. intros [Hfrom [Htgt Hout]%Forall_app]%Forall_app [Hset Hret]%Forall_app Hf.
  unfold render_update. cbn [upd_target upd_assignments upd_filter upd_returning].
  apply reads_pre; [done|]. apply reads_pre; [by apply dollar_free_from|]. apply reads_pre; [done|].
  apply reads_app; [|apply reads_app; [by apply reads_where|by apply reads_returning|apply starts_returning]|
    apply starts_app; [apply starts_where|apply starts_returning]].
  apply reads_join; [done..|]. apply reads_map. clear -Hset Htgt. induction (upd_assignments u) as [|a l IH]; [done|].
  cbn in *. apply Forall_cons in Hset as [Ha Hl]. apply Forall_app in Htgt as [Hta Htl]. constructor; [by apply reads_assignment|by apply IH].
Qed.

Lemma reads_delete d : ok_names (statement_names (RenderDelete d)) → Forall ok_value (value_exprs (RenderDelete d)) → ok_clause (del_filter d) →
  reads m (render active groups (RenderDelete d)) (render active groups (rename_statement ρ (RenderDelete d))).
Proof.
  cbn [statement_names value_exprs render rename_statement]. intros [Hfrom Hout]%Forall_app Hret Hf.
  unfold render_delete. cbn [del_target del_filter del_returning].
  apply reads_pre; [done|]. apply reads_pre; [by apply dollar_free_from|].
  apply reads_app; [by apply reads_where|by apply reads_returning|apply starts_returning].
Qed.

Lemma starts_concat l : Forall (λ s, starts_with_digit s = false) l → starts_with_digit (concat l) = false.
Proof. induction 1; cbn; [done|by apply starts_app]. Qed.

Lemma reads_select s : ok_names (statement_names (RenderSelect s)) → Forall ok_value (value_exprs (RenderSelect s)) →
  Forall ok_clause (clause_exprs (RenderSelect s)) →
  reads m (render active groups (RenderSelect s)) (render active groups (rename_statement ρ (RenderSelect s))).
Proof.
  cbn [statement_names value_exprs clause_exprs render rename_statement].
  intros [Hout [Hfrom Hjn]%Forall_app]%Forall_app Hv [Hjoin [Hfilter [Hob [Hlim Hoff]%Forall_app]%Forall_app]%Forall_app]%Forall_app.
  unfold render_select. cbn [sel_projections sel_from sel_joins sel_filter sel_order_by sel_limit sel_offset].
  assert (Hd1 : ∀ o, starts_with_digit (clause " LIMIT " o) = false) by (intros o; by apply starts_clause).
  assert (Hd2 : ∀ o, starts_with_digit (clause " OFFSET " o) = false) by (intros o; by apply starts_clause).
  apply reads_pre; [done|]. apply reads_mid; [by apply reads_projections|done..|]. apply reads_pre; [by apply dollar_free_from|].
  assert (Hj : Forall2 (reads m) (map (render_join active groups) (sel_joins s))
    (map (render_join active groups) (map (rename_join ρ) (sel_joins s)))).
  { apply reads_map. clear -Hjn Hjoin. induction (sel_joins s) as [|j js IH]; [done|]. cbn in *.
    apply Forall_app in Hjn as [Hn Hjn]. apply Forall_cons in Hjoin as [Hj Hjoin]. constructor; [by apply reads_join_clause|by apply IH]. }
  assert (Htail : reads m (clause " LIMIT " (l ← sel_limit s; render_expr active groups (limit_expr l)) ++ clause " OFFSET " (o ← sel_offset s; render_expr active groups (offset_expr o)))
     (clause " LIMIT " (l ← rename_limit ρ <$> sel_limit s; render_expr active groups (limit_expr l)) ++ clause " OFFSET " (o ← rename_offset ρ <$> sel_offset s; render_expr active groups (offset_expr o)))).
  { apply reads_app; [by apply reads_optional_clause|by apply reads_optional_clause|apply Hd2]. }
  apply reads_app; [apply reads_concat; [done|by apply Forall_map, Forall_true]| |].
  - apply reads_app; [destruct (sel_filter s) as [f|]; cbn; [by apply reads_where; rewrite <- Forall_singleton|apply reads_nil]| |].
    + apply reads_app; [by apply reads_order_bys|done|by apply starts_app].
    + apply starts_app; [by destruct (omap _ (sel_order_by s))|by apply starts_app].
  - apply starts_app; [destruct (sel_filter s); [apply starts_where|done]|].
    apply starts_app; [by destruct (omap _ (sel_order_by s))|by apply starts_app].
Qed.

(** Renumbering the text of a statement is writing the statement with its slots renamed. *)
Lemma reads_statement s : ok_names (statement_names s) → Forall ok_value (value_exprs s) → Forall ok_clause (clause_exprs s) →
  reads m (render active groups s) (render active groups (rename_statement ρ s)).
Proof.
  destruct s as [s|i|u|d]; intros Hn Hv Hc.
  - by apply reads_select.
  - by apply reads_insert.
  - apply reads_update; [done..|]. by rewrite <- Forall_singleton.
  - apply reads_delete; [done..|]. by rewrite <- Forall_singleton.
Qed.

Lemma renumber_statement s : ok_names (statement_names s) → Forall ok_value (value_exprs s) → Forall ok_clause (clause_exprs s) →
  renumber_slots (length (render active groups s)) m (render active groups s) = Some (render active groups (rename_statement ρ s)).
Proof.
  intros Hn Hv Hc. destruct (reads_statement s Hn Hv Hc (length (render active groups s)) []) as (fuel & _ & Heq);
    [done|by rewrite app_nil_r|]. rewrite app_nil_r in Heq. rewrite Heq. destruct fuel; cbn; by rewrite app_nil_r.
Qed.
End renumbering.

(** Renaming that changes nothing. *)
Section rename_same.
Context (ρ : Z → Z) (Hρ : ∀ s, ρ s = s).

Lemma map_same {A} (f : A → A) l : (∀ a, f a = a) → map f l = l.
Proof. intros Hf. induction l; cbn; congruence. Qed.
Lemma option_same {A} (f : A → A) (o : option A) : (∀ a, f a = a) → f <$> o = o.
Proof. intros Hf. destruct o; cbn; congruence. Qed.

Lemma rename_same e : rename ρ e = e.
Proof.
  induction e as [c|p|l|id span e IH|id span op e IH|id span op l r IHl IHr|id span b e IH|id span op ts IH] using parsed_expr_ind; cbn; try congruence.
  - unfold rename_placeholder. rewrite Hρ. by destruct p.
  - f_equal. induction IH; cbn; congruence.
Qed.

Lemma rename_statement_same s : rename_statement ρ s = s.
Proof.
  assert (Hp : ∀ p, rename_projection ρ p = p) by (intros []; unfold rename_projection; cbn; by rewrite rename_same).
  assert (Hj : ∀ j, rename_join ρ j = j) by (intros []; unfold rename_join; cbn; by rewrite rename_same).
  assert (Ho : ∀ o, rename_order_by ρ o = o) by (intros []; unfold rename_order_by; cbn; by rewrite rename_same).
  assert (Hl : ∀ l, rename_limit ρ l = l) by (intros []; unfold rename_limit; cbn; by rewrite rename_same).
  assert (Hf : ∀ o, rename_offset ρ o = o) by (intros []; unfold rename_offset; cbn; by rewrite rename_same).
  assert (Hr : ∀ r, rename_row ρ r = r) by (intros []; unfold rename_row; cbn; by rewrite (map_same _ _ rename_same)).
  assert (Ha : ∀ a, rename_assignment ρ a = a) by (intros []; unfold rename_assignment; cbn; by rewrite rename_same).
  destruct s as [[]|[]|[]|[]]; cbn; rewrite ?(map_same _ _ Hp), ?(map_same _ _ Hj), ?(map_same _ _ Ho), ?(map_same _ _ Hr), ?(map_same _ _ Ha),
    ?(option_same _ _ Hl), ?(option_same _ _ Hf), ?(option_same _ _ rename_same), ?rename_same; done.
Qed.
End rename_same.

(** ** The variants of a query *)

Lemma slot_map_lookup l i s : NoDup l → l !! i = Some s → slot_map l !! s = Some (Z.of_nat i + 1).
Proof.
  intros Hnd Hi. unfold slot_map. apply elem_of_list_to_map_1.
  - rewrite fmap_reverse, reverse_Permutation. replace (fst <$> imap _ l) with l; [done|]. apply list_eq. intros j.
    rewrite list_lookup_fmap, list_lookup_imap. by destruct (l !! j).
  - apply elem_of_reverse, elem_of_lookup_imap. by exists i, s.
Qed.

(** Every row of flags is that of one mask. *)
Lemma mask_flags_all bs : ∃ mask, (mask < 2 ^ length bs)%nat ∧ mask_flags (length bs) mask = bs.
Proof.
  induction bs as [|b bs (mask & Hlt & Heq)]; [exists 0%nat; cbn; split; [lia|done]|].
  exists (2 * mask + Nat.b2n b)%nat. split.
  { cbn [length]. rewrite Nat.pow_succ_r'. destruct b; cbn [Nat.b2n]; lia. }
  unfold mask_flags in *. cbn [length seq map]. rewrite Nat.testbit_0_r. f_equal. rewrite <- seq_shift, map_map.
  rewrite <- Heq at 2. apply map_ext. intros i. apply Nat.testbit_succ_r.
Qed.

Lemma mask_flags_length n mask : length (mask_flags n mask) = n.
Proof. unfold mask_flags. by rewrite length_map, length_seq. Qed.

Section indexes.
Context {A} (keep : A → bool).
Definition kept_indexes (l : list A) : list nat := omap (λ x, if keep x.2 then Some x.1 else None) (imap pair l).

Lemma omap_fst_sublist (l : list (nat * A)) : omap (λ x, if keep x.2 then Some x.1 else None) l `sublist_of` map fst l.
Proof. induction l as [|[i a] l IH]; cbn; [done|]. destruct (keep a); by constructor. Qed.

Lemma kept_NoDup l : NoDup (kept_indexes l).
Proof.
  eapply sublist_NoDup; [|apply omap_fst_sublist]. replace (map fst (imap pair l)) with (seq 0 (length l)); [apply NoDup_seq|].
  apply list_eq. intros i. change (map fst (imap pair l)) with (fst <$> imap pair l). rewrite list_lookup_fmap, list_lookup_imap.
  destruct (l !! i) as [a|] eqn:Hi; cbn.
  - apply lookup_seq. split; [lia|]. by eapply lookup_lt_Some.
  - apply lookup_seq_ge. by apply lookup_ge_None_1.
Qed.

Lemma elem_of_kept l i : i ∈ kept_indexes l ↔ ∃ a, l !! i = Some a ∧ keep a = true.
Proof.
  unfold kept_indexes. rewrite list_elem_of_omap. split.
  - intros ([j a] & Hin & Hk). apply elem_of_lookup_imap in Hin as (j' & a' & [= -> ->] & Ha). cbn in Hk.
    destruct (keep a') eqn:Hka; [|done]. injection Hk as ->. eauto.
  - intros (a & Ha & Hk). exists (i, a). cbn. rewrite Hk. split; [|done]. apply elem_of_lookup_imap. eauto.
Qed.
End indexes.

(** What the lowering of a checked statement provides: parameters with ids and positions of
    their own, each [u32], text that is not taken for a placeholder, and, for every placeholder
    of the statement, its parameter; those of expressions that are always written are mandatory. *)
Record lowered_wf (q : LoweredQuery) : Prop := {
  wf_positions : NoDup (map lp_position (lq_parameters q));
  wf_range : Forall (λ p, 0 ≤ lp_position p < 2 ^ 32) (lq_parameters q);
  wf_text : statement_text_ok (lq_renderer q);
  wf_bound : ∀ p, p ∈ statement_placeholders (lq_renderer q) →
    ∃ i lp, lq_parameters q !! i = Some lp ∧ lp_id lp = placeholder_id p ∧ lp_position lp = ph_slot p ∧ lp_optional lp = ph_optional p;
  wf_values : ∀ e p, e ∈ value_exprs (lq_renderer q) → p ∈ placeholders_of e → ph_optional p = false;
}.

Section variants.
Context (q : LoweredQuery) (Hwf : lowered_wf q).

(** The slots of the arguments a variant sends, and their numbers. *)
Definition active_slots (active : gset PlaceholderId) : list Z :=
  omap (λ i, lp_position <$> lq_parameters q !! i) (active_indexes q active).
Definition slot_number (active : gset PlaceholderId) (slot : Z) : Z := default slot (slot_map (active_slots active) !! slot).

Definition sent (active : gset PlaceholderId) (p : LoweredParameter) : bool := negb (lp_optional p) || bool_decide (lp_id p ∈ active).

Lemma elem_of_active active i : i ∈ active_indexes q active ↔ ∃ p, lq_parameters q !! i = Some p ∧ sent active p = true.
Proof. apply (elem_of_kept (sent active)). Qed.

Lemma active_slots_lookup active k i p : active_indexes q active !! k = Some i → lq_parameters q !! i = Some p →
  active_slots active !! k = Some (lp_position p).
Proof.
  intros Hk Hp. unfold active_slots.
  rewrite (omap_all _ (λ i, default 0 (lp_position <$> lq_parameters q !! i))).
  - change (map ?f ?l) with (f <$> l). by rewrite list_lookup_fmap, Hk; cbn; rewrite Hp.
  - apply Forall_forall. intros j (p' & Hj & _)%elem_of_active. by rewrite Hj.
Qed.

Lemma active_slots_NoDup active : NoDup (active_slots active).
Proof.
  unfold active_slots. rewrite (omap_all _ (λ i, default 0 (lp_position <$> lq_parameters q !! i))).
  2: { apply Forall_forall. intros j (p' & Hj & _)%elem_of_active. by rewrite Hj. }
  apply (NoDup_fmap_2_strong (λ i, default 0 (lp_position <$> lq_parameters q !! i))); [|apply (kept_NoDup (sent active))].
  intros i j (pi & Hi & _)%elem_of_active (pj & Hj & _)%elem_of_active. rewrite Hi, Hj. cbn. intros Heq.
  eapply NoDup_lookup; [apply (wf_positions q Hwf)| |]; change (map ?f ?l) with (f <$> l); rewrite list_lookup_fmap;
    [by rewrite Hi|rewrite Hj; cbn; by rewrite Heq].
Qed.

(** A placeholder that is written is given the place of its argument. *)
Lemma written_numbered active p : p ∈ statement_placeholders (lq_renderer q) → written active p →
  ∃ k i lp, active_indexes q active !! k = Some i ∧ lq_parameters q !! i = Some lp ∧ lp_id lp = placeholder_id p ∧
    0 ≤ ph_slot p < 2 ^ 32 ∧ slot_map (active_slots active) !! ph_slot p = Some (Z.of_nat k + 1).
Proof.
  intros Hin Hw. destruct (wf_bound q Hwf p Hin) as (i & lp & Hi & Hid & Hpos & Hopt).
  assert (i ∈ active_indexes q active) as (k & Hk)%list_elem_of_lookup.
  { apply elem_of_active. exists lp. split; [done|]. unfold sent. rewrite Hopt, Hid.
    destruct Hw as [->|Ha]; [done|]. rewrite bool_decide_eq_true_2 by done. apply orb_true_r. }
  pose proof (Forall_lookup_1 _ _ _ _ (wf_range q Hwf) Hi) as [Hlo Hhi]. rewrite Hpos in Hlo, Hhi.
  exists k, i, lp. split_and!; try done.
  - rewrite <- Hpos. apply slot_map_lookup; [apply active_slots_NoDup|]. by eapply active_slots_lookup.
Qed.

(** The SQL of a variant. *)
Lemma renumber_variant active groups :
  renumber_sql_placeholders (render active groups (lq_renderer q)) (active_slots active) =
  Some (render active groups (rename_statement (slot_number active) (lq_renderer q))).
Proof.
  assert (Hnum : ∀ e p, e ∈ value_exprs (lq_renderer q) ++ clause_exprs (lq_renderer q) → p ∈ placeholders_of e → written active p →
    numbered (slot_map (active_slots active)) (slot_number active) p).
  { intros e p He Hp Hw. destruct (written_numbered active p) as (k & i & lp & Hk & Hi & Hid & Hs & Hm); [|done|].
    - apply elem_of_concat_map. eauto.
    - split; [done|]. unfold slot_number. by rewrite Hm. }
  destruct (wf_text q Hwf) as [Hnames Htext]. rewrite Forall_forall in Htext.
  unfold renumber_sql_placeholders. destruct (active_slots active) as [|s l] eqn:Hl.
  { rewrite rename_statement_same; [done|]. intros s. unfold slot_number. by rewrite Hl. }
  apply renumber_statement; [done| |]; apply Forall_forall; intros e He.
  - split; [apply Htext; set_solver|]. intros p Hp. apply (Hnum e); [set_solver|done|]. left. by eapply (wf_values q Hwf).
  - split; [apply Htext; set_solver|]. intros p Hp Hw. apply (Hnum e); [set_solver|done..].
Qed.

Definition total_flags : nat := (length (optional_parameters q) + length (lq_toggle_group_ids q))%nat.

Lemma shape_of_ok present toggles : length present = length (optional_parameters q) →
  let active := flagged present (map snd (optional_parameters q)) in
  shape_of q (present ++ toggles) =
  Some (mk_shape (present ++ toggles)
    (render active (flagged toggles (lq_toggle_group_ids q)) (rename_statement (slot_number active) (lq_renderer q)))
    (active_indexes q active)).
Proof.
  intros Hp. cbv zeta. unfold shape_of. rewrite length_map, take_app_length', drop_app_length' by done.
  fold (active_slots (flagged present (map snd (optional_parameters q)))). by rewrite renumber_variant.
Qed.

Lemma shape_of_flags flags shape : shape_of q flags = Some shape → sh_flags shape = flags.
Proof. unfold shape_of. cbv zeta. by intros (sql & _ & [= <-])%bind_Some. Qed.

Lemma shape_of_total flags : length flags = total_flags → is_Some (shape_of q flags).
Proof.
  intros Hl. rewrite <- (take_drop (length (optional_parameters q)) flags). eexists. apply shape_of_ok.
  rewrite length_take. unfold total_flags in Hl. lia.
Qed.

Lemma runtime_shapes : ∃ shapes, runtime_sql_shapes q = Some shapes ∧ length shapes = (2 ^ total_flags)%nat ∧
  Forall2 (λ mask shape, shape_of q (mask_flags total_flags mask) = Some shape) (seq 0 (2 ^ total_flags)) shapes.
Proof.
  destruct (mapM (λ mask, shape_of q (mask_flags total_flags mask)) (seq 0 (2 ^ total_flags))) as [shapes|] eqn:Hm.
  - exists shapes. pose proof (mapM_Some_1 _ _ _ Hm) as Hf. split_and!; [done| |done].
    by rewrite <- (Forall2_length _ _ _ Hf), length_seq.
  - exfalso. apply mapM_None_1 in Hm. apply Exists_exists in Hm as (mask & _ & Hnone).
    destruct (shape_of_total (mask_flags total_flags mask)) as [? ?]; [apply mask_flags_length|congruence].
Qed.

Lemma select_unique shapes flags : length flags = total_flags →
  Forall2 (λ mask shape, shape_of q (mask_flags total_flags mask) = Some shape) (seq 0 (2 ^ total_flags)) shapes →
  ∃ i shape, list_find (λ s, sh_flags s = flags) shapes = Some (i, shape) ∧ shape_of q flags = Some shape.
Proof.
  intros Hl Hall. destruct (mask_flags_all flags) as (mask & Hlt & Hmask). rewrite Hl in Hlt, Hmask.
  destruct (Forall2_lookup_l _ _ _ mask mask Hall) as (shape & Hs & Hshape); [by apply lookup_seq|].
  rewrite Hmask in Hshape. destruct (list_find_elem_of (λ s, sh_flags s = flags) shapes shape) as [[i found] Hfind].
  - by eapply list_elem_of_lookup_2.
  - by apply shape_of_flags.
  - exists i, found. split; [done|]. apply list_find_Some in Hfind as (Hi & <- & _).
    destruct (Forall2_lookup_r _ _ _ _ _ Hall Hi) as (mask' & _ & Hf). by rewrite (shape_of_flags _ _ Hf).
Qed.
End variants.


Section example.
Definition at_0 : SourceSpan := mk_span 0 0.
Definition name_of (s : str) : IdentSyntax := mk_ident s at_0.
Definition column_of (b c : str) : ParsedExpr := PColumn (mk_column_ref 0 at_0 (name_of b) (name_of c)).
Definition slot_of (id : Z) (n : str) (optional : bool) : ParsedExpr := PPlaceholder (mk_placeholder 0 at_0 id n (id + 1) optional).
Definition equals (l r : ParsedExpr) : ParsedExpr := PBinary 0 at_0 Eq l r.

(** [SELECT u.id FROM users AS u WHERE u.name = $name? AND u.team = $team AND (u.active)?] *)
Definition example_select : ParsedSelect :=
  mk_select 0 at_0 [mk_projection 0 at_0 (column_of "u" "id") (ImplicitName (name_of "id"))]
    (mk_from 0 at_0 (mk_object_name [name_of "users"] at_0) (name_of "u")) []
    (Some (PBoolChain 0 at_0 And [equals (column_of "u" "name") (slot_of 0 "name" true); equals (column_of "u" "team") (slot_of 1 "team" false);
                                  POptionalGroup 7 at_0 (column_of "u" "active")]))
    [] None None.
Definition example_query : LoweredQuery :=
  mk_lowered "" [mk_lowered_parameter 0 "name" 1 TText NonNull true RCText; mk_lowered_parameter 1 "team" 2 TInt4 NonNull false RCInt4]
    [mk_lowered_column "id" TInt4 NonNull RCInt4] (RenderSelect example_select) [7].

Lemma example_wf : lowered_wf example_query.
Proof.
  split.
  - by apply (bool_decide_eq_true_1 _); vm_compute.
  - repeat constructor; cbn; lia.
  - split; repeat constructor.
  - cbn [lq_renderer example_query]. intros p Hp. unfold statement_placeholders in Hp. cbn in Hp.
    apply elem_of_cons in Hp as [Hp|Hp%list_elem_of_singleton]; subst p; [exists 0%nat|exists 1%nat]; eexists; by split_and!.
  - intros e p He Hp. apply list_elem_of_singleton in He as ->. by apply elem_of_nil in Hp.
Qed.

(** Without a name and with the group on, the one argument sent is the second, as [$1]. *)
Example example_variant : select_shape (default [] (runtime_sql_shapes example_query)) [false] [true] =
  Some (mk_shape [false; true] "SELECT u.id FROM users AS u WHERE ((u.team = $1) AND (u.active))" [1%nat]).
Proof. vm_compute. reflexivity. Qed.

End example.


