(* ===== verification/Normalize.v ===== *)
(** * Typed SQL: from the parser's syntax tree to the parsed statement

    [crates/macros/src/typed_sql/normalize.rs] and [parse_statement] of [parse_backend.rs].  The
    [sqlparser] crate parses the canonical text; the normaliser refuses what typed SQL does not
    support, turns the rest into the trees of [SqlIr.v], allocating an id for every node, and
    gives placeholders and optional groups their owners.

    The types of the first part are the crate's syntax trees as far as the normaliser looks at
    them: a node has the span the crate reports for it, alternatives that are matched only to be
    refused are one constructor, and a field of which only the presence is tested is a boolean.
    The quoted forms of string literals, which are all treated alike, are one constructor.  Ids,
    [u32] in the source, are integers: an id is allocated per node of a text shorter than 2^32. *)
From S2P Require Import Prelude Text SqlIr SqlSource Resolver Lower.

Local Open Scope Z_scope.
Local Open Scope str_scope.

(** ** The parser's trees *)
Record PSpan := mk_pspan { sp_from : Location; sp_to : Location }.
Record SpIdent := mk_sp_ident { id_value : str; id_sp : PSpan }.
Inductive ObjectNamePart := NIdent (i : SpIdent) | NFunction.
Record ObjectName := mk_sp_name { on_parts : list ObjectNamePart; on_sp : PSpan }.

Inductive BinaryOperator := BoAnd | BoOr | BoEq | BoNotEq | BoLt | BoLtEq | BoGt | BoGtEq | BoOther.
#[export] Instance BinaryOperator_eq_dec : EqDecision BinaryOperator.
Proof. solve_decision. Defined.
Inductive UnaryOperator := UoNot | UoPlus | UoMinus | UoOther.
Inductive SpValue :=
  | VPlaceholder (token : str) | VNumber (number : str) | VString (text : str) | VBoolean (b : bool) | VNull | VOther.

Inductive SpExpr :=
  | ECompound (parts : list SpIdent) (sp : PSpan)
  | EIdentifier (sp : PSpan)
  | EValue (v : SpValue) (sp : PSpan)
  | EUnary (op : UnaryOperator) (inner : SpExpr) (sp : PSpan)
  | EBinary (left : SpExpr) (op : BinaryOperator) (right : SpExpr) (sp : PSpan)
  | EIsNull (inner : SpExpr) (sp : PSpan)
  | EIsNotNull (inner : SpExpr) (sp : PSpan)
  | ENested (inner : SpExpr) (sp : PSpan)
  | EOther (sp : PSpan).

Definition expr_sp (e : SpExpr) : PSpan :=
  match e with
  | ECompound _ sp | EIdentifier sp | EValue _ sp | EUnary _ _ sp | EBinary _ _ _ sp
  | EIsNull _ sp | EIsNotNull _ sp | ENested _ sp | EOther sp => sp
  end.

Record TableAlias := mk_alias { al_name : SpIdent; al_columns : bool; al_sp : PSpan }.
(** [tf_extras]: one of [args], [with_hints], [version], [with_ordinality], [partitions],
    [json_path], [sample] and [index_hints] is given. *)
Inductive TableFactor :=
  | TFTable (name : ObjectName) (alias : option TableAlias) (tf_extras : bool) (sp : PSpan)
  | TFOther (sp : PSpan).
Definition factor_sp (t : TableFactor) : PSpan := match t with TFTable _ _ _ sp | TFOther sp => sp end.

Inductive JoinConstraint := JcOn (e : SpExpr) | JcOther.
Inductive JoinOperator :=
  | JoJoin (c : JoinConstraint) | JoInner (c : JoinConstraint) | JoLeft (c : JoinConstraint) | JoLeftOuter (c : JoinConstraint)
  | JoRight (c : JoinConstraint) | JoRightOuter (c : JoinConstraint) | JoFullOuter (c : JoinConstraint) | JoOther.
Record SpJoin := mk_sp_join { jn_global : bool; jn_operator : JoinOperator; jn_relation : TableFactor; jn_sp : PSpan }.
Record TableWithJoins := mk_twj { twj_relation : TableFactor; twj_joins : list SpJoin }.

Inductive SelectItem :=
  | SiUnnamed (e : SpExpr) (sp : PSpan) | SiAlias (e : SpExpr) (alias : SpIdent) (sp : PSpan) | SiWildcard (sp : PSpan).

(** [ss_extras]: one of the features [reject_select_features] lists after [DISTINCT] is used. *)
Record SpSelect := mk_sp_select {
  ss_distinct : bool; ss_extras : bool; ss_projection : list SelectItem; ss_from : list TableWithJoins;
  ss_selection : option SpExpr; ss_sp : PSpan;
}.
Inductive SetExpr := SeSelect (s : SpSelect) | SeValues (rows : list (list SpExpr)) (sp : PSpan) | SeOther.

Record OrderByExpr := mk_sp_order { oe_with_fill : bool; oe_expr : SpExpr; oe_asc : option bool; oe_nulls_first : option bool; oe_sp : PSpan }.
Inductive OrderBy := ObExpressions (items : list OrderByExpr) | ObAll (sp : PSpan).
Record SpOffset := mk_sp_offset { of_value : SpExpr; of_sp : PSpan }.
Inductive LimitClause :=
  | LcLimitOffset (limit : option SpExpr) (offset : option SpOffset) (limit_by : bool) (sp : PSpan)
  | LcOffsetComma (sp : PSpan).

Record SpQuery := mk_sp_query {
  q_with : bool; q_fetch : bool; q_locks : bool; q_for : bool; q_extras : bool;
  q_body : SetExpr; q_order_by : option OrderBy; q_limit : option LimitClause; q_sp : PSpan;
}.

Inductive TableObject := ToTable (name : ObjectName) | ToOther.
(** [si_extras]: one of the features [reject_insert_features] lists first is used. *)
Record SpInsert := mk_sp_insert {
  si_extras : bool; si_on : bool; si_table : TableObject; si_alias : option SpIdent; si_columns : list SpIdent;
  si_source : option SpQuery; si_returning : option (list SelectItem); si_sp : PSpan;
}.
Inductive AssignmentTarget := AtColumn (name : ObjectName) | AtTuple.
Record SpAssignment := mk_sp_assignment { sa_target : AssignmentTarget; sa_value : SpExpr; sa_sp : PSpan }.
Record SpUpdate := mk_sp_update {
  su_extras : bool; su_from : bool; su_table : TableWithJoins; su_assignments : list SpAssignment;
  su_selection : option SpExpr; su_returning : option (list SelectItem); su_sp : PSpan;
}.
Record SpDelete := mk_sp_delete {
  sd_extras : bool; sd_using : bool; sd_from : list TableWithJoins; sd_selection : option SpExpr;
  sd_returning : option (list SelectItem); sd_sp : PSpan;
}.
Inductive SpStatement := StQuery (q : SpQuery) | StInsert (i : SpInsert) | StUpdate (u : SpUpdate) | StDelete (d : SpDelete) | StOther.

(** ** Contexts *)
Inductive ExprContext := CtxProjection | CtxPredicate | CtxComparisonOperand | CtxNestedComparisonOperand | CtxOrderBy | CtxLimit | CtxOffset.

Definition allows_optional_placeholder (c : ExprContext) : bool :=
  match c with CtxComparisonOperand | CtxLimit | CtxOffset => true | _ => false end.
Definition allows_optional_group (c : ExprContext) : bool :=
  match c with CtxPredicate | CtxOrderBy => true | _ => false end.
Definition comparison_operand_context (c : ExprContext) : ExprContext :=
  match c with CtxPredicate | CtxComparisonOperand | CtxNestedComparisonOperand => CtxComparisonOperand | other => other end.
Definition nested_value_context (c : ExprContext) : ExprContext :=
  match c with CtxComparisonOperand | CtxNestedComparisonOperand => CtxNestedComparisonOperand | other => other end.

Definition map_binary_op (op : BinaryOperator) : option BinaryOp :=
  match op with
  | BoEq => Some Eq | BoNotEq => Some NotEq | BoLt => Some Lt | BoLtEq => Some LtEq | BoGt => Some Gt | BoGtEq => Some GtEq
  | _ => None
  end.
Definition map_unary_op (op : UnaryOperator) : option UnaryOp :=
  match op with UoNot => Some Not | UoPlus => Some Plus | UoMinus => Some Minus | UoOther => None end.

Definition unsupported (m : str) : TypedSqlError := mk_sql_error EUnsupported m None.

Definition object_name_last_ident (name : ObjectName) : result TypedSqlError SpIdent :=
  match last (on_parts name) with
  | None => Err (unsupported "typed_sql v1 requires a named relation")
  | Some (NIdent ident) => Ok ident
  | Some NFunction => Err (unsupported "typed_sql v1 does not support function-based relation names")
  end.

#[export] Instance SourceSpan_eq_dec : EqDecision SourceSpan.
Proof. solve_decision. Defined.

(** ** The normaliser *)
Record Normalizer := mk_normalizer { consumed_optional_groups : list SourceSpan; next_id : Z }.
Definition Normalizer_new : Normalizer := mk_normalizer [] 0.
Abbreviation N := (SE Normalizer TypedSqlError).

Definition alloc_id : N AstId := λ s, (Ok (next_id s), mk_normalizer (consumed_optional_groups s) (next_id s + 1)).
Definition consume (span : SourceSpan) : N unit := λ s,
  (Ok tt, mk_normalizer (span :: consumed_optional_groups s) (next_id s)).

Section normalizer.
Context (src : SqlSource).

Definition canonical_span (sp : PSpan) : result TypedSqlError SourceSpan := canonical_span_for_parser src (sp_from sp) (sp_to sp).
Definition source_span (sp : PSpan) : result TypedSqlError SourceSpan :=
  canonical ← canonical_span sp; Ok (original_span (source_map src) canonical).

Definition unsupported_node (sp : PSpan) (message : str) : TypedSqlError :=
  mk_sql_error EUnsupported message (to_option (source_span sp)).
Definition refuse {A} (sp : PSpan) (message : str) : N A := throw (unsupported_node sp message).
Definition refuse_if (b : bool) (sp : PSpan) (message : str) : N unit := if b then refuse sp message else mret tt.

Definition normalize_ident (i : SpIdent) : result TypedSqlError IdentSyntax :=
  span ← source_span (id_sp i); Ok (mk_ident (id_value i) span).

Definition normalize_parts (name : ObjectName) (message : str) : result TypedSqlError (list IdentSyntax) :=
  map_result (λ part, match part with NIdent i => normalize_ident i | NFunction => Err (unsupported_node (on_sp name) message) end)
    (on_parts name).

Definition normalize_object_name (name : ObjectName) : result TypedSqlError ObjectNameSyntax :=
  parts ← normalize_parts name "typed_sql v1 does not support function-based relation names";
  span ← source_span (on_sp name);
  Ok (mk_object_name parts span).

(** ** Placeholders, literals and expressions *)
Definition normalize_placeholder (sp : PSpan) (entry : PlaceholderEntry) (ctx : ExprContext) : N PlaceholderRef :=
  canonical ← lift (canonical_span sp);
  match list_find (λ o, occ_canonical o = canonical) (occurrences entry) with
  | None => throw (internal ("parser span " ++ span_display canonical ++ " did not match placeholder occurrence for `$"
                     ++ entry_name entry ++ "`"))
  | Some (_, o) =>
    if occ_optional o && negb (allows_optional_placeholder ctx) then
      throw (unsupported_at
        match ctx with
        | CtxNestedComparisonOperand => "typed_sql v1 requires `$value?` to directly own a WHERE/JOIN comparison predicate or the full LIMIT/OFFSET expression; wrap larger predicate fragments in `(...)?` when the ownership boundary would otherwise be ambiguous"
        | _ => "typed_sql v1 only supports `$value?` when it owns a WHERE/JOIN comparison predicate or the full LIMIT/OFFSET expression"
        end%s (occ_original o))
    else
      id ← alloc_id;
      mret (mk_placeholder id (occ_original o) (entry_id entry) (entry_name entry) (entry_slot entry) (occ_optional o))
  end.

Definition normalize_literal (v : Literal) (sp : PSpan) : N ParsedExpr :=
  id ← alloc_id; span ← lift (source_span sp); mret (PLiteral (mk_parsed_literal id span v)).

Definition normalize_value (v : SpValue) (sp : PSpan) (ctx : ExprContext) : N ParsedExpr :=
  match v with
  | VPlaceholder token =>
    match entry_for_token (src_placeholders src) token with
    | None => throw (internal ("parser produced unknown placeholder token " ++ token))
    | Some entry => p ← normalize_placeholder sp entry ctx; mret (PPlaceholder p)
    end
  | VNumber number => normalize_literal (LNumber number) sp
  | VString text => normalize_literal (LString text) sp
  | VBoolean b => normalize_literal (LBoolean b) sp
  | VNull => normalize_literal LNull sp
  | VOther => refuse sp "typed_sql v1 does not support this literal form"
  end.

Definition group_position : str := "typed_sql v1 requires `(...)?` to own an entire parenthesized WHERE/JOIN predicate or a single ORDER BY expression; LIMIT/OFFSET and other clause bodies must use direct `$value?` placeholders instead".

(** [normalize_nested_expr], given the expression inside the parentheses. *)
Definition own_group (canonical : SourceSpan) (inner : ParsedExpr) (ctx : ExprContext) : N ParsedExpr :=
  match entry_for_canonical_span (src_groups src) canonical with
  | None => mret inner
  | Some group =>
    _ ← consume (group_original group);
    if negb (allows_optional_group ctx) then throw (unsupported_at group_position (group_original group))
    else id ← alloc_id; mret (POptionalGroup id (group_original group) inner)
  end.

Definition bool_operator (op : BoolOp) : BinaryOperator := match op with And => BoAnd | Or => BoOr end.

(** [collect_bool_terms] over the normaliser of a term. *)
Definition collect_with (norm : SpExpr → N ParsedExpr) (op : BoolOp) : SpExpr → N (list ParsedExpr) :=
  fix collect (e : SpExpr) : N (list ParsedExpr) :=
    match e with
    | EBinary l inner_op r _ =>
      if bool_decide (inner_op = bool_operator op) then
        ls ← collect l; rs ← collect r; mret (ls ++ rs)
      else t ← norm e; mret [t]
    | _ => t ← norm e; mret [t]
    end.

Definition normalize_chain (terms : N (list ParsedExpr)) (op : BoolOp) (sp : PSpan) : N ParsedExpr :=
  ts ← terms; id ← alloc_id; span ← lift (source_span sp); mret (PBoolChain id span op ts).

Fixpoint normalize_expr (e : SpExpr) (ctx : ExprContext) {struct e} : N ParsedExpr :=
  match e with
  | ECompound [binding; column] sp =>
    binding ← lift (normalize_ident binding);
    column ← lift (normalize_ident column);
    id ← alloc_id;
    span ← lift (source_span sp);
    mret (PColumn (mk_column_ref id span binding column))
  | EIdentifier sp => refuse sp "typed_sql v1 requires fully qualified column references"
  | EValue v sp => normalize_value v sp ctx
  | EUnary op inner sp =>
    match map_unary_op op with
    | None => refuse sp "typed_sql v1 only supports NOT, +, and - unary operators"
    | Some op =>
      id ← alloc_id; span ← lift (source_span sp);
      inner ← normalize_expr inner (nested_value_context ctx);
      mret (PUnary id span op inner)
    end
  | EBinary left_e op right_e sp =>
    let chain bop :=
      normalize_chain
        (ls ← collect_with (λ e, normalize_expr e CtxPredicate) bop left_e;
         rs ← collect_with (λ e, normalize_expr e CtxPredicate) bop right_e;
         mret (ls ++ rs)) bop sp in
    match op with
    | BoAnd => chain And
    | BoOr => chain Or
    | _ =>
      id ← alloc_id; span ← lift (source_span sp);
      op ← lift (ok_or (map_binary_op op) (unsupported_node sp "typed_sql v1 only supports simple comparison operators"));
      l ← normalize_expr left_e (comparison_operand_context ctx);
      r ← normalize_expr right_e (comparison_operand_context ctx);
      mret (PBinary id span op l r)
    end
  | EIsNull inner sp =>
    id ← alloc_id; span ← lift (source_span sp);
    inner ← normalize_expr inner (nested_value_context ctx); mret (PIsNull id span false inner)
  | EIsNotNull inner sp =>
    id ← alloc_id; span ← lift (source_span sp);
    inner ← normalize_expr inner (nested_value_context ctx); mret (PIsNull id span true inner)
  | ENested inner sp =>
    canonical ← lift (canonical_span sp);
    inner ← normalize_expr inner ctx;
    own_group canonical inner ctx
  | ECompound _ sp | EOther sp => refuse sp "typed_sql v1 does not support this expression form"
  end.

(** ** Relations *)
Definition binding_name_of (table_name : ObjectName) (alias : option TableAlias) : result TypedSqlError IdentSyntax :=
  ident ← match alias with
          | Some a => if al_columns a then Err (unsupported_node (al_sp a) "typed_sql v1 does not support column alias lists")
                      else Ok (al_name a)
          | None => object_name_last_ident table_name
          end;
  normalize_ident ident.

Definition normalize_table_factor (t : TableFactor) (span : SourceSpan) : N ParsedFrom :=
  let plain := unsupported_at "typed_sql v1 only supports plain table references in FROM/JOIN" span in
  match t with
  | TFTable name alias extras _ =>
    if extras then throw plain
    else
      table_name ← lift (normalize_object_name name);
      binding ← lift (binding_name_of name alias);
      id ← alloc_id;
      mret (mk_from id span table_name binding)
  | TFOther _ => throw plain
  end.

Definition normalize_relation (t : TableFactor) : N ParsedFrom :=
  span ← lift (source_span (factor_sp t)); normalize_table_factor t span.

Definition join_parts (j : SpJoin) : result TypedSqlError (JoinKind * SpExpr) :=
  match jn_operator j with
  | JoJoin (JcOn e) | JoInner (JcOn e) => Ok (JInner, e)
  | JoLeft (JcOn e) | JoLeftOuter (JcOn e) => Ok (JLeft, e)
  | JoRight (JcOn e) | JoRightOuter (JcOn e) => Ok (JRight, e)
  | JoFullOuter (JcOn e) => Ok (JFull, e)
  | JoOther => Err (unsupported_node (jn_sp j) "typed_sql v1 only supports INNER/LEFT/RIGHT/FULL JOIN ... ON")
  | _ => Err (unsupported_node (jn_sp j) "typed_sql v1 requires JOIN ... ON predicates")
  end.

Definition normalize_join (j : SpJoin) : N ParsedJoin :=
  _ ← refuse_if (jn_global j) (jn_sp j) "typed_sql v1 does not support GLOBAL joins";
  kind_on ← lift (join_parts j);
  id ← alloc_id;
  span ← lift (source_span (jn_sp j));
  relation ← normalize_relation (jn_relation j);
  on ← normalize_expr kind_on.2 CtxPredicate;
  mret (mk_join id span kind_on.1 relation on).

(** ** Projections *)
Definition infer_output_name (e : SpExpr) : result TypedSqlError OutputNameSyntax :=
  match e with
  | ECompound [_; column] _ => i ← normalize_ident column; Ok (ImplicitName i)
  | _ => Ok AnonymousName
  end.

(** [normalize_projection] and [normalize_returning_projection], which differ in a message. *)
Definition normalize_item (wildcard : str) (item : SelectItem) : N ParsedProjection :=
  match item with
  | SiUnnamed e sp =>
    name ← lift (infer_output_name e);
    id ← alloc_id; span ← lift (source_span sp);
    expr ← normalize_expr e CtxProjection;
    mret (mk_projection id span expr name)
  | SiAlias e alias sp =>
    id ← alloc_id; span ← lift (source_span sp);
    expr ← normalize_expr e CtxProjection;
    name ← lift (normalize_ident alias);
    mret (mk_projection id span expr (ExplicitName name))
  | SiWildcard sp => refuse sp wildcard
  end.
Definition normalize_projection : SelectItem → N ParsedProjection :=
  normalize_item "typed_sql v1 does not support wildcard projections".
Definition normalize_returning_projection : SelectItem → N ParsedProjection :=
  normalize_item "typed_sql v1 does not support wildcard RETURNING projections".
Definition normalize_returning (returning : option (list SelectItem)) : N (list ParsedProjection) :=
  match returning with Some items => mapM normalize_returning_projection items | None => mret [] end.

(** ** ORDER BY, LIMIT and OFFSET *)
Definition normalize_order_by_expr (o : OrderByExpr) : N ParsedOrderBy :=
  _ ← refuse_if (oe_with_fill o) (oe_sp o) "typed_sql v1 does not support ORDER BY WITH FILL";
  id ← alloc_id; span ← lift (source_span (oe_sp o));
  expr ← normalize_expr (oe_expr o) CtxOrderBy;
  mret (mk_order_by id span expr (match oe_asc o with Some false => Desc | _ => Asc end)
    ((λ first : bool, if first then NullsFirst else NullsLast) <$> oe_nulls_first o)).

Definition normalize_order_by (o : option OrderBy) : N (list ParsedOrderBy) :=
  match o with
  | None => mret []
  | Some (ObAll sp) => refuse sp "typed_sql v1 does not support ORDER BY ALL"
  | Some (ObExpressions items) => mapM normalize_order_by_expr items
  end.

Definition normalize_opt {A B} (f : A → N B) (o : option A) : N (option B) :=
  match o with Some a => b ← f a; mret (Some b) | None => mret None end.

Definition normalize_limit (e : SpExpr) : N ParsedLimit :=
  id ← alloc_id; span ← lift (source_span (expr_sp e)); expr ← normalize_expr e CtxLimit; mret (mk_limit id span expr).
Definition normalize_offset (o : SpOffset) : N ParsedOffset :=
  id ← alloc_id; span ← lift (source_span (of_sp o)); expr ← normalize_expr (of_value o) CtxOffset; mret (mk_offset id span expr).

Definition normalize_limit_clause (l : option LimitClause) : N (option ParsedLimit * option ParsedOffset) :=
  match l with
  | None => mret (None, None)
  | Some (LcOffsetComma sp) => refuse sp "typed_sql v1 only supports LIMIT ... OFFSET ... syntax"
  | Some (LcLimitOffset limit offset limit_by sp) =>
    _ ← refuse_if limit_by sp "typed_sql v1 does not support LIMIT BY";
    l ← normalize_opt normalize_limit limit;
    o ← normalize_opt normalize_offset offset;
    mret (l, o)
  end.

(** ** Statements *)
Definition reject_unconsumed_optional_groups : N unit := λ s,
  match list_find (λ g, group_original g ∉ consumed_optional_groups s) (src_groups src) with
  | None => (Ok tt, s)
  | Some (_, g) => (Err (unsupported_at group_position (group_original g)), s)
  end.

(** What [normalize_query] and [reject_values_query_features] refuse first. *)
Definition reject_query_clauses (q : SpQuery) : N unit :=
  _ ← refuse_if (q_with q) (q_sp q) "typed_sql v1 does not support WITH clauses";
  _ ← refuse_if (q_fetch q) (q_sp q) "typed_sql v1 does not support FETCH clauses";
  _ ← refuse_if (q_locks q) (q_sp q) "typed_sql v1 does not support locking clauses";
  refuse_if (q_for q) (q_sp q) "typed_sql v1 does not support FOR clauses".

Definition reject_select_features (s : SpSelect) : N unit :=
  _ ← refuse_if (ss_distinct s) (ss_sp s) "typed_sql v1 does not support DISTINCT";
  refuse_if (ss_extras s) (ss_sp s) "typed_sql v1 only supports SELECT/FROM/JOIN/WHERE/ORDER BY/LIMIT/OFFSET".

Definition single_from (s : SpSelect) : result TypedSqlError TableWithJoins :=
  match ss_from s with
  | [] => Err (unsupported_node (ss_sp s) "typed_sql v1 requires a FROM clause")
  | [item] => Ok item
  | _ => Err (unsupported_node (ss_sp s) "typed_sql v1 supports exactly one FROM relation with optional JOINs")
  end.

Definition normalize_query (q : SpQuery) : N ParsedSelect :=
  _ ← reject_query_clauses q;
  _ ← refuse_if (q_extras q) (q_sp q) "typed_sql v1 only supports standard SELECT queries";
  match q_body q with
  | SeSelect select =>
    _ ← reject_select_features select;
    item ← lift (single_from select);
    from ← normalize_relation (twj_relation item);
    joins ← mapM normalize_join (twj_joins item);
    projections ← mapM normalize_projection (ss_projection select);
    filter ← normalize_opt (λ e, normalize_expr e CtxPredicate) (ss_selection select);
    order_by ← normalize_order_by (q_order_by q);
    limit_offset ← normalize_limit_clause (q_limit q);
    _ ← reject_unconsumed_optional_groups;
    id ← alloc_id;
    span ← lift (source_span (q_sp q));
    mret (mk_select id span projections from joins filter order_by limit_offset.1 limit_offset.2)
  | _ => refuse (q_sp q) "typed_sql v1 only supports SELECT queries"
  end.

(** The span of a row of values: from its first expression to its last. *)
Definition row_span (values_sp : PSpan) (row : list SpExpr) : result TypedSqlError SourceSpan :=
  match head row, last row with
  | Some first, Some final =>
    first ← source_span (expr_sp first); final ← source_span (expr_sp final);
    Ok (mk_span (span_start first) (span_end final))
  | _, _ => source_span values_sp
  end.

Definition normalize_row (values_sp : PSpan) (row : list SpExpr) : N ParsedValuesRow :=
  values ← mapM (λ e, normalize_expr e CtxProjection) row;
  span ← lift (row_span values_sp row);
  id ← alloc_id;
  mret (mk_values_row id span values).

Definition normalize_insert_values (i : SpInsert) : N (list ParsedValuesRow) :=
  match si_source i with
  | None => refuse (si_sp i) "typed_sql v1 only supports INSERT ... VALUES ... statements"
  | Some q =>
    _ ← reject_query_clauses q;
    _ ← refuse_if (q_extras q || bool_decide (is_Some (q_order_by q)) || bool_decide (is_Some (q_limit q))) (q_sp q)
          "typed_sql v1 only supports plain INSERT ... VALUES rows";
    match q_body q with
    | SeValues rows sp => mapM (normalize_row sp) rows
    | _ => refuse (q_sp q) "typed_sql v1 does not support INSERT ... SELECT"
    end
  end.

Definition normalize_insert_target (i : SpInsert) : N ParsedFrom :=
  match si_table i with
  | ToOther => refuse (si_sp i) "typed_sql v1 only supports plain table names as INSERT targets"
  | ToTable name =>
    table_name ← lift (normalize_object_name name);
    binding ← lift match si_alias i with
                   | Some alias => normalize_ident alias
                   | None => ident ← object_name_last_ident name; normalize_ident ident
                   end;
    id ← alloc_id;
    span ← lift (source_span (si_sp i));
    mret (mk_from id span table_name binding)
  end.

Definition normalize_insert_statement (i : SpInsert) : N ParsedStatement :=
  _ ← refuse_if (si_extras i) (si_sp i) "typed_sql v1 only supports INSERT ... VALUES ... with optional explicit RETURNING columns";
  _ ← refuse_if (si_on i) (si_sp i) "typed_sql v1 does not support ON CONFLICT or other INSERT conflict clauses";
  target ← normalize_insert_target i;
  columns ← lift (map_result normalize_ident (si_columns i));
  values ← normalize_insert_values i;
  returning ← normalize_returning (si_returning i);
  _ ← reject_unconsumed_optional_groups;
  id ← alloc_id;
  span ← lift (source_span (si_sp i));
  let insert := mk_insert id span target columns values returning in
  mret match returning with
       | [] => statement_command KInsert (command_insert insert)
       | _ => statement_rows KInsert (row_insert insert)
       end.

Definition normalize_assignment_target (name : ObjectName) : result TypedSqlError ParsedAssignmentTarget :=
  span ← source_span (on_sp name);
  parts ← normalize_parts name "typed_sql v1 does not support function-based assignment targets";
  match parts with
  | [column] => Ok (mk_assignment_target span None column)
  | [binding; column] => Ok (mk_assignment_target span (Some binding) column)
  | _ => Err (unsupported_at "typed_sql v1 only supports single-column UPDATE assignments" span)
  end.

Definition normalize_assignment (a : SpAssignment) : N ParsedAssignment :=
  target ← lift match sa_target a with
                | AtColumn name => normalize_assignment_target name
                | AtTuple => Err (unsupported_node (sa_sp a) "typed_sql v1 does not support tuple assignments in UPDATE")
                end;
  id ← alloc_id;
  span ← lift (source_span (sa_sp a));
  value ← normalize_expr (sa_value a) CtxProjection;
  mret (mk_assignment id span target value).

(** The [WHERE] that UPDATE and DELETE require. *)
Definition normalize_where (sp : PSpan) (selection : option SpExpr) (message : str) : N ParsedExpr :=
  match selection with
  | None => refuse sp message
  | Some e => normalize_expr e CtxPredicate
  end.

Definition normalize_update_statement (u : SpUpdate) : N ParsedStatement :=
  _ ← refuse_if (su_extras u) (su_sp u) "typed_sql v1 only supports UPDATE ... SET ... WHERE ... with optional explicit RETURNING columns";
  _ ← refuse_if (su_from u) (su_sp u) "typed_sql v1 does not support UPDATE ... FROM";
  _ ← refuse_if (negb (bool_decide (length (twj_joins (su_table u)) = 0%nat))) (su_sp u) "typed_sql v1 does not support joined UPDATE targets";
  target ← normalize_relation (twj_relation (su_table u));
  assignments ← mapM normalize_assignment (su_assignments u);
  filter ← normalize_where (su_sp u) (su_selection u) "typed_sql v1 requires UPDATE statements to include a WHERE predicate";
  returning ← normalize_returning (su_returning u);
  _ ← reject_unconsumed_optional_groups;
  id ← alloc_id;
  span ← lift (source_span (su_sp u));
  let update := mk_update id span target assignments filter returning in
  mret match returning with
       | [] => statement_command KUpdate (command_update update)
       | _ => statement_rows KUpdate (row_update update)
       end.

Definition normalize_delete_target (d : SpDelete) : N ParsedFrom :=
  match sd_from d with
  | [table] =>
    if bool_decide (length (twj_joins table) = 0%nat) then normalize_relation (twj_relation table)
    else refuse (sd_sp d) "typed_sql v1 does not support joined DELETE targets"
  | _ => refuse (sd_sp d) "typed_sql v1 supports DELETE from exactly one target table"
  end.

Definition normalize_delete_statement (d : SpDelete) : N ParsedStatement :=
  _ ← refuse_if (sd_extras d) (sd_sp d) "typed_sql v1 only supports DELETE ... WHERE ... with optional explicit RETURNING columns";
  _ ← refuse_if (sd_using d) (sd_sp d) "typed_sql v1 does not support DELETE ... USING";
  target ← normalize_delete_target d;
  filter ← normalize_where (sd_sp d) (sd_selection d) "typed_sql v1 requires DELETE statements to include a WHERE predicate";
  returning ← normalize_returning (sd_returning d);
  _ ← reject_unconsumed_optional_groups;
  id ← alloc_id;
  span ← lift (source_span (sd_sp d));
  let delete := mk_delete id span target filter returning in
  mret match returning with
       | [] => statement_command KDelete (command_delete delete)
       | _ => statement_rows KDelete (row_delete delete)
       end.

Definition normalize_statement (s : SpStatement) : N ParsedStatement :=
  match s with
  | StQuery q => select ← normalize_query q; mret (statement_query (row_select select))
  | StInsert i => normalize_insert_statement i
  | StUpdate u => normalize_update_statement u
  | StDelete d => normalize_delete_statement d
  | StOther => throw (unsupported "typed_sql v1 only supports SELECT, INSERT, UPDATE, and DELETE statements")
  end.
End normalizer.

(** ** The front end: [parse_statement] over the parser, and [parse_typed_sql_source] *)
Section front_end.
(** [Parser::parse_statements], with the message of its error. *)
Context (to_lowercase : Z → list Z) (tokenize : str → result str (list Token)) (parse_statements : str → result str (list SpStatement)).

Definition parse_statement (src : SqlSource) : result TypedSqlError SpStatement :=
  statements ← map_err (map_parser_error to_lowercase tokenize src) (parse_statements (canonical_sql src));
  match statements with
  | [StQuery q] =>
    match q_body q with
    | SeSelect _ => Ok (StQuery q)
    | _ => Err (unsupported "typed_sql v1 does not support set operations or derived top-level queries")
    end
  | [StOther] => Err (unsupported "typed_sql v1 only supports SELECT, INSERT, UPDATE, and DELETE statements")
  | [s] => Ok s
  | _ => Err (unsupported "typed_sql v1 expects exactly one statement")
  end.

Definition parse_typed_sql_source (src : SqlSource) : result TypedSqlError ParsedSql :=
  ast ← parse_statement src;
  statement ← (normalize_statement src ast Normalizer_new).1;
  Ok (ParsedSql_new src statement).

Definition parse_typed_sql (sql : str) : result TypedSqlError ParsedSql :=
  src ← canonicalize sql; parse_typed_sql_source src.
End front_end.
