(* ===== verification/NormalizeFacts.v ===== *)
(** * Typed SQL: what a normalised statement has

    Ids are allocated in the order in which the nodes of the parsed statement are written below,
    so the ids of a statement are an interval; its optional groups are those of the source; and
    every placeholder is an occurrence in the source, the optional ones owned by a comparison.
    The proofs follow the normaliser with one judgement, [emits]. *)
From S2P Require Import Prelude Text SqlIr SqlSource SqlSourceFacts Resolver ResolverFacts Lower LowerFacts Normalize.

Local Open Scope Z_scope.

(** ** Nodes: the ids and the groups of a tree, in the order of allocation *)
Definition Nodes : Type := list AstId * list SourceSpan.
Definition both (a b : Nodes) : Nodes := (a.1 ++ b.1, a.2 ++ b.2).
Definition no_nodes : Nodes := ([], []).
Definition node (id : AstId) : Nodes := ([id], []).

Lemma both_assoc a b c : both (both a b) c = both a (both b c).
Proof. unfold both; cbn. by rewrite <- !(assoc_L (++)). Qed.
Lemma both_nil_r a : both a no_nodes = a.
Proof. destruct a. unfold both; cbn. by rewrite !(right_id_L [] (++)). Qed.
Lemma both_nil_l a : both no_nodes a = a.
Proof. by destruct a. Qed.

Fixpoint gather {A} (f : A → Nodes) (l : list A) : Nodes := match l with [] => no_nodes | a :: l => both (f a) (gather f l) end.
Lemma gather_app {A} (f : A → Nodes) l1 l2 : gather f (l1 ++ l2) = both (gather f l1) (gather f l2).
Proof. induction l1 as [|a l1 IH]; cbn; [by rewrite both_nil_l|]. by rewrite IH, both_assoc. Qed.
Definition gather_opt {A} (f : A → Nodes) (o : option A) : Nodes := match o with Some a => f a | None => no_nodes end.

Fixpoint expr_nodes (e : ParsedExpr) : Nodes :=
  match e with
  | PColumn c => node (cr_id c)
  | PPlaceholder p => node (ph_id p)
  | PLiteral l => node (lit_id l)
  | POptionalGroup id span inner => both (expr_nodes inner) ([id], [span])
  | PUnary id _ _ inner | PIsNull id _ _ inner => both (node id) (expr_nodes inner)
  | PBinary id _ _ l r => both (both (node id) (expr_nodes l)) (expr_nodes r)
  | PBoolChain id _ _ terms => both (gather expr_nodes terms) (node id)
  end.
Definition from_nodes (f : ParsedFrom) : Nodes := node (from_id f).
Definition join_nodes (j : ParsedJoin) : Nodes := both (both (node (join_id j)) (from_nodes (join_right j))) (expr_nodes (join_on j)).
Definition projection_nodes (p : ParsedProjection) : Nodes := both (node (proj_id p)) (expr_nodes (proj_expr p)).
Definition order_nodes (o : ParsedOrderBy) : Nodes := both (node (ob_id o)) (expr_nodes (ob_expr o)).
Definition limit_nodes (l : ParsedLimit) : Nodes := both (node (limit_id l)) (expr_nodes (limit_expr l)).
Definition offset_nodes (o : ParsedOffset) : Nodes := both (node (offset_id o)) (expr_nodes (offset_expr o)).
Definition row_nodes (r : ParsedValuesRow) : Nodes := both (gather expr_nodes (row_values r)) (node (row_id r)).
Definition assignment_nodes (a : ParsedAssignment) : Nodes := both (node (as_id a)) (expr_nodes (as_value a)).
Local Infix "⊞" := both (at level 61, left associativity).

(** A statement as it is rendered. *)
Definition rendered_of (s : ParsedStatement) : RenderedStatement :=
  match st_body s with
  | SBRows r => match rs_body r with
                | RBSelect s => RenderSelect s | RBInsert i => RenderInsert i | RBUpdate u => RenderUpdate u | RBDelete d => RenderDelete d
                end
  | SBCommand c => match cs_body c with CBInsert i => RenderInsert i | CBUpdate u => RenderUpdate u | CBDelete d => RenderDelete d end
  end.

Definition statement_nodes (s : RenderedStatement) : Nodes :=
  match s with
  | RenderSelect s =>
    from_nodes (sel_from s) ⊞ gather join_nodes (sel_joins s) ⊞ gather projection_nodes (sel_projections s)
    ⊞ gather_opt expr_nodes (sel_filter s) ⊞ gather order_nodes (sel_order_by s)
    ⊞ gather_opt limit_nodes (sel_limit s) ⊞ gather_opt offset_nodes (sel_offset s) ⊞ node (sel_id s)
  | RenderInsert i =>
    from_nodes (ins_target i) ⊞ gather row_nodes (ins_values i) ⊞ gather projection_nodes (ins_returning i) ⊞ node (ins_id i)
  | RenderUpdate u =>
    from_nodes (upd_target u) ⊞ gather assignment_nodes (upd_assignments u) ⊞ expr_nodes (upd_filter u)
    ⊞ gather projection_nodes (upd_returning u) ⊞ node (upd_id u)
  | RenderDelete d =>
    from_nodes (del_target d) ⊞ expr_nodes (del_filter d) ⊞ gather projection_nodes (del_returning d) ⊞ node (del_id d)
  end.

(** ** Ownership: the optional placeholders of an expression that no comparison owns *)
Fixpoint floating (e : ParsedExpr) : list PlaceholderRef :=
  match e with
  | PPlaceholder p => if ph_optional p then [p] else []
  | PColumn _ | PLiteral _ => []
  | POptionalGroup _ _ inner | PUnary _ _ _ inner | PIsNull _ _ _ inner => floating inner
  | PBinary _ _ _ l r =>
    (match l with PPlaceholder _ => [] | _ => floating l end) ++ (match r with PPlaceholder _ => [] | _ => floating r end)
  | PBoolChain _ _ _ terms => concat (map floating terms)
  end.
Definition operand_floating (e : ParsedExpr) : list PlaceholderRef := match e with PPlaceholder _ => [] | _ => floating e end.

(** [LIMIT] and [OFFSET] own the placeholders in them. *)
Definition owned (ctx : ExprContext) (e : ParsedExpr) : Prop :=
  match ctx with
  | CtxLimit | CtxOffset => True
  | CtxComparisonOperand => operand_floating e = []
  | _ => floating e = []
  end.

Lemma owned_floating ctx e : floating e = [] → owned ctx e.
Proof. destruct ctx; cbn; try done. by destruct e. Qed.

(** The reference stands for an occurrence in the source. *)
Definition refers (src : SqlSource) (p : PlaceholderRef) : Prop :=
  ∃ e o, e ∈ src_placeholders src ∧ o ∈ occurrences e ∧
    placeholder_id p = entry_id e ∧ ph_name p = entry_name e ∧ ph_slot p = entry_slot e ∧
    ph_span p = occ_original o ∧ ph_optional p = occ_optional o.

(** ** The judgement *)
Definition range (a b : Z) : list Z := seqZ a (b - a).

Lemma range_nil a : range a a = [].
Proof. unfold range. by rewrite Z.sub_diag. Qed.
Lemma range_snoc a b : a ≤ b → range a (b + 1) = range a b ++ [b].
Proof.
  intros H. unfold range. replace (b + 1 - a) with ((b - a) + 1) by lia. rewrite seqZ_app by lia.
  by replace (a + (b - a)) with b by lia.
Qed.

(** The nodes of the result are those emitted before, [pre], and those of the ids it allocates and
    the groups it consumes. *)
Definition emits {A} (pre : Nodes) (m : N A) (nodes : A → Nodes) (P : A → Prop) : Prop :=
  ∀ s r s' a0 c0, m s = (Ok r, s') → a0 ≤ next_id s → pre.1 = range a0 (next_id s) → consumed_optional_groups s = rev pre.2 ++ c0 →
    a0 ≤ next_id s' ∧ (nodes r).1 = range a0 (next_id s') ∧ consumed_optional_groups s' = rev (nodes r).2 ++ c0 ∧ P r.

Section rules.
Context {A B : Type}.
Implicit Types (f : A → N B) (nodes : B → Nodes) (P : B → Prop).

Lemma emits_bind pre (m : N A) f nodes_a (Pa : A → Prop) nodes P :
  emits no_nodes m nodes_a Pa → (∀ a, Pa a → emits (pre ⊞ nodes_a a) (f a) nodes P) → emits pre (m ≫= f) nodes P.
Proof.
  intros Hm Hf s r s' a0 c0 (a & s1 & Ha & Hr)%se_bind_inv Hle Hpre Hc.
  destruct (Hm _ _ _ (next_id s) (consumed_optional_groups s) Ha (Z.le_refl _)) as (Hle1 & Hn & Hc1 & HP); [by rewrite range_nil|done|].
  apply (Hf _ HP _ _ _ a0 c0 Hr); [lia| |].
  - cbn. rewrite Hpre, Hn. unfold range. replace (next_id s1 - a0) with ((next_id s - a0) + (next_id s1 - next_id s)) by lia.
    rewrite (seqZ_app a0) by lia. by replace (a0 + (next_id s - a0)) with (next_id s) by lia.
  - cbn. by rewrite Hc1, Hc, rev_app_distr, (assoc_L (++)).
Qed.

Lemma emits_alloc pre (f : AstId → N B) nodes P : (∀ id, emits (pre ⊞ node id) (f id) nodes P) → emits pre (alloc_id ≫= f) nodes P.
Proof.
  intros Hf s r s' a0 c0 (a & s1 & [= <- <-] & Hr)%se_bind_inv Hle Hpre Hc. apply (Hf _ _ _ _ a0 c0 Hr); cbn; [lia| |].
  - by rewrite Hpre, range_snoc.
  - by rewrite (right_id_L [] (++)).
Qed.

Lemma emits_consume pre span (f : unit → N B) nodes P :
  emits (pre ⊞ ([], [span])) (f tt) nodes P → emits pre (consume span ≫= f) nodes P.
Proof.
  intros Hf s r s' a0 c0 (a & s1 & [= <- <-] & Hr)%se_bind_inv Hle Hpre Hc. apply (Hf _ _ _ a0 c0 Hr); cbn; [lia| |].
  - by rewrite (right_id_L [] (++)).
  - by rewrite Hc, rev_app_distr.
Qed.

Lemma emits_lift pre (o : result TypedSqlError A) f nodes P :
  (∀ a, o = Ok a → emits pre (f a) nodes P) → emits pre (lift o ≫= f) nodes P.
Proof.
  intros Hf s r s' a0 c0 (a & s1 & Ha & Hr)%se_bind_inv. injection Ha as -> <-. by apply (Hf a eq_refl).
Qed.

Lemma emits_refuse_if src pre b sp msg (f : unit → N B) nodes P :
  emits pre (f tt) nodes P → emits pre (refuse_if src b sp msg ≫= f) nodes P.
Proof. intros Hf s r s' a0 c0 ([] & s1 & Ha & Hr)%se_bind_inv. destruct b; [done|]. injection Ha as <-. by apply Hf. Qed.

Lemma emits_ret pre (b : B) nodes P : nodes b = pre → P b → emits pre (mret b) nodes P.
Proof. intros <- HP s r s' a0 c0 [= <- <-]. auto. Qed.

Lemma emits_throw pre e nodes P : emits pre (throw e : N B) nodes P.
Proof. by intros s r s' a0 c0. Qed.

Lemma emits_weaken (m : N B) nodes P (Q : B → Prop) pre :
  emits pre m nodes P → (∀ b, P b → Q b) → emits pre m nodes Q.
Proof. intros Hm HPQ s r s' a0 c0 Hr Hle Hp Hc. destruct (Hm _ _ _ _ _ Hr Hle Hp Hc) as (?&?&?&?). auto. Qed.
End rules.

Lemma emits_map {A B} (f : A → N B) (nodes : B → Nodes) (P : B → Prop) (l : list A) :
  (∀ a, emits no_nodes (f a) nodes P) → emits no_nodes (mapM f l) (gather nodes) (Forall P).
Proof.
  intros Hf. induction l as [|a l IH]; cbn; [by apply emits_ret|].
  eapply emits_bind; [apply Hf|]. intros b Hb. eapply emits_bind; [exact IH|]. intros bs Hbs.
  apply emits_ret; cbn; [by rewrite both_nil_l|by constructor].
Qed.

Lemma emits_opt {A B} (f : A → N B) (nodes : B → Nodes) (P : B → Prop) (o : option A) :
  (∀ a, emits no_nodes (f a) nodes P) → emits no_nodes (normalize_opt f o) (gather_opt nodes) (λ o, ∀ b, o = Some b → P b).
Proof.
  intros Hf. destruct o as [a|]; cbn; [|by apply emits_ret].
  eapply emits_bind; [apply Hf|]. intros b Hb. apply emits_ret; cbn; [by rewrite both_nil_l|by intros ? [= <-]].
Qed.

#[local] Arguments throw : simpl never.
#[local] Arguments lift : simpl never.
#[local] Arguments refuse : simpl never.
#[local] Arguments refuse_if : simpl never.
#[local] Arguments mbind : simpl never.
#[local] Arguments mret : simpl never.

(** One step of the normaliser. *)
Ltac emit_step :=
  lazymatch goal with
  | |- emits _ (alloc_id ≫= _) _ _ => apply emits_alloc; intros ?
  | |- emits _ (consume _ ≫= _) _ _ => apply emits_consume
  | |- emits _ (lift _ ≫= _) _ _ => apply emits_lift; intros ? ?
  | |- emits _ (refuse_if _ _ _ _ ≫= _) _ _ => apply emits_refuse_if
  | |- emits _ (throw _) _ _ => apply emits_throw
  | |- emits _ (refuse _ _ _) _ _ => apply emits_throw
  end.
(** Call of a function whose lemma is [H]. *)
Ltac emit_call H := eapply emits_bind; [apply H|intros ? ?].
Ltac emit := repeat emit_step.
Ltac emit_ret := apply emits_ret; [cbn; rewrite ?both_nil_l, ?both_nil_r, ?both_assoc; reflexivity|].

(** ** Expressions *)
Section facts.
Context (src : SqlSource).

Definition good (ctx : ExprContext) (e : ParsedExpr) : Prop :=
  owned ctx e ∧ (∀ p, p ∈ placeholders_of e → refers src p) ∧
  (∀ span, span ∈ (expr_nodes e).2 → span ∈ map group_original (src_groups src)).

Lemma owned_operand ctx e : owned (comparison_operand_context ctx) e →
  (ctx ≠ CtxLimit ∧ ctx ≠ CtxOffset → operand_floating e = []).
Proof. destruct ctx; cbn; intros H [? ?]; try done; by destruct e. Qed.

Lemma owned_nested ctx e : owned (nested_value_context ctx) e → (ctx ≠ CtxLimit ∧ ctx ≠ CtxOffset → floating e = []).
Proof. by destruct ctx; cbn; intros H [? ?]. Qed.

(** Whatever the context, unless it is [LIMIT] or [OFFSET], nothing floats. *)
Lemma owned_intro ctx e : (ctx ≠ CtxLimit ∧ ctx ≠ CtxOffset → floating e = []) → owned ctx e.
Proof. intros H. destruct ctx; try done; apply owned_floating, H; done. Qed.

Lemma elem_of_gather {A} (f : A → Nodes) l x : x ∈ (gather f l).2 ↔ ∃ a, a ∈ l ∧ x ∈ (f a).2.
Proof. induction l as [|a l IH]; cbn; [set_solver|]. rewrite elem_of_app, IH. set_solver. Qed.

Lemma good_leaf ctx e : placeholders_of e = [] → (expr_nodes e).2 = [] → floating e = [] → good ctx e.
Proof. intros Hp Hg Hf. split; [by apply owned_floating|]. rewrite Hp, Hg. split; set_solver. Qed.

Lemma good_chain ctx id span op ts : Forall (good CtxPredicate) ts → good ctx (PBoolChain id span op ts).
Proof.
  rewrite Forall_forall. intros H. split_and!.
  - apply owned_floating. cbn. induction ts as [|t ts IH]; [done|]. cbn. destruct (H t ltac:(set_solver)) as [-> _]. apply IH. set_solver.
  - intros p Hp. cbn in Hp. apply elem_of_concat_map in Hp as (t & Ht & Hp). by apply (H t Ht).
  - intros x Hx. cbn in Hx. rewrite (right_id_L [] (++)) in Hx. apply elem_of_gather in Hx as (t & Ht & Hx). by apply (H t Ht).
Qed.

Lemma good_binary ctx id span op l r : good (comparison_operand_context ctx) l → good (comparison_operand_context ctx) r →
  good ctx (PBinary id span op l r).
Proof.
  intros (Hl & Hpl & Hgl) (Hr & Hpr & Hgr). split_and!; cbn.
  - apply owned_intro. intros Hc. cbn. fold (operand_floating l) (operand_floating r).
    by rewrite (owned_operand _ _ Hl Hc), (owned_operand _ _ Hr Hc).
  - intros p [?|?]%elem_of_app; auto.
  - intros p [?|?]%elem_of_app; auto.
Qed.

Lemma good_wrap ctx e e' : floating e' = floating e → placeholders_of e' = placeholders_of e → (expr_nodes e').2 = (expr_nodes e).2 →
  good (nested_value_context ctx) e → good ctx e'.
Proof.
  intros Hf Hp Hg (Ho & Hr & Hs). split_and!; [|by rewrite Hp|by rewrite Hg]. apply owned_intro. intros Hc. rewrite Hf. by apply owned_nested in Ho.
Qed.

Lemma emits_placeholder sp entry ctx : entry ∈ src_placeholders src →
  emits no_nodes (normalize_placeholder src sp entry ctx) (λ p, node (ph_id p)) (λ p, good ctx (PPlaceholder p)).
Proof.
  intros He. unfold normalize_placeholder. emit. destruct (list_find _ _) as [[i o]|] eqn:Ho; [|emit].
  apply list_find_Some in Ho as (Ho%list_elem_of_lookup_2 & _). destruct (_ && _) eqn:Hopt; emit. apply emits_ret; [done|].
  split_and!; cbn; [|intros p ->%list_elem_of_singleton; exists entry, o; done|set_solver].
  destruct (occ_optional o) eqn:Hoo; [|by apply owned_floating; cbn; rewrite ?Hoo].
  cbn in Hopt. by destruct ctx.
Qed.

Lemma emits_value v sp ctx : emits no_nodes (normalize_value src v sp ctx) expr_nodes (good ctx).
Proof.
  assert (Hlit : ∀ l, emits no_nodes (normalize_literal src l sp) expr_nodes (good ctx)).
  { intros l. unfold normalize_literal. emit. emit_ret. by apply good_leaf. }
  destruct v as [token| | | | |]; cbn; auto; [|emit]. destruct (entry_for_token (src_placeholders src) token) as [entry|] eqn:He; [|emit].
  assert (Hin : entry ∈ src_placeholders src).
  { unfold entry_for_token in He. apply bind_Some in He as (d & _ & (slot & _ & ([i e] & Hf & [= <-])%bind_Some)%bind_Some).
    apply list_find_Some in Hf as [Hf _]. by eapply list_elem_of_lookup_2. }
  emit_call (emits_placeholder sp entry ctx Hin). by emit_ret.
Qed.

Lemma emits_group canonical inner ctx : good ctx inner → emits (expr_nodes inner) (own_group src canonical inner ctx) expr_nodes (good ctx).
Proof.
  intros Hg. unfold own_group. destruct (entry_for_canonical_span (src_groups src) canonical) as [g|] eqn:He; [|by apply emits_ret].
  assert (Hin : group_original g ∈ map group_original (src_groups src)).
  { unfold entry_for_canonical_span in He. apply bind_Some in He as ([i g'] & Hf & [= <-]).
    apply list_find_Some in Hf as [Hf _]. apply list_elem_of_fmap. exists g'. split; [done|]. by eapply list_elem_of_lookup_2. }
  emit. destruct (allows_optional_group ctx) eqn:Hctx; cbn; emit. apply emits_ret.
  - cbn. rewrite both_assoc. unfold both; cbn. done.
  - destruct Hg as (Ho & Hp & Hs). split_and!; [by destruct ctx|done|]. cbn. intros x [Hx|Hx]%elem_of_app; [auto|]. by apply list_elem_of_singleton in Hx as ->.
Qed.

Definition norm_ok (e : SpExpr) : Prop := ∀ ctx, emits no_nodes (normalize_expr src e ctx) expr_nodes (good ctx).
Definition terms_ok (e : SpExpr) : Prop :=
  ∀ op, emits no_nodes (collect_with (λ e, normalize_expr src e CtxPredicate) op e) (gather expr_nodes) (Forall (good CtxPredicate)).

Lemma emits_single e : norm_ok e →
  emits no_nodes (t ← normalize_expr src e CtxPredicate; mret [t]) (gather expr_nodes) (Forall (good CtxPredicate)).
Proof. intros He. emit_call (He CtxPredicate). emit_ret. by apply Forall_singleton. Qed.

Lemma emits_terms bop l r : terms_ok l → terms_ok r →
  emits no_nodes (ls ← collect_with (λ e, normalize_expr src e CtxPredicate) bop l;
    rs ← collect_with (λ e, normalize_expr src e CtxPredicate) bop r; mret (ls ++ rs)) (gather expr_nodes) (Forall (good CtxPredicate)).
Proof.
  intros Hl Hr. emit_call Hl. emit_call Hr. apply emits_ret; [by rewrite gather_app, both_nil_l|by apply Forall_app_2].
Qed.

Ltac wrapped := match goal with H : good _ _ |- _ => refine (good_wrap _ _ _ _ _ _ H); reflexivity end.

Lemma emits_expr_and_terms e : norm_ok e ∧ terms_ok e.
Proof.
  induction e as [parts sp|sp|v sp|op e [IH _] sp|l [IHl IHlt] op r [IHr IHrt] sp|e [IH _] sp|e [IH _] sp|e [IH _] sp|sp].
  all: match goal with |- norm_ok ?e ∧ _ => assert (Hnorm : norm_ok e); [intros ctx|split; [exact Hnorm|]] end.
  all: try (intros bop; exact (emits_single _ Hnorm)).
  - destruct parts as [|b [|c [|]]]; cbn; emit. emit_ret. by apply good_leaf.
  - cbn; emit.
  - apply emits_value.
  - cbn. destruct (map_unary_op op); emit. emit_call IH. emit_ret. by wrapped.
  - assert (Hchain : ∀ bop, emits no_nodes (normalize_chain src (ls ← collect_with (λ e, normalize_expr src e CtxPredicate) bop l;
        rs ← collect_with (λ e, normalize_expr src e CtxPredicate) bop r; mret (ls ++ rs)) bop sp) expr_nodes (good ctx)).
    { intros bop. unfold normalize_chain. eapply emits_bind; [by apply emits_terms|]. intros ts Hts. emit. emit_ret. by apply good_chain. }
    destruct op; cbn; try apply Hchain; emit; emit_call IHl; emit_call IHr; emit_ret; by apply good_binary.
  - intros bop. cbn [collect_with]. destruct (bool_decide _); [|exact (emits_single _ Hnorm)]. by apply emits_terms.
  - cbn. emit. emit_call IH. emit_ret. by wrapped.
  - cbn. emit. emit_call IH. emit_ret. by wrapped.
  - cbn. emit. emit_call IH. rewrite both_nil_l. by apply emits_group.
  - cbn. emit.
Qed.

Lemma emits_expr e ctx : emits no_nodes (normalize_expr src e ctx) expr_nodes (good ctx).
Proof. apply emits_expr_and_terms. Qed.

(** ** Clauses *)
Definition good_join (j : ParsedJoin) : Prop := good CtxPredicate (join_on j).
Definition good_projection (p : ParsedProjection) : Prop := good CtxProjection (proj_expr p).
Definition good_order (o : ParsedOrderBy) : Prop := good CtxOrderBy (ob_expr o).
Definition good_limit (l : ParsedLimit) : Prop := good CtxLimit (limit_expr l).
Definition good_offset (o : ParsedOffset) : Prop := good CtxOffset (offset_expr o).
Definition good_row (r : ParsedValuesRow) : Prop := Forall (good CtxProjection) (row_values r).
Definition good_assignment (a : ParsedAssignment) : Prop := good CtxProjection (as_value a).
Definition good_opt {A} (P : A → Prop) (o : option A) : Prop := ∀ a, o = Some a → P a.

Lemma emits_relation t : emits no_nodes (normalize_relation src t) from_nodes (λ _, True).
Proof.
  unfold normalize_relation. emit. destruct t as [name alias [] sp|sp]; cbn; emit. by emit_ret.
Qed.

Lemma emits_join j : emits no_nodes (normalize_join src j) join_nodes good_join.
Proof.
  unfold normalize_join. emit. emit_call emits_relation. emit_call emits_expr. by emit_ret.
Qed.

Lemma emits_item w i : emits no_nodes (normalize_item src w i) projection_nodes good_projection.
Proof. destruct i; cbn; emit; emit_call emits_expr; emit; by emit_ret. Qed.

Lemma emits_returning o : emits no_nodes (normalize_returning src o) (gather projection_nodes) (Forall good_projection).
Proof. destruct o; cbn; [apply emits_map, emits_item|by apply emits_ret]. Qed.

Lemma emits_order o : emits no_nodes (normalize_order_by src o) (gather order_nodes) (Forall good_order).
Proof.
  destruct o as [[items|sp]|]; cbn; [|emit|by apply emits_ret]. apply emits_map. intros o.
  unfold normalize_order_by_expr. emit. emit_call emits_expr. by emit_ret.
Qed.

Lemma emits_limit_clause l : emits no_nodes (normalize_limit_clause src l)
  (λ x, gather_opt limit_nodes x.1 ⊞ gather_opt offset_nodes x.2) (λ x, good_opt good_limit x.1 ∧ good_opt good_offset x.2).
Proof.
  destruct l as [[limit offset by_ sp|sp]|]; cbn; emit; [|by apply emits_ret].
  eapply emits_bind; [apply emits_opt with (nodes := limit_nodes) (P := good_limit)|].
  { intros e. unfold normalize_limit. emit. emit_call emits_expr. by emit_ret. }
  intros a Ha. eapply emits_bind; [apply emits_opt with (nodes := offset_nodes) (P := good_offset)|].
  { intros e. unfold normalize_offset. emit. emit_call emits_expr. by emit_ret. }
  intros b Hb. by emit_ret.
Qed.

Lemma emits_values i : emits no_nodes (normalize_insert_values src i) (gather row_nodes) (Forall good_row).
Proof.
  unfold normalize_insert_values. destruct (si_source i) as [q|]; [|emit].
  eapply emits_bind with (nodes_a := λ _, no_nodes) (Pa := λ _, True).
  { unfold reject_query_clauses. emit. unfold refuse_if. destruct (q_for q); [emit|by apply emits_ret]. }
  intros _ _. rewrite both_nil_r. emit. destruct (q_body q) as [|rows sp|]; emit. apply emits_map. intros row.
  unfold normalize_row. eapply emits_bind; [apply emits_map; intros e; apply emits_expr|]. intros es Hes. emit. by emit_ret.
Qed.

Lemma emits_insert_target i : emits no_nodes (normalize_insert_target src i) from_nodes (λ _, True).
Proof. unfold normalize_insert_target. destruct (si_table i); emit. by emit_ret. Qed.

Lemma emits_assignment a : emits no_nodes (normalize_assignment src a) assignment_nodes good_assignment.
Proof. unfold normalize_assignment. emit. emit_call emits_expr. by emit_ret. Qed.

Lemma emits_where sp o msg : emits no_nodes (normalize_where src sp o msg) expr_nodes (good CtxPredicate).
Proof. destruct o; cbn; [apply emits_expr|emit]. Qed.

Lemma emits_delete_target d : emits no_nodes (normalize_delete_target src d) from_nodes (λ _, True).
Proof. unfold normalize_delete_target. destruct (sd_from d) as [|t [|]]; emit. destruct (bool_decide _); [apply emits_relation|emit]. Qed.

Lemma emits_unconsumed pre {B} (f : unit → N B) nodes P :
  emits pre (f tt) nodes P → emits pre (reject_unconsumed_optional_groups src ≫= f) nodes P.
Proof.
  intros Hf s r s' a0 c0 ([] & s1 & Ha & Hr)%se_bind_inv. unfold reject_unconsumed_optional_groups in Ha.
  destruct (list_find _ _) as [[]|]; [done|]. injection Ha as <-. by apply Hf.
Qed.

(** ** Statements *)
(** What is known of the expressions of a statement, clause by clause. *)
Definition good_statement (s : RenderedStatement) : Prop :=
  match s with
  | RenderSelect s =>
    Forall good_join (sel_joins s) ∧ Forall good_projection (sel_projections s) ∧ good_opt (good CtxPredicate) (sel_filter s)
    ∧ Forall good_order (sel_order_by s) ∧ good_opt good_limit (sel_limit s) ∧ good_opt good_offset (sel_offset s)
  | RenderInsert i => Forall good_row (ins_values i) ∧ Forall good_projection (ins_returning i)
  | RenderUpdate u =>
    Forall good_assignment (upd_assignments u) ∧ good CtxPredicate (upd_filter u) ∧ Forall good_projection (upd_returning u)
  | RenderDelete d => good CtxPredicate (del_filter d) ∧ Forall good_projection (del_returning d)
  end.

Lemma emits_statement ast : emits no_nodes (normalize_statement src ast)
  (λ s, statement_nodes (rendered_of s)) (λ s, good_statement (rendered_of s)).
Proof.
  assert (Hclauses : ∀ q, emits no_nodes (reject_query_clauses src q) (λ _, no_nodes) (λ _, True)).
  { intros q. unfold reject_query_clauses. emit. unfold refuse_if. destruct (q_for q); [emit|by apply emits_ret]. }
  destruct ast as [q|i|u|d|]; cbn; [| | | |emit].
  - eapply emits_bind with (nodes_a := λ s, statement_nodes (RenderSelect s)) (Pa := λ s, good_statement (RenderSelect s));
      [|intros s Hs; by apply emits_ret; [rewrite both_nil_l|]].
    unfold normalize_query. emit_call Hclauses. rewrite both_nil_r. emit. destruct (q_body q) as [sel| |]; [|emit..].
    eapply emits_bind with (nodes_a := λ _, no_nodes) (Pa := λ _, True).
    { unfold reject_select_features. emit. unfold refuse_if. destruct (ss_extras sel); [emit|by apply emits_ret]. }
    intros _ _. rewrite both_nil_r. emit. emit_call emits_relation.
    eapply emits_bind; [apply emits_map, emits_join|intros joins Hj]. eapply emits_bind; [apply emits_map, emits_item|intros ps Hps].
    eapply emits_bind; [apply emits_opt; intros e; apply (emits_expr e CtxPredicate)|intros filter Hf].
    emit_call emits_order. eapply emits_bind; [apply emits_limit_clause|intros lo [Hl Ho]]. apply emits_unconsumed. emit. by emit_ret.
  - unfold normalize_insert_statement. emit. emit_call emits_insert_target. emit. emit_call emits_values. emit_call emits_returning.
    apply emits_unconsumed. emit. apply emits_ret; destruct a2; cbn; rewrite ?both_nil_l; done.
  - unfold normalize_update_statement. emit. emit_call emits_relation. eapply emits_bind; [apply emits_map, emits_assignment|intros as_ Has].
    emit_call emits_where. emit_call emits_returning. apply emits_unconsumed. emit. apply emits_ret; destruct a1; cbn; rewrite ?both_nil_l; done.
  - unfold normalize_delete_statement. emit. emit_call emits_delete_target. emit_call emits_where. emit_call emits_returning.
    apply emits_unconsumed. emit. apply emits_ret; destruct a1; cbn; rewrite ?both_nil_l; done.
Qed.

(** ** The groups of the source are all in the statement *)
Definition checks {A} (m : N A) : Prop :=
  ∀ s r s', m s = (Ok r, s') → ∀ g, g ∈ src_groups src → group_original g ∈ consumed_optional_groups s'.

Lemma checks_bind {A B} (m : N A) (f : A → N B) : (∀ a, checks (f a)) → checks (m ≫= f).
Proof. intros Hf s r s' (a & s1 & _ & Hr)%se_bind_inv. by eapply Hf. Qed.
Lemma checks_throw {A} e : checks (throw e : N A).
Proof. by intros s r s'. Qed.
Lemma checks_end {A} sp (h : AstId → SourceSpan → A) :
  checks (_ ← reject_unconsumed_optional_groups src; id ← alloc_id; span ← lift (source_span src sp); mret (h id span)).
Proof.
  intros s r s' ([] & s1 & Hrej & (id & s2 & [= <- <-] & (span & s3 & Hspan & Hr)%se_bind_inv)%se_bind_inv)%se_bind_inv g Hg.
  injection Hspan as _ <-. injection Hr as _ <-. cbn. unfold reject_unconsumed_optional_groups in Hrej.
  destruct (list_find _ _) as [[]|] eqn:Hf; [done|]. injection Hrej as <-. apply list_find_None in Hf. rewrite Forall_forall in Hf.
  destruct (decide (group_original g ∈ consumed_optional_groups s)); [done|]. by destruct (Hf g Hg).
Qed.

Ltac check := repeat (apply checks_bind; intros ?).

Lemma checks_statement ast : checks (normalize_statement src ast).
Proof.
  assert (Hq : ∀ q, checks (normalize_query src q)).
  { intros q. unfold normalize_query. do 2 (apply checks_bind; intros _). destruct (q_body q); [|apply checks_throw..].
    do 8 (apply checks_bind; intros ?). apply (checks_end (q_sp q) (λ id span, mk_select id span _ _ _ _ _ _ _)). }
  destruct ast as [q|i|u|d|]; cbn; [| | | |apply checks_throw].
  - intros s r s' (sel & s1 & Hs & [= _ <-])%se_bind_inv. by apply (Hq q s sel).
  - unfold normalize_insert_statement. do 6 (apply checks_bind; intros ?). apply (checks_end (si_sp i) (λ id span, _)).
  - unfold normalize_update_statement. do 7 (apply checks_bind; intros ?). apply (checks_end (su_sp u) (λ id span, _)).
  - unfold normalize_delete_statement. do 5 (apply checks_bind; intros ?). apply (checks_end (sd_sp d) (λ id span, _)).
Qed.

(** ** Expression by expression *)
Lemma good_values r e : good_statement r → e ∈ value_exprs r → good CtxProjection e.
Proof.
  assert (Hps : ∀ ps, Forall good_projection ps → e ∈ map proj_expr ps → good CtxProjection e).
  { intros ps Hps (p & -> & Hp)%list_elem_of_fmap. by apply (proj1 (Forall_forall _ _) Hps). }
  destruct r as [s|i|u|d]; cbn; intros Hg.
  - destruct Hg as (_ & Hp & _). by apply Hps.
  - destruct Hg as [Hr Hp]. intros [He|He]%elem_of_app; [|by eapply Hps].
    apply elem_of_concat_map in He as (row & Hrow & He).
    exact (proj1 (Forall_forall _ _) (proj1 (Forall_forall _ _) Hr row Hrow) e He).
  - destruct Hg as (Ha & _ & Hp). intros [(a & -> & Hin)%list_elem_of_fmap|He]%elem_of_app; [|by eapply Hps].
    by apply (proj1 (Forall_forall _ _) Ha).
  - destruct Hg as [_ Hp]. by apply Hps.
Qed.

(** The clauses whose comparisons own placeholders: all but [LIMIT] and [OFFSET]. *)
Definition predicate_exprs (r : RenderedStatement) : list ParsedExpr :=
  match r with
  | RenderSelect s => map join_on (sel_joins s) ++ option_list (sel_filter s) ++ map ob_expr (sel_order_by s)
  | _ => clause_exprs r
  end.
Definition bound_exprs (r : RenderedStatement) : list ParsedExpr :=
  match r with
  | RenderSelect s => option_list (limit_expr <$> sel_limit s) ++ option_list (offset_expr <$> sel_offset s)
  | _ => []
  end.

Lemma clause_exprs_split r : clause_exprs r = predicate_exprs r ++ bound_exprs r.
Proof. destruct r; cbn; rewrite ?(right_id_L [] (++)); [|done..]. by rewrite <- !(assoc_L (++)). Qed.

Lemma elem_of_option_list {A} (o : option A) x : x ∈ option_list o ↔ o = Some x.
Proof. destruct o; cbn; [|set_solver]. rewrite list_elem_of_singleton. naive_solver. Qed.

Lemma good_predicates r e : good_statement r → e ∈ predicate_exprs r → floating e = [] ∧ ∃ ctx, good ctx e.
Proof.
  assert (Hpred : ∀ ctx, owned ctx e = (floating e = []) → good ctx e → floating e = [] ∧ ∃ ctx, good ctx e).
  { intros ctx Ho Hg. split; [|by exists ctx]. destruct Hg as [H _]. by rewrite Ho in H. }
  destruct r as [s|i|u|d]; cbn; intros Hg.
  - destruct Hg as (Hj & _ & Hf & Ho & _). intros [(j & -> & Hin)%list_elem_of_fmap|[He%elem_of_option_list|(o & -> & Hin)%list_elem_of_fmap]%elem_of_app]%elem_of_app.
    + apply (Hpred CtxPredicate); [done|]. by apply (proj1 (Forall_forall _ _) Hj).
    + apply (Hpred CtxPredicate); [done|]. by apply Hf.
    + apply (Hpred CtxOrderBy); [done|]. by apply (proj1 (Forall_forall _ _) Ho).
  - set_solver.
  - destruct Hg as (_ & Hf & _). intros ->%list_elem_of_singleton. by apply (Hpred CtxPredicate).
  - destruct Hg as [Hf _]. intros ->%list_elem_of_singleton. by apply (Hpred CtxPredicate).
Qed.

Lemma good_bounds r e : good_statement r → e ∈ bound_exprs r → ∃ ctx, good ctx e.
Proof.
  destruct r as [s|i|u|d]; cbn; [|set_solver..]. intros (_ & _ & _ & _ & Hl & Ho).
  intros [He|He]%elem_of_app; apply elem_of_option_list, fmap_Some in He as (x & Hx & ->); eexists; [by apply Hl|by apply Ho].
Qed.

Lemma good_all r e : good_statement r → e ∈ value_exprs r ++ clause_exprs r → ∃ ctx, good ctx e.
Proof.
  intros Hg. rewrite clause_exprs_split. intros [He|[He|He]%elem_of_app]%elem_of_app.
  - eexists. by eapply good_values.
  - by apply (good_predicates r).
  - by apply (good_bounds r).
Qed.
End facts.

Record normalized (src : SqlSource) (next : Z) (r : RenderedStatement) : Prop := {
  norm_ids : (statement_nodes r).1 = range 0 next;
  norm_groups : ∀ span, span ∈ (statement_nodes r).2 ↔ span ∈ map group_original (src_groups src);
  norm_owned : ∀ e, e ∈ value_exprs r ++ predicate_exprs r → floating e = [];
  norm_refers : ∀ p, p ∈ statement_placeholders r → refers src p;
}.

Lemma statement_groups_in r span : span ∈ (statement_nodes r).2 → ∃ e, e ∈ value_exprs r ++ clause_exprs r ∧ span ∈ (expr_nodes e).2.
Proof.
  assert (Hmap : ∀ {A} (f : A → Nodes) (g : A → ParsedExpr) l, (∀ a, (f a).2 = (expr_nodes (g a)).2) →
    span ∈ (gather f l).2 → ∃ e, e ∈ map g l ∧ span ∈ (expr_nodes e).2).
  { intros A f g l Hfg (a & Ha & Hs)%elem_of_gather. exists (g a). rewrite <- Hfg. split; [|done]. apply list_elem_of_fmap. eauto. }
  assert (Hopt : ∀ {A} (f : A → Nodes) (g : A → ParsedExpr) o, (∀ a, (f a).2 = (expr_nodes (g a)).2) →
    span ∈ (gather_opt f o).2 → ∃ e, e ∈ option_list (g <$> o) ∧ span ∈ (expr_nodes e).2).
  { intros A f g [a|] Hfg Hs; cbn in *; [|set_solver]. exists (g a). rewrite <- Hfg. set_solver. }
  assert (Hid : ∀ (o : option ParsedExpr), option_list (id <$> o) = option_list o) by (by intros []).
  destruct r as [s|i|u|d]; cbn; rewrite ?(right_id_L [] (++)), ?elem_of_app.
  - intros [[[[[Hs|Hs]|Hs]|Hs]|Hs]|Hs]; first [apply (Hmap _ _ join_on) in Hs|apply (Hmap _ _ proj_expr) in Hs|apply (Hmap _ _ ob_expr) in Hs
      |apply (Hopt _ _ id) in Hs; rewrite ?Hid in Hs|apply (Hopt _ _ limit_expr) in Hs|apply (Hopt _ _ offset_expr) in Hs];
      try done; destruct Hs as (e & He & Hs); exists e; rewrite !elem_of_app; auto 7.
  - intros [(row & Hrow & Hs)%elem_of_gather|Hs].
    + cbn in Hs. rewrite (right_id_L [] (++)) in Hs. apply elem_of_gather in Hs as (e & He & Hs). exists e. split; [|done].
      assert (Hrows : e ∈ concat (map row_values (ins_values i))) by (apply elem_of_concat_map; eauto). rewrite !elem_of_app. tauto.
    + apply (Hmap _ _ proj_expr) in Hs as (e & He & Hs); [|done]. exists e. rewrite !elem_of_app. auto.
  - intros [[Hs|Hs]|Hs].
    + apply (Hmap _ _ as_value) in Hs as (e & He & Hs); [|done]. exists e. rewrite !elem_of_app. auto.
    + exists (upd_filter u). set_solver.
    + apply (Hmap _ _ proj_expr) in Hs as (e & He & Hs); [|done]. exists e. rewrite !elem_of_app. auto.
  - intros [Hs|Hs]; [exists (del_filter d); set_solver|].
    apply (Hmap _ _ proj_expr) in Hs as (e & He & Hs); [|done]. exists e. rewrite !elem_of_app. auto.
Qed.

Lemma normalize_good src ast st s : normalize_statement src ast Normalizer_new = (Ok st, s) → good_statement src (rendered_of st).
Proof. intros H. by destruct (emits_statement src ast _ _ _ 0 [] H (Z.le_refl _) (eq_sym (range_nil 0)) eq_refl) as (_ & _ & _ & Hg). Qed.

Lemma normalize_refers src ast st s p : normalize_statement src ast Normalizer_new = (Ok st, s) →
  p ∈ statement_placeholders (rendered_of st) → refers src p.
Proof.
  intros H%normalize_good Hp. unfold statement_placeholders in Hp. apply elem_of_concat_map in Hp as (e & He & Hp).
  destruct (good_all _ _ _ H He) as (ctx & _ & Hr & _). auto.
Qed.


(** ** Examples *)
Local Open Scope str_scope.
(** The parser's span of the bytes [a] to [b] of a text of one line; columns count from one. *)
Definition sp_at (a b : Z) : PSpan := mk_pspan (mk_location 1 (a + 1)) (mk_location 1 (b + 1)).
Definition sp_ident (s : str) (a : Z) : SpIdent := mk_sp_ident s (sp_at a (a + len s)).
(** [binding.column], at [a]. *)
Definition sp_column (binding column : str) (a : Z) : SpExpr :=
  ECompound [sp_ident binding a; sp_ident column (a + len binding + 1)] (sp_at a (a + len binding + 1 + len column)).
Definition sp_users : TableFactor :=
  TFTable (mk_sp_name [NIdent (sp_ident "users"%s 17)] (sp_at 17 22)) (Some (mk_alias (sp_ident "u"%s 23) false (sp_at 23 24))) false (sp_at 17 24).

Definition select_u_id (filter : SpExpr) (limit : option LimitClause) (n : Z) : SpStatement :=
  StQuery (mk_sp_query false false false false false
    (SeSelect (mk_sp_select false false [SiUnnamed (sp_column "u"%s "id"%s 7) (sp_at 7 11)] [mk_twj sp_users []] (Some filter) (sp_at 0 n)))
    None limit (sp_at 0 n)).

(** The tree of [example_sql]'s canonical text, [... WHERE u.id = $1 AND (u.name = $2 OR u.id= $1)]. *)
Definition example_ast : SpStatement :=
  select_u_id
    (EBinary (EBinary (sp_column "u"%s "id"%s 31) BoEq (EValue (VPlaceholder "$1"%s) (sp_at 38 40)) (sp_at 31 40)) BoAnd
      (ENested (EBinary (EBinary (sp_column "u"%s "name"%s 46) BoEq (EValue (VPlaceholder "$2"%s) (sp_at 55 57)) (sp_at 46 57)) BoOr
        (EBinary (sp_column "u"%s "id"%s 61) BoEq (EValue (VPlaceholder "$1"%s) (sp_at 67 69)) (sp_at 61 69)) (sp_at 46 69)) (sp_at 46 69))
      (sp_at 31 69)) None 70.

Definition source_of (sql : str) : SqlSource := match canonicalize sql with Ok src => src | Err _ => mk_source [] [] [] [] [] [] end.
Definition where_of (r : result TypedSqlError ParsedStatement * Normalizer) : option ParsedExpr :=
  match r.1 with Ok st => as_select st ≫= sel_filter | Err _ => None end.


(** Parentheses inside an optional group are taken for the group: the mandatory half of the
    predicate becomes a group of its own, with no placeholder, which lowering makes a switch. *)
Example inner_parentheses :
  let src := source_of "SELECT u.id FROM users u WHERE ((u.id = 1) AND u.name = $name?)?" in
  let inner := EBinary (sp_column "u"%s "id"%s 33) BoEq (EValue (VNumber "1"%s) (sp_at 40 41)) (sp_at 33 41) in
  let outer := EBinary (ENested inner (sp_at 33 41)) BoAnd
    (EBinary (sp_column "u"%s "name"%s 47) BoEq (EValue (VPlaceholder "$1"%s) (sp_at 56 58)) (sp_at 47 58)) (sp_at 33 58) in
  length (src_groups src) = 1%nat ∧
  (λ e, length (expr_nodes e).2) <$> where_of (normalize_statement src (select_u_id (ENested outer (sp_at 33 58)) None 59) Normalizer_new)
    = Some 2%nat.
Proof. by split; vm_compute. Qed.

(** [LIMIT -$n?] is accepted, though the placeholder is not the whole of the clause. *)
Example signed_limit :
  let src := source_of "SELECT u.id FROM users u WHERE u.id = $id LIMIT -$n?" in
  is_ok (normalize_statement src (select_u_id
    (EBinary (sp_column "u"%s "id"%s 31) BoEq (EValue (VPlaceholder "$1"%s) (sp_at 38 40)) (sp_at 31 40))
    (Some (LcLimitOffset (Some (EUnary UoMinus (EValue (VPlaceholder "$2"%s) (sp_at 48 50)) (sp_at 47 50))) None false (sp_at 41 50))) 50)
    Normalizer_new).1.
Proof. by eexists; vm_compute. Qed.

(** A chain of AND in a projection may have optional placeholders, which nothing leaves out. *)
Example optional_projection :
  let src := source_of "SELECT u.id = $id? AND u.ok FROM users u" in
  let e := EBinary (EBinary (sp_column "u"%s "id"%s 7) BoEq (EValue (VPlaceholder "$1"%s) (sp_at 14 16)) (sp_at 7 16)) BoAnd
    (sp_column "u"%s "ok"%s 21) (sp_at 7 25) in
  match (normalize_expr src e CtxProjection Normalizer_new).1 with Ok e => map ph_optional (placeholders_of e) | Err _ => [] end = [true].
Proof. by vm_compute. Qed.
