(* ===== verification/Pipeline.v ===== *)
(** * Typed SQL: from the source text to the lowered query

    The compiler's stages compose: what [SqlSourceFacts] and [NormalizeFacts] prove of the
    placeholders of a normalised statement, and what the analysis of [resolver.rs] records of
    them, give the well-formedness that the theorems of [LowerFacts.v] on the variants of a
    statement assume.

    The first part follows the analysis once more, with the judgement [logs]: the inference
    context records the occurrences analysed, and nothing else. *)
From S2P Require Import Prelude Text SqlIr SqlSource SqlSourceFacts Resolver ResolverFacts StatementTyping Lower LowerFacts Normalize NormalizeFacts.

Local Open Scope Z_scope.

(** ** What the context records of the placeholders analysed *)
Definition numbered_ref (r : PlaceholderRef) : Prop := ph_slot r = placeholder_id r + 1.

Definition occurs_in (l : list PlaceholderRef) (p : PlaceholderId) : Prop := ∃ r, r ∈ l ∧ placeholder_id r = p.

Record recorded (l : list PlaceholderRef) (ctx : InferenceContext) : Prop := {
  rec_id : ∀ p s, placeholders ctx !! p = Some s → ps_id s = p;
  rec_slot : ∀ p s, placeholders ctx !! p = Some s → ps_slot s = Some (p + 1);
  rec_optional : ∀ p s, placeholders ctx !! p = Some s → (ps_optional s = true ↔ ∃ r, r ∈ l ∧ placeholder_id r = p ∧ ph_optional r = true);
  rec_seen : ∀ p, is_Some (placeholders ctx !! p) ↔ occurs_in l p;
  rec_pending : Forall (λ pc, occurs_in l (pc_left pc) ∧ occurs_in l (pc_right pc)) (pending ctx);
}.

Lemma recorded_new : recorded [] InferenceContext_new.
Proof.
  split; [set_solver..| |constructor]. intros p. unfold occurs_in. split; [intros [s Hs]; set_solver|intros (r & Hr & _); set_solver].
Qed.

Lemma occurs_in_app l l' p : occurs_in l p → occurs_in (l ++ l') p.
Proof. intros (r & Hr & <-). exists r. set_solver. Qed.

(** [f] changes neither the id, nor the slot, nor the suffix. *)
Definition unrecorded (f : PlaceholderState → PlaceholderState) : Prop :=
  ∀ s, ps_id (f s) = ps_id s ∧ ps_slot (f s) = ps_slot s ∧ ps_optional (f s) = ps_optional s.

Lemma recorded_update l ctx p span f : unrecorded f → occurs_in l p → recorded l ctx → recorded l (update_placeholder p span f ctx).
Proof.
  intros Hf Hp [Hid Hslot Hopt Hseen Hpend]. apply Hseen in Hp as Hs0. destruct Hs0 as [s0 Hs0].
  unfold update_placeholder. rewrite Hs0. cbn. destruct (Hf s0) as (Hfid & Hfslot & Hfopt). split; cbn; [..|done].
  - intros q s [[<- <-]|[? ?]]%lookup_insert_Some; [|by apply Hid]. rewrite Hfid. by apply Hid.
  - intros q s [[<- <-]|[? ?]]%lookup_insert_Some; [|by apply Hslot]. rewrite Hfslot. by apply Hslot.
  - intros q s [[<- <-]|[? ?]]%lookup_insert_Some; [|by apply Hopt]. rewrite Hfopt. by apply Hopt.
  - intros q. rewrite lookup_insert_is_Some', Hseen. naive_solver.
Qed.

Lemma recorded_observe l ctx r : numbered_ref r → recorded l ctx →
  recorded (l ++ [r]) (observe_placeholder (from_placeholder r) ctx).2.
Proof.
  intros Hr [Hid Hslot Hopt Hseen Hpend]. unfold observe_placeholder, update_placeholder. cbn. split; cbn.
  - intros q s [[<- <-]|[? ?]]%lookup_insert_Some; [|by apply Hid]. cbn.
    destruct (placeholders ctx !! placeholder_id r) as [s|] eqn:Hp; [|done]. by apply Hid.
  - intros q s [[<- <-]|[? ?]]%lookup_insert_Some; [|by apply Hslot]. cbn. by rewrite Hr.
  - intros q s [[<- <-]|[Hne Hs]]%lookup_insert_Some; cbn.
    + rewrite orb_true_iff. destruct (placeholders ctx !! placeholder_id r) as [s|] eqn:Hp; cbn.
      * rewrite (Hopt _ _ Hp). setoid_rewrite elem_of_app. setoid_rewrite list_elem_of_singleton. naive_solver.
      * split; [intros [?|?]; [done|]; exists r; set_solver|]. intros (r' & [Hr'| ->%list_elem_of_singleton]%elem_of_app & Hrr & ?); [|by right].
        assert (Hs' : is_Some (placeholders ctx !! placeholder_id r)) by (apply Hseen; by exists r'). rewrite Hp in Hs'. by destruct Hs'.
    + rewrite (Hopt _ _ Hs). setoid_rewrite elem_of_app. setoid_rewrite list_elem_of_singleton. naive_solver.
  - intros q. rewrite lookup_insert_is_Some', Hseen. unfold occurs_in. setoid_rewrite elem_of_app. setoid_rewrite list_elem_of_singleton. naive_solver.
  - eapply Forall_impl; [exact Hpend|]. intros pc [? ?]. by split; apply occurs_in_app.
Qed.

(** A computation that, when it succeeds, records the occurrences [l]; [logs_if] assumes something
    of those recorded before. *)
Definition logs_if {A} (R : list PlaceholderRef → Prop) (m : Infer A) (l : list PlaceholderRef) : Prop :=
  Forall numbered_ref l → ∀ pre ctx a ctx', R pre → m ctx = (Ok a, ctx') → recorded pre ctx → recorded (pre ++ l) ctx'.
Definition logs {A} (m : Infer A) (l : list PlaceholderRef) : Prop := logs_if (λ _, True) m l.

(** The placeholder that an expression is, if it is one, is recorded. *)
Definition has (m : ExprMeta) (l : list PlaceholderRef) : Prop := ∀ p, meta_type m = Placeholder p → occurs_in l p.
Definition meta_logs (m : Infer ExprMeta) (l : list PlaceholderRef) : Prop :=
  Forall numbered_ref l → ∀ pre ctx a ctx', m ctx = (Ok a, ctx') → recorded pre ctx → recorded (pre ++ l) ctx' ∧ has a (pre ++ l).

Section rules.
Context {A B : Type}.

Lemma logs_if_ret R (a : A) : logs_if R (mret a) [].
Proof. intros _ pre ctx b ctx' _ [= <- <-]. by rewrite (right_id_L [] (++)). Qed.
Lemma logs_ret (a : A) : logs (mret a) [].
Proof. apply logs_if_ret. Qed.
Lemma logs_if_any R (m : Infer A) l : (∀ ctx a ctx', m ctx ≠ (Ok a, ctx')) → logs_if R m l.
Proof. intros Hm _ pre ctx a ctx' _ H. by destruct (Hm _ _ _ H). Qed.
Lemma logs_any (m : Infer A) l : (∀ ctx a ctx', m ctx ≠ (Ok a, ctx')) → logs m l.
Proof. apply logs_if_any. Qed.
Lemma logs_if_lift R (r : result TypedSqlError A) : logs_if R (lift r) [].
Proof. intros _ pre ctx a ctx' _ [= _ <-]. by rewrite (right_id_L [] (++)). Qed.
Lemma logs_if_bind R (m : Infer A) (f : A → Infer B) l1 l2 : logs_if R m l1 → (∀ a, logs (f a) l2) → logs_if R (m ≫= f) (l1 ++ l2).
Proof.
  intros Hm Hf [H1 H2]%Forall_app pre ctx b ctx' HR (a & ctx1 & Ha & Hb)%se_bind_inv Hrec. rewrite (assoc_L (++)).
  by eapply Hf; [done|done|done|]; eapply Hm.
Qed.
Lemma logs_bind (m : Infer A) (f : A → Infer B) l1 l2 : logs m l1 → (∀ a, logs (f a) l2) → logs (m ≫= f) (l1 ++ l2).
Proof. apply logs_if_bind. Qed.
Lemma logs_if_then R (m : Infer A) (f : A → Infer B) l : logs_if R m l → (∀ a, logs (f a) []) → logs_if R (m ≫= f) l.
Proof. intros Hm Hf. pose proof (logs_if_bind R m f l [] Hm Hf) as H. by rewrite (right_id_L [] (++)) in H. Qed.
Lemma logs_then (m : Infer A) (f : A → Infer B) l : logs m l → (∀ a, logs (f a) []) → logs (m ≫= f) l.
Proof. apply logs_if_then. Qed.
Lemma logs_bind_lift (r : result TypedSqlError A) (f : A → Infer B) l : (∀ a, r = Ok a → logs (f a) l) → logs (lift r ≫= f) l.
Proof. intros Hf Hl pre ctx b ctx' _ (a & ctx1 & [= -> <-] & Hb)%se_bind_inv Hrec. by eapply (Hf a). Qed.
End rules.

Lemma logs_meta {A} (m : Infer ExprMeta) (f : ExprMeta → Infer A) l : meta_logs m l → (∀ a, logs_if (has a) (f a) []) → logs (m ≫= f) l.
Proof.
  intros Hm Hf Hl pre ctx b ctx' _ (a & ctx1 & Ha & Hb)%se_bind_inv Hrec. destruct (Hm Hl _ _ _ _ Ha Hrec) as [Hrec1 Hhas].
  pose proof (Hf a (Forall_nil_2 _) _ _ _ _ Hhas Hb Hrec1) as H. by rewrite (right_id_L [] (++)) in H.
Qed.

Lemma meta_logs_logs m l : meta_logs m l → logs m l.
Proof. intros Hm Hl pre ctx a ctx' _ Ha Hrec. by apply (Hm Hl _ _ _ _ Ha Hrec). Qed.

(** The result is not a placeholder. *)
Lemma logs_meta_logs m l : logs m l → (∀ ctx a ctx', m ctx = (Ok a, ctx') → ∀ p, meta_type a ≠ Placeholder p) → meta_logs m l.
Proof.
  intros Hm Hn Hl pre ctx a ctx' Ha Hrec. split; [by eapply Hm|]. intros p Hp. by destruct (Hn _ _ _ Ha p).
Qed.

Lemma recorded_pending l ps qs qs' : Forall (λ pc, occurs_in l (pc_left pc) ∧ occurs_in l (pc_right pc)) qs' →
  recorded l (mk_context ps qs) → recorded l (mk_context ps qs').
Proof. intros Hq [H1 H2 H3 H4 H5]. by split. Qed.

Lemma logs_expect p t n span : logs_if (λ l, occurs_in l p) (expect_placeholder p t n span) [].
Proof.
  intros _ pre ctx a ctx' Hp H Hrec. rewrite (right_id_L [] (++)). unfold expect_placeholder in H.
  assert (Hw := recorded_update _ _ p span (widen_state n) ltac:(done) Hp Hrec).
  destruct (ps_inferred _); [case_bool_decide|]; [by injection H as <- <-|done|]. injection H as <- <-. by apply recorded_update.
Qed.

Lemma logs_relate p q span : logs_if (λ l, occurs_in l p ∧ occurs_in l q) (relate_placeholders p q span) [].
Proof.
  intros _ pre ctx a ctx' [Hp Hq] [= <- <-] Hrec. rewrite (right_id_L [] (++)). do 2 (apply recorded_update; [done|done|]).
  case_bool_decide; [done|]. destruct ctx. eapply recorded_pending; [|exact Hrec]. apply Forall_app_2; [apply (rec_pending _ _ Hrec)|].
  by apply Forall_singleton.
Qed.

Lemma logs_constraint pc b : logs_if (λ l, occurs_in l (pc_left pc) ∧ occurs_in l (pc_right pc)) (solve_constraint pc b) [].
Proof.
  intros Hl pre ctx a ctx' [Hp Hq] H Hrec. unfold solve_constraint in H.
  destruct (placeholder_sql_type _ _), (placeholder_sql_type _ _); [case_bool_decide; [|done]| | |].
  - injection H as <- <-. by rewrite (right_id_L [] (++)).
  - exact (logs_if_then _ _ _ _ (logs_expect _ _ _ _) (λ _, logs_ret _) Hl _ _ _ _ Hq H Hrec).
  - exact (logs_if_then _ _ _ _ (logs_expect _ _ _ _) (λ _, logs_ret _) Hl _ _ _ _ Hp H Hrec).
  - injection H as <- <-. by rewrite (right_id_L [] (++)).
Qed.

Lemma solve_round_recorded l b pre ctx r ctx' : Forall (λ pc, occurs_in pre (pc_left pc) ∧ occurs_in pre (pc_right pc)) l →
  solve_round l b ctx = (Ok r, ctx') → recorded pre ctx → recorded pre ctx'.
Proof.
  intros Hl. revert b ctx. induction Hl as [|pc l Hpc _ IH]; intros b ctx; cbn; [by intros [= <- <-]|].
  intros (b1 & ctx1 & H1 & H)%se_bind_inv Hrec. apply (IH _ _ H).
  pose proof (logs_constraint pc b (Forall_nil_2 _) _ _ _ _ Hpc H1 Hrec) as Hrec1. by rewrite (right_id_L [] (++)) in Hrec1.
Qed.

Lemma solve_loop_recorded fuel l ctx r ctx' : solve_loop fuel ctx = Some (Ok r, ctx') → recorded l ctx → recorded l ctx'.
Proof.
  revert ctx. induction fuel as [|fuel IH]; intros ctx; cbn; [done|].
  destruct (solve_round (pending ctx) false ctx) as [[b|e] ctx1] eqn:Hr; [|done].
  intros H Hrec. pose proof (solve_round_recorded _ _ _ _ _ _ (rec_pending _ _ Hrec) Hr Hrec) as Hrec1.
  destruct b; [by eapply IH|]. by injection H as <- <-.
Qed.

(** Solving records nothing, and leaves no placeholder without a type. *)
Lemma logs_solve : logs solve [].
Proof.
  intros _ pre ctx a ctx' _ H Hrec. rewrite (right_id_L [] (++)). unfold solve in H.
  destruct (solve_loop _ ctx) as [[[u|e] ctx1]|] eqn:Hl; [|done..]. pose proof (solve_loop_recorded _ _ _ _ _ Hl Hrec) as Hrec1.
  unfold check_solved in H. destruct (unresolved ctx1); [|done]. by injection H as <- <-.
Qed.

(** ** The analysis of expressions *)
Lemma logs_weaken {A} (R R' : list PlaceholderRef → Prop) (m : Infer A) l : (∀ pre, R pre → R' pre) → logs_if R' m l → logs_if R m l.
Proof. intros HR Hm Hl pre ctx a ctx' Hpre Ha Hrec. eapply Hm; eauto. Qed.

Ltac no_log := first [apply logs_if_ret|by apply logs_if_any
  |match goal with |- logs_if _ (if ?b then _ else _) _ => destruct b end; first [apply logs_if_ret|by apply logs_if_any]].

Lemma logs_comparison l ls r rs span : logs_if (λ pre, has l pre ∧ has r pre) (constrain_comparison l ls r rs span) [].
Proof.
  unfold constrain_comparison, has. destruct (meta_type l), (meta_type r); try no_log;
    first [eapply logs_weaken; [|apply logs_expect]; intros pre [H1 H2]; auto
          |eapply logs_weaken; [|apply logs_relate]; intros pre [H1 H2]; auto].
Qed.

Lemma logs_observe r : logs (observe_placeholder (from_placeholder r)) [r].
Proof.
  intros [Hr _]%Forall_cons pre ctx a ctx' _ H Hrec. pose proof (recorded_observe pre ctx r Hr Hrec) as Ho. by rewrite H in Ho.
Qed.

Section analysis.
Context (c : SchemaCatalog) (sc : Scope) (bs : list ResolvedBinding) (env : RowEnv).

Lemma logs_terms span ts rs n :
  Forall (λ t, ∀ r, resolve_expr c sc bs t = Ok r → meta_logs (analyze_expr env c r) (placeholders_of t)) ts →
  Forall2 (λ t r, resolve_expr c sc bs t = Ok r) ts rs →
  logs (analyze_terms (analyze_expr env c) span rs n) (concat (map placeholders_of ts)).
Proof.
  intros Hall H2. revert n. induction H2 as [|t r ts rs Ht _ IH]; intros n; cbn; [apply logs_ret|].
  apply Forall_cons in Hall as [Ht1 Hall]. apply logs_bind; [by apply meta_logs_logs, Ht1|]. intros m.
  case_bool_decide; [by apply IH|]. by apply logs_any.
Qed.

(** Ends with a meta that is not a placeholder. *)
Ltac ends_value := intros ? ? ?; intros; repeat match goal with
  | H : (_ ≫= _) _ = (Ok _, _) |- _ => apply se_bind_inv in H as (? & ? & _ & H)
  | H : mret _ _ = (Ok _, _) |- _ => injection H as <- <-
  | H : (if ?b then _ else _) _ = (Ok _, _) |- _ => destruct b
  | H : throw _ _ = (Ok _, _) |- _ => discriminate H
  end; done.

Lemma meta_logs_same (m : Infer ExprMeta) (f : ExprMeta → Infer ExprMeta) l : meta_logs m l →
  (∀ a ctx b ctx', f a ctx = (Ok b, ctx') → ctx' = ctx ∧ ∀ p, meta_type b = Placeholder p → meta_type a = Placeholder p) → meta_logs (m ≫= f) l.
Proof.
  intros Hm Hf Hl pre ctx b ctx' (a & ctx1 & Ha & Hb)%se_bind_inv Hrec. destruct (Hm Hl _ _ _ _ Ha Hrec) as [Hrec1 Hhas].
  destruct (Hf _ _ _ _ Hb) as [-> Hsame]. split; [done|]. intros p Hp. by apply Hhas, Hsame.
Qed.

Lemma meta_logs_binary (ml mr : Infer ExprMeta) l1 l2 ls rs span (g : ExprMeta → ExprMeta → ExprMeta) :
  (∀ a b p, meta_type (g a b) ≠ Placeholder p) → meta_logs ml l1 → meta_logs mr l2 →
  meta_logs (l ← ml; r ← mr; _ ← constrain_comparison l ls r rs span; mret (g l r)) (l1 ++ l2).
Proof.
  intros Hg Hml Hmr [H1 H2]%Forall_app pre ctx b ctx' (a & ctx1 & Ha & (a' & ctx2 & Ha' & ([] & ctx3 & Hc & [= <- <-])%se_bind_inv)%se_bind_inv)%se_bind_inv Hrec.
  destruct (Hml H1 _ _ _ _ Ha Hrec) as [Hrec1 Hhas1]. destruct (Hmr H2 _ _ _ _ Ha' Hrec1) as [Hrec2 Hhas2].
  rewrite (assoc_L (++)). assert (Hb : has a ((pre ++ l1) ++ l2) ∧ has a' ((pre ++ l1) ++ l2)).
  { split; [|done]. intros p Hp. by apply occurs_in_app, Hhas1. }
  pose proof (logs_comparison _ _ _ _ _ (Forall_nil_2 _) _ _ _ _ Hb Hc Hrec2) as Hrec3. rewrite (right_id_L [] (++)) in Hrec3.
  split; [done|]. intros p Hp. by destruct (Hg a a' p).
Qed.

Lemma logs_expr e : ∀ r, resolve_expr c sc bs e = Ok r → meta_logs (analyze_expr env c r) (placeholders_of e).
Proof.
  induction e as [col|p|l|id span e IH|id span op e IH|id span op l r IHl IHr|id span b e IH|id span op ts IH] using parsed_expr_ind;
    intros res; cbn; intros H; repeat (apply result_bind_Ok in H as (? & H' & H)); try (injection H as <-); try (injection H' as <-); cbn.
  - apply result_bind_Ok in H' as (? & _ & [= <-]). apply logs_meta_logs; [apply logs_ret|ends_value].
  - intros Hl pre ctx a ctx' (u & ctx1 & Hobs & (n & ctx2 & [= <- <-] & [= <- <-])%se_bind_inv)%se_bind_inv Hrec.
    split; [by apply (logs_observe p Hl _ _ _ _ I Hobs)|]. intros q [= <-]. exists p. set_solver.
  - apply logs_meta_logs; [apply logs_ret|]. intros ctx a ctx' [= <- <-] p. cbn. destruct (lit_value l) as [d| | |]; cbn; try done. by destruct (is_integer_literal d).
  - apply result_bind_Ok in H' as (i & Hi & [= <-]). cbn. by apply IH.
  - apply result_bind_Ok in H' as (i & Hi & [= <-]). cbn. destruct op; (apply meta_logs_same; [by apply IH|]); intros m ctx b ctx'.
    + case_bool_decide; [by intros [= <- <-]|done].
    + by intros (u & ctx1 & [= _ <-] & [= <- <-])%se_bind_inv.
    + by intros (u & ctx1 & [= _ <-] & [= <- <-])%se_bind_inv.
  - apply result_bind_Ok in H' as (l' & Hl & (r' & Hr & [= <-])%result_bind_Ok). cbn.
    by apply meta_logs_binary; [|apply IHl|apply IHr].
  - apply result_bind_Ok in H' as (i & Hi & [= <-]). cbn. apply logs_meta_logs; [|ends_value].
    apply logs_then; [by apply meta_logs_logs, IH|intros; apply logs_ret].
  - apply result_bind_Ok in H' as (rs & Hrs & [= <-]). cbn. apply map_result_Ok in Hrs. apply logs_meta_logs; [|ends_value].
    apply logs_then; [by eapply logs_terms|intros n; apply logs_ret].
Qed.
End analysis.

(** ** The analysis of statements *)
Definition option_refs (o : option ParsedExpr) : list PlaceholderRef := match o with Some e => placeholders_of e | None => [] end.
Definition list_refs {A} (f : A → ParsedExpr) (l : list A) : list PlaceholderRef := concat (map (λ a, placeholders_of (f a)) l).

(** The occurrences of a statement, in the order of its analysis. *)
Definition analysed_refs (r : RenderedStatement) : list PlaceholderRef :=
  match r with
  | RenderSelect s =>
    list_refs join_on (sel_joins s) ++ option_refs (sel_filter s) ++ list_refs proj_expr (sel_projections s)
    ++ list_refs ob_expr (sel_order_by s) ++ option_refs (limit_expr <$> sel_limit s) ++ option_refs (offset_expr <$> sel_offset s)
  | RenderInsert i => concat (map (λ row, list_refs id (row_values row)) (ins_values i)) ++ list_refs proj_expr (ins_returning i)
  | RenderUpdate u => list_refs as_value (upd_assignments u) ++ placeholders_of (upd_filter u) ++ list_refs proj_expr (upd_returning u)
  | RenderDelete d => placeholders_of (del_filter d) ++ list_refs proj_expr (del_returning d)
  end.

Lemma elem_of_list_refs {A} (f : A → ParsedExpr) l p : p ∈ list_refs f l ↔ ∃ e, e ∈ map f l ∧ p ∈ placeholders_of e.
Proof.
  unfold list_refs. rewrite elem_of_concat_map. setoid_rewrite list_elem_of_fmap. split.
  - intros (a & Ha & Hp). exists (f a). split; [by exists a|done].
  - intros (? & (a & -> & Ha) & Hp). by exists a.
Qed.
Lemma elem_of_option_refs o p : p ∈ option_refs o ↔ ∃ e, e ∈ option_list o ∧ p ∈ placeholders_of e.
Proof.
  destruct o as [e|]; cbn; [|set_solver]. split; [intros Hp; exists e; split; [by apply list_elem_of_singleton|done]|].
  by intros (e' & ->%list_elem_of_singleton & Hp).
Qed.

Lemma ex_app {A} (l1 l2 : list A) (P : A → Prop) : (∃ e, e ∈ l1 ++ l2 ∧ P e) ↔ (∃ e, e ∈ l1 ∧ P e) ∨ (∃ e, e ∈ l2 ∧ P e).
Proof. setoid_rewrite elem_of_app. naive_solver. Qed.
Lemma ex_nil {A} (P : A → Prop) : (∃ e, e ∈ @nil A ∧ P e) ↔ False.
Proof. set_solver. Qed.
Lemma ex_singleton {A} x (P : A → Prop) : (∃ e, e ∈ [x] ∧ P e) ↔ P x.
Proof. split; [by intros (e & ->%list_elem_of_singleton & H)|]. intros H. exists x. split; [by apply list_elem_of_singleton|done]. Qed.

Lemma elem_of_analysed r p : p ∈ analysed_refs r ↔ p ∈ statement_placeholders r.
Proof.
  unfold statement_placeholders. rewrite elem_of_concat_map.
  assert (Hrows : ∀ rows, p ∈ concat (map (λ row, list_refs id (row_values row)) rows) ↔
    ∃ e, e ∈ concat (map row_values rows) ∧ p ∈ placeholders_of e).
  { intros rows. setoid_rewrite elem_of_concat_map. setoid_rewrite elem_of_list_refs. setoid_rewrite list_elem_of_fmap. unfold id. split.
    - intros (row & Hrow & e & (? & -> & He) & Hp). eauto.
    - intros (e & (row & Hrow & He) & Hp). exists row. split; [done|]. exists e. eauto. }
  destruct r as [s|i|u|d]; cbn [analysed_refs value_exprs clause_exprs]; rewrite ?elem_of_app, ?elem_of_list_refs, ?elem_of_option_refs, ?Hrows;
    rewrite ?ex_app, ?ex_nil, ?ex_singleton; tauto.
Qed.

Section statements.
Context (c : SchemaCatalog).

Lemma logs_for_each {A} (f : A → Infer unit) (g : A → list PlaceholderRef) l : Forall (λ a, logs (f a) (g a)) l → logs (for_each f l) (concat (map g l)).
Proof. induction 1; cbn; [apply logs_ret|]. by apply logs_bind. Qed.

Lemma logs_predicate sc bs env e r : resolve_expr c sc bs e = Ok r → logs (analyze_predicate env c r) (placeholders_of e).
Proof. intros H. apply logs_meta; [by eapply logs_expr|]. intros m. apply logs_if_lift. Qed.

Lemma logs_limit sc bs env e r : resolve_expr c sc bs e = Ok r → logs (analyze_limit env c r) (placeholders_of e).
Proof.
  intros H. apply logs_meta; [by eapply logs_expr|]. intros m. unfold require_limit_like, has.
  destruct (meta_type m); try no_log. eapply logs_weaken; [|apply logs_expect]. intros pre H'; by apply H'.
Qed.

Lemma logs_option sc bs (f : ResolvedExpr → Infer unit) o r :
  (∀ e r, resolve_expr c sc bs e = Ok r → logs (f r) (placeholders_of e)) → resolve_option (resolve_expr c sc bs) o = Ok r →
  logs (analyze_option f r) (option_refs o).
Proof.
  intros Hf. destruct o as [e|]; cbn; [intros (r' & Hr & [= <-])%result_bind_Ok|intros [= <-]]; cbn; [by apply Hf|apply logs_ret].
Qed.

Lemma logs_projection clause sc bs env p rp : resolve_projection c sc bs p = Ok rp →
  logs (analyze_projection clause env c rp) (placeholders_of (proj_expr p)).
Proof.
  intros (e & He & [= <-])%result_bind_Ok. unfold analyze_projection. destruct (_ && _); [by apply logs_any|].
  apply logs_then; [by eapply meta_logs_logs, logs_expr|intros; apply logs_ret].
Qed.

Lemma logs_resolved {A R} (f : R → Infer unit) (g : A → ParsedExpr) (res : A → result TypedSqlError R) l rs :
  (∀ a r, res a = Ok r → logs (f r) (placeholders_of (g a))) → map_result res l = Ok rs → logs (for_each f rs) (list_refs g l).
Proof.
  intros Hf H%map_result_Ok. unfold list_refs. induction H as [|a r l rs Ha _ IH]; cbn; [apply logs_ret|].
  apply logs_bind; [by apply Hf|by intros _].
Qed.

Lemma resolve_joins_each joins : ∀ n sc bs js sc' bs', resolve_joins c joins n sc bs = Ok (js, sc', bs') →
  Forall2 (λ j r, ∃ sc bs, resolve_expr c sc bs (join_on j) = Ok (rj_on r)) joins js.
Proof.
  induction joins as [|j joins IH]; intros n sc bs js sc' bs'; cbn; [intros [= <- <- <-]; constructor|].
  intros (((rb & n1) & sc1) & _ & (on & Hon & (((js1 & sc2) & bs2) & Hjs & [= <- <- <-])%result_bind_Ok)%result_bind_Ok)%result_bind_Ok.
  constructor; [cbn; eauto|by eapply IH].
Qed.

Lemma logs_joins joins js env : Forall2 (λ j r, ∃ sc bs, resolve_expr c sc bs (join_on j) = Ok (rj_on r)) joins js →
  logs (analyze_joins c js env) (list_refs join_on joins).
Proof.
  intros H. revert env. induction H as [|j r joins js (sc & bs & Hj) _ IH]; intros env; cbn; [apply logs_ret|].
  apply logs_bind; [by eapply logs_predicate|]. intros _. apply logs_then; [apply IH|intros; apply logs_ret].
Qed.

Lemma logs_select s r : resolve_names s c = Ok r → logs (analyze_select r c) (analysed_refs (RenderSelect s)).
Proof.
  intros (((from & n) & sc) & _ & (((joins & sc') & bs) & Hjoins & (ps & Hps & (filter & Hf & (order & Ho & (limit & Hl & (offset & Hoff & [= <-])
    %result_bind_Ok)%result_bind_Ok)%result_bind_Ok)%result_bind_Ok)%result_bind_Ok)%result_bind_Ok)%result_bind_Ok.
  unfold analyze_select. cbn. apply logs_bind; [by eapply logs_joins, resolve_joins_each|]. intros [plans env].
  apply logs_bind; [eapply logs_option; [|exact Hf]; intros; by eapply logs_predicate|]. intros _.
  apply logs_bind; [eapply logs_resolved; [|exact Hps]; intros; by eapply logs_projection|]. intros _.
  apply logs_bind; [eapply logs_resolved; [|exact Ho]; intros a r Hr; apply logs_then; [exact (meta_logs_logs _ _ (logs_expr _ _ _ _ _ _ Hr))|intros; apply logs_ret]|]. intros _.
  apply logs_bind; [eapply logs_option; [|exact Hl]; intros; by eapply logs_limit|]. intros _.
  apply logs_then; [eapply logs_option; [|exact Hoff]; intros; by eapply logs_limit|]. intros _.
  apply logs_then; [apply logs_solve|]. intros _. apply logs_ret.
Qed.

Lemma logs_assignment t n m span : logs_if (has m) (constrain_assignment t n m span) [].
Proof.
  unfold constrain_assignment, has. destruct (meta_type m); try no_log. eapply logs_weaken; [|apply logs_expect]. intros pre H'; by apply H'.
Qed.

Lemma logs_insert_row sc bs env t cols row : logs (insert_row (insert_value c sc bs env t) cols row) (list_refs id (row_values row)).
Proof.
  unfold insert_row. destruct (Nat.eqb_spec (length (row_values row)) (length cols)) as [Hlen|]; [|by apply logs_any].
  revert cols Hlen. induction (row_values row) as [|e es IH]; intros [|i cols] Hlen; try done; [apply logs_ret|].
  injection Hlen as Hlen. cbn. apply logs_bind; [|by intros _; apply IH]. unfold insert_value. apply logs_bind_lift. intros r Hr.
  apply logs_meta; [by eapply logs_expr|]. intros m. apply logs_assignment.
Qed.

Lemma logs_returning sc bs env ps : logs (resolve_returning c sc bs env ps) (list_refs proj_expr ps).
Proof.
  unfold resolve_returning. apply logs_bind_lift. intros rps Hrps.
  apply logs_then; [eapply logs_resolved; [|exact Hrps]; intros; by eapply logs_projection|intros; apply logs_ret].
Qed.

Lemma logs_resolved_predicate sc bs env e : logs (resolved_predicate c sc bs env e) (placeholders_of e).
Proof.
  unfold resolved_predicate. apply logs_bind_lift. intros r Hr. apply logs_then; [by eapply logs_predicate|intros; apply logs_ret].
Qed.

Lemma logs_assignments sc bs env l : logs (update_assignments (update_assignment c sc bs env) l) (list_refs as_value l).
Proof.
  induction l as [|a l IH]; cbn; [apply logs_ret|]. apply logs_bind; [|intros x; apply logs_then; [exact IH|intros; apply logs_ret]].
  unfold update_assignment. apply logs_bind_lift. intros target _. apply logs_bind_lift. intros v Hv.
  apply logs_meta; [by eapply logs_expr|]. intros m. apply logs_if_then; [apply logs_assignment|intros; apply logs_ret].
Qed.

(** An analysis ends with [solve]. *)
Definition ends {A} (m : Infer A) : Prop := ∀ ctx a ctx', m ctx = (Ok a, ctx') → unresolved ctx' = [].
Lemma ends_bind {A B} (m : Infer A) (f : A → Infer B) : (∀ a, ends (f a)) → ends (m ≫= f).
Proof. intros Hf ctx b ctx' (a & ctx1 & _ & Hb)%se_bind_inv. by eapply Hf. Qed.
Lemma ends_solve {A} (a : A) : ends (_ ← solve; mret a).
Proof.
  intros ctx b ctx' (u & ctx1 & Hs & [= _ <-])%se_bind_inv. unfold solve in Hs.
  destruct (solve_loop _ ctx) as [[[?|?] ctx2]|]; [|done..]. unfold check_solved in Hs.
  destruct (unresolved ctx2) eqn:Hu; [|done]. by injection Hs as _ <-.
Qed.

(** The parameters of a statement come from a context that has recorded its occurrences. *)
Definition parameters_from (l : list PlaceholderRef) (ps : list CheckedParameter) : Prop :=
  ∃ ctx, recorded l ctx ∧ unresolved ctx = [] ∧ ps = context_parameters ctx.

Lemma analysed_from {A} (m : Infer A) l a ctx : Forall numbered_ref l → logs m l → ends m → m InferenceContext_new = (Ok a, ctx) →
  parameters_from l (context_parameters ctx).
Proof. intros Hl Hlogs Hends Hm. exists ctx. split; [by apply (Hlogs Hl [] _ _ _ I Hm), recorded_new|]. split; [by eapply Hends|done]. Qed.

Lemma parameters_select s cs : Forall numbered_ref (analysed_refs (RenderSelect s)) → resolve_select s c = Ok cs →
  parameters_from (analysed_refs (RenderSelect s)) (cs_parameters cs).
Proof.
  intros Hl (r & Hr & H)%result_bind_Ok. destruct (analyze_select r c InferenceContext_new) as [[[plans env]|e] ctx] eqn:Ha; [|done].
  assert (Hps : cs_parameters cs = context_parameters ctx).
  { unfold finalize_select in H. do 6 (apply result_bind_Ok in H as (? & _ & H)). by injection H as <-. }
  rewrite Hps. eapply analysed_from; [done|by apply logs_select| |exact Ha]. unfold analyze_select.
  do 6 (apply ends_bind; intros ?). apply ends_solve.
Qed.

Lemma parameters_insert i ci : Forall numbered_ref (analysed_refs (RenderInsert i)) → resolve_insert i c = Ok ci →
  parameters_from (analysed_refs (RenderInsert i)) (ci_parameters ci).
Proof.
  intros Hl (((target & sc) & bs) & _ & (cols & _ & H)%result_bind_Ok)%result_bind_Ok. cbn in H.
  destruct ((for_each _ _ ≫= _) InferenceContext_new) as [[ps|e] ctx] eqn:Ha in H; [|done].
  apply result_bind_Ok in H as (? & _ & [= <-]). eapply analysed_from; [done| | |exact Ha].
  - cbn. apply logs_bind; [apply logs_for_each, Forall_forall; intros row _; apply logs_insert_row|]. intros _.
    apply logs_then; [apply logs_returning|]. intros rps. apply logs_then; [apply logs_solve|intros; apply logs_ret].
  - do 2 (apply ends_bind; intros ?). apply ends_solve.
Qed.

Lemma parameters_update u cu : Forall numbered_ref (analysed_refs (RenderUpdate u)) → resolve_update u c = Ok cu →
  parameters_from (analysed_refs (RenderUpdate u)) (cu_parameters cu).
Proof.
  intros Hl (((target & sc) & bs) & _ & H)%result_bind_Ok. cbn in H.
  destruct ((update_assignments _ _ ≫= _) InferenceContext_new) as [[[[as_ filter] ps]|e] ctx] eqn:Ha in H; [|done].
  do 3 (apply result_bind_Ok in H as (? & _ & H)). injection H as <-. eapply analysed_from; [done| | |exact Ha].
  - cbn. apply logs_bind; [apply logs_assignments|]. intros xs. apply logs_bind; [apply logs_resolved_predicate|]. intros f.
    apply logs_then; [apply logs_returning|]. intros rps. apply logs_then; [apply logs_solve|intros; apply logs_ret].
  - do 3 (apply ends_bind; intros ?). apply ends_solve.
Qed.

Lemma parameters_delete d cd : Forall numbered_ref (analysed_refs (RenderDelete d)) → resolve_delete d c = Ok cd →
  parameters_from (analysed_refs (RenderDelete d)) (cd_parameters cd).
Proof.
  intros Hl (((target & sc) & bs) & _ & H)%result_bind_Ok. cbn in H.
  destruct ((resolved_predicate _ _ _ _ _ ≫= _) InferenceContext_new) as [[[filter ps]|e] ctx] eqn:Ha in H; [|done].
  do 2 (apply result_bind_Ok in H as (? & _ & H)). injection H as <-. eapply analysed_from; [done| | |exact Ha].
  - cbn. apply logs_bind; [apply logs_resolved_predicate|]. intros f.
    apply logs_then; [apply logs_returning|]. intros rps. apply logs_then; [apply logs_solve|intros; apply logs_ret].
  - do 2 (apply ends_bind; intros ?). apply ends_solve.
Qed.
End statements.

(** ** The normaliser's statements are of the kind they say *)
Inductive coherent : ParsedStatement → Prop :=
  | coherent_select s : coherent (statement_query (row_select s))
  | coherent_insert_rows i : coherent (statement_rows KInsert (row_insert i))
  | coherent_insert i : coherent (statement_command KInsert (command_insert i))
  | coherent_update_rows u : coherent (statement_rows KUpdate (row_update u))
  | coherent_update u : coherent (statement_command KUpdate (command_update u))
  | coherent_delete_rows d : coherent (statement_rows KDelete (row_delete d))
  | coherent_delete d : coherent (statement_command KDelete (command_delete d)).

Definition yields {A} (m : N A) (P : A → Prop) : Prop := ∀ s a s', m s = (Ok a, s') → P a.
Lemma yields_bind {A B} (m : N A) (f : A → N B) P : (∀ a, yields (f a) P) → yields (m ≫= f) P.
Proof. intros Hf s b s' (a & s1 & _ & Hb)%se_bind_inv. by eapply Hf. Qed.
Lemma yields_ret {A} (a : A) (P : A → Prop) : P a → yields (mret a) P.
Proof. by intros HP s b s' [= <- <-]. Qed.
Lemma yields_throw {A} e (P : A → Prop) : yields (throw e) P.
Proof. by intros s a s'. Qed.

Lemma normalize_coherent src ast st s s' : normalize_statement src ast s = (Ok st, s') → coherent st.
Proof.
  revert s st s'. fold (yields (normalize_statement src ast) coherent). destruct ast as [q|i|u|d|]; cbn.
  - apply yields_bind. intros sel. apply yields_ret. constructor.
  - unfold normalize_insert_statement. do 9 (apply yields_bind; intros ?). apply yields_ret. destruct a4; constructor.
  - unfold normalize_update_statement. do 10 (apply yields_bind; intros ?). apply yields_ret. destruct a5; constructor.
  - unfold normalize_delete_statement. do 8 (apply yields_bind; intros ?). apply yields_ret. destruct a3; constructor.
  - apply yields_throw.
Qed.

(** ** Resolving and lowering a statement of the kind it says *)
Lemma parameters_statement c st checked : coherent st → Forall numbered_ref (analysed_refs (rendered_of st)) → resolve_statement st c = Ok checked →
  parameters_from (analysed_refs (rendered_of st)) (statement_parameters checked).
Proof.
  intros Hst Hl H. destruct Hst; cbn in Hl; unfold resolve_statement in H; cbn in H;
    apply result_bind_Ok in H as (x & Hx & [= <-]); 
    first [exact (parameters_select c _ _ Hl Hx)|exact (parameters_insert c _ _ Hl Hx)
          |exact (parameters_update c _ _ Hl Hx)|exact (parameters_delete c _ _ Hl Hx)].
Qed.

(** Lowering meets the body it expects, and keeps the parameters. *)
Lemma lower_coherent c src st checked : coherent st → resolve_statement st c = Ok checked →
  ∃ projections toggles, lower_statement (ParsedSql_new src st) checked =
    Some (lower_dml (ParsedSql_new src st) (statement_parameters checked) projections (rendered_of st) toggles).
Proof.
  intros Hst H. destruct Hst; unfold resolve_statement in H; cbn in H; apply result_bind_Ok in H as (x & Hx & [= <-]); eauto.
Qed.

Lemma lowered_parameters parsed params projections renderer toggles q :
  lower_dml parsed params projections renderer toggles = Ok q →
  lq_renderer q = renderer ∧
  Forall2 (λ p lp, lp_id lp = par_id p ∧ lp_position lp = par_slot p ∧ lp_optional lp = par_optional p) params (lq_parameters q).
Proof.
  intros (ps & Hps & (cols & _ & [= <-])%result_bind_Ok)%result_bind_Ok. split; [done|]. cbn. apply map_result_Ok in Hps.
  eapply Forall2_impl; [exact Hps|]. intros p lp Hlp. unfold lower_parameter in Hlp. by apply result_bind_Ok in Hlp as (codec & _ & [= <-]).
Qed.

(** ** The parameters of a context *)
Lemma to_parameter_fields l ctx p s q : recorded l ctx → placeholders ctx !! p = Some s → to_parameter s = Some q →
  par_id q = p ∧ par_slot q = p + 1 ∧ par_optional q = ps_optional s.
Proof.
  intros Hrec Hs Hq. unfold to_parameter in Hq. apply bind_Some in Hq as (t & _ & [= <-]). cbn. rewrite (rec_id _ _ Hrec _ _ Hs).
  by rewrite (rec_slot _ _ Hrec _ _ Hs).
Qed.

Lemma recorded_parameters l ctx q : recorded l ctx → q ∈ context_parameters ctx →
  ∃ s, placeholders ctx !! par_id q = Some s ∧ par_slot q = par_id q + 1 ∧ par_optional q = ps_optional s.
Proof.
  intros Hrec Hq. unfold context_parameters in Hq. rewrite merge_sort_Permutation, list_elem_of_omap in Hq.
  destruct Hq as (s & Hs & Hq). apply list_elem_of_fmap in Hs as ([p s'] & -> & Hs%elem_of_map_to_list). cbn in *.
  destruct (to_parameter_fields _ _ _ _ _ Hrec Hs Hq) as (-> & Hslot & Hopt). eauto.
Qed.

Lemma recorded_parameter l ctx r : recorded l ctx → unresolved ctx = [] → r ∈ l →
  ∃ q, q ∈ context_parameters ctx ∧ par_id q = placeholder_id r.
Proof.
  intros Hrec Hun Hr. destruct (proj2 (rec_seen _ _ Hrec (placeholder_id r)) (ex_intro _ r (conj Hr eq_refl))) as [s Hs]. destruct (unresolved_nil _ Hun _ _ Hs) as [t Ht].
  assert (Hq : is_Some (to_parameter s)) by (unfold to_parameter; rewrite Ht; eauto). destruct Hq as [q Hq]. exists q.
  split; [|by destruct (to_parameter_fields _ _ _ _ _ Hrec Hs Hq)].
  unfold context_parameters. rewrite merge_sort_Permutation, list_elem_of_omap. exists s. split; [|done].
  apply list_elem_of_fmap. exists (placeholder_id r, s). split; [done|]. by apply elem_of_map_to_list.
Qed.

Lemma context_ids_NoDup l ctx : recorded l ctx → NoDup (map par_slot (context_parameters ctx)).
Proof.
  intros Hrec. unfold context_parameters. rewrite merge_sort_Permutation.
  assert (Hid : map_Forall (λ p s, ps_id s = p) (placeholders ctx)) by (intros p s; apply (rec_id _ _ Hrec)).
  assert (Hsub : ∀ ss, (∀ s, s ∈ ss → placeholders ctx !! ps_id s = Some s) → NoDup (map ps_id ss) → NoDup (map par_slot (omap to_parameter ss))).
  { intros ss. induction ss as [|s ss IH]; intros Hin Hnd; cbn; [constructor|]. apply NoDup_cons in Hnd as [Hni Hnd].
    assert (Hss := IH (λ x Hx, Hin x (list_elem_of_further _ _ _ Hx)) Hnd).
    destruct (to_parameter s) as [q|] eqn:Hq; [|exact Hss]. cbn. constructor; [|exact Hss].
    destruct (to_parameter_fields _ _ _ _ _ Hrec (Hin s (list_elem_of_here _ _)) Hq) as (_ & Hslot & _).
    intros (q' & Heq & (s' & Hs' & Hq')%list_elem_of_omap)%list_elem_of_fmap.
    destruct (to_parameter_fields _ _ _ _ _ Hrec (Hin s' (list_elem_of_further _ _ _ Hs')) Hq') as (_ & Hslot' & _).
    apply Hni. apply list_elem_of_fmap. exists s'. split; [lia|done]. }
  apply Hsub.
  - intros s Hin%list_elem_of_fmap. destruct Hin as ([p s'] & -> & Hs%elem_of_map_to_list). cbn. by rewrite (Hid _ _ Hs).
  - rewrite map_map. rewrite (map_ext_in _ fst).
    + apply NoDup_fst_map_to_list.
    + intros [p s] Hs%list_elem_of_In%elem_of_map_to_list. cbn. by rewrite (Hid _ _ Hs).
Qed.

(** ** The pipeline *)
(** The names of the statement are optional everywhere or nowhere, and nowhere in a value. *)
Definition regular (r : RenderedStatement) : Prop :=
  (∀ p p', p ∈ statement_placeholders r → p' ∈ statement_placeholders r → placeholder_id p = placeholder_id p' → ph_optional p = ph_optional p') ∧
  (∀ e p, e ∈ value_exprs r → p ∈ placeholders_of e → ph_optional p = false).

Lemma source_slots sql src : utf8_valid sql = true → len sql < 2 ^ 32 → canonicalize sql = Ok src →
  ∀ e, e ∈ src_placeholders src → entry_slot e = entry_id e + 1 ∧ 0 ≤ entry_slot e < 2 ^ 32.
Proof.
  intros Hv Hlen (c & Hc & [= <-])%result_bind_Ok e He. destruct (canonicalize_pieces _ Hv) as [_ Hspec].
  destruct (Hspec _ Hc) as [ps Hps]. apply list_elem_of_lookup_1 in He as [i Hi]. cbn in Hi.
  destruct (form_entries _ _ _ Hps _ _ Hi) as [-> ->]. pose proof (form_count _ _ _ Hps). apply lookup_lt_Some in Hi. lia.
Qed.

Lemma compiled_lowered sql src ast st s c checked :
  utf8_valid sql = true → len sql < 2 ^ 32 → canonicalize sql = Ok src →
  normalize_statement src ast Normalizer_new = (Ok st, s) → resolve_statement st c = Ok checked →
  ∃ r, lower_statement (ParsedSql_new src st) checked = Some r ∧
    ∀ q, r = Ok q → statement_text_ok (rendered_of st) → regular (rendered_of st) → lowered_wf q ∧ lq_renderer q = rendered_of st.
Proof.
  intros Hv Hlen Hsrc Hnorm Hres. pose proof (normalize_coherent _ _ _ _ _ Hnorm) as Hst.
  destruct (lower_coherent _ src _ _ Hst Hres) as (projections & toggles & Hlower). eexists. split; [exact Hlower|].
  intros q Hq Htext [Hsame Hvalues]. destruct (lowered_parameters _ _ _ _ _ _ Hq) as [Hrend Hps].
  pose proof (source_slots _ _ Hv Hlen Hsrc) as Hslots.
  assert (Hnum : ∀ p, p ∈ statement_placeholders (rendered_of st) → numbered_ref p ∧ 0 ≤ ph_slot p < 2 ^ 32).
  { intros p Hp. destruct (normalize_refers _ _ _ _ _ Hnorm Hp) as (e & o & He & _ & Hid & _ & Hslot & _). unfold numbered_ref. rewrite Hid, Hslot. by apply Hslots. }
  assert (Hparams : parameters_from (analysed_refs (rendered_of st)) (statement_parameters checked)).
  { eapply parameters_statement; [done| |exact Hres]. apply Forall_forall. intros p Hp%elem_of_analysed. by apply Hnum. }
  destruct Hparams as (ctx & Hrec & Hun & Heq). rewrite Heq in Hps. split; [|done]. split.
  - replace (map lp_position (lq_parameters q)) with (map par_slot (context_parameters ctx)); [by eapply context_ids_NoDup|].
    clear -Hps. induction Hps as [|p lp ps lps (_ & Hpos & _) _ IH]; cbn; congruence.
  - apply Forall_forall. intros lp Hlp. apply list_elem_of_lookup_1 in Hlp as [i Hi].
    destruct (Forall2_lookup_r _ _ _ _ _ Hps Hi) as (p & Hp & _ & -> & _).
    apply list_elem_of_lookup_2 in Hp. destruct (recorded_parameters _ _ _ Hrec Hp) as (st' & Hst' & Hslot & _).
    destruct (proj1 (rec_seen _ _ Hrec (par_id p)) (ex_intro _ _ Hst')) as (r & Hr & Hrid). rewrite elem_of_analysed in Hr.
    destruct (Hnum r Hr) as [Hnr Hrange]. unfold numbered_ref in Hnr. lia.
  - by rewrite Hrend.
  - rewrite Hrend. intros p Hp. assert (Hin : p ∈ analysed_refs (rendered_of st)) by by apply elem_of_analysed.
    destruct (recorded_parameter _ _ _ Hrec Hun Hin) as (q' & Hq' & Hid). destruct (recorded_parameters _ _ _ Hrec Hq') as (s' & Hs' & Hslot & Hopt).
    apply list_elem_of_lookup_1 in Hq' as [i Hi]. destruct (Forall2_lookup_l _ _ _ _ _ Hps Hi) as (lp & Hlp & Hlid & Hlpos & Hlopt).
    exists i, lp. destruct (Hnum p Hp) as [Hnp _]. unfold numbered_ref in Hnp. split_and!; [done|congruence|congruence|].
    rewrite Hlopt, Hopt. rewrite Hid in Hs'. pose proof (rec_optional _ _ Hrec _ _ Hs') as Hiff.
    destruct (ph_optional p) eqn:Hp'; [apply Hiff; eauto|]. destruct (ps_optional s') eqn:Hos; [|done].
    destruct (proj1 Hiff eq_refl) as (r & Hr & Hrid & Hropt). rewrite <- elem_of_analysed in Hp. apply elem_of_analysed in Hr.
    rewrite <- Hropt, <- Hp'. apply Hsame; [by apply elem_of_analysed in Hp|done|done] || (symmetry; apply Hsame; [by apply elem_of_analysed in Hp|done|done]).
  - rewrite Hrend. exact Hvalues.
Qed.


(** ** Examples *)
Local Open Scope str_scope.

Definition compile_ast (sql : str) (ast : SpStatement) (c : SchemaCatalog) : option (result TypedSqlError LoweredQuery) :=
  let src := source_of sql in
  match (normalize_statement src ast Normalizer_new).1 with
  | Ok st => match resolve_statement st c with
             | Ok checked => lower_statement (ParsedSql_new src st) checked
             | Err e => Some (Err e)
             end
  | Err e => Some (Err e)
  end.

Lemma mandatory_regular r : forallb (λ p, negb (ph_optional p)) (statement_placeholders r) = true → regular r.
Proof.
  rewrite forallb_forall. intros H.
  assert (Hall : ∀ p, p ∈ statement_placeholders r → ph_optional p = false).
  { intros p Hp. apply list_elem_of_In in Hp. apply H in Hp. by destruct (ph_optional p). }
  split; [intros p p' Hp Hp' _; by rewrite !Hall|]. intros e p He Hp. apply Hall. unfold statement_placeholders.
  apply elem_of_concat_map. exists e. split; [|done]. apply elem_of_app. by left.
Qed.


(** A name that is optional in one place and mandatory in another: the variant without it still
    writes the mandatory occurrence, and sends no argument for it. *)
Example irregular_names :
  match compile_ast "SELECT u.id FROM users u WHERE u.id = $id AND u.id = $id?"
    (select_u_id (EBinary (EBinary (sp_column "u"%s "id"%s 31) BoEq (EValue (VPlaceholder "$1"%s) (sp_at 38 40)) (sp_at 31 40)) BoAnd
      (EBinary (sp_column "u"%s "id"%s 45) BoEq (EValue (VPlaceholder "$1"%s) (sp_at 52 54)) (sp_at 45 54)) (sp_at 31 54)) None 54) example_catalog with
  | Some (Ok q) => select_shape (default [] (runtime_sql_shapes q)) [false] [] =
      Some (mk_shape [false] "SELECT u.id FROM users AS u WHERE (u.id = $1)" [])
  | _ => False
  end.
Proof. by vm_compute. Qed.
