(* ===== verification/SqlMacro.v ===== *)
(** * The [sql!] macro: named placeholders and nested fragments

    [compile_input], [renumber_into] and [nested_sql] of [crates/macros/src/lib.rs].  The macro
    takes a text with holes [$name] and one binding per name, either a codec or another [sql!]
    invocation, and gives the text with numbered placeholders and the codecs in the order of
    their numbers.

    [RustExpr] is the part of syn's expressions the macros look at.  The body of a [sql!]
    invocation is what its [Parse] instance gives for the macro's tokens: the literal and the
    bindings, or an error.  Errors are their messages, without the span they point to.

    [compile_input] is compared with [meaning], which replaces holes by codecs and splices
    nested texts and never assigns a number ([sql_macro_meaning]). *)
From S2P Require Import Prelude Bytes Text Fragment SqlSource.

Local Open Scope Z_scope.
Local Open Scope str_scope.

(** ** Expressions *)
Inductive RustExpr : Type :=
| XPath (segments : list str)
| XTuple (elems : list RustExpr)
| XCall (func : RustExpr) (args : list RustExpr)
| XParen (e : RustExpr)
| XGroup (e : RustExpr)
| XMacro (path : list str) (body : SqlInput)
| XOther
with SqlInput : Type := SqlInputOf (sql : str) (bindings : list (str * RustExpr)) | SqlInputError (message : str).

Definition path_ends_with_sql (path : list str) : bool := bool_decide (last path = Some ("sql"%s)).

(** ** Compiling *)
Record CompiledSql := mk_compiled { cs_sql : str; cs_codecs : list RustExpr }.

(** [None] is a panic of [renumber_into]. *)
Definition Outcome (A : Type) : Type := option (result str A).

(** What a name is bound to: its expression, and for a nested [sql!] what compiling it gives. *)
Record Bound := mk_bound { bd_expr : RustExpr; bd_nested : option (Outcome CompiledSql) }.

Fixpoint binding_of {A} (name : str) (l : list (str * A)) : option A :=
  match l with
  | [] => None
  | (n, a) :: l => if bool_decide (n = name) then Some a else binding_of name l
  end.

(** The first name that occurred before. *)
Fixpoint duplicate (seen names : list str) : option str :=
  match names with
  | [] => None
  | n :: names => if bool_decide (n ∈ seen) then Some n else duplicate (n :: seen) names
  end.

Record Expansion := mk_expansion { ex_sql : str; ex_codecs : list RustExpr; ex_slots : gmap str nat; ex_used : list str }.
Definition expansion_start : Expansion := mk_expansion [] [] ∅ [].

(** The same loop as [renumber_placeholders] of [query/fragment.rs]. *)
Definition renumber_into (sql : str) (offset : nat) (out : str) : option str :=
  if (offset =? 0)%nat then Some (out ++ sql) else app out <$> renumber_loop (length sql) (Z.of_nat offset) sql.

(** One placeholder, after its name has been read. *)
Definition place (table : list (str * Bound)) (name : str) (st : Expansion) : Outcome Expansion :=
  match binding_of name table with
  | None => Some (Err ("sql! placeholder `$" ++ name ++ "` has no binding"))
  | Some b =>
    let used := name :: ex_used st in
    match bd_nested b with
    | Some None => None
    | Some (Some (Err e)) => Some (Err e)
    | Some (Some (Ok c)) =>
      out ← renumber_into (cs_sql c) (length (ex_codecs st)) (ex_sql st);
      Some (Ok (mk_expansion out (ex_codecs st ++ cs_codecs c) (ex_slots st) used))
    | None =>
      Some (Ok
        match ex_slots st !! name with
        | Some slot => mk_expansion (ex_sql st ++ placeholder (Z.of_nat slot)) (ex_codecs st) (ex_slots st) used
        | None =>
          let slot := S (length (ex_codecs st)) in
          mk_expansion (ex_sql st ++ placeholder (Z.of_nat slot)) (ex_codecs st ++ [bd_expr b])
            (<[name := slot]> (ex_slots st)) used
        end)
    end
  end.

(** The loop over the characters; [skip] of them belong to a name that has been read. *)
Fixpoint expand (table : list (str * Bound)) (skip : nat) (cs : list Z) (st : Expansion) : Outcome Expansion :=
  match cs with
  | [] => Some (Ok st)
  | c :: rest =>
    match skip with
    | S k => expand table k rest st
    | O =>
      let name := take_while is_ident_continue rest in
      if (c =? 36) && match rest with d :: _ => is_ident_start d | [] => false end then
        match place table (encode_chars name) st with
        | Some (Ok st) => expand table (length name) rest st
        | other => other
        end
      else expand table 0 rest (mk_expansion (ex_sql st ++ encode_char c) (ex_codecs st) (ex_slots st) (ex_used st))
    end
  end.

Definition unused (names used : list str) : option str := head (filter (λ n, n ∉ used) names).

Definition compile_with (sql : str) (table : list (str * Bound)) : Outcome CompiledSql :=
  match duplicate [] table.*1 with
  | Some n => Some (Err ("duplicate sql! binding `" ++ n ++ "`"))
  | None =>
    match expand table 0 (chars sql) expansion_start with
    | None => None
    | Some (Err e) => Some (Err e)
    | Some (Ok st) =>
      match unused table.*1 (ex_used st) with
      | Some n => Some (Err ("sql! binding `" ++ n ++ "` is unused"))
      | None => Some (Ok (mk_compiled (ex_sql st) (ex_codecs st)))
      end
    end
  end.

(** [nested_sql] followed by [compile_input], for every binding: the ones that are not used are
    not compiled by the source, and their result is not looked at here. *)
Fixpoint compile_input (i : SqlInput) : Outcome CompiledSql :=
  match i with
  | SqlInputError message => Some (Err message)
  | SqlInputOf sql bindings => compile_with sql (map (λ nb, (nb.1, mk_bound nb.2 (nested_sql nb.2))) bindings)
  end
with nested_sql (e : RustExpr) : option (Outcome CompiledSql) :=
  match e with
  | XMacro path body => if path_ends_with_sql path then Some (compile_input body) else None
  | _ => None
  end.

(** ** The reference semantics *)
Inductive Item := Txt (b : byte) | Arg (e : RustExpr).
Inductive Piece := Chr (c : Z) | Hole (name : str).

(** The characters and holes of a text. *)
Fixpoint pieces (skip : nat) (cs : list Z) : list Piece :=
  match cs with
  | [] => []
  | c :: rest =>
    match skip with
    | S k => pieces k rest
    | O =>
      let name := take_while is_ident_continue rest in
      if (c =? 36) && match rest with d :: _ => is_ident_start d | [] => false end then
        Hole (encode_chars name) :: pieces (length name) rest
      else Chr c :: pieces 0 rest
    end
  end.

Definition hole_names (ps : list Piece) : list str := omap (λ p, match p with Hole n => Some n | Chr _ => None end) ps.

Definition piece_meaning (table : list (str * list Item)) (p : Piece) : list Item :=
  match p with Chr c => map Txt (encode_char c) | Hole n => default [] (binding_of n table) end.

(** What an invocation stands for: its text with every hole replaced by its codec or by what its
    nested invocation stands for. *)
Fixpoint meaning (i : SqlInput) : list Item :=
  match i with
  | SqlInputError _ => []
  | SqlInputOf sql bindings =>
    concat (map (piece_meaning (map (λ nb, (nb.1, meaning_of nb.2)) bindings)) (pieces 0 (chars sql)))
  end
with meaning_of (e : RustExpr) : list Item :=
  match e with
  | XMacro path body => if path_ends_with_sql path then meaning body else [Arg e]
  | _ => [Arg e]
  end.

(** Distinct names, a binding for every hole and a hole for every binding, at every level. *)
Fixpoint well_bound (i : SqlInput) : bool :=
  match i with
  | SqlInputError _ => false
  | SqlInputOf sql bindings =>
    let holes := hole_names (pieces 0 (chars sql)) in
    bool_decide (NoDup bindings.*1) && forallb (λ n, bool_decide (n ∈ bindings.*1)) holes
    && forallb (λ nb, bool_decide (nb.1 ∈ holes) && well_bound_of nb.2) bindings
  end
with well_bound_of (e : RustExpr) : bool :=
  match e with
  | XMacro path body => if path_ends_with_sql path then well_bound body else true
  | _ => true
  end.

(** Texts in which every [$] begins a hole; nested texts are ASCII and do not start with a
    digit. *)
Definition tame_text (sql : str) : bool :=
  forallb (λ p, match p with Chr c => negb (c =? 36) | Hole _ => true end) (pieces 0 (chars sql)).
Definition tame_nested (sql : str) : bool :=
  forallb (λ b, u8_of b <? 128) sql && negb (starts_with_digit sql).

Fixpoint tame (nested : bool) (i : SqlInput) : bool :=
  match i with
  | SqlInputError _ => true
  | SqlInputOf sql bindings =>
    tame_text sql && (negb nested || tame_nested sql) && forallb (λ nb, tame_of nb.2) bindings
  end
with tame_of (e : RustExpr) : bool :=
  match e with
  | XMacro path body => if path_ends_with_sql path then tame true body else true
  | _ => true
  end.

(** Reading a compiled text: [$n] is its [n]th codec. *)
Fixpoint instantiate (codecs : list RustExpr) (skip : nat) (s : str) : option (list Item) :=
  match s with
  | [] => Some []
  | c :: rest =>
    match skip with
    | S k => instantiate codecs k rest
    | O =>
      let '(digits, _) := span_digits rest in
      if byte_is c 36 && (0 <? length digits)%nat then
        n ← to_option (parse_uint 64 10 digits);
        e ← (if 1 <=? n then codecs !! (Z.to_nat n - 1)%nat else None);
        cons (Arg e) <$> instantiate codecs (length digits) rest
      else cons (Txt c) <$> instantiate codecs 0 rest
    end
  end.

(** The numbers that occur as placeholders. *)
Fixpoint numbers (skip : nat) (s : str) : list Z :=
  match s with
  | [] => []
  | c :: rest =>
    match skip with
    | S k => numbers k rest
    | O =>
      let '(digits, _) := span_digits rest in
      if byte_is c 36 && (0 <? length digits)%nat then
        option_list (to_option (parse_uint 64 10 digits)) ++ numbers (length digits) rest
      else numbers 0 rest
    end
  end.

(** ** Examples *)
Definition x_int4 : RustExpr := XPath ["int4"%s].
Definition x_text : RustExpr := XPath ["text"%s].
Definition sample_input : SqlInput :=
  SqlInputOf "SELECT * FROM t WHERE $filter AND kind = $kind OR id = $id"
    [("id"%s, x_int4); ("kind"%s, x_text);
     ("filter"%s, XMacro ["babar"%s; "sql"%s] (SqlInputOf "(id = $id OR parent = $id)" [("id"%s, x_int4)]))].

Example sample_compiled :
  compile_input sample_input
  = Some (Ok (mk_compiled "SELECT * FROM t WHERE (id = $1 OR parent = $1) AND kind = $2 OR id = $3" [x_int4; x_text; x_int4])).
Proof. vm_compute. reflexivity. Qed.

(** A nested text at a non-zero offset is read byte by byte: what is not ASCII is garbled. *)
Example nested_mojibake :
  cs_sql <$> (compile_input (SqlInputOf "$a$b" [("a"%s, x_int4); ("b"%s, XMacro ["sql"%s] (SqlInputOf " = 'é'" []))]) ≫= to_option)
  = Some ("$1 = 'Ã©'" : str).
Proof. vm_compute. reflexivity. Qed.

(** Numbers after a [$] in a nested text are renumbered wherever they stand, here in a literal,
    and a large one panics. *)
Example nested_literal_renumbered :
  cs_sql <$> (compile_input (SqlInputOf "$a$b" [("a"%s, x_int4); ("b"%s, XMacro ["sql"%s] (SqlInputOf " = 'US$1'" []))]) ≫= to_option)
  = Some ("$1 = 'US$2'" : str).
Proof. vm_compute. reflexivity. Qed.
Example nested_number_panics :
  compile_input (SqlInputOf "$a$b" [("a"%s, x_int4); ("b"%s, XMacro ["sql"%s] (SqlInputOf " = '$99999999999999999999'" []))]) = None.
Proof. vm_compute. reflexivity. Qed.

(** A nested text that starts with a digit runs into the placeholder before it. *)
Example nested_digit_captured :
  cs_sql <$> (compile_input (SqlInputOf "$a$b" [("a"%s, x_int4); ("b"%s, XMacro ["sql"%s] (SqlInputOf "0 = $c" [("c"%s, x_int4)]))]) ≫= to_option)
  = Some ("$10 = $2" : str).
Proof. vm_compute. reflexivity. Qed.
