(* ===== verification/SqlMacroFacts.v ===== *)
(** * The [sql!] macro: numbering keeps the meaning

    [compile_input] of [SqlMacro.v] against its reference semantics.  A compiled text is the
    printing of tokens, bytes and numbered placeholders; tokens can be read back as long as no
    placeholder is followed by a digit ([good]), a shape that concatenation and renumbering of
    nested texts keep. *)
From S2P Require Import Prelude Bytes Text Fragment SqlSource SqlMacro.

Local Open Scope Z_scope.

(** ** Tokens *)
Inductive Tok := TB (b : byte) | TP (n : Z).
Definition print_tok (t : Tok) : str := match t with TB b => [b] | TP n => placeholder n end.
Definition print (ts : list Tok) : str := concat (map print_tok ts).
Definition shift (k : nat) (t : Tok) : Tok := match t with TB b => TB b | TP n => TP (n + Z.of_nat k) end.

Fixpoint good (ts : list Tok) : Prop :=
  match ts with
  | [] => True
  | TB b :: ts => byte_is b 36 = false ∧ good ts
  | TP n :: ts => 1 ≤ n < 2 ^ 64 ∧ starts_with_digit (print ts) = false ∧ good ts
  end.

Definition read_tok (codecs : list RustExpr) (t : Tok) : option Item :=
  match t with TB b => Some (Txt b) | TP n => Arg <$> codecs !! (Z.to_nat n - 1)%nat end.
Definition read_toks (codecs : list RustExpr) (ts : list Tok) : option (list Item) := mapM (read_tok codecs) ts.

Definition ascii_tok (t : Tok) : Prop := match t with TB b => u8_of b < 128 | TP _ => True end.

Lemma print_app ts us : print (ts ++ us) = print ts ++ print us.
Proof. unfold print. by rewrite map_app, concat_app. Qed.

Lemma placeholder_cons n : 0 ≤ n → ∃ d ds, placeholder n = x24 :: digit_byte d :: ds ∧ 0 ≤ d < 10.
Proof.
  intros Hn. destruct (dec_nonneg_head n Hn) as (d & ds & Hd & E). exists d, ds. split; [|done].
  unfold placeholder, Text.dec. case_match; [lia|]. by rewrite E.
Qed.

Lemma digits_app s t : starts_with_digit s = false → starts_with_digit t = false → starts_with_digit (s ++ t) = false.
Proof. by destruct s. Qed.

Lemma good_app ts us : good ts → good us → starts_with_digit (print us) = false → good (ts ++ us).
Proof.
  intros Ht Hu Hs. induction ts as [|[b|n] ts IH]; [done| |]; cbn in *.
  - destruct Ht as [Hb Ht]. eauto.
  - destruct Ht as (Hn & Hd & Ht). split_and!; [lia|lia| |eauto]. rewrite print_app. by apply digits_app.
Qed.

Lemma good_bytes s us : Forall (λ b, byte_is b 36 = false) s → good us → good (map TB s ++ us).
Proof. intros Hs Hu. by induction Hs. Qed.

Lemma print_bytes s : print (map TB s) = s.
Proof. induction s as [|b s IH]; [done|]. unfold print in *. cbn. by rewrite IH. Qed.

Lemma shift_starts k ts : good ts → starts_with_digit (print (map (shift k) ts)) = starts_with_digit (print ts).
Proof. destruct ts as [|[b|n] ts]; [done|done|]. intros _. done. Qed.

Lemma good_shift k ts : good ts → Forall (λ t, match t with TP n => n + Z.of_nat k < 2 ^ 64 | TB _ => True end) ts →
  good (map (shift k) ts).
Proof.
  intros Hg Hk. induction Hk as [|[b|n] ts Hn Hts IH]; [done| |]; cbn in *.
  - destruct Hg. eauto.
  - destruct Hg as (Hn' & Hd & Hg). rewrite shift_starts by done. split_and!; [lia|lia|done|eauto].
Qed.

(** ** Reading back *)
Lemma starts_span s : starts_with_digit s = false → span_digits s = ([], s).
Proof. destruct s as [|c s]; [done|]. cbn. by intros ->. Qed.

Lemma placeholder_reads n r : 0 ≤ n → starts_with_digit r = false →
  span_digits (Text.dec n ++ r) = (Text.dec n, r) ∧ (0 <? length (Text.dec n))%nat = true.
Proof.
  intros Hn Hr. split; [apply span_digits_app; [by apply dec_digits|done]|].
  destruct (placeholder_cons n Hn) as (d & ds & E & _). unfold placeholder in E.
  change (("$"%s : str) ++ Text.dec n) with (x24 :: Text.dec n) in E. injection E as ->. done.
Qed.

Lemma instantiate_skip codecs ds r : instantiate codecs (length ds) (ds ++ r) = instantiate codecs 0 r.
Proof. by induction ds. Qed.
Lemma numbers_skip ds r : numbers (length ds) (ds ++ r) = numbers 0 r.
Proof. by induction ds. Qed.

Lemma instantiate_print codecs ts : good ts → instantiate codecs 0 (print ts) = read_toks codecs ts.
Proof.
  unfold read_toks. induction ts as [|[b|n] ts IH]; intros Hg; [done| |]; cbn in Hg.
  - destruct Hg as [Hb Hg]. change (print (TB b :: ts)) with (b :: print ts). cbn [instantiate].
    destruct (span_digits (print ts)) as [ds after]. rewrite Hb. cbn [andb]. rewrite IH by done.
    cbn [mapM read_tok]. cbn. by destruct (mapM _ ts).
  - destruct Hg as (Hn & Hd & Hg). change (print (TP n :: ts)) with (x24 :: (Text.dec n ++ print ts)).
    cbn [instantiate]. destruct (placeholder_reads n (print ts) ltac:(lia) Hd) as [-> ->].
    rewrite parse_uint_dec by (unfold in_uint; lia). change (byte_is x24 36) with true. cbn [andb to_option mbind option_bind].
    rewrite instantiate_skip, IH by done. rewrite (proj2 (Z.leb_le 1 n)) by lia.
    cbn [mapM read_tok]. cbn. destruct (codecs !! _); cbn; [|done]. by destruct (mapM _ ts).
Qed.

Lemma elem_of_numbers ts k : good ts → k ∈ numbers 0 (print ts) ↔ TP k ∈ ts.
Proof.
  induction ts as [|[b|n] ts IH]; intros Hg; cbn in Hg; [set_solver| |].
  - destruct Hg as [Hb Hg]. change (print (TB b :: ts)) with (b :: print ts). cbn [numbers].
    destruct (span_digits (print ts)) as [ds after]. rewrite Hb. cbn [andb]. rewrite IH by done.
    rewrite elem_of_cons. naive_solver.
  - destruct Hg as (Hn & Hd & Hg). change (print (TP n :: ts)) with (x24 :: (Text.dec n ++ print ts)).
    cbn [numbers]. destruct (placeholder_reads n (print ts) ltac:(lia) Hd) as [-> ->].
    rewrite parse_uint_dec by (unfold in_uint; lia). change (byte_is x24 36) with true. cbn [andb to_option].
    change (option_list (Some n) ++ ?l) with (n :: l). rewrite numbers_skip, !elem_of_cons, IH by done. naive_solver.
Qed.

Lemma renumber_print fuel k ts : good ts → Forall ascii_tok ts →
  Forall (λ t, match t with TP n => n + Z.of_nat k < 2 ^ 64 | TB _ => True end) ts → (length (print ts) ≤ fuel)%nat →
  renumber_loop fuel (Z.of_nat k) (print ts) = Some (print (map (shift k) ts)).
Proof.
  intros Hg Ha Hk. revert fuel Hg. induction Hk as [|t ts Hn Hts IH]; intros fuel Hg Hf; [by destruct fuel|].
  apply Forall_cons in Ha as [Hta Ha]. destruct t as [b|n]; cbn in Hg.
  - destruct Hg as [Hb Hg]. change (print (TB b :: ts)) with (b :: print ts) in *. cbn [length] in Hf.
    destruct fuel as [|fuel]; [lia|]. cbn [renumber_loop]. destruct (span_digits (print ts)) as [ds after].
    rewrite Hb. cbn [andb]. rewrite IH by (done || lia). cbn in Hta. by rewrite encode_char_ascii.
  - destruct Hg as (Hn' & Hd & Hg). change (print (TP n :: ts)) with (placeholder n ++ print ts) in *.
    rewrite length_app in Hf. destruct fuel as [|fuel]; [unfold placeholder in Hf; cbn in Hf; lia|].
    rewrite renumber_placeholder by (done || lia). rewrite IH; [done|done|done|].
    unfold placeholder in Hf. cbn in Hf. lia.
Qed.

(** ** Pieces of a text *)
Definition after_hole (ps : list Piece) : bool := match ps with Chr c :: _ => negb (is_ident_continue c) | _ => true end.

Definition digitless (ps : list Piece) : bool := match ps with Chr c :: _ => negb (digit_char c) | _ => true end.

Lemma after_hole_digitless ps : after_hole ps = true → digitless ps = true.
Proof.
  destruct ps as [|[c|n] ps]; [done| |done]. unfold after_hole, digitless, is_ident_continue. rewrite !negb_true_iff.
  by intros [_ ?]%orb_false_iff.
Qed.

(** A hole ends where no character can continue its name. *)
Fixpoint separated (ps : list Piece) : bool :=
  match ps with
  | [] => true
  | Chr _ :: ps => separated ps
  | Hole _ :: ps => after_hole ps && separated ps
  end.

Lemma pieces_take f cs : pieces (length (take_while f cs)) cs = pieces 0 (drop (length (take_while f cs)) cs).
Proof. induction cs as [|c cs IH]; [done|]. cbn. by destruct (f c). Qed.

Lemma drop_take_while f cs : match drop (length (take_while f cs)) cs with c :: _ => f c = false | [] => True end.
Proof. induction cs as [|c cs IH]; [done|]. cbn. by destruct (f c) eqn:E. Qed.

Lemma after_hole_pieces cs : match cs with c :: _ => is_ident_continue c = false | [] => True end → after_hole (pieces 0 cs) = true.
Proof. destruct cs as [|c cs]; [done|]. cbn. intros E. case_match; [done|]. cbn. by rewrite E. Qed.

Lemma separated_pieces cs skip : separated (pieces skip cs) = true.
Proof.
  revert skip. induction cs as [|c cs IH]; intros skip; [done|]. destruct skip as [|skip]; [|apply IH].
  cbn [pieces]. destruct ((c =? 36) && _); [|apply IH]. cbn [separated]. rewrite IH, andb_true_r.
  rewrite pieces_take. apply after_hole_pieces, drop_take_while.
Qed.

Lemma pieces_chars (P : Z → Prop) cs skip : Forall P cs → Forall (λ p, match p with Chr c => P c | Hole _ => True end) (pieces skip cs).
Proof.
  intros H. revert skip. induction H as [|c cs Hc Hcs IH]; intros skip; [constructor|].
  destruct skip as [|skip]; [|apply IH]. cbn [pieces]. case_match; constructor; auto.
Qed.

Lemma chars_valid s : Forall is_char (chars s).
Proof.
  unfold chars. destruct (utf8_scan 0 s) as [cs|] eqn:E; [|constructor]. by apply utf8_scan_sound in E as [_ ?].
Qed.

(** ** Characters *)
Lemma char_bytes c : is_char c → c ≠ 36 →
  Forall (λ b, byte_is b 36 = false) (encode_char c)
  ∧ (digit_char c = false → starts_with_digit (encode_char c) = false).
Proof.
  intros Hc Hd. destruct (Z.lt_ge_cases c 128) as [Hlt|Hge].
  - assert (encode_char c = [byte_of c]) as -> by (unfold encode_char; by rewrite (proj2 (Z.ltb_lt _ _))).
    assert (u8_of (byte_of c) = c) as Hu by (unfold is_char in Hc; rewrite u8_of_byte_of; lia).
    split; [apply Forall_singleton; unfold byte_is; rewrite Hu; by apply Z.eqb_neq|].
    cbn. unfold is_ascii_digit, within, digit_char. rewrite Hu. by intros ->.
  - pose proof (encode_char_high c Hc Hge) as Hh. split.
    + apply (Forall_impl _ _ _ Hh). intros b Hb. cbn in Hb. unfold byte_is. apply Z.eqb_neq. lia.
    + intros _. destruct Hh as [|b bs Hb _]; [done|]. cbn. unfold is_ascii_digit. apply within_false. lia.
Qed.

Lemma char_ascii c : 0 ≤ c < 128 → Forall ascii_tok (map TB (encode_char c)).
Proof.
  intros Hc. unfold encode_char. rewrite (proj2 (Z.ltb_lt _ _)) by lia. apply Forall_singleton. cbn. rewrite u8_of_byte_of; lia.
Qed.

(** ** How an expansion grows *)
Definition args (its : list Item) : nat := length (omap (λ i, match i with Arg e => Some e | Txt _ => None end) its).

Lemma args_app a b : args (a ++ b) = (args a + args b)%nat.
Proof. unfold args. by rewrite omap_app, length_app. Qed.
Lemma args_bytes s : args (map Txt s) = 0%nat.
Proof. unfold args. by induction s. Qed.

Lemma read_app codecs ts us its js : read_toks codecs ts = Some its → read_toks codecs us = Some js →
  read_toks codecs (ts ++ us) = Some (its ++ js).
Proof. unfold read_toks. rewrite !mapM_Some. apply Forall2_app. Qed.

Lemma read_prefix codecs codecs' ts its : codecs `prefix_of` codecs' → read_toks codecs ts = Some its → read_toks codecs' ts = Some its.
Proof.
  intros [more ->]. unfold read_toks. rewrite !mapM_Some. intros H. apply (Forall2_impl _ _ _ _ H). intros [b|n] i; [done|]. cbn.
  destruct (codecs !! _) as [e|] eqn:E; [|done]. intros [= <-]. by rewrite (lookup_app_l_Some _ _ _ _ E).
Qed.

Lemma read_bytes codecs s : read_toks codecs (map TB s) = Some (map Txt s).
Proof. unfold read_toks. apply mapM_Some. induction s; constructor; done. Qed.

Lemma read_shift more codecs ts its : Forall (λ t, match t with TP n => 1 ≤ n | TB _ => True end) ts →
  read_toks codecs ts = Some its → read_toks (more ++ codecs) (map (shift (length more)) ts) = Some its.
Proof.
  unfold read_toks. rewrite !mapM_Some. intros Hn H. induction H as [|t i ts its Hti H IH]; [constructor|].
  apply Forall_cons in Hn as [Ht Hn]. constructor; [|by apply IH]. destruct t as [b|n]; [done|]. cbn in *.
  rewrite lookup_app_r by lia. by replace (Z.to_nat (n + Z.of_nat (length more)) - 1 - length more)%nat with (Z.to_nat n - 1)%nat by lia.
Qed.

Definition size (st : Expansion) : Z := Z.of_nat (length (ex_codecs st)).

(** What is written between two states: tokens that stand for the items. *)
Record grows (st st' : Expansion) (ts : list Tok) (its : list Item) : Prop := {
  g_sql : ex_sql st' = ex_sql st ++ print ts;
  g_codecs : ex_codecs st `prefix_of` ex_codecs st';
  g_read : read_toks (ex_codecs st') ts = Some its;
  g_range : ∀ k, TP k ∈ ts → 1 ≤ k ≤ size st';
  g_new : ∀ k, size st < k ≤ size st' → TP k ∈ ts;
  g_args : size st' ≤ size st + Z.of_nat (args its);
}.

Lemma prefix_size st st' : ex_codecs st `prefix_of` ex_codecs st' → size st ≤ size st'.
Proof. intros H%prefix_length. unfold size. lia. Qed.

Lemma grows_trans st1 st2 st3 ts us its js : grows st1 st2 ts its → grows st2 st3 us js → grows st1 st3 (ts ++ us) (its ++ js).
Proof.
  intros [] []. pose proof (prefix_size st1 st2) as H12. pose proof (prefix_size st2 st3) as H23. split.
  - rewrite print_app. rewrite (assoc_L (++)). congruence.
  - by etrans.
  - apply read_app; [by eapply read_prefix|done].
  - intros k [Hk|Hk]%elem_of_app; [|auto]. apply g_range0 in Hk. specialize (H23 ltac:(done)). lia.
  - intros k Hk. apply elem_of_app. destruct (Z.le_gt_cases k (size st2)); [left; apply g_new0; lia|right; apply g_new1; lia].
  - rewrite args_app. lia.
Qed.

(** ** Placing a binding *)
Definition compiled_as (its : list Item) (c : CompiledSql) : Prop :=
  ∃ ts, cs_sql c = print ts ∧ good ts ∧ read_toks (cs_codecs c) ts = Some its
    ∧ (∀ k, TP k ∈ ts ↔ 1 ≤ k ≤ Z.of_nat (length (cs_codecs c))) ∧ (length (cs_codecs c) ≤ args its)%nat.

Definition splices (its : list Item) (c : CompiledSql) : Prop :=
  ∃ ts, cs_sql c = print ts ∧ good ts ∧ read_toks (cs_codecs c) ts = Some its
    ∧ (∀ k, TP k ∈ ts ↔ 1 ≤ k ≤ Z.of_nat (length (cs_codecs c))) ∧ (length (cs_codecs c) ≤ args its)%nat
    ∧ Forall ascii_tok ts ∧ starts_with_digit (print ts) = false.

(** The outcome of compiling what means [its] and is well bound or not. *)
Definition decides {A} (r : Outcome A) (wb : Prop) (post : A → Prop) : Prop :=
  r ≠ None ∧ (∀ a, r = Some (Ok a) → post a) ∧ ((∃ a, r = Some (Ok a)) ↔ wb).

Definition small (n : nat) : Prop := Z.of_nat n < 2 ^ 63.

Definition binding_ok (e : RustExpr) : Prop :=
  small (args (meaning_of e)) →
  match nested_sql e with
  | None => meaning_of e = [Arg e] ∧ well_bound_of e = true
  | Some r => decides r (well_bound_of e = true) (splices (meaning_of e))
  end.

Lemma binding_of_map {A B} (f : A → B) name (l : list (str * A)) :
  binding_of name (map (λ x, (x.1, f x.2)) l) = f <$> binding_of name l.
Proof. induction l as [|[n a] l IH]; [done|]. cbn. by case_bool_decide. Qed.

Section expansion.
Context (bindings : list (str * RustExpr)).
Hypothesis Hok : ∀ n e, binding_of n bindings = Some e → binding_ok e.

Definition bound_table : list (str * Bound) := map (λ nb, (nb.1, mk_bound nb.2 (nested_sql nb.2))) bindings.
Definition meaning_table : list (str * list Item) := map (λ nb, (nb.1, meaning_of nb.2)) bindings.

(** The slots that have been given out. *)
Definition slots_ok (st : Expansion) : Prop := ∀ n k, ex_slots st !! n = Some k →
  (1 ≤ k ≤ length (ex_codecs st))%nat
  ∧ ∃ e, binding_of n bindings = Some e ∧ nested_sql e = None ∧ ex_codecs st !! (k - 1)%nat = Some e.

Definition placed (st : Expansion) (name : str) (its : list Item) (st' : Expansion) : Prop :=
  ex_used st' = name :: ex_used st ∧ slots_ok st'
  ∧ ∃ ts, grows st st' ts its ∧ good ts ∧ Forall ascii_tok ts ∧ starts_with_digit (print ts) = false.

Lemma slots_grow st codecs used out : slots_ok st → slots_ok (mk_expansion out (ex_codecs st ++ codecs) (ex_slots st) used).
Proof.
  intros H n k Hk. destruct (H n k Hk) as (Hr & e & Hb & Hn & He). cbn. rewrite length_app. split; [lia|].
  exists e. split_and!; [done|done|]. by apply lookup_app_l_Some.
Qed.

Lemma placed_nested st name its c out : slots_ok st → splices its c → size st + Z.of_nat (args its) < 2 ^ 63 →
  renumber_into (cs_sql c) (length (ex_codecs st)) (ex_sql st) = out →
  ∃ text, out = Some text ∧ placed st name its (mk_expansion text (ex_codecs st ++ cs_codecs c) (ex_slots st) (name :: ex_used st)).
Proof.
  intros Hst (ts & Hs & Hg & Hr & Hk & Hlen & Ha & Hd) Hsize <-. unfold size in Hsize.
  assert (Forall (λ t, match t with TP n => n + Z.of_nat (length (ex_codecs st)) < 2 ^ 64 | TB _ => True end) ts) as Hfit.
  { apply Forall_forall. intros [b|n] Hn; [done|]. apply Hk in Hn. lia. }
  assert (Forall (λ t, match t with TP n => 1 ≤ n | TB _ => True end) ts) as Hpos.
  { apply Forall_forall. intros [b|n] Hn; [done|]. apply Hk in Hn. lia. }
  exists (ex_sql st ++ print (map (shift (length (ex_codecs st))) ts)). split.
  { unfold renumber_into. case_match eqn:E; rewrite Hs.
    - apply Nat.eqb_eq in E. rewrite E. rewrite (map_ext _ id), map_id; [done|]. intros [b|n]; [done|]. cbn. by rewrite Z.add_0_r.
    - rewrite renumber_print by done. done. }
  split; [done|]. split; [by apply slots_grow|].
  exists (map (shift (length (ex_codecs st))) ts). split; [|split_and!].
  - split; cbn; unfold size; cbn; rewrite ?length_app.
    + done.
    + by eexists.
    + by apply read_shift.
    + intros k (t & Ht & Hin)%list_elem_of_fmap. destruct t as [b|n]; [done|]. cbn in Ht. injection Ht as ->.
      apply Hk in Hin. lia.
    + intros k Hkr. apply list_elem_of_fmap. exists (TP (k - Z.of_nat (length (ex_codecs st)))). split; [cbn; f_equal; lia|].
      apply Hk. lia.
    + lia.
  - by apply good_shift.
  - apply Forall_fmap. apply (Forall_impl _ _ _ Ha). by intros [b|n].
  - by rewrite shift_starts.
Qed.

Lemma tok_placeholder k : (1 ≤ k)%nat → small k →
  good [TP (Z.of_nat k)] ∧ Forall ascii_tok [TP (Z.of_nat k)] ∧ starts_with_digit (print [TP (Z.of_nat k)]) = false.
Proof. unfold small. intros. split; [cbn [good]; split_and!; (lia || done)|]. split; [by apply Forall_singleton|done]. Qed.

Lemma print_placeholder n : print [TP n] = placeholder n.
Proof. unfold print. cbn [map concat print_tok]. by rewrite app_nil_r. Qed.

Lemma grows_one st codecs slots used k e : ex_codecs st `prefix_of` codecs → codecs !! (k - 1)%nat = Some e →
  (1 ≤ k ≤ length codecs)%nat → (length codecs = length (ex_codecs st) ∨ length codecs = S (length (ex_codecs st)) ∧ k = length codecs) →
  grows st (mk_expansion (ex_sql st ++ placeholder (Z.of_nat k)) codecs slots used) [TP (Z.of_nat k)] [Arg e].
Proof.
  intros Hp He Hk Hlen. split; cbn [ex_sql ex_codecs]; unfold size; cbn [ex_sql ex_codecs].
  - by rewrite print_placeholder.
  - done.
  - unfold read_toks. cbn [mapM read_tok]. by rewrite Nat2Z.id, He.
  - intros j Hj%list_elem_of_singleton. injection Hj as ->. lia.
  - intros j Hj. apply list_elem_of_singleton. f_equal. lia.
  - cbn. lia.
Qed.

Lemma place_ok st name e : binding_of name bindings = Some e → slots_ok st → size st + Z.of_nat (args (meaning_of e)) < 2 ^ 63 →
  decides (place bound_table name st) (well_bound_of e = true) (placed st name (meaning_of e)).
Proof.
  intros He Hst Hsize. unfold decides, place, bound_table. rewrite (binding_of_map (λ e, mk_bound e (nested_sql e))), He. cbn [fmap option_fmap option_map].
  cbn [bd_nested bd_expr]. pose proof (Hok _ _ He) as Hb. unfold binding_ok, small in Hb.
  destruct (nested_sql e) as [r|] eqn:En.
  - destruct Hb as (Hr & Hpost & Hwb); [unfold size in Hsize; lia|]. destruct r as [[c|err]|]; [| |done].
    + destruct (placed_nested st name (meaning_of e) c _ Hst (Hpost c eq_refl) Hsize eq_refl) as (text & -> & Hp).
      cbn. split_and!; [done|by intros ? [= <-]|]. rewrite <- Hwb. split; eauto.
    + split_and!; [done|done|]. rewrite <- Hwb. split; intros [? [=]].
  - destruct Hb as [Hm Hwb]; [unfold size in Hsize; lia|]. rewrite Hm in *.
    split; [done|]. split; [|split; [done|intros _]; by eexists].
    intros st' [= <-]. destruct (ex_slots st !! name) as [slot|] eqn:Es.
    + destruct (Hst _ _ Es) as (Hr & e' & He' & _ & Hl). rewrite He in He'. injection He' as <-.
      split; [done|]. split; [exact Hst|]. exists [TP (Z.of_nat slot)].
      split; [|apply tok_placeholder; unfold small, size in *; lia].
      apply grows_one; [done|done|lia|by left].
    + split; [done|]. split.
      * intros n k. cbn. destruct (decide (name = n)) as [<-|Hne].
        -- rewrite lookup_insert_eq. intros [= <-]. rewrite length_app. cbn. split; [lia|]. exists e. split_and!; [done|done|].
           rewrite lookup_app_r by lia. by replace (length (ex_codecs st) - 0 - length (ex_codecs st))%nat with 0%nat by lia.
        -- rewrite lookup_insert_ne by done. apply (slots_grow st [e] [] []), Hst.
      * exists [TP (Z.of_nat (S (length (ex_codecs st))))].
        split; [|apply tok_placeholder; unfold small, size in *; cbn in Hsize; lia].
        apply grows_one; rewrite ?length_app; cbn [length]; [by eexists| |lia|right; lia].
        apply lookup_snoc_Some. right. split; [lia|done].
Qed.
(** ** The pieces in order *)
Fixpoint run (ps : list Piece) (st : Expansion) : Outcome Expansion :=
  match ps with
  | [] => Some (Ok st)
  | Chr c :: ps => run ps (mk_expansion (ex_sql st ++ encode_char c) (ex_codecs st) (ex_slots st) (ex_used st))
  | Hole n :: ps => match place bound_table n st with Some (Ok st) => run ps st | other => other end
  end.

Lemma expand_run cs skip st : expand bound_table skip cs st = run (pieces skip cs) st.
Proof.
  revert skip st. induction cs as [|c cs IH]; intros skip st; [done|]. destruct skip as [|skip]; [|apply IH].
  cbn [expand pieces]. destruct ((c =? 36) && _); [|apply IH]. cbn [run].
  destruct (place bound_table _ st) as [[st'|e]|]; [apply IH|done|done].
Qed.

Definition plain_char (c : Z) : Prop := is_char c ∧ c ≠ 36.
Definition chars_of (P : Z → Prop) (ps : list Piece) : Prop := Forall (λ p, match p with Chr c => P c | Hole _ => True end) ps.

Definition ran (st : Expansion) (ps : list Piece) (its : list Item) (st' : Expansion) : Prop :=
  ex_used st' = reverse (hole_names ps) ++ ex_used st
  ∧ ∃ ts, grows st st' ts its ∧ good ts ∧ (chars_of (λ c, c < 128) ps → Forall ascii_tok ts)
    ∧ (digitless ps = true → starts_with_digit (print ts) = false).

Definition holes_bound (ps : list Piece) : Prop :=
  ∀ n, n ∈ hole_names ps → ∃ e, binding_of n bindings = Some e ∧ well_bound_of e = true.

Lemma pieces_meaning p ps : concat (map (piece_meaning meaning_table) (p :: ps)) = piece_meaning meaning_table p ++ concat (map (piece_meaning meaning_table) ps).
Proof. done. Qed.

Lemma hole_meaning n : piece_meaning meaning_table (Hole n) = default [] (meaning_of <$> binding_of n bindings).
Proof. cbn. unfold meaning_table. by rewrite (binding_of_map meaning_of). Qed.

Lemma grows_char c st : grows st (mk_expansion (ex_sql st ++ encode_char c) (ex_codecs st) (ex_slots st) (ex_used st))
  (map TB (encode_char c)) (map Txt (encode_char c)).
Proof.
  split; cbn [ex_sql ex_codecs]; unfold size; cbn [ex_sql ex_codecs].
  - by rewrite print_bytes.
  - done.
  - apply read_bytes.
  - intros k (b & [=] & _)%list_elem_of_fmap.
  - lia.
  - lia.
Qed.

Lemma ran_char c ps its st st' : plain_char c → chars_of plain_char ps →
  ran (mk_expansion (ex_sql st ++ encode_char c) (ex_codecs st) (ex_slots st) (ex_used st)) ps its st' →
  ran st (Chr c :: ps) (map Txt (encode_char c) ++ its) st'.
Proof.
  intros [Hc Hd] Hps (Hu & ts & Hgr & Hg & Ha & Hs). destruct (char_bytes c Hc Hd) as [Hb Hstart]. split; [exact Hu|].
  exists (map TB (encode_char c) ++ ts). split_and!.
  - eapply grows_trans; [apply grows_char|exact Hgr].
  - by apply good_bytes.
  - intros [Hlt Hrest]%Forall_cons. apply Forall_app. split; [|by apply Ha]. apply char_ascii. unfold is_char in Hc. lia.
  - intros Hah%negb_true_iff. rewrite print_app, print_bytes. pose proof (encode_char_nonempty c) as Hne.
    specialize (Hstart Hah). revert Hne Hstart. destruct (encode_char c); [cbn; lia|done].
Qed.

Lemma ran_hole n ps its its' st st1 st' : after_hole ps = true → placed st n its st1 → ran st1 ps its' st' →
  ran st (Hole n :: ps) (its ++ its') st'.
Proof.
  intros Hah (Hu1 & _ & ts1 & Hgr1 & Hg1 & Ha1 & Hs1) (Hu & ts & Hgr & Hg & Ha & Hs). split.
  { rewrite Hu, Hu1. change (hole_names (Hole n :: ps)) with (n :: hole_names ps). by rewrite reverse_cons, <- (assoc_L (++)). }
  exists (ts1 ++ ts). split_and!.
  - by eapply grows_trans.
  - apply good_app; [done|done|by apply Hs, after_hole_digitless].
  - intros [_ Hrest]%Forall_cons. apply Forall_app. auto.
  - intros _. rewrite print_app. apply digits_app; [done|by apply Hs, after_hole_digitless].
Qed.

Lemma run_ok ps st : separated ps = true → chars_of plain_char ps → slots_ok st →
  size st + Z.of_nat (args (concat (map (piece_meaning meaning_table) ps))) < 2 ^ 63 →
  decides (run ps st) (holes_bound ps) (ran st ps (concat (map (piece_meaning meaning_table) ps))).
Proof.
  revert st. induction ps as [|[c|n] ps IH]; intros st Hsep Hps Hst Hsize.
  - split; [done|]. split.
    + intros st' [= <-]. split; [done|]. exists []. split_and!; [|done|done|done].
      split; unfold size; [symmetry; apply app_nil_r|done|done|set_solver|lia|cbn; lia].
    + split; [|intros _; by eexists]. intros _ n. cbn. set_solver.
  - apply Forall_cons in Hps as [Hc Hps]. rewrite pieces_meaning, args_app in Hsize. cbn [piece_meaning] in Hsize.
    destruct (IH (mk_expansion (ex_sql st ++ encode_char c) (ex_codecs st) (ex_slots st) (ex_used st))) as (H1 & H2 & H3); [done|done|done| |].
    { unfold size in *. cbn. lia. }
    split; [exact H1|]. split; [|exact H3]. intros st' Hrun. rewrite pieces_meaning. apply ran_char; auto.
  - apply Forall_cons in Hps as [_ Hps]. cbn [separated] in Hsep. apply andb_true_iff in Hsep as [Hah Hsep].
    rewrite pieces_meaning, args_app in *. pose proof (hole_meaning n) as Hm. cbn [run].
    assert (holes_bound (Hole n :: ps) ↔ (∃ e, binding_of n bindings = Some e ∧ well_bound_of e = true) ∧ holes_bound ps) as Hiff.
    { unfold holes_bound, hole_names. cbn. setoid_rewrite elem_of_cons. naive_solver. }
    destruct (binding_of n bindings) as [e|] eqn:He.
    + change (default [] (meaning_of <$> Some e)) with (meaning_of e) in Hm. rewrite Hm in *.
      destruct (place_ok st n e He Hst) as (H1 & H2 & H3); [lia|].
      destruct (place bound_table n st) as [[st1|err]|] eqn:Hp; [| |done].
      * pose proof (H2 st1 eq_refl) as Hpl. destruct Hpl as (Hu1 & Hst1 & ts1 & Hgr1 & Hrest1) eqn:Hpl'.
        pose proof (g_args _ _ _ _ Hgr1) as Hargs.
        destruct (IH st1 Hsep Hps Hst1) as (I1 & I2 & I3); [lia|]. split; [exact I1|]. split.
        -- intros st' Hrun. eapply ran_hole; eauto.
        -- rewrite Hiff, <- I3. split; [|naive_solver]. intros Hx. split; [|done]. exists e. split; [done|]. apply H3. eauto.
      * split; [done|]. split; [done|]. rewrite Hiff. split; [intros [? [=]]|]. intros [(e' & [= <-] & Hwb) _].
        apply H3 in Hwb as [? [=]].
    + unfold place, bound_table. rewrite (binding_of_map (λ e, mk_bound e (nested_sql e))), He. cbn.
      split; [done|]. split; [done|]. rewrite Hiff. split; [intros [? [=]]|]. intros [(e & [=] & _) _].
Qed.
End expansion.

(** ** Compiling an invocation *)
Section rust_induction.
Context (P : RustExpr → Prop) (Q : SqlInput → Prop).
Hypothesis Hother : ∀ e, (∀ path body, e ≠ XMacro path body) → P e.
Hypothesis Hmacro : ∀ path body, Q body → P (XMacro path body).
Hypothesis Herror : ∀ message, Q (SqlInputError message).
Hypothesis Hinput : ∀ sql bindings, Forall (λ nb, P nb.2) bindings → Q (SqlInputOf sql bindings).

Fixpoint rust_expr_ind (e : RustExpr) : P e :=
  match e with
  | XMacro path body => Hmacro path body (sql_input_ind body)
  | XPath p => Hother (XPath p) (λ _ _, ltac:(done))
  | XTuple es => Hother (XTuple es) (λ _ _, ltac:(done))
  | XCall f es => Hother (XCall f es) (λ _ _, ltac:(done))
  | XParen e => Hother (XParen e) (λ _ _, ltac:(done))
  | XGroup e => Hother (XGroup e) (λ _ _, ltac:(done))
  | XOther => Hother XOther (λ _ _, ltac:(done))
  end
with sql_input_ind (i : SqlInput) : Q i :=
  match i with
  | SqlInputError message => Herror message
  | SqlInputOf sql bindings => Hinput sql bindings
      ((fix all (l : list (str * RustExpr)) : Forall (λ nb, P nb.2) l :=
        match l with
        | [] => List.Forall_nil _
        | nb :: l => List.Forall_cons _ _ _ (rust_expr_ind nb.2) (all l)
        end) bindings)
  end.
End rust_induction.

Lemma duplicate_None seen names : duplicate seen names = None ↔ NoDup names ∧ ∀ n, n ∈ names → n ∉ seen.
Proof.
  revert seen. induction names as [|n names IH]; intros seen; cbn.
  { split; [|done]. split; [constructor|set_solver]. }
  case_bool_decide as Hn.
  - split; [done|]. intros [_ H]. exfalso. apply (H n); [set_solver|done].
  - rewrite IH, NoDup_cons. set_solver.
Qed.

Lemma unused_None names used : unused names used = None ↔ ∀ n, n ∈ names → n ∈ used.
Proof.
  unfold unused. split.
  - intros H n Hn. destruct (decide (n ∈ used)) as [|Hu]; [done|]. exfalso.
    assert (n ∈ filter (λ n, n ∉ used) names) as Hf by (by apply list_elem_of_filter).
    destruct (filter _ names); [by apply not_elem_of_nil in Hf|done].
  - intros H. destruct (filter (λ n, n ∉ used) names) as [|n l] eqn:E; [done|].
    assert (n ∈ filter (λ n, n ∉ used) names) as [Hu Hn]%list_elem_of_filter by (rewrite E; set_solver). by apply H in Hn.
Qed.

Lemma binding_of_elem {A} name (a : A) l : binding_of name l = Some a → (name, a) ∈ l.
Proof.
  induction l as [|[n b] l IH]; [done|]. cbn. case_bool_decide as E; [intros [= ->]; subst; set_solver|]. intros H%IH. set_solver.
Qed.

Lemma binding_of_NoDup {A} name (a : A) l : NoDup l.*1 → (name, a) ∈ l → binding_of name l = Some a.
Proof.
  induction l as [|[n b] l IH]; [set_solver|]. cbn. intros [Hn Hd]%NoDup_cons [[= -> ->]|Hin]%elem_of_cons; [by case_bool_decide|].
  case_bool_decide as E; [|by apply IH]. subst. exfalso. apply Hn, list_elem_of_fmap. by exists (name, a).
Qed.

Lemma well_bound_holes sql bindings :
  well_bound (SqlInputOf sql bindings) = true ↔
  NoDup bindings.*1 ∧ holes_bound bindings (pieces 0 (chars sql)) ∧ ∀ n, n ∈ bindings.*1 → n ∈ hole_names (pieces 0 (chars sql)).
Proof.
  cbn [well_bound]. rewrite !andb_true_iff, bool_decide_eq_true, !forallb_forall. unfold holes_bound. split.
  - intros [[Hd Hholes] Hall]. split_and!; [done| |].
    + intros n Hn. specialize (Hholes n ltac:(by apply list_elem_of_In)). apply bool_decide_eq_true in Hholes.
      apply list_elem_of_fmap in Hholes as ([m e] & -> & Hin). exists e. split; [by apply binding_of_NoDup|].
      apply list_elem_of_In, Hall in Hin. by apply andb_true_iff in Hin as [_ ?].
    + intros n ([m e] & -> & Hin)%list_elem_of_fmap. apply list_elem_of_In, Hall in Hin.
      apply andb_true_iff in Hin as [Hin _]. by apply bool_decide_eq_true in Hin.
  - intros (Hd & Hholes & Hused). split_and!; [done| |].
    + intros n Hn%list_elem_of_In. apply bool_decide_eq_true. destruct (Hholes n Hn) as (e & He%binding_of_elem & _).
      apply list_elem_of_fmap. by exists (n, e).
    + intros [n e] Hin%list_elem_of_In. cbn. assert (n ∈ hole_names (pieces 0 (chars sql))) as Hn.
      { apply Hused, list_elem_of_fmap. by exists (n, e). }
      rewrite bool_decide_eq_true_2 by done. destruct (Hholes n Hn) as (e' & He & Hw).
      rewrite (binding_of_NoDup _ _ _ Hd Hin) in He. by injection He as <-.
Qed.

Definition input_ok (i : SqlInput) : Prop := ∀ nested, tame nested i = true → small (args (meaning i)) →
  decides (compile_input i) (well_bound i = true) (λ c, compiled_as (meaning i) c ∧ (nested = true → splices (meaning i) c)).

Lemma ascii_chars s : forallb (λ b, u8_of b <? 128) s = true → Forall (λ c, c < 128) (chars s).
Proof.
  intros H. unfold chars. destruct (utf8_scan 0 s) as [cs|] eqn:E; [|constructor]. apply utf8_scan_sound in E as [<- Hcs].
  induction Hcs as [|c cs Hc _ IH]; [constructor|]. unfold encode_chars in H. cbn in H. rewrite forallb_app in H.
  apply andb_true_iff in H as [Hlow H]. constructor; [|by apply IH]. destruct (Z.lt_ge_cases c 128) as [|Hge]; [done|]. exfalso.
  pose proof (encode_char_high c Hc Hge) as Hh. pose proof (encode_char_nonempty c). destruct Hh as [|b bs Hb _]; [cbn in *; lia|].
  cbn in Hlow. apply andb_true_iff in Hlow as [Hlow%Z.ltb_lt _]. lia.
Qed.

Lemma nested_digitless s : forallb (λ b, u8_of b <? 128) s = true → starts_with_digit s = false → digitless (pieces 0 (chars s)) = true.
Proof.
  intros Ha Hs. unfold chars. destruct s as [|b s]; [done|]. cbn in Ha. apply andb_true_iff in Ha as [Hb%Z.ltb_lt _].
  rewrite utf8_scan_1 by done. destruct (utf8_scan _ s) as [cs|]; [|done]. cbn [fmap]. cbn. case_match; [done|]. cbn.
  cbn in Hs. unfold is_ascii_digit, within in Hs. unfold digit_char. by rewrite Hs.
Qed.

Lemma tame_plain sql : tame_text sql = true → chars_of plain_char (pieces 0 (chars sql)).
Proof.
  intros H. pose proof (pieces_chars _ _ 0 (chars_valid sql)) as Hv. unfold tame_text in H. rewrite forallb_forall in H.
  unfold chars_of. rewrite Forall_forall in *. intros [c|n] Hp; [|done]. split; [by apply (Hv (Chr c))|].
  apply list_elem_of_In, H, negb_true_iff, Z.eqb_neq in Hp. done.
Qed.

Lemma compile_with_ok sql bindings nested : (∀ n e, binding_of n bindings = Some e → binding_ok e) →
  tame_text sql = true → (nested = true → tame_nested sql = true) → small (args (meaning (SqlInputOf sql bindings))) →
  decides (compile_with sql (bound_table bindings)) (well_bound (SqlInputOf sql bindings) = true)
    (λ c, compiled_as (meaning (SqlInputOf sql bindings)) c ∧ (nested = true → splices (meaning (SqlInputOf sql bindings)) c)).
Proof.
  intros Hok Htext Hnested Hsmall. set (ps := pieces 0 (chars sql)).
  destruct (run_ok bindings Hok ps expansion_start) as (H1 & H2 & H3).
  { apply separated_pieces. } { by apply tame_plain. } { intros n k Hk. cbn in Hk. by rewrite lookup_empty in Hk. } { exact Hsmall. }
  unfold decides. rewrite well_bound_holes. fold ps. rewrite <- H3. unfold compile_with. rewrite expand_run. fold ps.
  assert ((bound_table bindings).*1 = bindings.*1) as -> by (unfold bound_table; rewrite <- list_fmap_compose; done).
  destruct (duplicate [] bindings.*1) as [n|] eqn:Hdup.
  { split; [done|]. split; [done|]. split; [intros [? [=]]|]. intros (Hd & _). exfalso.
    assert (duplicate [] bindings.*1 = None); [|congruence]. apply duplicate_None. split; [done|set_solver]. }
  apply duplicate_None in Hdup as [Hd _].
  destruct (run bindings ps expansion_start) as [[st|err]|]; [| |done].
  2: { split; [done|]. split; [done|]. split; [intros [? [=]]|intros (_ & [? [=]] & _)]. }
  destruct (H2 st eq_refl) as (Hused & ts & Hgr & Hg & Ha & Hs). cbn [expansion_start ex_used] in Hused. rewrite app_nil_r in Hused.
  destruct (unused bindings.*1 (ex_used st)) as [n|] eqn:Hun.
  { split; [done|]. split; [done|]. split; [intros [? [=]]|]. intros (_ & _ & Hall). exfalso.
    assert (unused bindings.*1 (ex_used st) = None); [|congruence]. apply unused_None. intros m Hm. rewrite Hused. apply elem_of_reverse; auto. }
  split; [done|]. split.
  - intros c [= <-]. assert (∀ k, TP k ∈ ts ↔ 1 ≤ k ≤ Z.of_nat (length (ex_codecs st))) as Hnum.
    { intros k. split; [apply (g_range _ _ _ _ Hgr)|]. intros Hk. apply (g_new _ _ _ _ Hgr). unfold size. cbn. lia. }
    pose proof (g_args _ _ _ _ Hgr) as Hargs. pose proof (g_sql _ _ _ _ Hgr) as Hsql. pose proof (g_read _ _ _ _ Hgr) as Hread.
    unfold size in Hargs. cbn in Hargs, Hsql.
    assert (length (ex_codecs st) ≤ args (meaning (SqlInputOf sql bindings)))%nat as Hlen by (cbn [meaning]; unfold meaning_table, ps in Hargs; lia).
    split; [by exists ts|]. intros Hn. specialize (Hnested Hn). unfold tame_nested in Hnested.
    apply andb_true_iff in Hnested as [Hascii Hdigit%negb_true_iff]. exists ts. split_and!; [done|done|done|apply Hnum|done| |].
    + apply Ha, pieces_chars, ascii_chars, Hascii.
    + apply Hs, nested_digitless; done.
  - split; [|by eexists]. intros _. split; [done|]. split; [by exists st|]. intros n Hn.
    rewrite unused_None in Hun. apply Hun in Hn. rewrite Hused in Hn. by rewrite elem_of_reverse in Hn.
Qed.

Lemma inputs_ok i : input_ok i.
Proof.
  apply (sql_input_ind (λ e, tame_of e = true → binding_ok e) input_ok).
  - intros e He _ _. destruct e; try done. by destruct (He path body).
  - intros path body Hbody Htame Hsmall. cbn in *. destruct (path_ends_with_sql path); [|done].
    destruct (Hbody true Htame Hsmall) as (H1 & H2 & H3). split; [done|]. split; [|exact H3]. intros c Hc. by apply H2.
  - intros message nested _ _. split; [done|]. split; [done|]. split; [intros [? [=]]|done].
  - intros sql bindings Hall nested Htame Hsmall. cbn [tame] in Htame. rewrite !andb_true_iff in Htame.
    destruct Htame as [[Htext Hnested] Hb]. apply compile_with_ok; [|done| |done].
    + intros n e He%binding_of_elem. rewrite Forall_forall in Hall. apply (Hall _ He).
      rewrite forallb_forall in Hb. by apply list_elem_of_In, Hb in He.
    + intros ->. done.
Qed.


