(* ===== verification/Derive.v ===== *)
(** * [#[derive(Codec)]]: a codec for the fields of a struct

    [compile_codec_derive] and its helpers of [crates/macros/src/lib.rs], with the inference of
    a codec from the type of a field, and the codec that is generated.

    A type is what syn's path shows: its segments and, when the last one has angle brackets, the
    arguments, of which those that are not types are [None].  A codec expression is a
    [RustExpr]; the expression of an inferred codec is the one its text parses to.  The struct's
    values are the tuples of its fields. *)
From S2P Require Import Prelude Bytes Text Error Types Codec ScalarCodecs Session SqlMacro.

Local Open Scope Z_scope.
Local Open Scope str_scope.

(** ** Input *)
Inductive RType := RPath (segments : list str) (args : option (list (option RType))) | ROther.

(** An attribute: its items [codec = "..."], with what the literal parses to, and others; a
    syntax error may end them. *)
Inductive PgMeta := MetaCodec (value : result str RustExpr) | MetaOther.
Inductive FieldAttr := NotPg | Pg (metas : list PgMeta) (syntax_error : option str).
Record DeriveField := mk_derive_field { df_name : str; df_type : RType; df_text : str; df_attrs : list FieldAttr }.
Inductive DeriveData := DStructNamed (fields : list DeriveField) | DStructOther | DNotStruct.
Record DeriveInput := mk_derive_input { di_generic : bool; di_data : DeriveData }.

(** ** Inference *)
Definition type_matches (ty : RType) (expected : list str) : bool :=
  match ty with RPath segments _ => bool_decide (segments = expected) | ROther => false end.

Definition codec_name (name : str) : RustExpr := XPath [name].
Definition nullable_of (e : RustExpr) : RustExpr := XCall (codec_name "nullable") [e].

Definition string_paths : list (list str) := [["String" : str]; ["std" : str; "string" : str; "String" : str]; ["alloc" : str; "string" : str; "String" : str]].
Definition option_paths : list (list str) := [["Option" : str]; ["std" : str; "option" : str; "Option" : str]; ["core" : str; "option" : str; "Option" : str]].
Definition vec_paths : list (list str) := [["Vec" : str]; ["std" : str; "vec" : str; "Vec" : str]; ["alloc" : str; "vec" : str; "Vec" : str]].

(** What [infer_codec_expr] looks at in the type argument [generic_type_arg] finds: what it
    infers for it and whether it is [u8]. *)
Definition only_argument {A} (args : list A) : option A := match args with [a] => Some a | _ => None end.

Fixpoint infer_codec_expr (ty : RType) : option RustExpr :=
  if type_matches ty ["i16" : str] then Some (codec_name "int2")
  else if type_matches ty ["i32" : str] then Some (codec_name "int4")
  else if type_matches ty ["i64" : str] then Some (codec_name "int8")
  else if type_matches ty ["bool" : str] then Some (codec_name "bool")
  else if existsb (type_matches ty) string_paths then Some (codec_name "text")
  else
    let generic_type_arg :=
      match ty with
      | RPath _ (Some args) =>
        only_argument (concat (map (λ a, match a with Some t => [(infer_codec_expr t, type_matches t ["u8" : str])] | None => [] end) args))
      | _ => None
      end in
    match (if existsb (type_matches ty) option_paths then generic_type_arg else None) with
    | Some inner => nullable_of <$> inner.1
    | None =>
      match (if existsb (type_matches ty) vec_paths then generic_type_arg else None) with
      | Some inner => if inner.2 : bool then Some (codec_name "bytea") else None
      | None => None
      end
    end.

Definition three_dots : str := [x22] ++ "..." ++ [x22].
Definition infer_field_codec (f : DeriveField) : result str RustExpr :=
  ok_or (infer_codec_expr (df_type f)) ("no default codec inference for field type `" ++ df_text f ++ "`; add #[pg(codec = " ++ three_dots ++ ")]").

(** ** Attributes *)
Fixpoint parse_pg_attr (metas : list PgMeta) (syntax_error : option str) (codec : option RustExpr) : result str (option RustExpr) :=
  match metas with
  | [] => match syntax_error with Some e => Err e | None => Ok codec end
  | MetaOther :: _ => Err ("unsupported #[pg(...)] attribute; expected codec = " ++ three_dots)
  | MetaCodec value :: metas =>
    match codec with
    | Some _ => Err ("duplicate codec attribute" : str)
    | None => e ← value; parse_pg_attr metas syntax_error (Some e)
    end
  end.

Fixpoint parse_attrs (attrs : list FieldAttr) (codec : option RustExpr) : result str (option RustExpr) :=
  match attrs with
  | [] => Ok codec
  | NotPg :: attrs => parse_attrs attrs codec
  | Pg metas e :: attrs => codec ← parse_pg_attr metas e codec; parse_attrs attrs codec
  end.

Definition parse_codec_attr (f : DeriveField) : result str RustExpr :=
  codec ← parse_attrs (df_attrs f) None;
  match codec with Some e => Ok e | None => infer_field_codec f end.

Definition reject_generics (d : DeriveInput) : result str unit :=
  if di_generic d then Err ("Codec derive does not support generic structs yet" : str) else Ok tt.

(** The fields with their codecs. *)
Definition compile_codec_derive (d : DeriveInput) : result str (list (DeriveField * RustExpr)) :=
  _ ← reject_generics d;
  match di_data d with
  | DNotStruct => Err ("Codec can only be derived for structs" : str)
  | DStructOther => Err ("Codec requires a struct with named fields" : str)
  | DStructNamed fields => map_result (λ f, e ← parse_codec_attr f; Ok (f, e)) fields
  end.

(** ** The generated codec

    Fields are encoded one after the other, the rest is the tuple's; [types] is not generated,
    so it is the trait's default. *)
Definition derived_codec (Ts : list Type) (cs : codecs Ts) : Codec (tuple Ts) :=
  let t := tuple_codec Ts cs in
  mk_codec
    (mk_encoder (tuple_encode Ts cs) (enc_oids (enc t)) (types_for_oids (enc_oids (enc t))) (enc_formats (enc t)))
    (mk_decoder (decode (dec t)) (n_columns (dec t)) (dec_oids (dec t)) (types_for_oids (dec_oids (dec t))) (dec_formats (dec t))).

(** ** Field types and their codecs *)

(** The Rust types that have a default codec, with their values. *)
Inductive RustTy := TyI16 | TyI32 | TyI64 | TyBool | TyString | TyBytes | TyOption (t : RustTy).
#[export] Instance RustTy_eq_dec : EqDecision RustTy.
Proof. solve_decision. Defined.

Fixpoint values (t : RustTy) : Type :=
  match t with
  | TyI16 | TyI32 | TyI64 => Z
  | TyBool => bool
  | TyString => str
  | TyBytes => bytes
  | TyOption t => option (values t)
  end.

(** The values that come back; [bytea] takes a value that begins with [\x] for text. *)
Fixpoint value_ok (t : RustTy) : values t → Prop :=
  match t with
  | TyI16 => in_sint 16
  | TyI32 => in_sint 32
  | TyI64 => in_sint 64
  | TyBool => λ _, True
  | TyString => λ s, utf8_valid s = true
  | TyBytes => λ b, strip_prefix "\x" b = None
  | TyOption t => λ o, match o with Some v => value_ok t v | None => True end
  end.

(** What a path denotes, with the names of the prelude not shadowed. *)
Fixpoint rust_type (ty : RType) : option RustTy :=
  match ty with
  | RPath segments None =>
    if bool_decide (segments = ["i16" : str]) then Some TyI16
    else if bool_decide (segments = ["i32" : str]) then Some TyI32
    else if bool_decide (segments = ["i64" : str]) then Some TyI64
    else if bool_decide (segments = ["bool" : str]) then Some TyBool
    else if bool_decide (segments ∈ string_paths) then Some TyString
    else None
  | RPath segments (Some [Some t]) =>
    if bool_decide (segments ∈ option_paths) then TyOption <$> rust_type t
    else if bool_decide (segments ∈ vec_paths) && type_matches t ["u8" : str] then Some TyBytes
    else None
  | _ => None
  end.

(** The codec an expression names, with [use babar::codec::*]. *)
Definition named_codec (name : str) : option { t : RustTy & Codec (values t) } :=
  binding_of name
    [("int2" : str, existT TyI16 int2 : { t : RustTy & Codec (values t) }); ("int4" : str, existT TyI32 int4); ("int8" : str, existT TyI64 int8);
     ("bool" : str, existT TyBool bool_); ("text" : str, existT TyString text); ("varchar" : str, existT TyString varchar);
     ("bpchar" : str, existT TyString bpchar); ("bytea" : str, existT TyBytes bytea)].

Fixpoint expr_codec (e : RustExpr) : option { t : RustTy & Codec (values t) } :=
  match e with
  | XPath [name] => named_codec name
  | XCall f [e] =>
    match f with
    | XPath [name] =>
      if bool_decide (name = "nullable") then
        match expr_codec e with Some (existT t c) => Some (existT (P := λ t, Codec (values t)) (TyOption t) (nullable c)) | None => None end
      else None
    | _ => None
    end
  | _ => None
  end.

Fixpoint field_codecs (es : list RustExpr) : option { ts : list RustTy & codecs (map values ts) } :=
  match es with
  | [] => Some (existT [] tt)
  | e :: es =>
    match expr_codec e, field_codecs es with
    | Some (existT t c), Some (existT ts cs) => Some (existT (P := λ ts, codecs (map values ts)) (t :: ts) (c, cs))
    | _, _ => None
    end
  end.

Fixpoint fields_ok (ts : list RustTy) : tuple (map values ts) → Prop :=
  match ts with
  | [] => λ _, True
  | t :: ts => λ v, value_ok t v.1 ∧ fields_ok ts v.2
  end.

(** *** Known codecs keep the contract *)
Definition flat (t : RustTy) : Prop := match t with TyOption (TyOption _) => False | _ => True end.
Fixpoint flat_all (t : RustTy) : Prop := flat t ∧ match t with TyOption t => flat_all t | _ => True end.

Definition keeps_contract (x : { t : RustTy & Codec (values t) }) : Prop :=
  Lawful (projT2 x) (value_ok (projT1 x)) ∧ match projT1 x with TyOption _ => True | _ => NeverNull (projT2 x) (value_ok (projT1 x)) end.

Lemma named_codec_contract name x : named_codec name = Some x → keeps_contract x ∧ match projT1 x with TyOption _ => False | _ => True end.
Proof.
  unfold named_codec. cbn [binding_of].
  repeat (case_bool_decide; [intros [= <-]; cbn; (split; [split; cbn; apply _|done])|]). done.
Qed.

Lemma expr_codec_contract : ∀ e x, expr_codec e = Some x → flat_all (projT1 x) → keeps_contract x.
Proof.
  fix IH 1. intros e x. destruct e as [[|name [|]]| |f [|e [|]]| | | |]; cbn [expr_codec]; try done.
  - intros H _. by destruct (named_codec_contract _ _ H).
  - destruct f as [[|name [|]]| | | | | |]; try done. case_bool_decide; [|done].
    destruct (expr_codec e) as [[t c]|] eqn:He; [|done]. intros [= <-] [Hflat Hall]. cbn in *.
    destruct (IH e _ He Hall) as [Hl Hn]. cbn in *. split; [|done]. cbn. destruct t; try apply nullable_lawful; done.
Qed.

Lemma field_codecs_contract es : ∀ x, field_codecs es = Some x → Forall flat_all (projT1 x) →
  lawful_all (map values (projT1 x)) (projT2 x) (fields_ok (projT1 x)).
Proof.
  induction es as [|e es IH]; intros x; cbn [field_codecs]; [by intros [= <-] _|].
  destruct (expr_codec e) as [[t c]|] eqn:He; [|done]. destruct (field_codecs es) as [[ts cs]|]; [|done].
  intros [= <-] [Ht Hts]%Forall_cons. cbn in *. destruct (expr_codec_contract _ _ He Ht) as [Hl _].
  exists (value_ok t), (fields_ok ts). split; [exact Hl|]. split; [exact (IH _ eq_refl Hts)|done].
Qed.

(** *** The inferred codec is a codec of the field's type *)
(** The paths of a list, one by one. *)
Ltac each_path H := repeat (apply elem_of_cons in H as [->|H]); [..|by apply not_elem_of_nil in H].

Lemma infer_option segments t : segments ∈ option_paths → infer_codec_expr (RPath segments (Some [Some t])) = nullable_of <$> infer_codec_expr t.
Proof.
  assert (∀ o : option RustExpr, match nullable_of <$> o with Some e => Some e | None => None end = nullable_of <$> o) as Hid by by intros [].
  intros H. each_path H; reflexivity.
Qed.

Lemma infer_vec segments t : segments ∈ vec_paths → type_matches t ["u8" : str] = true →
  infer_codec_expr (RPath segments (Some [Some t])) = Some (codec_name "bytea").
Proof.
  intros H Ht. assert (infer_codec_expr (RPath segments (Some [Some t])) = if type_matches t ["u8" : str] then Some (codec_name "bytea") else None) as ->.
  { each_path H; reflexivity. }
  by rewrite Ht.
Qed.

Lemma inferred_codec : ∀ ty t, rust_type ty = Some t → ∃ e c, infer_codec_expr ty = Some e ∧ expr_codec e = Some (existT t c).
Proof.
  fix IH 1. intros [segments [args|]|] t; cbn [rust_type]; [|..|done].
  - destruct args as [|[ty|] [|]]; try done. case_bool_decide as Ho.
    + intros (t' & Ht & ->)%fmap_Some. destruct (IH ty t' Ht) as (e & c & He & Hc). exists (nullable_of e), (nullable c).
      rewrite (infer_option _ _ Ho), He. split; [done|]. unfold nullable_of. cbn [expr_codec codec_name]. by rewrite Hc.
    + case_bool_decide as Hv; [cbn [andb]|done]. destruct (type_matches ty _) eqn:Hu; [|done]. intros [= <-].
      exists (codec_name "bytea"), bytea. split; [exact (infer_vec _ _ Hv Hu)|reflexivity].
  - repeat (case_bool_decide as Hs; [intros [= <-]|clear Hs]); try done; try (subst segments; by do 2 eexists).
    each_path Hs; by do 2 eexists.
Qed.

(** ** What is derived *)

(** A field of a type with a default codec, without an option of an option; a codec that is given
    is one for the type of the field, as the generated assertions make sure. *)
Definition field_typed (x : DeriveField * RustExpr) (t : RustTy) : Prop :=
  rust_type (df_type x.1) = Some t ∧ flat_all t
  ∧ (parse_attrs (df_attrs x.1) None ≠ Ok None → ∃ c, expr_codec x.2 = Some (existT t c)).

Lemma field_codec f e t : parse_codec_attr f = Ok e → field_typed (f, e) t → ∃ c, expr_codec e = Some (existT t c).
Proof.
  intros (o & Ho & He)%result_bind_Ok (Ht & _ & Hattr). cbn in *. destruct o as [e'|].
  - injection He as ->. apply Hattr. rewrite Ho. discriminate.
  - unfold infer_field_codec in He. rewrite ok_or_Ok in He. destruct (inferred_codec _ _ Ht) as (e' & c & He' & Hc).
    rewrite He in He'. injection He' as ->. by exists c.
Qed.

(** C34: what [derive(Codec)] gives for a struct whose fields are integers, booleans, strings, byte
    vectors and options of them, with the default codecs or given ones: every field has a codec of
    its own type, and the generated codec keeps the contract: it pushes the slots of the fields in
    order, as many as it has OIDs, consumes as many columns, and gives back the struct it encoded,
    whatever columns follow. *)
Theorem derived_codec_lawful d fs ts v ps rest : compile_codec_derive d = Ok fs → Forall2 field_typed fs ts → fields_ok ts v →
  ∃ cs slots, field_codecs (map snd fs) = Some (existT ts cs)
    ∧ di_data d = DStructNamed (map fst fs)
    ∧ encode (enc (derived_codec (map values ts) cs)) v ps = (Ok tt, ps ++ slots)
    ∧ length slots = length (enc_oids (enc (derived_codec (map values ts) cs)))
    ∧ n_columns (dec (derived_codec (map values ts) cs)) = length slots
    ∧ decode (dec (derived_codec (map values ts) cs)) (slots ++ rest) = Ok v.
Proof.
  unfold compile_codec_derive. intros ([] & _ & Hfs)%result_bind_Ok Hts Hv.
  destruct (di_data d) as [fields| |]; [|done..]. apply map_result_Ok in Hfs.
  assert (Hmap : fields = map fst fs).
  { clear -Hfs. induction Hfs as [|f [f' e] l l' Hf _ IH]; [done|]. apply result_bind_Ok in Hf as (e' & _ & [= -> ->]). cbn. by rewrite <- IH. }
  assert (∃ cs, field_codecs (map snd fs) = Some (existT ts cs)) as [cs Hcs].
  { clear Hv Hmap v. revert ts Hts. induction Hfs as [|f [f' e] l l' Hf _ IH]; intros ts Hts.
    - apply Forall2_nil_inv_l in Hts as ->. by exists tt.
    - apply Forall2_cons_inv_l in Hts as (t & ts' & Ht & Hts & ->). apply result_bind_Ok in Hf as (e' & He & [= -> ->]).
      destruct (field_codec _ _ _ He Ht) as [c Hc]. destruct (IH _ Hts) as [cs Hcs]. exists (c, cs). cbn. by rewrite Hc, Hcs. }
  assert (Hflat : Forall flat_all ts).
  { clear -Hts. induction Hts as [|x t l ts (_ & Ht & _) _ IH]; by constructor. }
  destruct (tuple_lawful _ _ _ (field_codecs_contract _ _ Hcs Hflat)) as [Hcol _ Hround]. cbn [projT1 projT2] in *.
  destruct (Hround v ps Hv) as (slots & He & Hlen & Hdec). exists cs, slots. subst fields.
  split_and!; [done|done|exact He|exact Hlen|exact (eq_trans Hcol (eq_sym Hlen))|apply Hdec].
Qed.

(** ** Examples *)
Definition user_row : DeriveInput :=
  mk_derive_input false (DStructNamed
    [mk_derive_field "id" (RPath ["i32" : str] None) "i32" [];
     mk_derive_field "note" (RPath ["Option" : str] (Some [Some (RPath ["String" : str] None)])) "Option < String >" [NotPg];
     mk_derive_field "handle" (RPath ["String" : str] None) "String" [Pg [MetaCodec (Ok (codec_name "varchar"))] None]]).
Definition user_types : list RustTy := [TyI32; TyOption TyString; TyString].
Definition user : tuple (map values user_types) := (7, (Some ("a"%s), ("b"%s, tt))).

Definition user_codecs : codecs (map values user_types) := (int4, (nullable text, (varchar, tt))).

Lemma derived_codec_lawful_witness :
  ∃ fs, compile_codec_derive user_row = Ok fs ∧ field_codecs (map snd fs) = Some (existT user_types user_codecs)
    ∧ enc_oids (enc (derived_codec (map values user_types) user_codecs)) = [INT4; TEXT; VARCHAR]
    ∧ ∃ slots, encode (enc (derived_codec (map values user_types) user_codecs)) user [] = (Ok tt, slots) ∧ length slots = 3%nat
      ∧ decode (dec (derived_codec (map values user_types) user_codecs)) (slots ++ [None]) = Ok user.
Proof.
  destruct (compile_codec_derive user_row) as [fs|e] eqn:H; [|exfalso; vm_compute in H; discriminate].
  assert (field_codecs (map snd fs) = Some (existT user_types user_codecs)) as Huser.
  { vm_compute in H. injection H as <-. reflexivity. }
  destruct (derived_codec_lawful user_row fs user_types user [] [None] H) as (cs & slots & Hcs & _ & He & Hlen & _ & Hd).
  - vm_compute in H. injection H as <-.
    repeat (apply List.Forall2_cons; [split; [vm_compute; reflexivity|split; [vm_compute; tauto|]]|]); [..|apply List.Forall2_nil].
    1, 2: intros Hne; exfalso; apply Hne; reflexivity. intros _. exists varchar. reflexivity.
  - repeat split; vm_compute; congruence.
  - rewrite Huser in Hcs. apply (inj Some) in Hcs. apply (Eqdep_dec.inj_pair2_eq_dec _ (λ a b : list RustTy, decide (a = b))) in Hcs. subst cs.
    exists fs. split; [reflexivity|]. split; [exact Huser|]. split; [reflexivity|]. exists slots. split; [exact He|]. split; [exact Hlen|exact Hd].
Defined.

(** The generated codec does not pass on the types of its fields: an extension's type, which has no
    OID of its own, loses the name it is looked up by, and the session asks for a type without a
    name. *)
Example derived_forgets_extension :
  let c := (citext, tt) : codecs [str : Type] in
  enc_types (enc (tuple_codec [str : Type] c)) = [CITEXT_TYPE]
  ∧ enc_types (enc (derived_codec [str : Type] c)) = [Type_fixed 0 []]
  ∧ resolve_sql (Type_fixed 0 []) = "SELECT to_regtype('')::oid::text".
Proof. repeat split; vm_compute; reflexivity. Qed.

(** An option of an option gets the codec that cannot tell [Some None] from [None]. *)
Example nested_option :
  infer_codec_expr (RPath ["Option" : str] (Some [Some (RPath ["Option" : str] (Some [Some (RPath ["i32" : str] None)]))]))
  = Some (nullable_of (nullable_of (codec_name "int4"))).
Proof. reflexivity. Qed.
