(* ===== verification/Verify.v ===== *)
(** * Compile-time verification against a live database

    [crates/macros/src/verify.rs] and [verify_sql_input] of [crates/macros/src/lib.rs].  When
    [BABAR_DATABASE_URL] or [DATABASE_URL] is set the macros connect to the database, compare the
    tables a statement refers to with the system catalogs, prepare the statement and compare the
    types the server gives its parameters and columns with the declared ones.

    The environment is a parameter, and so is the database, reached through the [postgres] crate:
    [Live] is what its answers are, the database does not change while one statement is checked.
    The two catalog queries are operations of [Live], named after what they return. *)
From S2P Require Import Prelude Bytes Text Types Resolver SqlMacro.

Local Open Scope Z_scope.
Local Open Scope str_scope.

(** ** Errors *)
Inductive VerificationErrorKind := VConfiguration | VConnection | VSql | VSchema.
Record VerificationError := mk_verification_error { ve_kind : VerificationErrorKind; ve_message : str }.

Definition configuration (m : str) : VerificationError := mk_verification_error VConfiguration m.
Definition connection (m : str) : VerificationError := mk_verification_error VConnection m.
Definition sql_error (m : str) : VerificationError := mk_verification_error VSql m.
Definition schema_error (m : str) : VerificationError := mk_verification_error VSchema m.

Definition kind_label (k : VerificationErrorKind) : str :=
  match k with
  | VConfiguration => "configuration error" | VConnection => "connection error"
  | VSql => "SQL error" | VSchema => "schema mismatch"
  end.
Definition verification_display (e : VerificationError) : str :=
  "compile-time SQL verification " ++ kind_label (ve_kind e) ++ ": " ++ ve_message e.

(** An error of the [postgres] crate. *)
Inductive ErrorPosition := PosOriginal (position : Z) | PosInternal (position : Z) (query : str).
Record DbError := mk_db_error {
  de_message : str; de_detail : option str; de_hint : option str; de_position : option ErrorPosition; de_code : str;
}.
Record PgError := mk_pg_error { pg_display : str; pg_db : option DbError }.

Definition format_postgres_error (err : PgError) : str :=
  match pg_db err with
  | None => pg_display err
  | Some e =>
    de_message e
    ++ match de_detail e with Some d => "; " ++ d | None => [] end
    ++ match de_hint e with Some h => "; hint: " ++ h | None => [] end
    ++ match de_position e with
       | Some (PosOriginal p) => "; position " ++ Text.dec p
       | Some (PosInternal p q) => "; internal position " ++ Text.dec p ++ " in `" ++ q ++ "`"
       | None => []
       end
    ++ "; SQLSTATE " ++ de_code e
  end.

(** ** Where the database is *)
Inductive ConfigSource := BabarDatabaseUrl | DatabaseUrl.
Definition env_var (s : ConfigSource) : str :=
  match s with BabarDatabaseUrl => "BABAR_DATABASE_URL" | DatabaseUrl => "DATABASE_URL" end.

Record VerificationConfig := mk_vconfig { vc_source : ConfigSource; vc_url : str }.

(** ** Metadata *)
Record TypeMetadata := mk_type_meta { tm_oid : Oid; tm_name : str }.
Record ColumnMetadata := mk_column_meta { cm_name : str; cm_type : TypeMetadata }.
Record StatementMetadata := mk_statement_meta { sm_params : list TypeMetadata; sm_columns : list ColumnMetadata }.
Record TableColumnMetadata := mk_table_column { tc_name : str; tc_type : TypeMetadata; tc_nullability : Nullability }.

Record DeclaredType := mk_declared { dt_oid : Oid; dt_display : str }.
Record ReferencedColumn := mk_referenced_column { rc_name : str; rc_type : DeclaredType; rc_nullability : Nullability }.
Record ReferencedTable := mk_referenced_table { rt_name : str; rt_columns : list ReferencedColumn }.

(** ** The codecs whose types can be declared *)
Definition known_codec (ident : str) : option (Oid * str) :=
  if bool_decide (ident = "int2") then Some (21, "int2" : str)
  else if bool_decide (ident = "int4") then Some (23, "int4" : str)
  else if bool_decide (ident = "int8") then Some (20, "int8" : str)
  else if bool_decide (ident = "bool") then Some (16, "bool" : str)
  else if bool_decide (ident = "text") then Some (25, "text" : str)
  else if bool_decide (ident = "varchar") then Some (1043, "varchar" : str)
  else if bool_decide (ident = "bytea") then Some (17, "bytea" : str)
  else None.

Fixpoint as_path (e : RustExpr) : option (list str) :=
  match e with XParen e | XGroup e => as_path e | XPath path => Some path | _ => None end.

(** [parse_declared_scalar]; an error is its message. *)
Fixpoint parse_declared_scalar (e : RustExpr) : result str DeclaredType :=
  match e with
  | XParen e | XGroup e => parse_declared_scalar e
  | XPath path =>
    match last path with
    | None => Err ("unsupported empty codec path in verifiable codec DSL" : str)
    | Some ident =>
      match known_codec ident with
      | Some (oid, name) => Ok (mk_declared oid name)
      | None => Err ("unsupported verifiable codec `" ++ ident ++ "`; expected int2, int4, int8, bool, text, varchar, bytea, nullable(...), or tuples of these")
      end
    end
  | XCall func args =>
    match as_path func with
    | None => Err ("unsupported verifiable codec DSL; expected nullable(...) around a supported codec" : str)
    | Some path =>
      if bool_decide (last path = Some ("nullable"%s)) then
        match args with
        | [arg] => inner ← parse_declared_scalar arg; Ok (mk_declared (dt_oid inner) ("nullable(" ++ dt_display inner ++ ")"))
        | _ => Err ("nullable(...) in verifiable codec DSL must have exactly one argument" : str)
        end
      else Err ("unsupported verifiable codec call; only nullable(...) is supported" : str)
    end
  | _ => Err ("unsupported verifiable codec DSL; expected a codec path, nullable(...), or a tuple of these" : str)
  end.

Fixpoint parse_declared_types (e : RustExpr) : result str (list DeclaredType) :=
  match e with
  | XParen e | XGroup e => parse_declared_types e
  | XTuple elems =>
    (fix all (l : list RustExpr) : result str (list DeclaredType) :=
      match l with [] => Ok [] | e :: l => ts ← parse_declared_types e; us ← all l; Ok (ts ++ us) end) elems
  | e => t ← parse_declared_scalar e; Ok [t]
  end.

Definition declared_type_for_sql_type (t : SqlType) : DeclaredType :=
  match t with
  | TBool => mk_declared 16 "bool" | TBytea => mk_declared 17 "bytea" | TVarchar => mk_declared 1043 "varchar"
  | TText => mk_declared 25 "text" | TInt2 => mk_declared 21 "int2" | TInt4 => mk_declared 23 "int4"
  | TInt8 => mk_declared 20 "int8" | TFloat4 => mk_declared 700 "float4" | TFloat8 => mk_declared 701 "float8"
  | TUuid => mk_declared 2950 "uuid" | TDate => mk_declared 1082 "date" | TTime => mk_declared 1083 "time"
  | TTimestamp => mk_declared 1114 "timestamp" | TTimestamptz => mk_declared 1184 "timestamptz"
  | TJson => mk_declared 114 "json" | TJsonb => mk_declared 3802 "jsonb" | TNumeric => mk_declared 1700 "numeric"
  | TOther name => mk_declared 0 name
  end.

(** ** Comparing *)
Definition vcheck (b : bool) (message : str) : result VerificationError unit := if b then Ok tt else Err (schema_error message).

(** The loop of [verify_shape], from the parameter number [n]. *)
Fixpoint verify_types (n : Z) (actual : list TypeMetadata) (expected : list DeclaredType) : result VerificationError unit :=
  match actual, expected with
  | a :: actual, e :: expected =>
    _ ← vcheck (tm_oid a =? dt_oid e)
      ("parameter $" ++ Text.dec n ++ " has database type " ++ tm_name a ++ " (oid " ++ Text.dec (tm_oid a)
       ++ ") but the declared codec DSL expects " ++ dt_display e ++ " (oid " ++ Text.dec (dt_oid e) ++ ")");
    verify_types (n + 1) actual expected
  | _, _ => Ok tt
  end.

Definition verify_param_metadata (actual : list TypeMetadata) (expected : list DeclaredType) : result VerificationError unit :=
  _ ← vcheck (length actual =? length expected)%nat
    ("parameter count mismatch: SQL uses " ++ Text.dec (Z.of_nat (length actual))
     ++ " parameter(s) but the declared codec DSL expects " ++ Text.dec (Z.of_nat (length expected)));
  verify_types 1 actual expected.

Fixpoint verify_columns (n : Z) (actual : list ColumnMetadata) (expected : list DeclaredType) : result VerificationError unit :=
  match actual, expected with
  | a :: actual, e :: expected =>
    _ ← vcheck (tm_oid (cm_type a) =? dt_oid e)
      ("row column " ++ Text.dec n ++ " `" ++ cm_name a ++ "` has database type " ++ tm_name (cm_type a) ++ " (oid "
       ++ Text.dec (tm_oid (cm_type a)) ++ ") but the declared decoder expects " ++ dt_display e ++ " (oid "
       ++ Text.dec (dt_oid e) ++ ")");
    verify_columns (n + 1) actual expected
  | _, _ => Ok tt
  end.

Definition verify_row_metadata (actual : list ColumnMetadata) (expected : list DeclaredType) : result VerificationError unit :=
  _ ← vcheck (length actual =? length expected)%nat
    ("row column count mismatch: SQL returns " ++ Text.dec (Z.of_nat (length actual))
     ++ " column(s) but the declared decoder expects " ++ Text.dec (Z.of_nat (length expected)));
  verify_columns 1 actual expected.

Definition describe_nullability (n : Nullability) : str := match n with NonNull => "NOT NULL" | Nullable => "nullable" end.

(** One column of a referenced table. *)
Definition verify_column (table : str) (actual : list TableColumnMetadata) (expected : ReferencedColumn) : result VerificationError unit :=
  match list_find (λ c, tc_name c = rc_name expected) actual with
  | None => Err (schema_error ("referenced authored schema column `" ++ table ++ "." ++ rc_name expected ++ "` was not found in the live database"))
  | Some (_, a) =>
    _ ← vcheck (tm_oid (tc_type a) =? dt_oid (rc_type expected))
      ("referenced authored schema column `" ++ table ++ "." ++ rc_name expected ++ "` has database type "
       ++ tm_name (tc_type a) ++ " (oid " ++ Text.dec (tm_oid (tc_type a)) ++ ") but the authored schema expects "
       ++ dt_display (rc_type expected) ++ " (oid " ++ Text.dec (dt_oid (rc_type expected)) ++ ")");
    vcheck (bool_decide (tc_nullability a = rc_nullability expected))
      ("referenced authored schema column `" ++ table ++ "." ++ rc_name expected ++ "` has live nullability "
       ++ describe_nullability (tc_nullability a) ++ " but the authored schema expects "
       ++ describe_nullability (rc_nullability expected))
  end.

(** ** The database *)
Class Live := {
  live_connect : str → result PgError unit;
  live_prepare : str → result PgError StatementMetadata;
  (** [SELECT to_regclass($1)::oid] *)
  live_regclass : str → result PgError (option Oid);
  (** the live attributes of a relation, in order *)
  live_attributes : Oid → result PgError (list TableColumnMetadata);
}.

Section verification.
Context `{live : !Live} (environment : str → option bytes) (parse_config : str → result str unit).

(** [VerificationConfig::discover], over the sources in order. *)
Fixpoint discover_from (sources : list ConfigSource) : result VerificationError (option VerificationConfig) :=
  match sources with
  | [] => Ok None
  | source :: sources =>
    match environment (env_var source) with
    | None => discover_from sources
    | Some raw =>
      if negb (utf8_valid raw) then
        Err (configuration (env_var source ++ " contains non-UTF-8 data; compile-time SQL verification requires UTF-8 connection strings"))
      else
        let value := Text.trim raw in
        if bool_decide (value = []) then Err (configuration (env_var source ++ " is set but empty"))
        else
          _ ← map_err (λ err, configuration (env_var source ++ " does not contain a valid PostgreSQL connection string: " ++ err)) (parse_config value);
          Ok (Some (mk_vconfig source value))
    end
  end.
Definition discover : result VerificationError (option VerificationConfig) := discover_from [BabarDatabaseUrl; DatabaseUrl].

(** [Probe::connect], [describe_with_client] and [load_table_columns_with_client]. *)
Definition probe_connect (c : VerificationConfig) : result VerificationError unit :=
  map_err (λ err, connection ("failed to connect using " ++ env_var (vc_source c) ++ ": " ++ pg_display err)) (live_connect (vc_url c)).

Definition describe_with_client (sql : str) : result VerificationError StatementMetadata :=
  map_err (λ err, sql_error ("failed to prepare SQL against live database: " ++ format_postgres_error err)) (live_prepare sql).

Definition load_table_columns (table : str) : result VerificationError (list TableColumnMetadata) :=
  row ← map_err (λ err, sql_error ("failed to resolve referenced table `" ++ table ++ "` against live database: " ++ format_postgres_error err))
          (live_regclass table);
  oid ← ok_or row (schema_error ("referenced authored schema table `" ++ table ++ "` was not found in the live database"));
  map_err (λ err, sql_error ("failed to describe referenced table `" ++ table ++ "` against live database: " ++ format_postgres_error err))
    (live_attributes oid).

Definition verify_table (t : ReferencedTable) : result VerificationError unit :=
  actual ← load_table_columns (rt_name t);
  _ ← map_result (verify_column (rt_name t) actual) (rt_columns t);
  Ok tt.

Definition verify_referenced_tables (ts : list ReferencedTable) : result VerificationError unit :=
  _ ← map_result verify_table ts; Ok tt.

Definition verify_described (st : StatementMetadata) (params : list DeclaredType) (rows : option (list DeclaredType)) : result VerificationError unit :=
  _ ← verify_param_metadata (sm_params st) params;
  match rows with Some rows => verify_row_metadata (sm_columns st) rows | None => Ok tt end.

Definition verify_statement_against_probe (sql : str) (params : list DeclaredType) (rows : option (list DeclaredType)) : result VerificationError unit :=
  probe ← discover;
  match probe with
  | None => Ok tt
  | Some c =>
    _ ← probe_connect c;
    st ← describe_with_client sql;
    verify_described st params rows
  end.

Definition verify_typed_statement_against_probe (sql : str) (referenced : list ReferencedTable) (params : list DeclaredType)
    (rows : option (list DeclaredType)) : result VerificationError unit :=
  probe ← discover;
  match probe with
  | None => Ok tt
  | Some c =>
    _ ← probe_connect c;
    _ ← verify_referenced_tables referenced;
    st ← describe_with_client sql;
    verify_described st params rows
  end.

(** [verifiable_param_types] and [verify_sql_input], with an error rendered as the compiler shows it. *)
Definition verifiable_param_types (codecs : list RustExpr) : option (list DeclaredType) :=
  to_option ((λ l, concat l) <$> map_result parse_declared_types codecs).

Definition verify_sql_input (compiled : CompiledSql) : result str unit :=
  match verifiable_param_types (cs_codecs compiled) with
  | None => Ok tt
  | Some expected => map_err verification_display (verify_statement_against_probe (cs_sql compiled) expected None)
  end.

(** [sql!]: [None] is a panic while expanding. *)
Definition expand_sql (input : SqlInput) : Outcome CompiledSql :=
  match compile_input input with
  | Some (Ok compiled) => Some (_ ← verify_sql_input compiled; Ok compiled)
  | other => other
  end.

(** ** What verification decides *)

(** A live column with the name, the type and the nullability. *)
Definition column_matches (actual : list TableColumnMetadata) (c : ReferencedColumn) : Prop :=
  ∃ i a, list_find (λ a, tc_name a = rc_name c) actual = Some (i, a)
    ∧ tm_oid (tc_type a) = dt_oid (rc_type c) ∧ tc_nullability a = rc_nullability c.

Definition table_matches (t : ReferencedTable) : Prop :=
  ∃ oid actual, live_regclass (rt_name t) = Ok (Some oid) ∧ live_attributes oid = Ok actual
    ∧ Forall (column_matches actual) (rt_columns t).

(** The server gives the statement these parameters and columns. *)
Definition described_as (sql : str) (params : list DeclaredType) (rows : option (list DeclaredType)) : Prop :=
  ∃ st, live_prepare sql = Ok st ∧ map tm_oid (sm_params st) = map dt_oid params
    ∧ ∀ r, rows = Some r → map (tm_oid ∘ cm_type) (sm_columns st) = map dt_oid r.

Lemma vcheck_Ok b m : vcheck b m = Ok tt ↔ b = true.
Proof. by destruct b. Qed.

Lemma verify_types_Ok n actual expected : length actual = length expected →
  verify_types n actual expected = Ok tt ↔ map tm_oid actual = map dt_oid expected.
Proof.
  revert n expected. induction actual as [|a actual IH]; intros n [|e expected] Hl; try done. cbn [verify_types map].
  injection Hl as Hl. rewrite result_bind_Ok. split.
  - intros ([] & Hc & Hr). rewrite vcheck_Ok, Z.eqb_eq in Hc. rewrite Hc. f_equal. by apply (IH (n + 1)).
  - intros [= Hc Hr]. exists tt. rewrite vcheck_Ok, Z.eqb_eq. split; [done|]. by apply IH.
Qed.

Lemma verify_columns_Ok n actual expected : length actual = length expected →
  verify_columns n actual expected = Ok tt ↔ map (tm_oid ∘ cm_type) actual = map dt_oid expected.
Proof.
  revert n expected. induction actual as [|a actual IH]; intros n [|e expected] Hl; try done. cbn [verify_columns map].
  injection Hl as Hl. rewrite result_bind_Ok. split.
  - intros ([] & Hc & Hr). rewrite vcheck_Ok, Z.eqb_eq in Hc. cbn. rewrite Hc. f_equal. by apply (IH (n + 1)).
  - intros [= Hc Hr]. exists tt. rewrite vcheck_Ok, Z.eqb_eq. split; [done|]. by apply IH.
Qed.

Lemma same_length {A B} (f : A → Z) (g : B → Z) l k : map f l = map g k → length l = length k.
Proof. intros H. apply (f_equal length) in H. by rewrite !length_map in H. Qed.

Lemma verify_param_metadata_Ok actual expected :
  verify_param_metadata actual expected = Ok tt ↔ map tm_oid actual = map dt_oid expected.
Proof.
  unfold verify_param_metadata. rewrite result_bind_Ok. split.
  - intros ([] & Hl & H). rewrite vcheck_Ok, Nat.eqb_eq in Hl. by apply verify_types_Ok in H.
  - intros H. pose proof (same_length _ _ _ _ H). exists tt. rewrite vcheck_Ok, Nat.eqb_eq. split; [done|]. by apply verify_types_Ok.
Qed.

Lemma verify_row_metadata_Ok actual expected :
  verify_row_metadata actual expected = Ok tt ↔ map (tm_oid ∘ cm_type) actual = map dt_oid expected.
Proof.
  unfold verify_row_metadata. rewrite result_bind_Ok. split.
  - intros ([] & Hl & H). rewrite vcheck_Ok, Nat.eqb_eq in Hl. by apply verify_columns_Ok in H.
  - intros H. pose proof (same_length _ _ _ _ H). exists tt. rewrite vcheck_Ok, Nat.eqb_eq. split; [done|]. by apply verify_columns_Ok.
Qed.

Lemma verify_described_Ok sql params rows :
  (∃ st, describe_with_client sql = Ok st ∧ verify_described st params rows = Ok tt) ↔ described_as sql params rows.
Proof.
  unfold describe_with_client, verify_described, described_as. split.
  - intros (st & Hst & H). rewrite map_err_Ok in Hst. apply result_bind_Ok in H as ([] & Hp & Hr). apply verify_param_metadata_Ok in Hp.
    exists st. split_and!; [done|done|]. intros r ->. by apply verify_row_metadata_Ok.
  - intros (st & Hst & Hp & Hr). exists st. rewrite map_err_Ok, result_bind_Ok. split; [done|]. exists tt.
    rewrite verify_param_metadata_Ok. split; [done|]. destruct rows as [r|]; [|done]. apply verify_row_metadata_Ok. auto.
Qed.

Lemma verify_column_Ok table actual c : verify_column table actual c = Ok tt ↔ column_matches actual c.
Proof.
  unfold verify_column, column_matches. destruct (list_find _ actual) as [[i a]|]; [|split; [done|intros (? & ? & [=] & _)]].
  rewrite result_bind_Ok. split.
  - intros ([] & Ho%vcheck_Ok%Z.eqb_eq & Hn%vcheck_Ok%bool_decide_eq_true). by exists i, a.
  - intros (? & ? & [= <- <-] & Ho & Hn). exists tt. rewrite !vcheck_Ok, Z.eqb_eq, bool_decide_eq_true. done.
Qed.

Lemma map_result_units {E A} (f : A → result E unit) l :
  (_ ← map_result f l; Ok tt) = Ok tt ↔ Forall (λ a, f a = Ok tt) l.
Proof.
  rewrite result_bind_Ok. split.
  - intros (us & H%map_result_Ok & _). induction H as [|a [] l us Ha H IH]; constructor; done.
  - intros H. exists (map (λ _, tt) l). rewrite map_result_Ok. split; [|done]. induction H; constructor; done.
Qed.

Lemma verify_table_Ok t : verify_table t = Ok tt ↔ table_matches t.
Proof.
  unfold verify_table, table_matches, load_table_columns. rewrite result_bind_Ok. setoid_rewrite map_result_units.
  setoid_rewrite result_bind_Ok. setoid_rewrite result_bind_Ok. setoid_rewrite map_err_Ok. setoid_rewrite ok_or_Ok. split.
  - intros (actual & (row & Hr & oid & -> & Ha) & Hc). exists oid, actual. split_and!; [done|done|].
    apply (Forall_impl _ _ _ Hc). intros c. apply verify_column_Ok.
  - intros (oid & actual & Hr & Ha & Hc). exists actual. split; [eauto|]. apply (Forall_impl _ _ _ Hc). intros c. apply verify_column_Ok.
Qed.

Lemma verify_referenced_tables_Ok ts : verify_referenced_tables ts = Ok tt ↔ Forall table_matches ts.
Proof. unfold verify_referenced_tables. rewrite map_result_units. apply Forall_iff. intros t. apply verify_table_Ok. Qed.

(** The configuration that is used: the first variable that is set. *)
Definition configured (c : VerificationConfig) : Prop :=
  ∃ raw, environment (env_var (vc_source c)) = Some raw ∧ utf8_valid raw = true ∧ vc_url c = Text.trim raw ∧ vc_url c ≠ []
    ∧ parse_config (vc_url c) = Ok tt ∧ (vc_source c = DatabaseUrl → environment (env_var BabarDatabaseUrl) = None).

Lemma discover_Ok_None : discover = Ok None ↔ environment (env_var BabarDatabaseUrl) = None ∧ environment (env_var DatabaseUrl) = None.
Proof.
  unfold discover. cbn [discover_from]. destruct (environment (env_var BabarDatabaseUrl)) as [raw|].
  { split; [|intros [[=] _]]. repeat case_match; try done. destruct (parse_config _); done. }
  destruct (environment (env_var DatabaseUrl)) as [raw|]; [|done].
  split; [|intros [_ [=]]]. repeat case_match; try done. destruct (parse_config _); done.
Qed.

Lemma discover_Ok_Some c : discover = Ok (Some c) ↔ configured c.
Proof.
  unfold discover, configured. cbn [discover_from]. destruct c as [source url]. cbn [vc_source vc_url].
  destruct (environment (env_var BabarDatabaseUrl)) as [raw|] eqn:E1; [|destruct (environment (env_var DatabaseUrl)) as [raw|] eqn:E2].
  3: { split; [done|]. intros (raw & Hraw & _). destruct source; congruence. }
  all: destruct (utf8_valid raw) eqn:Eu; cbn [negb]; [case_bool_decide as Et|].
  2, 5: destruct (parse_config (Text.trim raw)) as [[]|err] eqn:Ep; cbn; split.
  all: try (intros [= <- <-]; exists raw; rewrite ?E1, ?E2; by split_and!).
  all: try (intros (raw' & Hraw & Hu & -> & Hne & Hp & Hs); destruct source; rewrite ?E1, ?E2 in *; naive_solver congruence).
  all: split; [done|]; intros (raw' & Hraw & Hu & -> & Hne & Hp & Hs); destruct source; rewrite ?E1, ?E2 in *; naive_solver congruence.
Qed.

Lemma probed (sql : str) referenced params rows :
  verify_typed_statement_against_probe sql referenced params rows = Ok tt ↔
  discover = Ok None ∨ ∃ c, discover = Ok (Some c) ∧ live_connect (vc_url c) = Ok tt ∧ Forall table_matches referenced
    ∧ described_as sql params rows.
Proof.
  unfold verify_typed_statement_against_probe. rewrite result_bind_Ok. split.
  - intros ([c|] & Hd & H); [|by left]. right. exists c. apply result_bind_Ok in H as ([] & Hc & H).
    apply result_bind_Ok in H as ([] & Ht & (st & Hst & H)%result_bind_Ok).
    unfold probe_connect in Hc. rewrite map_err_Ok in Hc. rewrite verify_referenced_tables_Ok in Ht.
    split_and!; [done|done|done|]. apply verify_described_Ok. eauto.
  - intros [Hd|(c & Hd & Hc & Ht & (st & Hst & H)%verify_described_Ok)]; [by exists None|]. exists (Some c). split; [done|].
    unfold probe_connect. rewrite Hc. cbn. apply verify_referenced_tables_Ok in Ht. rewrite Ht. cbn. by rewrite Hst.
Qed.

(** C24: a typed statement passes verification exactly when neither variable is set, or the first
    one that is set holds a usable URL, the database can be reached, every referenced table exists
    there with a column for each referenced one, of the declared type and nullability, and the
    statement can be prepared and has the declared types of parameters and columns, in number and
    in order. *)
Theorem verification_decides (sql : str) referenced params rows :
  verify_typed_statement_against_probe sql referenced params rows = Ok tt ↔
  (environment (env_var BabarDatabaseUrl) = None ∧ environment (env_var DatabaseUrl) = None)
  ∨ ∃ c, configured c ∧ live_connect (vc_url c) = Ok tt ∧ Forall table_matches referenced ∧ described_as sql params rows.
Proof.
  rewrite probed, discover_Ok_None. by setoid_rewrite discover_Ok_Some.
Qed.

(** What [sql!] verifies: nothing when the type of one of its codecs cannot be told, else the
    parameters, by number. *)
Lemma expand_sql_verified input compiled c : expand_sql input = Some (Ok compiled) → configured c →
  ∀ types, verifiable_param_types (cs_codecs compiled) = Some types → described_as (cs_sql compiled) types None.
Proof.
  unfold expand_sql. destruct (compile_input input) as [[compiled'|err]|]; [|done|done].
  intros H Hc types Ht. destruct (verify_sql_input compiled') as [[]|err] eqn:E; cbn in H; [|done]. injection H as ->.
  unfold verify_sql_input in E. rewrite Ht in E. rewrite map_err_Ok in E. unfold verify_statement_against_probe in E.
  apply discover_Ok_Some in Hc. rewrite Hc in E. cbn in E. apply result_bind_Ok in E as ([] & _ & (st & Hst & E)%result_bind_Ok).
  apply verify_described_Ok. eauto.
Qed.
End verification.

(** ** An instance *)
Definition sample_columns : list TableColumnMetadata :=
  [mk_table_column "id" (mk_type_meta 23 "int4") NonNull; mk_table_column "name" (mk_type_meta 25 "text") Nullable].
#[export] Instance sample_live : Live := {|
  live_connect _ := Ok tt;
  live_prepare sql :=
    if bool_decide (sql = "SELECT users.name FROM users WHERE users.id = $1")
    then Ok (mk_statement_meta [mk_type_meta 23 "int4"] [mk_column_meta "name" (mk_type_meta 25 "text")])
    else Err (mk_pg_error "db error" (Some (mk_db_error "syntax error" None None (Some (PosOriginal 1)) "42601")));
  live_regclass name := Ok (if bool_decide (name = "users") then Some 16384 else None);
  live_attributes _ := Ok sample_columns;
|}.
Definition sample_environment (name : str) : option bytes :=
  if bool_decide (name = "DATABASE_URL") then Some (" postgres://localhost/app " : str) else None.
Definition any_config (_ : str) : result str unit := Ok tt.

Definition sample_referenced (nullability : Nullability) : list ReferencedTable :=
  [mk_referenced_table "users" [mk_referenced_column "id" (declared_type_for_sql_type TInt4) NonNull;
    mk_referenced_column "name" (declared_type_for_sql_type TText) nullability]].
Definition sample_check (nullability : Nullability) : result VerificationError unit :=
  verify_typed_statement_against_probe sample_environment any_config "SELECT users.name FROM users WHERE users.id = $1"
    (sample_referenced nullability) [declared_type_for_sql_type TInt4] (Some [declared_type_for_sql_type TText]).

Example sample_verified : sample_check Nullable = Ok tt.
Proof. vm_compute. reflexivity. Qed.
Example sample_refused :
  map_err verification_display (sample_check NonNull)
  = Err ("compile-time SQL verification schema mismatch: referenced authored schema column `users.name` has live nullability nullable but the authored schema expects NOT NULL" : str).
Proof. vm_compute. reflexivity. Qed.
Example sample_declared :
  parse_declared_types (XTuple [XPath ["int4"%s]; XParen (XCall (XPath ["nullable"%s]) [XPath ["babar"%s; "text"%s]]); XTuple [XPath ["bytea"%s]]])
  = Ok [mk_declared 23 "int4"; mk_declared 25 "nullable(text)"; mk_declared 17 "bytea"].
Proof. vm_compute. reflexivity. Qed.
