(* ===== verification/SchemaDef.v ===== *)
(** * Run-time schema symbols

    [crates/core/src/schema.rs]: the constants that [schema!] generates, or that are written by
    hand, and the columns a query refers to through a binding.  The type parameter that ties a
    column to its table is a phantom there and a parameter of the records here; a [const fn]
    accessor is the projection of its field. *)
From S2P Require Import Prelude Text Types.

Local Open Scope Z_scope.
Local Open Scope str_scope.

(** ** Types *)
Record SqlType := mk_sql_type { metadata : Type_ }.
#[export] Instance SqlType_eq_dec : EqDecision SqlType.
Proof. solve_decision. Defined.

Definition SqlType_fixed (oid : Oid) (name : str) : SqlType := mk_sql_type (Type_fixed oid name).
Definition SqlType_extension (name extension : str) : SqlType := mk_sql_type (Type_extension name extension).
Definition SqlType_unresolved (name : str) : SqlType := mk_sql_type (Type_unresolved name).
Definition sql_oid (t : SqlType) : Oid := ty_oid (metadata t).
Definition sql_name (t : SqlType) : str := ty_name (metadata t).
Definition sql_extension_name (t : SqlType) : option str := ty_extension (metadata t).
Definition sql_is_resolved (t : SqlType) : bool := is_resolved (metadata t).

Definition SQL_BOOL : SqlType := SqlType_fixed BOOL "bool".
Definition SQL_BYTEA : SqlType := SqlType_fixed BYTEA "bytea".
Definition SQL_VARCHAR : SqlType := SqlType_fixed VARCHAR "varchar".
Definition SQL_TEXT : SqlType := SqlType_fixed TEXT "text".
Definition SQL_INT2 : SqlType := SqlType_fixed INT2 "int2".
Definition SQL_INT4 : SqlType := SqlType_fixed INT4 "int4".
Definition SQL_INT8 : SqlType := SqlType_fixed INT8 "int8".
Definition SQL_FLOAT4 : SqlType := SqlType_fixed FLOAT4 "float4".
Definition SQL_FLOAT8 : SqlType := SqlType_fixed FLOAT8 "float8".
Definition SQL_UUID : SqlType := SqlType_fixed UUID "uuid".
Definition SQL_DATE : SqlType := SqlType_fixed DATE "date".
Definition SQL_TIME : SqlType := SqlType_fixed TIME "time".
Definition SQL_TIMESTAMP : SqlType := SqlType_fixed TIMESTAMP "timestamp".
Definition SQL_TIMESTAMPTZ : SqlType := SqlType_fixed TIMESTAMPTZ "timestamptz".
Definition SQL_JSON : SqlType := SqlType_fixed JSON "json".
Definition SQL_JSONB : SqlType := SqlType_fixed JSONB "jsonb".
Definition SQL_NUMERIC : SqlType := SqlType_fixed NUMERIC "numeric".
Definition SQL_GEOMETRY : SqlType := SqlType_extension "geometry" "postgis".

(** ** Nullability and semantics *)
Inductive Nullability := NonNull | Nullable.
#[export] Instance Nullability_eq_dec : EqDecision Nullability.
Proof. solve_decision. Defined.
Definition from_nullable (b : bool) : Nullability := if b then Nullable else NonNull.
Definition is_nullable (n : Nullability) : bool := match n with NonNull => false | Nullable => true end.
Definition widen (a b : Nullability) : Nullability := if is_nullable a || is_nullable b then Nullable else NonNull.

Inductive ColumnSemantics := Ordinary | PrimaryKey.
#[export] Instance ColumnSemantics_eq_dec : EqDecision ColumnSemantics.
Proof. solve_decision. Defined.
Definition is_primary_key (s : ColumnSemantics) : bool := match s with PrimaryKey => true | Ordinary => false end.

(** ** Tables and columns *)
Record TableRef (T : Type) := mk_table_ref { tr_schema : option str; tr_name : str }.
Arguments mk_table_ref {T}. Arguments tr_schema {T}. Arguments tr_name {T}.
Record Column (T : Type) := mk_column_with_semantics {
  c_table : TableRef T; c_name : str; c_sql_type : SqlType; c_nullability : Nullability; c_semantics : ColumnSemantics;
}.
Arguments mk_column_with_semantics {T}. Arguments c_table {T}. Arguments c_name {T}. Arguments c_sql_type {T}.
Arguments c_nullability {T}. Arguments c_semantics {T}.
Record Binding (T : Type) := mk_binding { b_table : TableRef T; b_name : str; b_nullability : Nullability }.
Arguments mk_binding {T}. Arguments b_table {T}. Arguments b_name {T}. Arguments b_nullability {T}.
Record QualifiedColumn (T : Type) := mk_qualified { q_binding : Binding T; q_column : Column T }.
Arguments mk_qualified {T}. Arguments q_binding {T}. Arguments q_column {T}.

Section symbols.
Context {T : Type}.
Implicit Types (t : TableRef T) (c : Column T) (b : Binding T) (q : QualifiedColumn T).

Definition bind_table t : Binding T := mk_binding t (tr_name t) NonNull.
Definition alias t (binding_name : str) : Binding T := mk_binding t binding_name NonNull.
Definition table_ref_display t : str := match tr_schema t with Some schema => schema ++ "." ++ tr_name t | None => tr_name t end.

Definition Column_new t (name : str) (ty : SqlType) (n : Nullability) : Column T := mk_column_with_semantics t name ty n Ordinary.
Definition column_is_primary_key c : bool := is_primary_key (c_semantics c).
Definition column_display c : str := table_ref_display (c_table c) ++ "." ++ c_name c.

Definition is_alias b : bool := negb (bool_decide (b_name b = tr_name (b_table b))).
Definition with_nullability b (n : Nullability) : Binding T := mk_binding (b_table b) (b_name b) n.
Definition nullable_binding b : Binding T := with_nullability b Nullable.
Definition bound_column b c : QualifiedColumn T := mk_qualified b c.
Definition qualified c : QualifiedColumn T := bound_column (bind_table (c_table c)) c.
Definition qualified_as c (binding_name : str) : QualifiedColumn T := bound_column (alias (c_table c) binding_name) c.

Definition q_table q : TableRef T := c_table (q_column q).
Definition q_binding_name q : str := b_name (q_binding q).
Definition q_column_name q : str := c_name (q_column q).
Definition q_sql_type q : SqlType := c_sql_type (q_column q).
Definition base_nullability q : Nullability := c_nullability (q_column q).
Definition q_nullability q : Nullability := widen (c_nullability (q_column q)) (b_nullability (q_binding q)).
Definition qualified_display q : str := b_name (q_binding q) ++ "." ++ c_name (q_column q).
End symbols.

(** ** Definitions *)
Record ColumnDef := mk_column_def { cd_name : str; cd_sql_type : SqlType; cd_nullability : Nullability; cd_semantics : ColumnSemantics }.
Definition ColumnDef_new (name : str) (t : SqlType) (n : Nullability) : ColumnDef := mk_column_def name t n Ordinary.
Definition materialize {T} (d : ColumnDef) (t : TableRef T) : Column T :=
  mk_column_with_semantics t (cd_name d) (cd_sql_type d) (cd_nullability d) (cd_semantics d).

Record TableDef := mk_table_def { td_schema : option str; td_name : str; td_columns : list ColumnDef }.
Definition table_ref (T : Type) (d : TableDef) : TableRef T := mk_table_ref (td_schema d) (td_name d).

Record SchemaDef := mk_schema_def { sd_tables : list TableDef }.
Definition find_table (s : SchemaDef) (schema : option str) (table_name : str) : option TableDef :=
  snd <$> list_find (λ t, td_schema t = schema ∧ td_name t = table_name) (sd_tables s).

(** ** Laws *)
Lemma widen_nullable a b : is_nullable (widen a b) = is_nullable a || is_nullable b.
Proof. by destruct a, b. Qed.

Example users_id_display :
  let users := @mk_table_ref unit (Some ("public" : str)) "users" in
  let id := Column_new users "id" SQL_INT4 NonNull in
  (column_display id, qualified_display (qualified id), qualified_display (qualified_as id "u"),
   q_nullability (bound_column (nullable_binding (alias users "u")) id))
  = ("public.users.id" : str, "users.id" : str, "u.id" : str, Nullable).
Proof. vm_compute. reflexivity. Qed.
