(* ===== verification/SchemaDecl.v ===== *)
(** * Authored schemas: [schema!] and the catalog of a statement

    [crates/macros/src/schema_decl.rs] and the schema part of
    [crates/macros/src/typed_sql/public_schema.rs].  One declaration is compiled twice: [schema!]
    makes run-time definitions ([SchemaDef.v]) and, inside its [query!] and [command!] wrappers,
    a schema block that is compiled to the catalog of [Resolver.v] for every statement.
    [schema_views_agree] says that the two agree.

    An identifier is its text, with [r#] when it is raw; the input is what syn's parser gives.
    Spans are left out and an error is its message.  Generated code is represented by what it
    defines: the table definitions, the names of the items of each module and the modules. *)
From S2P Require Import Prelude Text BTree Types SchemaDef SqlIr Resolver SqlSource SqlMacro Verify.

Local Open Scope Z_scope.
Local Open Scope str_scope.

(** ** Input *)
Definition ident_name (ident : str) : str := default ident (Text.strip_prefix "r#" ident).

(** A column type as it is written: a name, or a marker around one; [trailing] when more tokens
    follow inside the parentheses. *)
Inductive TypeSyntax := TyName (ident : str) | TyMarker (ident : str) (inner : TypeSyntax) (trailing : bool).

Record SchemaColumnTypeInput := mk_type_input { ti_sql_type : str; ti_nullability : SchemaDef.Nullability; ti_semantics : ColumnSemantics }.

Fixpoint parse_column_type (s : TypeSyntax) : result str SchemaColumnTypeInput :=
  match s with
  | TyName ident => Ok (mk_type_input ident SchemaDef.NonNull Ordinary)
  | TyMarker ident inner trailing =>
    inner ← parse_column_type inner;
    if trailing : bool then Err ("expected exactly one schema type inside marker(...)" : str)
    else
      let name := ident_name ident in
      if bool_decide (name = "nullable") then
        match ti_nullability inner with
        | SchemaDef.Nullable => Err ("duplicate nullable(...) marker" : str)
        | SchemaDef.NonNull => Ok (mk_type_input (ti_sql_type inner) SchemaDef.Nullable (ti_semantics inner))
        end
      else if bool_decide (name = "primary_key") || bool_decide (name = "pk") then
        match ti_semantics inner with
        | PrimaryKey => Err ("duplicate primary_key(...) marker" : str)
        | Ordinary => Ok (mk_type_input (ti_sql_type inner) (ti_nullability inner) PrimaryKey)
        end
      else Err ("unsupported authored schema field marker `" ++ name ++ "`; supported markers are nullable(...), primary_key(...), and pk(...)")
  end.

(** [impl Parse for SchemaColumnTypeInput] *)
Definition parse_type_input (s : TypeSyntax) : result str SchemaColumnTypeInput :=
  parsed ← parse_column_type s;
  match ti_semantics parsed, ti_nullability parsed with
  | PrimaryKey, SchemaDef.Nullable => Err ("primary_key(...) columns cannot be nullable" : str)
  | _, _ => Ok parsed
  end.

Record SchemaColumnInput := mk_column_input { ci_name : str; ci_type : SchemaColumnTypeInput }.
Record SchemaTableInput := mk_table_input { ta_schema : option str; ta_name : str; ta_columns : list SchemaColumnInput }.

Definition qualified_name (schema : option str) (name : str) : str :=
  match schema with Some schema => ident_name schema ++ "." ++ ident_name name | None => ident_name name end.

(** ** What [schema!] generates *)
Definition supported_types : str := "supported types are bool, bytea, varchar, text, int2, int4, int8, float4, float8, uuid, date, time, timestamp, timestamptz, json, jsonb, and numeric".

Definition authored_types : list (str * SchemaDef.SqlType) :=
  [("bool" : str, SQL_BOOL); ("bytea" : str, SQL_BYTEA); ("varchar" : str, SQL_VARCHAR); ("text" : str, SQL_TEXT);
   ("int2" : str, SQL_INT2); ("int4" : str, SQL_INT4); ("int8" : str, SQL_INT8); ("float4" : str, SQL_FLOAT4);
   ("float8" : str, SQL_FLOAT8); ("uuid" : str, SQL_UUID); ("date" : str, SQL_DATE); ("time" : str, SQL_TIME);
   ("timestamp" : str, SQL_TIMESTAMP); ("timestamptz" : str, SQL_TIMESTAMPTZ); ("json" : str, SQL_JSON);
   ("jsonb" : str, SQL_JSONB); ("numeric" : str, SQL_NUMERIC)].

Definition sql_type_tokens (ident : str) : result str SchemaDef.SqlType :=
  ok_or (binding_of (ident_name ident) authored_types) ("unsupported authored schema type `" ++ ident_name ident ++ "`; " ++ supported_types).

Definition expand_definition (c : SchemaColumnInput) : result str ColumnDef :=
  t ← sql_type_tokens (ti_sql_type (ci_type c));
  Ok (mk_column_def (ident_name (ci_name c)) t (ti_nullability (ci_type c)) (ti_semantics (ci_type c))).

(** The loop over the columns of a table; [seen] are the names so far. *)
Fixpoint expand_columns (table : str) (seen : list str) (cs : list SchemaColumnInput) : result str (list ColumnDef) :=
  match cs with
  | [] => Ok []
  | c :: cs =>
    let name := ident_name (ci_name c) in
    if bool_decide (name ∈ seen) then Err ("duplicate column `" ++ name ++ "` in authored schema table `" ++ table ++ "`")
    else d ← expand_definition c; ds ← expand_columns table (name :: seen) cs; Ok (d :: ds)
  end.

Definition expand_table (t : SchemaTableInput) : result str TableDef :=
  ds ← expand_columns (ident_name (ta_name t)) [] (ta_columns t);
  Ok (mk_table_def (ident_name <$> ta_schema t) (ident_name (ta_name t)) ds).

(** The values defined by the module of a table, apart from [DEF]: the table, and for every
    column a constant and a function. *)
Definition table_items (t : SchemaTableInput) : list str :=
  ["TABLE" : str] ++ concat (map (λ c, [to_ascii_uppercase (ident_name (ci_name c)); ident_name (ci_name c)]) (ta_columns t)) ++ ["COLUMNS" : str; "DEF" : str].

(** The schema block of the wrappers; a type is written with [nullable] or on its own. *)
Inductive BridgeType := Base (ident : str) | BridgeNullable (inner : str).
Record BridgeColumn := mk_bridge_column { bc_name : str; bc_type : BridgeType }.
Record BridgeTable := mk_bridge_table { bt_schema : option str; bt_name : str; bt_columns : list BridgeColumn }.

Definition typed_query_tokens (t : SchemaColumnTypeInput) : BridgeType :=
  match ti_nullability t with SchemaDef.NonNull => Base (ti_sql_type t) | SchemaDef.Nullable => BridgeNullable (ti_sql_type t) end.
Definition expand_typed_query_bridge (t : SchemaTableInput) : BridgeTable :=
  mk_bridge_table (ta_schema t) (ta_name t) (map (λ c, mk_bridge_column (ci_name c) (typed_query_tokens (ci_type c))) (ta_columns t)).

Record SchemaModule := mk_schema_module {
  mod_tables : list TableDef;
  mod_bridge : list BridgeTable;
  (** the module of each SQL schema: its tables, each a table name and the index of its module *)
  mod_schemas : list (str * list (str * nat));
  (** the tables that are also reached at the top *)
  mod_top : list (str * nat);
}.

(** The loop of [compile_schema_module]; [index] numbers the tables. *)
Record ModuleState := mk_module_state {
  ms_seen : list str; ms_tables : list TableDef; ms_bridge : list BridgeTable;
  ms_schemas : list (str * list (str * nat)); ms_reexports : list (str * nat);
}.

Definition compile_table (index : nat) (t : SchemaTableInput) (s : ModuleState) : result str ModuleState :=
  let name := qualified_name (ta_schema t) (ta_name t) in
  if bool_decide (name ∈ ms_seen s) then Err ("duplicate table `" ++ name ++ "` in authored schema module")
  else
    let symbol := ident_name (ta_name t) in
    let schemas :=
      match ta_schema t with
      | Some schema => bt_insert (ident_name schema) (default [] (bt_get (ident_name schema) (ms_schemas s)) ++ [(symbol, index)]) (ms_schemas s)
      | None => ms_schemas s
      end in
    def ← expand_table t;
    Ok (mk_module_state (name :: ms_seen s) (ms_tables s ++ [def]) (ms_bridge s ++ [expand_typed_query_bridge t])
          schemas (ms_reexports s ++ [(symbol, index)])).

Fixpoint compile_tables (index : nat) (ts : list SchemaTableInput) (s : ModuleState) : result str ModuleState :=
  match ts with
  | [] => Ok s
  | t :: ts => s ← compile_table index t s; compile_tables (S index) ts s
  end.

Definition top_level (reexports : list (str * nat)) (schemas : list (str * list (str * nat))) : list (str * nat) :=
  filter (λ x, length (filter (λ y, y.1 = x.1) reexports) = 1%nat ∧ x.1 ∉ schemas.*1) reexports.

Definition compile_schema_module (ts : list SchemaTableInput) : result str SchemaModule :=
  s ← compile_tables 0 ts (mk_module_state [] [] [] [] []);
  Ok (mk_schema_module (ms_tables s) (ms_bridge s) (ms_schemas s) (top_level (ms_reexports s) (ms_schemas s))).

Definition schema_const (m : SchemaModule) : SchemaDef := mk_schema_def (mod_tables m).

(** ** The catalog of a statement *)
Definition schema_types : list (str * Resolver.SqlType) :=
  [("bool" : str, TBool); ("bytea" : str, TBytea); ("varchar" : str, TVarchar); ("text" : str, TText);
   ("int2" : str, TInt2); ("int4" : str, TInt4); ("int8" : str, TInt8); ("float4" : str, TFloat4);
   ("float8" : str, TFloat8); ("uuid" : str, TUuid); ("date" : str, TDate); ("time" : str, TTime);
   ("timestamp" : str, TTimestamp); ("timestamptz" : str, TTimestamptz); ("json" : str, TJson);
   ("jsonb" : str, TJsonb); ("numeric" : str, TNumeric)].

Definition resolve_sql_type (ident : str) : result str Resolver.SqlType :=
  ok_or (binding_of (ident_name ident) schema_types) ("unsupported schema type `" ++ ident_name ident ++ "`; " ++ supported_types).

Definition bridge_resolve (t : BridgeType) : result str (Resolver.SqlType * Resolver.Nullability) :=
  match t with
  | Base name => t ← resolve_sql_type name; Ok (t, Resolver.NonNull)
  | BridgeNullable inner => t ← resolve_sql_type inner; Ok (t, Resolver.Nullable)
  end.

Definition into_schema_column (c : BridgeColumn) : result str SchemaColumn :=
  t ← bridge_resolve (bc_type c); Ok (mk_column (ident_name (bc_name c)) t.1 t.2).

Fixpoint into_columns (table : str) (seen : list str) (cs : list BridgeColumn) : result str (list SchemaColumn) :=
  match cs with
  | [] => Ok []
  | c :: cs =>
    let name := ident_name (bc_name c) in
    if bool_decide (name ∈ seen) then Err ("duplicate column `" ++ name ++ "` in schema table `" ++ table ++ "`")
    else d ← into_schema_column c; ds ← into_columns table (name :: seen) cs; Ok (d :: ds)
  end.

Definition into_table (t : BridgeTable) : result str SchemaTable :=
  cs ← into_columns (qualified_name (bt_schema t) (bt_name t)) [] (bt_columns t);
  map_err TypedSqlError_display (SchemaTable_new (ident_name <$> bt_schema t) (ident_name (bt_name t)) cs).

Fixpoint into_tables (seen : list str) (ts : list BridgeTable) : result str (list SchemaTable) :=
  match ts with
  | [] => Ok []
  | t :: ts =>
    let name := qualified_name (bt_schema t) (bt_name t) in
    if bool_decide (name ∈ seen) then Err ("duplicate table `" ++ name ++ "` in schema block")
    else st ← into_table t; sts ← into_tables (name :: seen) ts; Ok (st :: sts)
  end.

Definition into_catalog (ts : list BridgeTable) : result str SchemaCatalog :=
  tables ← into_tables [] ts;
  map_err TypedSqlError_display (SchemaCatalog_new tables).
