(* ===== verification/SchemaDeclFacts.v ===== *)
(** * Authored schemas: the two views agree

    Facts on [SchemaDecl.v]: a declaration that [schema!] accepts gives a catalog for every
    statement, and the catalog and the run-time definitions describe the same tables. *)
From S2P Require Import Prelude Text BTree Types SchemaDef SqlIr Resolver ResolverFacts SqlSource SqlMacro Verify SchemaDecl.

Local Open Scope Z_scope.
Local Open Scope str_scope.
Local Arguments ident_name : simpl never.

(** ** Agreement *)
Definition same_nullability (a : SchemaDef.Nullability) (b : Resolver.Nullability) : Prop :=
  match a, b with SchemaDef.NonNull, Resolver.NonNull | SchemaDef.Nullable, Resolver.Nullable => True | _, _ => False end.

(** The type the compiler checks against the database and with is the run-time type. *)
Definition same_type (a : SchemaDef.SqlType) (b : Resolver.SqlType) : Prop :=
  sql_oid a = dt_oid (declared_type_for_sql_type b) ∧ sql_name a = type_name b ∧ sql_is_resolved a = true.

Definition column_agrees (d : ColumnDef) (c : SchemaColumn) : Prop :=
  cd_name d = col_name c ∧ same_type (cd_sql_type d) (col_type c) ∧ same_nullability (cd_nullability d) (col_nullability c).

Definition table_agrees (d : TableDef) (t : SchemaTable) : Prop :=
  td_schema d = table_schema t ∧ td_name d = tbl_name t ∧ Forall2 column_agrees (td_columns d) (columns t)
  ∧ ∀ name i, columns_by_name t !! name = Some i ↔ ∃ c, columns t !! i = Some c ∧ col_name c = name.

(** ** Indexing succeeds on distinct names *)
Lemma index_columns_total name k cols m : NoDup (map col_name cols) → (∀ c, c ∈ cols → m !! col_name c = None) →
  ∃ m', index_columns name k cols m = Ok m'
    ∧ ∀ n i, m' !! n = Some i ↔ m !! n = Some i ∨ ∃ j c, i = (k + j)%nat ∧ cols !! j = Some c ∧ col_name c = n.
Proof.
  revert k m. induction cols as [|c cols IH]; intros k m; cbn [map index_columns].
  { intros _ _. exists m. split; [done|]. intros n i. split; [by left|]. intros [?|(j & c & _ & [=] & _)]. done. }
  intros [Hc Hd]%NoDup_cons Hm. rewrite Hm by set_solver. destruct (IH (S k) (<[col_name c := k]> m) Hd) as (m' & Hm' & Hl).
  { intros c' Hc'. rewrite lookup_insert_ne; [apply Hm; set_solver|]. intros Heq. apply Hc. rewrite Heq. by apply list_elem_of_fmap_2. }
  exists m'. split; [done|]. intros n i. rewrite Hl, lookup_insert_Some. split.
  - intros [[[<- <-]|[_ ?]]|(j & c' & -> & Hj & Hn)]; [|by left|].
    + right. exists 0%nat, c. split_and!; [lia|done|done].
    + right. exists (S j), c'. split_and!; [lia|done|done].
  - intros [Hi|([|j] & c' & -> & Hj & Hn)].
    + left. right. split; [|done]. intros Heq. rewrite <- Heq, Hm in Hi by set_solver. done.
    + injection Hj as ->. left. left. split; [done|lia].
    + right. exists j, c'. split_and!; [lia|done|done].
Qed.

Lemma SchemaTable_new_total schema name cols : NoDup (map col_name cols) →
  ∃ t, SchemaTable_new schema name cols = Ok t ∧ table_schema t = schema ∧ tbl_name t = name ∧ columns t = cols
    ∧ ∀ n i, columns_by_name t !! n = Some i ↔ ∃ c, cols !! i = Some c ∧ col_name c = n.
Proof.
  intros Hd. destruct (index_columns_total name 0 cols ∅ Hd) as (m & Hm & Hl); [done|]. unfold SchemaTable_new. rewrite Hm. cbn.
  eexists. split; [done|]. split_and!; [done|done|done|]. cbn. intros n i. rewrite Hl, lookup_empty. naive_solver.
Qed.

Lemma index_tables_total k ts q u : NoDup (map qualified_name_parts ts) → (∀ t, t ∈ ts → q !! qualified_name_parts t = None) →
  ∃ r, index_tables k ts q u = Ok r
    ∧ ∀ parts i, r.1 !! parts = Some i ↔ q !! parts = Some i ∨ ∃ j t, i = (k + j)%nat ∧ ts !! j = Some t ∧ qualified_name_parts t = parts.
Proof.
  revert k q u. induction ts as [|t ts IH]; intros k q u; cbn [map index_tables].
  { intros _ _. eexists. split; [done|]. intros n i. split; [by left|]. intros [?|(j & c & _ & [=] & _)]. done. }
  intros [Hc Hd]%NoDup_cons Hm. rewrite Hm by set_solver.
  edestruct (IH (S k) (<[qualified_name_parts t := k]> q)) as (m' & Hm' & Hl); [done| |].
  { intros c' Hc'. rewrite lookup_insert_ne; [apply Hm; set_solver|]. intros Heq. apply Hc. rewrite Heq. by apply list_elem_of_fmap_2. }
  exists m'. split; [exact Hm'|]. intros n i. rewrite Hl, lookup_insert_Some. split.
  - intros [[[<- <-]|[_ ?]]|(j & c' & -> & Hj & Hn)]; [|by left|].
    + right. exists 0%nat, t. split_and!; [lia|done|done].
    + right. exists (S j), c'. split_and!; [lia|done|done].
  - intros [Hi|([|j] & c' & -> & Hj & Hn)].
    + left. right. split; [|done]. intros Heq. rewrite <- Heq, Hm in Hi by set_solver. done.
    + injection Hj as ->. left. left. split; [done|lia].
    + right. exists j, c'. split_and!; [lia|done|done].
Qed.

Lemma SchemaCatalog_new_total ts : NoDup (map qualified_name_parts ts) →
  ∃ c, SchemaCatalog_new ts = Ok c ∧ tables c = ts
    ∧ ∀ parts i, by_qualified_name c !! parts = Some i ↔ ∃ t, ts !! i = Some t ∧ qualified_name_parts t = parts.
Proof.
  intros Hd. destruct (index_tables_total 0 ts ∅ ∅ Hd) as (m & Hm & Hl); [done|]. unfold SchemaCatalog_new. rewrite Hm. cbn.
  eexists. split; [done|]. split; [done|]. cbn. intros n i. rewrite Hl, lookup_empty. naive_solver.
Qed.

(** ** Columns *)
Lemma binding_of_related {A B} (R : A → B → Prop) name l k : Forall2 (λ x y, x.1 = y.1 ∧ R x.2 y.2) l k →
  match binding_of name l, binding_of name k with Some a, Some b => R a b | None, None => True | _, _ => False end.
Proof.
  induction 1 as [|[n a] [n' b] l k [Hn HR] H IH]; [done|]. cbn in *. subst n'. by case_bool_decide.
Qed.

Lemma types_agree ident : match sql_type_tokens ident, resolve_sql_type ident with
  | Ok a, Ok b => same_type a b | Err _, Err _ => True | _, _ => False end.
Proof.
  assert (Forall2 (λ x y, x.1 = y.1 ∧ same_type x.2 y.2) authored_types schema_types) as H.
  { unfold authored_types, schema_types. repeat (constructor; [by vm_compute|]). constructor. }
  unfold sql_type_tokens, resolve_sql_type. pose proof (binding_of_related _ (ident_name ident) _ _ H) as Hb.
  by destruct (binding_of _ authored_types), (binding_of _ schema_types).
Qed.

Definition bridge_column (c : SchemaColumnInput) : BridgeColumn := mk_bridge_column (ci_name c) (typed_query_tokens (ci_type c)).
Definition column_name (c : SchemaColumnInput) : str := ident_name (ci_name c).
Definition input_parts (t : SchemaTableInput) : list str :=
  match ta_schema t with Some schema => [ident_name schema; ident_name (ta_name t)] | None => [ident_name (ta_name t)] end.
Definition table_name (t : SchemaTableInput) : str := qualified_name (ta_schema t) (ta_name t).

Lemma column_views c d : expand_definition c = Ok d → ∃ sc, into_schema_column (bridge_column c) = Ok sc ∧ column_agrees d sc
  ∧ col_name sc = column_name c.
Proof.
  unfold expand_definition, into_schema_column, bridge_column, typed_query_tokens. intros (t & Ht & [= <-])%result_bind_Ok.
  pose proof (types_agree (ti_sql_type (ci_type c))) as Hty. rewrite Ht in Hty.
  destruct (ti_nullability (ci_type c)) eqn:En; cbn [bc_type bridge_resolve bc_name];
    destruct (resolve_sql_type (ti_sql_type (ci_type c))) as [u|]; try done; cbn.
  all: eexists; split; [done|]; split; [|done]; split; [done|]; split; [done|]; cbn; rewrite ?En; done.
Qed.

Lemma expand_columns_Ok table seen cs ds : expand_columns table seen cs = Ok ds →
  Forall2 (λ c d, expand_definition c = Ok d) cs ds ∧ NoDup (map column_name cs) ∧ ∀ c, c ∈ cs → column_name c ∉ seen.
Proof.
  revert seen ds. induction cs as [|c cs IH]; intros seen ds; cbn [expand_columns].
  { intros [= <-]. split; [constructor|]. split; [constructor|set_solver]. }
  case_bool_decide as Hs; [done|]. intros (d & Hd & (ds' & Hds & [= <-])%result_bind_Ok)%result_bind_Ok.
  destruct (IH _ _ Hds) as (H1 & H2 & H3). split; [by constructor|]. split.
  - cbn. constructor; [|done]. intros (c' & Hn & Hc')%list_elem_of_fmap. apply (H3 c' Hc'). rewrite <- Hn. apply elem_of_cons. by left.
  - intros c' [->|Hc']%elem_of_cons; [done|]. specialize (H3 c' Hc'). set_solver.
Qed.

Lemma into_columns_views table seen cs ds : Forall2 (λ c d, expand_definition c = Ok d) cs ds →
  NoDup (map column_name cs) → (∀ c, c ∈ cs → column_name c ∉ seen) →
  ∃ scs, into_columns table seen (map bridge_column cs) = Ok scs ∧ Forall2 column_agrees ds scs ∧ map col_name scs = map column_name cs.
Proof.
  intros H. revert seen. induction H as [|c d cs ds Hd H IH]; intros seen; cbn [map].
  { intros _ _. exists []. split; [done|]. split; [constructor|done]. }
  intros [Hc Hnd]%NoDup_cons Hseen. destruct (column_views c d Hd) as (sc & Hsc & Hag & Hn).
  destruct (IH (column_name c :: seen)) as (scs & Hscs & Hags & Hns); [done| |].
  { intros c' Hc'. apply not_elem_of_cons. split; [|apply Hseen; set_solver]. intros Heq. apply Hc. rewrite <- Heq. by apply list_elem_of_fmap_2. }
  exists (sc :: scs). cbn [into_columns]. change (ident_name (bc_name (bridge_column c))) with (column_name c). rewrite bool_decide_eq_false_2 by (apply Hseen; set_solver).
  rewrite Hsc. cbn [mbind result_bind]. rewrite Hscs. cbn [mbind result_bind]. split; [done|]. split; [by constructor|]. cbn. by rewrite Hn, Hns.
Qed.

(** ** Tables *)
Lemma table_views t d : expand_table t = Ok d → ∃ st, into_table (expand_typed_query_bridge t) = Ok st ∧ table_agrees d st
  ∧ qualified_name_parts st = input_parts t.
Proof.
  unfold expand_table, into_table. intros (ds & Hds & [= <-])%result_bind_Ok.
  apply expand_columns_Ok in Hds as (Hds & Hnd & Hseen).
  destruct (into_columns_views (qualified_name (ta_schema t) (ta_name t)) [] _ _ Hds Hnd Hseen) as (scs & Hscs & Hag & Hn).
  destruct (SchemaTable_new_total (ident_name <$> ta_schema t) (ident_name (ta_name t)) scs) as (st & Hst & Hs & Hname & Hcols & Hix).
  { by rewrite Hn. }
  exists st. cbn [expand_typed_query_bridge bt_schema bt_name bt_columns]. fold bridge_column. rewrite Hscs. cbn [mbind result_bind]. rewrite Hst. cbn [map_err].
  split; [done|]. split.
  - split_and!; [done|done|by rewrite Hcols|]. intros n i. by rewrite Hcols, Hix.
  - unfold qualified_name_parts. rewrite Hs, Hname. unfold input_parts. by destruct (ta_schema t).
Qed.

Lemma compile_tables_Ok index ts s s' : compile_tables index ts s = Ok s' → ∃ ds,
  ms_tables s' = ms_tables s ++ ds ∧ ms_bridge s' = ms_bridge s ++ map expand_typed_query_bridge ts
  ∧ Forall2 (λ t d, expand_table t = Ok d) ts ds ∧ NoDup (map table_name ts) ∧ ∀ t, t ∈ ts → table_name t ∉ ms_seen s.
Proof.
  revert index s. induction ts as [|t ts IH]; intros index s; cbn [compile_tables].
  { intros [= <-]. exists []. rewrite !app_nil_r. split_and!; [done|done|constructor|constructor|set_solver]. }
  intros (s1 & H1 & H)%result_bind_Ok. destruct (IH _ _ H) as (ds & Ht & Hb & Hds & Hnd & Hseen).
  unfold compile_table in H1. fold (table_name t) in H1. case_bool_decide as Hs; [done|].
  apply result_bind_Ok in H1 as (d & Hd & [= <-]). cbn in *. exists (d :: ds). rewrite Ht, Hb, <- !(assoc_L (++)).
  split_and!; [done|done|by constructor| |].
  - constructor; [|done]. intros (t' & Hn & Ht')%list_elem_of_fmap. apply (Hseen t' Ht'). rewrite <- Hn. apply elem_of_cons. by left.
  - intros t' [->|Ht']%elem_of_cons; [done|]. specialize (Hseen t' Ht'). set_solver.
Qed.

Lemma into_tables_views seen ts ds : Forall2 (λ t d, expand_table t = Ok d) ts ds →
  NoDup (map table_name ts) → (∀ t, t ∈ ts → table_name t ∉ seen) →
  ∃ sts, into_tables seen (map expand_typed_query_bridge ts) = Ok sts ∧ Forall2 table_agrees ds sts
    ∧ map qualified_name_parts sts = map input_parts ts.
Proof.
  intros H. revert seen. induction H as [|t d ts ds Hd H IH]; intros seen; cbn [map].
  { intros _ _. exists []. split; [done|]. split; [constructor|done]. }
  intros [Ht Hnd]%NoDup_cons Hseen. destruct (table_views t d Hd) as (st & Hst & Hag & Hn).
  destruct (IH (table_name t :: seen)) as (sts & Hsts & Hags & Hns); [done| |].
  { intros t' Ht'. apply not_elem_of_cons. split; [|apply Hseen; set_solver]. intros Heq. apply Ht. rewrite <- Heq. by apply list_elem_of_fmap_2. }
  exists (st :: sts). cbn [into_tables]. change (qualified_name _ _) with (table_name t).
  rewrite bool_decide_eq_false_2 by (apply Hseen; set_solver). rewrite Hst. cbn [mbind result_bind]. rewrite Hsts. cbn [mbind result_bind].
  split; [done|]. split; [by constructor|]. cbn. by rewrite Hn, Hns.
Qed.

Lemma parts_distinct ts : NoDup (map table_name ts) →
  NoDup (map input_parts ts).
Proof.
  intros H. induction ts as [|t ts IH]; [constructor|]. cbn [map] in *. apply NoDup_cons in H as [Ht H].
  constructor; [|by apply IH]. intros (t' & Heq & Hin)%list_elem_of_fmap. apply Ht, list_elem_of_fmap. exists t'. split; [|done].
  unfold table_name, qualified_name. unfold input_parts in Heq. destruct (ta_schema t), (ta_schema t'); congruence.
Qed.

(** ** The two views of a module *)
Lemma list_find_unique {A} (P : A → Prop) `{∀ x, Decision (P x)} l i x : l !! i = Some x → P x →
  (∀ j y, l !! j = Some y → P y → j = i) → list_find P l = Some (i, x).
Proof.
  intros Hi Hx Hu. apply list_find_Some. split_and!; [done|done|]. intros j y Hj Hlt Hy. specialize (Hu j y Hj Hy). lia.
Qed.

Lemma find_by_parts ds cat schema name : Forall2 table_agrees ds (tables cat) →
  (∀ parts i, by_qualified_name cat !! parts = Some i ↔ ∃ t, tables cat !! i = Some t ∧ qualified_name_parts t = parts) →
  find_table (mk_schema_def ds) schema name
  = by_qualified_name cat !! match schema with Some s => [s; name] | None => [name] end ≫= λ i, ds !! i.
Proof.
  intros Hag Hq. unfold find_table. cbn [sd_tables]. set (parts := match schema with Some s => [s; name] | None => [name] end).
  assert (∀ d t, table_agrees d t → (td_schema d = schema ∧ td_name d = name) ↔ qualified_name_parts t = parts) as Hparts.
  { intros d t (Hs & Hn & _). unfold qualified_name_parts, parts. rewrite Hs, Hn. destruct (table_schema t), schema; naive_solver. }
  destruct (by_qualified_name cat !! parts) as [i|] eqn:Hi.
  - apply Hq in Hi as (t & Ht & Hp). destruct (Forall2_lookup_r _ _ _ _ _ Hag Ht) as (d & Hd & Hdt). cbn. rewrite Hd.
    rewrite (list_find_unique _ ds i d); [done|done|by apply (Hparts d t)|].
    intros j d' Hj Hd'. destruct (Forall2_lookup_l _ _ _ _ _ Hag Hj) as (t' & Ht' & Hag'). apply (Hparts d' t') in Hd'; [|done].
    assert (by_qualified_name cat !! parts = Some j) as Hj1 by (apply Hq; eauto).
    assert (by_qualified_name cat !! parts = Some i) as Hi1 by (apply Hq; eauto). congruence.
  - cbn. destruct (list_find _ ds) as [[i d]|] eqn:Hf; [|done]. exfalso. apply list_find_Some in Hf as (Hd & HP & _).
    destruct (Forall2_lookup_l _ _ _ _ _ Hag Hd) as (t & Ht & Hag'). apply (Hparts d t) in HP; [|done].
    assert (by_qualified_name cat !! parts = Some i) by (apply Hq; eauto). congruence.
Qed.

Lemma module_catalog ts m : compile_schema_module ts = Ok m →
  ∃ cat, into_catalog (mod_bridge m) = Ok cat
    ∧ Forall2 table_agrees (mod_tables m) (tables cat)
    ∧ (∀ schema name span,
        to_option (resolve_table cat [schema; name] span) ≫= (λ i, mod_tables m !! i) = find_table (schema_const m) (Some schema) name)
    ∧ (∀ name span d, find_table (schema_const m) None name = Some d →
        ∃ i, resolve_table cat [name] span = Ok i ∧ mod_tables m !! i = Some d).
Proof.
  unfold compile_schema_module. intros (s & Hs & [= <-])%result_bind_Ok.
  destruct (compile_tables_Ok _ _ _ _ Hs) as (ds & Ht & Hb & Hds & Hnd & Hseen). cbn in Ht, Hb. cbn [mod_tables mod_bridge schema_const].
  rewrite Ht, Hb. destruct (into_tables_views [] ts ds Hds Hnd) as (sts & Hsts & Hag & Hparts); [done|].
  destruct (SchemaCatalog_new_total sts) as (cat & Hcat & Htabs & Hq); [rewrite Hparts; by apply parts_distinct|].
  rewrite <- Htabs in Hag. exists cat. unfold into_catalog. rewrite Hsts. cbn [mbind result_bind]. rewrite Hcat.
  rewrite <- Htabs in Hq. split; [done|]. split; [done|]. split.
  - intros schema name span. change (schema_const _) with (mk_schema_def ds). rewrite (find_by_parts _ cat (Some schema) name Hag Hq). unfold resolve_table.
    by destruct (by_qualified_name cat !! [schema; name]).
  - intros name span d. change (schema_const _) with (mk_schema_def ds). rewrite (find_by_parts _ cat None name Hag Hq). unfold resolve_table. intros (i & Hi & Hd)%bind_Some.
    unfold TableId in *. rewrite Hi. eauto.
Qed.

(** C25: whenever [schema!] accepts a declaration, the schema block its wrappers pass to every
    statement is accepted too, and the catalog the statement is compiled against describes the
    same tables as the run-time constants: the same names, columns in the same order with the
    same names, types (with the OID that verification expects from the server) and nullability.
    A table named with its SQL schema is resolved to the definition [find_table] returns, or by
    neither; one declared without a schema is resolved by its name alone. *)
Theorem schema_views_agree ts m : compile_schema_module ts = Ok m →
  ∃ cat, into_catalog (mod_bridge m) = Ok cat
    ∧ Forall2 table_agrees (mod_tables m) (tables cat)
    ∧ (∀ schema name span,
        to_option (resolve_table cat [schema; name] span) ≫= (λ i, mod_tables m !! i) = find_table (schema_const m) (Some schema) name)
    ∧ (∀ name span d, find_table (schema_const m) None name = Some d →
        ∃ i, resolve_table cat [name] span = Ok i ∧ mod_tables m !! i = Some d).
Proof. apply module_catalog. Qed.

(** ** Examples *)
Definition sample_type (s : TypeSyntax) : SchemaColumnTypeInput := default (mk_type_input [] SchemaDef.NonNull Ordinary) (to_option (parse_type_input s)).
Definition sample_schema : list SchemaTableInput :=
  [mk_table_input (Some ("public" : str)) "users"
     [mk_column_input "id" (sample_type (TyMarker "primary_key" (TyName "int4") false));
      mk_column_input "deleted_at" (sample_type (TyMarker "nullable" (TyName "timestamptz") false))];
   mk_table_input None "r#type" [mk_column_input "name" (sample_type (TyName "text"))]].

Lemma schema_views_agree_witness :
  ∃ cat m, compile_schema_module sample_schema = Ok m ∧ into_catalog (mod_bridge m) = Ok cat
    ∧ resolve_table cat ["public" : str; "users" : str] (mk_span 0 0) = Ok 0%nat ∧ resolve_table cat ["type" : str] (mk_span 0 0) = Ok 1%nat.
Proof.
  destruct (compile_schema_module sample_schema) as [m|e] eqn:Hm; [|by vm_compute in Hm].
  destruct (schema_views_agree sample_schema m Hm) as (cat & Hcat & _ & Hf & Hn). exists cat, m. split; [done|]. split; [done|].
  vm_compute in Hm. injection Hm as <-. vm_compute in Hcat. injection Hcat as <-. split; vm_compute; reflexivity.
Defined.

(** The constants of a table and its columns share a name space: a column called [table] or
    written in capitals is defined twice in the generated module. *)
Definition only_column (name : str) : SchemaTableInput := mk_table_input None "t" [mk_column_input name (sample_type (TyName "int4"))].
Example column_named_table : table_items (only_column "table") = ["TABLE" : str; "TABLE" : str; "table" : str; "COLUMNS" : str; "DEF" : str].
Proof. vm_compute. reflexivity. Qed.
Example column_in_capitals : table_items (only_column "ID") = ["TABLE" : str; "ID" : str; "ID" : str; "COLUMNS" : str; "DEF" : str].
Proof. vm_compute. reflexivity. Qed.

(** A table without a schema whose name another table has, or whose name is that of a schema, is
    in the definitions but has no path. *)
Example table_without_path :
  (λ m, (mod_schemas m, mod_top m))
    <$> compile_schema_module [mk_table_input (Some ("public" : str)) "users" []; mk_table_input None "users" []; mk_table_input None "public" []]
  = Ok ([("public" : str, [("users" : str, 0%nat)])], []).
Proof. vm_compute. reflexivity. Qed.
