(* ===== verification/PublicInput.v ===== *)
(** * Typed SQL written as Rust tokens

    [crates/macros/src/typed_sql/public_input.rs].  [query!] and [command!] take their SQL as one
    string literal or as Rust tokens; tokens are written out as text, with the segment of the text
    each one became, from which an error's position is brought back to a token.

    Spans of [proc_macro2] are a parameter with the call site and [join].  A token stream is what
    the compiler's lexer gives: a literal comes with its value.  Punctuation is ASCII. *)
From S2P Require Import Prelude Bytes Text SqlIr SqlSource.

Local Open Scope Z_scope.
Local Open Scope str_scope.

(** ** Tokens *)
Inductive Delimiter := DParenthesis | DNone | DBrace | DBracket.
Inductive Lit := LitStr (value : str) | LitChar (value : Z) | LitInt (suffix : str) | LitFloat (suffix : str) | LitOther.

Inductive TokenTree (Span : Type) :=
| TGroup (delimiter : Delimiter) (stream : TokenStream Span) (open close whole : Span)
| TIdent (text : str) (span : Span)
| TLiteral (text : str) (lit : Lit) (span : Span)
| TPunct (ch : byte) (span : Span)
with TokenStream (Span : Type) := TNil | TCons (t : TokenTree Span) (rest : TokenStream Span).
Arguments TGroup {Span}. Arguments TIdent {Span}. Arguments TLiteral {Span}. Arguments TPunct {Span}.
Arguments TNil {Span}. Arguments TCons {Span}.

Inductive PieceKind := KWord | KOpenDelim | KCloseDelim | KSuffixMarker | KDot | KComma | KTightOperator | KOperator | KSemicolon.
#[export] Instance PieceKind_eq_dec : EqDecision PieceKind.
Proof. solve_decision. Defined.

Definition punct_kind (ch : byte) : PieceKind :=
  if byte_is ch 46 then KDot else if byte_is ch 44 then KComma else if byte_is ch 59 then KSemicolon else KOperator.

Definition needs_space (previous : option PieceKind) (next : PieceKind) : bool :=
  match previous with
  | None => false
  | Some previous =>
    negb (match next with KCloseDelim | KComma | KDot | KSuffixMarker => true | _ => false end
          || match previous with KOpenDelim | KDot => true | _ => false end)
    && negb (bool_decide (next = KTightOperator) || bool_decide (previous = KTightOperator))
  end.

Definition quote_byte (b : byte) : str := if byte_is b 39 then [b; b] else [b].
Definition render_sql_string (value : str) : str := "'" ++ concat (map quote_byte value) ++ "'".

(** The two characters of an operator. *)
Definition composite (current next : byte) : option str :=
  if byte_is current 62 && byte_is next 61 then Some (">=" : str)
  else if byte_is current 60 && byte_is next 61 then Some ("<=" : str)
  else if byte_is current 33 && byte_is next 61 then Some ("!=" : str)
  else if byte_is current 60 && byte_is next 62 then Some ("<>" : str)
  else if byte_is current 58 && byte_is next 58 then Some ("::" : str)
  else None.

Section input.
Context {Span : Type} (call_site : Span) (join : Span → Span → option Span).
Abbreviation Stream := (TokenStream Span).
Implicit Types (sp : Span).

(** [syn::Error] *)
Record SynError := mk_syn_error { sy_span : Span; sy_message : str }.

Definition span_for_tree (t : TokenTree Span) : Span :=
  match t with TGroup _ _ _ _ sp | TIdent _ sp | TLiteral _ _ sp | TPunct _ sp => sp end.

Definition public_to_u32 (value : Z) : result SynError Z :=
  if value <? 2 ^ 32 then Ok value else Err (mk_syn_error call_site "SQL input is too large").

Definition validate_numeric_literal (text suffix : str) sp : result SynError unit :=
  if negb (bool_decide (suffix = [])) then Err (mk_syn_error sp "typed_sql v1 token input only supports unsuffixed numeric literals")
  else if bool_decide (x5f ∈ text) then Err (mk_syn_error sp "typed_sql v1 token input does not support `_` separators in numeric literals")
  else Ok tt.

(** ** The text and its segments *)
Record SpanSegment := mk_segment { seg_sql : SourceSpan; seg_token : Span }.
Record SqlTextBuilder := mk_builder { tb_sql : str; tb_segments : list SpanSegment; tb_previous : option PieceKind }.
Definition builder_new : SqlTextBuilder := mk_builder [] [] None.

Definition push_piece (text : str) sp (kind : PieceKind) (b : SqlTextBuilder) : result SynError SqlTextBuilder :=
  let sql := if needs_space (tb_previous b) kind then tb_sql b ++ " " else tb_sql b in
  start ← public_to_u32 (len sql);
  stop ← public_to_u32 (len (sql ++ text));
  Ok (mk_builder (sql ++ text) (tb_segments b ++ [mk_segment (mk_span start stop) sp]) (Some kind)).

Definition push_literal (text : str) (lit : Lit) sp (b : SqlTextBuilder) : result SynError SqlTextBuilder :=
  match lit with
  | LitStr value => push_piece (render_sql_string value) sp KWord b
  | LitChar value => push_piece (render_sql_string (encode_char value)) sp KWord b
  | LitInt suffix | LitFloat suffix => _ ← validate_numeric_literal text suffix sp; push_piece text sp KWord b
  | LitOther => Err (mk_syn_error sp ("typed_sql v1 token input does not support Rust literal `" ++ text ++ "` here"))
  end.

Definition joined_span (a b : Span) : Span := default a (join a b).
Definition placeholder_error sp : SynError := mk_syn_error sp "typed_sql v1 placeholders must use a name like `$id`".

(** [push_stream], with [push_group] and [push_punct] in place. *)
Fixpoint push_stream (tokens : Stream) (b : SqlTextBuilder) : result SynError SqlTextBuilder :=
  match tokens with
  | TNil => Ok b
  | TCons (TGroup delimiter stream open close whole) rest =>
    let group suffix b :=
      match delimiter with
      | DParenthesis =>
        b ← push_piece "(" open KOpenDelim b;
        b ← push_stream stream b;
        b ← push_piece ")" close KCloseDelim b;
        match suffix with Some sp => push_piece "?" sp KSuffixMarker b | None => Ok b end
      | DNone => push_stream stream b
      | DBrace | DBracket => Err (mk_syn_error whole "typed_sql v1 token input only supports parentheses groups")
      end in
    match rest with
    | TCons (TPunct ch sp) after =>
      if byte_is ch 63 then b ← group (Some sp) b; push_stream after b
      else b ← group None b; push_stream rest b
    | _ => b ← group None b; push_stream rest b
    end
  | TCons (TIdent text sp) rest => b ← push_piece text sp KWord b; push_stream rest b
  | TCons (TLiteral text lit sp) rest => b ← push_literal text lit sp b; push_stream rest b
  | TCons (TPunct ch sp) rest =>
    if byte_is ch 36 then
      match rest with
      | TNil => Err (placeholder_error sp)
      | TCons (TIdent name ident_sp) after =>
        let sp := joined_span sp ident_sp in
        match after with
        | TCons (TPunct ch2 sp2) after2 =>
          if byte_is ch2 63 then b ← push_piece ("$" ++ name ++ "?") (joined_span sp sp2) KWord b; push_stream after2 b
          else b ← push_piece ("$" ++ name) sp KWord b; push_stream after b
        | _ => b ← push_piece ("$" ++ name) sp KWord b; push_stream after b
        end
      | TCons next _ => Err (placeholder_error (span_for_tree next))
      end
    else
      match rest with
      | TCons (TPunct ch2 sp2) after =>
        match composite ch ch2 with
        | Some text => b ← push_piece text (joined_span sp sp2) KTightOperator b; push_stream after b
        | None => b ← push_piece [ch] sp (punct_kind ch) b; push_stream rest b
        end
      | _ => b ← push_piece [ch] sp (punct_kind ch) b; push_stream rest b
      end
  end.

(** [SpanSegments::span_for]: the tokens that overlap the span, which is taken to be not empty. *)
Definition span_for (segments : list SpanSegment) (span : option SourceSpan) : option Span :=
  s ← span;
  let stop := Z.max (span_end s) (Z.min (span_start s + 1) (2 ^ 32 - 1)) in
  let overlapping := filter (λ g, span_start s < span_end (seg_sql g) ∧ span_start (seg_sql g) < stop) segments in
  first ← head overlapping;
  last ← last overlapping;
  Some (joined_span (seg_token first) (seg_token last)).

(** ** The input of a statement *)
Record PublicSqlInput := mk_public_input { pi_source : SqlSource; pi_segments : list SpanSegment }.

Definition parse_literal_sql (tokens : Stream) : option (str * Span) :=
  match tokens with TCons (TLiteral _ (LitStr value) sp) TNil => Some (value, sp) | _ => None end.

(** [PublicSqlInput::parse] *)
Definition public_parse (tokens : Stream) : result SynError PublicSqlInput :=
  match parse_literal_sql tokens with
  | Some (sql, sp) =>
    stop ← public_to_u32 (len sql);
    c ← map_err (λ err, mk_syn_error sp (TypedSqlError_display err)) (canonicalize_parts sql);
    Ok (mk_public_input (from_canonicalized sql c) [mk_segment (mk_span 0 stop) sp])
  | None =>
    b ← push_stream tokens builder_new;
    if bool_decide (Text.trim (tb_sql b) = []) then Err (mk_syn_error call_site "typed_sql v1 expects SQL tokens")
    else
      c ← map_err (λ err, mk_syn_error (default call_site (span_for (tb_segments b) (err_span err))) (TypedSqlError_display err))
            (canonicalize_parts (tb_sql b));
      Ok (mk_public_input (from_canonicalized (tb_sql b) c) (tb_segments b))
  end.

Definition syn_error (i : PublicSqlInput) (err : TypedSqlError) : SynError :=
  mk_syn_error (default call_site (span_for (pi_segments i) (err_span err))) (render_for_user err (pi_source i)).
Definition syn_error_message (i : PublicSqlInput) (message : str) : SynError :=
  mk_syn_error (default call_site (seg_token <$> head (pi_segments i))) message.
Definition parse_with {T} (i : PublicSqlInput) (parse : SqlSource → result TypedSqlError T) : result SynError T :=
  map_err (syn_error i) (parse (pi_source i)).
End input.

(** ** Layout: the text is the pieces in order, with at most a space between them *)
Section layout.
Context {Span : Type} (call_site : Span) (join : Span → Span → option Span).

(** A piece: whether a space comes before it, its text and its token. *)
Definition Placed : Type := bool * str * Span.
Definition piece_gap (p : Placed) : str := if p.1.1 : bool then " " else [].
Definition piece_text (p : Placed) : str := piece_gap p ++ p.1.2.
Definition laid_text (ps : list Placed) : str := concat (map piece_text ps).

Fixpoint laid_segments (off : Z) (ps : list Placed) : list (SpanSegment (Span := Span)) :=
  match ps with
  | [] => []
  | p :: ps =>
    mk_segment (mk_span (off + len (piece_gap p)) (off + len (piece_text p))) p.2 :: laid_segments (off + len (piece_text p)) ps
  end.

Definition laid_out (b : SqlTextBuilder) (ps : list Placed) : Prop :=
  tb_sql b = laid_text ps ∧ tb_segments b = laid_segments 0 ps ∧ len (tb_sql b) < 2 ^ 32.

Lemma len_text_app s t : len (s ++ t) = len s + len t.
Proof. unfold len. rewrite length_app. lia. Qed.
Lemma laid_text_snoc ps p : laid_text (ps ++ [p]) = laid_text ps ++ piece_text p.
Proof. unfold laid_text. rewrite map_app, concat_app. cbn. by rewrite app_nil_r. Qed.
Lemma laid_segments_app off ps qs : laid_segments off (ps ++ qs) = laid_segments off ps ++ laid_segments (off + len (laid_text ps)) qs.
Proof.
  revert off. induction ps as [|p ps IH]; intros off; cbn [laid_segments app].
  - cbn. by rewrite Z.add_0_r.
  - rewrite IH. f_equal. f_equal. unfold laid_text. cbn [map concat]. rewrite len_text_app. f_equal. lia.
Qed.

Lemma public_to_u32_Ok (z r : Z) : public_to_u32 call_site z = Ok r ↔ r = z ∧ z < 2 ^ 32.
Proof. unfold public_to_u32. destruct (Z.ltb_spec z (2 ^ 32)); split; try done; [by intros [= <-]|by intros [-> _]|lia]. Qed.

Lemma segment_eq a a' b b' (sp : Span) : a = a' → b = b' → mk_segment (mk_span a b) sp = mk_segment (mk_span a' b') sp.
Proof. by intros -> ->. Qed.

(** What a step does: pieces are added after the ones before. *)
Definition adds (b b' : SqlTextBuilder) : Prop := ∀ ps, laid_out b ps → ∃ qs, laid_out b' (ps ++ qs).

Lemma adds_refl b : adds b b.
Proof. intros ps H. exists []. by rewrite app_nil_r. Qed.
Lemma adds_trans b1 b2 b3 : adds b1 b2 → adds b2 b3 → adds b1 b3.
Proof. intros H1 H2 ps (qs & H)%H1. apply H2 in H as (rs & H). exists (qs ++ rs). by rewrite (assoc_L (++)). Qed.

Lemma adds_piece text sp kind b b' : push_piece call_site text sp kind b = Ok b' → adds b b'.
Proof.
  unfold push_piece. intros (start & [-> Hs]%public_to_u32_Ok & (stop & [-> He]%public_to_u32_Ok & [= <-])%result_bind_Ok)%result_bind_Ok ps (Ht & Hg & Hl).
  exists [(needs_space (tb_previous b) kind, text, sp)]. split; [|split; [|exact He]]; cbn [tb_sql tb_segments].
  - rewrite laid_text_snoc, <- Ht. unfold piece_text, piece_gap. cbn. destruct (needs_space _ _); [|done]. by rewrite <- (assoc_L (++)).
  - rewrite laid_segments_app, <- Hg, <- Ht. cbn [laid_segments]. unfold piece_text, piece_gap. cbn [fst snd].
    f_equal. f_equal. destruct (needs_space _ _); apply segment_eq; unfold len; rewrite ?length_app; cbn [length app]; lia.
Qed.

(** What every piece does, the loop does.  [P] is what is known of the texts of the tokens. *)
Section pushing.
Context (P : str → Prop) (R : SqlTextBuilder (Span := Span) → SqlTextBuilder (Span := Span) → Prop).
Context (R_refl : ∀ b, R b b) (R_trans : ∀ b1 b2 b3, R b1 b2 → R b2 b3 → R b1 b3).
Context (R_piece : ∀ text sp kind b b', P text → push_piece call_site text sp kind b = Ok b' → R b b').
Context (P_app : ∀ t1 t2, P t1 → P t2 → P (t1 ++ t2)) (P_ascii : ∀ t, Forall (λ b, u8_of b < 128) t → P t)
  (P_string : ∀ v, P v → P (render_sql_string v)).

Definition literal_text (text : str) (lit : Lit) : Prop :=
  match lit with LitStr v => P v | LitChar v => P (encode_char v) | _ => P text end.

Fixpoint tokens_text (tokens : TokenStream Span) : Prop :=
  match tokens with
  | TNil => True
  | TCons t rest =>
    match t with
    | TGroup _ stream _ _ _ => tokens_text stream
    | TIdent text _ => P text
    | TLiteral text lit _ => literal_text text lit
    | TPunct ch _ => P [ch]
    end ∧ tokens_text rest
  end.

Lemma pushed_literal text lit sp b b' : literal_text text lit → push_literal call_site text lit sp b = Ok b' → R b b'.
Proof.
  destruct lit as [v|v|suffix|suffix|]; cbn; try done; try (intros Hv; by apply R_piece, P_string).
  all: intros Ht (u & _ & H)%result_bind_Ok; by eapply R_piece.
Qed.

(** One step of the loop, and the rest. *)
Lemma pushed_then {m : result (SynError (Span := Span)) SqlTextBuilder} {f b b'} :
  (∀ b1, m = Ok b1 → R b b1) → (∀ b1 b2, f b1 = Ok b2 → R b1 b2) → (m ≫= f) = Ok b' → R b b'.
Proof. intros Hm Hf (b1 & H1 & H2)%result_bind_Ok. eapply R_trans; eauto. Qed.

Lemma P_composite a c text : composite a c = Some text → P text.
Proof. unfold composite. repeat case_match; intros [= <-]; apply P_ascii; repeat constructor. Qed.

Lemma pushed_stream tokens b b' : tokens_text tokens → push_stream call_site join tokens b = Ok b' → R b b'.
Proof.
  assert (Hsign : ∀ text, In text ["(" : str; ")" : str; "?" : str; "$" : str] → P text).
  { intros text Hin. apply P_ascii. repeat destruct Hin as [<-|Hin]; [repeat constructor..|done]. }
  revert tokens b b'. fix IH 1. intros tokens b b' Ht. destruct tokens as [|t rest]; [intros [= <-]; apply R_refl|].
  cbn [tokens_text] in Ht. destruct Ht as [Ht Hrest]. destruct t as [delimiter stream open close whole|text sp|text lit sp|ch sp].
  - set (group := λ (suffix : option Span) (b : SqlTextBuilder),
      match delimiter with
      | DParenthesis =>
        b ← push_piece call_site "(" open KOpenDelim b;
        b ← push_stream call_site join stream b;
        b ← push_piece call_site ")" close KCloseDelim b;
        match suffix with Some sp => push_piece call_site "?" sp KSuffixMarker b | None => Ok b end
      | DNone => push_stream call_site join stream b
      | DBrace | DBracket => Err (mk_syn_error whole "typed_sql v1 token input only supports parentheses groups")
      end).
    assert (Hgroup : ∀ suffix b1 b2, group suffix b1 = Ok b2 → R b1 b2).
    { intros suffix b1 b2. unfold group. destruct delimiter; [|by apply IH|done|done].
      apply pushed_then; [intros ?; apply R_piece, Hsign; by left|intros ? ?]. apply pushed_then; [intros ?; by apply IH|intros ? ?].
      apply pushed_then; [intros ?; apply R_piece, Hsign; by right; left|intros ? ?].
      destruct suffix; [apply R_piece, Hsign; by right; right; left|intros [= <-]; apply R_refl]. }
    assert (Hnone : (b ← group None b; push_stream call_site join rest b) = Ok b' → R b b').
    { apply pushed_then; [exact (Hgroup None b)|intros ? ?; by apply IH]. }
    destruct rest as [|t2 after]; [exact Hnone|]. destruct t2 as [| | |ch sp]; try exact Hnone.
    cbn [push_stream]. fold group. destruct (byte_is ch 63); [|exact Hnone].
    cbn [tokens_text] in Hrest. apply pushed_then; [exact (Hgroup (Some sp) b)|intros ? ?; apply IH, Hrest].
  - apply pushed_then; [intros ?; by apply R_piece|intros ? ?; by apply IH].
  - apply pushed_then; [intros ?; by apply pushed_literal|intros ? ?; by apply IH].
  - cbn [push_stream]. assert (Hd : P "$") by (apply Hsign; by do 3 right; left). destruct (byte_is ch 36).
    + destruct rest as [|t2 after]; [done|]. destruct t2 as [|name isp| |]; try done. cbn [tokens_text] in Hrest. destruct Hrest as [Hname Hafter].
      assert (Hmand : ∀ b', (b ← push_piece call_site ("$" ++ name) (joined_span join sp isp) KWord b; push_stream call_site join after b) = Ok b' → R b b').
      { intros b2. apply pushed_then; [intros ?; apply R_piece; by apply (P_app "$")|intros ? ?; by apply IH]. }
      destruct after as [|t3 after2]; [apply Hmand|]. destruct t3 as [| | |ch2 sp2]; try apply Hmand.
      destruct (byte_is ch2 63); [|apply Hmand]. cbn [tokens_text] in Hafter.
      apply pushed_then; [intros ?; apply R_piece|intros ? ?; apply IH, Hafter].
      apply (P_app "$"); [done|]. apply P_app; [done|]. apply Hsign. by right; right; left.
    + assert (Hone : (b ← push_piece call_site [ch] sp (punct_kind ch) b; push_stream call_site join rest b) = Ok b' → R b b').
      { apply pushed_then; [intros ?; by apply R_piece|intros ? ?; by apply IH]. }
      destruct rest as [|t2 after]; [exact Hone|]. destruct t2 as [| | |ch2 sp2]; try exact Hone.
      destruct (composite ch ch2) as [text|] eqn:Hc; [|exact Hone]. cbn [tokens_text] in Hrest.
      apply pushed_then; [intros ?; apply R_piece; by eapply P_composite|intros ? ?; apply IH, Hrest].
Qed.
End pushing.

Lemma tokens_text_any (P : str → Prop) tokens : (∀ t, P t) → tokens_text P tokens.
Proof.
  intros H. revert tokens. fix IH 1. intros [|t rest]; [done|]. split; [|apply IH].
  destruct t as [d stream o c w|text sp|text lit sp|ch sp]; [apply IH|apply H| |apply H]. by destruct lit; apply H.
Qed.

Lemma adds_stream tokens b b' : push_stream call_site join tokens b = Ok b' → adds b b'.
Proof.
  apply (pushed_stream (λ _, True)); [apply adds_refl|apply adds_trans|intros * _; apply adds_piece|done|done|done|by apply tokens_text_any].
Qed.

(** Of the texts of the tokens, all valid, a valid text is made. *)
Definition tokens_valid : TokenStream Span → Prop := tokens_text (λ t, utf8_valid t = true).

Lemma quoted_valid v : utf8_valid v = true → utf8_valid (concat (map quote_byte v)) = true.
Proof.
  intros (cs & Hcs & ->)%utf8_valid_iff. unfold encode_chars. induction Hcs as [|c cs Hc _ IH]; [done|].
  cbn [map concat]. rewrite map_app, concat_app. apply utf8_valid_app; [|exact IH]. destruct (decide (c < 128)) as [Hlt|Hge].
  - assert (0 ≤ c) by (unfold is_char in Hc; lia). unfold encode_char. rewrite (proj2 (Z.ltb_lt _ _)) by done. cbn. unfold quote_byte.
    assert (u8_of (byte_of c) < 128) by (rewrite u8_of_byte_of; lia).
    apply utf8_valid_ascii. destruct (byte_is _ _); by repeat constructor.
  - assert (Hb : concat (map quote_byte (encode_char c)) = encode_char c).
    { pose proof (encode_char_high c Hc ltac:(lia)) as Hh. induction Hh as [|b bs Hb _ IHb]; [done|]. cbn. rewrite IHb.
      unfold quote_byte, byte_is. by rewrite (proj2 (Z.eqb_neq _ _)) by lia. }
    rewrite Hb. apply utf8_valid_iff. exists [c]. split; [by constructor|]. unfold encode_chars. cbn. by rewrite app_nil_r.
Qed.

Lemma pushed_valid tokens b : tokens_valid tokens → push_stream call_site join tokens builder_new = Ok b → utf8_valid (tb_sql b) = true.
Proof.
  intros Ht H. refine (pushed_stream (λ t, utf8_valid t = true) (λ b b', utf8_valid (tb_sql b) = true → utf8_valid (tb_sql b') = true)
    _ _ _ _ _ _ tokens builder_new b Ht H eq_refl); [done|auto|..].
  - unfold push_piece. intros text sp kind b1 b2 Hp (? & _ & (? & _ & [= <-])%result_bind_Ok)%result_bind_Ok Hb. cbn [tb_sql].
    apply utf8_valid_app; [|done]. destruct (needs_space _ _); [|done]. apply utf8_valid_app; [done|]. apply utf8_valid_ascii. by repeat constructor.
  - apply utf8_valid_app.
  - apply utf8_valid_ascii.
  - intros v Hv%quoted_valid. repeat apply utf8_valid_app; [by apply utf8_valid_ascii; repeat constructor|done|by apply utf8_valid_ascii; repeat constructor].
Qed.

(** What is parsed of tokens is the canonical form of a valid text. *)
Lemma public_parse_source tokens i : tokens_valid tokens → public_parse call_site join tokens = Ok i →
  ∃ sql, utf8_valid sql = true ∧ len sql < 2 ^ 32 ∧ canonicalize sql = Ok (pi_source i).
Proof.
  intros Ht. unfold public_parse, canonicalize. destruct (parse_literal_sql tokens) as [[v sp]|] eqn:Hlit.
  - intros (stop & [_ Hs]%public_to_u32_Ok & (c & Hc & [= <-])%result_bind_Ok)%result_bind_Ok. apply map_err_Ok in Hc.
    exists v. rewrite Hc. split; [|by split].
    unfold parse_literal_sql in Hlit. repeat case_match; try done. injection Hlit as -> _. apply Ht.
  - intros (b & Hb & H)%result_bind_Ok. case_bool_decide; [done|]. apply result_bind_Ok in H as (c & Hc & [= <-]). apply map_err_Ok in Hc.
    exists (tb_sql b). rewrite Hc. split; [by eapply pushed_valid|]. split; [|done].
    apply adds_stream in Hb. destruct (Hb []) as (ps & _ & _ & Hl); [by split|]. exact Hl.
Qed.

(** ** Positions *)
Lemma laid_segments_bounds off ps i g : laid_segments off ps !! i = Some g → off ≤ span_start (seg_sql g) ≤ span_end (seg_sql g)
  ∧ span_end (seg_sql g) ≤ off + len (laid_text ps).
Proof.
  revert off i. induction ps as [|p ps IH]; intros off i; [done|]. unfold laid_text. cbn [laid_segments map concat]. rewrite len_text_app.
  assert (len (piece_gap p) ≤ len (piece_text p)) by (unfold piece_text; rewrite len_text_app; unfold len; lia).
  assert (0 ≤ len (piece_gap p)) by (unfold len; lia).
  destruct i as [|i]; cbn; [intros [= <-]; cbn; unfold laid_text, len in *; lia|]. intros Hg%IH. unfold laid_text, len in *. lia.
Qed.

Lemma laid_segments_sorted off ps i j g h : laid_segments off ps !! i = Some g → laid_segments off ps !! j = Some h → (i < j)%nat →
  span_end (seg_sql g) ≤ span_start (seg_sql h).
Proof.
  revert off i j. induction ps as [|p ps IH]; intros off i j; [done|]. destruct j as [|j]; [lia|]. cbn [laid_segments].
  destruct i as [|i]; cbn [lookup list_lookup].
  - intros [= <-] Hh%laid_segments_bounds _. cbn. lia.
  - intros Hg Hh Hij. apply (IH _ i j Hg Hh). lia.
Qed.

Lemma head_filter_first {A} (P : A → Prop) `{∀ x, Decision (P x)} l i x : l !! i = Some x → P x →
  (∀ j y, (j < i)%nat → l !! j = Some y → ¬ P y) → head (filter P l) = Some x.
Proof.
  revert i. induction l as [|y l IH]; intros i; [done|]. destruct i as [|i]; cbn [lookup list_lookup].
  - intros [= ->] Hx _. by rewrite filter_cons_True.
  - intros Hi Hx Hb. rewrite filter_cons_False by (apply (Hb 0%nat); [lia|done]). apply (IH i Hi Hx).
    intros j z Hj Hz. apply (Hb (S j)); [lia|done].
Qed.

Lemma last_filter_last {A} (P : A → Prop) `{∀ x, Decision (P x)} l i x : l !! i = Some x → P x →
  (∀ j y, (i < j)%nat → l !! j = Some y → ¬ P y) → last (filter P l) = Some x.
Proof.
  intros Hi Hx Hb. rewrite <- (take_drop_middle l i x Hi), filter_app, filter_cons_True by done.
  assert (filter P (drop (S i) l) = []) as ->.
  { destruct (filter P (drop (S i) l)) as [|y k] eqn:E; [done|]. exfalso.
    assert (y ∈ filter P (drop (S i) l)) as [Hy (j & Hj)%list_elem_of_lookup_1]%list_elem_of_filter by (rewrite E; set_solver).
    rewrite lookup_drop in Hj. by apply (Hb (S i + j)%nat y); [lia|..]. }
  apply last_snoc.
Qed.

Lemma span_for_range ps s e i j g h :
  laid_segments 0 ps !! i = Some g → laid_segments 0 ps !! j = Some h → 0 ≤ s < e → e < 2 ^ 32 →
  span_start (seg_sql g) ≤ s < span_end (seg_sql g) → span_start (seg_sql h) < e ≤ span_end (seg_sql h) →
  span_for join (laid_segments 0 ps) (Some (mk_span s e)) = Some (joined_span join (seg_token g) (seg_token h)).
Proof.
  intros Hi Hj Hse He Hg Hh. unfold span_for. cbn [mbind option_bind span_start span_end]. replace (Z.max e (Z.min (s + 1) (2 ^ 32 - 1))) with e by lia.
  assert (span_end (seg_sql g) ≤ span_end (seg_sql h)) as Hgh.
  { destruct (lt_eq_lt_dec i j) as [[Hlt|Heq]|Hgt].
    - pose proof (laid_segments_sorted _ _ _ _ _ _ Hi Hj Hlt). lia.
    - subst. rewrite Hi in Hj. injection Hj as ->. lia.
    - pose proof (laid_segments_sorted _ _ _ _ _ _ Hj Hi Hgt). lia. }
  rewrite (head_filter_first _ _ i g Hi), (last_filter_last _ _ j h Hj); [done|lia| |lia|].
  - intros k y Hk Hy. pose proof (laid_segments_sorted _ _ _ _ _ _ Hj Hy Hk). lia.
  - intros k y Hk Hy. pose proof (laid_segments_sorted _ _ _ _ _ _ Hy Hi Hk). lia.
Qed.
End layout.

(** ** Strings *)

(** Reading the inside of a standard SQL string, whose quotes are doubled. *)
Fixpoint sql_unquote (s : str) : option (str * str) :=
  match s with
  | [] => None
  | b :: s =>
    if byte_is b 39 then
      match s with
      | b' :: s' => if byte_is b' 39 then (λ r, (b :: r.1, r.2)) <$> sql_unquote s' else Some ([], s)
      | [] => Some ([], [])
      end
    else (λ r, (b :: r.1, r.2)) <$> sql_unquote s
  end.

Lemma sql_unquote_render value r : match r with b :: _ => byte_is b 39 = false | [] => True end →
  sql_unquote (concat (map quote_byte value) ++ "'" ++ r) = Some (value, r).
Proof.
  intros Hr. induction value as [|b value IH]; cbn [map concat].
  - cbn. destruct r as [|b r]; [done|]. by rewrite Hr.
  - unfold quote_byte at 1. destruct (byte_is b 39) eqn:E; cbn [app sql_unquote]; rewrite E.
    + cbn [app] in IH. by rewrite IH.
    + cbn [app] in IH. by rewrite IH.
Qed.


(** ** Examples *)
Definition tokens_of_list {Span} (l : list (TokenTree Span)) : TokenStream Span := foldr TCons TNil l.
Definition sample_tokens : TokenStream nat :=
  tokens_of_list
    [TIdent "SELECT" 1%nat; TIdent "users" 2%nat; TPunct "." 3%nat; TIdent "id" 4%nat; TIdent "FROM" 5%nat; TIdent "users" 6%nat;
     TIdent "WHERE" 7%nat;
     TGroup DParenthesis (tokens_of_list
       [TIdent "users" 8%nat; TPunct "." 9%nat; TIdent "name" 10%nat; TPunct "=" 11%nat; TLiteral "l" (LitStr "O'Hara") 12%nat]) 13%nat 14%nat 15%nat;
     TPunct "?" 16%nat; TIdent "LIMIT" 17%nat; TPunct "$" 18%nat; TIdent "n" 19%nat; TPunct "?" 20%nat].

Example sample_text : tb_sql <$> push_stream 0%nat (λ _ _, None) sample_tokens builder_new
  = Ok ("SELECT users.id FROM users WHERE (users.name = 'O''Hara')? LIMIT $n?" : str).
Proof. vm_compute. reflexivity. Qed.

