(* ===== verification/FrontDoor.v ===== *)
(** * Schema-aware statements: [query!] and [command!]

    [crates/macros/src/typed_sql/public_schema.rs], apart from the text of the generated code: how the
    stages of the typed SQL compiler are put together, what each entry point accepts, the
    selections of parameter and row types, and what is verified against a live database.

    The schema block is compiled in [SchemaDecl.v] and the tokens of the statement in
    [PublicInput.v]; here a statement is its source.  An error is the message the compiler shows.
    A [BTreeMap] or [BTreeSet] is a [gmap] or [gset], listed in order. *)
From S2P Require Import Prelude Text Types SqlIr SqlSource Resolver Lower Normalize SqlMacro Verify SchemaDecl.

Local Open Scope Z_scope.
Local Open Scope str_scope.

(** ** Entry points and selections *)
Inductive MacroEntrypoint := EntryQuery | EntryCommand.

(** [params = Type] and [row = Type]; a type is its text. *)
Inductive TypedSqlSelection := SelDefault | SelExplicit (ty : str) | SelInfer.
#[export] Instance TypedSqlSelection_eq_dec : EqDecision TypedSqlSelection.
Proof. solve_decision. Defined.
Record TypedSqlSelections := mk_selections { sl_params : TypedSqlSelection; sl_row : TypedSqlSelection }.
Definition selections_default : TypedSqlSelections := mk_selections SelDefault SelDefault.

Inductive SelectionKey := KeyParams | KeyRow.
(** [None] is the type [_]. *)
Definition selection_of (ty : option str) : TypedSqlSelection := match ty with None => SelInfer | Some ty => SelExplicit ty end.

(** [parse_typed_sql_selections]: the selections in order, and whether tokens follow them. *)
Fixpoint parse_typed_sql_selections (items : list (SelectionKey * option str)) (follows : bool) (s : TypedSqlSelections)
  : result str TypedSqlSelections :=
  match items with
  | [] => Ok s
  | (key, ty) :: items =>
    s ← match key with
        | KeyParams =>
          if bool_decide (sl_params s = SelDefault) then Ok (mk_selections (selection_of ty) (sl_row s))
          else Err ("duplicate `params = Type` selection" : str)
        | KeyRow =>
          if bool_decide (sl_row s = SelDefault) then Ok (mk_selections (sl_params s) (selection_of ty))
          else Err ("duplicate `row = Type` selection" : str)
        end;
    match items, follows with
    | [], false => Err ("expected SQL after typed SQL shape selections" : str)
    | _, _ => parse_typed_sql_selections items follows s
    end
  end.

Inductive SchemaSourceKind := Inline | AuthoredBridge.
#[export] Instance SchemaSourceKind_eq_dec : EqDecision SchemaSourceKind.
Proof. solve_decision. Defined.

(** The first two tokens of the SQL, as far as [reject_extra_schema_argument] looks at them: an
    identifier and whether [=] follows. *)
Definition reject_extra_schema_argument (first : option (str * bool)) (kind : SchemaSourceKind) : result str unit :=
  match first with
  | Some (ident, true) =>
    let name := ident_name ident in
    if bool_decide (name = "schema") then
      Err match kind with
          | AuthoredBridge => "schema-scoped wrapper already supplies the schema; inline `schema = { ... }` blocks cannot be mixed into this call"
          | Inline => "schema-aware typed SQL accepts only one `schema = { ... }` block before the SQL input"
          end
    else if bool_decide (name = "__babar_schema") then
      Err match kind with
          | AuthoredBridge => "schema-scoped wrapper already supplies its internal schema bridge; do not pass `__babar_schema = { ... }` manually"
          | Inline => "cannot mix inline `schema = { ... }` with the authored external schema bridge `__babar_schema = { ... }` in one schema-aware typed SQL call"
          end
    else Ok tt
  | _ => Ok tt
  end.

(** ** The front door *)
Record TypedSqlFrontDoor := mk_front_door {
  fd_kind : SchemaSourceKind; fd_catalog : SchemaCatalog; fd_selections : TypedSqlSelections; fd_source : SqlSource;
}.

Definition decorate_error (kind : SchemaSourceKind) (err : TypedSqlError) : TypedSqlError :=
  match kind with
  | Inline => err
  | AuthoredBridge =>
    match err_kind err with
    | EResolve => mk_sql_error (err_kind err) ("authored external schema lookup failed: " ++ err_message err) (err_span err)
    | EUnsupported =>
      if Text.contains "runtime lowering does not yet support SQL type" (err_message err)
      then mk_sql_error (err_kind err) ("authored external schema declarations can express this type, but " ++ err_message err) (err_span err)
      else err
    | _ => err
    end
  end.
Definition front_door_error (f : TypedSqlFrontDoor) (err : TypedSqlError) : str :=
  render_for_user (decorate_error (fd_kind f) err) (fd_source f).

Definition enforce_entrypoint_contract (checked : CheckedStatement) (entry : MacroEntrypoint) : result str unit :=
  match entry, cst_kind checked with
  | EntryQuery, KQuery => Ok tt
  | EntryQuery, _ => Err ("query! now only accepts schema-aware SELECT statements; use command! for typed INSERT, UPDATE, or DELETE statements" : str)
  | EntryCommand, KQuery => Err ("command! now accepts only schema-aware INSERT, UPDATE, or DELETE statements; use query! for typed SELECT statements" : str)
  | EntryCommand, _ => Ok tt
  end.

(** The labels that occurred before, in order. *)
Fixpoint repeated_labels (seen : list str) (labels : list str) : list str :=
  match labels with
  | [] => []
  | l :: labels => (if bool_decide (l ∈ seen) then [l] else []) ++ repeated_labels (l :: seen) labels
  end.

Definition enforce_strict_row_selection (s : TypedSqlSelections) (q : LoweredQuery) : result str unit :=
  match sl_row s with
  | SelDefault => Ok tt
  | _ =>
    match repeated_labels [] (map lc_label (lq_columns q)) with
    | [] => Ok tt
    | ds => Err ("strict row selection requires unique final output names before matching a row struct; duplicate output names: " ++ Text.join ", " ds)
    end
  end.

(** ** What is generated *)

(** The codec of the parameters or of the rows: the tuple of the lowered codecs, a codec for the
    fields of a given struct (each with its codec and the type of its value), or the one that
    the inferred type names. *)
Inductive SelectedCodec := TupleCodec (tokens : str) | StructCodec (ty : str) (fields : list (str * str * str)) | StaticCodec.

(** A lowered statement with its codecs; of a dynamic one, the variants its renderer chooses from. *)
Record Emitted := mk_emitted {
  em_query : LoweredQuery; em_params : SelectedCodec; em_row : option SelectedCodec; em_shapes : option (list RuntimeSqlShape);
}.

(** [None] is a panic: [expect] of a codec that the lowering found before. *)
Definition explicit_field (x : str * SqlType * Nullability) : option (str * str * str) :=
  match runtime_codec_tokens x.1.2 x.2 None, runtime_value_type_tokens x.1.2 x.2 None with
  | Ok codec, Ok ty => Some (x.1.1, codec, ty)
  | _, _ => None
  end.
Definition explicit_codec_tokens (ty : str) (contract : list (str * SqlType * Nullability)) : option SelectedCodec :=
  fields ← mapM explicit_field contract; Some (StructCodec ty fields).

Definition parameter_contract (q : LoweredQuery) : list (str * SqlType * Nullability) :=
  map (λ p, (lp_logical_name p, lp_type p, lp_nullability p)) (lq_parameters q).
Definition row_contract (q : LoweredQuery) : list (str * SqlType * Nullability) :=
  map (λ c, (lc_label c, lc_type c, lc_nullability c)) (lq_columns q).

Definition selection_codec_tokens (s : TypedSqlSelection) (lowered : str) (contract : list (str * SqlType * Nullability)) : option SelectedCodec :=
  match s with
  | SelDefault => Some (TupleCodec lowered)
  | SelExplicit ty => explicit_codec_tokens ty contract
  | SelInfer => Some StaticCodec
  end.
Definition selection_parameter_codec_tokens (s : TypedSqlSelection) (q : LoweredQuery) : option SelectedCodec :=
  selection_codec_tokens s (parameter_codec_tokens q) (parameter_contract q).
Definition selection_row_codec_tokens (s : TypedSqlSelection) (q : LoweredQuery) : option SelectedCodec :=
  selection_codec_tokens s (row_codec_tokens q) (row_contract q).

(** [emit_query_tokens_with] and [emit_command_tokens_with], and the selectors around them. *)
Definition emit_with (q : LoweredQuery) (params : SelectedCodec) (row : option SelectedCodec) : option Emitted :=
  if is_dynamic q then shapes ← runtime_sql_shapes q; Some (mk_emitted q params row (Some shapes))
  else Some (mk_emitted q params row None).

Definition dynamic_selection : str := "`params = ...` selection is not yet supported for typed SQL statements with optional placeholders or toggle groups".

Definition emit_query_tokens (s : TypedSqlSelections) (q : LoweredQuery) : Outcome Emitted :=
  if is_dynamic q && negb (bool_decide (sl_params s = SelDefault)) then Some (Err dynamic_selection)
  else
    match enforce_strict_row_selection s q with
    | Err e => Some (Err e)
    | Ok _ =>
      params ← selection_parameter_codec_tokens (sl_params s) q;
      row ← selection_row_codec_tokens (sl_row s) q;
      Ok <$> emit_with q params (Some row)
    end.

Definition emit_command_tokens (s : TypedSqlSelections) (q : LoweredQuery) : Outcome Emitted :=
  if negb (bool_decide (sl_row s = SelDefault)) then Some (Err ("`row = Type` is only supported for row-producing typed SQL" : str))
  else if is_dynamic q && negb (bool_decide (sl_params s = SelDefault)) then Some (Err dynamic_selection)
  else params ← selection_parameter_codec_tokens (sl_params s) q; Ok <$> emit_with q params None.

(** ** The tables and columns a SELECT refers to *)
Abbreviation TableColumns := (gmap str (gset str)).

Section references.
Context (binding_tables : gmap str str).

Definition add_column (c : ColumnRefSyntax) (m : TableColumns) : TableColumns :=
  match binding_tables !! ident_value (cr_binding c) with
  | Some table => <[table := {[ident_value (cr_column c)]} ∪ default ∅ (m !! table)]> m
  | None => m
  end.

Fixpoint collect_referenced_columns_expr (e : ParsedExpr) (m : TableColumns) : TableColumns :=
  match e with
  | PColumn c => add_column c m
  | POptionalGroup _ _ e | PUnary _ _ _ e | PIsNull _ _ _ e => collect_referenced_columns_expr e m
  | PBinary _ _ _ l r => collect_referenced_columns_expr r (collect_referenced_columns_expr l m)
  | PBoolChain _ _ _ ts =>
    (fix all (ts : list ParsedExpr) (m : TableColumns) : TableColumns :=
      match ts with [] => m | t :: ts => all ts (collect_referenced_columns_expr t m) end) ts m
  | PPlaceholder _ | PLiteral _ => m
  end.

Definition collect_exprs (es : list ParsedExpr) (m : TableColumns) : TableColumns :=
  foldl (λ m e, collect_referenced_columns_expr e m) m es.

Definition collect_referenced_columns_select (s : ParsedSelect) (m : TableColumns) : TableColumns :=
  let m := collect_exprs (map proj_expr (sel_projections s)) m in
  let m := collect_exprs (option_list (sel_filter s)) m in
  let m := collect_exprs (map join_on (sel_joins s)) m in
  let m := collect_exprs (map ob_expr (sel_order_by s)) m in
  let m := collect_exprs (option_list (limit_expr <$> sel_limit s)) m in
  collect_exprs (option_list (offset_expr <$> sel_offset s)) m.

(** [None] is a panic: a column that is not in the catalog. *)
Definition referenced_column (catalog : SchemaCatalog) (table name : str) : option ReferencedColumn :=
  c ← lookup_column_by_display_name catalog table name;
  Some (mk_referenced_column name (declared_type_for_sql_type (col_type c)) (col_nullability c)).

Definition referenced_table (catalog : SchemaCatalog) (m : TableColumns) (table : str) : option ReferencedTable :=
  cs ← mapM (referenced_column catalog table) (sorted_names (elements (default ∅ (m !! table))));
  Some (mk_referenced_table table cs).

Definition start_columns : TableColumns := list_to_map (map (λ x, (x.2, ∅)) (map_to_list binding_tables)).

Definition collect_referenced_tables (parsed : ParsedSql) (catalog : SchemaCatalog) : option (list ReferencedTable) :=
  let m := match ps_select parsed with
           | Some s => collect_referenced_columns_select s start_columns
           | None => start_columns
           end in
  mapM (referenced_table catalog m) (sorted_names (elements (dom m))).
End references.

(** [collect] into a [HashMap]: the last binding of a name. *)
Definition binding_table_map (checked : CheckedSelect) : gmap str str :=
  list_to_map (reverse (map (λ b, (cb_name b, cb_table_name b)) (cs_bindings checked))).

(** ** The compiler *)
Section compiler.
Context (to_lowercase : Z → list Z) (tokenize : str → result str (list Token)) (parse_statements : str → result str (list SpStatement)).
Context `{live : !Live} (environment : str → option bytes) (parse_config : str → result str unit).

Definition verify_live_schema (f : TypedSqlFrontDoor) (parsed : ParsedSql) (checked : CheckedSelect) (q : LoweredQuery)
  : option (result VerificationError unit) :=
  tables ← collect_referenced_tables (binding_table_map checked) parsed (fd_catalog f);
  Some (verify_typed_statement_against_probe environment parse_config (lq_sql q) tables
    (map (λ p, declared_type_for_sql_type (lp_type p)) (lq_parameters q))
    (Some (map (λ c, declared_type_for_sql_type (lc_type c)) (lq_columns q)))).

(** Only a SELECT is verified. *)
Definition verify_checked (f : TypedSqlFrontDoor) (parsed : ParsedSql) (checked : CheckedStatement) (q : LoweredQuery) : Outcome unit :=
  match cst_body checked, ps_select parsed with
  | CSelect select, Some _ => map_err verification_display <$> verify_live_schema f parsed select q
  | _, _ => Some (Ok tt)
  end.

Definition compile_front_door (f : TypedSqlFrontDoor) (entry : MacroEntrypoint) : Outcome Emitted :=
  match
    (parsed ← map_err (λ err, render_for_user err (fd_source f)) (parse_typed_sql_source to_lowercase tokenize parse_statements (fd_source f));
     checked ← map_err (front_door_error f) (resolve_statement (ps_statement parsed) (fd_catalog f));
     _ ← enforce_entrypoint_contract checked entry;
     Ok (parsed, checked))
  with
  | Err e => Some (Err e)
  | Ok (parsed, checked) =>
    match lower_statement parsed checked with
    | None => None
    | Some (Err e) => Some (Err (front_door_error f e))
    | Some (Ok q) =>
      match verify_checked f parsed checked q with
      | None => None
      | Some (Err e) => Some (Err e)
      | Some (Ok _) =>
        match cst_result checked with
        | RRows => emit_query_tokens (fd_selections f) q
        | RCommand => emit_command_tokens (fd_selections f) q
        end
      end
    end
  end.

Definition compile_typed_query (kind : SchemaSourceKind) (schema : list BridgeTable) (selections : TypedSqlSelections) (source : SqlSource)
    (entry : MacroEntrypoint) : Outcome Emitted :=
  match into_catalog schema with
  | Err e => Some (Err e)
  | Ok catalog => compile_front_door (mk_front_door kind catalog selections source) entry
  end.
End compiler.
