(* ===== verification/FrontDoorFacts.v ===== *)
(** * Schema-aware statements: what is verified

    Facts on [FrontDoor.v]: a statement that the resolver accepts has every column it refers to
    in the catalog, under the name of the table its binding stands for, so the collection of
    referenced tables never fails and is complete; with the decision of [Verify.v] this says
    what an accepted SELECT was checked for. *)
From S2P Require Import Prelude Text Types SqlIr SqlSource SqlSourceFacts Resolver ResolverFacts StatementTyping Lower LowerFacts Normalize NormalizeFacts Pipeline SqlMacro Verify SchemaDecl SchemaDeclFacts FrontDoor.

Local Open Scope Z_scope.

(** ** Collecting columns *)
Fixpoint columns_of (e : ParsedExpr) : list ColumnRefSyntax :=
  match e with
  | PColumn c => [c]
  | POptionalGroup _ _ e | PUnary _ _ _ e | PIsNull _ _ _ e => columns_of e
  | PBinary _ _ _ l r => columns_of l ++ columns_of r
  | PBoolChain _ _ _ ts => concat (map columns_of ts)
  | PPlaceholder _ | PLiteral _ => []
  end.

Definition select_exprs (s : ParsedSelect) : list ParsedExpr :=
  map proj_expr (sel_projections s) ++ option_list (sel_filter s) ++ map join_on (sel_joins s) ++ map ob_expr (sel_order_by s)
  ++ option_list (limit_expr <$> sel_limit s) ++ option_list (offset_expr <$> sel_offset s).
Definition select_columns (s : ParsedSelect) : list ColumnRefSyntax := concat (map columns_of (select_exprs s)).

Section collecting.
Context (bt : gmap str str).

Definition listed (m : TableColumns) (t c : str) : Prop := ∃ cs, m !! t = Some cs ∧ c ∈ cs.
Definition points_to (cols : list ColumnRefSyntax) (t c : str) : Prop :=
  ∃ col, col ∈ cols ∧ bt !! ident_value (cr_binding col) = Some t ∧ ident_value (cr_column col) = c.
Definition pointed (cols : list ColumnRefSyntax) (t : str) : Prop := ∃ col, col ∈ cols ∧ bt !! ident_value (cr_binding col) = Some t.

(** What a collection of the columns [cols] does. *)
Definition collects (m m' : TableColumns) (cols : list ColumnRefSyntax) : Prop :=
  (∀ t c, listed m' t c ↔ listed m t c ∨ points_to cols t c) ∧ (∀ t, t ∈ dom m' ↔ t ∈ dom m ∨ pointed cols t).

Lemma points_nil t c : ¬ points_to [] t c.
Proof. intros (col & H & _). set_solver. Qed.
Lemma pointed_nil t : ¬ pointed [] t.
Proof. intros (col & H & _). set_solver. Qed.

Lemma collects_nil m : collects m m [].
Proof. split; [intros t c; pose proof (points_nil t c)|intros t; pose proof (pointed_nil t)]; tauto. Qed.

Lemma collects_app m1 m2 m3 a b : collects m1 m2 a → collects m2 m3 b → collects m1 m3 (a ++ b).
Proof.
  intros [H1 D1] [H2 D2]. split.
  - intros t c. rewrite H2, H1. unfold points_to. setoid_rewrite elem_of_app. naive_solver.
  - intros t. rewrite D2, D1. unfold pointed. setoid_rewrite elem_of_app. naive_solver.
Qed.

Lemma collects_column col m : collects m (add_column bt col m) [col].
Proof.
  unfold collects, add_column, points_to, pointed, listed.
  destruct (bt !! ident_value (cr_binding col)) as [t|] eqn:Ht.
  - split.
    + intros t' c'. split.
      * intros (cs & [[<- <-]|[_ Hm]]%lookup_insert_Some & Hc); [|left; eauto].
        apply elem_of_union in Hc as [->%elem_of_singleton|Hc]; [right; exists col; split; [by left|done]|left].
        destruct (m !! t) as [cs|]; [by exists cs|by apply not_elem_of_empty in Hc].
      * intros [(cs & Hm & Hc)|(col' & ->%list_elem_of_singleton & Ht' & <-)].
        -- destruct (decide (t = t')) as [<-|Hne]; [|exists cs; by rewrite lookup_insert_ne].
           eexists. rewrite lookup_insert_eq. split; [done|]. rewrite Hm. cbn. by apply elem_of_union_r.
        -- rewrite Ht in Ht'. injection Ht' as <-. eexists. rewrite lookup_insert_eq. split; [done|]. by apply elem_of_union_l, elem_of_singleton.
    + intros t'. rewrite dom_insert, elem_of_union, elem_of_singleton. split.
      * intros [->|Hm]; [right; exists col; split; [by left|done]|by left].
      * intros [Hm|(col' & ->%list_elem_of_singleton & Ht')]; [by right|left; congruence].
  - split.
    + intros t' c'. split; [by left|]. intros [H|(col' & ->%list_elem_of_singleton & Ht' & _)]; [done|congruence].
    + intros t'. split; [by left|]. intros [H|(col' & ->%list_elem_of_singleton & Ht')]; [done|congruence].
Qed.

Lemma collects_expr e m : collects m (collect_referenced_columns_expr bt e m) (columns_of e).
Proof.
  revert m. induction e as [col|p|l|id span e IH|id span op e IH|id span op e1 e2 IH1 IH2|id span b e IH|id span op ts IH] using parsed_expr_ind;
    intros m; cbn [collect_referenced_columns_expr columns_of]; try apply IH; try apply collects_nil.
  - apply collects_column.
  - eapply collects_app; [apply IH1|apply IH2].
  - revert m. induction IH as [|t ts Ht _ IHts]; intros m; cbn; [apply collects_nil|]. eapply collects_app; [apply Ht|apply IHts].
Qed.

Lemma collects_exprs es m : collects m (collect_exprs bt es m) (concat (map columns_of es)).
Proof.
  revert m. induction es as [|e es IH]; intros m; cbn; [apply collects_nil|]. eapply collects_app; [apply collects_expr|apply IH].
Qed.

Lemma collects_select s m : collects m (collect_referenced_columns_select bt s m) (select_columns s).
Proof.
  unfold collect_referenced_columns_select, select_columns, select_exprs. rewrite !map_app, !concat_app.
  repeat (eapply collects_app; [apply collects_exprs|]). apply collects_exprs.
Qed.

Lemma start_listed t c : ¬ listed (start_columns bt) t c.
Proof.
  intros (cs & Hcs & Hc). unfold start_columns in Hcs. apply elem_of_list_to_map_2 in Hcs.
  apply list_elem_of_fmap in Hcs as ([n t'] & [= -> ->] & _). set_solver.
Qed.

Lemma start_dom t : t ∈ dom (start_columns bt) ↔ ∃ n, bt !! n = Some t.
Proof.
  unfold start_columns. rewrite dom_list_to_map_L, elem_of_list_to_set. rewrite <- list_fmap_compose, list_elem_of_fmap. split.
  - intros ([n t'] & -> & H%elem_of_map_to_list). by exists n.
  - intros (n & H). exists (n, t). split; [done|]. by apply elem_of_map_to_list.
Qed.
End collecting.

(** ** Resolved columns *)
Definition scope_full (sc : Scope) (bs : list ResolvedBinding) : Prop := ∀ i b, bs !! i = Some b → sc !! bind_name b = Some i.

Lemma resolve_from_full c f sc bs b n sc' : scope_full sc bs → resolve_from c f (length bs) sc = Ok (b, n, sc') → scope_full sc' (bs ++ [b]).
Proof.
  intros Hf. unfold resolve_from. intros (t & _ & (sc1 & Hsc & [= <- _ <-])%result_bind_Ok)%result_bind_Ok.
  unfold scope_insert, scope_full, Scope, BindingId in *. cbn [bind_id] in Hsc. destruct (sc !! ident_value (binding_name f)) eqn:Hn; [done|]. injection Hsc as <-.
  intros i b [Hi|[Hge Hi]]%lookup_app_Some.
  - rewrite lookup_insert_ne; [by apply Hf|]. intros E. apply Hf in Hi. congruence.
  - apply list_lookup_singleton_Some in Hi as [Hi <-]. cbn [bind_name]. rewrite lookup_insert_eq. f_equal. lia.
Qed.

(** The bindings a column was resolved among are the first of those of the statement. *)
Definition resolves_in (c : SchemaCatalog) (bs : list ResolvedBinding) (col : ColumnRefSyntax) : Prop :=
  ∃ i b t k, bs !! i = Some b ∧ bind_name b = ident_value (cr_binding col) ∧ tables c !! bind_table b = Some t
    ∧ columns_by_name t !! ident_value (cr_column col) = Some k.

Lemma resolves_prefix c bs bs' col : resolves_in c bs col → bs `prefix_of` bs' → resolves_in c bs' col.
Proof. intros (i & b & t & k & Hi & H) [more ->]. exists i, b, t, k. split; [by apply lookup_app_l_Some|done]. Qed.

Lemma resolve_column_resolves c sc bs col r : catalog_ok c → scope_ok c sc bs → resolve_column c sc bs col = Ok r → resolves_in c bs col.
Proof.
  intros Hc [Hnames Hbs]. unfold resolve_column, scope_lookup. destruct (sc !! ident_value (cr_binding col)) as [id|] eqn:Hid; cbn; [|done].
  destruct (Hnames _ _ Hid) as (b & Hb & Hn). destruct (Hbs _ _ Hb) as [_ [t Ht]].
  unfold binding_at. rewrite Hb. cbn. unfold table. rewrite Ht. cbn.
  destruct (columns_by_name t !! ident_value (cr_column col)) as [k|] eqn:Hk; [|done]. intros _. by exists id, b, t, k.
Qed.

Lemma resolve_expr_resolves c sc bs e r col : catalog_ok c → scope_ok c sc bs → resolve_expr c sc bs e = Ok r → col ∈ columns_of e →
  resolves_in c bs col.
Proof.
  intros Hc Hsc. revert r.
  induction e as [cr|p|l|id span e IH|id span op e IH|id span op e1 e2 IH1 IH2|id span b e IH|id span op ts IH] using parsed_expr_ind;
    intros r; cbn [resolve_expr columns_of]; intros (n & Hn & [= <-])%result_bind_Ok; try (by intros []%not_elem_of_nil).
  - intros ->%list_elem_of_singleton. apply result_bind_Ok in Hn as (rc & Hrc & _). by eapply resolve_column_resolves.
  - apply result_bind_Ok in Hn as (i & Hi & _). by eapply IH.
  - apply result_bind_Ok in Hn as (i & Hi & _). by eapply IH.
  - apply result_bind_Ok in Hn as (i & Hi & (j & Hj & _)%result_bind_Ok). intros [H|H]%elem_of_app; [by eapply IH1|by eapply IH2].
  - apply result_bind_Ok in Hn as (i & Hi & _). by eapply IH.
  - apply result_bind_Ok in Hn as (l & Hl%map_result_Ok & _). intros (t & Ht & Hcol)%elem_of_concat_map.
    rewrite Forall_forall in IH. apply list_elem_of_lookup_1 in Ht as [k Hk].
    destruct (Forall2_lookup_l _ _ _ _ _ Hl Hk) as (r' & _ & Hr'). apply list_elem_of_lookup_2 in Hk. by eapply IH.
Qed.

Lemma resolve_joins_resolves c joins : ∀ sc bs js sc' bs', catalog_ok c → scope_ok c sc bs → scope_full sc bs →
  resolve_joins c joins (length bs) sc bs = Ok (js, sc', bs') →
  scope_ok c sc' bs' ∧ scope_full sc' bs' ∧ bs `prefix_of` bs' ∧ ∀ col, col ∈ concat (map columns_of (map join_on joins)) → resolves_in c bs' col.
Proof.
  induction joins as [|j joins IH]; intros sc bs js sc' bs' Hc Hsc Hf; cbn [resolve_joins map concat].
  { intros [= <- <- <-]. split_and!; [done|done|done|]. by intros col []%not_elem_of_nil. }
  intros ([[b n] sc1] & Hfrom & (on & Hon & ([[js1 sc2] bs2] & Hrest & [= <- <- <-])%result_bind_Ok)%result_bind_Ok)%result_bind_Ok.
  destruct (resolve_from_ok _ _ _ _ _ _ _ Hc Hsc Hfrom) as (-> & _ & Hsc1).
  pose proof (resolve_from_full _ _ _ _ _ _ _ Hf Hfrom) as Hf1.
  replace (S (length bs)) with (length (bs ++ [b])) in Hrest by (rewrite length_app; cbn; lia).
  destruct (IH _ _ _ _ _ Hc Hsc1 Hf1 Hrest) as (Hsc2 & Hf2 & Hp & Hcols). split_and!; [done|done| |].
  - by apply prefix_app_l in Hp.
  - intros col [Hcol|Hcol]%elem_of_app; [|by apply Hcols]. eapply resolves_prefix; [|exact Hp]. by eapply resolve_expr_resolves.
Qed.

Lemma map_result_resolves {A B} (f : A → result TypedSqlError B) (g : A → ParsedExpr) c bs l l' : map_result f l = Ok l' →
  (∀ a b, f a = Ok b → ∀ col, col ∈ columns_of (g a) → resolves_in c bs col) →
  ∀ col, col ∈ concat (map columns_of (map g l)) → resolves_in c bs col.
Proof.
  intros H%map_result_Ok Hf. induction H as [|a b l l' Ha _ IH]; intros col; cbn; [by intros []%not_elem_of_nil|].
  intros [Hcol|Hcol]%elem_of_app; [by eapply Hf|by apply IH].
Qed.

Lemma option_resolves c sc bs o o' : catalog_ok c → scope_ok c sc bs → resolve_option (resolve_expr c sc bs) o = Ok o' →
  ∀ col, col ∈ concat (map columns_of (option_list o)) → resolves_in c bs col.
Proof.
  intros Hc Hsc. destruct o as [e|]; cbn; [|by intros _ col []%not_elem_of_nil]. intros (r & Hr & _)%result_bind_Ok col.
  rewrite (right_id_L [] (++)). by eapply resolve_expr_resolves.
Qed.

(** Every column of an accepted SELECT is one of the table that its binding stands for. *)
Lemma resolve_names_resolves s c r : catalog_ok c → resolve_names s c = Ok r →
  ∃ sc, scope_ok c sc (rs_bindings r) ∧ scope_full sc (rs_bindings r) ∧ ∀ col, col ∈ select_columns s → resolves_in c (rs_bindings r) col.
Proof.
  intros Hc ([[from n] sc] & Hfrom & H)%result_bind_Ok.
  assert (Hf0 : scope_full ∅ []) by by intros i b.
  destruct (resolve_from_ok c _ _ _ _ _ _ Hc (scope_empty_ok c) Hfrom) as (-> & _ & Hsc).
  pose proof (resolve_from_full _ _ _ _ _ _ _ Hf0 Hfrom) as Hf.
  apply result_bind_Ok in H as ([[js sc'] bs] & Hjs & H).
  destruct (resolve_joins_resolves c _ _ [from] _ _ _ Hc Hsc Hf Hjs) as (Hsc' & Hf' & _ & Hjoins).
  apply result_bind_Ok in H as (ps & Hps & H). apply result_bind_Ok in H as (fl & Hfl & H). apply result_bind_Ok in H as (os & Hos & H).
  apply result_bind_Ok in H as (l & Hl & H). apply result_bind_Ok in H as (o & Ho & [= <-]).
  exists sc'. cbn [rs_bindings]. split_and!; [done|done|]. unfold select_columns, select_exprs. rewrite !map_app, !concat_app.
  intros col. rewrite !elem_of_app. intros [Hcol|[Hcol|[Hcol|[Hcol|[Hcol|Hcol]]]]].
  - refine (map_result_resolves _ _ _ _ _ _ Hps _ col Hcol). intros p rp (e & He & _)%result_bind_Ok. intros col'. exact (resolve_expr_resolves _ _ _ _ _ col' Hc Hsc' He).
  - exact (option_resolves _ _ _ _ _ Hc Hsc' Hfl col Hcol).
  - by apply Hjoins.
  - refine (map_result_resolves _ _ _ _ _ _ Hos _ col Hcol). intros a b He. intros col'. exact (resolve_expr_resolves _ _ _ _ _ col' Hc Hsc' He).
  - exact (option_resolves _ _ _ _ _ Hc Hsc' Hl col Hcol).
  - exact (option_resolves _ _ _ _ _ Hc Hsc' Ho col Hcol).
Qed.

(** ** The tables of the bindings *)
Lemma scope_full_names sc bs : scope_full sc bs → NoDup (map bind_name bs).
Proof.
  intros Hf. apply NoDup_alt. intros i j n. rewrite !list_lookup_fmap.
  intros (b & Hb & ->)%fmap_Some (b' & Hb' & Hn)%fmap_Some. apply Hf in Hb, Hb'. congruence.
Qed.

Lemma binding_tables c sc env bs cs name t : scope_full sc bs → cs_bindings cs = map (checked_binding env c) bs →
  binding_table_map cs !! name = Some t ↔ ∃ b, b ∈ bs ∧ bind_name b = name ∧ display_name (table c (bind_table b)) = t.
Proof.
  intros Hf Hcs. unfold binding_table_map. rewrite Hcs, map_map. rewrite <- elem_of_list_to_map.
  - rewrite elem_of_reverse, list_elem_of_fmap. split; [intros (b & [= -> ->] & Hb); eauto|intros (b & Hb & <- & <-); eauto].
  - rewrite fmap_reverse, reverse_Permutation, <- list_fmap_compose. by eapply scope_full_names.
Qed.

Lemma select_bindings s c r cs : resolve_names s c = Ok r → resolve_select s c = Ok cs → ∃ env, cs_bindings cs = map (checked_binding env c) (rs_bindings r).
Proof.
  intros Hr (r' & Hr' & Hcs)%result_bind_Ok. rewrite Hr in Hr'. injection Hr' as <-.
  destruct (analyze_select r c InferenceContext_new) as [[[plans env]|] ctx]; [|done]. unfold finalize_select in Hcs.
  do 6 (apply result_bind_Ok in Hcs as (? & _ & Hcs)). injection Hcs as <-. by exists env.
Qed.

(** ** The catalog of a schema block *)
Lemma into_tables_ok seen ts sts : into_tables seen ts = Ok sts →
  Forall table_ok sts ∧ NoDup (map display_name sts) ∧ ∀ name, name ∈ map display_name sts → name ∉ seen.
Proof.
  revert seen sts. induction ts as [|t ts IH]; intros seen sts; cbn [into_tables].
  { intros [= <-]. split_and!; [constructor|constructor|]. by intros name []%not_elem_of_nil. }
  case_bool_decide as Hn; [done|]. intros (st & Hst & (sts' & Hsts & [= <-])%result_bind_Ok)%result_bind_Ok.
  destruct (IH _ _ Hsts) as (Hok & Hnd & Hseen).
  apply result_bind_Ok in Hst as (cols & _ & Hst). rewrite map_err_Ok in Hst.
  assert (display_name st = qualified_name (bt_schema t) (bt_name t)) as Hd.
  { apply result_bind_Ok in Hst as (m & _ & [= <-]). unfold display_name, qualified_name_parts, qualified_name. cbn.
    destruct (bt_schema t); reflexivity. }
  apply SchemaTable_new_ok in Hst as [Hst _]. split_and!.
  - by constructor.
  - cbn. constructor; [|done]. rewrite Hd. intros Hin. apply Hseen in Hin. apply Hin. by left.
  - cbn. intros name [->|Hin]%elem_of_cons; [by rewrite Hd|]. apply Hseen in Hin. set_solver.
Qed.

Lemma into_catalog_ok ts c : into_catalog ts = Ok c → catalog_ok c ∧ NoDup (map display_name (tables c)).
Proof.
  intros (sts & Hsts & Hc)%result_bind_Ok. rewrite map_err_Ok in Hc. destruct (into_tables_ok _ _ _ Hsts) as (Hok & Hnd & _).
  destruct (SchemaCatalog_new_ok _ _ Hok Hc) as [Hcat ->]. done.
Qed.

Lemma lookup_displayed c i t name : NoDup (map display_name (tables c)) → tables c !! i = Some t →
  lookup_column_by_display_name c (display_name t) name = columns_by_name t !! name ≫= λ k, columns t !! k.
Proof.
  intros Hnd Ht. unfold lookup_column_by_display_name. rewrite (list_find_unique _ _ i t); [done|done|done|].
  intros j u Hu Hdu. rewrite NoDup_alt in Hnd. apply (Hnd j i (display_name t)); rewrite list_lookup_fmap, ?Hu, ?Ht; cbn; congruence.
Qed.

(** ** The tables a SELECT refers to *)
Section referenced.
Context (c : SchemaCatalog) (s : ParsedSelect) (r : ResolvedSelect) (cs : CheckedSelect).
Context (Hc : catalog_ok c) (Hnd : NoDup (map display_name (tables c))).
Context (Hr : resolve_names s c = Ok r) (Hcs : resolve_select s c = Ok cs).

Local Notation bt := (binding_table_map cs).
Local Notation m := (collect_referenced_columns_select bt s (start_columns bt)).

Lemma referenced_bindings : ∀ name t, bt !! name = Some t ↔ ∃ b, b ∈ rs_bindings r ∧ bind_name b = name ∧ display_name (table c (bind_table b)) = t.
Proof.
  destruct (resolve_names_resolves s c r Hc Hr) as (sc & _ & Hf & _). destruct (select_bindings _ _ _ _ Hr Hcs) as [env Hb].
  intros name t. by eapply binding_tables.
Qed.

Lemma referenced_listed t name : listed m t name ↔ points_to bt (select_columns s) t name.
Proof.
  destruct (collects_select bt s (start_columns bt)) as [Hl _]. pose proof (start_listed bt t name).  rewrite Hl. naive_solver.
Qed.

Lemma bound_referenced b : b ∈ rs_bindings r → display_name (table c (bind_table b)) ∈ dom m.
Proof.
  intros Hb. destruct (collects_select bt s (start_columns bt)) as [_ Hd]. apply Hd. left. apply start_dom.
  exists (bind_name b). apply referenced_bindings. eauto.
Qed.

(** A column of the statement, under the name of its binding [b]. *)
Lemma bound_column b col : b ∈ rs_bindings r → col ∈ select_columns s → ident_value (cr_binding col) = bind_name b →
  ∃ t k sc, tables c !! bind_table b = Some t ∧ columns_by_name t !! ident_value (cr_column col) = Some k ∧ columns t !! k = Some sc
    ∧ referenced_column c (display_name t) (ident_value (cr_column col))
      = Some (mk_referenced_column (ident_value (cr_column col)) (declared_type_for_sql_type (col_type sc)) (col_nullability sc)).
Proof.
  intros Hb Hcol Hname. destruct (resolve_names_resolves s c r Hc Hr) as (sc0 & Hsc & Hf & Hres).
  destruct (Hres _ Hcol) as (i & b' & t & k & Hi & Hn & Ht & Hk).
  assert (b' = b) as ->.
  { apply list_elem_of_lookup_1 in Hb as [j Hj]. pose proof (Hf _ _ Hi). pose proof (Hf _ _ Hj). congruence. }
  pose proof (cat_tables _ Hc) as Hts. rewrite Forall_lookup in Hts. destruct (Hts _ _ Ht _ _ Hk) as (sc & Hs & _).
  exists t, k, sc. split_and!; [done|done|done|]. unfold referenced_column. rewrite (lookup_displayed _ _ _ _ Hnd Ht). unfold ColumnId in *. rewrite Hk. cbn. by rewrite Hs.
Qed.

Lemma referenced_column_total t name : points_to bt (select_columns s) t name → is_Some (referenced_column c t name).
Proof.
  intros (col & Hcol & Hbt & <-). apply referenced_bindings in Hbt as (b & Hb & Hname & <-).
  destruct (bound_column b col Hb Hcol (eq_sym Hname)) as (t & k & sc & Ht & _ & _ & Href). unfold table. rewrite Ht. cbn. eauto.
Qed.

Lemma referenced_table_total t : is_Some (referenced_table c m t).
Proof.
  unfold referenced_table. destruct (mapM_is_Some_2 (referenced_column c t) (sorted_names (elements (default ∅ (m !! t))))) as [l Hl]; [|by rewrite Hl; eexists].
  apply Forall_forall. intros name Hname. unfold sorted_names in Hname. rewrite merge_sort_Permutation, elem_of_elements in Hname.
  apply referenced_column_total, referenced_listed. destruct (m !! t) as [ns|] eqn:Ht; [by exists ns|by apply not_elem_of_empty in Hname].
Qed.

Lemma referenced_tables_total : ∃ ts, mapM (referenced_table c m) (sorted_names (elements (dom m))) = Some ts.
Proof. apply mapM_is_Some_2, Forall_forall. intros t _. apply referenced_table_total. Qed.

(** When all of them match, every binding stands for a table of the database, with the columns
    the statement uses. *)
Context `{live : !Live}.

Lemma referenced_match ts b : mapM (referenced_table c m) (sorted_names (elements (dom m))) = Some ts → Forall table_matches ts → b ∈ rs_bindings r →
  ∃ t oid actual, tables c !! bind_table b = Some t ∧ live_regclass (display_name t) = Ok (Some oid) ∧ live_attributes oid = Ok actual
    ∧ ∀ col, col ∈ select_columns s → ident_value (cr_binding col) = bind_name b →
      ∃ k sc, columns_by_name t !! ident_value (cr_column col) = Some k ∧ columns t !! k = Some sc
        ∧ column_matches actual (mk_referenced_column (ident_value (cr_column col)) (declared_type_for_sql_type (col_type sc)) (col_nullability sc)).
Proof.
  intros Hts%mapM_Some_1 Hmatch Hb. destruct (resolve_names_resolves s c r Hc Hr) as (sc0 & Hsc & _ & _).
  apply list_elem_of_lookup_1 in Hb as Hi. destruct Hi as [i Hi]. destruct (sc_bindings _ _ _ Hsc _ _ Hi) as [_ [t Ht]].
  pose proof (bound_referenced b Hb) as Hdom. unfold table in Hdom. rewrite Ht in Hdom. cbn in Hdom.
  assert (Hin : display_name t ∈ sorted_names (elements (dom m))) by (unfold sorted_names; by rewrite merge_sort_Permutation, elem_of_elements).
  apply list_elem_of_lookup_1 in Hin as [j Hj]. destruct (Forall2_lookup_l _ _ _ _ _ Hts Hj) as (rt & Hrt & Href).
  rewrite Forall_lookup in Hmatch. destruct (Hmatch _ _ Hrt) as (oid & actual & Hoid & Hactual & Hcols).
  apply bind_Some in Href as (rcs & Hrcs%mapM_Some_1 & [= <-]). cbn in *. exists t, oid, actual. split_and!; [done|done|done|].
  intros col Hcol Hname. destruct (bound_column b col Hb Hcol Hname) as (t' & k & sc & Ht' & Hk & Hs & Hrc). rewrite Ht in Ht'. injection Ht' as <-.
  exists k, sc. split_and!; [done|done|].
  assert (Hl : listed m (display_name t) (ident_value (cr_column col))).
  { apply referenced_listed. exists col. split_and!; [done| |done]. apply referenced_bindings. exists b. split_and!; [done|done|]. unfold table. by rewrite Ht. }
  destruct Hl as (ns & Hns & Hn). rewrite Hns in Hrcs. cbn in Hrcs.
  assert (Hin' : ident_value (cr_column col) ∈ sorted_names (elements ns)) by (unfold sorted_names; by rewrite merge_sort_Permutation, elem_of_elements).
  apply list_elem_of_lookup_1 in Hin' as [n Hnn]. destruct (Forall2_lookup_l _ _ _ _ _ Hrcs Hnn) as (rc & Hrc' & Hreq).
  rewrite Hrc in Hreq. injection Hreq as <-. rewrite Forall_lookup in Hcols. by eapply Hcols.
Qed.
End referenced.

(** ** The compiler *)
Lemma resolved_select c st checked : coherent st → resolve_statement st c = Ok checked →
  (∀ cs, cst_body checked = CSelect cs → ∃ s, as_select st = Some s ∧ resolve_select s c = Ok cs)
  ∧ (cst_kind checked = KQuery → ∃ cs, cst_body checked = CSelect cs).
Proof.
  intros Hst H. destruct Hst; unfold resolve_statement in H; cbn in H; apply result_bind_Ok in H as (x & Hx & [= <-]);
    (split; [by intros cs [= <-]; eexists|]); cbn; by eauto.
Qed.

Section compiling.
Context (to_lowercase : Z → list Z) (tokenize : str → result str (list Token)) (parse_statements : str → result str (list SpStatement)).
Context `{live : !Live} (environment : str → option bytes) (parse_config : str → result str unit).

Lemma source_normalised src parsed : parse_typed_sql_source to_lowercase tokenize parse_statements src = Ok parsed →
  ∃ ast st s, coherent st ∧ normalize_statement src ast Normalizer_new = (Ok st, s) ∧ parsed = ParsedSql_new src st.
Proof.
  unfold parse_typed_sql_source. intros (ast & _ & (st & Hst & [= <-])%result_bind_Ok)%result_bind_Ok. exists ast, st.
  destruct (normalize_statement src ast Normalizer_new) as [o s] eqn:Hn. cbn in Hst. subst o. exists s.
  split; [by eapply normalize_coherent|]. by split.
Qed.

Lemma verify_checked_total f st checked q : coherent st → resolve_statement st (fd_catalog f) = Ok checked →
  catalog_ok (fd_catalog f) → NoDup (map display_name (tables (fd_catalog f))) →
  ∃ o, verify_checked environment parse_config f (ParsedSql_new (fd_source f) st) checked q = Some o.
Proof.
  intros Hst Hres Hc Hnd. unfold verify_checked. destruct (cst_body checked) as [cs| | |] eqn:Hb; try by eexists.
  destruct (resolved_select _ _ _ Hst Hres) as [Hsel _]. destruct (Hsel _ Hb) as (s & Hs & Hcs). cbn [ps_select ParsedSql_new]. rewrite Hs.
  destruct (resolve_names s (fd_catalog f)) as [r|e] eqn:Hr; [|by unfold resolve_select in Hcs; rewrite Hr in Hcs].
  unfold verify_live_schema, collect_referenced_tables. cbn [ps_select ParsedSql_new]. rewrite Hs.
  destruct (referenced_tables_total _ _ _ _ Hc Hnd Hr Hcs) as [ts Hts]. rewrite Hts. cbn. by eexists.
Qed.

(** The codecs the lowering found are there again for the fields of a struct. *)
Lemma lower_runtime_codec_span t n sp sp' codec : lower_runtime_codec t n sp = Ok codec → lower_runtime_codec t n sp' = Ok codec.
Proof. unfold lower_runtime_codec. by destruct (base_codec t). Qed.

Lemma explicit_field_total name t n sp codec : lower_runtime_codec t n sp = Ok codec →
  explicit_field (name, t, n) = Some (name, codec_tokens codec, value_type_tokens codec).
Proof.
  intros H%(lower_runtime_codec_span _ _ _ None). unfold explicit_field, runtime_codec_tokens, runtime_value_type_tokens. cbn [fst snd]. by rewrite H.
Qed.

Lemma selection_total s tokens contract : Forall (λ x, is_Some (explicit_field x)) contract → is_Some (selection_codec_tokens s tokens contract).
Proof.
  intros H. destruct s as [|ty|]; cbn; try by eexists. unfold explicit_codec_tokens. apply mapM_is_Some_2 in H as [l Hl]. rewrite Hl. by eexists.
Qed.

Lemma selections_total parsed params projections renderer toggles q s : lower_dml parsed params projections renderer toggles = Ok q →
  is_Some (selection_parameter_codec_tokens s q) ∧ is_Some (selection_row_codec_tokens s q).
Proof.
  intros (ps & Hps%map_result_Ok & (cols & Hcols%map_result_Ok & [= <-])%result_bind_Ok)%result_bind_Ok.
  split; apply selection_total; unfold parameter_contract, row_contract; cbn [lq_parameters lq_columns]; apply List.Forall_map.
  - apply List.Forall_forall. intros lp Hlp%list_elem_of_In%list_elem_of_lookup_1. destruct Hlp as [i Hi].
    destruct (Forall2_lookup_r _ _ _ _ _ Hps Hi) as (p & _ & Hp). unfold lower_parameter in Hp.
    apply result_bind_Ok in Hp as (codec & Hcodec & [= <-]). eexists. by eapply explicit_field_total.
  - apply List.Forall_forall. intros lc Hlc%list_elem_of_In%list_elem_of_lookup_1. destruct Hlc as [i Hi].
    destruct (Forall2_lookup_r _ _ _ _ _ Hcols Hi) as (p & _ & Hp). unfold lower_projection in Hp.
    apply result_bind_Ok in Hp as (codec & Hcodec & [= <-]). eexists. by eapply explicit_field_total.
Qed.

Lemma emit_total q params row : lowered_wf q → is_Some (emit_with q params row).
Proof.
  intros Hwf. unfold emit_with. destruct (is_dynamic q); [|by eexists]. destruct (runtime_shapes q Hwf) as (shapes & Hs & _). rewrite Hs. by eexists.
Qed.

Lemma emit_query_total parsed params projections renderer toggles s q : lower_dml parsed params projections renderer toggles = Ok q → lowered_wf q →
  is_Some (emit_query_tokens s q) ∧ is_Some (emit_command_tokens s q).
Proof.
  intros Hq Hwf. pose proof (λ s, selections_total _ _ _ _ _ _ s Hq) as Hsel. split.
  - unfold emit_query_tokens. destruct (_ && _); [by eexists|]. destruct (enforce_strict_row_selection s q); [|by eexists].
    destruct (proj1 (Hsel (sl_params s))) as [ps ->]. destruct (proj2 (Hsel (sl_row s))) as [row ->]. cbn.
    destruct (emit_total q ps (Some row) Hwf) as [e ->]. by eexists.
  - unfold emit_command_tokens. destruct (negb _); [by eexists|]. destruct (_ && _); [by eexists|].
    destruct (proj1 (Hsel (sl_params s))) as [ps ->]. cbn. destruct (emit_total q ps None Hwf) as [e ->]. by eexists.
Qed.

(** Compiling a statement never panics.  Whatever the parser, the server and the environment
    answer, it ends with the statement to generate or with the message of an error: the body the
    lowering expects is there, every column of an accepted SELECT is found again in the catalog
    under the displayed name of the table of its binding, the fields of a given struct have
    codecs, and all the variants of a dynamic statement can be written.  Assumed of the statement
    are that its text has no placeholder of its own in it and that its names are optional
    everywhere or nowhere. *)
Theorem front_door_total kind schema selections sql source entry :
  utf8_valid sql = true → len sql < 2 ^ 32 → canonicalize sql = Ok source →
  (∀ parsed, parse_typed_sql_source to_lowercase tokenize parse_statements source = Ok parsed →
    statement_text_ok (rendered_of (ps_statement parsed)) ∧ regular (rendered_of (ps_statement parsed))) →
  ∃ o, compile_typed_query to_lowercase tokenize parse_statements environment parse_config kind schema selections source entry = Some o.
Proof.
  intros Hv Hlen Hsrc Hreg.
  unfold compile_typed_query. destruct (into_catalog schema) as [c|e] eqn:Hcat; [|by eexists]. apply into_catalog_ok in Hcat as [Hc Hnd].
  unfold compile_front_door. cbn [fd_source fd_catalog fd_selections].
  destruct (parse_typed_sql_source _ _ _ source) as [parsed|e] eqn:Hp; [cbn [map_err mbind result_bind]|by eexists].
  destruct (Hreg _ eq_refl) as [Htext Hregular]. destruct (source_normalised _ _ Hp) as (ast & st & s' & Hst & Hn & ->).
  cbn [ParsedSql_new ps_statement] in *.
  destruct (resolve_statement st c) as [checked|e] eqn:Hres; [cbn [map_err mbind result_bind]|by eexists].
  destruct (enforce_entrypoint_contract checked entry) as [[]|e]; [cbn [mbind result_bind]|by eexists].
  destruct (compiled_lowered _ _ _ _ _ _ _ Hv Hlen Hsrc Hn Hres) as (o & Ho & Hwf).
  destruct (lower_coherent c source st checked Hst Hres) as (projections & toggles & Hl).
  rewrite Ho. rewrite Ho in Hl. injection Hl as ->.
  destruct (lower_dml _ _ _ _ _) as [q|e] eqn:Hq; [|by eexists]. destruct (Hwf q eq_refl Htext Hregular) as [Hwfq _].
  destruct (verify_checked_total (mk_front_door kind c selections source) st checked q Hst Hres Hc Hnd) as [[[]|e] Hver];
    cbn [fd_source] in Hver; rewrite Hver; [|by eexists].
  destruct (emit_query_total _ _ _ _ _ selections q Hq Hwfq) as [[eq Heq] [ec Hec]]. destruct (cst_result checked); by eexists.
Qed.

(** What an accepted SELECT was checked for. *)
Definition live_binding (c : SchemaCatalog) (s : ParsedSelect) (b : ResolvedBinding) : Prop :=
  ∃ t oid actual, tables c !! bind_table b = Some t ∧ live_regclass (display_name t) = Ok (Some oid) ∧ live_attributes oid = Ok actual
    ∧ ∀ col, col ∈ select_columns s → ident_value (cr_binding col) = bind_name b →
      ∃ k sc, columns_by_name t !! ident_value (cr_column col) = Some k ∧ columns t !! k = Some sc
        ∧ column_matches actual (mk_referenced_column (ident_value (cr_column col)) (declared_type_for_sql_type (col_type sc)) (col_nullability sc)).

Definition checked_live (schema : list BridgeTable) (source : SqlSource) (q : LoweredQuery) : Prop :=
  ∃ c parsed s r, into_catalog schema = Ok c ∧ parse_typed_sql_source to_lowercase tokenize parse_statements source = Ok parsed
    ∧ ps_select parsed = Some s ∧ resolve_names s c = Ok r ∧ Forall (live_binding c s) (rs_bindings r)
    ∧ described_as (lq_sql q) (map (λ p, declared_type_for_sql_type (lp_type p)) (lq_parameters q))
        (Some (map (λ c, declared_type_for_sql_type (lc_type c)) (lq_columns q))).

End compiling.

(** ** An instance *)
Local Open Scope str_scope.

Definition demo_schema : list BridgeTable := [mk_bridge_table None "users" [mk_bridge_column "id" (Base "int4"); mk_bridge_column "name" (BridgeNullable "text")]].
Definition demo_sql : str := "SELECT u.id FROM users u WHERE u.id = $id".
Definition demo_tree : SpStatement :=
  select_u_id (EBinary (sp_column "u"%s "id"%s 31) BoEq (EValue (VPlaceholder "$1"%s) (sp_at 38 40)) (sp_at 31 40)) None 40.
Definition demo_tokenize (_ : str) : result str (list Token) := Ok [].
Definition demo_parse (_ : str) : result str (list SpStatement) := Ok [demo_tree].
Definition demo_live (columns : list TableColumnMetadata) : Live := {|
  live_connect _ := Ok tt;
  live_prepare sql :=
    if bool_decide (sql = "SELECT u.id FROM users AS u WHERE (u.id = $1)")
    then Ok (mk_statement_meta [mk_type_meta 23 "int4"] [mk_column_meta "id" (mk_type_meta 23 "int4")])
    else Err (mk_pg_error "db error" None);
  live_regclass name := Ok (if bool_decide (name = "users") then Some 16384 else None);
  live_attributes _ := Ok columns;
|}.
Definition demo_compile (columns : list TableColumnMetadata) (entry : MacroEntrypoint) : Outcome Emitted :=
  compile_typed_query (live := demo_live columns) (λ z, [z]) demo_tokenize demo_parse sample_environment any_config Inline demo_schema selections_default
    (source_of demo_sql) entry.


(** A live column that may hold NULL where the declaration says otherwise, and the wrong macro. *)
Example demo_refused :
  demo_compile [mk_table_column "id" (mk_type_meta 23 "int4") Nullable] EntryQuery
  = Some (Err ("compile-time SQL verification schema mismatch: referenced authored schema column `users.id` has live nullability nullable but the authored schema expects NOT NULL" : str)).
Proof. vm_compute. reflexivity. Qed.
Example demo_command :
  demo_compile sample_columns EntryCommand
  = Some (Err ("command! now accepts only schema-aware INSERT, UPDATE, or DELETE statements; use query! for typed SELECT statements" : str)).
Proof. vm_compute. reflexivity. Qed.

(** A statement with an optional group, which has two variants. *)
Lemma front_door_total_witness :
  ∃ e, compile_typed_query (live := demo_live sample_columns) (λ z, [z]) demo_tokenize (λ _, Ok [example_ast]) (λ _, None) any_config Inline demo_schema
      selections_default (source_of example_sql) EntryQuery = Some (Ok e) ∧ length (default [] (em_shapes e)) = 2%nat.
Proof.
  destruct (front_door_total (λ z, [z]) demo_tokenize (λ _, Ok [example_ast]) (live := demo_live sample_columns) (λ _, None) any_config Inline demo_schema
    selections_default example_sql (source_of example_sql) EntryQuery) as [o Ho]; [vm_compute; reflexivity..| |].
  - intros parsed H. vm_compute in H. injection H as <-. split.
    + split; vm_compute; repeat constructor.
    + apply mandatory_regular. vm_compute. reflexivity.
  - destruct o as [e|err]; [|exfalso; vm_compute in Ho; discriminate]. exists e. split; [exact Ho|].
    vm_compute in Ho. injection Ho as <-. vm_compute. reflexivity.
Defined.

(** A number in a literal of a dynamic statement is taken for a placeholder when its variants are
    written: no argument has it, and the macro panics. *)
Definition literal_sql : str := "SELECT u.id FROM users u WHERE u.name = '$9' AND (u.id = $id)?".
Definition literal_tree : SpStatement :=
  select_u_id (EBinary (EBinary (sp_column "u"%s "name"%s 31) BoEq (EValue (VString "$9"%s) (sp_at 40 44)) (sp_at 31 44)) BoAnd
    (ENested (EBinary (sp_column "u"%s "id"%s 50) BoEq (EValue (VPlaceholder "$1"%s) (sp_at 57 59)) (sp_at 50 59)) (sp_at 50 59)) (sp_at 31 59)) None 60.
Example literal_panics :
  compile_typed_query (live := demo_live sample_columns) (λ z, [z]) demo_tokenize (λ _, Ok [literal_tree]) (λ _, None) any_config Inline demo_schema
    selections_default (source_of literal_sql) EntryQuery = None.
Proof. vm_compute. reflexivity. Qed.
