(* ===== verification/MacroEntry.v ===== *)
(** * The entry of [query!] and [command!]

    [crates/macros/src/lib.rs] ([query], [command], [expand_public_typed_macro]) and the entry
    points of [crates/macros/src/typed_sql/public_schema.rs]: from the tokens of a call to the
    front door of [FrontDoor.v], and the wrappers that [schema!] generates around it.

    The arguments before the SQL are what syn's parser gives; the SQL itself is a token stream
    ([PublicInput.v]).  The result is what is generated or the message of the compile error;
    [None] is a panic. *)
From S2P Require Import Prelude Bytes Text Types SqlIr SqlSource SqlSourceFacts Resolver Lower LowerFacts Normalize NormalizeFacts Pipeline SqlMacro Verify SchemaDef SchemaDecl SchemaDeclFacts PublicInput FrontDoor FrontDoorFacts.

Local Open Scope Z_scope.
Local Open Scope str_scope.

Section entry.
Context {Span : Type} (call_site : Span) (join : Span → Span → option Span).
Abbreviation Stream := (TokenStream Span).

(** ** Arguments *)

(** Drops a comma that is the last token. *)
Fixpoint trim_optional_trailing_comma (tokens : Stream) : Stream :=
  match tokens with
  | TNil => TNil
  | TCons (TPunct ch sp) TNil => if byte_is ch 44 then TNil else tokens
  | TCons t rest => TCons t (trim_optional_trailing_comma rest)
  end.

(** The first token when it is an identifier, and whether [=] follows it. *)
Definition sql_head (tokens : Stream) : option (str * bool) :=
  match tokens with
  | TCons (TIdent ident _) rest => Some (ident, match rest with TCons (TPunct ch _) _ => byte_is ch 61 | _ => false end)
  | _ => None
  end.

(** The tokens of a call as syn takes them apart: the identifier it starts with, the tables of
    the braces after [=] or the error of reading them, the selections and whether a comma follows
    the last of them, and the tokens that are left. *)
Record FrontDoorSyntax := mk_syntax {
  fs_keyword : str; fs_schema : result str (list BridgeTable); fs_selections : list (SelectionKey * option str); fs_comma : bool; fs_sql : Stream;
}.

Record TypedSqlFrontDoorInput := mk_front_door_input {
  fi_kind : SchemaSourceKind; fi_schema : list BridgeTable; fi_selections : TypedSqlSelections; fi_sql : PublicSqlInput (Span := Span);
}.

(** [impl Parse for TypedSqlFrontDoorInput] *)
Definition parse_front_door (s : FrontDoorSyntax) : result str TypedSqlFrontDoorInput :=
  kind ← (if bool_decide (fs_keyword s = "schema") then Ok Inline
          else if bool_decide (fs_keyword s = "__babar_schema") then Ok AuthoredBridge
          else Err ("expected `schema = { ... }` before schema-aware SQL" : str));
  schema ← fs_schema s;
  selections ← parse_typed_sql_selections (fs_selections s) (fs_comma s) selections_default;
  let tokens := trim_optional_trailing_comma (fs_sql s) in
  _ ← reject_extra_schema_argument (sql_head tokens) kind;
  sql ← map_err sy_message (public_parse call_site join tokens);
  Ok (mk_front_door_input kind schema selections sql).

(** ** The macros *)

(** The argument of [query!] or [command!]: whether the old form with explicit codecs accepts it,
    its first token when that is an identifier, and what it is as a schema-aware call. *)
Record MacroCall := mk_call { mc_legacy : bool; mc_first_ident : option str; mc_syntax : FrontDoorSyntax }.

Definition macro_name (entry : MacroEntrypoint) : str := match entry with EntryQuery => "query" | EntryCommand => "command" end.
Definition inline_example (entry : MacroEntrypoint) : str :=
  match entry with EntryQuery => "SELECT ..." | EntryCommand => "INSERT/UPDATE/DELETE ..." end.
Definition schema_wrapper (entry : MacroEntrypoint) : str :=
  match entry with EntryQuery => "app_schema::query!(...)" | EntryCommand => "app_schema::command!(...)" end.
(** The example each macro passes; [x22] is a double quote. *)
Definition legacy_example (entry : MacroEntrypoint) : str :=
  match entry with
  | EntryQuery => "`query!(" ++ [x22] ++ "..." ++ [x22] ++ ", params = ..., row = ...)`"
  | EntryCommand => "`command!(" ++ [x22] ++ "..." ++ [x22] ++ ", params = ...)`"
  end.

Definition legacy_message (entry : MacroEntrypoint) : str :=
  "`" ++ macro_name entry ++ "!` no longer accepts the old explicit-codec form " ++ legacy_example entry
  ++ "; use schema-aware typed SQL (`" ++ macro_name entry ++ "!(schema = { ... }, " ++ inline_example entry
  ++ ")`) or an authored schema wrapper like `" ++ schema_wrapper entry
  ++ "`. For unsupported statements, use `Query::raw` / `Command::raw`.".
Definition schema_message (entry : MacroEntrypoint) : str :=
  "`" ++ macro_name entry ++ "!` now expects schema-aware typed SQL. Start with `schema = { ... }` for inline examples/tests, or use a schema-scoped wrapper like `"
  ++ schema_wrapper entry ++ "`. Use `Query::raw` / `Command::raw` for explicit raw fallbacks.".

Context (to_lowercase : Z → list Z) (tokenize : str → result str (list Token)) (parse_statements : str → result str (list SpStatement)).
Context `{live : !Live} (environment : str → option bytes) (parse_config : str → result str unit).

(** [expand_query] and [expand_command]; [rewrite_entrypoint_error] keeps the message. *)
Definition expand_typed (s : FrontDoorSyntax) (entry : MacroEntrypoint) : Outcome Emitted :=
  match parse_front_door s with
  | Err e => Some (Err e)
  | Ok i => compile_typed_query to_lowercase tokenize parse_statements environment parse_config
              (fi_kind i) (fi_schema i) (fi_selections i) (pi_source (fi_sql i)) entry
  end.

Definition expand_public_typed_macro (c : MacroCall) (entry : MacroEntrypoint) : Outcome Emitted :=
  if mc_legacy c then Some (Err (legacy_message entry))
  else
    match mc_first_ident c with
    | Some ident =>
      if bool_decide (ident = "schema") || bool_decide (ident = "__babar_schema") then expand_typed (mc_syntax c) entry
      else Some (Err (schema_message entry))
    | None => Some (Err (schema_message entry))
    end.

(** The macro that a [schema!] module defines: the call it expands to. *)
Definition wrapper_call (m : SchemaModule) (selections : list (SelectionKey * option str)) (comma : bool) (sql : Stream) : MacroCall :=
  mk_call false (Some ("__babar_schema" : str)) (mk_syntax "__babar_schema" (Ok (mod_bridge m)) selections comma sql).
End entry.
Arguments mk_syntax {Span}. Arguments mk_call {Span}.

(** ** Facts *)
Section facts.
Context {Span : Type} (call_site : Span) (join : Span → Span → option Span).

Lemma trim_valid (tokens : TokenStream Span) : tokens_valid tokens → tokens_valid (trim_optional_trailing_comma tokens).
Proof.
  revert tokens. fix IH 1. intros [|t rest]; [done|]. intros [Ht Hrest]. specialize (IH rest Hrest).
  destruct t as [| | |ch sp]; try by split. destruct rest; [|by split]. cbn. destruct (byte_is ch 44); [done|by split].
Qed.

(** A comma is dropped at the end, and nothing else. *)
Lemma trim_spec (tokens : TokenStream Span) :
  trim_optional_trailing_comma tokens = tokens
  ∨ ∃ before sp, tokens = tokens_of_list (before ++ [TPunct x2c sp]) ∧ trim_optional_trailing_comma tokens = tokens_of_list before.
Proof.
  assert (Hstep : ∀ (t : TokenTree Span) rest, trim_optional_trailing_comma (TCons t rest) = TCons t (trim_optional_trailing_comma rest)
    ∨ ∃ sp, t = TPunct x2c sp ∧ rest = TNil ∧ trim_optional_trailing_comma (TCons t rest) = TNil).
  { intros [| | |ch sp] rest; try (by left). destruct rest; [|by left]. cbn. destruct (byte_is ch 44) eqn:E; [|by left]. right. exists sp.
    apply Z.eqb_eq in E. by rewrite <- (byte_of_u8_of ch), E. }
  revert tokens. fix IH 1. intros [|t rest]; [by left|]. destruct (Hstep t rest) as [->|(sp & -> & -> & ->)].
  - destruct (IH rest) as [->|(before & sp & -> & ->)]; [by left|]. right. by exists (t :: before), sp.
  - right. by exists [], sp.
Qed.

Context (to_lowercase : Z → list Z) (tokenize : str → result str (list Token)) (parse_statements : str → result str (list SpStatement)).
Context `{live : !Live} (environment : str → option bytes) (parse_config : str → result str unit).
Abbreviation expand := (expand_public_typed_macro call_site join to_lowercase tokenize parse_statements environment parse_config).

(** What is assumed of the statement a source parses to. *)
Definition plain_source (source : SqlSource) : Prop :=
  ∀ parsed, parse_typed_sql_source to_lowercase tokenize parse_statements source = Ok parsed →
    statement_text_ok (rendered_of (ps_statement parsed)) ∧ regular (rendered_of (ps_statement parsed)).

Lemma expand_typed_total (s : FrontDoorSyntax) entry : tokens_valid (fs_sql s) →
  (∀ i, public_parse call_site join (trim_optional_trailing_comma (fs_sql s)) = Ok i → plain_source (pi_source i)) →
  ∃ o, expand_typed call_site join to_lowercase tokenize parse_statements environment parse_config s entry = Some o.
Proof.
  intros Hv Hreg. unfold expand_typed. destruct (parse_front_door call_site join s) as [i|e] eqn:Hi; [|by eexists].
  unfold parse_front_door in Hi. apply result_bind_Ok in Hi as (kind & _ & Hi). apply result_bind_Ok in Hi as (schema & _ & Hi).
  apply result_bind_Ok in Hi as (sel & _ & Hi). apply result_bind_Ok in Hi as (u & _ & Hi). apply result_bind_Ok in Hi as (sql & Hsql & [= <-]).
  rewrite map_err_Ok in Hsql. cbn. destruct (public_parse_source _ _ _ _ (trim_valid _ Hv) Hsql) as (text & Hu & Hl & Hc).
  eapply front_door_total; [exact Hu|exact Hl|exact Hc|]. exact (Hreg _ Hsql).
Qed.

(** A call of a schema module's macro is a statement compiled against the tables of the module. *)
Lemma wrapper_expands m selections comma sql entry sel i :
  parse_typed_sql_selections selections comma selections_default = Ok sel →
  reject_extra_schema_argument (sql_head (trim_optional_trailing_comma sql)) AuthoredBridge = Ok tt →
  public_parse call_site join (trim_optional_trailing_comma sql) = Ok i →
  expand (wrapper_call m selections comma sql) entry
  = compile_typed_query to_lowercase tokenize parse_statements environment parse_config AuthoredBridge (mod_bridge m) sel (pi_source i) entry.
Proof.
  intros Hsel Hextra Hi. unfold expand_public_typed_macro. cbn [wrapper_call mc_legacy mc_first_ident mc_syntax].
  rewrite (bool_decide_eq_true_2 (("__babar_schema" : str) = "__babar_schema")), orb_true_r by done.
  unfold expand_typed, parse_front_door. cbn [fs_keyword fs_schema fs_selections fs_comma fs_sql].
  rewrite bool_decide_eq_false_2, bool_decide_eq_true_2 by done. cbn [mbind result_bind].
  rewrite Hsel. cbn [mbind result_bind]. rewrite Hextra. cbn [mbind result_bind]. by rewrite Hi.
Qed.

End facts.

(** ** Examples *)
Definition shop_tables : list SchemaTableInput :=
  [mk_table_input None "users" [mk_column_input "id" (sample_type (TyMarker "pk" (TyName "int4") false));
                                mk_column_input "name" (sample_type (TyMarker "nullable" (TyName "text") false))]].
Definition shop : SchemaModule := default (mk_schema_module [] [] [] []) (to_option (compile_schema_module shop_tables)).
Definition shop_call (sql : list (TokenTree nat)) (entry : MacroEntrypoint) : Outcome Emitted :=
  expand_public_typed_macro 0%nat (λ _ _, None) (live := demo_live sample_columns) (λ z, [z]) demo_tokenize (λ _, Ok [example_ast]) (λ _, None) any_config
    (wrapper_call shop [] false (tokens_of_list sql)) entry.
Definition shop_sql : list (TokenTree nat) := [TLiteral "l" (LitStr example_sql) 1%nat; TPunct x2c 2%nat].


(** The schema given twice, a statement of the other kind, and no statement. *)
Example shop_extra_schema : shop_call [TIdent "schema" 1%nat; TPunct x3d 2%nat] EntryQuery
  = Some (Err ("schema-scoped wrapper already supplies the schema; inline `schema = { ... }` blocks cannot be mixed into this call" : str)).
Proof. vm_compute. reflexivity. Qed.
Example shop_command : shop_call shop_sql EntryCommand
  = Some (Err ("command! now accepts only schema-aware INSERT, UPDATE, or DELETE statements; use query! for typed SELECT statements" : str)).
Proof. vm_compute. reflexivity. Qed.
Example shop_nothing : shop_call [TPunct x2c 1%nat] EntryQuery = Some (Err ("typed_sql v1 expects SQL tokens" : str)).
Proof. vm_compute. reflexivity. Qed.
