(* ===== verification/TextCodecs.v ===== *)
(** * Codecs that speak the text format: [codec/bits.rs], [codec/macaddr.rs], [codec/hstore.rs]

    Bit strings keep their packed bytes and their length in bits; MAC addresses are their
    octets; an hstore is an ordered map from keys to optional values.  The three are sent and
    read as text. *)
From S2P Require Import Prelude Bytes Text Error Types Codec BTree.

Local Open Scope Z_scope.
Local Open Scope str_scope.
#[local] Arguments Nat.modulo : simpl never.
#[local] Arguments Nat.div : simpl never.

(** ** Shared: the column as text *)
Definition text_column (kind : str) (columns : Slots) : result Error str :=
  match columns with
  | [] => Err (Error.Codec (kind ++ ": decoder needs 1 column, got 0"))
  | None :: _ => Err (Error.Codec (kind ++ ": unexpected NULL; use nullable() to allow it"))
  | Some b :: _ => map_err (λ e, Error.Codec (kind ++ ": column not UTF-8: " ++ utf8_error_text e)) (from_utf8 b)
  end.

(** ** Bit strings *)
Record BitString := mk_bits { bs_bytes : bytes; bit_len : nat }.

#[export] Instance BitString_eq_dec : EqDecision BitString.
Proof. solve_decision. Defined.

Definition from_bytes (bs : bytes) (len : nat) : result Error BitString :=
  if (length bs * 8 <? len)%nat then
    Err (Error.Codec ("bit string: declared length " ++ Text.dec (Z.of_nat len)
      ++ " exceeds backing storage of " ++ Text.dec (Z.of_nat (length bs * 8)) ++ " bits"))
  else
    let trailing := Z.of_nat (len mod 8) in
    if trailing =? 0 then Ok (mk_bits bs len)
    else
      let mask := Z.shiftl 1 (8 - trailing) - 1 in
      match list.last bs with
      | None => Err (Error.Codec "bit string: missing final byte")
      | Some b =>
        if negb (Z.land (u8_of b) mask =? 0) then
          Err (Error.Codec "bit string: unused trailing bits must be zero")
        else Ok (mk_bits bs len)
      end.

(** [bytes[index / 8] |= 1 << (7 - index % 8)] *)
Definition set_bit (bs : bytes) (index : nat) : bytes :=
  alter (λ b, byte_of (Z.lor (u8_of b) (Z.shiftl 1 (7 - Z.of_nat (index mod 8))))) (index / 8)%nat bs.

(** [{:?}] of [byte as char]: as in a string, except that the single quote is the one escaped.
    A byte above 127 is the character of that code: the controls and the soft hyphen are
    escaped, the others are two bytes of UTF-8. *)
Definition debug_latin1 (b : byte) : str :=
  let x := u8_of b in
  [x27] ++ (if x =? 39 then [x5c; x27] else if x =? 34 then [x22]
            else if x <? 128 then debug_byte b
            else if (x <? 160) || (x =? 173) then "\u{" ++ hex2 b ++ "}"
            else encode_char x) ++ [x27].

Fixpoint set_bits (bs : bytes) (index : nat) (text : str) : result Error bytes :=
  match text with
  | [] => Ok bs
  | c :: text =>
    if byte_is c 48 then set_bits bs (S index) text
    else if byte_is c 49 then set_bits (set_bit bs index) (S index) text
    else Err (Error.Codec ("bit string: invalid character " ++ debug_latin1 c
                           ++ "; expected only '0' or '1'"))
  end.

Definition div_ceil (a b : nat) : nat := ((a + (b - 1)) / b)%nat.

Definition from_text (text : str) : result Error BitString :=
  bs ← set_bits (replicate (div_ceil (length text) 8) x00) 0 text;
  from_bytes bs (length text).

(** [get]; on a value built by [from_bytes] the byte exists whenever [index < bit_len]. *)
Definition get (b : BitString) (index : nat) : option bool :=
  if (bit_len b <=? index)%nat then None
  else x ← bs_bytes b !! (index / 8)%nat;
       let mask := Z.shiftl 1 (7 - Z.of_nat (index mod 8)) in
       Some (negb (Z.land (u8_of x) mask =? 0)).

Definition to_bit_text (b : BitString) : str :=
  map (λ index, if default false (get b index) then x31 else x30) (seq 0 (bit_len b)).

Definition bits_decode (kind : str) (columns : Slots) : result Error BitString :=
  text ← text_column kind columns;
  map_err (λ e, Error.Codec (kind ++ ": " ++ Error_display e)) (from_text text).

Definition bit : Codec BitString := scalar BIT FORMAT_TEXT to_bit_text (bits_decode "bit").
Definition varbit : Codec BitString := scalar VARBIT FORMAT_TEXT to_bit_text (bits_decode "varbit").

(** ** MAC addresses: [MacAddr] and [MacAddr8] are their octets *)
Definition write_mac_octets (bs : bytes) : str := join ":" (map hex2 bs).

Definition parse_octet (part : str) : result str byte :=
  if negb (length part =? 2)%nat then
    Err ("invalid octet " ++ debug_str part ++ "; expected exactly two hex digits")
  else byte_of <$> map_err (λ _, "invalid octet " ++ debug_str part ++ "; expected hexadecimal digits")
                     (parse_uint 8 16 part).

Definition parse_mac (n : nat) (text : str) : result str bytes :=
  separator ← (if contains ":" text then Ok x3a
               else if contains "-" text then Ok x2d
               else Err ("expected " ++ Text.dec (Z.of_nat n)
                         ++ " hexadecimal octets separated by ':' or '-'"));
  let parts := split_byte separator text in
  if negb (length parts =? n)%nat then
    Err ("expected " ++ Text.dec (Z.of_nat n) ++ " hexadecimal octets, got "
         ++ Text.dec (Z.of_nat (length parts)) ++ " in " ++ debug_str text)
  else map_result parse_octet parts.

Definition mac_decode (n : nat) (kind : str) (columns : Slots) : result Error bytes :=
  text ← text_column kind columns;
  map_err (λ e, Error.Codec (kind ++ ": " ++ e)) (parse_mac n text).

Definition macaddr : Codec bytes := scalar MACADDR FORMAT_TEXT write_mac_octets (mac_decode 6 "macaddr").
Definition macaddr8 : Codec bytes := scalar MACADDR8 FORMAT_TEXT write_mac_octets (mac_decode 8 "macaddr8").

(** ** hstore *)
Definition Hstore := list (str * option str).

Definition Hstore_new : Hstore := [].
(** [Hstore::insert] answers the previous value. *)
Definition Hstore_insert (m : Hstore) (key : str) (value : option str) : Hstore * option (option str) :=
  (bt_insert key value m, bt_get key m).

Definition push_quoted (text : str) : str :=
  [x22] ++ concat (map (λ b, if bool_decide (b = x22 ∨ b = x5c) then [x5c; b] else [b]) text) ++ [x22].

Definition hstore_entry (x : str * option str) : str :=
  push_quoted x.1 ++ "=>" ++ match x.2 with Some text => push_quoted text | None => "NULL" end.

Definition encode_hstore_text (value : Hstore) : str := join ", " (map hstore_entry value).

(** The parser's cursor into [bytes] is the part of [bytes] that is left. *)
Fixpoint skip_ws (rest : bytes) : bytes :=
  match rest with
  | b :: rest' => if bool_decide (b ∈ [x20; x09; x0a; x0d]) then skip_ws rest' else rest
  | [] => []
  end.

Definition expect (token rest : bytes) : result str bytes :=
  match strip_prefix token rest with
  | Some rest => Ok rest
  | None => Err ("expected " ++ debug_str token)
  end.

Fixpoint quoted_body (out rest : bytes) : result str (str * bytes) :=
  match rest with
  | [] => Err "unterminated quoted string"
  | b :: rest =>
    if bool_decide (b = x22) then
      match from_utf8 out with
      | Ok s => Ok (s, rest)
      | Err _ => Err "quoted hstore value was not valid UTF-8"
      end
    else if bool_decide (b = x5c) then
      match rest with
      | [] => Err "unterminated escape"
      | escaped :: rest => quoted_body (out ++ [escaped]) rest
      end
    else quoted_body (out ++ [b]) rest
  end.

Definition parse_quoted (rest : bytes) : result str (str * bytes) :=
  match rest with
  | x22 :: rest => quoted_body [] rest
  | _ => Err "expected opening quote"
  end.

(** One entry: the key, [=>], and a quoted value or [NULL]. *)
Definition parse_entry (rest : bytes) : result str (str * option str * bytes) :=
  '(key, rest) ← parse_quoted rest;
  let rest := skip_ws rest in
  rest ← expect "=" rest;
  rest ← expect ">" rest;
  let rest := skip_ws rest in
  '(value, rest) ← (match rest with
                    | "N"%byte :: _ => rest ← expect "NULL" rest; Ok (None, rest)
                    | _ => '(s, rest) ← parse_quoted rest; Ok (Some s, rest)
                    end);
  Ok (key, value, rest).

(** The loop; [None] only when the fuel runs out. *)
Fixpoint hstore_loop (fuel : nat) (out : Hstore) (rest : bytes) : option (result str Hstore) :=
  match fuel with
  | O => None
  | S fuel =>
    match rest with
    | [] => Some (Ok out)
    | _ =>
      match parse_entry rest with
      | Err e => Some (Err e)
      | Ok (key, value, rest) =>
        let out := bt_insert key value out in
        match skip_ws rest with
        | [] => Some (Ok out)
        | rest =>
          match expect "," rest with
          | Err e => Some (Err e)
          | Ok rest => hstore_loop fuel out (skip_ws rest)
          end
        end
      end
    end
  end.

Definition parse_hstore_text (text : str) : option (result str Hstore) :=
  match skip_ws text with
  | [] => Some (Ok Hstore_new)
  | rest => hstore_loop (S (length rest)) [] rest
  end.

Definition hstore_decode (columns : Slots) : result Error Hstore :=
  text ← text_column "hstore" columns;
  map_err (λ e, Error.Codec ("hstore: " ++ e))
    (default (Err "the loop does not end") (parse_hstore_text text)).

Definition hstore : Codec Hstore :=
  mk_codec
    (mk_encoder (λ m, push (Some (encode_hstore_text m))) [0] [HSTORE_TYPE] [FORMAT_TEXT])
    (mk_decoder hstore_decode 1 [0] [HSTORE_TYPE] [FORMAT_TEXT]).

(** ** The text column *)
Lemma text_column_valid kind s rest :
  utf8_valid s = true → text_column kind (Some s :: rest) = Ok s.
Proof. intros Hs. cbn. by rewrite (proj2 (from_utf8_Ok s s) (conj eq_refl Hs)). Qed.

(** ** Bits of a packed buffer *)
Definition bit_at (bs : bytes) (i : nat) : bool :=
  match bs !! (i / 8)%nat with
  | Some b => Z.testbit (u8_of b) (7 - Z.of_nat (i mod 8))
  | None => false
  end.

Section bits.
Implicit Types (bs : bytes) (i j : nat) (x k : Z).

Lemma mask_testbit x k : 0 ≤ k → negb (Z.land x (Z.shiftl 1 k) =? 0) = Z.testbit x k.
Proof.
  intros Hk. rewrite Z.shiftl_1_l. destruct (Z.testbit x k) eqn:Hb.
  - apply negb_true_iff, Z.eqb_neq. intros H0. apply (f_equal (λ z, Z.testbit z k)) in H0.
    rewrite Z.land_spec, Z.pow2_bits_true, Hb, Z.bits_0 in H0 by done. done.
  - apply negb_false_iff, Z.eqb_eq. apply Z.bits_inj'. intros n Hn.
    rewrite Z.land_spec, Z.bits_0, Z.pow2_bits_eqb by done.
    destruct (Z.eqb_spec k n); [subst; by rewrite Hb | by rewrite andb_false_r].
Qed.

Lemma slot_range i : 0 ≤ 7 - Z.of_nat (i mod 8) < 8.
Proof. pose proof (Nat.mod_upper_bound i 8 ltac:(lia)). lia. Qed.

Lemma small_high_bits x n : 0 ≤ x < 256 → 8 ≤ n → Z.testbit x n = false.
Proof.
  intros Hx Hn. rewrite <- (Z.mod_small x (2 ^ 8)) by lia. apply Z.mod_pow2_bits_high. lia.
Qed.

Lemma high_bits_small x : (∀ n, 8 ≤ n → Z.testbit x n = false) → 0 ≤ x < 256.
Proof.
  intros Hx. assert (x = x mod 2 ^ 8) as ->; [|apply Z.mod_pos_bound; lia].
  apply Z.bits_inj'. intros n Hn. destruct (Z.lt_ge_cases n 8).
  - by rewrite Z.mod_pow2_bits_low.
  - rewrite Z.mod_pow2_bits_high by lia. auto.
Qed.

(** [bytes[byte] |= 1 << bit_offset] sets that bit and no other. *)
Lemma bit_at_set bs i j : (i / 8 < length bs)%nat →
  bit_at (set_bit bs i) j = (i =? j)%nat || bit_at bs j.
Proof.
  intros Hlt. unfold bit_at, set_bit.
  destruct (lookup_lt_is_Some_2 bs (i / 8)%nat Hlt) as [b Hb].
  pose proof (u8_of_range b). pose proof (slot_range i). pose proof (slot_range j).
  assert (0 ≤ Z.lor (u8_of b) (Z.shiftl 1 (7 - Z.of_nat (i mod 8))) < 256) as Hr.
  { apply high_bits_small. intros n Hn. rewrite Z.shiftl_1_l, Z.lor_spec, Z.pow2_bits_eqb by lia.
    rewrite small_high_bits by done. apply Z.eqb_neq. lia. }
  destruct (decide (i / 8 = j / 8)%nat) as [He|Hne].
  - rewrite <- He, list_lookup_alter_eq, Hb. cbn. rewrite u8_of_byte_of by done.
    rewrite Z.lor_spec, Z.shiftl_1_l, Z.pow2_bits_eqb by lia. rewrite orb_comm. f_equal.
    destruct (Nat.eqb_spec i j) as [->|Hij]; [by rewrite Z.eqb_refl|].
    apply Z.eqb_neq. intros Hs. apply Hij.
    pose proof (Nat.div_mod_eq i 8). pose proof (Nat.div_mod_eq j 8). lia.
  - rewrite list_lookup_alter_ne by done.
    destruct (Nat.eqb_spec i j) as [->|Hij]; [done | done].
Qed.

Lemma length_set_bit bs i : length (set_bit bs i) = length bs.
Proof. apply length_alter. Qed.

(** Equal bits, equal buffers. *)
Lemma bit_at_ext bs1 bs2 :
  length bs1 = length bs2 → (∀ i, bit_at bs1 i = bit_at bs2 i) → bs1 = bs2.
Proof.
  intros Hl Hb. apply list_eq_same_length with (length bs1); [done..|].
  intros i b1 b2 Hi H1 H2. apply u8_of_inj, Z.bits_inj'. intros n Hn.
  pose proof (u8_of_range b1). pose proof (u8_of_range b2).
  destruct (Z.lt_ge_cases n 8) as [Hn8|Hn8].
  - specialize (Hb (8 * i + Z.to_nat (7 - n)))%nat. unfold bit_at in Hb.
    assert ((8 * i + Z.to_nat (7 - n)) / 8 = i)%nat as Hq.
    { rewrite Nat.mul_comm, Nat.div_add_l by lia. rewrite Nat.div_small by lia. lia. }
    assert ((8 * i + Z.to_nat (7 - n)) mod 8 = Z.to_nat (7 - n))%nat as Hm.
    { rewrite Nat.add_comm, Nat.mul_comm, Nat.Div0.mod_add. apply Nat.mod_small. lia. }
    rewrite Hq, Hm, H1, H2 in Hb. by replace (7 - Z.of_nat (Z.to_nat (7 - n))) with n in Hb by lia.
  - by rewrite !small_high_bits.
Qed.

Lemma bit_at_zero n i : bit_at (replicate n x00) i = false.
Proof.
  unfold bit_at. destruct (replicate n x00 !! (i / 8)%nat) eqn:Hl; [|done].
  apply lookup_replicate in Hl as [-> _]. apply Z.bits_0.
Qed.

Definition is_bit (c : byte) : Prop := c = x30 ∨ c = x31.

(** The text loop: succeeds exactly on zeros and ones, and then sets the bits that are ones. *)
Lemma set_bits_spec bs index text :
  (∀ i, index ≤ i < index + length text → i / 8 < length bs)%nat →
  Forall is_bit text →
  ∃ bs', set_bits bs index text = Ok bs' ∧ length bs' = length bs
    ∧ ∀ j, bit_at bs' j = bit_at bs j || bool_decide (index ≤ j ∧ text !! (j - index) = Some x31)%nat.
Proof.
  intros Hr Ht. revert bs index Hr. induction Ht as [|c text Hc Ht IH]; intros bs index Hr; cbn.
  - exists bs. split_and!; [done..|]. intros j. rewrite bool_decide_eq_false_2; [by rewrite orb_false_r|].
    intros [_ Hj]. by rewrite lookup_nil in Hj.
  - assert (∀ bs0, length bs0 = length bs → ∃ bs', set_bits bs0 (S index) text = Ok bs'
      ∧ length bs' = length bs ∧ ∀ j, bit_at bs' j = bit_at bs0 j
          || bool_decide (S index ≤ j ∧ text !! (j - S index) = Some x31)%nat) as IH'.
    { intros bs0 Hl. destruct (IH bs0 (S index)) as (bs' & ? & ? & ?).
      { intros i Hi. rewrite Hl. apply Hr. cbn. lia. }
      exists bs'. split_and!; [done | congruence | done]. }
    assert (∀ j, (S index ≤ j)%nat → (c :: text) !! (j - index)%nat = text !! (j - S index)%nat) as Hs.
    { intros j Hj. replace (j - index)%nat with (S (j - S index)) by lia. done. }
    destruct Hc as [-> | ->]; cbn [byte_is].
    + destruct (IH' bs eq_refl) as (bs' & He & Hl & Hb). exists bs'.
      split_and!; [exact He | exact Hl|]. intros j. rewrite Hb. f_equal. apply bool_decide_ext. split.
      * intros [Hj Ht1]. rewrite (Hs j Hj). split; [lia | done].
      * intros [Hj Ht1]. destruct (decide (j = index)) as [->|]; [by rewrite Nat.sub_diag in Ht1|].
        rewrite Hs in Ht1 by lia. split; [lia | done].
    + destruct (IH' (set_bit bs index) (length_set_bit _ _)) as (bs' & He & Hl & Hb). exists bs'.
      split_and!; [exact He | exact Hl|]. intros j. rewrite Hb, bit_at_set by (apply Hr; cbn; lia).
      destruct (Nat.eqb_spec index j) as [->|Hne].
      * rewrite Nat.sub_diag. cbn. rewrite (bool_decide_eq_true_2 (_ ∧ _)) by done. by rewrite orb_true_r.
      * cbn [orb]. f_equal. apply bool_decide_ext. split.
        -- intros [Hj Ht1]. rewrite (Hs j Hj). split; [lia | done].
        -- intros [Hj Ht1]. rewrite Hs in Ht1 by lia. split; [lia | done].
Qed.

Lemma set_bits_refused bs index text : ¬ Forall is_bit text → is_err (set_bits bs index text).
Proof.
  revert bs index. induction text as [|c text IH]; intros bs index Hn; [by destruct Hn|]. cbn.
  destruct (byte_is c 48) eqn:H0; [|destruct (byte_is c 49) eqn:H1; [|by eexists]].
  - apply IH. intros Ht. apply Hn. constructor; [|done]. left.
    apply u8_of_inj. by apply Z.eqb_eq in H0.
  - apply IH. intros Ht. apply Hn. constructor; [|done]. right.
    apply u8_of_inj. by apply Z.eqb_eq in H1.
Qed.

Lemma div_ceil_spec n : (n ≤ div_ceil n 8 * 8 < n + 8)%nat.
Proof. unfold div_ceil. pose proof (Nat.div_mod_eq (n + (8 - 1)) 8). pose proof (Nat.mod_upper_bound (n + (8 - 1)) 8). lia. Qed.

Lemma div8_lt i n : (i < n * 8)%nat → (i / 8 < n)%nat.
Proof. intros. apply Nat.Div0.div_lt_upper_bound. lia. Qed.
End bits.

(** The values [from_text] builds: no spare storage, and zeros past the length. *)
Definition bits_wf (b : BitString) : Prop :=
  length (bs_bytes b) = div_ceil (bit_len b) 8
  ∧ ∀ i, (bit_len b ≤ i)%nat → bit_at (bs_bytes b) i = false.

Section bit_strings.
Implicit Types (b : BitString) (i : nat).

Lemma get_bit_at b i : bits_wf b → (i < bit_len b)%nat → get b i = Some (bit_at (bs_bytes b) i).
Proof.
  intros [Hl _] Hi. unfold get, bit_at. rewrite (proj2 (Nat.leb_gt _ _)) by done.
  pose proof (div_ceil_spec (bit_len b)).
  destruct (lookup_lt_is_Some_2 (bs_bytes b) (i / 8)%nat) as [x Hx]; [apply div8_lt; lia|].
  rewrite Hx. cbn. by rewrite mask_testbit by apply slot_range.
Qed.

Lemma to_bit_text_lookup b i : bits_wf b → (i < bit_len b)%nat →
  to_bit_text b !! i = Some (if bit_at (bs_bytes b) i then x31 else x30).
Proof.
  intros Hb Hi. unfold to_bit_text. rewrite list_lookup_fmap, lookup_seq_lt by done. cbn.
  by rewrite get_bit_at.
Qed.

Lemma length_to_bit_text b : length (to_bit_text b) = bit_len b.
Proof. unfold to_bit_text. by rewrite length_map, length_seq. Qed.

Lemma to_bit_text_bits b : Forall is_bit (to_bit_text b).
Proof.
  apply Forall_map, Forall_forall. intros i _. cbn. destruct (default false (get b i)); [by right | by left].
Qed.

(** The final check of [from_bytes] passes when nothing is set past the length. *)
Lemma from_bytes_wf bs len : bits_wf (mk_bits bs len) → from_bytes bs len = Ok (mk_bits bs len).
Proof.
  intros [Hl Hz]. cbn in *. pose proof (div_ceil_spec len). unfold from_bytes.
  rewrite (proj2 (Nat.ltb_ge _ _)) by lia.
  destruct (Z.eqb_spec (Z.of_nat (len mod 8)) 0) as [|Ht]; [done|].
  pose proof (Nat.mod_upper_bound len 8 ltac:(lia)).
  pose proof (Nat.div_mod_eq len 8).
  assert (length bs = S (len / 8)) as Hlen by lia.
  destruct (lookup_lt_is_Some_2 bs (len / 8)%nat) as [x Hx]; [lia|].
  assert (list.last bs = Some x) as ->.
  { rewrite last_lookup, Hlen. done. }
  rewrite (proj2 (Z.eqb_eq _ _)); [done|]. apply Z.bits_inj'. intros n Hn.
  rewrite Z.land_spec, Z.bits_0, Z.shiftl_1_l.
  replace (2 ^ (8 - Z.of_nat (len mod 8)) - 1) with (Z.ones (8 - Z.of_nat (len mod 8)))
    by (rewrite Z.ones_equiv; lia).
  destruct (Z.lt_ge_cases n (8 - Z.of_nat (len mod 8))) as [Hlt|Hge];
    [|rewrite Z.ones_spec_high by lia; by rewrite andb_false_r].
  specialize (Hz (8 * (len / 8) + Z.to_nat (7 - n)))%nat. unfold bit_at in Hz.
  rewrite (Nat.mul_comm 8), Nat.div_add_l, (Nat.div_small (Z.to_nat (7 - n))), Nat.add_0_r, Hx in Hz by lia.
  rewrite (Nat.add_comm (len / 8 * 8)), Nat.Div0.mod_add, Nat.mod_small in Hz by lia.
  replace (7 - Z.of_nat (Z.to_nat (7 - n))) with n in Hz by lia.
  rewrite Hz by lia. done.
Qed.

Lemma from_text_bits text : Forall is_bit text →
  ∃ b, from_text text = Ok b ∧ bits_wf b ∧ bit_len b = length text ∧ to_bit_text b = text.
Proof.
  intros Ht. pose proof (div_ceil_spec (length text)).
  destruct (set_bits_spec (replicate (div_ceil (length text) 8) x00) 0 text) as (bs & He & Hl & Hb);
    [|done|].
  { intros i Hi. rewrite length_replicate. apply div8_lt. lia. }
  assert (bits_wf (mk_bits bs (length text))) as Hwf.
  { split; cbn; [by rewrite Hl, length_replicate|]. intros i Hi.
    rewrite Hb, bit_at_zero, Nat.sub_0_r, lookup_ge_None_2 by done. apply bool_decide_eq_false_2. naive_solver. }
  exists (mk_bits bs (length text)). split_and!; [|done..|].
  { unfold from_text. rewrite He. cbn [mbind result_bind]. by apply from_bytes_wf. }
  apply list_eq_same_length with (length text); [done|by rewrite length_to_bit_text|].
  intros i x y Hi Hx Hy. rewrite to_bit_text_lookup in Hx by done. injection Hx as <-. cbn.
  rewrite Hb, bit_at_zero, Nat.sub_0_r, Hy. cbn [orb].
  apply (Forall_lookup_1 _ _ _ _ Ht) in Hy as [-> | ->].
  - by rewrite bool_decide_eq_false_2 by naive_solver.
  - by rewrite bool_decide_eq_true_2 by (split; [lia | done]).
Qed.

Lemma bits_wf_inj b1 b2 : bits_wf b1 → bits_wf b2 → to_bit_text b1 = to_bit_text b2 → b1 = b2.
Proof.
  intros H1 H2 Ht. pose proof (f_equal length Ht) as Hl. rewrite !length_to_bit_text in Hl.
  destruct b1 as [bs1 n1], b2 as [bs2 n2]; cbn in Hl. subst n2. f_equal.
  apply bit_at_ext; [exact (eq_trans (proj1 H1) (eq_sym (proj1 H2)))|]. intros i.
  destruct (decide (i < n1)%nat) as [Hi|Hi].
  - pose proof (to_bit_text_lookup (mk_bits bs1 n1) i H1 Hi) as E1.
    pose proof (to_bit_text_lookup (mk_bits bs2 n1) i H2 Hi) as E2.
    rewrite Ht, E2 in E1. cbn in E1. by destruct (bit_at bs1 i), (bit_at bs2 i).
  - etrans; [apply (proj2 H1); cbn; lia | symmetry; apply (proj2 H2); cbn; lia].
Qed.

Lemma from_text_to_bit_text b : bits_wf b → from_text (to_bit_text b) = Ok b.
Proof.
  intros Hb. destruct (from_text_bits (to_bit_text b) (to_bit_text_bits b)) as (b' & He & Hw & _ & Ht).
  rewrite He. f_equal. by apply bits_wf_inj.
Qed.
End bit_strings.

Lemma is_bit_ascii s : Forall is_bit s → utf8_valid s = true.
Proof.
  intros Hs. apply utf8_valid_ascii. eapply Forall_impl; [exact Hs|]. by intros ? [-> | ->].
Qed.

(** [BitString::from_text] accepts exactly the texts of zeros and ones.  What it builds has
    one storage bit per character and none set past the end, reads back ([get]) bit by bit as
    the text says, and prints as that text; two values so built that print alike are equal. *)
Theorem bit_text_canonical (text : str) :
  (is_ok (from_text text) ↔ Forall is_bit text)
  ∧ ∀ b, from_text text = Ok b →
      bits_wf b ∧ to_bit_text b = text ∧ from_text (to_bit_text b) = Ok b
      ∧ (∀ i, get b i = match text !! i with Some c => Some (bool_decide (c = x31)) | None => None end)
      ∧ from_bytes (bs_bytes b) (bit_len b) = Ok b.
Proof.
  split.
  - split; [|intros Ht; destruct (from_text_bits text Ht) as (b & ? & _); by exists b].
    intros [b Hb]. destruct (decide (Forall (λ c, c = x30 ∨ c = x31) text)) as [|Hn]; [done|].
    unfold from_text in Hb. destruct (set_bits_refused (replicate (div_ceil (length text) 8) x00) 0 text Hn) as [e He].
    by rewrite He in Hb.
  - intros b Hb. destruct (decide (Forall (λ c, c = x30 ∨ c = x31) text)) as [Ht|Hn].
    + destruct (from_text_bits text Ht) as (b' & He & Hw & Hl & Hp).
      rewrite Hb in He. injection He as <-.
      split_and!; [done|done|by apply from_text_to_bit_text| |destruct b; by apply from_bytes_wf].
      intros i. destruct (decide (i < length text)%nat) as [Hi|Hi].
      * rewrite get_bit_at by (done || lia). rewrite <- Hp, to_bit_text_lookup by (done || lia).
        by destruct (bit_at (bs_bytes b) i).
      * rewrite lookup_ge_None_2 by lia. unfold get. by rewrite (proj2 (Nat.leb_le _ _)) by lia.
    + destruct (set_bits_refused (replicate (div_ceil (length text) 8) x00) 0 text Hn) as [e He].
      unfold from_text in Hb. by rewrite He in Hb.
Qed.

Lemma bit_text_canonical_witness :
  ∃ b, from_text "101000000" = Ok b ∧ bs_bytes b = [xa0; x00] ∧ get b 2 = Some true.
Proof.
  destruct (from_text "101000000") as [b|] eqn:Hb; [|discriminate].
  pose proof (proj2 (bit_text_canonical "101000000") b Hb) as (_ & _ & _ & Hg & _).
  exists b. split_and!; [done| |exact (Hg 2%nat)]. vm_compute in Hb. by injection Hb as <-.
Defined.

(** ** MAC addresses *)
Section macaddr.
Implicit Types (b : byte) (bs : bytes).

Lemma hex2_no_separator b : x3a ∉ hex2 b.
Proof. apply (bool_decide_unpack _). by destruct b. Qed.

Lemma hex2_ascii b : Forall (λ c, u8_of c < 128) (hex2 b).
Proof. apply (bool_decide_unpack _). by destruct b. Qed.

Lemma parse_octet_hex2 b : parse_octet (hex2 b) = Ok b.
Proof. unfold parse_octet. rewrite parse_hex2. cbn. by rewrite byte_of_u8_of. Qed.

Lemma join_ascii sep l :
  Forall (λ c, u8_of c < 128) sep → Forall (Forall (λ c, u8_of c < 128)) l → Forall (λ c, u8_of c < 128) (join sep l).
Proof.
  intros Hsep. induction 1 as [|w l Hw Hl IH]; cbn; [done|]. destruct l; [done|].
  repeat apply Forall_app_2; done.
Qed.

Lemma write_mac_ascii bs : utf8_valid (write_mac_octets bs) = true.
Proof.
  apply utf8_valid_ascii, join_ascii; [by repeat constructor|]. apply Forall_map, Forall_forall.
  intros b _. apply hex2_ascii.
Qed.

Lemma parse_mac_write n bs : (2 ≤ n)%nat → length bs = n → parse_mac n (write_mac_octets bs) = Ok bs.
Proof.
  intros Hn Hl. unfold parse_mac.
  assert (contains ":" (write_mac_octets bs) = true) as ->.
  { destruct bs as [|b1 [|b2 bs]]; cbn in Hl; [lia..|]. apply contains_spec.
    exists (hex2 b1), (join ":" (map hex2 (b2 :: bs))). done. }
  cbn [mbind result_bind].
  assert (split_byte x3a (write_mac_octets bs) = map hex2 bs) as ->.
  { apply split_join; [destruct bs; cbn in *; [lia | done]|].
    apply Forall_map, Forall_forall. intros b _. apply hex2_no_separator. }
  rewrite length_map, Hl, Nat.eqb_refl. cbn [negb]. apply map_result_Ok, Forall2_fmap_l.
  apply Forall_Forall2_diag, Forall_forall. intros b _. apply parse_octet_hex2.
Qed.

Lemma parse_mac_length n text bs : parse_mac n text = Ok bs → length bs = n.
Proof.
  unfold parse_mac. intros H. apply result_bind_Ok in H as (sep & _ & H).
  destruct (Nat.eqb_spec (length (split_byte sep text)) n) as [<-|]; [|done].
  cbn [negb] in H. apply map_result_Ok in H. symmetry. by eapply Forall2_length.
Qed.
End macaddr.

(** ** hstore *)
Section hstore.
Implicit Types (s rest out : bytes) (m : Hstore).

Definition no_ws (s : str) : Prop := skip_ws s = s.

Lemma quoted_body_push out text rest :
  quoted_body out (concat (map (λ b, if bool_decide (b = x22 ∨ b = x5c) then [x5c; b] else [b]) text) ++ x22 :: rest)
  = quoted_body (out ++ text) (x22 :: rest).
Proof.
  revert out. induction text as [|b text IH]; intros out; [by rewrite app_nil_r|].
  cbn [map concat]. rewrite (cons_middle b out text), (app_assoc out [b] text), <- IH.
  destruct (decide (b = x22 ∨ b = x5c)) as [Hq|Hq].
  - rewrite (bool_decide_eq_true_2 (b = x22 ∨ b = x5c)) by done. cbn.
    by destruct Hq as [-> | ->].
  - rewrite (bool_decide_eq_false_2 (b = x22 ∨ b = x5c)) by done. cbn.
    by rewrite !bool_decide_eq_false_2 by naive_solver.
Qed.

Lemma parse_quoted_push text rest :
  utf8_valid text = true → parse_quoted (push_quoted text ++ rest) = Ok (text, rest).
Proof.
  intros Ht. unfold push_quoted, parse_quoted. cbn [app]. rewrite <- app_assoc. cbn [app].
  rewrite quoted_body_push. cbn [app quoted_body]. rewrite bool_decide_eq_true_2 by done.
  by rewrite (proj2 (from_utf8_Ok text text) (conj eq_refl Ht)).
Qed.

Definition entry_ok (x : str * option str) : Prop :=
  utf8_valid x.1 = true ∧ match x.2 with Some s => utf8_valid s = true | None => True end.

Lemma skip_ws_start b rest : b ∉ [x20; x09; x0a; x0d] → skip_ws (b :: rest) = b :: rest.
Proof. intros Hb. cbn [skip_ws]. by rewrite bool_decide_eq_false_2. Qed.

Lemma expect_app token rest : expect token (token ++ rest) = Ok rest.
Proof. unfold expect. by rewrite strip_prefix_app. Qed.

Lemma expect_byte b rest : expect [b] (b :: rest) = Ok rest.
Proof. apply (expect_app [b] rest). Qed.

Lemma push_quoted_cons text rest : ∃ r, push_quoted text ++ rest = x22 :: r.
Proof. by eexists. Qed.

Lemma parse_entry_entry x rest : entry_ok x → parse_entry (hstore_entry x ++ rest) = Ok (x, rest).
Proof.
  destruct x as [key value]. intros [Hk Hv]. cbn [fst snd] in *. unfold parse_entry, hstore_entry.
  cbn [fst snd]. rewrite <- !app_assoc, parse_quoted_push by done. cbn [mbind result_bind].
  change ("=>" ++ ?r) with ("=" ++ (">" ++ r)). cbn [app]. rewrite skip_ws_start by set_solver.
  rewrite !expect_byte. cbn [mbind result_bind]. rewrite expect_byte. cbn [mbind result_bind].
  destruct value as [s|].
  - destruct (push_quoted_cons s rest) as [r Hr]. rewrite Hr, skip_ws_start by set_solver.
    cbn match. rewrite <- Hr, parse_quoted_push by done. done.
  - done.
Qed.

Lemma hstore_loop_entries fuel (out : Hstore) l :
  l ≠ [] → Forall entry_ok l → (length l ≤ fuel)%nat →
  hstore_loop fuel out (join ", " (map hstore_entry l))
  = Some (Ok (foldl (λ m x, bt_insert x.1 x.2 m) out l)).
Proof.
  revert out l. induction fuel as [|fuel IH]; intros out [|x l] Hne Hl Hf; cbn in Hf; [done|lia|done|].
  inversion Hl as [|?? Hx Hl']; subst. cbn [map hstore_loop foldl].
  assert (∀ rest, ∃ b r, hstore_entry x ++ rest = b :: r) as Hcons by (intros; by repeat eexists).
  destruct l as [|y l]; cbn [map].
  - cbn [join]. rewrite <- (app_nil_r (hstore_entry x)). destruct (Hcons []) as (b & r & Hr). rewrite Hr, <- Hr.
    rewrite parse_entry_entry by done. by destruct x.
  - change (join ?s (?a :: ?b :: ?l)) with (a ++ s ++ join s (b :: l)).
    destruct (Hcons (", " ++ join ", " (hstore_entry y :: map hstore_entry l))) as (b & r & Hr).
    rewrite Hr, <- Hr, parse_entry_entry by done. destruct x as [key value]. cbn [fst snd].
    change (", " ++ ?r) with ("," ++ x20 :: r) at 1. change ("," ++ ?r) with (x2c :: r).
    rewrite skip_ws_start by set_solver. rewrite expect_byte.
    change (skip_ws (x20 :: ?r)) with (skip_ws r).
    assert (∀ r', skip_ws (join ", " (hstore_entry y :: r')) = join ", " (hstore_entry y :: r')) as ->.
    { intros r'. assert (∃ r0, join ", " (hstore_entry y :: r') = x22 :: r0) as [r0 ->].
      { cbn. destruct r'; by eexists. } by rewrite skip_ws_start by set_solver. }
    apply (IH _ (y :: l)); [done|done|]. cbn in Hf |- *. lia.
Qed.

(** *** What is sent is valid UTF-8 *)
(** Rewriting ASCII characters to ASCII text keeps a string valid. *)
Lemma utf8_valid_concat_map (f : byte → bytes) s :
  (∀ b, u8_of b < 128 → Forall (λ c, u8_of c < 128) (f b)) → (∀ b, 128 ≤ u8_of b → f b = [b]) →
  utf8_valid s = true → utf8_valid (concat (map f s)) = true.
Proof.
  intros Hlow Hhigh (cs & Hcs & ->)%utf8_valid_iff. induction Hcs as [|c cs Hc _ IH]; [done|].
  unfold encode_chars. cbn [map concat]. rewrite map_app, concat_app. apply utf8_valid_app; [|exact IH].
  destruct (Z.lt_ge_cases c 128) as [Hlt|Hge].
  - assert (encode_char c = [byte_of c]) as ->.
    { unfold encode_char. by rewrite (proj2 (Z.ltb_lt _ _)). }
    cbn. rewrite app_nil_r. apply utf8_valid_ascii, Hlow. unfold is_char in Hc.
    rewrite u8_of_byte_of; lia.
  - assert (concat (map f (encode_char c)) = encode_char c) as ->.
    { pose proof (encode_char_high c Hc Hge) as Hh. induction Hh as [|b bs Hb _ IH']; [done|].
      cbn. by rewrite Hhigh, IH' by done. }
    apply utf8_valid_iff. exists [c]. split; [by constructor|]. unfold encode_chars. cbn. by rewrite app_nil_r.
Qed.

Lemma push_quoted_valid text : utf8_valid text = true → utf8_valid (push_quoted text) = true.
Proof.
  intros Ht. unfold push_quoted. apply utf8_valid_app; [done|]. apply utf8_valid_app; [|done].
  apply utf8_valid_concat_map; [..|done].
  - intros b Hb. by destruct (bool_decide (b = x22 ∨ b = x5c)); repeat constructor.
  - intros b Hb. rewrite bool_decide_eq_false_2; [done|]. intros [-> | ->]; vm_compute in Hb; done.
Qed.

Lemma join_valid sep l :
  utf8_valid sep = true → Forall (λ w, utf8_valid w = true) l → utf8_valid (join sep l) = true.
Proof.
  intros Hs. induction 1 as [|w l Hw Hl IH]; [done|]. cbn. destruct l; [done|]. auto with babar.
Qed.

Lemma encode_hstore_valid m : Forall entry_ok m → utf8_valid (encode_hstore_text m) = true.
Proof.
  intros Hm. apply join_valid; [done|]. apply Forall_map. eapply Forall_impl; [exact Hm|].
  intros [key value] [Hk Hv]. cbn [fst snd] in *. unfold hstore_entry. cbn [fst snd].
  apply utf8_valid_app; [by apply push_quoted_valid|]. apply utf8_valid_app; [done|].
  destruct value; [by apply push_quoted_valid | done].
Qed.

Lemma length_join_entries m : (length m ≤ length (join ", " (map hstore_entry m)))%nat.
Proof.
  assert (∀ x, 1 ≤ length (hstore_entry x))%nat as H1.
  { intros x. unfold hstore_entry, push_quoted. cbn. lia. }
  induction m as [|x [|y m] IH]; [done|cbn; by apply H1|].
  change (join ?s (map hstore_entry (x :: y :: m))) with (hstore_entry x ++ s ++ join s (map hstore_entry (y :: m))).
  rewrite !length_app. specialize (H1 x). cbn [length] in *. lia.
Qed.

Lemma parse_hstore_encode m :
  bt_sorted m → Forall entry_ok m → parse_hstore_text (encode_hstore_text m) = Some (Ok m).
Proof.
  intros Hs Hm. unfold parse_hstore_text. destruct m as [|x m]; [done|].
  assert (∃ r, encode_hstore_text (x :: m) = x22 :: r) as [r Hr].
  { unfold encode_hstore_text, hstore_entry. cbn. destruct m; by eexists. }
  rewrite Hr, skip_ws_start by set_solver. rewrite <- Hr. unfold encode_hstore_text.
  rewrite hstore_loop_entries; [|done|done|].
  - do 2 f_equal. exact (bt_of_sorted (x :: m) Hs).
  - pose proof (length_join_entries (x :: m)). lia.
Qed.

(** *** The parser ends on every input *)
Lemma skip_ws_length rest : (length (skip_ws rest) ≤ length rest)%nat.
Proof. induction rest as [|b rest IH]; cbn; [done|]. case_match; cbn; lia. Qed.

Lemma expect_length token rest r : expect token rest = Ok r → (length token + length r = length rest)%nat.
Proof.
  unfold expect. destruct (strip_prefix token rest) as [r'|] eqn:Hp; intros [= <-].
  apply strip_prefix_Some in Hp as ->. by rewrite length_app.
Qed.

Lemma quoted_body_length out rest s r : quoted_body out rest = Ok (s, r) → (length r < length rest)%nat.
Proof.
  remember (length rest) as n eqn:Hn. revert out rest Hn.
  induction (lt_wf n) as [n _ IH]. intros out [|b rest] -> H; [done|]. cbn [quoted_body] in H.
  destruct (bool_decide (b = x22)).
  - destruct (from_utf8 out); [|done]. injection H as <- <-. cbn. lia.
  - destruct (bool_decide (b = x5c)).
    + destruct rest as [|e rest]; [done|].
      pose proof (IH (length rest) ltac:(cbn; lia) _ rest eq_refl H). cbn. lia.
    + pose proof (IH (length rest) ltac:(cbn; lia) _ rest eq_refl H). cbn. lia.
Qed.

Lemma parse_quoted_length rest s r : parse_quoted rest = Ok (s, r) → (length r < length rest)%nat.
Proof.
  destruct rest as [|b rest]; [done|]. cbn [parse_quoted]. destruct b; try done.
  intros H%quoted_body_length. cbn. lia.
Qed.

Lemma parse_entry_length rest x r : parse_entry rest = Ok (x, r) → (length r < length rest)%nat.
Proof.
  unfold parse_entry. intros Hp. apply result_bind_Ok in Hp as ([key r1] & L1 & Hp).
  apply parse_quoted_length in L1. apply result_bind_Ok in Hp as (r2 & L2%expect_length & Hp).
  apply result_bind_Ok in Hp as (r3 & L3%expect_length & Hp).
  pose proof (skip_ws_length r1). pose proof (skip_ws_length r3).
  apply result_bind_Ok in Hp as ([value r4] & L4 & Hp). injection Hp as <- ->.
  assert (length r ≤ length (skip_ws r3))%nat; [|cbn in *; lia].
  assert (∀ r0, (expect "NULL" r0 ≫= λ rest, Ok (None, rest)) = Ok (value, r) → length r ≤ length r0)%nat as Hnull.
  { intros r0 (r5 & L5%expect_length & [= _ <-])%result_bind_Ok. lia. }
  assert (∀ r0, (parse_quoted r0 ≫= λ '(s, rest), Ok (Some s, rest)) = Ok (value, r) → length r ≤ length r0)%nat as Hq.
  { intros r0 ([s r5] & L5%parse_quoted_length & [= _ <-])%result_bind_Ok. lia. }
  destruct (skip_ws r3) as [|b r0]; [by apply Hq|]. destruct b; (by apply Hq) || by apply Hnull.
Qed.

Lemma hstore_loop_total fuel (out : Hstore) rest :
  (length rest < fuel)%nat → bt_sorted out →
  ∃ r, hstore_loop fuel out rest = Some r ∧ ∀ m, r = Ok m → bt_sorted m.
Proof.
  revert out rest. induction fuel as [|fuel IH]; intros out rest Hf Hs; [lia|]. cbn [hstore_loop].
  destruct rest as [|b0 rest0]; [exists (Ok out); naive_solver|]. set (rest := b0 :: rest0) in *.
  destruct (parse_entry rest) as [[[key value] r]|e] eqn:He; [|exists (Err e); naive_solver].
  apply parse_entry_length in He. assert (bt_sorted (bt_insert key value out)) as Hs' by (by apply insert_sorted).
  destruct (skip_ws r) as [|b1 r1] eqn:Hw; [exists (Ok (bt_insert key value out)); naive_solver|].
  destruct (expect "," (b1 :: r1)) as [r2|e] eqn:Hc; [|exists (Err e); naive_solver].
  apply expect_length in Hc. pose proof (skip_ws_length r) as Hl. rewrite Hw in Hl.
  pose proof (skip_ws_length r2). apply IH; [cbn in *; lia | done].
Qed.
End hstore.

(** the hstore parser ends on every text, and the map it builds has its keys in strictly
    increasing order. *)
Theorem parse_hstore_total (text : str) :
  ∃ r, parse_hstore_text text = Some r ∧ ∀ m, r = Ok m → bt_sorted m.
Proof.
  unfold parse_hstore_text. destruct (skip_ws text) as [|b rest]; [exists (Ok []); naive_solver|].
  apply hstore_loop_total; [lia | done].
Qed.

(** the text codecs keep the codecs' contract: [bit] and [varbit] on bit strings without
    spare storage, [macaddr] on six octets and [macaddr8] on eight, [hstore] on every map of
    strings. *)
Theorem text_codecs_lawful :
  Lawful bit bits_wf ∧ Lawful varbit bits_wf
  ∧ Lawful macaddr (λ a, length a = 6%nat) ∧ Lawful macaddr8 (λ a, length a = 8%nat)
  ∧ Lawful hstore (λ m, bt_sorted m ∧ Forall entry_ok m).
Proof.
  assert (∀ kind b rest, bits_wf b → bits_decode kind (Some (to_bit_text b) :: rest) = Ok b) as Hbits.
  { intros kind b rest Hb. unfold bits_decode.
    rewrite text_column_valid by (apply is_bit_ascii, to_bit_text_bits). cbn [mbind result_bind].
    by rewrite from_text_to_bit_text. }
  assert (∀ n kind a rest, (2 ≤ n)%nat → length a = n →
    mac_decode n kind (Some (write_mac_octets a) :: rest) = Ok a) as Hmac.
  { intros n kind a rest Hn Ha. unfold mac_decode.
    rewrite text_column_valid by apply write_mac_ascii. cbn [mbind result_bind]. by rewrite parse_mac_write. }
  split_and!; [apply scalar_lawful; auto| apply scalar_lawful; auto | | |].
  1, 2: apply scalar_lawful; intros a rest Ha; apply Hmac; [lia | done].
  split; [done..|]. intros m ps [Hs Hm]. exists [Some (encode_hstore_text m)]. split_and!; [done..|].
  intros rest. cbn [decode dec hstore app]. unfold hstore_decode.
  rewrite text_column_valid by by apply encode_hstore_valid. cbn [mbind result_bind].
  by rewrite parse_hstore_encode.
Qed.
