(* ===== verification/Migration.v ===== *)
(** * Migration scripts: [migration/filename.rs], [checksum.rs], [model.rs], [table.rs], [source.rs]

    File names and identifiers, checksums, script metadata, the pairing of scripts, the state
    table with its quoted names, and assets.  A path is the bytes of a Unix path.  SHA-256 is
    the [Crypto] interface. *)
From S2P Require Import Prelude Bytes Text Error Scram BTree.

Local Open Scope Z_scope.
Local Open Scope str_scope.

(** ** [filename.rs] *)
Definition EXPECTED_FILE_NAME : str := "<version>__<name>.<up|down>.sql".

Record MigrationId := mk_id { id_version : Z; id_name : str }.

#[export] Instance MigrationId_eq_dec : EqDecision MigrationId.
Proof. solve_decision. Defined.

Definition validate_name (name : str) : result MigrationError unit :=
  if bool_decide (name = []) || starts_with "_" name || ends_with "_" name || contains "__" name
     || negb (forallb (λ b, is_ascii_lowercase b || is_ascii_digit b || bool_decide (b = "_"%byte)) name)
  then Err (InvalidName name) else Ok tt.

Definition MigrationId_new (version : Z) (name : str) : result MigrationError MigrationId :=
  validate_name name;; Ok (mk_id version name).

Definition id_display (i : MigrationId) : str := dec (id_version i) ++ "__" ++ id_name i.

(** The derived order: by version, then by name. *)
#[export] Instance MigrationId_order : TotalOrder MigrationId := {
  key_lt a b := (id_version a <? id_version b)
                || ((id_version a =? id_version b) && str_lt (id_name a) (id_name b)) }.

Inductive MigrationKind := Up | Down.

#[export] Instance MigrationKind_eq_dec : EqDecision MigrationKind.
Proof. solve_decision. Defined.

Definition suffix (k : MigrationKind) : str := match k with Up => "up" | Down => "down" end.

Record MigrationFilename := mk_filename { fn_id : MigrationId; fn_kind : MigrationKind }.

#[export] Instance MigrationFilename_eq_dec : EqDecision MigrationFilename.
Proof. solve_decision. Defined.

Definition filename_parse (file_name : str) : result MigrationError MigrationFilename :=
  let invalid := InvalidFileName file_name EXPECTED_FILE_NAME in
  stem ← ok_or (strip_suffix ".sql" file_name) invalid;
  '(base, kind) ← (match strip_suffix ".up" stem with
                   | Some base => Ok (base, Up)
                   | None => match strip_suffix ".down" stem with
                             | Some base => Ok (base, Down)
                             | None => Err invalid
                             end
                   end);
  '(version, name) ← ok_or (split_once "__" base) invalid;
  version ← map_err (λ _, InvalidVersion version) (parse_uint 64 10 version);
  i ← MigrationId_new version name;
  Ok (mk_filename i kind).

Definition file_name (f : MigrationFilename) : str :=
  id_display (fn_id f) ++ "." ++ suffix (fn_kind f) ++ ".sql".

(** ** [checksum.rs]: a checksum is its 32 bytes *)
Definition MigrationChecksum := bytes.

Fixpoint hex_bytes (checksum hex : str) : result MigrationError bytes :=
  match hex with
  | a :: b :: hex =>
    x ← map_err (λ _, InvalidChecksum checksum) (parse_uint 8 16 [a; b]);
    rest ← hex_bytes checksum hex;
    Ok (byte_of x :: rest)
  | _ => Ok []
  end.

Definition checksum_parse (hex : str) : result MigrationError MigrationChecksum :=
  if negb (length hex =? 64)%nat || negb (forallb is_ascii_hexdigit hex) then Err (InvalidChecksum hex)
  else hex_bytes hex hex.

Definition to_hex (c : MigrationChecksum) : str := concat (map hex2 c).

Definition of_contents `{Crypto} (contents : str) : MigrationChecksum := sha256 contents.

(** ** [model.rs] *)
Inductive MigrationTransactionMode := Transactional | NonTransactional.

#[export] Instance MigrationTransactionMode_eq_dec : EqDecision MigrationTransactionMode.
Proof. solve_decision. Defined.

Definition mode_str (m : MigrationTransactionMode) : str :=
  match m with Transactional => "transactional" | NonTransactional => "non_transactional" end.

Definition parse_directive (value directive : str) : result MigrationError MigrationTransactionMode :=
  if bool_decide (value = "transactional"%s) then Ok Transactional
  else if bool_decide (value = "none"%s) || bool_decide (value = "non_transactional"%s) then Ok NonTransactional
  else Err (InvalidDirective directive "supported values are transactional and none").

Record MigrationScriptMetadata := mk_metadata { transaction_mode : MigrationTransactionMode }.

(** One directive line: the transaction mode it sets. *)
Definition directive_line (raw_line directive : str) (saw_transaction : bool)
  : result MigrationError MigrationTransactionMode :=
  directive ← ok_or (strip_prefix "babar:" (trim directive))
                (InvalidDirective raw_line "expected `--! babar:<key> = <value>`");
  '(key, value) ← ok_or (split_once "=" directive) (InvalidDirective raw_line "expected `key = value`");
  let key := trim key in
  let value := trim value in
  if bool_decide (key = "transaction"%s) then
    if (saw_transaction : bool) then Err (InvalidDirective raw_line "duplicate transaction directive")
    else parse_directive value raw_line
  else Err (InvalidDirective raw_line ("unsupported directive key `" ++ key ++ "`")).

Fixpoint metadata_lines (metadata : MigrationScriptMetadata) (saw_transaction : bool) (ls : list str)
  : result MigrationError MigrationScriptMetadata :=
  match ls with
  | [] => Ok metadata
  | raw_line :: ls =>
    match trim raw_line with
    | [] => metadata_lines metadata saw_transaction ls
    | trimmed =>
      match strip_prefix "--!" trimmed with
      | None => Ok metadata
      | Some directive =>
        mode ← directive_line raw_line directive saw_transaction;
        metadata_lines (mk_metadata mode) true ls
      end
    end
  end.

Definition metadata_parse (contents : str) : result MigrationError MigrationScriptMetadata :=
  metadata_lines (mk_metadata Transactional) false (lines contents).

Record MigrationScript := mk_script {
  script_file : MigrationFilename;
  script_metadata : MigrationScriptMetadata;
  script_contents : str;
  script_checksum : MigrationChecksum;
}.

Definition script_id (s : MigrationScript) : MigrationId := fn_id (script_file s).
Definition script_kind (s : MigrationScript) : MigrationKind := fn_kind (script_file s).
Definition script_mode (s : MigrationScript) : MigrationTransactionMode := transaction_mode (script_metadata s).

Definition MigrationScript_new `{Crypto} (file : MigrationFilename) (contents : str)
  : result MigrationError MigrationScript :=
  metadata ← metadata_parse contents;
  Ok (mk_script file metadata contents (of_contents contents)).

Record MigrationPair := mk_pair { pair_id : MigrationId; pair_up : MigrationScript; pair_down : MigrationScript }.

Definition MigrationPair_new (up down : MigrationScript) : result MigrationError MigrationPair :=
  if negb (bool_decide (script_kind up = Up)) || negb (bool_decide (script_kind down = Down))
     || negb (bool_decide (script_id up = script_id down))
  then Err (PairMismatch (file_name (script_file up)) (file_name (script_file down)))
  else Ok (mk_pair (script_id up) up down).

(** [SystemTime] is a parameter of the row. *)
Record AppliedMigration (T : Type) := mk_applied {
  applied_id : MigrationId;
  up_checksum : MigrationChecksum;
  down_checksum : MigrationChecksum;
  up_transaction_mode : MigrationTransactionMode;
  down_transaction_mode : MigrationTransactionMode;
  applied_at : T;
}.
Arguments mk_applied {T}. Arguments applied_id {T}. Arguments up_checksum {T}.
Arguments down_checksum {T}. Arguments up_transaction_mode {T}.
Arguments down_transaction_mode {T}. Arguments applied_at {T}.

(** ** [table.rs] *)
Definition DEFAULT_MIGRATION_SCHEMA : str := "public".
Definition DEFAULT_MIGRATION_TABLE : str := "babar_schema_migrations".
Definition DEFAULT_MIGRATION_ADVISORY_LOCK_ID : Z := 0x0000_0062_6162_6172.

Record MigrationTable := mk_table { table_schema : str; table_name : str }.

Definition MigrationTable_default : MigrationTable :=
  mk_table DEFAULT_MIGRATION_SCHEMA DEFAULT_MIGRATION_TABLE.

Definition validate_part (schema name part : str) : result MigrationError unit :=
  let value := if bool_decide (part = "schema"%s) then schema else name in
  if bool_decide (trim value = []) || bool_decide (x00 ∈ value) then
    Err (InvalidTable (schema ++ "." ++ name) (part ++ " must be non-empty and cannot contain NUL"))
  else Ok tt.

Definition MigrationTable_new (schema name : str) : result MigrationError MigrationTable :=
  validate_part schema name "schema";;
  validate_part schema name "table";;
  Ok (mk_table schema name).

Definition quote_ident (value : str) : str := [x22] ++ replace_byte x22 [x22; x22] value ++ [x22].

Definition qualified_name (t : MigrationTable) : str :=
  quote_ident (table_schema t) ++ "." ++ quote_ident (table_name t).

Definition create_if_missing_sql (t : MigrationTable) : str :=
  "CREATE TABLE IF NOT EXISTS " ++ qualified_name t ++ " ("
  ++ "version bigint PRIMARY KEY, "
  ++ "name text NOT NULL, "
  ++ "up_checksum text NOT NULL, "
  ++ "down_checksum text NOT NULL, "
  ++ "up_transaction_mode text NOT NULL CHECK (up_transaction_mode IN ('transactional', 'non_transactional')), "
  ++ "down_transaction_mode text NOT NULL CHECK (down_transaction_mode IN ('transactional', 'non_transactional')), "
  ++ "applied_at timestamptz NOT NULL DEFAULT CURRENT_TIMESTAMP"
  ++ ")".

(** ** [source.rs] *)
Record MigrationAsset := mk_asset { asset_path : bytes; asset_contents : str }.

(** [Path::file_name]: the last component, unless it is [..] or there is none. *)
Definition path_file_name (path : bytes) : option bytes :=
  match list.last (filter (λ c, c ≠ [] ∧ c ≠ "."%s) (split_byte "/"%byte path)) with
  | Some c => if bool_decide (c = ".."%s) then None else Some c
  | None => None
  end.

Definition asset_parse `{Crypto} (a : MigrationAsset) : result MigrationError MigrationScript :=
  file_name ← ok_or (name ← path_file_name (asset_path a); to_option (from_utf8 name))
                (InvalidSourcePath (asset_path a) "path must end in a UTF-8 file name");
  file ← filename_parse file_name;
  MigrationScript_new file (asset_contents a).

(** [MigrationSource]: the assets a source loads; [MemoryMigrationSource] has them at hand. *)
Record MigrationSource := mk_source { load : result MigrationError (list MigrationAsset) }.
Definition MemoryMigrationSource (assets : list MigrationAsset) : MigrationSource := mk_source (Ok assets).

(** ** [mod.rs]: options *)
Record MigratorOptions := mk_options { opt_table : MigrationTable; opt_lock_id : Z }.
Definition MigratorOptions_default : MigratorOptions :=
  mk_options MigrationTable_default DEFAULT_MIGRATION_ADVISORY_LOCK_ID.
Definition with_table (t : MigrationTable) (o : MigratorOptions) : MigratorOptions := mk_options t (opt_lock_id o).
Definition with_lock_id (z : Z) (o : MigratorOptions) : MigratorOptions := mk_options (opt_table o) z.

Record Migrator := mk_migrator { migrator_source : MigrationSource; migrator_options : MigratorOptions }.
Definition Migrator_new (s : MigrationSource) : Migrator := mk_migrator s MigratorOptions_default.

(** ** Identifiers *)
#[export] Instance MigrationId_order_laws : TotalOrderLaws MigrationId.
Proof.
  split; cbn.
  - intros [v n]. cbn. rewrite Z.ltb_irrefl, Z.eqb_refl. exact (key_lt_irrefl n).
  - intros [v1 n1] [v2 n2] [v3 n3]. cbn. rewrite !orb_true_iff, !andb_true_iff, !Z.ltb_lt, !Z.eqb_eq.
    intros [|[-> H12]] [|[-> H23]]; [left; lia..|]. right. split; [done|].
    exact (key_lt_trans n1 n2 n3 H12 H23).
  - intros [v1 n1] [v2 n2]. cbn. rewrite !orb_false_iff, !andb_false_iff, !Z.ltb_ge, !Z.eqb_neq.
    intros [? H12] [? H21]. assert (v1 = v2) as -> by lia. f_equal.
    apply (key_lt_total n1 n2); cbn; naive_solver.
Qed.

Definition name_byte (b : byte) : bool :=
  is_ascii_lowercase b || is_ascii_digit b || bool_decide (b = "_"%byte).

Definition valid_name (name : str) : Prop := validate_name name = Ok tt.
Definition valid_id (i : MigrationId) : Prop := in_uint 64 (id_version i) ∧ valid_name (id_name i).

Lemma valid_name_spec name : valid_name name ↔
  name ≠ [] ∧ ends_with "_" name = false ∧ starts_with "_" name = false ∧ contains "__" name = false
  ∧ Forall (λ b, name_byte b = true) name.
Proof.
  assert (forallb name_byte name = true ↔ Forall (λ b, name_byte b = true) name) as <-.
  { induction name as [|b name IH]; cbn; [naive_solver|]. rewrite andb_true_iff, IH, Forall_cons. done. }
  unfold valid_name, validate_name.
  change (forallb (λ b, is_ascii_lowercase b || is_ascii_digit b || bool_decide (b = "_"%byte)) name)
    with (forallb name_byte name).
  destruct (bool_decide_reflect (name = [])); cbn; [naive_solver|].
  destruct (starts_with "_" name), (ends_with "_" name), (contains "__" name),
    (forallb name_byte name); cbn; naive_solver.
Qed.

(** A valid name has no dot, so the suffixes of a file name cannot be confused. *)
Lemma name_byte_not_dot b : name_byte b = true → b ≠ "."%byte.
Proof. by intros H ->. Qed.

(** ** File names *)
Section filenames.
Implicit Types (s name : str) (f : MigrationFilename) (i : MigrationId).

Lemma split_version v name : 0 ≤ v → starts_with "_" name = false →
  split_once "__" (dec v ++ "__" ++ name) = Some (dec v, name).
Proof.
  intros Hv Hn. apply split_once_first; [done|]. intros l1 l2 Hl Hne.
  pose proof (dec_digits v Hv) as Hd. rewrite Hl in Hd. apply Forall_app in Hd as [_ Hd].
  destruct l2 as [|b l2]; [done|]. inversion Hd as [|?? Hb _]; subst. cbn.
  destruct (decide ("_"%byte = b)) as [<-|]; [|done]. vm_compute in Hb. naive_solver.
Qed.

Lemma strip_suffix_down x : strip_suffix ".up" (x ++ ".down") = None.
Proof.
  destruct (strip_suffix ".up" (x ++ ".down")) as [r|] eqn:E; [|done].
  apply strip_suffix_Some in E. apply (f_equal reverse) in E. rewrite !reverse_app in E. done.
Qed.

Lemma filename_parse_file_name f : valid_id (fn_id f) → filename_parse (file_name f) = Ok f.
Proof.
  destruct f as [[v name] kind]. intros [Hv Hn]. cbn [fn_id id_version id_name] in *.
  pose proof (proj1 (valid_name_spec name) Hn) as (_ & _ & Hs & _).
  unfold filename_parse, file_name. cbn [fn_id fn_kind].
  rewrite !app_assoc, strip_suffix_app. cbn [ok_or mbind result_bind].
  assert ((match strip_suffix ".up" ((id_display (mk_id v name) ++ ".") ++ suffix kind) with
    | Some base => Ok (base, Up)
    | None => match strip_suffix ".down" ((id_display (mk_id v name) ++ ".") ++ suffix kind) with
              | Some base => Ok (base, Down)
              | None => Err (InvalidFileName (((id_display (mk_id v name) ++ ".") ++ suffix kind) ++ ".sql") EXPECTED_FILE_NAME)
              end
    end) = Ok (id_display (mk_id v name), kind)) as ->.
  { rewrite <- app_assoc. destruct kind; cbn [suffix].
    - change ("." ++ "up"%s) with ".up"%s. by rewrite strip_suffix_app.
    - change ("." ++ "down"%s) with ".down"%s. by rewrite strip_suffix_down, strip_suffix_app. }
  cbn [mbind result_bind]. unfold id_display. cbn [id_version id_name].
  rewrite split_version by (done || apply Hv). cbn [ok_or mbind result_bind].
  rewrite parse_uint_dec by done. cbn [map_err mbind result_bind].
  unfold MigrationId_new. by rewrite Hn.
Qed.

(** What an accepted file name looks like. *)
Lemma filename_parse_Ok s f : filename_parse s = Ok f →
  valid_id (fn_id f) ∧ ∃ version, parse_uint 64 10 version = Ok (id_version (fn_id f))
    ∧ s = version ++ "__" ++ id_name (fn_id f) ++ "." ++ suffix (fn_kind f) ++ ".sql".
Proof.
  unfold filename_parse. intros H. apply result_bind_Ok in H as (stem & Hstem & H).
  apply ok_or_Ok, strip_suffix_Some in Hstem.
  apply result_bind_Ok in H as ([base kind] & Hkind & H).
  apply result_bind_Ok in H as ([version name] & Hsplit & H).
  apply ok_or_Ok, split_once_Some in Hsplit.
  apply result_bind_Ok in H as (v & Hv & H). apply map_err_Ok in Hv.
  apply result_bind_Ok in H as (i & Hi & H). injection H as <-.
  unfold MigrationId_new in Hi. apply result_bind_Ok in Hi as ([] & Hn & Hi). injection Hi as <-.
  cbn [fn_id fn_kind id_version id_name].
  split; [split; [eapply parse_uint_range; [..|exact Hv]; lia | exact Hn]|].
  exists version. split; [done|]. subst base s.
  assert (stem = version ++ "__" ++ name ++ "." ++ suffix kind) as ->; [|by rewrite <- !app_assoc].
  destruct (strip_suffix ".up" stem) as [b|] eqn:Hup.
  - injection Hkind as -> <-. apply strip_suffix_Some in Hup as ->. by rewrite <- !app_assoc.
  - destruct (strip_suffix ".down" stem) as [b|] eqn:Hdown; [|done].
    injection Hkind as -> <-. apply strip_suffix_Some in Hdown as ->. by rewrite <- !app_assoc.
Qed.
End filenames.

(** the grammar of migration file names.  The canonical name of every valid identifier and
    direction parses back to it; whatever parses has a valid identifier, is the text
    version, [__], name, [.up] or [.down], [.sql] with the version a 64-bit number, and its
    canonical name parses to the same thing. *)
Theorem filename_round_trip (f : MigrationFilename) (s : str) :
  (valid_id (fn_id f) → filename_parse (file_name f) = Ok f)
  ∧ (filename_parse s = Ok f →
       valid_id (fn_id f)
       ∧ filename_parse (file_name f) = Ok f
       ∧ ∃ version, parse_uint 64 10 version = Ok (id_version (fn_id f))
         ∧ s = version ++ "__" ++ id_name (fn_id f) ++ "." ++ suffix (fn_kind f) ++ ".sql").
Proof.
  split; [apply filename_parse_file_name|].
  intros [Hv Hs]%filename_parse_Ok. auto using filename_parse_file_name.
Qed.

Lemma filename_round_trip_witness :
  filename_parse "007__create_users.down.sql" = Ok (mk_filename (mk_id 7 "create_users") Down)
  ∧ filename_parse (file_name (mk_filename (mk_id 7 "create_users") Down))
    = Ok (mk_filename (mk_id 7 "create_users") Down).
Proof.
  split; [vm_compute; reflexivity|].
  apply (filename_round_trip (mk_filename (mk_id 7 "create_users") Down) "007__create_users.down.sql").
  vm_compute. reflexivity.
Defined.

(** ** Checksums *)
Definition all_bytes : list byte := map (λ n, byte_of (Z.of_nat n)) (seq 0 256).

Lemma elem_of_all_bytes b : b ∈ all_bytes.
Proof.
  apply list_elem_of_fmap. exists (Z.to_nat (u8_of b)). pose proof (u8_of_range b). split.
  - rewrite Z2Nat.id by lia. symmetry. apply byte_of_u8_of.
  - apply elem_of_seq. lia.
Qed.

Lemma forall_bytes (P : byte → bool) : forallb P all_bytes = true → ∀ b, P b = true.
Proof. intros H b. rewrite forallb_forall in H. apply H, list_elem_of_In, elem_of_all_bytes. Qed.

(** [str::to_ascii_lowercase] *)
Definition to_ascii_lowercase (s : str) : str :=
  map (λ b, if is_ascii_uppercase b then byte_of (u8_of b + 32) else b) s.

Definition hex_pair_ok (a b : byte) : bool :=
  negb (is_ascii_hexdigit a && is_ascii_hexdigit b) ||
  match parse_uint 8 16 [a; b] with
  | Ok x => bool_decide (hex2 (byte_of x) = to_ascii_lowercase [a; b])
  | Err _ => false
  end.

Lemma parse_hex_pair a b : is_ascii_hexdigit a = true → is_ascii_hexdigit b = true →
  ∃ x, parse_uint 8 16 [a; b] = Ok x ∧ hex2 (byte_of x) = to_ascii_lowercase [a; b].
Proof.
  intros Ha Hb. assert (hex_pair_ok a b = true) as H.
  { apply (forall_bytes (hex_pair_ok a)).
    apply (forall_bytes (λ a, forallb (hex_pair_ok a) all_bytes)). vm_compute. reflexivity. }
  unfold hex_pair_ok in H. rewrite Ha, Hb in H. cbn [andb negb orb] in H.
  destruct (parse_uint 8 16 [a; b]) as [x|]; [|done]. apply bool_decide_eq_true in H. eauto.
Qed.

Section checksums.
Implicit Types (c : MigrationChecksum) (hex s : str).

Lemma hex2_hexdigit b : forallb is_ascii_hexdigit (hex2 b) = true.
Proof. by destruct b. Qed.

Lemma hex2_lowercase b : to_ascii_lowercase (hex2 b) = hex2 b.
Proof. by destruct b. Qed.

Lemma length_to_hex c : length (to_hex c) = (2 * length c)%nat.
Proof. unfold to_hex. induction c as [|b c IH]; [done|]. cbn in *. lia. Qed.

Lemma to_hex_hexdigit c : forallb is_ascii_hexdigit (to_hex c) = true.
Proof.
  unfold to_hex. induction c as [|b c IH]; [done|]. cbn [map concat].
  by rewrite forallb_app, hex2_hexdigit, IH.
Qed.

Lemma to_hex_inj c1 c2 : to_hex c1 = to_hex c2 → c1 = c2.
Proof.
  revert c2. induction c1 as [|b1 c1 IH]; intros [|b2 c2]; [done..|].
  unfold to_hex. cbn [map concat]. unfold hex2. cbn [app]. intros H. injection H as Ha Hb Hc.
  assert (hex2 b1 = hex2 b2) as Hh by (unfold hex2; congruence).
  f_equal; [|by apply IH]. apply (f_equal (parse_uint 8 16)) in Hh. rewrite !parse_hex2 in Hh.
  injection Hh. apply u8_of_inj.
Qed.

(** Pairs of hexadecimal digits always parse, to the bytes whose lowercase rendering they are. *)
Lemma hex_bytes_Ok whole n hex :
  length hex = (2 * n)%nat → forallb is_ascii_hexdigit hex = true →
  ∃ c, hex_bytes whole hex = Ok c ∧ length c = n ∧ to_hex c = to_ascii_lowercase hex.
Proof.
  revert hex. induction n as [|n IH]; intros [|a [|b hex]] Hl Hh; cbn in Hl; try lia.
  - by exists [].
  - cbn [forallb] in Hh. rewrite !andb_true_iff in Hh. destruct Hh as (Ha & Hb & Hh).
    destruct (IH hex) as (c & Hc & Hlc & Hx); [lia|done|].
    destruct (parse_hex_pair a b Ha Hb) as (x & Hp & Hx2).
    exists (byte_of x :: c). cbn [hex_bytes]. rewrite Hp. cbn [map_err mbind result_bind].
    rewrite Hc. cbn [mbind result_bind]. split_and!; [done|cbn; lia|].
    unfold to_hex in *. cbn [map concat]. by rewrite Hx2, Hx.
Qed.
End checksums.

Lemma checksum_parse_Ok (hex : str) (c : MigrationChecksum) : checksum_parse hex = Ok c ↔
  length hex = 64%nat ∧ forallb is_ascii_hexdigit hex = true ∧ to_hex c = to_ascii_lowercase hex.
Proof.
  unfold checksum_parse.
  destruct (Nat.eqb_spec (length hex) 64) as [Hl|Hl]; cbn [negb orb]; [|naive_solver].
  destruct (forallb is_ascii_hexdigit hex) eqn:Hh; cbn [negb]; [|naive_solver].
  destruct (hex_bytes_Ok hex 32 hex Hl Hh) as (c' & -> & _ & Hx). split.
  - by intros [= <-].
  - intros (_ & _ & Hc). f_equal. apply to_hex_inj. congruence.
Qed.

Lemma checksum_parse_to_hex (c : MigrationChecksum) : length c = 32%nat → checksum_parse (to_hex c) = Ok c.
Proof.
  intros Hc. apply checksum_parse_Ok. rewrite length_to_hex, Hc. split_and!; [done| |].
  - apply to_hex_hexdigit.
  - clear. unfold to_hex. induction c as [|b c IH]; [done|]. cbn [map concat].
    unfold to_ascii_lowercase in *. rewrite map_app, <- IH. f_equal. symmetry. apply hex2_lowercase.
Qed.

(** What a checksum column may hold.  [MigrationChecksum::parse] accepts exactly 64
    hexadecimal digits, in either case, and the checksum is the one whose lowercase rendering
    they are; so rendering and parsing give every 32-byte checksum back. *)
Theorem checksum_parse_spec (hex : str) (c : MigrationChecksum) :
  (checksum_parse hex = Ok c ↔
     length hex = 64%nat ∧ forallb is_ascii_hexdigit hex = true ∧ to_hex c = to_ascii_lowercase hex)
  ∧ (length c = 32%nat → checksum_parse (to_hex c) = Ok c).
Proof. split; [apply checksum_parse_Ok | apply checksum_parse_to_hex]. Qed.

Lemma checksum_parse_spec_witness :
  let c := replicate 32 xab in checksum_parse (to_hex c) = Ok c ∧ to_hex c = concat (replicate 32 "ab"%s).
Proof.
  intros c. split; [|vm_compute; reflexivity].
  apply (checksum_parse_spec (to_hex c) c). vm_compute. reflexivity.
Defined.

(** ** Quoted names *)

(** What PostgreSQL's scanner reads between double quotes: a doubled quote stands for one. *)
Fixpoint read_quoted (q : byte) (acc rest : bytes) : option (str * bytes) :=
  match rest with
  | [] => None
  | b :: rest' =>
    if bool_decide (b = q) then
      match rest' with
      | b' :: rest'' => if bool_decide (b' = q) then read_quoted q (acc ++ [q]) rest'' else Some (acc, rest')
      | [] => Some (acc, [])
      end
    else read_quoted q (acc ++ [b]) rest'
  end.

Definition not_starting (q : byte) (rest : bytes) : Prop := head rest ≠ Some q.

Lemma read_quoted_replace q acc v rest : not_starting q rest →
  read_quoted q acc (replace_byte q [q; q] v ++ q :: rest) = Some (acc ++ v, rest).
Proof.
  intros Hr. revert acc. induction v as [|b v IH]; intros acc.
  - cbn. rewrite bool_decide_eq_true_2, app_nil_r by done. destruct rest as [|b rest]; [done|].
    rewrite bool_decide_eq_false_2; [done|]. intros ->. by destruct Hr.
  - unfold replace_byte in *. cbn [map concat]. rewrite (cons_middle b acc v), (app_assoc acc [b] v), <- IH.
    destruct (decide (b = q)) as [->|Hb]; cbn.
    + by rewrite !bool_decide_eq_true_2.
    + by rewrite (bool_decide_eq_false_2 (b = q)).
Qed.

(** [schema.table] as the server reads it. *)
Definition read_qualified (s : bytes) : option (str * str * bytes) :=
  match s with
  | x22 :: rest =>
    '(schema, rest) ← read_quoted x22 [] rest;
    match rest with
    | x2e :: x22 :: rest => '(name, rest) ← read_quoted x22 [] rest; Some (schema, name, rest)
    | _ => None
    end
  | _ => None
  end.

Lemma validate_part_Ok schema name part : validate_part schema name part = Ok tt →
  let value := if bool_decide (part = "schema"%s) then schema else name in trim value ≠ [] ∧ x00 ∉ value.
Proof.
  unfold validate_part. set (value := if bool_decide _ then schema else name). cbn.
  destruct (bool_decide_reflect (trim value = [])), (bool_decide_reflect (x00 ∈ value)); done.
Qed.

(** the state table's quoted name cannot be broken out of: in any statement that goes on
    with something other than a quote, the server reads back exactly the schema and table the
    configuration holds, whatever characters they have; and validation only lets non-blank
    names without NUL through. *)
Theorem qualified_name_safe (schema name : str) (rest : bytes) (t : MigrationTable) :
  not_starting x22 rest → MigrationTable_new schema name = Ok t →
  read_qualified (qualified_name t ++ rest) = Some (schema, name, rest)
  ∧ trim schema ≠ [] ∧ trim name ≠ [] ∧ x00 ∉ schema ∧ x00 ∉ name.
Proof.
  intros Hr H. unfold MigrationTable_new in H.
  apply result_bind_Ok in H as ([] & Hs & H). apply result_bind_Ok in H as ([] & Hn & H).
  injection H as <-. split.
  - unfold qualified_name, quote_ident, read_qualified. cbn [table_schema table_name app].
    rewrite <- !app_assoc. cbn [app].
    rewrite read_quoted_replace by done. cbn. rewrite <- !app_assoc. cbn [app].
    by rewrite read_quoted_replace by done.
  - apply validate_part_Ok in Hs, Hn. cbn in *. naive_solver.
Qed.

(** A schema with a double quote in it. *)
Definition odd_schema : str := [x61; x22; x62].

Lemma qualified_name_safe_witness :
  ∃ t, MigrationTable_new odd_schema "t" = Ok t
    ∧ read_qualified (qualified_name t ++ " WHERE") = Some (odd_schema, "t"%s, " WHERE"%s).
Proof.
  eexists. split; [vm_compute; reflexivity|].
  apply (qualified_name_safe odd_schema "t" " WHERE"); [done | vm_compute; reflexivity].
Defined.
