(* ===== verification/MigrationPlan.v ===== *)
(** * The migration catalog and its plans: [migration/plan.rs]

    Building the catalog from raw assets, reconciling it with the rows of the state table, and
    the plans to apply what is pending or to roll back what is applied. *)
From S2P Require Import Prelude Bytes Text Error Scram BTree Migration.

Local Open Scope Z_scope.
Local Open Scope str_scope.

(** ** Pairing *)
Record PairBuilder := mk_builder {
  pb_id : MigrationId;
  pb_up : option (MigrationScript * bytes);
  pb_down : option (MigrationScript * bytes);
}.

Definition PairBuilder_new (i : MigrationId) : PairBuilder := mk_builder i None None.

Definition pb_insert (b : PairBuilder) (script : MigrationScript) (source_path : bytes)
  : result MigrationError PairBuilder :=
  let slot := match script_kind script with Up => pb_up b | Down => pb_down b end in
  match slot with
  | Some (_, existing_path) =>
    Err (DuplicateMigrationScript (id_display (pb_id b)) (suffix (script_kind script)) existing_path source_path)
  | None =>
    Ok match script_kind script with
       | Up => mk_builder (pb_id b) (Some (script, source_path)) (pb_down b)
       | Down => mk_builder (pb_id b) (pb_up b) (Some (script, source_path))
       end
  end.

Definition pb_finish (b : PairBuilder) : result MigrationError MigrationPair :=
  '(up, _) ← ok_or (pb_up b) (MissingMigrationScript (id_display (pb_id b)) (suffix Up));
  '(down, _) ← ok_or (pb_down b) (MissingMigrationScript (id_display (pb_id b)) (suffix Down));
  MigrationPair_new up down.

(** ** The catalog *)
Record MigrationCatalog := mk_catalog { pairs : list MigrationPair }.

Definition Builders := list (MigrationId * PairBuilder).
Definition Versions := list (Z * str).

(** The body of the loop, after the asset is parsed. *)
Definition add_script (st : Builders * Versions) (script : MigrationScript) (source_path : bytes)
  : result MigrationError (Builders * Versions) :=
  let '(builders, versions) := st in
  let i := script_id script in
  versions ← (match bt_get (id_version i) versions with
              | None => Ok (bt_insert (id_version i) (id_name i) versions)
              | Some existing =>
                if negb (bool_decide (existing = id_name i))
                then Err (ConflictingMigrationVersion (id_version i) existing (id_name i))
                else Ok versions
              end);
  b ← pb_insert (default (PairBuilder_new i) (bt_get i builders)) script source_path;
  Ok (bt_insert i b builders, versions).

Section catalog.
Context `{Crypto}.

Definition add_asset (st : Builders * Versions) (a : MigrationAsset)
  : result MigrationError (Builders * Versions) :=
  script ← asset_parse a;
  add_script st script (asset_path a).

Definition from_assets (assets : list MigrationAsset) : result MigrationError MigrationCatalog :=
  '(builders, _) ← fold_result add_asset ([], []) assets;
  ps ← map_result (λ x, pb_finish x.2) builders;
  Ok (mk_catalog ps).

Definition from_source (s : MigrationSource) : result MigrationError MigrationCatalog :=
  assets ← load s;
  from_assets assets.
End catalog.

(** ** Reconciling with the applied rows *)
Section plans.
Context {T : Type}.
Implicit Types (a : AppliedMigration T).

Definition changed (what from to : str) : str := what ++ " changed from " ++ from ++ " to " ++ to.

Definition verify_drift a (mp : MigrationPair) : result MigrationError unit :=
  let drift reason := Err (DriftDetected (id_display (applied_id a)) reason) in
  if negb (bool_decide (up_checksum a = script_checksum (pair_up mp))) then
    drift (changed "up checksum" (to_hex (up_checksum a)) (to_hex (script_checksum (pair_up mp))))
  else if negb (bool_decide (down_checksum a = script_checksum (pair_down mp))) then
    drift (changed "down checksum" (to_hex (down_checksum a)) (to_hex (script_checksum (pair_down mp))))
  else if negb (bool_decide (up_transaction_mode a = script_mode (pair_up mp))) then
    drift (changed "up transaction mode" (mode_str (up_transaction_mode a)) (mode_str (script_mode (pair_up mp))))
  else if negb (bool_decide (down_transaction_mode a = script_mode (pair_down mp))) then
    drift (changed "down transaction mode" (mode_str (down_transaction_mode a)) (mode_str (script_mode (pair_down mp))))
  else Ok tt.

(** The loop: [previous] is the identifier of the row before, [source] the catalog from the
    row's index on. *)
Fixpoint reconcile_from (previous : option MigrationId) (source : list MigrationPair)
    (applied : list (AppliedMigration T)) {struct applied} : result MigrationError unit :=
  match applied with
  | [] => Ok tt
  | a :: applied =>
    let current := applied_id a in
    _ ← (match previous with
         | Some previous =>
           if negb (key_lt previous current) then
             Err (AppliedMigrationOrderMismatch ("migration after " ++ id_display previous) (id_display current))
           else Ok tt
         | None => Ok tt
         end);
    match source with
    | [] => Err (AppliedMigrationMissing (id_display current))
    | mp :: source =>
      if negb (bool_decide (pair_id mp = current)) then
        Err (AppliedMigrationOrderMismatch (id_display (pair_id mp)) (id_display current))
      else verify_drift a mp;; reconcile_from (Some current) source applied
    end
  end.

Definition reconcile (c : MigrationCatalog) (applied : list (AppliedMigration T))
  : result MigrationError (list (AppliedMigration T)) :=
  reconcile_from None (pairs c) applied;; Ok applied.

(** ** Status *)
Inductive MigrationStatusState := Applied (a : AppliedMigration T) | Pending.
Record MigrationStatusEntry := mk_entry { entry_pair : MigrationPair; entry_state : MigrationStatusState }.
Record MigrationStatus := mk_status { entries : list MigrationStatusEntry; applied_count : nat }.

Definition pending_count (s : MigrationStatus) : nat := length (entries s) - applied_count s.

Definition status (c : MigrationCatalog) (applied : list (AppliedMigration T)) : result MigrationError MigrationStatus :=
  applied_prefix ← reconcile c applied;
  Ok (mk_status
        (imap (λ index mp, mk_entry mp match applied_prefix !! index with
                                           | Some a => Applied a
                                           | None => Pending
                                           end) (pairs c))
        (length applied)).

(** ** Plans *)
Inductive MigrationPlanDirection := DirApply | DirRollback.
Inductive MigrationPlanStep :=
  | Apply (mp : MigrationPair)
  | Rollback (mp : MigrationPair) (a : AppliedMigration T).
Record MigrationPlan := mk_plan { direction : MigrationPlanDirection; steps : list MigrationPlanStep }.

Definition step_pair (s : MigrationPlanStep) : MigrationPair :=
  match s with Apply mp | Rollback mp _ => mp end.
Definition step_kind (s : MigrationPlanStep) : MigrationKind :=
  match s with Apply _ => Up | Rollback _ _ => Down end.
Definition step_applied (s : MigrationPlanStep) : option (AppliedMigration T) :=
  match s with Apply _ => None | Rollback _ a => Some a end.

Definition plan_apply (c : MigrationCatalog) (applied : list (AppliedMigration T))
  : result MigrationError MigrationPlan :=
  applied_prefix ← reconcile c applied;
  Ok (mk_plan DirApply (map Apply (drop (length applied_prefix) (pairs c)))).

(** [self.pairs[index]] is in bounds after [reconcile]. *)
Definition plan_rollback (c : MigrationCatalog) (applied : list (AppliedMigration T)) (n : nat)
  : result MigrationError MigrationPlan :=
  applied_prefix ← reconcile c applied;
  Ok (mk_plan DirRollback
        (omap (λ x, mp ← pairs c !! x.1; Some (Rollback mp x.2))
           (take n (reverse (imap pair applied_prefix))))).
End plans.
Arguments MigrationStatusState : clear implicits.
Arguments MigrationPlanStep : clear implicits.
Arguments MigrationPlan : clear implicits.

(** ** [mod.rs]: the migrator's views *)
Section migrator.
Context `{Crypto} {T : Type}.

Definition migrator_catalog (m : Migrator) : result MigrationError MigrationCatalog := from_source (migrator_source m).
Definition migrator_status (m : Migrator) (applied : list (AppliedMigration T)) : result MigrationError (MigrationStatus (T := T)) :=
  c ← migrator_catalog m; status c applied.
Definition migrator_plan_apply (m : Migrator) (applied : list (AppliedMigration T)) : result MigrationError (MigrationPlan T) :=
  c ← migrator_catalog m; plan_apply c applied.
Definition migrator_plan_rollback (m : Migrator) (applied : list (AppliedMigration T)) (n : nat) : result MigrationError (MigrationPlan T) :=
  c ← migrator_catalog m; plan_rollback c applied n.
End migrator.

(** ** What a catalog is *)
Definition pair_ok (p : MigrationPair) : Prop :=
  script_id (pair_up p) = pair_id p ∧ script_kind (pair_up p) = Up
  ∧ script_id (pair_down p) = pair_id p ∧ script_kind (pair_down p) = Down.

Definition version_before (p q : MigrationPair) : Prop :=
  id_version (pair_id p) < id_version (pair_id q).

(** Pairs of matching scripts, versions strictly increasing. *)
Definition catalog_wf (c : MigrationCatalog) : Prop :=
  Forall pair_ok (pairs c) ∧ StronglySorted version_before (pairs c).

Definition pair_scripts (p : MigrationPair) : list MigrationScript := [pair_up p; pair_down p].
Definition scripts (c : MigrationCatalog) : list MigrationScript := pairs c ≫= pair_scripts.

Section pairing.
Implicit Types (b : PairBuilder) (s : MigrationScript) (i : MigrationId) (k : MigrationKind) (p : MigrationPair).

Definition slot_of k b : option (MigrationScript * bytes) := match k with Up => pb_up b | Down => pb_down b end.
Definition slot_scripts (o : option (MigrationScript * bytes)) : list MigrationScript :=
  match o with Some x => [x.1] | None => [] end.
Definition pb_scripts b : list MigrationScript := slot_scripts (pb_up b) ++ slot_scripts (pb_down b).

Definition builder_ok i b : Prop :=
  pb_id b = i ∧ pb_scripts b ≠ []
  ∧ ∀ k s q, slot_of k b = Some (s, q) → script_id s = i ∧ script_kind s = k.

Record loop_inv (done : list MigrationScript) (st : Builders * Versions) : Prop := {
  inv_sorted : bt_sorted st.1;
  inv_versions_sorted : bt_sorted st.2;
  inv_versions s : s ∈ done → bt_get (id_version (script_id s)) st.2 = Some (id_name (script_id s));
  inv_versions_from v n : bt_get v st.2 = Some n →
    ∃ s, s ∈ done ∧ id_version (script_id s) = v ∧ id_name (script_id s) = n;
  inv_builders i b : bt_get i st.1 = Some b → builder_ok i b;
  inv_scripts : (st.1 ≫= λ x, pb_scripts x.2) ≡ₚ done;
}.

Lemma loop_inv_perm done done' st : done ≡ₚ done' → loop_inv done st → loop_inv done' st.
Proof.
  intros Hp []. split; [done..| | |done|].
  - intros s Hs. apply inv_versions0. by rewrite Hp.
  - intros v n Hg. destruct (inv_versions_from0 v n Hg) as (s & Hs & ?). exists s. by rewrite <- Hp.
  - by rewrite <- Hp.
Qed.

Lemma loop_inv_init : loop_inv [] ([], []).
Proof. by split; cbn; try done; try set_solver. Qed.

Lemma elem_of_pb_scripts s b : s ∈ pb_scripts b ↔ ∃ k q, slot_of k b = Some (s, q).
Proof.
  unfold pb_scripts, slot_scripts. split.
  - destruct (pb_up b) as [[su qu]|] eqn:Hu, (pb_down b) as [[sd qd]|] eqn:Hd; cbn [app fst].
    + intros [->| ->%list_elem_of_singleton]%elem_of_cons; [exists Up|exists Down]; cbn; eauto.
    + intros ->%list_elem_of_singleton. exists Up. cbn. eauto.
    + intros ->%list_elem_of_singleton. exists Down. cbn. eauto.
    + by intros ?%elem_of_nil.
  - intros ([|] & q & Hs); cbn in Hs; rewrite Hs; set_solver.
Qed.

(** A script already read is in the builder of its identifier. *)
Lemma inv_slot done st s : loop_inv done st → s ∈ done →
  ∃ b q, bt_get (script_id s) st.1 = Some b ∧ slot_of (script_kind s) b = Some (s, q).
Proof.
  intros Hinv Hs. rewrite <- (inv_scripts _ _ Hinv) in Hs.
  apply list_elem_of_bind in Hs as ([i b] & Hb & Hin). cbn in Hb.
  pose proof (get_in _ _ _ (inv_sorted _ _ Hinv) Hin) as Hg.
  apply elem_of_pb_scripts in Hb as (k & q & Hk).
  destruct (inv_builders _ _ Hinv _ _ Hg) as (_ & _ & Hok). destruct (Hok _ _ _ Hk) as [<- <-].
  by exists b, q.
Qed.

Lemma pb_insert_Ok b s q b' : pb_insert b s q = Ok b' →
  slot_of (script_kind s) b = None ∧ pb_id b' = pb_id b ∧ pb_scripts b' ≡ₚ s :: pb_scripts b
  ∧ ∀ k, slot_of k b' = if decide (k = script_kind s) then Some (s, q) else slot_of k b.
Proof.
  unfold pb_insert, pb_scripts. destruct (script_kind s) eqn:Hk; cbn [slot_of].
  - destruct (pb_up b) as [[? ?]|]; intros [= <-]. cbn. split_and!; [done..|]. by intros [].
  - destruct (pb_down b) as [[? ?]|]; intros [= <-]. cbn. split_and!; [done..| |by intros []].
    rewrite app_nil_r. by rewrite Permutation_app_comm.
Qed.

Lemma add_script_inv done st s q st' :
  loop_inv done st → add_script st s q = Ok st' → loop_inv (s :: done) st'.
Proof.
  destruct st as [builders versions]. intros Hinv H. unfold add_script in H.
  apply result_bind_Ok in H as (versions' & Hv & H). apply result_bind_Ok in H as (b & Hb & H).
  injection H as <-. destruct Hinv as [Hs Hvs Hver Hfrom Hok Hscr]. cbn [fst snd] in *.
  apply pb_insert_Ok in Hb as (Hfree & Hid & Hperm & Hslot).
  set (i := script_id s) in *. set (b0 := default (PairBuilder_new i) (bt_get i builders)) in *.
  assert (pb_id b0 = i ∧ ∀ k s0 q0, slot_of k b0 = Some (s0, q0) → script_id s0 = i ∧ script_kind s0 = k) as [Hid0 Hok0].
  { unfold b0. destruct (bt_get i builders) as [b1|] eqn:Hg; cbn.
    - destruct (Hok i b1 Hg) as (? & _ & ?). done.
    - split; [done|]. by intros []. }
  assert (versions' = bt_insert (id_version i) (id_name i) versions) as ->.
  { destruct (bt_get (id_version i) versions) as [n|] eqn:Hg; [|by injection Hv].
    destruct (bool_decide_reflect (n = id_name i)) as [->|]; [|done]. injection Hv as <-.
    apply bt_ext; [done|by apply insert_sorted|]. intros v.
    destruct (decide (v = id_version i)) as [->|]; [by rewrite get_insert|by rewrite get_insert_ne]. }
  assert (∀ n, bt_get (id_version i) versions = Some n → n = id_name i) as Hsame.
  { intros n Hg. rewrite Hg in Hv. by destruct (bool_decide_reflect (n = id_name i)). }
  split; cbn [fst snd]; [by apply insert_sorted..| | | |].
  - intros s0 [->|Hin]%elem_of_cons; [by apply get_insert|].
    destruct (decide (id_version (script_id s0) = id_version i)) as [He|Hne].
    + rewrite He, get_insert by done. f_equal. symmetry. apply Hsame. rewrite <- He. by apply Hver.
    + rewrite get_insert_ne by done. by apply Hver.
  - intros v n. destruct (decide (v = id_version i)) as [->|Hne].
    + rewrite get_insert by done. intros [= <-]. exists s. split; [left|done].
    + rewrite get_insert_ne by done. intros (s0 & Hs0 & ?)%Hfrom. exists s0. split; [by right|done].
  - intros i' b'. destruct (decide (i' = i)) as [->|Hne].
    + rewrite get_insert by done. intros [= <-]. split_and!; [congruence|intros Hn; by rewrite Hn in Hperm; apply Permutation_nil in Hperm|].
      intros k s0 q0. rewrite Hslot. case_decide as Hk; [intros [= <- <-]; by rewrite Hk|apply Hok0].
    + rewrite get_insert_ne by done. apply Hok.
  - rewrite <- Hscr. unfold b0 in Hperm. destruct (bt_get i builders) as [b1|] eqn:Hg; cbn in Hperm.
    + destruct (insert_old_perm i b b1 builders Hs Hg) as (m' & Hm & ->). rewrite Hm. cbn. by rewrite Hperm.
    + rewrite (insert_new_perm i b builders Hs Hg). cbn. by rewrite Hperm.
Qed.
End pairing.

Section building.
Context `{Crypto}.
Implicit Types (s : MigrationScript) (c : MigrationCatalog) (p : MigrationPair) (assets : list MigrationAsset).

(** Scripts that fit together: a version has one name, and no identifier has two scripts of
    the same direction. *)
Definition coherent (ss : list MigrationScript) : Prop :=
  NoDup (map (λ s, (script_id s, script_kind s)) ss)
  ∧ ∀ s s', s ∈ ss → s' ∈ ss → id_version (script_id s) = id_version (script_id s') → script_id s = script_id s'.

Lemma coherent_perm ss ss' : ss ≡ₚ ss' → coherent ss → coherent ss'.
Proof. intros Hp [Hn Hv]. split; [by rewrite <- Hp | intros s s'; rewrite <- Hp; apply Hv]. Qed.

Lemma add_script_succeeds done st s q :
  loop_inv done st → coherent (s :: done) → ∃ st', add_script st s q = Ok st'.
Proof.
  destruct st as [builders versions]. intros Hinv [Hnd Hver]. unfold add_script.
  assert (∃ versions', match bt_get (id_version (script_id s)) versions with
    | None => Ok (bt_insert (id_version (script_id s)) (id_name (script_id s)) versions)
    | Some existing => if negb (bool_decide (existing = id_name (script_id s)))
        then Err (ConflictingMigrationVersion (id_version (script_id s)) existing (id_name (script_id s)))
        else Ok versions
    end = Ok versions') as [versions' ->].
  { destruct (bt_get _ versions) as [n|] eqn:Hg; [|by eexists].
    destruct (inv_versions_from _ _ Hinv _ _ Hg) as (s' & Hs' & Hv & <-).
    rewrite (Hver s' s), bool_decide_eq_true_2; [by eexists|done|by right|left|done]. }
  cbn [mbind result_bind]. unfold pb_insert.
  destruct (match script_kind s with Up => _ | Down => _ end) as [[s' q']|] eqn:Hslot; [|by eexists].
  exfalso. set (b := default (PairBuilder_new (script_id s)) (bt_get (script_id s) builders)) in *.
  assert (slot_of (script_kind s) b = Some (s', q')) as Hsl by (by destruct (script_kind s)).
  unfold b in Hsl. destruct (bt_get (script_id s) builders) as [b1|] eqn:Hg; [|by destruct (script_kind s)].
  cbn in Hsl. destruct (inv_builders _ _ Hinv _ _ Hg) as (_ & _ & Hok). destruct (Hok _ _ _ Hsl) as [Hi Hk].
  assert (s' ∈ done) as Hin.
  { rewrite <- (inv_scripts _ _ Hinv). apply list_elem_of_bind. exists (script_id s, b1). split.
    - cbn. apply elem_of_pb_scripts. eauto.
    - by apply get_Some_in. }
  cbn in Hnd. apply NoDup_cons in Hnd as [Hnd _]. apply Hnd, list_elem_of_fmap.
  exists s'. by rewrite Hi, Hk.
Qed.

(** The loop: it succeeds exactly on assets that parse to coherent scripts. *)
Lemma fold_assets_inv assets done st st' :
  loop_inv done st → fold_result add_asset st assets = Ok st' →
  ∃ ss, map asset_parse assets = map Ok ss ∧ loop_inv (ss ++ done) st'.
Proof.
  revert done st. induction assets as [|a assets IH]; intros done st Hinv H0.
  - injection H0 as <-. by exists [].
  - cbn [fold_result] in H0. apply result_bind_Ok in H0 as (st1 & Ha & H0).
    unfold add_asset in Ha. apply result_bind_Ok in Ha as (s & Hs & Ha).
    destruct (IH (s :: done) st1) as (ss & Hss & Hinv'); [by eapply add_script_inv|done|].
    exists (s :: ss). split; [cbn; by rewrite Hs, Hss|].
    eapply loop_inv_perm; [|exact Hinv']. cbn. by rewrite Permutation_middle.
Qed.

Lemma fold_assets_succeeds assets ss done st :
  loop_inv done st → map asset_parse assets = map Ok ss → coherent (ss ++ done) →
  ∃ st', fold_result add_asset st assets = Ok st' ∧ loop_inv (ss ++ done) st'.
Proof.
  revert ss done st. induction assets as [|a assets IH]; intros [|s ss] done st Hinv Hm Hc; try discriminate Hm.
  - by exists st.
  - cbn [map] in Hm. injection Hm as Ha Hm. cbn [fold_result]. 
    change (add_asset st a) with (script ← asset_parse a; add_script st script (asset_path a)). rewrite Ha.
    cbn [mbind result_bind].
    assert (coherent (s :: done)) as Hc1.
    { destruct Hc as [Hn Hv]. split.
      - change ((s :: ss) ++ done) with (s :: (ss ++ done)) in Hn. cbn [map] in *.
        apply NoDup_cons in Hn as [Hi Hn]. rewrite map_app in Hi, Hn. apply NoDup_app in Hn as (_ & _ & Hn).
        apply NoDup_cons. split; [|done]. intros Hd. apply Hi, elem_of_app. by right.
      - intros s1 s2 Hs1 Hs2. apply Hv; cbn; rewrite elem_of_cons, elem_of_app;
          [apply elem_of_cons in Hs1 | apply elem_of_cons in Hs2]; naive_solver. }
    destruct (add_script_succeeds done st s (asset_path a) Hinv Hc1) as [st1 Hst1]. rewrite Hst1.
    cbn [mbind result_bind].
    destruct (IH ss (s :: done) st1) as (st' & Hst' & Hinv').
    + by eapply add_script_inv.
    + done.
    + eapply coherent_perm; [|exact Hc]. cbn. by rewrite Permutation_middle.
    + exists st'. split; [done|]. eapply loop_inv_perm; [|exact Hinv']. cbn. by rewrite Permutation_middle.
Qed.

(** *** Finishing the builders *)
Lemma pb_finish_Ok i b p : builder_ok i b → pb_finish b = Ok p →
  pair_ok p ∧ pair_id p = i ∧ pb_scripts b = pair_scripts p.
Proof.
  intros (Hid & _ & Hok) Hf. unfold pb_finish in Hf.
  apply result_bind_Ok in Hf as ([su qu] & Hu & Hf). apply ok_or_Ok in Hu.
  apply result_bind_Ok in Hf as ([sd qd] & Hd & Hf). apply ok_or_Ok in Hd.
  destruct (Hok Up su qu Hu) as [Hiu Hku], (Hok Down sd qd Hd) as [Hid' Hkd].
  unfold MigrationPair_new in Hf. rewrite Hku, Hkd, Hiu, Hid', !bool_decide_eq_true_2 in Hf by done.
  injection Hf as <-. unfold pair_ok, pb_scripts. cbn. by rewrite Hu, Hd.
Qed.

Lemma finish_both i b su qu sd qd : builder_ok i b →
  slot_of Up b = Some (su, qu) → slot_of Down b = Some (sd, qd) → is_ok (pb_finish b).
Proof.
  intros (Hid & _ & Hok) Hu Hd. destruct (Hok Up su qu Hu) as [Hiu Hku], (Hok Down sd qd Hd) as [Hid' Hkd].
  unfold pb_finish. cbn in Hu, Hd. rewrite Hu, Hd. cbn [ok_or mbind result_bind].
  unfold MigrationPair_new. rewrite Hku, Hkd, Hiu, Hid', !bool_decide_eq_true_2 by done. by eexists.
Qed.

Lemma builders_sorted_by_version done st : loop_inv done st →
  ∀ m, bt_sorted m → (∀ x, x ∈ m → x ∈ st.1) →
  StronglySorted (λ x y : MigrationId * PairBuilder, id_version x.1 < id_version y.1) m.
Proof.
  intros Hinv m. induction m as [|[i b] m IH]; [constructor|]. intros [Ha Hs] Hsub. constructor.
  { apply IH; [done|]. intros x Hx. apply Hsub. by right. }
  apply Forall_forall. intros [i' b'] Hx. cbn.
  assert (∀ i b, (i, b) ∈ st.1 → ∃ s, s ∈ done ∧ script_id s = i) as Hnon.
  { intros i0 b0 Hin. pose proof (get_in _ _ _ (inv_sorted _ _ Hinv) Hin) as Hg.
    destruct (inv_builders _ _ Hinv _ _ Hg) as (_ & Hne & Hok).
    destruct (pb_scripts b0) as [|s l] eqn:Hps; [done|]. exists s. split.
    - rewrite <- (inv_scripts _ _ Hinv). apply list_elem_of_bind. exists (i0, b0). cbn. rewrite Hps. split; [left|done].
    - assert (s ∈ pb_scripts b0) as Hin0 by (rewrite Hps; left). apply elem_of_pb_scripts in Hin0 as (k & q & Hk).
      by destruct (Hok _ _ _ Hk). }
  destruct (Hnon i b) as (s & Hs1 & <-); [apply Hsub; left|].
  destruct (Hnon i' b') as (s' & Hs2 & <-); [apply Hsub; by right|].
  pose proof (proj1 (Forall_forall _ _) Ha _ Hx) as Hlt. cbn in Hlt.
  apply orb_true_iff in Hlt as [Hlt%Z.ltb_lt|[Heq%Z.eqb_eq Hlt]%andb_true_iff]; [done|exfalso].
  pose proof (inv_versions _ _ Hinv _ Hs1) as H1'. pose proof (inv_versions _ _ Hinv _ Hs2) as H2'.
  rewrite Heq, H2' in H1'. injection H1' as Hn. rewrite Hn in Hlt.
  by pose proof (key_lt_irrefl (id_name (script_id s))) as Hirr; cbn in Hirr; rewrite Hirr in Hlt.
Qed.

Lemma finish_catalog done st ps : loop_inv done st → map_result (λ x, pb_finish x.2) st.1 = Ok ps →
  catalog_wf (mk_catalog ps) ∧ scripts (mk_catalog ps) ≡ₚ done.
Proof.
  intros Hinv Hm. apply map_result_Ok in Hm.
  assert (Forall (λ x, builder_ok x.1 x.2) st.1) as Hok.
  { apply Forall_forall. intros [i b] Hx. apply (inv_builders _ _ Hinv). apply get_in; [apply Hinv|done]. }
  pose proof (builders_sorted_by_version done st Hinv st.1 (inv_sorted _ _ Hinv) ltac:(auto)) as Hsort.
  rewrite <- (inv_scripts _ _ Hinv). unfold catalog_wf, scripts. cbn [pairs].
  clear Hinv. induction Hm as [|[i b] p l ps Hf Hm IH]; [by repeat constructor|].
  inversion Hok as [|?? Hb Hok']; subst. inversion Hsort as [|?? Hsort' Hbefore]; subst. cbn in Hf, Hb.
  destruct (pb_finish_Ok i b p Hb Hf) as (Hp & Hi & Hs). destruct (IH Hok' Hsort') as ([Hps Hss] & Hscr).
  cbn [mbind list_bind]. split; [split; constructor; try done|].
  - clear IH Hps Hss Hscr Hsort Hsort' Hok. induction Hm as [|[i' b'] p' l ps Hf' Hm IH]; [constructor|].
    inversion Hok' as [|?? Hb' Hok'']; subst. inversion Hbefore; subst. cbn in *.
    destruct (pb_finish_Ok i' b' p' Hb' Hf') as (_ & Hi' & _). constructor; [|by apply IH].
    unfold version_before. by rewrite Hi'.
  - cbn. by rewrite Hs, <- Hscr.
Qed.
End building.

(** *** A well-formed catalog is determined by its scripts *)
Section catalogs.
Implicit Types (s : MigrationScript) (c : MigrationCatalog) (p q : MigrationPair).

Lemma elem_of_scripts s c : s ∈ scripts c ↔ ∃ p, p ∈ pairs c ∧ (s = pair_up p ∨ s = pair_down p).
Proof.
  unfold scripts. rewrite list_elem_of_bind. unfold pair_scripts. setoid_rewrite elem_of_cons.
  setoid_rewrite list_elem_of_singleton. naive_solver.
Qed.

Lemma sorted_version_inj ps p q :
  StronglySorted version_before ps → p ∈ ps → q ∈ ps →
  id_version (pair_id p) = id_version (pair_id q) → p = q.
Proof.
  induction 1 as [|p0 ps Hs IH Ha]; [set_solver|]. rewrite Forall_forall in Ha. unfold version_before in Ha.
  intros [->|Hp]%elem_of_cons [->|Hq]%elem_of_cons He; [done| | |by apply IH].
  - pose proof (Ha _ Hq). lia.
  - pose proof (Ha _ Hp). lia.
Qed.

Lemma catalog_scripts_subset c1 c2 p :
  catalog_wf c1 → catalog_wf c2 → (∀ s, s ∈ scripts c1 → s ∈ scripts c2) → p ∈ pairs c1 → p ∈ pairs c2.
Proof.
  intros [Hok1 _] [Hok2 Hs2] Hsub Hp. rewrite !Forall_forall in Hok1, Hok2.
  destruct (Hok1 p Hp) as (Hui & Huk & Hdi & Hdk).
  destruct (proj1 (elem_of_scripts (pair_up p) c2)) as (q & Hq & Hqs).
  { apply Hsub, elem_of_scripts. eauto. }
  destruct (proj1 (elem_of_scripts (pair_down p) c2)) as (q' & Hq' & Hqs').
  { apply Hsub, elem_of_scripts. eauto. }
  destruct (Hok2 q Hq) as (Hui2 & Huk2 & Hdi2 & Hdk2), (Hok2 q' Hq') as (Hui3 & Huk3 & Hdi3 & Hdk3).
  assert (pair_up p = pair_up q) as Hup by (destruct Hqs as [?|Hd]; [done|congruence]).
  assert (pair_down p = pair_down q') as Hdown by (destruct Hqs' as [Hd|?]; [congruence|done]).
  assert (q' = q) as ->.
  { apply (sorted_version_inj (pairs c2)); [done..|]. congruence. }
  assert (p = q) as ->; [|done]. destruct p, q; cbn in *. congruence.
Qed.

Lemma catalog_unique c1 c2 :
  catalog_wf c1 → catalog_wf c2 → scripts c1 ≡ₚ scripts c2 → c1 = c2.
Proof.
  intros H1 H2 Hp. assert (∀ p, p ∈ pairs c1 ↔ p ∈ pairs c2) as He.
  { intros p. split; apply catalog_scripts_subset; try done; intros s; by rewrite Hp. }
  assert (∀ ps, StronglySorted version_before ps → NoDup ps) as Hnd.
  { induction 1 as [|p ps Hs IH Ha]; constructor; [|done]. intros Hin.
    rewrite Forall_forall in Ha. pose proof (Ha _ Hin). unfold version_before in *. lia. }
  destruct c1 as [ps1], c2 as [ps2]. f_equal. cbn [pairs] in *.
  apply (StronglySorted_unique_strong version_before); [|apply H1|apply H2|].
  - intros p q _ _ Hpq Hqp. unfold version_before in *. lia.
  - apply NoDup_Permutation; [apply Hnd, H1|apply Hnd, H2|done].
Qed.

Lemma catalog_coherent c : catalog_wf c → coherent (scripts c).
Proof.
  intros Hwf. destruct c as [ps]. destruct Hwf as [Hok Hs]. cbn [pairs] in *. split.
  - unfold scripts. cbn [pairs]. induction Hs as [|p ps Hs IH Ha]; [constructor|].
    inversion Hok as [|?? (Hui & Huk & Hdi & Hdk) Hok']; subst. cbn [mbind list_bind pair_scripts app map].
    rewrite Hui, Huk, Hdi, Hdk.
    assert (∀ k, (pair_id p, k) ∉ map (λ s, (script_id s, script_kind s)) (ps ≫= pair_scripts)) as Hnot.
    { intros k (s & [= Hi _] & Hin)%list_elem_of_fmap.
      apply (elem_of_scripts s (mk_catalog ps)) in Hin as (q & Hq & Hsq). cbn in Hq.
      rewrite Forall_forall in Ha, Hok'. destruct (Hok' q Hq) as (? & _ & ? & _).
      pose proof (Ha q Hq) as Hlt. unfold version_before in Hlt.
      assert (pair_id p = pair_id q) as Hpq by (destruct Hsq; congruence). rewrite Hpq in Hlt. lia. }
    constructor; [|constructor; [apply Hnot | by apply IH]].
    intros [?|Hin]%elem_of_cons; [done|]. by apply (Hnot Up).
  - intros s s' (p & Hp & Hsp)%elem_of_scripts (q & Hq & Hsq)%elem_of_scripts Hv.
    cbn [pairs] in *. rewrite Forall_forall in Hok.
    destruct (Hok p Hp) as (? & _ & ? & _), (Hok q Hq) as (? & _ & ? & _).
    assert (script_id s = pair_id p) as Hs1 by (destruct Hsp; congruence).
    assert (script_id s' = pair_id q) as Hs2 by (destruct Hsq; congruence).
    rewrite Hs1, Hs2 in Hv |- *. f_equal. by apply (sorted_version_inj ps).
Qed.
End catalogs.

(** The catalog of a set of assets, exactly: it exists when the assets' scripts pair up into it. *)
Lemma from_assets_iff `{Crypto} assets c :
  from_assets assets = Ok c ↔ catalog_wf c ∧ map asset_parse assets ≡ₚ map Ok (scripts c).
Proof.
  split.
  - unfold from_assets. intros Hf. apply result_bind_Ok in Hf as ([builders versions] & Hf & Hm).
    apply result_bind_Ok in Hm as (ps & Hm & Hc). injection Hc as <-.
    destruct (fold_assets_inv assets [] _ _ loop_inv_init Hf) as (ss & Hss & Hinv).
    rewrite app_nil_r in Hinv. destruct (finish_catalog ss _ ps Hinv Hm) as [Hwf Hp].
    split; [done|]. rewrite Hss. by rewrite Hp.
  - intros [Hwf Hp].
    assert (∃ ss, map asset_parse assets = map Ok ss ∧ ss ≡ₚ scripts c) as (ss & Hss & Hperm).
    { apply Permutation_map_inv in Hp as (ss & Hss & Hperm). by exists ss. }
    destruct (fold_assets_succeeds assets ss [] ([], [])) as ([builders versions] & Hf & Hinv).
    { apply loop_inv_init. } { done. }
    { rewrite app_nil_r. eapply coherent_perm; [symmetry; exact Hperm|]. by apply catalog_coherent. }
    rewrite app_nil_r in Hinv.
    assert (∃ ps, map_result (λ x, pb_finish x.2) builders = Ok ps) as [ps Hm].
    { assert (∀ x, x ∈ builders → is_ok (pb_finish x.2)) as Hall.
      { intros [i b] Hx. pose proof (get_in _ _ _ (inv_sorted _ _ Hinv) Hx) as Hg.
        pose proof (inv_builders _ _ Hinv _ _ Hg) as Hb. pose proof Hb as (_ & Hne & Hok).
        destruct (pb_scripts b) as [|s l] eqn:Hps; [done|].
        assert (s ∈ pb_scripts b) as Hin0 by (rewrite Hps; left). apply elem_of_pb_scripts in Hin0 as (k & q & Hk).
        assert (s ∈ scripts c) as Hin.
        { rewrite <- Hperm, <- (inv_scripts _ _ Hinv). apply list_elem_of_bind. exists (i, b).
          cbn. rewrite Hps. split; [left|done]. }
        apply elem_of_scripts in Hin as (p & Hp' & Hsp).
        destruct Hwf as [Hwf _]. rewrite Forall_forall in Hwf. destruct (Hwf p Hp') as (Hui & Huk & Hdi & Hdk).
        assert (pair_id p = i) as Hpi by (destruct (Hok k s q Hk); destruct Hsp; congruence).
        destruct (inv_slot ss _ (pair_up p) Hinv) as (bu & qu & Hgu & Hsu).
        { rewrite Hperm. apply elem_of_scripts. eauto. }
        destruct (inv_slot ss _ (pair_down p) Hinv) as (bd & qd & Hgd & Hsd).
        { rewrite Hperm. apply elem_of_scripts. eauto. }
        rewrite Hui, Hpi in Hgu. rewrite Hdi, Hpi in Hgd. rewrite Hg in Hgu, Hgd.
        injection Hgu as <-. injection Hgd as <-. rewrite Huk in Hsu. rewrite Hdk in Hsd.
        by eapply finish_both. }
      clear -Hall. induction builders as [|x l IH]; [by exists []|].
      destruct (Hall x ltac:(left)) as [p Hp]. destruct IH as [ps Hps]; [intros y Hy; apply Hall; by right|].
      exists (p :: ps). cbn. rewrite Hp. cbn. by rewrite Hps. }
    unfold from_assets. rewrite Hf. cbn [mbind result_bind]. rewrite Hm. cbn [mbind result_bind]. f_equal.
    destruct (finish_catalog ss _ ps Hinv Hm) as [Hwf' Hp']. apply catalog_unique; [done..|].
    by rewrite Hp', Hperm.
Qed.

(** C37: the catalog, exactly.  [from_assets] answers the catalog [c] if and only if the versions
    of [c] strictly increase, every pair of [c] is an [up] and a [down] script of its identifier,
    and the assets parse, in some order, to exactly the scripts of [c].  So nothing is dropped
    or duplicated, two names of one version or an unpaired script are always refused, and the
    order in which the source lists its assets does not matter. *)
Theorem catalog_spec `{Crypto} (assets assets' : list MigrationAsset) (c : MigrationCatalog) :
  (from_assets assets = Ok c ↔ catalog_wf c ∧ map asset_parse assets ≡ₚ map Ok (scripts c))
  ∧ (assets ≡ₚ assets' → from_assets assets = Ok c → from_assets assets' = Ok c).
Proof.
  split; [apply from_assets_iff|]. intros Hp Hc%from_assets_iff. apply from_assets_iff.
  by rewrite <- Hp.
Qed.

Definition sample_assets : list MigrationAsset :=
  [mk_asset "migrations/2__add_index.up.sql" ("--! babar: transaction = none" ++ [x0a] ++ "CREATE INDEX CONCURRENTLY i ON t (a)");
   mk_asset "migrations/1__init.down.sql" "DROP TABLE t";
   mk_asset "migrations/1__init.up.sql" "CREATE TABLE t (a int)";
   mk_asset "migrations/2__add_index.down.sql" "DROP INDEX i"].

(** The sample catalog, evaluated. *)
Definition sample_catalog : MigrationCatalog :=
  Eval vm_compute in match from_assets (H := toy_crypto) sample_assets with Ok c => c | Err _ => mk_catalog [] end.

Lemma catalog_spec_witness :
  from_assets (H := toy_crypto) (reverse sample_assets) = Ok sample_catalog
  ∧ map (λ p, id_version (pair_id p)) (pairs sample_catalog) = [1; 2].
Proof.
  split; [|vm_compute; reflexivity].
  apply (catalog_spec (H := toy_crypto) sample_assets (reverse sample_assets) sample_catalog).
  - symmetry. apply reverse_Permutation.
  - vm_compute. reflexivity.
Defined.

(** ** Reconciling *)
Section reconciling.
Context {T : Type}.
Implicit Types (a : AppliedMigration T) (applied : list (AppliedMigration T)) (p : MigrationPair)
  (c : MigrationCatalog) (prev : option MigrationId).

(** The row [a] records the pair [p] as it is in the source. *)
Definition records p a : Prop :=
  applied_id a = pair_id p
  ∧ up_checksum a = script_checksum (pair_up p) ∧ down_checksum a = script_checksum (pair_down p)
  ∧ up_transaction_mode a = script_mode (pair_up p) ∧ down_transaction_mode a = script_mode (pair_down p).

Lemma verify_drift_Ok a p : applied_id a = pair_id p → verify_drift a p = Ok tt ↔ records p a.
Proof.
  intros Hi. unfold verify_drift, records.
  repeat match goal with |- context [bool_decide ?P] => destruct (bool_decide_reflect P) end; cbn [negb]; naive_solver.
Qed.

Definition after prev (ps : list MigrationPair) : Prop :=
  match prev with Some i => Forall (λ p, key_lt i (pair_id p) = true) ps | None => True end.

Lemma reconcile_from_Ok prev ps applied :
  StronglySorted version_before ps → after prev ps →
  reconcile_from prev ps applied = Ok tt ↔ Forall2 records (take (length applied) ps) applied.
Proof.
  revert prev ps. induction applied as [|a applied IH]; intros prev ps Hs Ha; cbn [reconcile_from length take].
  { by split; [constructor|]. }
  destruct ps as [|p ps].
  { cbn. split; [|by inversion 1]. intros Hr. apply result_bind_Ok in Hr as ([] & _ & Hr). done. }
  cbn [take]. inversion Hs as [|?? Hs' Hbefore]; subst. rewrite Forall2_cons.
  assert (after (Some (pair_id p)) ps) as Ha'.
  { cbn. eapply Forall_impl; [exact Hbefore|]. intros q Hq. cbn. unfold version_before in Hq.
    by rewrite (proj2 (Z.ltb_lt _ _)). }
  destruct (bool_decide_reflect (pair_id p = applied_id a)) as [Hi|Hi]; cbn [negb].
  - assert ((match prev with
      | Some previous => if negb (key_lt previous (applied_id a)) then
          Err (AppliedMigrationOrderMismatch ("migration after " ++ id_display previous) (id_display (applied_id a)))
          else Ok tt
      | None => Ok tt end) = Ok tt) as ->.
    { destruct prev as [i|]; [|done]. apply Forall_cons in Ha as [Ha _]. rewrite <- Hi, Ha. done. }
    cbn [mbind result_bind]. rewrite <- verify_drift_Ok by done. rewrite <- Hi, <- (IH _ _ Hs' Ha').
    destruct (verify_drift a p) as [[]|e]; cbn; naive_solver.
  - split; [|intros [(? & _) _]; congruence].
    intros Hr. apply result_bind_Ok in Hr as ([] & _ & Hr). done.
Qed.

(** On a well-formed catalog, reconciling accepts exactly the rows that record, one by one, the
    first pairs of the catalog. *)
Lemma reconcile_Ok c applied rows : catalog_wf c →
  reconcile c applied = Ok rows ↔ rows = applied ∧ Forall2 records (take (length applied) (pairs c)) applied.
Proof.
  intros [_ Hs]. rewrite <- (reconcile_from_Ok None) by done. unfold reconcile.
  destruct (reconcile_from None (pairs c) applied) as [[]|e]; cbn; naive_solver.
Qed.

Lemma records_length c applied :
  Forall2 records (take (length applied) (pairs c)) applied → (length applied ≤ length (pairs c))%nat.
Proof. intros Hf%Forall2_length. rewrite length_take in Hf. lia. Qed.

(** The row [pair] gets when it is applied at [time]. *)
Definition row_of (time : T) p : AppliedMigration T :=
  mk_applied (pair_id p) (script_checksum (pair_up p)) (script_checksum (pair_down p))
    (script_mode (pair_up p)) (script_mode (pair_down p)) time.

Lemma records_row_of time p : records p (row_of time p).
Proof. done. Qed.

Lemma plan_apply_Ok c applied : catalog_wf c →
  Forall2 records (take (length applied) (pairs c)) applied →
  plan_apply c applied = Ok (mk_plan DirApply (map Apply (drop (length applied) (pairs c)))).
Proof.
  intros Hwf Hr. unfold plan_apply. by rewrite (proj2 (reconcile_Ok c applied applied Hwf) (conj eq_refl Hr)).
Qed.

Lemma omap_imap_pairs (ps : list MigrationPair) applied k :
  (k + length applied ≤ length ps)%nat →
  omap (λ x, mp ← ps !! x.1; Some (Rollback mp x.2)) (imap (λ i a, ((k + i)%nat, a)) applied)
  = zip_with Rollback (drop k ps) applied.
Proof.
  revert k. induction applied as [|a applied IH]; intros k Hk; cbn in Hk.
  { cbn. by rewrite zip_with_nil_r. }
  destruct (lookup_lt_is_Some_2 ps k ltac:(lia)) as [p Hp].
  rewrite (drop_S _ _ _ Hp). cbn. rewrite Nat.add_0_r, Hp. cbn. f_equal.
  rewrite <- (IH (S k)) by lia. f_equal. apply imap_ext. intros i x _. cbn. f_equal. lia.
Qed.

Lemma plan_rollback_Ok c applied n : catalog_wf c →
  Forall2 records (take (length applied) (pairs c)) applied →
  plan_rollback c applied n
  = Ok (mk_plan DirRollback (take n (reverse (zip_with Rollback (take (length applied) (pairs c)) applied)))).
Proof.
  intros Hwf Hr. pose proof (records_length _ _ Hr) as Hl.
  unfold plan_rollback. rewrite (proj2 (reconcile_Ok c applied applied Hwf) (conj eq_refl Hr)).
  cbn [mbind result_bind]. do 2 f_equal.
  assert (zip_with Rollback (take (length applied) (pairs c)) applied
    = omap (λ x, mp ← pairs c !! x.1; Some (Rollback mp x.2)) (imap pair applied)) as ->.
  { change (imap pair applied) with (imap (λ i a, ((0 + i)%nat, a)) applied).
    rewrite omap_imap_pairs by lia. rewrite drop_0. apply zip_with_take_l'. lia. }
  assert (∀ x, x ∈ imap pair applied → is_Some (pairs c !! x.1)) as Hsome.
  { intros x (i & a & -> & Hi)%elem_of_lookup_imap_1. cbn. apply lookup_lt_is_Some.
    apply lookup_lt_Some in Hi. lia. }
  revert Hsome. generalize (imap pair applied) as l. clear. intros l Hsome.
  assert (∀ l : list (nat * AppliedMigration T), (∀ x, x ∈ l → is_Some (pairs c !! x.1)) →
    ∃ f, omap (λ x, mp ← pairs c !! x.1; Some (Rollback mp x.2)) l = map f l
      ∧ f = λ x, Rollback (default (mk_pair (mk_id 0 []) (mk_script (mk_filename (mk_id 0 []) Up) (mk_metadata Transactional) [] [])
          (mk_script (mk_filename (mk_id 0 []) Up) (mk_metadata Transactional) [] [])) (pairs c !! x.1)) x.2) as Hmap.
  { clear. intros l Hl. eexists. split; [|reflexivity]. induction l as [|x l IH]; [done|]. cbn.
    destruct (Hl x ltac:(left)) as [p ->]. cbn. f_equal. apply IH. intros y Hy. apply Hl. by right. }
  destruct (Hmap l Hsome) as (f & Hf & ->).
  destruct (Hmap (take n (reverse l))) as (f & Hf' & ->).
  { intros x Hx. apply Hsome. apply elem_of_reverse. by eapply elem_of_take in Hx as (? & ? & _); eapply list_elem_of_lookup_2. }
  rewrite Hf, Hf'. by rewrite <- fmap_reverse, <- fmap_take.
Qed.
End reconciling.

Section plans_correct.
Context {T : Type}.
Implicit Types (applied : list (AppliedMigration T)) (c : MigrationCatalog).

(** The rows the server holds are consistent with the source. *)
Definition consistent c applied : Prop :=
  catalog_wf c ∧ Forall2 records (take (length applied) (pairs c)) applied.

Lemma consistent_take c applied n : consistent c applied → consistent c (take n applied).
Proof.
  intros [Hwf Hr]. split; [done|]. pose proof (records_length _ _ Hr) as Hl. apply (Forall2_take _ _ _ n) in Hr.
  rewrite take_take in Hr. by rewrite length_take.
Qed.

Lemma consistent_snoc c applied p time :
  consistent c applied → pairs c !! length applied = Some p → consistent c (applied ++ [row_of time p]).
Proof.
  intros [Hwf Hr] Hp. split; [done|]. rewrite length_app. cbn.
  rewrite Nat.add_1_r, (take_S_r _ _ _ Hp). by apply Forall2_app; [|repeat constructor].
Qed.

Lemma consistent_full c applied time :
  consistent c applied → consistent c (applied ++ map (row_of time) (drop (length applied) (pairs c))).
Proof.
  intros [Hwf Hr]. split; [done|]. pose proof (records_length _ _ Hr).
  rewrite take_ge by (rewrite length_app, length_map, length_drop; lia).
  rewrite <- (take_drop (length applied) (pairs c)) at 1.
  apply Forall2_app; [done|]. apply Forall2_fmap_r, Forall_Forall2_diag, Forall_forall. done.
Qed.
Lemma zip_rollback (ps : list MigrationPair) (rows : list (AppliedMigration T)) : length ps = length rows →
  map step_pair (zip_with Rollback ps rows) = ps ∧ omap step_applied (zip_with Rollback ps rows) = rows
  ∧ Forall (λ s, step_kind s = Down) (zip_with Rollback ps rows).
Proof.
  revert rows. induction ps as [|p ps IH]; intros [|a rows] Hps; try done.
  destruct (IH rows) as (Hp & Hr & Hk); [by injection Hps|]. cbn. rewrite Hp, Hr. split_and!; [done|done|by constructor].
Qed.

Lemma map_reverse {A B} (f : A → B) l : map f (reverse l) = reverse (map f l).
Proof. apply (fmap_reverse f). Qed.

Lemma step_pair_apply ps : map step_pair (map (Apply (T := T)) ps) = ps.
Proof. induction ps; cbn; congruence. Qed.

Lemma omap_reverse {A B} (f : A → option B) l : omap f (reverse l) = reverse (omap f l).
Proof.
  induction l as [|x l IH]; [done|]. rewrite reverse_cons, omap_app, IH. cbn [omap list_omap].
  destruct (f x); [by rewrite reverse_cons | by rewrite app_nil_r].
Qed.
End plans_correct.

(** status.  On a well-formed catalog the rows are accepted exactly when they record, one by
    one and without drift, the first pairs of the catalog; the status then lists every pair in
    order, the recorded ones as applied with their row and the others as pending, and the
    counts add up. *)
Theorem status_spec {T : Type} (c : MigrationCatalog) (applied : list (AppliedMigration T)) :
  catalog_wf c →
  (is_ok (status c applied) ↔ Forall2 records (take (length applied) (pairs c)) applied)
  ∧ ∀ s, status c applied = Ok s →
      map entry_pair (entries s) = pairs c
      ∧ (∀ i e, entries s !! i = Some e →
           entry_state e = match applied !! i with Some a => Applied a | None => Pending end)
      ∧ applied_count s = length applied
      ∧ (applied_count s + pending_count s = length (pairs c))%nat.
Proof.
  intros Hwf. assert (∀ s, status c applied = Ok s ↔
    Forall2 records (take (length applied) (pairs c)) applied
    ∧ s = mk_status (imap (λ i mp, mk_entry mp match applied !! i with Some a => Applied a | None => Pending end) (pairs c))
            (length applied)) as Hst.
  { intros s. unfold status. pose proof (reconcile_Ok c applied applied Hwf) as Hrec.
    destruct (reconcile c applied) as [rows|e] eqn:Hr; cbn.
    - assert (rows = applied) as -> by (apply (reconcile_Ok c applied rows Hwf); done). naive_solver.
    - naive_solver. }
  split; [split; [intros [s [? _]%Hst]; done | intros Hr; eexists; by apply Hst]|].
  intros s [Hr ->]%Hst. cbn [entries applied_count]. pose proof (records_length _ _ Hr).
  split_and!; [| |done|].
  - clear. generalize (pairs c) as ps. intros ps. apply list_eq. intros i.
    rewrite list_lookup_fmap, list_lookup_imap. by destruct (ps !! i).
  - intros i e He. rewrite list_lookup_imap in He. destruct (pairs c !! i); [|done]. by injection He as <-.
  - unfold pending_count. cbn [entries applied_count]. rewrite length_imap. lia.
Qed.

(** C38: plans do what they say and undo each other.  With rows consistent with the catalog, the
    apply plan runs the [up] script of exactly the pending pairs, in order; once they are
    recorded nothing is pending.  The rollback plan for [n] runs the [down] scripts of the last
    [n] recorded pairs, the latest first, with the rows they reverse; once their rows are gone,
    the apply plan is those same pairs and the ones that were pending. *)
Theorem plans_inverse {T : Type} (c : MigrationCatalog) (applied : list (AppliedMigration T)) (n : nat) (time : T) :
  consistent c applied →
  (∃ plan, plan_apply c applied = Ok plan ∧ direction plan = DirApply
     ∧ map step_pair (steps plan) = drop (length applied) (pairs c)
     ∧ Forall (λ s, step_kind s = Up) (steps plan)
     ∧ plan_apply c (applied ++ map (row_of time) (map step_pair (steps plan))) = Ok (mk_plan DirApply []))
  ∧ (∃ plan, plan_rollback c applied n = Ok plan ∧ direction plan = DirRollback
     ∧ map step_pair (steps plan) = reverse (drop (length applied - n) (take (length applied) (pairs c)))
     ∧ omap step_applied (steps plan) = reverse (drop (length applied - n) applied)
     ∧ Forall (λ s, step_kind s = Down) (steps plan)
     ∧ ∃ again, plan_apply c (take (length applied - n) applied) = Ok again
       ∧ map step_pair (steps again) = reverse (map step_pair (steps plan)) ++ drop (length applied) (pairs c)).
Proof.
  intros Hc. pose proof Hc as [Hwf Hr]. pose proof (records_length _ _ Hr) as Hl. split.
  - rewrite plan_apply_Ok by done. eexists. split; [reflexivity|]. cbn [steps direction].
    rewrite step_pair_apply. split_and!; [done|done| |].
    + apply Forall_map, Forall_forall. done.
    + destruct (consistent_full c applied time Hc) as [_ Hf]. rewrite plan_apply_Ok by done.
      rewrite drop_ge; [done|]. rewrite length_app, length_map, length_drop. lia.
  - rewrite plan_rollback_Ok by done. eexists. split; [reflexivity|]. cbn [steps direction].
    assert (length (take (length applied) (pairs c)) = length applied) as Hlt by (rewrite length_take; lia).
    rewrite take_reverse, length_zip_with, Hlt, Nat.min_id, zip_with_drop.
    set (k := (length applied - n)%nat). set (ps := drop k (take (length applied) (pairs c))).
    set (rows := drop k applied).
    assert (length ps = length rows) as Hps by (unfold ps, rows; rewrite !length_drop, Hlt; done).
    assert (map step_pair (zip_with Rollback ps rows) = ps ∧ omap step_applied (zip_with Rollback ps rows) = rows
      ∧ Forall (λ s, step_kind s = Down) (zip_with Rollback ps rows)) as (Hpairs & Hrows & Hkind).
    { by apply zip_rollback. }
    rewrite map_reverse, omap_reverse, Hpairs, Hrows. split_and!; [done|done|done|by apply Forall_reverse|].
    + destruct (consistent_take c applied k Hc) as [_ Hk]. rewrite plan_apply_Ok by done.
      eexists. split; [reflexivity|]. cbn [steps]. rewrite reverse_involutive, step_pair_apply.
      unfold ps. rewrite length_take, Nat.min_l by (unfold k; lia).
      rewrite <- (take_drop (length applied) (pairs c)) at 1. rewrite drop_app_le by lia. done.
Qed.

(** The first migration of the sample catalog, applied at time 5. *)
Definition sample_applied : list (AppliedMigration Z) := map (row_of 5) (take 1 (pairs sample_catalog)).

Lemma sample_wf : catalog_wf sample_catalog.
Proof. apply (from_assets_iff (H := toy_crypto) sample_assets). vm_compute. reflexivity. Qed.

Lemma sample_records : Forall2 records (take (length sample_applied) (pairs sample_catalog)) sample_applied.
Proof. by repeat constructor. Qed.

Lemma status_spec_witness :
  ∃ s, status sample_catalog sample_applied = Ok s ∧ applied_count s = 1%nat ∧ pending_count s = 1%nat.
Proof.
  destruct (proj2 (proj1 (status_spec sample_catalog sample_applied sample_wf)) sample_records) as [s Hs].
  destruct (proj2 (status_spec sample_catalog sample_applied sample_wf) s Hs) as (_ & _ & Ha & Hc).
  exists s. split; [exact Hs|]. split; [exact Ha|]. rewrite Ha in Hc. cbn in Hc. lia.
Defined.

Lemma plans_inverse_witness :
  ∃ plan, plan_rollback sample_catalog sample_applied 1 = Ok plan
    ∧ map (λ s, id_version (pair_id (step_pair s))) (steps plan) = [1].
Proof.
  destruct (plans_inverse sample_catalog sample_applied 1 9 (conj sample_wf sample_records))
    as [_ (plan & Hp & _ & Hs & _)].
  exists plan. split; [exact Hp|]. rewrite <- (map_map step_pair (λ p, id_version (pair_id p))), Hs.
  vm_compute. reflexivity.
Defined.
