(* ===== verification/MigrationRunner.v ===== *)
(** * Running migrations: [migration/runner.rs]

    The runner over an executor (a connection that runs simple queries), and what it guarantees
    on a transactional server: the state table always records exactly the scripts that ran. *)
From S2P Require Import Prelude Bytes Text Error Scram BTree Migration MigrationPlan.

Local Open Scope Z_scope.
Local Open Scope str_scope.

(** [RawRows]: the rows of one result set, every cell the server's text. *)
Abbreviation RawRows := (list (list (option bytes))).

(** The [f64] arithmetic of [parse_epoch_system_time] (library code: [f64::from_str],
    [f64::is_finite], the comparison with zero and [UNIX_EPOCH + Duration::from_secs_f64]). *)
Class EpochTime := {
  f64 : Type;
  SystemTime : Type;
  parse_f64 : str → result str f64;
  f64_is_finite : f64 → bool;
  f64_negative : f64 → bool;
  epoch_plus_secs : f64 → SystemTime;
}.

(** [MigrationExecutor]: the connection's state and its simple query. *)
Class Executor := {
  World : Type;
  simple_query_raw : str → SE World Error (list RawRows);
}.

Definition into {S A} (r : result MigrationError A) : SE S Error A := lift (map_err Migration r).

(** ** Statements *)
Definition escape_sql_literal (value : str) : str := replace_byte "'"%byte "''" value.

Definition insert_applied_migration_sql (table : MigrationTable) (pair : MigrationPair) : str :=
  "INSERT INTO " ++ qualified_name table
  ++ " (version, name, up_checksum, down_checksum, up_transaction_mode, down_transaction_mode) VALUES ("
  ++ dec (id_version (pair_id pair)) ++ ", '" ++ escape_sql_literal (id_name (pair_id pair)) ++ "', '"
  ++ to_hex (script_checksum (pair_up pair)) ++ "', '" ++ to_hex (script_checksum (pair_down pair)) ++ "', '"
  ++ mode_str (script_mode (pair_up pair)) ++ "', '" ++ mode_str (script_mode (pair_down pair)) ++ "')".

Definition delete_applied_migration_sql (table : MigrationTable) (version : Z) : str :=
  "DELETE FROM " ++ qualified_name table ++ " WHERE version = " ++ dec version.

Definition select_applied_sql (table : MigrationTable) : str :=
  "SELECT version::text, name, up_checksum, down_checksum, up_transaction_mode, down_transaction_mode, "
  ++ "EXTRACT(EPOCH FROM applied_at)::text FROM " ++ qualified_name table ++ " ORDER BY version ASC".

Definition lock_sql (lock_id : Z) : str := "SELECT pg_advisory_lock(" ++ dec lock_id ++ ")".
Definition unlock_sql (lock_id : Z) : str := "SELECT pg_advisory_unlock(" ++ dec lock_id ++ ")".

(** ** Reading rows *)
Definition bad_row (reason : str) : MigrationError := InvalidAppliedMigrationRow reason.

Definition parse_required_text (row : list (option bytes)) (index : nat) (column : str) : result MigrationError str :=
  cell ← ok_or (row !! index) (bad_row ("missing " ++ column ++ " column at index " ++ dec (Z.of_nat index)));
  cell ← ok_or cell (bad_row (column ++ " cannot be NULL"));
  map_err (λ e, bad_row (column ++ " was not valid UTF-8: " ++ utf8_error_text e)) (from_utf8 cell).

(** [parse_row_value::<u64>] *)
Definition parse_row_u64 (row : list (option bytes)) (index : nat) (column : str) : result MigrationError Z :=
  text ← parse_required_text row index column;
  map_err (λ e, bad_row ("could not parse " ++ column ++ ": " ++ int_error_text e)) (parse_uint 64 10 text).

Definition parse_transaction_mode (row : list (option bytes)) (index : nat) (column : str)
  : result MigrationError MigrationTransactionMode :=
  text ← parse_required_text row index column;
  parse_directive text column.

Section rows.
Context `{EpochTime}.

Definition parse_epoch_system_time (epoch : str) : result MigrationError SystemTime :=
  seconds ← map_err (λ e, bad_row ("could not parse applied_at epoch seconds: " ++ e)) (parse_f64 epoch);
  if negb (f64_is_finite seconds) || f64_negative seconds then
    Err (bad_row ("applied_at epoch seconds must be a finite, non-negative value: " ++ epoch))
  else Ok (epoch_plus_secs seconds).

Definition parse_applied_row (row : list (option bytes)) : result MigrationError (AppliedMigration SystemTime) :=
  if negb (length row =? 7)%nat then Err (bad_row ("expected 7 columns, found " ++ dec (Z.of_nat (length row))))
  else
    version ← parse_row_u64 row 0 "version";
    name ← parse_required_text row 1 "name";
    i ← MigrationId_new version name;
    up_text ← parse_required_text row 2 "up_checksum";
    up ← checksum_parse up_text;
    down_text ← parse_required_text row 3 "down_checksum";
    down ← checksum_parse down_text;
    up_mode ← parse_transaction_mode row 4 "up_transaction_mode";
    down_mode ← parse_transaction_mode row 5 "down_transaction_mode";
    epoch ← parse_required_text row 6 "applied_at";
    at_ ← parse_epoch_system_time epoch;
    Ok (mk_applied i up down up_mode down_mode at_).
End rows.

(** ** The runner *)
Section runner.
Context `{Crypto} `{EpochTime} `{Executor}.

Abbreviation M := (SE World Error).

(** [let _ = ...]: run and forget the outcome. *)
Definition ignore {A} (m : M A) : M unit := λ w, (Ok tt, snd (m w)).

Fixpoint batch_statements (statements : list str) : M unit :=
  match statements with
  | [] => mret tt
  | statement :: statements => λ w,
    match simple_query_raw statement w with
    | (Err err, w) => (ignore (simple_query_raw "ROLLBACK");; throw err) w
    | (Ok _, w) => batch_statements statements w
    end
  end.

Definition transactional_batch (statements : list str) : M unit :=
  simple_query_raw "BEGIN";;
  batch_statements statements;;
  simple_query_raw "COMMIT";;
  mret tt.

Definition ensure_state_table (table : MigrationTable) : M unit :=
  simple_query_raw (create_if_missing_sql table);; mret tt.

Definition load_applied_migrations (table : MigrationTable) : M (list (AppliedMigration SystemTime)) :=
  result_sets ← simple_query_raw (select_applied_sql table);
  match result_sets with
  | [] => mret []
  | rows :: _ => into (map_result parse_applied_row rows)
  end.

Definition execute_script_and_state_change (script_sql : str) (mode : MigrationTransactionMode)
    (state_change_sql : str) : M unit :=
  match mode with
  | Transactional => transactional_batch [script_sql; state_change_sql]
  | NonTransactional =>
    simple_query_raw script_sql;;
    transactional_batch [state_change_sql]
  end.

Definition execute_step (table : MigrationTable) (step : MigrationPlanStep SystemTime) : M unit :=
  match step with
  | Apply p =>
    execute_script_and_state_change (script_contents (pair_up p)) (script_mode (pair_up p))
      (insert_applied_migration_sql table p)
  | Rollback p _ =>
    execute_script_and_state_change (script_contents (pair_down p)) (script_mode (pair_down p))
      (delete_applied_migration_sql table (id_version (pair_id p)))
  end.

Fixpoint execute_steps (table : MigrationTable) (l : list (MigrationPlanStep SystemTime)) : M unit :=
  match l with
  | [] => mret tt
  | step :: l => execute_step table step;; execute_steps table l
  end.

Definition execute_plan (table : MigrationTable) (plan : MigrationPlan SystemTime) : M unit :=
  execute_steps table (steps plan).

Definition acquire_advisory_lock (lock_id : Z) : M unit := simple_query_raw (lock_sql lock_id);; mret tt.

Definition release_advisory_lock (lock_id : Z) : M unit :=
  result_sets ← simple_query_raw (unlock_sql lock_id);
  into (rows ← ok_or (head result_sets) (bad_row "advisory unlock did not return a result row");
        row ← ok_or (head rows) (bad_row "advisory unlock returned an empty result set");
        unlocked ← parse_required_text row 0 "pg_advisory_unlock";
        if bool_decide (unlocked = "t"%s) then Ok tt
        else Err (bad_row ("advisory unlock returned " ++ debug_str unlocked ++ " instead of " ++ debug_str "t"))).

Definition finish_locked_operation {A} (outcome : result Error A) (unlock : result Error unit) : result Error A :=
  match outcome, unlock with
  | Ok value, _ => Ok value
  | Err err, _ => Err err
  end.

(** Load, plan and execute: the block whose outcome is kept while the lock is released. *)
Definition plan_and_execute (m : Migrator) (make_plan : list (AppliedMigration SystemTime) → result MigrationError (MigrationPlan SystemTime))
  : M (MigrationPlan SystemTime) :=
  applied ← load_applied_migrations (opt_table (migrator_options m));
  plan ← into (make_plan applied);
  execute_plan (opt_table (migrator_options m)) plan;;
  mret plan.

Definition then_unlock {A} (lock_id : Z) (body : M A) : M A := λ w,
  let '(outcome, w) := body w in
  let '(unlock, w) := release_advisory_lock lock_id w in
  (finish_locked_operation outcome unlock, w).

Definition locked (m : Migrator) (make_plan : list (AppliedMigration SystemTime) → result MigrationError (MigrationPlan SystemTime))
  : M (MigrationPlan SystemTime) :=
  ensure_state_table (opt_table (migrator_options m));;
  acquire_advisory_lock (opt_lock_id (migrator_options m));;
  then_unlock (opt_lock_id (migrator_options m)) (plan_and_execute m make_plan).

Definition applied_migrations (m : Migrator) : M (list (AppliedMigration SystemTime)) :=
  ensure_state_table (opt_table (migrator_options m));;
  load_applied_migrations (opt_table (migrator_options m)).

Definition apply (m : Migrator) : M (MigrationPlan SystemTime) := locked m (migrator_plan_apply m).
Definition rollback (m : Migrator) (n : nat) : M (MigrationPlan SystemTime) :=
  locked m (λ applied, migrator_plan_rollback m applied n).
End runner.

(** ** Rows as the server renders them *)
Section rendering.
Context `{EpochTime}.
Implicit Types (a : AppliedMigration SystemTime).

(** The select's columns for a row whose time prints as [epoch]. *)
Definition render_row a (epoch : str) : list (option bytes) :=
  [Some (dec (id_version (applied_id a))); Some (id_name (applied_id a));
   Some (to_hex (up_checksum a)); Some (to_hex (down_checksum a));
   Some (mode_str (up_transaction_mode a)); Some (mode_str (down_transaction_mode a)); Some epoch].

Definition row_ok a : Prop :=
  valid_id (applied_id a) ∧ length (up_checksum a) = 32%nat ∧ length (down_checksum a) = 32%nat.

Definition ascii (s : str) : Prop := Forall (λ b, u8_of b < 128) s.

Lemma parse_required_text_valid row index column s :
  row !! index = Some (Some s) → utf8_valid s = true → parse_required_text row index column = Ok s.
Proof.
  intros Hr Hs. unfold parse_required_text. rewrite Hr. cbn [ok_or mbind result_bind].
  by rewrite (proj2 (from_utf8_Ok s s) (conj eq_refl Hs)).
Qed.

Lemma to_hex_ascii c : utf8_valid (to_hex c) = true.
Proof.
  apply utf8_valid_ascii. unfold to_hex. induction c as [|b c IH]; [constructor|]. cbn [map concat].
  apply Forall_app. split; [|done]. apply (bool_decide_unpack _). by destruct b.
Qed.

Lemma name_ascii name : valid_name name → utf8_valid name = true.
Proof.
  intros (_ & _ & _ & _ & Hb)%valid_name_spec. apply utf8_valid_ascii. eapply Forall_impl; [exact Hb|].
  intros b. pose (P := λ b, negb (name_byte b) || (u8_of b <? 128)). intros Hn.
  assert (P b = true) as HP by (apply forall_bytes; vm_compute; reflexivity).
  unfold P in HP. rewrite Hn in HP. by apply Z.ltb_lt.
Qed.

Lemma parse_transaction_mode_valid row index column mode :
  row !! index = Some (Some (mode_str mode)) → parse_transaction_mode row index column = Ok mode.
Proof.
  intros Hr. unfold parse_transaction_mode.
  rewrite (parse_required_text_valid _ _ _ (mode_str mode)) by (done || by destruct mode).
  by destruct mode.
Qed.

Lemma parse_applied_row_render a epoch :
  row_ok a → utf8_valid epoch = true → parse_epoch_system_time epoch = Ok (applied_at a) →
  parse_applied_row (render_row a epoch) = Ok a.
Proof.
  intros ([Hv Hn] & Hu & Hd) He Ht. unfold parse_applied_row, parse_row_u64.
  rewrite (parse_required_text_valid (render_row a epoch) 0 _ (dec (id_version (applied_id a)))); [|done|].
  2: { apply utf8_valid_ascii. eapply Forall_impl; [apply dec_digits; apply Hv|]. cbn. lia. }
  rewrite (parse_required_text_valid (render_row a epoch) 1 _ (id_name (applied_id a))) by (done || by apply name_ascii).
  rewrite (parse_required_text_valid (render_row a epoch) 2 _ (to_hex (up_checksum a))) by (done || apply to_hex_ascii).
  rewrite (parse_required_text_valid (render_row a epoch) 3 _ (to_hex (down_checksum a))) by (done || apply to_hex_ascii).
  rewrite (parse_transaction_mode_valid (render_row a epoch) 4 _ (up_transaction_mode a)) by done.
  rewrite (parse_transaction_mode_valid (render_row a epoch) 5 _ (down_transaction_mode a)) by done.
  rewrite (parse_required_text_valid (render_row a epoch) 6 _ epoch) by done.
  cbn [length render_row Nat.eqb negb mbind result_bind].
  rewrite parse_uint_dec by done. cbn [map_err mbind result_bind].
  unfold MigrationId_new. rewrite Hn. cbn [mbind result_bind].
  rewrite !checksum_parse_to_hex by done. cbn [mbind result_bind]. rewrite Ht. cbn [mbind result_bind].
  by destruct a as [[] ? ? ? ? ?].
Qed.
End rendering.

(** ** A transactional server

    The specification of the other side: a database [D], what one statement does to it, and the
    transaction control of PostgreSQL around it.  A failed statement fails its transaction:
    until the next [ROLLBACK] or [COMMIT] (which then rolls back) every statement is refused. *)
Section server.
Context {D : Type} (exec : str → D → result Error (D * list RawRows)) (in_failed_transaction : Error).

Record TxnServer := mk_txn_server { committed : D; txn : option (D * bool) }.

Definition server_query (sql : str) : SE TxnServer Error (list RawRows) := λ w,
  if bool_decide (sql = "BEGIN"%s) then (Ok [[]], mk_txn_server (committed w) (Some (committed w, false)))
  else if bool_decide (sql = "COMMIT"%s) then
    (Ok [[]], match txn w with
              | Some (d, false) => mk_txn_server d None
              | _ => mk_txn_server (committed w) None
              end)
  else if bool_decide (sql = "ROLLBACK"%s) then (Ok [[]], mk_txn_server (committed w) None)
  else
    match txn w with
    | None =>
      match exec sql (committed w) with
      | Ok (d, out) => (Ok out, mk_txn_server d None)
      | Err e => (Err e, w)
      end
    | Some (d, false) =>
      match exec sql d with
      | Ok (d, out) => (Ok out, mk_txn_server (committed w) (Some (d, false)))
      | Err e => (Err e, mk_txn_server (committed w) (Some (d, true)))
      end
    | Some (d, true) => (Err in_failed_transaction, w)
    end.

#[local] Instance txn_executor : Executor := { World := TxnServer; simple_query_raw := server_query }.

Definition plain (sql : str) : Prop := sql ≠ "BEGIN"%s ∧ sql ≠ "COMMIT"%s ∧ sql ≠ "ROLLBACK"%s.

Implicit Types (w : TxnServer) (d : D).

Lemma query_plain sql d : plain sql →
  server_query sql (mk_txn_server d None)
  = match exec sql d with
    | Ok (d', out) => (Ok out, mk_txn_server d' None)
    | Err e => (Err e, mk_txn_server d None)
    end.
Proof.
  intros (Hb & Hc & Hr). unfold server_query. by rewrite !bool_decide_eq_false_2.
Qed.

(** The effect of statements on the database, one after the other. *)
Fixpoint exec_all (sqls : list str) d : result Error D :=
  match sqls with
  | [] => Ok d
  | sql :: sqls => '(d, _) ← exec sql d; exec_all sqls d
  end.

(** A batch is all or nothing. *)
Lemma batch_statements_txn sqls d0 d : Forall plain sqls →
  batch_statements sqls (mk_txn_server d0 (Some (d, false)))
  = match exec_all sqls d with
    | Ok d' => (Ok tt, mk_txn_server d0 (Some (d', false)))
    | Err e => (Err e, mk_txn_server d0 None)
    end.
Proof.
  intros Hp. revert d. induction Hp as [|sql sqls (Hb & Hc & Hr) Hp IH]; intros d; [done|].
  assert (simple_query_raw sql (mk_txn_server d0 (Some (d, false)))
    = match exec sql d with
      | Ok (d', out) => (Ok out, mk_txn_server d0 (Some (d', false)))
      | Err e => (Err e, mk_txn_server d0 (Some (d, true)))
      end) as Hq.
  { cbn [simple_query_raw txn_executor]. unfold server_query. by rewrite !bool_decide_eq_false_2. }
  cbn [batch_statements exec_all]. rewrite Hq.
  destruct (exec sql d) as [[d' out]|e]; cbn [mbind result_bind]; [apply IH|done].
Qed.

Lemma transactional_batch_atomic sqls d : Forall plain sqls →
  transactional_batch sqls (mk_txn_server d None)
  = match exec_all sqls d with
    | Ok d' => (Ok tt, mk_txn_server d' None)
    | Err e => (Err e, mk_txn_server d None)
    end.
Proof.
  intros Hp. unfold transactional_batch.
  rewrite (se_bind_Ok _ _ _ [[]] (mk_txn_server d (Some (d, false)))) by done.
  pose proof (batch_statements_txn sqls d d Hp) as Hb. destruct (exec_all sqls d) as [d'|e].
  - by rewrite (se_bind_Ok _ _ _ _ _ Hb).
  - by rewrite (se_bind_Err _ _ _ _ _ Hb).
Qed.
End server.

(** ** The database behind the state table

    What the runner relies on: the documented effect of its own statements on the rows of the
    state table, and that a migration script leaves that table alone.  Nothing says that a
    statement succeeds. *)
Class MigrationDb `{Crypto} `{EpochTime} (D : Type) (exec : str → D → result Error (D * list RawRows))
    (c : MigrationCatalog) (table : MigrationTable) (lock_id : Z) := {
  db_rows : D → list (AppliedMigration SystemTime);
  db_history : D → list str;   (* the scripts run so far *)
  db_quiet sql d d' out :
    sql ∈ [create_if_missing_sql table; lock_sql lock_id; unlock_sql lock_id; select_applied_sql table] →
    exec sql d = Ok (d', out) → db_rows d' = db_rows d ∧ db_history d' = db_history d;
  db_select d d' out : exec (select_applied_sql table) d = Ok (d', out) →
    ∃ epochs, out = [zip_with render_row (db_rows d) epochs]
      ∧ Forall2 (λ a e, utf8_valid e = true ∧ parse_epoch_system_time e = Ok (applied_at a)) (db_rows d) epochs;
  db_insert p d d' out : p ∈ pairs c → exec (insert_applied_migration_sql table p) d = Ok (d', out) →
    db_history d' = db_history d ∧ ∃ time, db_rows d' = db_rows d ++ [row_of time p];
  db_delete p d d' out : p ∈ pairs c →
    exec (delete_applied_migration_sql table (id_version (pair_id p))) d = Ok (d', out) →
    db_history d' = db_history d
    ∧ db_rows d' = filter (λ a, id_version (applied_id a) ≠ id_version (pair_id p)) (db_rows d);
  db_script s d d' out : s ∈ scripts c → exec (script_contents s) d = Ok (d', out) →
    db_rows d' = db_rows d ∧ db_history d' = db_history d ++ [script_contents s];
  db_plain s : s ∈ scripts c → plain (script_contents s);
}.

Section running.
Context `{Crypto} `{EpochTime} {D : Type} (exec : str → D → result Error (D * list RawRows)).
Context (c : MigrationCatalog) (table : MigrationTable) (lock_id : Z).
Context `{!MigrationDb D exec c table lock_id} (in_failed_transaction : Error).

#[local] Instance run_executor : Executor := txn_executor exec in_failed_transaction.

Abbreviation step := (MigrationPlanStep SystemTime).
Implicit Types (s : step) (d : D) (p : MigrationPair).

Definition idle d : TxnServer (D := D) := mk_txn_server d None.

Lemma batch_atomic sqls d : Forall plain sqls →
  transactional_batch sqls (idle d)
  = match exec_all exec sqls d with Ok d' => (Ok tt, idle d') | Err e => (Err e, idle d) end.
Proof. exact (transactional_batch_atomic exec in_failed_transaction sqls d). Qed.

Lemma simple_query_plain sql d : plain sql →
  simple_query_raw sql (idle d)
  = match exec sql d with Ok (d', out) => (Ok out, idle d') | Err e => (Err e, idle d) end.
Proof. exact (query_plain exec in_failed_transaction sql d). Qed.

Definition step_script s : MigrationScript :=
  match s with Apply p => pair_up p | Rollback p _ => pair_down p end.

(** What a completed step has done to the database. *)
Definition step_done s d d' : Prop :=
  db_history d' = db_history d ++ [script_contents (step_script s)]
  ∧ match s with
    | Apply p => ∃ time, db_rows d' = db_rows d ++ [row_of time p]
    | Rollback p _ => db_rows d' = filter (λ a, id_version (applied_id a) ≠ id_version (pair_id p)) (db_rows d)
    end.

(** What a failed step has left: nothing, unless its script runs outside a transaction; then
    the script may have run without being recorded. *)
Definition step_failed s d d' : Prop :=
  db_rows d' = db_rows d
  ∧ (db_history d' = db_history d
     ∨ script_mode (step_script s) = NonTransactional
       ∧ db_history d' = db_history d ++ [script_contents (step_script s)]).

Lemma insert_plain p : plain (insert_applied_migration_sql table p).
Proof. done. Qed.
Lemma delete_plain v : plain (delete_applied_migration_sql table v).
Proof. done. Qed.

Lemma step_script_in s : step_pair s ∈ pairs c → step_script s ∈ scripts c.
Proof. intros Hs. apply elem_of_scripts. exists (step_pair s). destruct s; naive_solver. Qed.

Definition state_sql s : str :=
  match s with
  | Apply p => insert_applied_migration_sql table p
  | Rollback p _ => delete_applied_migration_sql table (id_version (pair_id p))
  end.

Lemma execute_step_eq s :
  execute_step table s
  = execute_script_and_state_change (script_contents (step_script s)) (script_mode (step_script s)) (state_sql s).
Proof. by destruct s. Qed.

Lemma state_sql_done s d d1 d' out1 out2 : step_pair s ∈ pairs c →
  exec (script_contents (step_script s)) d = Ok (d1, out1) → exec (state_sql s) d1 = Ok (d', out2) →
  step_done s d d'.
Proof.
  intros Hp He1 He2. destruct (db_script _ _ _ _ (step_script_in s Hp) He1) as [Hr1 Hh1].
  unfold step_done. rewrite <- Hh1, <- Hr1. destruct s as [p|p a]; cbn in He2, Hp.
  - destruct (db_insert _ _ _ _ Hp He2) as [-> ?]. done.
  - destruct (db_delete _ _ _ _ Hp He2) as [-> ?]. done.
Qed.

Lemma execute_step_spec s d r w' : step_pair s ∈ pairs c →
  execute_step table s (idle d) = (r, w') →
  ∃ d', w' = idle d' ∧ match r with Ok _ => step_done s d d' | Err _ => step_failed s d d' end.
Proof.
  intros Hp. rewrite execute_step_eq. unfold execute_script_and_state_change.
  pose proof (db_plain _ (step_script_in s Hp)) as Hplain.
  assert (plain (state_sql s)) as Hplain' by (destruct s; [apply insert_plain | apply delete_plain]).
  destruct (script_mode (step_script s)) eqn:Hmode.
  - rewrite batch_atomic by (rewrite ?Forall_cons, Forall_nil; done). cbn [exec_all].
    destruct (exec (script_contents (step_script s)) d) as [[d1 out1]|e] eqn:He1; cbn [mbind result_bind].
    + destruct (exec (state_sql s) d1) as [[d2 out2]|e] eqn:He2; cbn [mbind result_bind]; intros [= <- <-].
      * exists d2. split; [done|]. by eapply state_sql_done.
      * exists d. split; [done|]. split; [done|by left].
    + intros [= <- <-]. exists d. split; [done|]. split; [done|by left].
  - unfold mbind at 1, se_bind at 1. rewrite simple_query_plain by done.
    destruct (exec (script_contents (step_script s)) d) as [[d1 out1]|e] eqn:He1.
    + rewrite batch_atomic by (rewrite ?Forall_cons, Forall_nil; done). cbn [exec_all].
      destruct (exec (state_sql s) d1) as [[d2 out2]|e] eqn:He2; cbn [mbind result_bind]; intros [= <- <-].
      * exists d2. split; [done|]. by eapply state_sql_done.
      * exists d1. destruct (db_script _ _ _ _ (step_script_in s Hp) He1) as [Hr1 Hh1].
        split; [done|]. split; [done|by right].
    + intros [= <- <-]. exists d. split; [done|]. split; [done|by left].
Qed.

(** Steps completed in order. *)
Inductive steps_done : list step → D → D → Prop :=
  | steps_nil d d' : db_rows d' = db_rows d → db_history d' = db_history d → steps_done [] d d'
  | steps_cons s l d d1 d' : step_done s d d1 → steps_done l d1 d' → steps_done (s :: l) d d'.

(** A run that stopped: a prefix of the steps completed, the next one failed. *)
Definition steps_stopped (l : list step) d d' : Prop :=
  ∃ l1 s l2 d1, l = l1 ++ s :: l2 ∧ steps_done l1 d d1 ∧ step_failed s d1 d'.

Lemma execute_steps_spec l d r w' : Forall (λ s, step_pair s ∈ pairs c) l →
  execute_steps table l (idle d) = (r, w') →
  ∃ d', w' = idle d' ∧ match r with Ok _ => steps_done l d d' | Err _ => steps_stopped l d d' end.
Proof.
  intros Hl. revert d. induction Hl as [|s l Hs Hl IH]; intros d.
  { intros [= <- <-]. exists d. split; [done|]. by constructor. }
  cbn [execute_steps]. intros [([] & w1 & Hstep & Hrest)|(e & Hstep & ->)]%se_bind_cases.
  - destruct (execute_step_spec s d _ _ Hs Hstep) as (d1 & -> & Hd1).
    apply IH in Hrest as (d' & -> & Hd'). exists d'. split; [done|]. destruct r as [[]|e].
    + by econstructor.
    + destruct Hd' as (l1 & s' & l2 & d2 & -> & Hdone & Hf). exists (s :: l1), s', l2, d2.
      split_and!; [done|by econstructor|done].
  - destruct (execute_step_spec s d _ _ Hs Hstep) as (d1 & -> & Hd1).
    exists d1. split; [done|]. exists [], s, l, d. split_and!; [done|by constructor|done].
Qed.

(** *** The statements around the steps *)
Definition same_view d d' : Prop := db_rows d' = db_rows d ∧ db_history d' = db_history d.

Lemma steps_done_view l d0 d d' d1 : same_view d0 d → same_view d' d1 → steps_done l d d' → steps_done l d0 d1.
Proof.
  intros V0 V1 Hl. revert d0 V0. induction Hl as [d d' Hr Hh|s l d d2 d' Hs Hl IH]; intros d0 [Hr0 Hh0].
  - destruct V1 as [Hr1 Hh1]. constructor; congruence.
  - apply (steps_cons _ _ _ d2); [|by apply IH].
    unfold step_done in *. by rewrite <- Hr0, <- Hh0.
Qed.

Lemma step_failed_view s d0 d d' d1 : same_view d0 d → same_view d' d1 → step_failed s d d' → step_failed s d0 d1.
Proof. intros [Hr0 Hh0] [Hr1 Hh1] [Hr Hh]. unfold step_failed. by rewrite Hr1, Hh1, <- Hr0, <- Hh0. Qed.

Lemma steps_stopped_view l d0 d d' d1 : same_view d0 d → same_view d' d1 → steps_stopped l d d' → steps_stopped l d0 d1.
Proof.
  intros V0 V1 (l1 & s & l2 & d2 & -> & Hd & Hf). exists l1, s, l2, d2.
  split_and!; [done|by eapply steps_done_view|by eapply step_failed_view].
Qed.

Lemma quiet_query sql d r w' :
  sql ∈ [create_if_missing_sql table; lock_sql lock_id; unlock_sql lock_id; select_applied_sql table] →
  simple_query_raw sql (idle d) = (r, w') → ∃ d', w' = idle d' ∧ same_view d d'
    ∧ match r with Ok out => exec sql d = Ok (d', out) | Err _ => True end.
Proof.
  intros Hin. assert (plain sql) as Hp.
  { rewrite !elem_of_cons, elem_of_nil in Hin. by destruct Hin as [->|[->|[->|[->|[]]]]]. }
  rewrite simple_query_plain by done. destruct (exec sql d) as [[d' out]|e] eqn:He; intros [= <- <-].
  - exists d'. split_and!; [done| |done]. by eapply db_quiet.
  - by exists d.
Qed.

Ltac quiet H :=
  apply quiet_query in H as (? & -> & ? & ?); [|rewrite !elem_of_cons; naive_solver].

Lemma load_spec d r w' : Forall row_ok (db_rows d) →
  load_applied_migrations table (idle d) = (r, w') →
  ∃ d', w' = idle d' ∧ same_view d d' ∧ ∀ l, r = Ok l → l = db_rows d.
Proof.
  intros Hok. unfold load_applied_migrations.
  intros [(out & w1 & Hq & Hrest)|(e & Hq & ->)]%se_bind_cases; quiet Hq; [|by eexists].
  match goal with H : exec _ _ = Ok (?d1, _) |- _ => exists d1; pose proof (db_select _ _ _ H) as (epochs & -> & He) end.
  unfold into, lift in Hrest. injection Hrest as <- <-. split_and!; [done|done|].
  intros l Hl%map_err_Ok. apply map_result_Ok in Hl. clear -Hok He Hl. revert l Hl.
  induction He as [|a e rows epochs [Hu Hp] He IH]; intros l Hl; cbn in Hl; [by inversion Hl|].
  inversion Hok as [|?? Ha Hok']; subst. inversion Hl as [|?? ? l' Hrow Hl']; subst.
  rewrite (parse_applied_row_render a e) in Hrow by done. injection Hrow as <-. f_equal. by apply IH.
Qed.

Lemma release_spec d r w' : release_advisory_lock lock_id (idle d) = (r, w') → ∃ d', w' = idle d' ∧ same_view d d'.
Proof.
  unfold release_advisory_lock.
  intros [(out & w1 & Hq & Hrest)|(e & Hq & ->)]%se_bind_cases; quiet Hq; [|by eexists].
  unfold into, lift in Hrest. injection Hrest as <- <-. by eexists.
Qed.

(** What a run of [apply] or [rollback] has done. *)
Definition outcome (make_plan : list (AppliedMigration SystemTime) → result MigrationError (MigrationPlan SystemTime))
    (r : result Error (MigrationPlan SystemTime)) d d' : Prop :=
  match r with
  | Ok plan => make_plan (db_rows d) = Ok plan ∧ steps_done (steps plan) d d'
  | Err _ => same_view d d' ∨ ∃ plan, make_plan (db_rows d) = Ok plan ∧ steps_stopped (steps plan) d d'
  end.

Lemma outcome_view make_plan r d0 d d' d1 :
  same_view d0 d → same_view d' d1 → outcome make_plan r d d' → outcome make_plan r d0 d1.
Proof.
  intros V0 V1. unfold outcome. destruct V0 as [Hr Hh] eqn:E. clear E. rewrite <- Hr. destruct r as [plan|e].
  - intros [Hp Hd]. split; [done|]. by eapply steps_done_view.
  - intros [Hs|(plan & Hp & Hd)]; [left|right; exists plan; split; [done|by eapply steps_stopped_view]].
    destruct Hs, V1. split; congruence.
Qed.

Lemma plan_and_execute_spec (m : Migrator) make_plan d r w' :
  opt_table (migrator_options m) = table → Forall row_ok (db_rows d) →
  (∀ plan, make_plan (db_rows d) = Ok plan → Forall (λ s, step_pair s ∈ pairs c) (steps plan)) →
  plan_and_execute m make_plan (idle d) = (r, w') → ∃ d', w' = idle d' ∧ outcome make_plan r d d'.
Proof.
  intros Ht Hok Hplan. unfold plan_and_execute. rewrite Ht.
  intros [(l & w1 & Hload & Hrest)|(e & Hload & ->)]%se_bind_cases;
    apply load_spec in Hload as (d1 & -> & Hv & Hl); [|done| |done]; [|exists d1; split; [done|by left]].
  rewrite (Hl l eq_refl) in Hrest. unfold mbind at 1, se_bind at 1, into, lift in Hrest.
  destruct (make_plan (db_rows d)) as [plan|e] eqn:Hp; cbn [map_err] in Hrest.
  - apply se_bind_cases in Hrest as [([] & w2 & Hex & Hrest)|(e & Hex & ->)];
      apply execute_steps_spec in Hex as (d2 & -> & Hd2); [|by apply Hplan| |by apply Hplan].
    + injection Hrest as <- <-. exists d2. split; [done|]. split; [done|]. by eapply steps_done_view.
    + exists d2. split; [done|]. right. exists plan. split; [done|]. by eapply steps_stopped_view.
  - injection Hrest as <- <-. exists d1. split; [done|]. by left.
Qed.

Lemma quiet_statement sql d r w' :
  sql ∈ [create_if_missing_sql table; lock_sql lock_id; unlock_sql lock_id; select_applied_sql table] →
  (simple_query_raw sql;; mret tt) (idle d) = (r, w') → ∃ d', w' = idle d' ∧ same_view d d'.
Proof.
  intros Hin [(out & w1 & Hq & Hrest)|(e & Hq & ->)]%se_bind_cases;
    apply quiet_query in Hq as (d1 & -> & Hv & _); [|done| |done]; [injection Hrest as <- <-|]; by exists d1.
Qed.

Lemma same_view_trans d1 d2 d3 : same_view d1 d2 → same_view d2 d3 → same_view d1 d3.
Proof. intros [] []. split; congruence. Qed.

Lemma locked_spec (m : Migrator) make_plan d r w' :
  opt_table (migrator_options m) = table → opt_lock_id (migrator_options m) = lock_id →
  Forall row_ok (db_rows d) →
  (∀ plan, make_plan (db_rows d) = Ok plan → Forall (λ s, step_pair s ∈ pairs c) (steps plan)) →
  locked m make_plan (idle d) = (r, w') → ∃ d', w' = idle d' ∧ outcome make_plan r d d'.
Proof.
  intros Ht Hlock Hok Hplan. unfold locked, ensure_state_table, acquire_advisory_lock. rewrite Ht, Hlock.
  intros [([] & w1 & Hens & Hrest)|(e & Hens & ->)]%se_bind_cases;
    (apply quiet_statement in Hens as (d1 & -> & Hv1); [|rewrite !elem_of_cons; naive_solver]);
    [|exists d1; split; [done|by left]].
  apply se_bind_cases in Hrest as [([] & w1 & Hlk & Hrest)|(e & Hlk & ->)];
    (apply quiet_statement in Hlk as (d2 & -> & Hv2); [|rewrite !elem_of_cons; naive_solver]);
    [|exists d2; split; [done|left; by eapply same_view_trans]].
  pose proof (same_view_trans _ _ _ Hv1 Hv2) as Hv.
  unfold then_unlock in Hrest.
  destruct (plan_and_execute m make_plan _) as [out w3] eqn:Hbody.
  apply plan_and_execute_spec in Hbody as (d3 & -> & Hout); [|done|by destruct Hv as [-> _]|by destruct Hv as [-> _]].
  destruct (release_advisory_lock lock_id _) as [unlock w4] eqn:Hrel.
  apply release_spec in Hrel as (d4 & -> & Hv4). injection Hrest as <- <-.
  exists d4. split; [done|]. assert (finish_locked_operation out unlock = out) as -> by (by destruct out).
  by eapply outcome_view.
Qed.

(** *** Progress of a plan *)
Definition apply_ready (l rest : list step) d : Prop :=
  consistent c (db_rows d) ∧ l ++ rest = map Apply (drop (length (db_rows d)) (pairs c)).

Definition rollback_ready (l rest : list step) d : Prop :=
  consistent c (db_rows d)
  ∧ l ++ rest = reverse (zip_with Rollback (take (length (db_rows d)) (pairs c)) (db_rows d)).

Lemma apply_step s l rest d d' : apply_ready (s :: l) rest d → step_done s d d' → apply_ready l rest d'.
Proof.
  intros [Hc Hl] [_ Hs]. destruct (drop (length (db_rows d)) (pairs c)) as [|p ps] eqn:Hd; [done|].
  cbn [map app] in Hl. injection Hl as -> Hl. destruct Hs as [time Hr].
  assert (pairs c !! length (db_rows d) = Some p) as Hp.
  { pose proof (lookup_drop (pairs c) (length (db_rows d)) 0) as Hlk. rewrite Hd, Nat.add_0_r in Hlk. done. }
  split; rewrite Hr; [by apply consistent_snoc|].
  rewrite length_app. cbn [length]. rewrite Nat.add_1_r, Hl. f_equal.
  rewrite (drop_S _ _ _ Hp) in Hd. by injection Hd.
Qed.

Lemma filter_id {A} (P : A → Prop) `{∀ x, Decision (P x)} (l : list A) : Forall P l → filter P l = l.
Proof. induction 1 as [|x l Hx Hl IH]; [done|]. by rewrite filter_cons_True, IH. Qed.

(** Deleting the last row by its version leaves the others. *)
Lemma delete_last rows a p : consistent c (rows ++ [a]) → pairs c !! length rows = Some p →
  filter (λ x : AppliedMigration SystemTime, id_version (applied_id x) ≠ id_version (pair_id p)) (rows ++ [a]) = rows.
Proof.
  intros [[_ Hs] Hr] Hp. rewrite length_app, Nat.add_1_r in Hr. rewrite (take_S_r _ _ _ Hp) in Hr.
  pose proof (lookup_lt_Some _ _ _ Hp) as Hlt.
  apply Forall2_app_inv in Hr as [Hr Ha]; [|rewrite length_take; lia].
  inversion Ha as [|?? ? ? [Hia _] _]; subst. rewrite filter_app.
  rewrite (filter_cons_False _ a []) by (rewrite Hia; auto). cbn. rewrite app_nil_r.
  apply filter_id, Forall_forall. intros x (i & Hx)%list_elem_of_lookup.
  pose proof (lookup_lt_Some _ _ _ Hx) as Hi.
  destruct (Forall2_lookup_r _ _ _ _ _ Hr Hx) as (q & Hq & [Hiq _]).
  rewrite lookup_take_lt in Hq by done. rewrite Hiq.
  assert (version_before q p) as Hqp; [|unfold version_before in Hqp; lia].
  clear -Hs Hq Hp Hi. revert i Hq Hi. generalize dependent (length rows). intros n Hp i Hq Hi.
  revert n i Hp Hq Hi. induction Hs as [|p0 ps Hs IH Hall]; intros [|n] [|i] Hp Hq Hi; cbn in *; try lia; try done.
  - injection Hq as ->. rewrite Forall_forall in Hall. by apply Hall; eapply list_elem_of_lookup_2.
  - apply (IH n i); [done..|lia].
Qed.

Lemma rollback_step s l rest d d' : rollback_ready (s :: l) rest d → step_done s d d' → rollback_ready l rest d'.
Proof.
  intros [Hc Hl] [_ Hs]. destruct (db_rows d) as [|a rows _] eqn:Hd using rev_ind; [done|].
  pose proof Hc as [_ Hr]. pose proof (records_length _ _ Hr) as Hlen. rewrite length_app in Hlen. cbn in Hlen.
  destruct (lookup_lt_is_Some_2 (pairs c) (length rows)) as [p Hp]; [lia|].
  rewrite length_app, Nat.add_1_r, (take_S_r _ _ _ Hp) in Hl.
  rewrite zip_with_app in Hl by (rewrite length_take; lia). rewrite reverse_app in Hl.
  cbn in Hl. injection Hl as -> Hl. cbn in Hs. rewrite delete_last in Hs by done.
  split; rewrite Hs; [|done]. apply (consistent_take _ _ (length rows)) in Hc. by rewrite take_app_length in Hc.
Qed.

Lemma steps_done_ready (ready : list step → list step → D → Prop) l rest d d' :
  (∀ s l rest d d', ready (s :: l) rest d → step_done s d d' → ready l rest d') →
  (∀ l rest d d', db_rows d' = db_rows d → ready l rest d → ready l rest d') →
  steps_done l d d' → ready l rest d → ready [] rest d'.
Proof. intros Hstep Hview. induction 1 as [|s l d d1 d' Hs Hl IH]; intros Hr; [by eapply Hview|]. eauto. Qed.

Lemma steps_done_history l d d' : steps_done l d d' →
  db_history d' = db_history d ++ map (λ s, script_contents (step_script s)) l.
Proof.
  induction 1 as [d d' _ Hh|s l d d1 d' [Hh _] Hl IH]; [by rewrite app_nil_r|].
  rewrite IH, Hh, <- app_assoc. done.
Qed.

Lemma apply_ready_view l rest d d' : db_rows d' = db_rows d → apply_ready l rest d → apply_ready l rest d'.
Proof. unfold apply_ready. by intros ->. Qed.
Lemma rollback_ready_view l rest d d' : db_rows d' = db_rows d → rollback_ready l rest d → rollback_ready l rest d'.
Proof. unfold rollback_ready. by intros ->. Qed.

(** However a run ends, the rows stay consistent. *)
Lemma outcome_consistent (ready : list step → list step → D → Prop) make_plan r d d' :
  (∀ s l rest d d', ready (s :: l) rest d → step_done s d d' → ready l rest d') →
  (∀ l rest d d', db_rows d' = db_rows d → ready l rest d → ready l rest d') →
  (∀ l rest d, ready l rest d → consistent c (db_rows d)) →
  (∀ l1 l2 rest d, ready (l1 ++ l2) rest d → ready l1 (l2 ++ rest) d) →
  (∀ plan, make_plan (db_rows d) = Ok plan → ∃ rest, ready (steps plan) rest d) →
  consistent c (db_rows d) → outcome make_plan r d d' → consistent c (db_rows d').
Proof.
  intros Hstep Hview Hcons Hsplit Hplan Hc. destruct r as [plan|e].
  - intros [[rest Hr]%Hplan Hd]. eapply Hcons. by eapply steps_done_ready.
  - intros [[-> _]|(plan & [rest Hr]%Hplan & l1 & s & l2 & d1 & Hl & Hd & [Hrows _])]; [done|].
    rewrite Hl in Hr. apply Hsplit in Hr. rewrite Hrows. eapply Hcons. by eapply steps_done_ready.
Qed.

(** *** Rows of a loaded catalog can be read back *)
Lemma asset_parse_ok `{!CryptoLaws} a (s : MigrationScript) : asset_parse a = Ok s →
  valid_id (script_id s) ∧ length (script_checksum s) = 32%nat.
Proof.
  unfold asset_parse. intros Ha. apply result_bind_Ok in Ha as (name & _ & Ha).
  apply result_bind_Ok in Ha as (file & Hf & Ha). apply filename_parse_Ok in Hf as [Hv _].
  unfold MigrationScript_new in Ha. apply result_bind_Ok in Ha as (md & _ & Ha). injection Ha as <-.
  split; [exact Hv|]. apply sha256_length.
Qed.

Lemma consistent_rows_ok `{!CryptoLaws} (m : Migrator) d :
  migrator_catalog m = Ok c → consistent c (db_rows d) → Forall row_ok (db_rows d).
Proof.
  unfold migrator_catalog, from_source. intros Hm [_ Hr]. apply result_bind_Ok in Hm as (assets & _ & Hm).
  apply from_assets_iff in Hm as [[Hok _] Hp].
  assert (∀ s : MigrationScript, s ∈ scripts c → valid_id (script_id s) ∧ length (script_checksum s) = 32%nat) as Hs.
  { intros s Hin. assert (Ok s ∈ map asset_parse assets) as Hin'.
    { rewrite Hp. apply list_elem_of_fmap. eauto. }
    apply list_elem_of_fmap in Hin' as (a & Ha & _). by eapply asset_parse_ok. }
  apply Forall_forall. intros a (i & Ha)%list_elem_of_lookup.
  destruct (Forall2_lookup_r _ _ _ _ _ Hr Ha) as (p & Hpp & Hid & Hu & Hd & _).
  apply lookup_take_Some in Hpp as [Hpp _]. apply list_elem_of_lookup_2 in Hpp.
  rewrite Forall_forall in Hok. destruct (Hok p Hpp) as (Hui & _ & _ & _).
  destruct (Hs (pair_up p)) as [Hv Hlu]; [apply elem_of_scripts; eauto|].
  destruct (Hs (pair_down p)) as [_ Hld]; [apply elem_of_scripts; eauto|].
  unfold row_ok. rewrite Hid, Hu, Hd, <- Hui. done.
Qed.

Lemma plan_apply_pairs (applied : list (AppliedMigration SystemTime)) plan :
  plan_apply c applied = Ok plan → Forall (λ s, step_pair s ∈ pairs c) (steps plan).
Proof.
  unfold plan_apply. intros Hp. apply result_bind_Ok in Hp as (rows & _ & Hp). injection Hp as <-.
  apply Forall_map, Forall_forall. cbn. intros p Hin. apply list_elem_of_lookup in Hin as (i & Hi).
  rewrite lookup_drop in Hi. by eapply list_elem_of_lookup_2.
Qed.

Lemma plan_rollback_pairs (applied : list (AppliedMigration SystemTime)) n plan :
  plan_rollback c applied n = Ok plan → Forall (λ s, step_pair s ∈ pairs c) (steps plan).
Proof.
  unfold plan_rollback. intros Hp. apply result_bind_Ok in Hp as (rows & _ & Hp). injection Hp as <-.
  apply Forall_forall. intros s Hin. apply list_elem_of_omap in Hin as ([i a] & _ & Hs).
  cbn in Hs. destruct (pairs c !! i) as [p|] eqn:Hi; [|done]. injection Hs as <-.
  by eapply list_elem_of_lookup_2.
Qed.

(** *** The two operations *)
Context `{!CryptoLaws} (m : Migrator).
Hypothesis m_catalog : migrator_catalog m = Ok c.
Hypothesis m_table : opt_table (migrator_options m) = table.
Hypothesis m_lock : opt_lock_id (migrator_options m) = lock_id.

Lemma migrator_plan_apply_eq (applied : list (AppliedMigration SystemTime)) : migrator_plan_apply m applied = plan_apply c applied.
Proof. unfold migrator_plan_apply. by rewrite m_catalog. Qed.
Lemma migrator_plan_rollback_eq (applied : list (AppliedMigration SystemTime)) n : migrator_plan_rollback m applied n = plan_rollback c applied n.
Proof. unfold migrator_plan_rollback. by rewrite m_catalog. Qed.

Lemma apply_outcome d r w' : consistent c (db_rows d) → apply m (idle d) = (r, w') →
  ∃ d', w' = idle d' ∧ outcome (migrator_plan_apply m) r d d'.
Proof.
  intros Hc. apply locked_spec; [done..|by eapply consistent_rows_ok|].
  intros plan. rewrite migrator_plan_apply_eq. apply plan_apply_pairs.
Qed.

Lemma rollback_outcome n d r w' : consistent c (db_rows d) → rollback m n (idle d) = (r, w') →
  ∃ d', w' = idle d' ∧ outcome (λ applied, migrator_plan_rollback m applied n) r d d'.
Proof.
  intros Hc. apply locked_spec; [done..|by eapply consistent_rows_ok|].
  intros plan. rewrite migrator_plan_rollback_eq. apply plan_rollback_pairs.
Qed.

Lemma plan_apply_ready d plan : consistent c (db_rows d) →
  migrator_plan_apply m (db_rows d) = Ok plan → apply_ready (steps plan) [] d.
Proof.
  intros Hc. rewrite migrator_plan_apply_eq, plan_apply_Ok by apply Hc. intros [= <-].
  split; [done|]. cbn [steps]. by rewrite app_nil_r.
Qed.

Lemma plan_rollback_ready n d plan : consistent c (db_rows d) →
  migrator_plan_rollback m (db_rows d) n = Ok plan →
  rollback_ready (steps plan) (drop n (reverse (zip_with Rollback (take (length (db_rows d)) (pairs c)) (db_rows d)))) d.
Proof.
  intros Hc. rewrite migrator_plan_rollback_eq, plan_rollback_Ok by apply Hc. intros [= <-].
  split; [done|]. cbn [steps]. by rewrite take_drop.
Qed.

Lemma rollback_ready_rows rest d : rollback_ready [] rest d → omap step_applied rest = reverse (db_rows d).
Proof.
  intros [[_ Hr] Hl]. pose proof (records_length _ _ Hr). cbn in Hl. rewrite Hl, omap_reverse.
  destruct (zip_rollback (take (length (db_rows d)) (pairs c)) (db_rows d)) as (_ & -> & _); [|done].
  rewrite length_take. lia.
Qed.

Lemma zip_rollback_scripts (ps : list MigrationPair) (rows : list (AppliedMigration SystemTime)) :
  length ps = length rows →
  map (λ s, script_contents (step_script s)) (zip_with Rollback ps rows) = map (λ p, script_contents (pair_down p)) ps.
Proof.
  revert rows. induction ps as [|p ps IH]; intros [|a rows] Hl; try done. cbn. f_equal. apply IH. by injection Hl.
Qed.

End running.

(** ** A concrete server *)
#[local] Instance toy_time : EpochTime := {
  f64 := unit; SystemTime := unit;
  parse_f64 _ := Ok tt; f64_is_finite _ := true; f64_negative _ := false; epoch_plus_secs _ := tt;
}.

(** The state table and the scripts run. *)
Record ToyDb := mk_toy { toy_rows : list (AppliedMigration unit); toy_history : list str }.

Definition toy_table : MigrationTable := MigrationTable_default.
Definition toy_lock : Z := DEFAULT_MIGRATION_ADVISORY_LOCK_ID.

Definition toy_exec (sql : str) (d : ToyDb) : result Error (ToyDb * list RawRows) :=
  if bool_decide (sql = create_if_missing_sql toy_table) || bool_decide (sql = lock_sql toy_lock) then Ok (d, [[]])
  else if bool_decide (sql = unlock_sql toy_lock) then Ok (d, [[[Some "t"%s]]])
  else if bool_decide (sql = select_applied_sql toy_table) then
    Ok (d, [zip_with render_row (toy_rows d) (map (λ _, "0"%s) (toy_rows d))])
  else
    match find (λ p, bool_decide (sql = insert_applied_migration_sql toy_table p)) (pairs sample_catalog) with
    | Some p => Ok (mk_toy (toy_rows d ++ [row_of () p]) (toy_history d), [])
    | None =>
      match find (λ p, bool_decide (sql = delete_applied_migration_sql toy_table (id_version (pair_id p)))) (pairs sample_catalog) with
      | Some p => Ok (mk_toy (filter (λ a, id_version (applied_id a) ≠ id_version (pair_id p)) (toy_rows d)) (toy_history d), [])
      | None => Ok (mk_toy (toy_rows d) (toy_history d ++ [sql]), [])
      end
    end.

(** Case analysis on the members of a closed list. *)
Ltac by_members H :=
  lazymatch type of H with
  | _ ∈ ?l => let l' := eval vm_compute in l in change l with l' in H;
      repeat (apply elem_of_cons in H as [->|H]); [..|by apply elem_of_nil in H]
  end.

#[local] Instance toy_db : MigrationDb (H := toy_crypto) ToyDb toy_exec sample_catalog toy_table toy_lock.
Proof.
  refine {| db_rows := toy_rows; db_history := toy_history; db_quiet := _; db_select := _; db_insert := _;
            db_delete := _; db_script := _; db_plain := _ |}.
  - intros sql d d' out Hin He. rewrite !elem_of_cons, elem_of_nil in Hin.
    destruct Hin as [->|[->|[->|[->|[]]]]]; vm_compute in He; by injection He as <- <-.
  - intros d d' out He. exists (map (λ _, "0"%s) (toy_rows d)). split.
    + assert (toy_exec (select_applied_sql toy_table) d
        = Ok (d, [zip_with render_row (toy_rows d) (map (λ _, "0"%s) (toy_rows d))])) as Heq by (vm_compute; reflexivity).
      rewrite Heq in He. by injection He as _ <-.
    + apply Forall2_fmap_r, Forall_Forall2_diag, Forall_forall. by intros [? ? ? ? ? []] _.
  - intros p d d' out Hp He. by_members Hp; vm_compute in He; injection He as <- <-; (split; [done|]); by exists tt.
  - intros p d d' out Hp He. by_members Hp; vm_compute in He; injection He as <- <-; done.
  - intros s d d' out Hs He. by_members Hs; vm_compute in He; injection He as <- <-; done.
  - intros s Hs. by_members Hs; repeat split; vm_compute; discriminate.
Defined.

Definition toy_migrator : Migrator := Migrator_new (MemoryMigrationSource sample_assets).
Definition toy_start : ToyDb := mk_toy (map (row_of ()) (take 1 (pairs sample_catalog))) [].

